(* ===== verification/_CoqProject ===== *)
-Q . S2P
Prelude.v
ResultType.v
Url.v
StreamBuffer.v
StreamStore.v
PicoHttp.v
PicoEquiv.v
PicoSafety.v
PicoStream.v
PicoRoundtrip.v
PicoRequest.v
Chunked.v
IoContext.v
IoLocking.v
IoSetup.v
AtomicWait.v
AtomicProxy.v
Awaiting.v
HttpParser.v
HttpClient.v
HttpWire.v
Endian.v
Resolver.v
Handles.v
Common.v
Concepts.v
Coroutines.v
WhenAll.v
SyncRun.v
Pipes.v
Spawn.v
IoRun.v
Generator.v
TimeDelay.v
Descriptor.v
Sockets.v
ClientLife.v
Pingpong.v
PingpongRun.v
EchoServer.v
ClientRun.v
