(* ===== verification/Prelude.v ===== *)
(** * coio: a verification library for the coroutine I/O library [libcoio]

    ** The program

    [libcoio] is a header-only C++20 library.  Its parts, bottom up:

    - an event loop over Linux's io_uring, [include/io_context.hpp]: a ring, two
      queues filled by other threads under a mutex and one filled by the loop's
      own thread; a completion resumes the coroutine that waits for it;
    - coroutine types: [future.hpp] (lazy, one awaiting coroutine),
      [generator.hpp], [details/task_with_callback.hpp], the counter of
      [details/await_counter.hpp], and what is built from them: [sync_wait.hpp],
      [when_all.hpp], [just.hpp], [fmap.hpp], [flat_map.hpp];
    - descriptors: [ioutils/*.hpp] (sockets, files, addresses), [buffer.hpp],
      [time_delay.hpp], whose operations are submitted to the ring;
    - waiting: [common/atomic_wait.hpp], which [sync_wait] and the resolver block
      in;
    - HTTP: [http/picohttpparser.h], [http/http_parser.hpp], [http/url.hpp],
      [stream_buffer.hpp], the resolver [http/resolver.hpp] with its own thread,
      and the client [http/httpclient.hpp] that uses them all over a socket;
    - [example/pingpong], an echo client and server built from the library.

    ** Files and what they model

    - [Prelude]: bytes, machine integers with their wrap-around, the
      [string_view] search, the tactics and hint databases of the library.
    - [ResultType]: [common/result_type.hpp]; the union and the flag are separate
      fields, so that the wrong member can be alive.
    - [Url]: [http/url.hpp], [url::parse].
    - [StreamBuffer]: [stream_buffer.hpp]; the six stream pointers are offsets and
      [pbump], [gbump] take an [int].  [ReadBuffer] and [ReadBufferLaws] are the
      interface that the client is proved against.  [StreamStore]: its defaulted
      special members on a store of memory blocks.
    - [PicoHttp]: the request, response and header parser, macro by macro, in a
      state and error monad; a run ends with a value, [return NULL], an access
      outside an array ([Oob]) or an exhausted bound ([Fuel]).  The SSE4.2 unit is a
      parameter: its intrinsic, and the bytes behind the range tables, which are
      shorter than the 16 bytes that are loaded from them.
      [PicoEquiv]: the SSE4.2 and the unrolled scanners against the plain loop.
      [PicoSafety]: memory safety and termination by a weakest precondition.
      [PicoStream]: answers are final.  [PicoRoundtrip] and [PicoRequest]: rendered
      response and request heads are parsed back.
    - [Chunked]: [phr_decode_chunked] in place over its buffer, and the machine
      [feed] that specifies it.
    - [IoContext]: the whole of [io_context]'s loop; liburing is the class [Uring]
      with the laws [UringLaws] and a queue of its own as an instance.  Tasks and
      coroutines may throw: the promise of a coroutine keeps the exception, that of
      a posted task leaves the loop ([Escape]).  A [post] of another thread is two
      steps, since its lock is gone when the container is changed.
      [IoLocking]: the mutex and the container accesses of the remote queues,
      interleaved between threads.  [IoSetup]: [ctx_opt], [make_params], and the
      binding of contexts to threads.  [Spawn]: [details/oneway_task.hpp], the
      frames that [co_spawn] makes.  [IoRun]: coroutines given as trees of
      operations, spawned on a context, or posted and started on its own thread,
      and run by its loop.
    - [AtomicWait]: [__cxx_atomic_wait] and the notifications, one atomic access or
      system call a step, for every strategy of the Linux build, and the accesses of
      other objects of the same table entry.  [AtomicProxy]:
      the futex on the version counter without its timeout, and the strategy that
      the library selects.
    - [Awaiting]: the atomic accesses of [future] ([FutureProtocol]), of the
      counter ([CounterProtocol]) and of [sync_wait] ([SyncWait]) as step
      relations.
    - [HttpParser]: header lists and [http_parser::parse_response].
      [HttpClient]: [build_msg], [connect], [read_until], [read_headers],
      [read_body] and [request], over the classes [Socket] and [ReadBuffer]; the
      string that the parsed headers point into is constructed and destroyed.
      [HttpWire]: the built request read by the request parser.  [ClientLife]:
      sequences of requests on one client, whose socket is a [connector] with a
      descriptor.
    - [Resolver]: address lists and their iterator ([Addresses]); the query list,
      the pending counter, the thread and the destructor ([Queries]) over the
      class [Ares] with the laws [AresLaws].
    - [Endian]: [ioutils/endian.hpp] and the addresses of [ioutils/protocol.hpp]
      ([Ipv4], [IpLocal]).
    - [Handles]: the special members of the handle owners on a store of objects.
      [Coroutines]: results and exceptions through [future_promise], [just],
      [fmap], [flat_map], [when_all].  [WhenAll]: the coroutine [when_all] with its
      tasks, their callbacks and the counter.  [SyncRun]: [sync_wait] over
      [AtomicWait], and what the reference it returns refers to.  [Pipes]: the pipe operators of [fmap] and [flat_map], with the
      life of what their results hold.  [Generator]: frame, object and iterator.
    - [Concepts]: [awaitable.hpp] and [common/type_concepts.hpp], with overload
      resolution by constraints, and [common/match_template.hpp] in the constraint
      of [time_delay].  [Common]: [scope_guard], [cpu_affinity], [ref].
    - [TimeDelay]: durations as [__kernel_timespec].  [Descriptor]: the life of one
      descriptor and the handlers of its completions.  [Sockets]: what system calls
      see of IPv4, IPv6 and local addresses, the entry that every operation of
      TCP and UDP sockets and files prepares, [bind] and [get_peer_address].
    - [Pingpong]: the client coroutine and the server session of the example over
      the two streams of one connection.  [PingpongRun]: the client program around
      it, arguments, threads with their contexts' stop flags, pending connections and
      counters.  [EchoServer]: the socket options as
      checked system calls over a kernel that is a parameter, and the server with
      its set-up, accept loop, the moves of accepted sockets and sessions.  [ClientRun]: the connections of one
      thread with the operations of [Sockets], run by the loop of [IoContext].

    ** What the theorems show

    - HTTP input is handled safely and exactly: no entry point of the parser
      leaves its arrays or loops for ever ([phr_parse_response_safe] and its
      siblings; the SSE4.2 build where the bytes behind its tables can be read,
      [sse_reads_past_tables]), both builds agree ([sse_equals_portable]), answers other than -2
      do not change with more input ([phr_parse_response_final]), rendered heads
      come back ([phr_parse_response_render], [phr_parse_request_render]), and the
      decoder refines its byte
      machine, so that it is insensitive to where the input is cut and decodes
      encoded messages ([phr_decode_chunked_refines], [phr_decode_chunked_split],
      [phr_decode_chunked_message]).
    - The client receives a response whole whatever the sizes in which the socket
      delivers it ([response_received], [read_until_first], [read_body_exact]),
      a request sends once and closes last ([request_effects]), and what it sends
      a server reads back ([request_understood]).  A client reaches one server in
      its life ([client_serves_once]).
    - The resolver answers each query at most once and loses none while its thread
      runs ([resolver_answers_once]), but the thread can end too early
      ([resolver_thread_dies]) or outlive its channel
      ([resolver_uses_destroyed_channel]); a range-for visits every address
      ([address_list_visited]).
    - Waits on atomics return, by every strategy ([wait_returns],
      [proxy_one_shot], [library_wait_latency]), unless atomics of both futex
      strategies share a table entry ([direct_waiter_starves]); the futex on the
      version needs its timeout for more than its comment says
      ([proxy_misses_wakeup]).
    - The event loop serves its queues first-in first-out without loss or
      repetition and resumes each waiting coroutine once, while posts of other
      threads do not overlap and no posted task throws; when one does, exactly the
      rest of its batch is lost ([loop_exactly_once], [run_once_serves],
      [loop_stop]); under interleaving this holds of
      [co_spawn] ([co_spawn_loses_nothing]) and fails of [post]
      ([post_can_lose_a_task]).  Loops and threads are paired as long as programs
      keep to a discipline ([loops_are_exclusive]) that [assert_bind] does not
      enforce ([binding_not_exclusive]).
    - Coroutines spawned on a context, fewer than its ring has entries, run to their
      results, whatever the kernel completes in each turn ([coroutines_run_to_completion]), and their frames
      live once ([spawned_frames_live_once]), except those a context drops when it
      ends.  So the connections of the benchmark end, with their counts
      ([connections_complete]).
    - Coroutines meet once: [future_resumes_once], [counter_resumes_once],
      [sync_wait_returns]; [sync_wait] ends with what the awaitable gave by every
      strategy of the wait, but what it returns refers to a destroyed object when
      [await_resume()] returns by value ([sync_wait_total]); across threads the
      counter can lose its wake-up ([counter_wakeup_can_be_lost]) and [when_all]
      hang ([when_all_hangs]).
    - Pipelines mean the composition of their stages ([pipeline_composes]) unless a
      stored [flat_map] was given a temporary function
      ([stored_flat_map_dangles]); [get_awaiter] and the concepts are compared with
      the language ([get_awaiter_agrees], [awaiter_rejects_handles],
      [time_delay_temporaries_only]); guards run in reverse order on every exit
      ([guards_run_in_reverse]).
    - Handles are released once, but lost by self-assignment ([owners_release_once],
      [descriptor_no_leak]);
      [stream_buffer] is a byte queue ([stream_buffer_refines_queue]), whose moves
      transfer it ([move_transfers_buffer]) and whose copies do not separate
      ([copy_shares_storage]); combinators
      obey their laws ([when_all_in_order], [map_functor]);
      [when_all] on one thread ends, after all its tasks and with their results in
      order ([when_all_completes]); operations stay in their buffers
      ([operation_in_buffers]) and addresses reach the kernel whole and
      with the family of their sockets ([kernel_sees_ipv4],
      [address_family_matches]) unless they are local ([local_address_cut]); an echo
      session gives the bytes back ([pingpong_echoes]), the benchmark counts them and
      waits for nothing but its connections ([benchmark_counts],
      [main_args_started]), and its server owns and closes its descriptors until it
      runs over its end ([server_owns_descriptors]); URLs with a path are read back
      ([parse_absolute_url]); byte order and durations convert faithfully.
    - Where the code does not do what it means to, a theorem states what it does
      ([request_reads_dead_head], [moved_generator_skips], [set_error_keeps_flag],
      [commit_beyond_int_max], [negative_length_wraps], ...).

    ** Bounds and fuel

    Loops over a buffer carry [S (buf_end - buf)] or a similar measure: each turn
    advances the pointer.  [PicoSafety] and [Chunked] prove that the bound is
    never exhausted, and so do the theorems on [read_until] and [read_body]
    (one turn per received byte; [SocketLaws] makes a turn deliver at least one
    byte or the end).  A turn of the event loop is a function without fuel; runs
    of the loop are given by the list of what other threads and the kernel do
    before each turn.  [IoRun] gives the number of turns that is enough, counting
    those in which the kernel completed all entries.  Awaiting
    in [Pipes] has fuel for the depth of nested awaitables; more of it only defines
    more, and the theorems give an amount that is enough.  Buffers are bounded by
    [INT_MAX] where an [int] holds a length.

    ** Not modelled

    liburing, c-ares and the kernel are interfaces or arguments; the Windows and
    CUDA branches of [atomic_wait.hpp]; [inet_ntop]; the throughput of the
    benchmark, a [double] that is only printed; the copy constructor of [result],
    which cannot be instantiated; [common/non_copyable.hpp], [overloaded.hpp] and
    [system_error.hpp], which compute nothing; weak memory (the atomics of the
    source are acquire/release operations, or are separated by fences, and are
    single steps here); and the destruction order of C++ locals except where a
    theorem is about it.  The bodies of [IoContext] have no state of their own
    besides their continuations: the counter that [when_all] shares between its
    tasks is in [WhenAll], and [ClientRun] takes from the loop the order in which
    the tasks end.  In [AtomicWait] the time for which waiters of other objects hold
    the mutex of a table entry is left out; in [WhenAll] a completion on another
    thread is one step, its interleaving with the await is in [Awaiting].  What the
    server does after its coroutine has run over its end is undefined and has no
    model. *)

From stdpp Require Export base list sets numbers option.
From Stdlib Require Export ZArith Lia Init.Byte.
From Stdlib Require Strings.Byte Strings.String.

Export String.StringSyntax.

(** ** Bytes and byte strings

    A [char] of the source is an 8-bit unit; [byte] is the Standard Library's
    256-constructor type and [code] is its value as an [unsigned char]. *)

Definition code (c : byte) : Z := Z.of_N (Byte.to_N c).

(** The value of the same 8 bits as a (signed) [char], the reading the x86-64
    ABI gives to a plain [char]. *)
Definition schar (c : byte) : Z := (if code c <? 128 then code c else code c - 256)%Z.

(** A C++ string literal as its bytes. *)
Definition bs (s : String.string) : list byte := String.list_byte_of_string s.
Arguments bs s%_string_scope.

#[export] Instance byte_eq_decision : EqDecision byte := Byte.byte_eq_dec.

Declare Scope byte_eq_scope.
Delimit Scope byte_eq_scope with beq.
Infix "=?" := Byte.eqb (at level 70) : byte_eq_scope.

(** ** Machine integers *)

(** Reduction of an integer to an unsigned type of [w] bits. *)
Definition wrapu (w z : Z) : Z := (z mod 2 ^ w)%Z.

(** Reduction to a two's complement type of [w] bits (C++20 conversion). *)
Definition wraps (w z : Z) : Z := ((z + 2 ^ (w - 1)) mod 2 ^ w - 2 ^ (w - 1))%Z.

Definition INT_MAX : Z := (2 ^ 31 - 1)%Z.
Definition SIZE_MAX : Z := (2 ^ 64 - 1)%Z.

(** ** [std::string_view::find]

    [find0 pat s] is the least index at which [pat] occurs in [s];
    [sv_find pat s pos] starts the search at [pos], [None] standing for
    [npos]. *)

Fixpoint prefixb (p s : list byte) : bool :=
  match p, s with
  | [], _ => true
  | _ :: _, [] => false
  | a :: p', b :: s' => (a =? b)%beq && prefixb p' s'
  end.

Fixpoint find0 (pat s : list byte) : option nat :=
  if prefixb pat s then Some 0%nat
  else match s with
       | [] => None
       | _ :: s' => S <$> find0 pat s'
       end.

Definition sv_find (pat s : list byte) (pos : nat) : option nat :=
  if (length s <? pos)%nat then None else Nat.add pos <$> find0 pat (drop pos s).

(** ** Automation *)

Create HintDb coio.
Create Rewrite HintDb coio_rw.

(** Turn the boolean tests of a translated condition into propositions. *)
Ltac boolp :=
  repeat match goal with
  | H : andb _ _ = true |- _ => apply andb_prop in H as [? ?]
  | H : andb _ _ = false |- _ => apply andb_false_iff in H
  | H : orb _ _ = true |- _ => apply orb_prop in H
  | H : orb _ _ = false |- _ => apply orb_false_iff in H as [? ?]
  | H : negb _ = true |- _ => apply negb_true_iff in H
  | H : negb _ = false |- _ => apply negb_false_iff in H
  | H : Byte.eqb _ _ = true |- _ => apply Byte.byte_dec_bl in H
  | H : Byte.eqb _ _ = false |- _ => apply Byte.eqb_false in H
  | H : (_ =? _)%nat = true |- _ => apply Nat.eqb_eq in H
  | H : (_ =? _)%nat = false |- _ => apply Nat.eqb_neq in H
  | H : (_ <? _)%nat = true |- _ => apply Nat.ltb_lt in H
  | H : (_ <? _)%nat = false |- _ => apply Nat.ltb_ge in H
  | H : (_ <=? _)%nat = true |- _ => apply Nat.leb_le in H
  | H : (_ <=? _)%nat = false |- _ => apply Nat.leb_gt in H
  | H : (_ =? _)%Z = true |- _ => apply Z.eqb_eq in H
  | H : (_ =? _)%Z = false |- _ => apply Z.eqb_neq in H
  | H : (_ <? _)%Z = true |- _ => apply Z.ltb_lt in H
  | H : (_ <? _)%Z = false |- _ => apply Z.ltb_ge in H
  | H : (_ <=? _)%Z = true |- _ => apply Z.leb_le in H
  | H : (_ <=? _)%Z = false |- _ => apply Z.leb_gt in H
  end.

(** Case analysis on the test of the first conditional of the goal. *)
Ltac case_if :=
  match goal with
  | |- context [if ?b then _ else _] => let E := fresh "E" in destruct b eqn:E; boolp
  end.

Ltac case_if_in H :=
  match type of H with
  | context [if ?b then _ else _] => let E := fresh "E" in destruct b eqn:E; boolp
  end.

(** ** Bytes *)

Lemma byte_eqb_refl c : (c =? c)%beq = true.
Proof. by apply Byte.byte_dec_lb. Qed.

Lemma byte_eqb_eq a b : (a =? b)%beq = true <-> a = b.
Proof. split; [apply Byte.byte_dec_bl | intros ->; apply byte_eqb_refl]. Qed.

Lemma byte_eqb_neq a b : (a =? b)%beq = false <-> a <> b.
Proof.
  split; [apply Byte.eqb_false |].
  destruct (Byte.eqb a b) eqn:E; [|done]. by apply byte_eqb_eq in E.
Qed.

Lemma code_bound c : (0 <= code c < 256)%Z.
Proof. unfold code. pose proof (Byte.to_N_bounded c). lia. Qed.

Lemma code_inj a b : code a = code b -> a = b.
Proof.
  unfold code. intros H. apply N2Z.inj in H.
  pose proof (Byte.of_to_N a) as Ha. rewrite H, Byte.of_to_N in Ha. congruence.
Qed.

(** A boolean statement on one byte holds when it holds of the 256 bytes. *)
Definition all_bytes : list byte :=
  omap (fun n => Byte.of_N (N.of_nat n)) (seq 0 256).

Lemma all_bytes_spec (P : byte -> bool) :
  forallb P all_bytes = true -> forall c, P c = true.
Proof.
  intros H c. rewrite forallb_forall in H. apply H.
  unfold all_bytes. apply list_elem_of_In, list_elem_of_omap.
  exists (N.to_nat (Byte.to_N c)). split.
  - apply list_elem_of_In, in_seq. pose proof (Byte.to_N_bounded c). lia.
  - rewrite N2Nat.id. apply Byte.of_to_N.
Qed.

#[export] Hint Rewrite byte_eqb_refl : coio_rw.

(** ** Machine integers *)

Lemma wraps_small w z :
  (0 < w)%Z -> (- 2 ^ (w - 1) <= z < 2 ^ (w - 1))%Z -> wraps w z = z.
Proof.
  intros Hw Hz. unfold wraps.
  assert (Hd : (2 ^ w = 2 * 2 ^ (w - 1))%Z).
  { rewrite <- Z.pow_succ_r by lia. f_equal. lia. }
  rewrite Z.mod_small by lia. lia.
Qed.

Lemma wraps32_small z : (0 <= z <= INT_MAX)%Z -> wraps 32 z = z.
Proof. intros H. unfold INT_MAX in H. apply wraps_small; simpl; lia. Qed.

Lemma wrapu_small w z : (0 <= z < 2 ^ w)%Z -> wrapu w z = z.
Proof. apply Z.mod_small. Qed.

(** ** Searching *)

Lemma prefixb_spec p s : prefixb p s = true <-> exists t, s = p ++ t.
Proof.
  revert s. induction p as [|a p IH]; intros s; simpl.
  - split; [intros _; by exists s | done].
  - destruct s as [|b s]; simpl.
    + split; [done | intros [t Ht]; done].
    + rewrite andb_true_iff, byte_eqb_eq, IH. split.
      * intros [-> [t ->]]. by exists t.
      * intros [t Ht]. simplify_eq. split; [done | by exists t].
Qed.

Lemma find0_unfold pat s :
  find0 pat s = if prefixb pat s then Some 0%nat
                else match s with [] => None | _ :: s' => S <$> find0 pat s' end.
Proof. by destruct s. Qed.

Lemma find0_Some pat s i :
  find0 pat s = Some i <->
  (i <= length s)%nat /\ prefixb pat (drop i s) = true /\
  forall j, (j < i)%nat -> prefixb pat (drop j s) = false.
Proof.
  revert i. induction s as [|c s IH]; intros i; rewrite find0_unfold; case_if.
  - split.
    + intros [= <-]. split_and!; [simpl; lia | done | lia].
    + intros (H & _). simpl in H. f_equal. lia.
  - split; [done|]. intros (H & Hp & _). destruct i; simpl in *; [congruence | lia].
  - split.
    + intros [= <-]. split_and!; [lia | done | lia].
    + intros (H & Hp & Hj). destruct i; [done|].
      specialize (Hj 0%nat ltac:(lia)). simpl in Hj. congruence.
  - rewrite fmap_Some. split.
    + intros (k & Hk & ->). apply IH in Hk as (Hl & Hp & Hj).
      split_and!; [simpl; lia | done |].
      intros [|j] Hlt; [done | apply Hj; lia].
    + intros (Hl & Hp & Hj). destruct i as [|k]; [simpl in Hp; congruence|].
      exists k. split; [|done]. apply IH. simpl in *. split_and!; [lia | done |].
      intros j Hlt. apply (Hj (S j)). lia.
Qed.

Lemma find0_None pat s :
  find0 pat s = None <-> forall i, (i <= length s)%nat -> prefixb pat (drop i s) = false.
Proof.
  induction s as [|c s IH]; rewrite find0_unfold; case_if.
  - split; [done|]. intros H. specialize (H 0%nat ltac:(lia)). simpl in H. congruence.
  - split; [|done]. intros _ i Hi. simpl in Hi. by replace i with 0%nat by lia.
  - split; [done|]. intros H. specialize (H 0%nat ltac:(lia)). simpl in H. congruence.
  - rewrite fmap_None, IH. split.
    + intros H [|i] Hi; [done|]. simpl in *. apply H. lia.
    + intros H i Hi. apply (H (S i)). simpl. lia.
Qed.

(** The occurrence found splits the text around the pattern. *)
Lemma find0_split pat s i :
  find0 pat s = Some i -> s = take i s ++ pat ++ drop (i + length pat) s.
Proof.
  intros H. apply find0_Some in H as (Hl & Hp & _).
  apply prefixb_spec in Hp as [t Ht].
  rewrite <- (take_drop i s) at 1. f_equal. rewrite Ht. f_equal.
  rewrite <- drop_drop, Ht, drop_app_length. done.
Qed.

Lemma prefixb_app p s t : prefixb p s = true -> prefixb p (s ++ t) = true.
Proof.
  rewrite !prefixb_spec. intros [u ->]. exists (u ++ t). by rewrite app_assoc.
Qed.

(** An occurrence that fits in [s] is an occurrence of [s ++ t] and back. *)
Lemma prefixb_app_inv p s t :
  (length p <= length s)%nat -> prefixb p (s ++ t) = prefixb p s.
Proof.
  revert s. induction p as [|a p IH]; intros [|b s] H; simpl in *; try done; [lia|].
  rewrite IH by lia. done.
Qed.

Lemma prefixb_length p s : prefixb p s = true -> (length p <= length s)%nat.
Proof. rewrite prefixb_spec. intros [t ->]. rewrite length_app. lia. Qed.

Lemma find0_length pat s i : find0 pat s = Some i -> (i + length pat <= length s)%nat.
Proof.
  intros (Hl & Hp & _)%find0_Some. apply prefixb_length in Hp.
  rewrite length_drop in Hp. lia.
Qed.

(** A first occurrence stays the first one when text is appended. *)
Lemma find0_app pat s t i : find0 pat s = Some i -> find0 pat (s ++ t) = Some i.
Proof.
  intros H. pose proof (find0_length _ _ _ H) as Hlen.
  apply find0_Some in H as (Hl & Hp & Hj). apply find0_Some.
  rewrite length_app. split_and!; [lia | |].
  - rewrite drop_app_le by lia. by apply prefixb_app.
  - intros j Hlt. rewrite drop_app_le by lia.
    rewrite prefixb_app_inv; [by apply Hj | rewrite length_drop; lia].
Qed.

(** ** Updating one element of a list *)

Lemma sum_list_with_insert {A} (f : A -> nat) (l : list A) i x y :
  l !! i = Some x -> (sum_list_with f (<[i := y]> l) + f x = sum_list_with f l + f y)%nat.
Proof.
  revert i. induction l as [|a l IH]; intros [|i]; simpl; [done..| |].
  - intros [= ->]. lia.
  - intros H. specialize (IH i H). lia.
Qed.

Lemma alter_known {A} (g : A -> A) (l : list A) i x :
  l !! i = Some x -> alter g i l = <[i := g x]> l.
Proof.
  revert i. induction l as [|a l IH]; intros [|i] H; simpl in *; [done..|congruence|].
  f_equal. by apply IH.
Qed.
