(* ===== verification/ResultType.v ===== *)
(** * [include/common/result_type.hpp]: the [result<Value, Err>] sum type

    The class keeps a union of a [Value] and an [Err] beside a flag
    [m_iserr].  The model keeps the two apart, as the code does: [m_store] says
    which union member is alive and [m_iserr] which one the code believes to be
    alive.  An access to a member that is not alive is undefined behaviour and
    is [None] here.  [moved_val] and [moved_err] are the states in which the
    move constructors of the two type arguments leave their source. *)

From S2P Require Import Prelude.

(** The union of lines 136-139 and its liveness. *)
Inductive storage (V E : Type) :=
| st_val (v : V)
| st_err (e : E)
| st_dead.
Arguments st_val {V E} v.
Arguments st_err {V E} e.
Arguments st_dead {V E}.

Record result (V E : Type) := mk_result {
  m_store : storage V E;
  m_iserr : bool
}.
Arguments mk_result {V E} _ _.
Arguments m_store {V E} _.
Arguments m_iserr {V E} _.

Section operations.
Context {V E : Type}.
Variable moved_val : V -> V.
Variable moved_err : E -> E.

(** [result(Value v)] *)
Definition result_value (v : V) : result V E := mk_result (st_val v) false.

(** [result(error<E> &&e)] *)
Definition result_error (e : E) : result V E := mk_result (st_err e) true.

Definition is_error (r : result V E) : bool := m_iserr r.

(** [value()] and [get_error()] through the laundered member pointers. *)
Definition value (r : result V E) : option V :=
  match m_store r with st_val v => Some v | _ => None end.

Definition get_error (r : result V E) : option E :=
  match m_store r with st_err e => Some e | _ => None end.

(** [~result()]: destroys the member the flag names. *)
Definition destroy (r : result V E) : option (result V E) :=
  if is_error r then _ ← get_error r; Some (mk_result st_dead (m_iserr r))
  else _ ← value r; Some (mk_result st_dead (m_iserr r)).

(** [result(result &&other)]: the new object and what is left of [other]. *)
Definition move_ctor (other : result V E) : option (result V E * result V E) :=
  if is_error other then
    e ← get_error other;
    Some (mk_result (st_err e) (m_iserr other),
          mk_result (st_err (moved_err e)) (m_iserr other))
  else
    v ← value other;
    Some (mk_result (st_val v) (m_iserr other),
          mk_result (st_val (moved_val v)) (m_iserr other)).

(** [operator=(result &&other)]; [same] is the self-assignment test. *)
Definition move_assign (same : bool) (this other : result V E)
  : option (result V E * result V E) :=
  if same then Some (this, this)
  else _ ← destroy this; move_ctor other.

(** [set_error] and [set_value] destroy [*this] and construct a union member;
    neither writes [m_iserr]. *)
Definition set_error (r : result V E) (e : E) : option (result V E) :=
  r' ← destroy r; Some (mk_result (st_err e) (m_iserr r')).

Definition set_value (r : result V E) (v : V) : option (result V E) :=
  r' ← destroy r; Some (mk_result (st_val v) (m_iserr r')).

End operations.

(** [map(F &&f)] for an [f] with a result; the lvalue and the rvalue overload
    return the same object. *)
Definition map {V E R : Type} (f : V -> R) (r : result V E) : option (result R E) :=
  if is_error r then e ← get_error r; Some (result_error e)
  else v ← value r; Some (result_value (f v)).

(** [map(F &&f)] for an [f] that returns [void]: [f] runs for its effect on a
    state [S], and the result carries a [void_t]. *)
Definition map_void {V E S : Type} (f : V -> S -> S) (r : result V E) (s : S)
  : option (result unit E * S) :=
  if is_error r then e ← get_error r; Some (result_error e, s)
  else v ← value r; Some (result_value tt, f v s).

(** ** Well-formedness: the flag names the live member *)

Definition wf_result {V E} (r : result V E) : Prop :=
  match m_store r with
  | st_val _ => m_iserr r = false
  | st_err _ => m_iserr r = true
  | st_dead => False
  end.

(** The mathematical sum a well-formed object stands for. *)
Definition as_sum {V E} (r : result V E) : option (V + E) :=
  match m_store r with
  | st_val v => Some (inl v)
  | st_err e => Some (inr e)
  | st_dead => None
  end.

(** Case analysis on a well-formed object. *)
Lemma wf_result_cases {V E} (r : result V E) :
  wf_result r -> (exists v, r = result_value v) \/ (exists e, r = result_error e).
Proof.
  destruct r as [[v|e|] fl]; simpl; intros H; unfold wf_result in H; simpl in H; subst.
  - left. by exists v.
  - right. by exists e.
  - done.
Qed.

Ltac result_cases H :=
  let v := fresh "v" in let e := fresh "e" in
  destruct (wf_result_cases _ H) as [[v ->]|[e ->]].

Lemma wf_result_value {V E} (v : V) : wf_result (result_value (E := E) v).
Proof. done. Qed.

Lemma wf_result_error {V E} (e : E) : wf_result (result_error (V := V) e).
Proof. done. Qed.

#[export] Hint Resolve wf_result_value wf_result_error : coio.

Lemma destroy_wf {V E} (r : result V E) :
  wf_result r -> destroy r = Some (mk_result st_dead (m_iserr r)).
Proof. intros H. by result_cases H. Qed.

Section laws.
Context {V E : Type}.
Variable moved_val : V -> V.
Variable moved_err : E -> E.

(** Moving a well-formed [result], by construction or by assignment to
    another object, never touches a dead union member; the target holds what
    the source held, and both objects are well-formed afterwards. *)
Theorem move_preserves (this other : result V E) :
  wf_result this -> wf_result other ->
  exists this' other',
    move_ctor moved_val moved_err other = Some (this', other') /\
    move_assign moved_val moved_err false this other = Some (this', other') /\
    as_sum this' = as_sum other /\ wf_result this' /\ wf_result other'.
Proof.
  intros H1 H2. unfold move_assign. rewrite (destroy_wf _ H1). simpl.
  result_cases H2; eexists _, _; split_and!; done.
Qed.

(** [map] is the functorial action of the sum on well-formed objects:
    it propagates an error unchanged without calling [f], and composes. *)
Theorem map_functor {R Q : Type} (f : V -> R) (g : R -> Q) (r : result V E) :
  wf_result r ->
  exists r1 r2,
    map f r = Some r1 /\ map g r1 = Some r2 /\ map (g ∘ f) r = Some r2 /\
    map id r = Some r /\ wf_result r1 /\
    as_sum r1 = (sum_map f id) <$> as_sum r.
Proof. intros H. result_cases H; eexists _, _; split_and!; done. Qed.

(** [set_error] on an object that holds a value leaves the flag false, so
    the object no longer reports the error, and its destruction accesses the
    dead [Value] member (undefined behaviour). *)
Theorem set_error_keeps_flag (v : V) (e : E) :
  exists r, set_error (result_value v) e = Some r /\
            is_error r = false /\ get_error r = Some e /\
            value r = None /\ destroy r = None /\ ~ wf_result r.
Proof. eexists. split_and!; done. Qed.

End laws.

Lemma move_preserves_witness :
  wf_result (result_value (E := bool) 1) /\
  exists this' other',
    move_ctor (fun _ => 0) id (result_error true) = Some (this', other') /\
    move_assign (fun _ => 0) id false (result_value 1) (result_error true)
      = Some (this', other') /\
    as_sum this' = as_sum (result_error (V := nat) true) /\
    wf_result this' /\ wf_result other'.
Proof.
  split; [done|].
  exact (move_preserves (fun _ => 0) id (result_value 1) (result_error true) eq_refl eq_refl).
Defined.

Lemma map_functor_witness :
  exists r1 r2 : result nat bool,
    map S (result_value 1) = Some r1 /\ map S r1 = Some r2 /\
    map (S ∘ S) (result_value 1) = Some r2 /\
    map id (result_value (E := bool) 1) = Some (result_value 1) /\ wf_result r1 /\
    as_sum r1 = (sum_map S id) <$> as_sum (result_value 1).
Proof. exact (map_functor S S (result_value 1) eq_refl). Defined.
