(* ===== verification/Url.v ===== *)
(** * [include/http/url.hpp]: [coio::url]

    [url::parse] splits [proto://host/path?query] with [string_view] searches
    and views of the input.  A view is modelled by the bytes it shows. *)

From S2P Require Import Prelude ResultType.

Record url := mk_url {
  proto : list byte;
  host : list byte;
  path : list byte;
  query : list byte
}.

Inductive url_err := invalid_proto | invalid_host | invalid_path | invalid_query.

Definition url_err_to_string (e : url_err) : list byte :=
  match e with
  | invalid_proto => bs "invalid_proto"
  | invalid_host => bs "invalid_host"
  | invalid_path => bs "invalid_path"
  | invalid_query => bs "invalid_query"
  end.

Definition SEP_PROTO : list byte := bs "://".
Definition SLASH : list byte := ["/"%byte].
Definition QMARK : list byte := ["?"%byte].

(** [url::parse]; [take]/[drop] are [substr(0, pos)] and [remove_prefix]. *)
Definition parse (url_str : list byte) : result url url_err :=
  match sv_find SEP_PROTO url_str 0 with
  | None => result_error invalid_proto
  | Some pos =>
      let proto := take pos url_str in
      let url_str := drop (length proto + 3) url_str in
      match sv_find SLASH url_str 0 with
      | None => result_error invalid_host
      | Some pos =>
          let host := take pos url_str in
          let url_str := drop (length host) url_str in
          match sv_find QMARK url_str 0 with
          | None => result_value (mk_url proto host url_str [])
          | Some pos =>
              let path := take pos url_str in
              let url_str := drop (length path + 1) url_str in
              result_value (mk_url proto host path url_str)
          end
      end
  end.

(** ** Specification: the text of a URL *)

(** The text [parse] reads back; [q] is the query when a ['?'] is present. *)
Definition render (p h pa : list byte) (q : option (list byte)) : list byte :=
  p ++ SEP_PROTO ++ h ++ pa ++ match q with None => [] | Some q => QMARK ++ q end.

(** [c] does not occur in [s]. *)
Definition absent (c : byte) (s : list byte) : Prop := c ∉ s.

(** The components [parse] recovers: a scheme without the separator (nor a
    tail that forms one with the text that follows it), a host without a
    slash, a path that starts with a slash and has no question mark. *)
Record url_parts (p h pa : list byte) : Prop := {
  parts_proto : find0 SEP_PROTO (p ++ SEP_PROTO) = Some (length p);
  parts_host : absent "/"%byte h;
  parts_path_head : head pa = Some "/"%byte;
  parts_path : absent "?"%byte pa
}.

(** ** Searching for one character *)

Lemma prefixb_single c s : prefixb [c] s = true <-> head s = Some c.
Proof.
  destruct s as [|d s]; simpl; [done|].
  rewrite andb_true_r, byte_eqb_eq. split; [by intros -> | by intros [= ->]].
Qed.

Lemma find0_single_None c s : find0 [c] s = None <-> absent c s.
Proof.
  unfold absent. induction s as [|d s IH]; rewrite find0_unfold.
  - simpl. split; [intros _; apply not_elem_of_nil | done].
  - destruct (prefixb [c] (d :: s)) eqn:E.
    + apply prefixb_single in E. simpl in E. simplify_eq. split; [done | intros []; constructor].
    + assert (d <> c) by (intros ->; simpl in E; by rewrite byte_eqb_refl in E).
      rewrite fmap_None, IH, not_elem_of_cons. clear IH. split; [split; congruence | tauto].
Qed.

Lemma find0_single_app c s t :
  absent c s -> find0 [c] (s ++ c :: t) = Some (length s).
Proof.
  unfold absent. induction s as [|d s IH]; intros H; rewrite find0_unfold; simpl.
  - by rewrite byte_eqb_refl.
  - rewrite (proj2 (byte_eqb_neq c d)) by set_solver. simpl.
    rewrite IH by set_solver. done.
Qed.

Lemma find0_single_Some c s i :
  find0 [c] s = Some i -> absent c (take i s) /\ s = take i s ++ c :: drop (S i) s.
Proof.
  intros H. pose proof (find0_split _ _ _ H) as Hs. split.
  - apply find0_Some in H as (_ & _ & Hj). unfold absent. intros Hin.
    apply list_elem_of_lookup in Hin as [j Hj'].
    apply lookup_take_Some in Hj' as [Hl Hlt].
    specialize (Hj j Hlt). rewrite (drop_S _ _ _ Hl) in Hj. simpl in Hj.
    by rewrite byte_eqb_refl in Hj.
  - rewrite Hs at 1. simpl. by rewrite Nat.add_1_r.
Qed.

Lemma sv_find_0 pat s : sv_find pat s 0 = find0 pat s.
Proof.
  unfold sv_find. simpl. rewrite drop_0. by destruct (find0 pat s).
Qed.

(** ** Theorems *)

Lemma find0_proto p h pa q :
  url_parts p h pa -> find0 SEP_PROTO (render p h pa q) = Some (length p).
Proof.
  intros [Hp _ _ _]. unfold render. rewrite app_assoc. by apply find0_app.
Qed.

(** The components that [parse] recovers are read back. *)
Lemma parse_render p h pa q :
  url_parts p h pa ->
  parse (render p h pa q) = result_value (mk_url p h pa (default [] q)).
Proof.
  intros H. unfold parse. rewrite !sv_find_0, (find0_proto _ _ _ _ H).
  destruct H as [_ Hh Hpa Hq].
  destruct pa as [|c pa]; simplify_eq/=.
  assert (Hd : drop (length (take (length p) (render p h ("/"%byte :: pa) q)) + 3)
            (render p h ("/"%byte :: pa) q)
          = h ++ "/"%byte :: pa ++ match q with None => [] | Some q => QMARK ++ q end).
  { unfold render. rewrite take_app_length, <- drop_drop, drop_app_length. done. }
  rewrite Hd. unfold render. rewrite take_app_length.
  rewrite sv_find_0. change SLASH with ["/"%byte].
  rewrite find0_single_app by done. rewrite take_app_length, drop_app_length.
  rewrite sv_find_0. change QMARK with ["?"%byte].
  destruct q as [q|].
  - change ("/"%byte :: pa ++ ["?"%byte] ++ q) with (("/"%byte :: pa) ++ "?"%byte :: q).
    rewrite find0_single_app, take_app_length by done.
    rewrite <- drop_drop, drop_app_length. done.
  - rewrite app_nil_r. rewrite (proj2 (find0_single_None _ _) Hq). done.
Qed.

(** [parse] is sound: the components it returns spell the input, the host
    ends at the first slash after the separator and the path at the first
    question mark. *)
Theorem parse_sound s u :
  parse s = result_value u ->
  exists q, s = render (proto u) (host u) (path u) q /\
            query u = default [] q /\
            url_parts (proto u) (host u) (path u).
Proof.
  unfold parse. rewrite sv_find_0.
  destruct (find0 SEP_PROTO s) as [i|] eqn:Ei; [|done].
  pose proof (find0_split _ _ _ Ei) as Hs. pose proof (find0_length _ _ _ Ei) as Hi.
  simpl in Hi. rewrite length_take_le by lia.
  set (r := drop (i + 3) s) in *. rewrite sv_find_0.
  destruct (find0 SLASH r) as [j|] eqn:Ej; [|done].
  destruct (find0_single_Some _ _ _ Ej) as [Hj1 Hj2].
  pose proof (find0_length _ _ _ Ej) as Hjl. simpl in Hjl.
  rewrite length_take_le by lia.
  assert (Hr : drop j r = "/"%byte :: drop (S j) r).
  { rewrite Hj2 at 1. rewrite drop_app_length'; [done | rewrite length_take; lia]. }
  assert (Hparts : forall pa, head pa = Some "/"%byte -> absent "?"%byte pa ->
                   url_parts (take i s) (take j r) pa).
  { intros pa H1 H2. split; [|done..].
    rewrite length_take_le by lia.
    apply find0_Some in Ei as (_ & Hp & Hb). apply find0_Some.
    rewrite length_app, length_take_le by lia. split_and!; [lia | |].
    - rewrite drop_app_length' by (rewrite length_take; lia). done.
    - intros k Hk. specialize (Hb k Hk). rewrite Hs in Hb.
      rewrite app_assoc in Hb. rewrite drop_app_le in Hb
        by (rewrite length_app, length_take; simpl; lia).
      rewrite prefixb_app_inv in Hb; [done|].
      rewrite length_drop, length_app, length_take. simpl. lia. }
  rewrite sv_find_0. destruct (find0 QMARK (drop j r)) as [k|] eqn:Ek.
  - intros [= <-]. simpl. destruct (find0_single_Some _ _ _ Ek) as [Hk1 Hk2].
    pose proof (find0_length _ _ _ Ek) as Hkl. simpl in Hkl.
    rewrite length_take_le by lia.
    exists (Some (drop (k + 1) (drop j r))). split_and!; [|done|].
    + unfold render. rewrite Hs at 1. do 2 f_equal. change (drop (i + length SEP_PROTO) s) with r.
      rewrite <- (take_drop j r) at 1. f_equal. rewrite Hk2 at 1.
      by rewrite Nat.add_1_r.
    + apply Hparts; [|done]. rewrite Hr in Hk2 |- *. destruct k; [|done].
      simpl in Ek. rewrite Hr in Ek. vm_compute in Ek. done.
  - intros [= <-]. simpl. exists None. split_and!; [|done|].
    + unfold render. rewrite app_nil_r, take_drop. exact Hs.
    + apply Hparts; [by rewrite Hr | by apply find0_single_None].
Qed.

(** The error cases of [parse] are exactly: no ["://"], or no slash after
    it; the other two error codes are never returned. *)
Theorem parse_error s e :
  parse s = result_error e <->
  (e = invalid_proto /\ find0 SEP_PROTO s = None) \/
  (e = invalid_host /\
   exists i, find0 SEP_PROTO s = Some i /\ absent "/"%byte (drop (i + 3) s)).
Proof.
  unfold parse. rewrite sv_find_0.
  destruct (find0 SEP_PROTO s) as [i|] eqn:Ei.
  - pose proof (find0_length _ _ _ Ei) as Hi. simpl in Hi.
    rewrite length_take_le by lia. rewrite sv_find_0.
    change SLASH with ["/"%byte].
    destruct (find0 ["/"%byte] (drop (i + 3) s)) as [j|] eqn:Ej.
    + rewrite sv_find_0. split.
      * destruct (find0 QMARK _); discriminate.
      * intros [[_ ?]|[_ (k & [= <-] & Ha)]]; [done|].
        apply find0_single_None in Ha. congruence.
    + split.
      * intros [= <-]. right. split; [done|]. exists i. by rewrite <- find0_single_None.
      * by intros [[_ ?]|[-> _]].
  - split; [intros [= <-]; by left |]. intros [[-> _]|[_ (i & ? & _)]]; done.
Qed.

(** ** URLs as RFC 3986 writes them, without a fragment *)

(** [scheme "://" authority path-abempty [ "?" query ]]: no colon in the scheme, the
    authority ends before the first slash or question mark, and the path is empty or
    starts with a slash. *)
Record absolute_url (p h pa : list byte) : Prop := {
  au_scheme : absent ":"%byte p;
  au_authority : absent "/"%byte h /\ absent "?"%byte h;
  au_path : pa = [] \/ head pa = Some "/"%byte;
  au_no_query : absent "?"%byte pa
}.

Lemma find_scheme p rest : absent ":"%byte p -> find0 SEP_PROTO (p ++ SEP_PROTO ++ rest) = Some (length p).
Proof.
  unfold absent. induction p as [|c p IH]; intros H; rewrite find0_unfold; [done|].
  change (prefixb SEP_PROTO ((c :: p) ++ SEP_PROTO ++ rest))
    with ((":"%byte =? c)%beq && prefixb (bs "//") (p ++ SEP_PROTO ++ rest)).
  rewrite (proj2 (byte_eqb_neq _ c)) by set_solver. cbn [andb app].
  rewrite IH by set_solver. done.
Qed.

(** Without a path the text after the authority is searched for the slash. *)
Lemma parse_after_scheme p rest :
  absent ":"%byte p ->
  parse (p ++ SEP_PROTO ++ rest) =
  match find0 SLASH rest with
  | None => result_error invalid_host
  | Some i => match find0 QMARK (drop i rest) with
              | None => result_value (mk_url p (take i rest) (drop i rest) [])
              | Some j => result_value (mk_url p (take i rest) (take j (drop i rest)) (drop (j + 1) (drop i rest)))
              end
  end.
Proof.
  intros Hp. unfold parse. rewrite sv_find_0, find_scheme, take_app_length by done. cbv zeta.
  rewrite <- drop_drop, drop_app_length. change (drop 3 (SEP_PROTO ++ rest)) with rest.
  rewrite sv_find_0. destruct (find0 SLASH rest) as [i|] eqn:Ei; [|done].
  pose proof (find0_length _ _ _ Ei) as Hi. simpl in Hi. rewrite length_take_le by lia. rewrite sv_find_0.
  destruct (find0 QMARK (drop i rest)) as [j|] eqn:Ej; [|done].
  pose proof (find0_length _ _ _ Ej) as Hj. simpl in Hj. by rewrite length_take_le by lia.
Qed.

(** C37: what [parse] makes of an absolute URL, with or without a query.  When it has
    a path, its four components are read back.  When the path is empty, which the
    grammar allows, the URL is refused as [invalid_host] unless its query has a
    slash, and is then misread: the question mark and the query up to that slash
    become part of the host. *)
Theorem parse_absolute_url p h pa q :
  absolute_url p h pa ->
  (pa <> [] -> parse (render p h pa q) = result_value (mk_url p h pa (default [] q))) /\
  (pa = [] -> absent "/"%byte (default [] q) -> parse (render p h pa q) = result_error invalid_host) /\
  (forall q1 q2, pa = [] -> q = Some (q1 ++ "/"%byte :: q2) -> absent "/"%byte q1 ->
     exists u, parse (render p h pa q) = result_value u /\ host u = h ++ QMARK ++ q1).
Proof.
  intros [Hp [Hh1 Hh2] Hpa Hq]. unfold absent in *. split_and!.
  - intros N. apply parse_render. split; [|done | by destruct Hpa | done].
    rewrite <- (app_nil_r SEP_PROTO). by apply find_scheme.
  - intros -> Ha. unfold render. rewrite parse_after_scheme by done.
    change SLASH with ["/"%byte]. rewrite (proj2 (find0_single_None _ _)); [done|]. unfold absent, QMARK.
    destruct q as [q|]; simpl in *; [|by rewrite app_nil_r]. set_solver.
  - intros q1 q2 -> -> H1. unfold render. rewrite parse_after_scheme by done.
    replace (h ++ [] ++ QMARK ++ q1 ++ "/"%byte :: q2) with ((h ++ QMARK ++ q1) ++ "/"%byte :: q2)
      by (simpl; by rewrite <- app_assoc).
    change SLASH with ["/"%byte]. rewrite find0_single_app by (unfold absent, QMARK; set_solver).
    rewrite take_app_length. destruct (find0 QMARK _); by eexists.
Qed.

Definition sample_url : list byte := bs "https://en.cppreference.com/w/cpp/20?x=1".

Lemma parse_absolute_url_witness :
  parse sample_url
  = result_value (mk_url (bs "https") (bs "en.cppreference.com") (bs "/w/cpp/20") (bs "x=1")) /\
  parse (bs "http://purecpp.org") = result_error invalid_host /\
  (exists u, parse (bs "http://h?x=/y") = result_value u /\ host u = bs "h?x=").
Proof.
  assert (Ab : forall p h pa, bool_decide (":"%byte ∉ p /\ ("/"%byte ∉ h /\ "?"%byte ∉ h) /\
      (pa = [] \/ head pa = Some "/"%byte) /\ "?"%byte ∉ pa) = true -> absolute_url p h pa).
  { intros p h pa H. apply bool_decide_eq_true_1 in H as (? & ? & ? & ?). by split. }
  split_and!.
  - apply (parse_absolute_url (bs "https") (bs "en.cppreference.com") (bs "/w/cpp/20") (Some (bs "x=1")));
      [by apply Ab | discriminate].
  - apply (parse_absolute_url (bs "http") (bs "purecpp.org") [] None);
      [by apply Ab | reflexivity | apply not_elem_of_nil].
  - apply (parse_absolute_url (bs "http") (bs "h") [] (Some (bs "x=/y")) ) with (q1 := bs "x=") (q2 := bs "y");
      [by apply Ab | reflexivity | reflexivity |]. apply (bool_decide_unpack _). vm_compute. exact I.
Defined.

Lemma parse_sound_witness :
  exists q, sample_url = render (bs "https") (bs "en.cppreference.com") (bs "/w/cpp/20") q /\
            bs "x=1" = default [] q /\
            url_parts (bs "https") (bs "en.cppreference.com") (bs "/w/cpp/20").
Proof.
  exact (parse_sound sample_url
           (mk_url (bs "https") (bs "en.cppreference.com") (bs "/w/cpp/20") (bs "x=1"))
           eq_refl).
Defined.
