(* ===== verification/StreamBuffer.v ===== *)
(** * [include/stream_buffer.hpp]: [coio::stream_buffer]

    A [std::streambuf] over a [std::vector<char>].  The six stream pointers are
    offsets from [m_buf.data()].  [std::streambuf]'s own members ([setp],
    [setg], [pbump], [gbump], [sputc], [sbumpc]) are the C++ library's and are
    written out here, with the [int] parameter of the two bumps: the argument
    of type [size_t] that the code passes is converted modulo [2^32].

    A theorem about data says that the buffer implements a byte queue, stated
    once as the interface [ReadBuffer] that the HTTP client uses. *)

From S2P Require Import Prelude.
Local Open Scope Z_scope.

Record stream_buffer := mk_sb {
  m_buf : list byte;
  eback : Z; gptr : Z; egptr : Z;
  pbase : Z; pptr : Z; epptr : Z
}.

(** ** The [std::streambuf] base class *)

Definition setp (b e : Z) (st : stream_buffer) : stream_buffer :=
  mk_sb (m_buf st) (eback st) (gptr st) (egptr st) b b e.

Definition setg (b c e : Z) (st : stream_buffer) : stream_buffer :=
  mk_sb (m_buf st) b c e (pbase st) (pptr st) (epptr st).

(** [pbump(int n)] and [gbump(int n)]: the caller's value is converted to
    [int] first. *)
Definition pbump (n : Z) (st : stream_buffer) : stream_buffer :=
  mk_sb (m_buf st) (eback st) (gptr st) (egptr st)
        (pbase st) (pptr st + wraps 32 n) (epptr st).

Definition gbump (n : Z) (st : stream_buffer) : stream_buffer :=
  mk_sb (m_buf st) (eback st) (gptr st + wraps 32 n) (egptr st)
        (pbase st) (pptr st) (epptr st).

(** The bytes of [m_buf] from offset [p] to offset [q]. *)
Definition slice (p q : Z) (b : list byte) : list byte :=
  take (Z.to_nat (q - p)) (drop (Z.to_nat p) b).

(** Stores [l] at offset [p]: the write through a raw pointer or a span. *)
Definition store_at (p : Z) (l : list byte) (b : list byte) : list byte :=
  take (Z.to_nat p) b ++ l ++ drop (Z.to_nat p + length l) b.

(** [std::vector<char>::max_size()]; a larger [resize] throws. *)
Definition VEC_MAX : Z := 2 ^ 63 - 1.

Definition vec_resize (n : Z) (b : list byte) : option (list byte) :=
  if VEC_MAX <? n then None
  else Some (take (Z.to_nat n) b ++ replicate (Z.to_nat n - length b) x00).

(** ** Members of [stream_buffer] *)

(** [stream_buffer()] *)
Definition sb_init : stream_buffer :=
  setg 0 0 0 (setp 0 128 (mk_sb (replicate 128 x00) 0 0 0 0 0 0)).

Definition commit (n : Z) (st : stream_buffer) : stream_buffer :=
  let st := pbump (Z.min n (wrapu 64 (epptr st - pptr st))) st in
  setg (eback st) (gptr st) (pptr st) st.

Definition consume (n : Z) (st : stream_buffer) : stream_buffer :=
  let st := if egptr st <? pptr st then setg (eback st) (gptr st) (pptr st) st else st in
  gbump (Z.min n (wrapu 64 (egptr st - gptr st))) st.

(** [reserve]; [None] is the [std::length_error] of [resize]. *)
Definition reserve (n : Z) (st : stream_buffer) : option stream_buffer :=
  if n <=? wrapu 64 (epptr st - pptr st) then Some st
  else
    let get_cur_pos := gptr st in
    let put_cur_pos := pptr st in
    let put_end_pos := wrapu 64 (put_cur_pos + n) in
    b ← vec_resize (wrapu 64 (put_cur_pos + n)) (m_buf st);
    let st := mk_sb b (eback st) (gptr st) (egptr st) (pbase st) (pptr st) (epptr st) in
    let st := setg 0 get_cur_pos put_cur_pos st in
    Some (setp put_cur_pos put_end_pos st).

(** [prepare]: the writable span is [n] bytes from the put pointer. *)
Definition prepare (n : Z) (st : stream_buffer) : option (stream_buffer * (Z * Z)) :=
  st ← reserve n st; Some (st, (pptr st, n)).

Definition size (st : stream_buffer) : Z := wrapu 64 (pptr st - gptr st).

Definition data (st : stream_buffer) : list byte := slice (gptr st) (pptr st) (m_buf st).

Definition try_get_data (n : Z) (st : stream_buffer) : option (list byte) :=
  if size st <? n then None else Some (slice (gptr st) (gptr st + n) (m_buf st)).

(** A write of the bytes [l] through the span that [prepare] returned. *)
Definition fill (l : list byte) (st : stream_buffer) : stream_buffer :=
  mk_sb (store_at (pptr st) l (m_buf st))
        (eback st) (gptr st) (egptr st) (pbase st) (pptr st) (epptr st).

(** [*gptr()] *)
Definition peek (st : stream_buffer) : option byte := m_buf st !! Z.to_nat (gptr st).

(** [underflow]: [None] is [eof()]. *)
Definition underflow (st : stream_buffer) : option byte * stream_buffer :=
  if gptr st <? pptr st then
    let st := setg (eback st) (gptr st) (pptr st) st in (peek st, st)
  else (None, st).

(** [overflow(ch)]; [ch = None] is [eof()]. *)
Definition overflow (ch : option byte) (st : stream_buffer) : option stream_buffer :=
  match ch with
  | None => Some st
  | Some c =>
      st ← reserve 64 st;
      Some (pbump 1 (fill [c] st))
  end.

(** [std::streambuf::sputc] and [sbumpc], which call the two virtuals. *)
Definition sputc (c : byte) (st : stream_buffer) : option stream_buffer :=
  if pptr st <? epptr st then Some (pbump 1 (fill [c] st)) else overflow (Some c) st.

Definition sbumpc (st : stream_buffer) : option byte * stream_buffer :=
  if gptr st <? egptr st then (peek st, gbump 1 st)
  else let '(r, st) := underflow st in
       match r with Some c => (Some c, gbump 1 st) | None => (None, st) end.

(** ** Invariant *)

Record wf_sb (st : stream_buffer) : Prop := {
  wf_eback : eback st = 0;
  wf_gptr : 0 <= gptr st <= egptr st;
  wf_egptr : egptr st <= pptr st;
  wf_pbase : 0 <= pbase st <= pptr st;
  wf_pptr : pptr st <= epptr st;
  wf_epptr : epptr st = Z.of_nat (length (m_buf st));
  wf_max : epptr st <= VEC_MAX
}.

Lemma VEC_MAX_64 : VEC_MAX < 2 ^ 64.
Proof. unfold VEC_MAX. lia. Qed.

Lemma wf_init : wf_sb sb_init.
Proof. split; unfold VEC_MAX; simpl; lia. Qed.

Lemma wrapu64_id z : 0 <= z <= VEC_MAX -> wrapu 64 z = z.
Proof. intros H. pose proof VEC_MAX_64. apply wrapu_small. lia. Qed.

(** Destruct a well-formed buffer and its invariant. *)
Ltac sb_cases st H :=
  destruct st as [?b ?eb ?g ?eg ?pb ?p ?ep];
  destruct H as [? ? ? ? ? ? ?]; simpl in *; subst.

Lemma length_slice p q b :
  0 <= p <= q -> q <= Z.of_nat (length b) -> length (slice p q b) = Z.to_nat (q - p).
Proof. intros. unfold slice. rewrite length_take, length_drop. lia. Qed.

Lemma size_data st : wf_sb st -> size st = Z.of_nat (length (data st)).
Proof.
  intros H. sb_cases st H. unfold size, data. simpl.
  rewrite wrapu64_id by lia. rewrite length_slice by lia. lia.
Qed.

Lemma slice_split p q r b :
  0 <= p <= q -> q <= r -> r <= Z.of_nat (length b) ->
  slice p r b = slice p q b ++ slice q r b.
Proof.
  intros. unfold slice.
  rewrite <- (take_drop (Z.to_nat (q - p)) (take (Z.to_nat (r - p)) _)).
  rewrite take_take, Nat.min_l by lia. f_equal.
  rewrite skipn_firstn_comm, drop_drop. f_equal; [lia|]. f_equal. lia.
Qed.

Lemma slice_store_before p q at_ l b :
  0 <= p -> q <= at_ -> at_ <= Z.of_nat (length b) ->
  slice p q (store_at at_ l b) = slice p q b.
Proof.
  intros. unfold slice, store_at.
  destruct (Z.le_gt_cases q p) as [Hqp|Hqp].
  - by replace (Z.to_nat (q - p)) with 0%nat by lia.
  - rewrite drop_app_le by (rewrite length_take; lia).
    rewrite take_app_le by (rewrite length_drop, length_take; lia).
    rewrite skipn_firstn_comm, take_take. f_equal. lia.
Qed.

Lemma slice_store_at p l k b :
  0 <= p -> p + Z.of_nat (length l) <= Z.of_nat (length b) ->
  (k <= length l)%nat ->
  slice p (p + Z.of_nat k) (store_at p l b) = take k l.
Proof.
  intros. unfold slice, store_at. rewrite drop_app_length' by (rewrite length_take; lia).
  replace (Z.to_nat (p + Z.of_nat k - p)) with k by lia.
  by rewrite take_app_le.
Qed.

Lemma length_store_at p l b :
  0 <= p -> p + Z.of_nat (length l) <= Z.of_nat (length b) ->
  length (store_at p l b) = length b.
Proof. intros. unfold store_at. rewrite !length_app, length_take, length_drop. lia. Qed.

(** ** Operations and the invariant *)

Lemma commit_spec n st :
  wf_sb st -> 0 <= n -> Z.min n (epptr st - pptr st) <= INT_MAX ->
  wf_sb (commit n st) /\
  data (commit n st)
  = data st ++ slice (pptr st) (pptr st + Z.min n (epptr st - pptr st)) (m_buf st) /\
  pptr (commit n st) = pptr st + Z.min n (epptr st - pptr st).
Proof.
  intros H Hn Hi. sb_cases st H. unfold commit, data, setg, pbump. simpl.
  rewrite wrapu64_id by lia. rewrite wraps32_small by lia. split_and!.
  - split; simpl; lia.
  - apply slice_split; lia.
  - done.
Qed.

Lemma consume_spec n st :
  wf_sb st -> 0 <= n -> Z.min n (Z.of_nat (length (data st))) <= INT_MAX ->
  wf_sb (consume n st) /\ data (consume n st) = drop (Z.to_nat n) (data st) /\
  pptr (consume n st) = pptr st.
Proof.
  intros H Hn Hi. sb_cases st H. unfold data in Hi. simpl in Hi.
  rewrite length_slice in Hi by lia.
  assert (Hd : forall k, k = Z.min n (p - g) ->
    slice (g + k) p b = drop (Z.to_nat n) (slice g p b)).
  { intros k ->. unfold slice. rewrite skipn_firstn_comm, drop_drop.
    destruct (Z.le_gt_cases n (p - g)).
    - rewrite Z.min_l by lia. f_equal; [lia|]. f_equal. lia.
    - rewrite Z.min_r by lia.
      replace (Z.to_nat (p - (g + (p - g)))) with 0%nat by lia.
      by replace (Z.to_nat (p - g) - Z.to_nat n)%nat with 0%nat by lia. }
  unfold consume, data, setg, gbump. simpl. case_if; simpl.
  - rewrite wrapu64_id by lia. rewrite wraps32_small by lia.
    split_and!; [split; simpl; lia | by apply Hd | done].
  - assert (eg = p) as -> by lia. rewrite wrapu64_id by lia. rewrite wraps32_small by lia.
    split_and!; [split; simpl; lia | by apply Hd | done].
Qed.

Lemma reserve_spec n st :
  wf_sb st -> 0 <= n -> pptr st + n <= VEC_MAX ->
  exists st', reserve n st = Some st' /\ wf_sb st' /\ data st' = data st /\
              gptr st' = gptr st /\ pptr st' = pptr st /\ pptr st' + n <= epptr st'.
Proof.
  intros H Hn Hm. sb_cases st H. unfold reserve, setg, setp. simpl.
  rewrite wrapu64_id by lia. case_if.
  - eexists. split_and!; [done | split; simpl; lia | done.. | simpl; lia].
  - rewrite wrapu64_id by lia. unfold vec_resize.
    destruct (VEC_MAX <? p + n) eqn:Ev; boolp; [lia|]. simpl.
    eexists. split_and!; [done | | | done.. | simpl; lia].
    + split; simpl; rewrite ?length_app, ?length_take, ?length_replicate; lia.
    + unfold data. simpl. unfold slice. rewrite (take_ge b) by lia.
      rewrite drop_app_le by lia. rewrite take_app_le by (rewrite length_drop; lia). done.
Qed.

(** [reserve] fails only beyond the vector's maximal size. *)
Lemma reserve_inv n st st' :
  wf_sb st -> 0 <= n <= SIZE_MAX -> reserve n st = Some st' ->
  pptr st + n <= 2 ^ 64 - 1 -> pptr st + n <= VEC_MAX.
Proof.
  intros H Hn Hr Hm. sb_cases st H. unfold reserve in Hr. simpl in Hr.
  rewrite wrapu64_id in Hr by lia. case_if_in Hr; [lia|].
  rewrite wrapu_small in Hr by lia. unfold vec_resize in Hr.
  case_if_in Hr; [done | lia].
Qed.

Lemma fill_spec l st :
  wf_sb st -> pptr st + Z.of_nat (length l) <= epptr st ->
  wf_sb (fill l st) /\ data (fill l st) = data st.
Proof.
  intros H Hl. sb_cases st H. unfold fill, data. simpl. split.
  - split; simpl; rewrite ?length_store_at by lia; lia.
  - apply slice_store_before; lia.
Qed.

Lemma commit_fill_spec l k st :
  wf_sb st -> pptr st + Z.of_nat (length l) <= epptr st ->
  (k <= length l)%nat -> Z.of_nat k <= INT_MAX ->
  wf_sb (commit (Z.of_nat k) (fill l st)) /\
  data (commit (Z.of_nat k) (fill l st)) = data st ++ take k l /\
  pptr (commit (Z.of_nat k) (fill l st)) = pptr st + Z.of_nat k.
Proof.
  intros H Hl Hk Hi. destruct (fill_spec l st H Hl) as [Hw Hd].
  assert (Hm : Z.min (Z.of_nat k) (epptr (fill l st) - pptr (fill l st)) = Z.of_nat k).
  { simpl. lia. }
  destruct (commit_spec (Z.of_nat k) (fill l st) Hw ltac:(lia)) as (Hw' & Hd' & Hp).
  { rewrite Hm. lia. }
  rewrite Hm in Hd', Hp. split_and!; [done | | done].
  rewrite Hd', Hd. f_equal. unfold fill. simpl. destruct H as [].
  apply slice_store_at; lia.
Qed.

Lemma try_get_data_spec n st :
  wf_sb st -> 0 <= n ->
  try_get_data n st
  = if Z.of_nat (length (data st)) <? n then None else Some (take (Z.to_nat n) (data st)).
Proof.
  intros H Hn. unfold try_get_data. rewrite (size_data _ H). case_if; [done|].
  f_equal. sb_cases st H. unfold data in *. simpl in *.
  rewrite length_slice in E by lia. unfold slice. rewrite take_take. f_equal. lia.
Qed.

(** ** The interface to the clients of the buffer *)

(** The operations a reader uses.  [rb_put] is the put position, the quantity
    that the vector's size limit bounds. *)
Class ReadBuffer (B : Type) := {
  rb_contents : B -> list byte;
  rb_prepare : Z -> B -> option B;
  rb_fill : list byte -> B -> B;
  rb_commit : Z -> B -> B;
  rb_consume : Z -> B -> B;
  rb_try_get : Z -> B -> option (list byte);
  rb_wf : B -> Prop;
  rb_put : B -> Z;
  rb_room : B -> Z
}.

(** What the operations promise: the contents behave as a byte queue. *)
Class ReadBufferLaws (B : Type) `{ReadBuffer B} := {
  rb_prepare_ok : forall n b,
    rb_wf b -> 0 <= n -> rb_put b + n <= VEC_MAX ->
    exists b', rb_prepare n b = Some b' /\ rb_wf b' /\ rb_contents b' = rb_contents b /\
               rb_put b' = rb_put b /\ n <= rb_room b';
  rb_recv_ok : forall l k b,
    rb_wf b -> Z.of_nat (length l) <= rb_room b -> (k <= length l)%nat ->
    Z.of_nat k <= INT_MAX ->
    rb_wf (rb_commit (Z.of_nat k) (rb_fill l b)) /\
    rb_contents (rb_commit (Z.of_nat k) (rb_fill l b)) = rb_contents b ++ take k l /\
    rb_put (rb_commit (Z.of_nat k) (rb_fill l b)) = rb_put b + Z.of_nat k;
  rb_consume_ok : forall n b,
    rb_wf b -> 0 <= n -> Z.of_nat (length (rb_contents b)) <= INT_MAX ->
    rb_wf (rb_consume n b) /\
    rb_contents (rb_consume n b) = drop (Z.to_nat n) (rb_contents b) /\
    rb_put (rb_consume n b) = rb_put b;
  rb_try_get_ok : forall n b,
    rb_wf b -> 0 <= n ->
    rb_try_get n b
    = if Z.of_nat (length (rb_contents b)) <? n then None
      else Some (take (Z.to_nat n) (rb_contents b))
}.

#[export] Instance stream_buffer_rb : ReadBuffer stream_buffer := {
  rb_contents := data;
  rb_prepare n st := fst <$> prepare n st;
  rb_fill := fill;
  rb_commit := commit;
  rb_consume := consume;
  rb_try_get := try_get_data;
  rb_wf := wf_sb;
  rb_put := pptr;
  rb_room st := epptr st - pptr st
}.

#[export] Instance stream_buffer_laws : ReadBufferLaws stream_buffer.
Proof.
  split; simpl; intros.
  - destruct (reserve_spec n b) as (b' & Hr & Hw & Hd & _ & Hp & Hroom); [done..|].
    exists b'. unfold prepare. rewrite Hr. simpl. split_and!; [done.. | lia].
  - apply commit_fill_spec; [done | lia | done..].
  - apply consume_spec; [done | done | lia].
  - by apply try_get_data_spec.
Qed.

(** ** Character-wise access *)

Lemma put_one_spec c st :
  wf_sb st -> pptr st < epptr st ->
  wf_sb (pbump 1 (fill [c] st)) /\ data (pbump 1 (fill [c] st)) = data st ++ [c] /\
  pptr (pbump 1 (fill [c] st)) = pptr st + 1.
Proof.
  intros H Hlt. destruct (fill_spec [c] st H) as [Hw Hd]; [simpl; lia|].
  assert (Hs : slice (pptr st) (pptr st + Z.of_nat 1) (m_buf (fill [c] st)) = [c]).
  { unfold fill. simpl m_buf. destruct H. apply (slice_store_at _ [c] 1); simpl; lia. }
  assert (Hl : Z.of_nat (length (m_buf (fill [c] st))) = epptr st).
  { destruct Hw. simpl in *. lia. }
  destruct H, Hw. simpl in *. split_and!.
  - split; simpl; rewrite ?wraps32_small by (unfold INT_MAX; lia); lia.
  - transitivity (data (fill [c] st)
                  ++ slice (pptr st) (pptr st + Z.of_nat 1) (store_at (pptr st) [c] (m_buf st)));
      [|by rewrite Hs, Hd].
    unfold data. simpl. rewrite wraps32_small by (unfold INT_MAX; lia).
    apply slice_split; simpl in *; lia.
  - done.
Qed.

Lemma sputc_spec c st :
  wf_sb st -> pptr st + 64 <= VEC_MAX ->
  exists st', sputc c st = Some st' /\ wf_sb st' /\ data st' = data st ++ [c] /\
              pptr st' = pptr st + 1.
Proof.
  intros H Hm. unfold sputc. case_if.
  - eexists. split; [done|]. by apply put_one_spec.
  - simpl. destruct (reserve_spec 64 st) as (st' & -> & Hw & Hd & _ & Hp & Hr); [done | lia | lia |].
    simpl. eexists. split; [done|]. rewrite <- Hd, <- Hp. apply put_one_spec; [done | lia].
Qed.

Lemma data_uncons st c l :
  wf_sb st -> data st = c :: l -> peek st = Some c /\ gptr st < pptr st.
Proof.
  intros H Hd. pose proof (size_data _ H) as Hs. rewrite Hd in Hs.
  sb_cases st H. unfold size in Hs. simpl in Hs. rewrite wrapu64_id in Hs by lia.
  split; [|lia]. unfold peek, data, slice in *. simpl in *.
  assert (Hh : head (drop (Z.to_nat g) b) = Some c).
  { destruct (drop _ b); [by rewrite take_nil in Hd|].
    destruct (Z.to_nat (p - g)); simpl in Hd; [done | by simplify_eq]. }
  destruct (drop (Z.to_nat g) b) as [|x t] eqn:Ed; simplify_eq/=.
  rewrite <- (Nat.add_0_r (Z.to_nat g)), <- lookup_drop, Ed. done.
Qed.

Lemma data_nil st : wf_sb st -> data st = [] -> gptr st = pptr st.
Proof.
  intros H Hd. pose proof (size_data _ H) as Hs. rewrite Hd in Hs.
  sb_cases st H. unfold size in Hs. simpl in Hs. rewrite wrapu64_id in Hs by lia. lia.
Qed.

Lemma gbump_one_spec st :
  wf_sb st -> gptr st < egptr st ->
  wf_sb (gbump 1 st) /\ data (gbump 1 st) = tail (data st) /\ pptr (gbump 1 st) = pptr st.
Proof.
  intros H Hlt. sb_cases st H.
  unfold gbump, data. simpl. rewrite wraps32_small by (unfold INT_MAX; lia).
  split_and!; [split; simpl; lia | | done].
  unfold slice. replace (Z.to_nat (p - g)) with (S (Z.to_nat (p - (g + 1)))) by lia.
  replace (Z.to_nat (g + 1)) with (S (Z.to_nat g)) by lia.
  destruct (drop (Z.to_nat g) b) as [|x t] eqn:Ed.
  - apply (f_equal length) in Ed. rewrite length_drop in Ed. simpl in Ed. lia.
  - simpl. f_equal. rewrite <- Nat.add_1_r, <- drop_drop, Ed. done.
Qed.

Lemma sbumpc_spec st :
  wf_sb st ->
  exists st', sbumpc st = (head (data st), st') /\ wf_sb st' /\
              data st' = tail (data st) /\ pptr st' = pptr st.
Proof.
  intros H. unfold sbumpc. destruct (data st) as [|c l] eqn:Hd.
  - pose proof (data_nil _ H Hd) as Hg. pose proof (wf_gptr _ H). pose proof (wf_egptr _ H).
    destruct (gptr st <? egptr st) eqn:E; boolp; [lia|].
    unfold underflow. rewrite (proj2 (Z.ltb_ge _ _)) by lia. by exists st.
  - destruct (data_uncons _ _ _ H Hd) as [Hp Hlt]. case_if.
    + rewrite Hp. eexists. split; [done|].
      destruct (gbump_one_spec st H E) as (Hw & Hd' & Hq). by rewrite Hd', Hd.
    + unfold underflow. rewrite (proj2 (Z.ltb_lt _ _)) by done.
      assert (Hw : wf_sb (setg (eback st) (gptr st) (pptr st) st)).
      { destruct H. split; simpl in *; lia. }
      change (peek (setg (eback st) (gptr st) (pptr st) st)) with (peek st). rewrite Hp.
      eexists. split; [done|]. destruct (gbump_one_spec _ Hw) as (Hw' & Hd' & Hq); [done|].
      split_and!; [done | | done]. rewrite Hd'. unfold data in *. simpl in *. by rewrite Hd.
Qed.

(** ** Refinement: sequences of operations against a byte queue *)

(** One use of the buffer: a prepared, filled and committed write (the first
    [k] of the bytes [l] stored in a span of [n]), a consumption, a
    reservation, the two character operations of [std::streambuf], and the three
    members that look at the contents. *)
Inductive sb_op :=
| op_write (n : Z) (l : list byte) (k : nat)
| op_consume (n : Z)
| op_reserve (n : Z)
| op_putc (c : byte)
| op_getc
| op_size
| op_data
| op_try_get (n : Z).

Inductive sb_result :=
| RNone
| RChar (c : option byte)
| RSize (n : Z)
| RData (l : list byte)
| RTry (l : option (list byte)).

Definition sb_step (o : sb_op) (st : stream_buffer) : option (sb_result * stream_buffer) :=
  match o with
  | op_write n l k => '(st, _) ← prepare n st; Some (RNone, commit (Z.of_nat k) (fill l st))
  | op_consume n => Some (RNone, consume n st)
  | op_reserve n => st ← reserve n st; Some (RNone, st)
  | op_putc c => st ← sputc c st; Some (RNone, st)
  | op_getc => let '(c, st) := sbumpc st in Some (RChar c, st)
  | op_size => Some (RSize (size st), st)
  | op_data => Some (RData (data st), st)
  | op_try_get n => Some (RTry (try_get_data n st), st)
  end.

(** The queue the buffer stands for. *)
Definition q_step (o : sb_op) (q : list byte) : sb_result * list byte :=
  match o with
  | op_write _ l k => (RNone, q ++ take k l)
  | op_consume n => (RNone, drop (Z.to_nat n) q)
  | op_reserve _ => (RNone, q)
  | op_putc c => (RNone, q ++ [c])
  | op_getc => (RChar (head q), tail q)
  | op_size => (RSize (Z.of_nat (length q)), q)
  | op_data => (RData q, q)
  | op_try_get n => (RTry (if Z.of_nat (length q) <? n then None else Some (take (Z.to_nat n) q)), q)
  end.

Fixpoint sb_run (os : list sb_op) (st : stream_buffer)
  : option (list sb_result * stream_buffer) :=
  match os with
  | [] => Some ([], st)
  | o :: os =>
      '(r, st) ← sb_step o st; '(rs, st) ← sb_run os st; Some (r :: rs, st)
  end.

Fixpoint q_run (os : list sb_op) (q : list byte) : list sb_result * list byte :=
  match os with
  | [] => ([], q)
  | o :: os =>
      let '(r, q) := q_step o q in let '(rs, q) := q_run os q in (r :: rs, q)
  end.

(** How far an operation may move the put position, and what it requires of
    its arguments: a write stays in the span it prepared and commits no more than
    it wrote, and what is committed or consumed at once is an [int]. *)
Definition op_cost (o : sb_op) : Z :=
  match o with
  | op_write n _ _ | op_reserve n => n
  | op_putc _ => 64
  | _ => 0
  end.

Definition op_ok (o : sb_op) : Prop :=
  match o with
  | op_write n l k => (k <= length l)%nat /\ Z.of_nat (length l) <= n /\ Z.of_nat k <= INT_MAX
  | op_consume n => 0 <= n <= INT_MAX
  | op_reserve n | op_try_get n => 0 <= n
  | _ => True
  end.

Lemma op_cost_nonneg o : op_ok o -> 0 <= op_cost o.
Proof. destruct o; simpl; lia. Qed.

Lemma sb_step_refines o st :
  wf_sb st -> op_ok o -> pptr st + op_cost o <= VEC_MAX ->
  exists r st', sb_step o st = Some (r, st') /\ wf_sb st' /\
                q_step o (data st) = (r, data st') /\ pptr st' <= pptr st + op_cost o.
Proof.
  intros H Hok Hc. pose proof (op_cost_nonneg _ Hok).
  destruct o as [n l k|n|n|c| | | |n]; simpl in *.
  - unfold prepare. destruct (reserve_spec n st) as (st' & -> & Hw & Hd & _ & Hp & Hr); [done | lia | lia |].
    simpl. destruct (commit_fill_spec l k st') as (Hw' & Hd' & Hp'); [done | lia | lia | lia |].
    eexists _, _. split_and!; [done | done | | lia]. by rewrite Hd', Hd.
  - destruct (consume_spec n st) as (Hw & Hd & Hp); [done | lia | lia |].
    eexists _, _. split_and!; [done | done | | lia]. by rewrite Hd.
  - destruct (reserve_spec n st) as (st' & -> & Hw & Hd & _ & Hp & Hr); [done | lia | lia |].
    simpl. eexists _, _. split_and!; [done | done | | lia]. by rewrite Hd.
  - destruct (sputc_spec c st) as (st' & -> & Hw & Hd & Hp); [done | lia |].
    simpl. eexists _, _. split_and!; [done | done | | lia]. by rewrite Hd.
  - destruct (sbumpc_spec st) as (st' & -> & Hw & Hd & Hp); [done |].
    eexists _, _. split_and!; [done | done | | lia]. by rewrite Hd.
  - eexists _, _. split_and!; [done | done | | lia]. by rewrite size_data.
  - eexists _, _. split_and!; [done | done | done | lia].
  - eexists _, _. split_and!; [done | done | | lia]. by rewrite try_get_data_spec.
Qed.

(** C9: a buffer that is not copied refines a byte queue.  Take any sequence of
    writes (a span is prepared, bytes are stored in it, and no more than these are
    committed), consumptions, reservations, character operations and inspections,
    in which no operation commits or consumes more than [INT_MAX] bytes at once and
    the prepared spans together stay within the largest size of a vector.  It
    succeeds, every operation returns what the queue returns, [data()] is the
    queue's contents, and the pointer invariant is kept. *)
Theorem stream_buffer_refines_queue os st :
  wf_sb st -> Forall op_ok os ->
  pptr st + foldr (fun o z => op_cost o + z) 0 os <= VEC_MAX ->
  exists rs st', sb_run os st = Some (rs, st') /\ wf_sb st' /\
                 q_run os (data st) = (rs, data st').
Proof.
  revert st. induction os as [|o os IH]; intros st H Hok Hc; simpl in *.
  - by exists [], st.
  - inversion Hok as [|? ? Ho Hos]; subst.
    assert (0 <= foldr (fun o z => op_cost o + z) 0 os).
    { clear -Hos. induction Hos as [|o os Ho _ IHs]; simpl; [lia|].
      pose proof (op_cost_nonneg _ Ho). lia. }
    destruct (sb_step_refines o st) as (r & st1 & -> & Hw & Hq & Hp); [done | done | lia |].
    destruct (IH st1 Hw Hos ltac:(lia)) as (rs & st2 & Hr & Hw2 & Hq2).
    exists (r :: rs), st2. simpl. rewrite Hr, Hq, Hq2. done.
Qed.

(** [commit] and the [int] parameter of [pbump]: a commit of more than
    [INT_MAX] bytes (and less than [2^32]) that fits the put area moves the put
    pointer backwards instead of forwards. *)
Theorem commit_beyond_int_max n st :
  wf_sb st -> INT_MAX < n < 2 ^ 32 -> n <= epptr st - pptr st ->
  pptr (commit n st) = pptr st + n - 2 ^ 32 /\ pptr (commit n st) < pptr st.
Proof.
  intros H Hn Ha. sb_cases st H. unfold commit, setg, pbump. simpl.
  rewrite wrapu64_id by lia. rewrite Z.min_l by lia.
  assert (Hw : wraps 32 n = n - 2 ^ 32); [|rewrite Hw; lia].
  unfold wraps, INT_MAX in *. change (2 ^ (32 - 1)) with 2147483648.
  change (2 ^ 32) with 4294967296 in *. change (2 ^ 31) with 2147483648 in *.
  replace (n + 2147483648) with (n - 2147483648 + 1 * 4294967296) by lia.
  rewrite Z.mod_add, Z.mod_small by lia. lia.
Qed.

Definition sample_ops : list sb_op :=
  [op_write 32 (bs "hello") 5; op_getc; op_putc "!"%byte; op_consume 2; op_reserve 200; op_getc;
   op_size; op_try_get 2; op_try_get 3; op_data].

Lemma stream_buffer_refines_queue_witness :
  exists rs st', sb_run sample_ops sb_init = Some (rs, st') /\ wf_sb st' /\
    q_run sample_ops (data sb_init) = (rs, data st').
Proof.
  apply (stream_buffer_refines_queue sample_ops sb_init wf_init).
  - unfold sample_ops. repeat first [apply List.Forall_nil | apply List.Forall_cons]; simpl; unfold INT_MAX; lia.
  - vm_compute. discriminate.
Defined.

Definition big_buffer : stream_buffer :=
  mk_sb (replicate (Z.to_nat (2 ^ 31)) x00) 0 0 0 0 0 (2 ^ 31).

Lemma big_buffer_wf : wf_sb big_buffer.
Proof.
  split; unfold big_buffer, VEC_MAX; cbn [eback gptr egptr pbase pptr epptr m_buf];
    rewrite ?length_replicate; lia.
Qed.

Lemma commit_beyond_int_max_witness :
  pptr (commit (2 ^ 31) big_buffer) = 0 + 2 ^ 31 - 2 ^ 32 /\
  pptr (commit (2 ^ 31) big_buffer) < 0.
Proof.
  apply (commit_beyond_int_max (2 ^ 31) big_buffer big_buffer_wf).
  - unfold INT_MAX. lia.
  - cbn [epptr pptr big_buffer]. lia.
Defined.
