(* ===== verification/StreamStore.v ===== *)
(** * Copies and moves of [stream_buffer] (its defaulted special members)

    In [StreamBuffer] the stream pointers are offsets into the object's own
    vector.  The defaulted copy and move operations copy the six pointers of the
    base class [std::streambuf] and copy or move the vector, so here a pointer is
    a block of storage and an offset, and the blocks live in a store.  The
    vector's block is [own]; the pointers go to [area]. *)

From S2P Require Import Prelude StreamBuffer.
From stdpp Require Import gmap.
Local Open Scope Z_scope.

(** Live blocks with their contents. *)
Abbreviation store := (gmap nat (list byte)).

(** The stream pointers are offsets into block [area]; [own] is the block of
    [m_buf], none for an empty vector. *)
Record sb_object := mk_object {
  own : option nat;
  area : option nat;
  o_eback : Z; o_gptr : Z; o_egptr : Z; o_pbase : Z; o_pptr : Z; o_epptr : Z
}.

Definition with_own (b : option nat) (o : sb_object) : sb_object :=
  mk_object b (area o) (o_eback o) (o_gptr o) (o_egptr o) (o_pbase o) (o_pptr o) (o_epptr o).

Definition block (h : store) (b : option nat) : option (list byte) := b ← b; h !! b.

(** The buffer of [StreamBuffer] that an object is, when its pointers go to its
    own vector. *)
Definition whole (h : store) (o : sb_object) : option stream_buffer :=
  match own o with
  | Some b => if decide (area o = Some b) then
                l ← h !! b;
                Some (mk_sb l (o_eback o) (o_gptr o) (o_egptr o) (o_pbase o) (o_pptr o) (o_epptr o))
              else None
  | None => None
  end.

(** [stream_buffer()], with the vector's block [b]. *)
Definition construct (b : nat) (h : store) : sb_object * store :=
  (mk_object (Some b) (Some b) (eback sb_init) (gptr sb_init) (egptr sb_init)
     (pbase sb_init) (pptr sb_init) (epptr sb_init), <[b := m_buf sb_init]> h).

(** [stream_buffer(const stream_buffer &) = default]: the pointers of the base, a
    copy of the vector in the new block [b]. *)
Definition copy_construct (b : nat) (other : sb_object) (h : store) : option (sb_object * store) :=
  l ← match own other with Some _ => block h (own other) | None => Some [] end;
  Some (with_own (Some b) other, <[b := l]> h).

(** [stream_buffer(stream_buffer &&) = default]: the base has no move, so its
    pointers are copied; the vector gives its block away. *)
Definition move_construct (other : sb_object) : sb_object * sb_object :=
  (with_own (own other) other, with_own None other).

(** [operator=(const stream_buffer &) = default]: the contents go to the block the
    vector has then, which is [b]. *)
Definition copy_assign (b : nat) (self other : sb_object) (h : store) : option (sb_object * store) :=
  l ← match own other with Some _ => block h (own other) | None => Some [] end;
  let h := match own self with Some o => delete o h | None => h end in
  Some (with_own (Some b) other, <[b := l]> h).

(** [operator=(stream_buffer &&) = default]: the vector's old block is freed. *)
Definition move_assign (self other : sb_object) (h : store) : sb_object * sb_object * store :=
  (with_own (own other) other, with_own None other,
   match own self with Some o => delete o h | None => h end).

Definition destroy (o : sb_object) (h : store) : store :=
  match own o with Some b => delete b h | None => h end.

(** ** Members, through the pointers *)

(** [data()]; [None] reads a block that is gone. *)
Definition o_data (h : store) (o : sb_object) : option (list byte) :=
  l ← block h (area o); Some (slice (o_gptr o) (o_pptr o) l).

Definition o_commit (n : Z) (o : sb_object) : sb_object :=
  let p := o_pptr o + wraps 32 (Z.min n (wrapu 64 (o_epptr o - o_pptr o))) in
  mk_object (own o) (area o) (o_eback o) (o_gptr o) p (o_pbase o) p (o_epptr o).

(** Writing [l] into the span of [prepare] when the put area has room. *)
Definition o_fill (l : list byte) (o : sb_object) (h : store) : option store :=
  a ← area o; c ← h !! a; Some (<[a := store_at (o_pptr o) l c]> h).

(** [reserve(n)]: with too little room the positions are differences of the stream
    pointers and [m_buf.data()], which have no value unless both are in one
    block; [resize] moves the vector to block [b]. *)
Definition o_reserve (n : Z) (b : nat) (o : sb_object) (h : store) : option (sb_object * store) :=
  if n <=? wrapu 64 (o_epptr o - o_pptr o) then Some (o, h)
  else
    st ← whole h o; st ← reserve n st;
    Some (mk_object (Some b) (Some b) (eback st) (gptr st) (egptr st) (pbase st) (pptr st) (epptr st),
          <[b := m_buf st]> (destroy o h)).

(** ** The members are those of [StreamBuffer] *)

Definition as_object (b : nat) (st : stream_buffer) : sb_object :=
  mk_object (Some b) (Some b) (eback st) (gptr st) (egptr st) (pbase st) (pptr st) (epptr st).

Lemma whole_as_object h b st : h !! b = Some (m_buf st) -> whole h (as_object b st) = Some st.
Proof. intros H. unfold whole. simpl. rewrite decide_True by done. rewrite H. by destruct st. Qed.

Lemma whole_inv h o st :
  whole h o = Some st -> exists b, o = as_object b st /\ h !! b = Some (m_buf st).
Proof.
  unfold whole. destruct o as [[b|] a eb g eg pb p ep]; simpl; [|done].
  destruct (decide (a = Some b)) as [->|]; [|done]. destruct (h !! b) as [l|] eqn:E; [|done].
  intros [= <-]. by exists b.
Qed.

Lemma data_whole h o st : whole h o = Some st -> o_data h o = Some (data st).
Proof. intros (b & -> & H)%whole_inv. unfold o_data, block. simpl. by rewrite H. Qed.

Lemma commit_whole h o st n : whole h o = Some st -> whole h (o_commit n o) = Some (commit n st).
Proof. intros (b & -> & H)%whole_inv. by apply (whole_as_object h b (commit n st)). Qed.

Lemma fill_whole h o st l :
  whole h o = Some st -> exists h', o_fill l o h = Some h' /\ whole h' o = Some (fill l st).
Proof.
  intros (b & -> & H)%whole_inv. unfold o_fill. simpl. rewrite H. eexists. split; [done|].
  apply (whole_as_object _ b (fill l st)). apply lookup_insert_eq.
Qed.

Lemma reserve_whole h o st n b :
  whole h o = Some st -> (n <=? wrapu 64 (epptr st - pptr st)) = false ->
  match reserve n st with
  | Some st' => exists h', o_reserve n b o h = Some (as_object b st', h') /\ whole h' (as_object b st') = Some st'
  | None => o_reserve n b o h = None
  end.
Proof.
  intros W L. pose proof W as (a & -> & H)%whole_inv. unfold o_reserve. simpl. rewrite L.
  fold (as_object a st). rewrite W. simpl. destruct (reserve n st) as [st'|]; simpl; [|done].
  eexists. split; [done|]. apply whole_as_object. apply lookup_insert_eq.
Qed.

(** A moved [stream_buffer] is the buffer that was moved from: from then on its
    members do what [StreamBuffer] says of the original.  The object moved from
    is left with pointers into the storage it gave away: it still shows the old
    contents, and once the new object has grown it shows storage that is gone. *)
Theorem move_transfers_buffer h o st n b :
  whole h o = Some st -> own o <> Some b ->
  let '(self, other) := move_construct o in
  whole h self = Some st /\ whole h other = None /\ o_data h other = Some (data st) /\
  ((n <=? wrapu 64 (epptr st - pptr st)) = false ->
   forall st', reserve n st = Some st' ->
   exists self' h', o_reserve n b self h = Some (self', h') /\ whole h' self' = Some st' /\
     o_data h' other = None).
Proof.
  intros W Hb. pose proof W as (a & -> & H)%whole_inv. simpl in Hb. simpl. split_and!.
  - by apply whole_as_object.
  - done.
  - unfold o_data, block. simpl. by rewrite H.
  - intros L st' R. pose proof (reserve_whole h (as_object a st) st n b W L) as Q. rewrite R in Q.
    destruct Q as (h' & Q & W'). exists (as_object b st'), h'. split_and!; [done | done |].
    unfold o_reserve in Q. simpl in Q. rewrite L in Q. fold (as_object a st) in Q. rewrite W in Q.
    simpl in Q. rewrite R in Q. simplify_eq/=. unfold o_data, block. simpl.
    rewrite lookup_insert_ne by congruence.
    unfold destroy. simpl. by rewrite lookup_delete_eq.
Qed.

Lemma move_transfers_buffer_witness :
  let '(o, h) := construct 1 ∅ in
  whole h (move_construct o).1 = Some sb_init /\ o_data h (move_construct o).2 = Some [].
Proof.
  destruct (move_transfers_buffer (construct 1 ∅).2 (construct 1 ∅).1 sb_init 200 2) as (A & _ & B & _).
  - reflexivity.
  - discriminate.
  - split; [exact A | exact B].
Defined.

(** A copy of a [stream_buffer] works on the storage of the original.  What is
    written through the copy appears in the original's storage and not in the
    vector the copy owns, and once the original is destroyed (or has grown) the
    copy reads storage that is gone. *)
Theorem copy_shares_storage h o st b l h1 c h2 :
  whole h o = Some st -> own o <> Some b ->
  copy_construct b o h = Some (c, h1) -> o_fill l c h1 = Some h2 ->
  whole h1 c = None /\ o_data h1 c = o_data h1 o /\
  whole h2 o = Some (fill l st) /\ block h2 (own c) = Some (m_buf st) /\
  o_data (destroy o h2) c = None.
Proof.
  intros W Hb Hc Hf. pose proof W as (a & -> & H)%whole_inv. simpl in Hb.
  unfold copy_construct, block in Hc. simpl in Hc. rewrite H in Hc. simplify_eq/=.
  unfold o_fill in Hf. simpl in Hf. rewrite lookup_insert_ne, H in Hf by congruence. simplify_eq/=.
  split_and!.
  - unfold whole. simpl. rewrite decide_False by congruence. done.
  - done.
  - apply (whole_as_object _ a (fill l st)). apply lookup_insert_eq.
  - unfold block. simpl. rewrite lookup_insert_ne by congruence. by rewrite lookup_insert_eq.
  - unfold o_data, block, destroy. simpl. by rewrite lookup_delete_eq.
Qed.

Lemma copy_shares_storage_witness :
  let '(o, h) := construct 1 ∅ in
  exists c h1 h2, copy_construct 2 o h = Some (c, h1) /\ o_fill (bs "hi") c h1 = Some h2 /\
    whole h2 o = Some (fill (bs "hi") sb_init) /\ o_data (destroy o h2) c = None.
Proof.
  assert (E : exists c h1 h2, copy_construct 2 (construct 1 ∅).1 (construct 1 ∅).2 = Some (c, h1) /\
    o_fill (bs "hi") c h1 = Some h2) by (do 3 eexists; split; reflexivity).
  destruct E as (c & h1 & h2 & E1 & E2). exists c, h1, h2. split; [exact E1|]. split; [exact E2|].
  destruct (copy_shares_storage (construct 1 ∅).2 (construct 1 ∅).1 sb_init 2 (bs "hi") h1 c h2)
    as (_ & _ & A & _ & B); [reflexivity | discriminate | exact E1 | exact E2 |].
  split; [exact A | exact B].
Defined.
