(* ===== verification/PicoHttp.v ===== *)
(** * [include/http/picohttpparser.h]: request, response and header parsing

    The parser walks a buffer [s] with a pointer [buf]; here [buf] is an offset
    from [buf_start] and [buf_end] is [length s].  A step of the parser has four
    outcomes: a value; [return NULL] after [*ret = r]; a read or write outside
    an array ([Oob], undefined behaviour in C); and an exhausted loop bound
    ([Fuel]).  The output parameters are kept in a state that survives failure,
    because the callers read them even when parsing failed.

    Loops carry the bound [S (buf_end - buf)]; [PicoSafety] proves that neither
    [Oob] nor [Fuel] is ever reached.

    The compile-time switch [__SSE4_2__] is the parameter [sse4_2]; the intrinsic
    [_mm_cmpestri], and what the memory holds behind the static range tables, are
    the parameter [cpu]. *)

From S2P Require Import Prelude.

(** ** Data *)

(** [struct phr_header]; pointers are offsets, [None] is [NULL]. *)
Record phr_header := mk_phr_header {
  name : option nat;
  name_len : nat;
  value : option nat;
  value_len : nat
}.

Definition null_header : phr_header := mk_phr_header None 0 None 0.

(** The output parameters of the three entry points. *)
Record outs := mk_outs {
  method : option nat; method_len : nat;
  path : option nat; path_len : nat;
  minor_version : Z;
  status : Z;
  msg : option nat; msg_len : nat;
  headers : list phr_header;
  num_headers : nat
}.

Inductive outcome (A : Type) :=
| Done (a : A)
| Ret (r : Z)
| Oob
| Fuel.
Arguments Done {A} a.
Arguments Ret {A} r.
Arguments Oob {A}.
Arguments Fuel {A}.

(** State, error and undefined behaviour in one monad. *)
Definition M (A : Type) : Type := outs -> outcome A * outs.

#[export] Instance M_ret : MRet M := fun A a o => (Done a, o).
#[export] Instance M_bind : MBind M := fun A B f m o =>
  match m o with
  | (Done a, o) => f a o
  | (Ret r, o) => (Ret r, o)
  | (Oob, o) => (Oob, o)
  | (Fuel, o) => (Fuel, o)
  end.

(** [*ret = r; return NULL;] *)
Definition fail {A} (r : Z) : M A := fun o => (Ret r, o).
Definition oob {A} : M A := fun o => (Oob, o).
Definition out_of_fuel {A} : M A := fun o => (Fuel, o).
Definition gets {A} (f : outs -> A) : M A := fun o => (Done (f o), o).
Definition modify (f : outs -> outs) : M unit := fun o => (Done tt, f o).

Definition set_method (p : option nat) (n : nat) (o : outs) : outs :=
  mk_outs p n (path o) (path_len o) (minor_version o) (status o)
          (msg o) (msg_len o) (headers o) (num_headers o).
Definition set_path (p : option nat) (n : nat) (o : outs) : outs :=
  mk_outs (method o) (method_len o) p n (minor_version o) (status o)
          (msg o) (msg_len o) (headers o) (num_headers o).
Definition set_minor_version (z : Z) (o : outs) : outs :=
  mk_outs (method o) (method_len o) (path o) (path_len o) z (status o)
          (msg o) (msg_len o) (headers o) (num_headers o).
Definition set_status (z : Z) (o : outs) : outs :=
  mk_outs (method o) (method_len o) (path o) (path_len o) (minor_version o) z
          (msg o) (msg_len o) (headers o) (num_headers o).
Definition set_msg (p : option nat) (n : nat) (o : outs) : outs :=
  mk_outs (method o) (method_len o) (path o) (path_len o) (minor_version o) (status o)
          p n (headers o) (num_headers o).
Definition set_headers (h : list phr_header) (o : outs) : outs :=
  mk_outs (method o) (method_len o) (path o) (path_len o) (minor_version o) (status o)
          (msg o) (msg_len o) h (num_headers o).
Definition set_num_headers (n : nat) (o : outs) : outs :=
  mk_outs (method o) (method_len o) (path o) (path_len o) (minor_version o) (status o)
          (msg o) (msg_len o) (headers o) n.

(** An assignment to fields of [headers[i]]. *)
Definition upd_header (i : nat) (f : phr_header -> phr_header) : M unit :=
  fun o => match headers o !! i with
           | Some h => (Done tt, set_headers (<[i := f h]> (headers o)) o)
           | None => (Oob, o)
           end.

Definition with_name (p : option nat) (h : phr_header) : phr_header :=
  mk_phr_header p (name_len h) (value h) (value_len h).
Definition with_name_len (n : nat) (h : phr_header) : phr_header :=
  mk_phr_header (name h) n (value h) (value_len h).
Definition with_value (p : option nat) (n : nat) (h : phr_header) : phr_header :=
  mk_phr_header (name h) (name_len h) p n.

(** ** Characters *)

Abbreviation CR := x0d.
Abbreviation LF := x0a.
Abbreviation HT := x09.
Abbreviation SP := x20.
Abbreviation DEL := x7f.

(** [((unsigned char)(c)-040u < 0137u)] *)
Definition IS_PRINTABLE_ASCII (c : byte) : bool := (wrapu 32 (code c - 32) <? 95)%Z.

(** The test of [get_token_to_eol] on a character that is not printable. *)
Definition is_ctl (c : byte) : bool :=
  ((code c <? 32)%Z && negb (c =? HT)%beq) || (c =? DEL)%beq.

(** The test of [ADVANCE_TOKEN] on a character that is not printable. *)
Definition is_ctl_token (c : byte) : bool := (code c <? 32)%Z || (c =? DEL)%beq.

Definition token_char_map : list Z :=
  [0;0;0;0;0;0;0;0;0;0;0;0;0;0;0;0;0;0;0;0;0;0;0;0;0;0;0;0;0;0;0;0;
   0;1;0;1;1;1;1;1;0;0;1;1;0;1;1;0;1;1;1;1;1;1;1;1;1;1;0;0;0;0;0;0;
   0;1;1;1;1;1;1;1;1;1;1;1;1;1;1;1;1;1;1;1;1;1;1;1;1;1;1;0;0;0;1;1;
   1;1;1;1;1;1;1;1;1;1;1;1;1;1;1;1;1;1;1;1;1;1;1;1;1;1;1;0;1;0;1;0;
   0;0;0;0;0;0;0;0;0;0;0;0;0;0;0;0;0;0;0;0;0;0;0;0;0;0;0;0;0;0;0;0;
   0;0;0;0;0;0;0;0;0;0;0;0;0;0;0;0;0;0;0;0;0;0;0;0;0;0;0;0;0;0;0;0;
   0;0;0;0;0;0;0;0;0;0;0;0;0;0;0;0;0;0;0;0;0;0;0;0;0;0;0;0;0;0;0;0;
   0;0;0;0;0;0;0;0;0;0;0;0;0;0;0;0;0;0;0;0;0;0;0;0;0;0;0;0;0;0;0;0]%Z.

(** [token_char_map[(unsigned char)c] != 0] *)
Definition is_token_char (c : byte) : bool :=
  negb (nth (Z.to_nat (code c)) token_char_map 0 =? 0)%Z.

(** The three range tables, as pairs of bounds. *)
Definition ranges_token : list byte := [x00; x20; x7f; x7f].
Definition ranges_eol : list byte := [x00; x08; x0a; x1f; x7f; x7f].
Definition ranges_name : list byte :=
  [x00; x20; x22; x22; x28; x29; x2c; x2c; x2f; x2f; x3a; x40; x5b; x5d; x7b; xff].

(** ** The parser *)

(** [_mm_cmpestri] on its first operand with its length, and a second operand of
    16 bytes.  [behind table]: the bytes that can be read behind the array of
    [table], none as far as the language goes. *)
Record sse_unit := mk_sse_unit {
  mm_cmpestri : list byte -> nat -> list byte -> nat;
  behind : list byte -> list byte
}.

Section parser.
Variable sse4_2 : bool.
Variable cpu : sse_unit.
Variable s : list byte.

Let buf_end : nat := length s.

(** [*buf] *)
Definition deref (buf : nat) : M byte :=
  match s !! buf with Some c => mret c | None => oob end.

Definition CHECK_EOF (buf : nat) : M unit :=
  if (buf =? buf_end)%nat then fail (-2) else mret tt.

Definition EXPECT_CHAR_NO_CHECK (ch : byte) (buf : nat) : M nat :=
  c ← deref buf; if (c =? ch)%beq then mret (S buf) else fail (-1).

Definition EXPECT_CHAR (ch : byte) (buf : nat) : M nat :=
  _ ← CHECK_EOF buf; EXPECT_CHAR_NO_CHECK ch buf.

(** [_mm_loadu_si128] of 16 bytes at [buf] *)
Definition load16 (buf : nat) : M (list byte) :=
  if (buf + 16 <=? buf_end)%nat then mret (take 16 (drop buf s)) else oob.

(** [_mm_loadu_si128] of 16 bytes at [ranges], an array of the characters and a
    terminating zero. *)
Definition load_ranges (ranges : list byte) : M (list byte) :=
  let memory := ranges ++ [x00] ++ behind cpu ranges in
  if (16 <=? length memory)%nat then mret (take 16 memory) else oob.

(** The [do ... while (left != 0)] loop; [left] is a multiple of 16. *)
Fixpoint findchar_loop (fuel : nat) (ranges16 : list byte) (ranges_size left buf : nat) : M (nat * bool) :=
  match fuel with
  | O => out_of_fuel
  | S fuel =>
      b16 ← load16 buf;
      let r := mm_cmpestri cpu ranges16 ranges_size b16 in
      if negb (r =? 16)%nat then mret (buf + r, true)
      else
        let buf := buf + 16 in
        let left := left - 16 in
        if negb (left =? 0)%nat then findchar_loop fuel ranges16 ranges_size left buf
        else mret (buf, false)
  end.

Definition findchar_fast (buf : nat) (ranges : list byte) : M (nat * bool) :=
  if sse4_2 then
    if (16 <=? buf_end - buf)%nat then
      ranges16 ← load_ranges ranges;
      let left := ((buf_end - buf) / 16 * 16)%nat in
      findchar_loop ((buf_end - buf) / 16) ranges16 (length ranges) left buf
    else mret (buf, false)
  else mret (buf, false).

(** [DOIT] repeated [k] times; [true] is the jump to [NonPrintable]. *)
Fixpoint doit (k : nat) (buf : nat) : M (nat * bool) :=
  match k with
  | O => mret (buf, false)
  | S k =>
      c ← deref buf;
      if negb (IS_PRINTABLE_ASCII c) then mret (buf, true) else doit k (S buf)
  end.

(** [while (buf_end - buf >= 8)]; [true] is the jump to [FOUND_CTL]. *)
Fixpoint skip_by_8 (fuel : nat) (buf : nat) : M (nat * bool) :=
  match fuel with
  | O => out_of_fuel
  | S fuel =>
      if (8 <=? buf_end - buf)%nat then
        '(buf, np) ← doit 8 buf;
        if np : bool then
          c ← deref buf;
          if is_ctl c then mret (buf, true) else skip_by_8 fuel (S buf)
        else skip_by_8 fuel buf
      else mret (buf, false)
  end.

(** [for (;; ++buf)] of [get_token_to_eol] up to [FOUND_CTL] *)
Fixpoint eol_loop (fuel : nat) (buf : nat) : M nat :=
  match fuel with
  | O => out_of_fuel
  | S fuel =>
      _ ← CHECK_EOF buf;
      c ← deref buf;
      if negb (IS_PRINTABLE_ASCII c) then
        if is_ctl c then mret buf else eol_loop fuel (S buf)
      else eol_loop fuel (S buf)
  end.

(** The code after the label [FOUND_CTL]: token, its length, new [buf]. *)
Definition found_ctl (token_start buf : nat) : M (nat * nat * nat) :=
  c ← deref buf;
  if (c =? CR)%beq then
    buf ← EXPECT_CHAR LF (S buf);
    mret (token_start, (buf - 2 - token_start)%nat, buf)
  else if (c =? LF)%beq then
    mret (token_start, (buf - token_start)%nat, S buf)
  else fail (-1).

Definition get_token_to_eol (buf : nat) : M (nat * nat * nat) :=
  let token_start := buf in
  '(buf, found) ←
    (if sse4_2 then findchar_fast buf ranges_eol
     else skip_by_8 (S (buf_end - buf)) buf);
  if found : bool then found_ctl token_start buf
  else
    buf ← eol_loop (S (buf_end - buf)) buf;
    found_ctl token_start buf.

(** [while (1)] of [is_complete] *)
Fixpoint is_complete_loop (fuel : nat) (ret_cnt : nat) (buf : nat) : M nat :=
  match fuel with
  | O => out_of_fuel
  | S fuel =>
      _ ← CHECK_EOF buf;
      c ← deref buf;
      '(buf, ret_cnt) ←
        (if (c =? CR)%beq then
           _ ← CHECK_EOF (S buf);
           buf ← EXPECT_CHAR LF (S buf);
           mret (buf, S ret_cnt)
         else if (c =? LF)%beq then mret (S buf, S ret_cnt)
         else mret (S buf, 0%nat));
      if (ret_cnt =? 2)%nat then mret buf else is_complete_loop fuel ret_cnt buf
  end.

Definition is_complete (buf last_len : nat) : M nat :=
  let buf := if (last_len <? 3)%nat then buf else (buf + last_len - 3)%nat in
  is_complete_loop (S (buf_end - buf)) 0 buf.

(** [PARSE_INT(valp_, mul_)]: the value stored through [valp_] and [buf]. *)
Definition PARSE_INT (mul : Z) (buf : nat) : M (Z * nat) :=
  c ← deref buf;
  if (schar c <? 48)%Z || (57 <? schar c)%Z then fail (-1)
  else mret ((mul * (schar c - 48))%Z, S buf).

(** [PARSE_INT_3(status)] *)
Definition PARSE_INT_3 (buf : nat) : M nat :=
  '(v, buf) ← PARSE_INT 100 buf;
  _ ← modify (set_status v);
  '(v, buf) ← PARSE_INT 10 buf;
  _ ← modify (fun o => set_status (status o + v)%Z o);
  '(v, buf) ← PARSE_INT 1 buf;
  _ ← modify (fun o => set_status (status o + v)%Z o);
  mret buf.

Definition parse_http_version (buf : nat) : M nat :=
  if (buf_end - buf <? 9)%nat then fail (-2)
  else
    buf ← EXPECT_CHAR_NO_CHECK "H"%byte buf;
    buf ← EXPECT_CHAR_NO_CHECK "T"%byte buf;
    buf ← EXPECT_CHAR_NO_CHECK "T"%byte buf;
    buf ← EXPECT_CHAR_NO_CHECK "P"%byte buf;
    buf ← EXPECT_CHAR_NO_CHECK "/"%byte buf;
    buf ← EXPECT_CHAR_NO_CHECK "1"%byte buf;
    buf ← EXPECT_CHAR_NO_CHECK "."%byte buf;
    '(v, buf) ← PARSE_INT 1 buf;
    _ ← modify (set_minor_version v);
    mret buf.

(** [while (1)] over the characters of a header name, up to the colon *)
Fixpoint name_loop (fuel : nat) (buf : nat) : M nat :=
  match fuel with
  | O => out_of_fuel
  | S fuel =>
      c ← deref buf;
      if (c =? ":"%byte)%beq then mret buf
      else if negb (is_token_char c) then fail (-1)
      else _ ← CHECK_EOF (S buf); name_loop fuel (S buf)
  end.

(** [for (;; ++buf)] over the blanks before a header value *)
Fixpoint skip_blanks (fuel : nat) (buf : nat) : M nat :=
  match fuel with
  | O => out_of_fuel
  | S fuel =>
      _ ← CHECK_EOF buf;
      c ← deref buf;
      if negb ((c =? SP)%beq || (c =? HT)%beq) then mret buf
      else skip_blanks fuel (S buf)
  end.

(** The name part of [headers[n]]: lines 357-400. *)
Definition parse_header_name (n buf : nat) : M nat :=
  c ← deref buf;
  if negb (negb (n =? 0)%nat && ((c =? SP)%beq || (c =? HT)%beq)) then
    let start := buf in
    _ ← upd_header n (with_name (Some start));
    '(buf, found) ← findchar_fast buf ranges_name;
    _ ← (if found : bool then mret tt else CHECK_EOF buf);
    buf ← name_loop (S (buf_end - buf)) buf;
    _ ← upd_header n (with_name_len (buf - start)%nat);
    if (buf - start =? 0)%nat then fail (-1)
    else skip_blanks (S (buf_end - S buf)) (S buf)
  else
    _ ← upd_header n (fun h => with_name_len 0 (with_name None h));
    mret buf.

(** [parse_headers]; one iteration per header line. *)
Fixpoint parse_headers_loop (fuel : nat) (max_headers buf : nat) : M nat :=
  match fuel with
  | O => out_of_fuel
  | S fuel =>
      _ ← CHECK_EOF buf;
      c ← deref buf;
      if (c =? CR)%beq then EXPECT_CHAR LF (S buf)
      else if (c =? LF)%beq then mret (S buf)
      else
        n ← gets num_headers;
        if (n =? max_headers)%nat then fail (-1)
        else
          buf ← parse_header_name n buf;
          '(token, token_len, buf) ← get_token_to_eol buf;
          _ ← upd_header n (with_value (Some token) token_len);
          _ ← modify (set_num_headers (S n));
          parse_headers_loop fuel max_headers buf
  end.

Definition parse_headers (buf max_headers : nat) : M nat :=
  parse_headers_loop (S (buf_end - buf)) max_headers buf.

(** [while (1)] of [ADVANCE_TOKEN] *)
Fixpoint token_loop (fuel : nat) (buf : nat) : M nat :=
  match fuel with
  | O => out_of_fuel
  | S fuel =>
      c ← deref buf;
      if (c =? SP)%beq then mret buf
      else if negb (IS_PRINTABLE_ASCII c) && is_ctl_token c then fail (-1)
      else _ ← CHECK_EOF (S buf); token_loop fuel (S buf)
  end.

(** [ADVANCE_TOKEN(tok, toklen)]: token, its length, new [buf]. *)
Definition ADVANCE_TOKEN (buf : nat) : M (nat * nat * nat) :=
  let tok_start := buf in
  '(buf, found2) ← findchar_fast buf ranges_token;
  _ ← (if found2 : bool then mret tt else CHECK_EOF buf);
  buf ← token_loop (S (buf_end - buf)) buf;
  mret (tok_start, (buf - tok_start)%nat, buf).

(** The optional empty line before a request: lines 416-423. *)
Definition skip_empty_line (buf : nat) : M nat :=
  _ ← CHECK_EOF buf;
  c ← deref buf;
  if (c =? CR)%beq then EXPECT_CHAR LF (S buf)
  else if (c =? LF)%beq then mret (S buf)
  else mret buf.

Definition parse_request (buf max_headers : nat) : M nat :=
  buf ← skip_empty_line buf;
  '(tok, toklen, buf) ← ADVANCE_TOKEN buf;
  _ ← modify (set_method (Some tok) toklen);
  '(tok, toklen, buf) ← ADVANCE_TOKEN (S buf);
  _ ← modify (set_path (Some tok) toklen);
  buf ← parse_http_version (S buf);
  c ← deref buf;
  buf ← (if (c =? CR)%beq then EXPECT_CHAR LF (S buf)
         else if (c =? LF)%beq then mret (S buf)
         else fail (-1));
  parse_headers buf max_headers.

Definition parse_response (buf max_headers : nat) : M nat :=
  buf ← parse_http_version buf;
  buf ← EXPECT_CHAR_NO_CHECK SP buf;
  if (buf_end - buf <? 4)%nat then fail (-2)
  else
    buf ← PARSE_INT_3 buf;
    buf ← EXPECT_CHAR_NO_CHECK SP buf;
    '(tok, toklen, buf) ← get_token_to_eol buf;
    _ ← modify (set_msg (Some tok) toklen);
    parse_headers buf max_headers.

(** [if (... == NULL) return r;] at an entry point: the [int] it returns. *)
Definition returning (m : M Z) : M Z := fun o =>
  match m o with
  | (Ret r, o) => (Done r, o)
  | x => x
  end.

(** The guard [last_len != 0 && is_complete(...) == NULL]. *)
Definition check_complete (last_len : nat) : M unit :=
  if (last_len =? 0)%nat then mret tt else _ ← is_complete 0 last_len; mret tt.

Definition phr_parse_request (last_len : nat) : M Z :=
  max_headers ← gets num_headers;
  _ ← modify (fun o => set_num_headers 0 (set_minor_version (-1)
                (set_path None 0 (set_method None 0 o))));
  returning (
    _ ← check_complete last_len;
    buf ← parse_request last_len max_headers;
    mret (wraps 32 (Z.of_nat buf - Z.of_nat last_len))).

Definition phr_parse_response (last_len : nat) : M Z :=
  max_headers ← gets num_headers;
  _ ← modify (fun o => set_num_headers 0 (set_msg None 0 (set_status 0
                (set_minor_version (-1) o))));
  returning (
    _ ← check_complete last_len;
    buf ← parse_response 0 max_headers;
    mret (wraps 32 (Z.of_nat buf))).

Definition phr_parse_headers (last_len : nat) : M Z :=
  max_headers ← gets num_headers;
  _ ← modify (set_num_headers 0);
  returning (
    _ ← check_complete last_len;
    buf ← parse_headers 0 max_headers;
    mret (wraps 32 (Z.of_nat buf))).

End parser.

(** The state before a call: an array of [cap] headers, [*num_headers = cap]. *)
Definition outs_init (cap : nat) : outs :=
  mk_outs None 0 None 0 0 0 None 0 (replicate cap null_header) cap.

(** The text a pointer and a length denote in the buffer. *)
Definition view (s : list byte) (p : option nat) (n : nat) : list byte :=
  match p with None => [] | Some i => take n (drop i s) end.

(** Executable check on the response of the repository's own header test. *)
Definition test_head : list byte :=
  bs "HTTP/1.1 200 OK" ++ [LF] ++ bs "Connection: close" ++ [LF] ++
  bs "Content-Type: text/html; charset=utf-8" ++ [LF] ++
  bs "Content-Length: 22305" ++ [LF] ++ bs "Host: hahaha" ++ [LF] ++
  bs "Set-Cookie: CSESSIONID=aaaaaaaaaaaaaaaaaaaaaaaa; path=/" ++ [LF].

Example test_head_parses :
  let '(r, o) := phr_parse_response false (mk_sse_unit (fun _ _ _ => 16) (fun _ => [])) test_head 0 (outs_init 100) in
  r = Done (-2)%Z /\ status o = 200%Z /\ num_headers o = 5 /\
  view test_head (msg o) (msg_len o) = bs "OK".
Proof. vm_compute. done. Qed.
