(* ===== verification/PicoEquiv.v ===== *)
(** * The vectorised and the unrolled scanners of [picohttpparser.h]

    The parser has two compiled forms: with [__SSE4_2__] it looks for the end
    of a token 16 bytes at a time through [_mm_cmpestri]; without, it uses a
    loop unrolled eight times.  Both are proved equal to the plain
    character-by-character loop, so every entry point computes the same
    function in both builds.

    Two parser actions are compared by [meq], equality on every state. *)

From S2P Require Import Prelude PicoHttp.

(** ** What the intrinsic does *)

(** Membership in a table of (low, high) bounds. *)
Fixpoint in_ranges (ranges : list byte) (c : byte) : bool :=
  match ranges with
  | lo :: hi :: t => ((code lo <=? code c)%Z && (code c <=? code hi)%Z) || in_ranges t c
  | _ => false
  end.

(** Index of the first byte in a range, the length of the block if none. *)
Fixpoint first_in_ranges (ranges b : list byte) : nat :=
  match b with
  | [] => 0
  | c :: b => if in_ranges ranges c then 0 else S (first_in_ranges ranges b)
  end.

(** The documented result of [_mm_cmpestri] on a block of 16 bytes with
    [_SIDD_LEAST_SIGNIFICANT | _SIDD_CMP_RANGES | _SIDD_UBYTE_OPS]; and the 16
    bytes from the start of a table can be read, although two of the tables are
    shorter. *)
Definition cpu_spec (cpu : sse_unit) : Prop :=
  (forall ranges n b, length b = 16 -> mm_cmpestri cpu ranges n b = first_in_ranges (take n ranges) b) /\
  (forall table, 15 <= length table + length (behind cpu table)).

Definition intrinsics : sse_unit :=
  mk_sse_unit (fun ranges n b => first_in_ranges (take n ranges) b) (fun _ => replicate 16 xff).

Lemma intrinsics_spec : cpu_spec intrinsics.
Proof. split; [done|]. intros table. simpl. lia. Qed.

(** ** Equality of parser actions *)

Definition meq {A} (m n : M A) : Prop := forall o, m o = n o.
Infix "≡m" := meq (at level 70).

#[export] Instance meq_equiv A : Equivalence (@meq A).
Proof.
  split; [by intros m o | by intros m n H o | by intros m n k H1 H2 o; rewrite H1].
Qed.

#[export] Instance mbind_meq A B :
  Proper (pointwise_relation A meq ==> meq ==> meq) (@mbind M M_bind A B).
Proof.
  intros f g Hfg m n Hmn o. unfold mbind, M_bind. rewrite Hmn.
  destruct (n o) as [[a|r| |] o']; [apply Hfg | done..].
Qed.

Lemma bind_meq {A B} (m n : M A) (f g : A -> M B) :
  m ≡m n -> (forall a, f a ≡m g a) -> (m ≫= f) ≡m (n ≫= g).
Proof. intros H1 H2. by apply mbind_meq. Qed.

Lemma bind_done {A B} (m : M A) (f : A -> M B) o a o' :
  m o = (Done a, o') -> (m ≫= f) o = f a o'.
Proof. unfold mbind, M_bind. by intros ->. Qed.

Lemma ret_bind {A B} (a : A) (f : A -> M B) o : (mret a ≫= f) o = f a o.
Proof. done. Qed.

Lemma fail_bind {A B} r (f : A -> M B) o : (fail r ≫= f) o = (Ret r, o).
Proof. done. Qed.

Lemma deref_some s b c : s !! b = Some c -> deref s b = mret c.
Proof. unfold deref. by intros ->. Qed.

Lemma deref_bind {B} s b c (f : byte -> M B) o :
  s !! b = Some c -> (deref s b ≫= f) o = f c o.
Proof. intros H. by rewrite (deref_some _ _ _ H). Qed.

Lemma bind_assoc {A B C} (m : M A) (f : A -> M B) (g : B -> M C) :
  ((m ≫= f) ≫= g) ≡m (m ≫= fun a => f a ≫= g).
Proof. intros o. unfold mbind, M_bind. by destruct (m o) as [[a|r| |] o']. Qed.

Lemma returning_meq (m n : M Z) : m ≡m n -> returning m ≡m returning n.
Proof. intros H o. unfold returning. by rewrite H. Qed.

(** ** Character classes *)

Lemma is_ctl_not_printable c : is_ctl c = true -> IS_PRINTABLE_ASCII c = false.
Proof.
  pose proof (all_bytes_spec (fun c => negb (is_ctl c) || negb (IS_PRINTABLE_ASCII c))) as H.
  specialize (H ltac:(vm_compute; reflexivity) c). cbv beta in H.
  destruct (is_ctl c), (IS_PRINTABLE_ASCII c); done.
Qed.

Lemma ranges_eol_ctl c : in_ranges ranges_eol c = is_ctl c.
Proof.
  pose proof (all_bytes_spec (fun c => eqb (in_ranges ranges_eol c) (is_ctl c))) as H.
  specialize (H ltac:(vm_compute; reflexivity) c). by apply eqb_prop in H.
Qed.

(** A byte outside [ranges_name] belongs to a name and is not the colon. *)
Definition name_goes_on (c : byte) : bool := negb (c =? ":"%byte)%beq && is_token_char c.

Lemma ranges_name_skip c : in_ranges ranges_name c = false -> name_goes_on c = true.
Proof.
  pose proof (all_bytes_spec (fun c => in_ranges ranges_name c || name_goes_on c)) as H.
  specialize (H ltac:(vm_compute; reflexivity) c). cbv beta in H. intros E. by rewrite E in H.
Qed.

(** A byte outside [ranges_token] is neither a space nor a control. *)
Definition token_goes_on (c : byte) : bool :=
  negb (c =? SP)%beq && negb (negb (IS_PRINTABLE_ASCII c) && is_ctl_token c).

Lemma ranges_token_skip c : in_ranges ranges_token c = false -> token_goes_on c = true.
Proof.
  pose proof (all_bytes_spec (fun c => in_ranges ranges_token c || token_goes_on c)) as H.
  specialize (H ltac:(vm_compute; reflexivity) c). cbv beta in H. intros E. by rewrite E in H.
Qed.

(** ** Scanners *)

Section scan.
Variable s : list byte.

(** [m] moves [b] forward over bytes that do not satisfy [p], within the
    buffer; when it reports a hit, the byte reached satisfies [p]. *)
Definition skips (p : byte -> bool) (b : nat) (m : M (nat * bool)) : Prop :=
  forall o, exists b' found, m o = (Done (b', found), o) /\ b <= b' /\
    (b' <= length s \/ b' = b) /\
    (forall i c, b <= i < b' -> s !! i = Some c -> p c = false) /\
    (found = true -> exists c, s !! b' = Some c /\ p c = true).

Lemma skips_here p b : skips p b (mret (b, false)).
Proof. intros o. exists b, false. split_and!; [done | lia | by right | intros; lia | done]. Qed.

Lemma first_in_ranges_spec ranges b :
  first_in_ranges ranges b <= length b /\
  (forall i c, i < first_in_ranges ranges b -> b !! i = Some c -> in_ranges ranges c = false) /\
  (first_in_ranges ranges b < length b ->
   exists c, b !! first_in_ranges ranges b = Some c /\ in_ranges ranges c = true).
Proof.
  induction b as [|d b (IH1 & IH2 & IH3)]; simpl.
  - split_and!; [lia | intros; lia | lia].
  - destruct (in_ranges ranges d) eqn:E.
    + split_and!; [lia | intros; lia | intros _; by exists d].
    + split_and!; [lia | | intros H; apply IH3; lia].
      intros [|i] c Hi Hc; simplify_eq/=; [done | apply (IH2 i); [lia | done]].
Qed.

Section sse.
Context (cpu : sse_unit).
Hypothesis Hcmp : cpu_spec cpu.

Lemma findchar_loop_skips fuel ranges16 ranges b :
  take (length ranges) ranges16 = ranges -> 1 <= fuel -> b + fuel * 16 <= length s ->
  skips (in_ranges ranges) b (findchar_loop cpu s fuel ranges16 (length ranges) (fuel * 16) b).
Proof.
  intros Hr. revert b. induction fuel as [|fuel IH]; intros b H1 Hb o; [lia|].
  cbn [findchar_loop]. unfold load16.
  rewrite (proj2 (Nat.leb_le _ _)) by lia. rewrite ret_bind.
  assert (Hl : length (take 16 (drop b s)) = 16) by (rewrite length_take, length_drop; lia).
  rewrite (proj1 Hcmp) by done. rewrite Hr.
  destruct (first_in_ranges_spec ranges (take 16 (drop b s))) as (F1 & F2 & F3).
  set (r := first_in_ranges ranges (take 16 (drop b s))) in *.
  assert (Hat : forall i c, i < 16 -> s !! (b + i) = Some c -> take 16 (drop b s) !! i = Some c).
  { intros i c Hi Hc. rewrite lookup_take_lt by done. by rewrite lookup_drop. }
  assert (Hskip : forall i c, b <= i < b + r -> s !! i = Some c -> in_ranges ranges c = false).
  { intros i c Hi Hc. apply (F2 (i - b)); [lia|]. apply Hat; [lia|].
    by replace (b + (i - b)) with i by lia. }
  destruct (r =? 16) eqn:Er; boolp; cbn [negb].
  - rewrite Er in Hskip. destruct fuel as [|fuel].
    + cbn. exists (b + 16), false. split_and!; [done | lia | left; lia | done | done].
    + replace (S (S fuel) * 16 - 16) with (S fuel * 16) by lia.
      rewrite (proj2 (Nat.eqb_neq _ _)) by lia. cbn [negb].
      destruct (IH (b + 16) ltac:(lia) ltac:(lia) o) as (b' & f & -> & H2 & H3 & H4 & H5).
      exists b', f. split_and!; [done | lia | lia | | done].
      intros i c Hi Hc. destruct (decide (i < b + 16)); [apply (Hskip i) | apply (H4 i)]; done || lia.
  - exists (b + r), true. split_and!; [done | lia | left; lia | done |].
    intros _. destruct F3 as (c & Hc & Hin); [lia|]. exists c. split; [|done].
    rewrite <- Hc. rewrite lookup_take_lt by lia. by rewrite lookup_drop.
Qed.

Lemma findchar_fast_skips sse b ranges :
  length ranges <= 16 -> skips (in_ranges ranges) b (findchar_fast sse cpu s b ranges).
Proof.
  intros Hr. unfold findchar_fast. destruct sse; [|apply skips_here].
  case_if; [|apply skips_here]. pose proof (proj2 Hcmp ranges) as Hb.
  unfold load_ranges. rewrite (proj2 (Nat.leb_le _ _)) by (rewrite !length_app; simpl; lia).
  intros o. rewrite ret_bind. revert o.
  pose proof (Nat.div_mod_eq (length s - b) 16).
  pose proof (Nat.mod_upper_bound (length s - b) 16 ltac:(lia)).
  apply findchar_loop_skips; [|lia|lia]. rewrite take_take, Nat.min_l by done. by rewrite take_app_length.
Qed.
End sse.

Lemma doit_spec k b o :
  b + k <= length s ->
  exists b' np, doit s k b o = (Done (b', np), o) /\ b <= b' <= b + k /\
    (np = false -> b' = b + k) /\ (np = true -> b' < b + k) /\
    (forall i c, b <= i < b' -> s !! i = Some c -> is_ctl c = false).
Proof.
  revert b. induction k as [|k IH]; intros b Hb; cbn [doit].
  - exists b, false. split_and!; [done | lia.. | done | intros; lia].
  - destruct (lookup_lt_is_Some_2 s b) as [c Hc]; [lia|].
    rewrite (deref_bind _ _ _ _ _ Hc).
    destruct (IS_PRINTABLE_ASCII c) eqn:Ep; cbn [negb].
    + destruct (IH (S b) ltac:(lia)) as (b' & np & -> & H1 & H2 & H3 & H4).
      exists b', np. split_and!; [done | lia.. | intros ->; specialize (H2 eq_refl); lia
        | intros ->; specialize (H3 eq_refl); lia |].
      intros i d Hi Hd. destruct (decide (i = b)) as [->|]; [|apply (H4 i); [lia | done]].
      assert (d = c) as -> by congruence. destruct (is_ctl c) eqn:Ec; [|done].
      apply is_ctl_not_printable in Ec. congruence.
    + exists b, true. split_and!; [done | lia.. | done | lia | intros; lia].
Qed.

Lemma skip_by_8_skips fuel b :
  length s - b < fuel -> skips is_ctl b (skip_by_8 s fuel b).
Proof.
  revert b. induction fuel as [|fuel IH]; intros b Hf o; [lia|]. cbn [skip_by_8].
  destruct (8 <=? length s - b) eqn:E8; boolp; [|apply skips_here].
  destruct (doit_spec 8 b o ltac:(lia)) as (b1 & np & Hd & H1 & H2 & H3 & H4).
  rewrite (bind_done _ _ _ _ _ Hd). destruct np.
  - specialize (H3 eq_refl).
    destruct (lookup_lt_is_Some_2 s b1) as [c Hc]; [lia|].
    rewrite (deref_bind _ _ _ _ _ Hc).
    destruct (is_ctl c) eqn:Ec.
    + exists b1, true. split_and!; [done | lia | lia | done | by exists c].
    + destruct (IH (S b1) ltac:(lia) o) as (b' & f & -> & G1 & G2 & G3 & G4).
      exists b', f. split_and!; [done | lia | lia | | done].
      intros i d Hi Hd'. destruct (decide (i < b1)); [apply (H4 i); [lia | done]|].
      destruct (decide (i = b1)) as [->|]; [congruence | apply (G3 i); [lia | done]].
  - specialize (H2 eq_refl).
    destruct (IH b1 ltac:(lia) o) as (b' & f & -> & G1 & G2 & G3 & G4).
    exists b', f. split_and!; [done | lia | lia | | done].
    intros i d Hi Hd'. destruct (decide (i < b1)); [apply (H4 i) | apply (G3 i)]; done || lia.
Qed.

(** ** The loops after the scanners *)

Lemma CHECK_EOF_lt b : b < length s -> CHECK_EOF s b = mret tt.
Proof. intros H. unfold CHECK_EOF. by rewrite (proj2 (Nat.eqb_neq _ _)) by lia. Qed.

(** A forward step of a loop whose bound is tied to [b]. *)
Lemma skip_induction (G : nat -> nat -> Prop) (p : byte -> bool) b b' :
  (forall b, G b b) ->
  (forall b b' c, b < length s -> s !! b = Some c -> p c = false -> G (S b) b' -> G b b') ->
  b <= b' -> b' <= length s \/ b' = b ->
  (forall i c, b <= i < b' -> s !! i = Some c -> p c = false) -> G b b'.
Proof.
  intros Hrefl Hstep. remember (b' - b) as n eqn:Hn. revert b Hn.
  induction n as [|n IH]; intros b Hn Hle Hlen Hp.
  - replace b' with b by lia. apply Hrefl.
  - destruct (lookup_lt_is_Some_2 s b) as [c Hc]; [lia|].
    apply (Hstep b b' c); [lia | done | apply (Hp b); [lia | done] |].
    apply IH; [lia | lia | left; lia |]. intros i d Hi. apply Hp. lia.
Qed.

Lemma eol_loop_skip b b' :
  b <= b' -> b' <= length s \/ b' = b ->
  (forall i c, b <= i < b' -> s !! i = Some c -> is_ctl c = false) ->
  eol_loop s (S (length s - b)) b ≡m eol_loop s (S (length s - b')) b'.
Proof.
  apply (skip_induction (fun b b' => eol_loop s (S (length s - b)) b
                                   ≡m eol_loop s (S (length s - b')) b') is_ctl); [intros ?; reflexivity|].
  clear b b'. intros b b' c Hb Hc Hp IH. rewrite <- IH. intros o.
  replace (length s - b) with (S (length s - S b)) by lia. cbn [eol_loop].
  rewrite (CHECK_EOF_lt b), ret_bind by done. rewrite (deref_bind _ _ _ _ _ Hc), Hp.
  by destruct (IS_PRINTABLE_ASCII c).
Qed.

Lemma eol_loop_here b c :
  s !! b = Some c -> is_ctl c = true -> eol_loop s (S (length s - b)) b ≡m mret b.
Proof.
  intros Hc Hp o. pose proof (lookup_lt_Some _ _ _ Hc). cbn [eol_loop].
  rewrite (CHECK_EOF_lt b), ret_bind by done.
  rewrite (deref_bind _ _ _ _ _ Hc), (is_ctl_not_printable _ Hp), Hp. done.
Qed.

(** [get_token_to_eol] without either optimisation. *)
Definition get_token_simple (b : nat) : M (nat * nat * nat) :=
  b' ← eol_loop s (S (length s - b)) b; found_ctl s b b'.

Lemma skips_then_eol b (m : M (nat * bool)) :
  skips is_ctl b m ->
  ('(b', found) ← m;
   if found : bool then found_ctl s b b'
   else b' ← eol_loop s (S (length s - b')) b'; found_ctl s b b')
  ≡m get_token_simple b.
Proof.
  intros Hm o. destruct (Hm o) as (b' & found & E & H1 & H2 & H3 & H4).
  rewrite (bind_done _ _ _ _ _ E). unfold get_token_simple.
  rewrite (bind_meq _ _ _ _ (eol_loop_skip b b' H1 H2 H3) (fun _ => reflexivity _) o).
  destruct found; [|done]. destruct H4 as (c & Hc & Hp); [done|].
  rewrite (bind_meq _ _ _ _ (eol_loop_here b' c Hc Hp) (fun _ => reflexivity _) o). done.
Qed.

Lemma name_scan_skip b b' :
  b <= b' -> b' <= length s \/ b' = b ->
  (forall i c, b <= i < b' -> s !! i = Some c -> negb (name_goes_on c) = false) ->
  (_ ← CHECK_EOF s b; name_loop s (S (length s - b)) b)
  ≡m (_ ← CHECK_EOF s b'; name_loop s (S (length s - b')) b').
Proof.
  apply (skip_induction (fun b b' =>
    (_ ← CHECK_EOF s b; name_loop s (S (length s - b)) b)
    ≡m (_ ← CHECK_EOF s b'; name_loop s (S (length s - b')) b'))
    (fun c => negb (name_goes_on c))); [intros ?; reflexivity|].
  clear b b'. intros b b' c Hb Hc Hp IH. rewrite <- IH. intros o. boolp.
  unfold name_goes_on in Hp. apply andb_prop in Hp as [Hp1 Hp2].
  replace (length s - b) with (S (length s - S b)) by lia.
  rewrite (CHECK_EOF_lt b), ret_bind by done. cbn [name_loop].
  rewrite (deref_bind _ _ _ _ _ Hc), Hp2. by destruct (c =? ":"%byte)%beq.
Qed.

Lemma token_scan_skip b b' :
  b <= b' -> b' <= length s \/ b' = b ->
  (forall i c, b <= i < b' -> s !! i = Some c -> negb (token_goes_on c) = false) ->
  (_ ← CHECK_EOF s b; token_loop s (S (length s - b)) b)
  ≡m (_ ← CHECK_EOF s b'; token_loop s (S (length s - b')) b').
Proof.
  apply (skip_induction (fun b b' =>
    (_ ← CHECK_EOF s b; token_loop s (S (length s - b)) b)
    ≡m (_ ← CHECK_EOF s b'; token_loop s (S (length s - b')) b'))
    (fun c => negb (token_goes_on c))); [intros ?; reflexivity|].
  clear b b'. intros b b' c Hb Hc Hp IH. rewrite <- IH. intros o. boolp.
  unfold token_goes_on in Hp. apply andb_prop in Hp as [Hp1 Hp2].
  replace (length s - b) with (S (length s - S b)) by lia.
  rewrite (CHECK_EOF_lt b), ret_bind by done. cbn [token_loop].
  rewrite (deref_bind _ _ _ _ _ Hc).
  destruct (c =? SP)%beq; [done|].
  by destruct (negb (IS_PRINTABLE_ASCII c) && is_ctl_token c).
Qed.

(** A scanner followed by the end test and a loop, against the end test and
    the loop alone. *)
Lemma scan_then_loop (q p : byte -> bool) (loop : nat -> M nat) b (m : M (nat * bool)) :
  (forall c, q c = false -> p c = false) ->
  (forall b b', b <= b' -> b' <= length s \/ b' = b ->
    (forall i c, b <= i < b' -> s !! i = Some c -> p c = false) ->
    (_ ← CHECK_EOF s b; loop b) ≡m (_ ← CHECK_EOF s b'; loop b')) ->
  skips q b m ->
  ('(b', found) ← m;
   _ ← (if found : bool then mret tt else CHECK_EOF s b'); loop b')
  ≡m (_ ← CHECK_EOF s b; loop b).
Proof.
  intros Hqp Hloop Hm o. destruct (Hm o) as (b' & found & E & H1 & H2 & H3 & H4).
  rewrite (bind_done _ _ _ _ _ E), (Hloop b b' H1 H2); [|intros i c Hi Hc; apply Hqp; by apply (H3 i)].
  destruct found; [|done]. destruct H4 as (c & Hc & _); [done|].
  rewrite CHECK_EOF_lt by (by eapply lookup_lt_Some). done.
Qed.

Lemma scan_then_loop_k (q p : byte -> bool) (loop : nat -> M nat) b (m : M (nat * bool))
    {B} (k : nat -> M B) :
  (forall c, q c = false -> p c = false) ->
  (forall b b', b <= b' -> b' <= length s \/ b' = b ->
    (forall i c, b <= i < b' -> s !! i = Some c -> p c = false) ->
    (_ ← CHECK_EOF s b; loop b) ≡m (_ ← CHECK_EOF s b'; loop b')) ->
  skips q b m ->
  ('(b', found) ← m;
   _ ← (if found : bool then mret tt else CHECK_EOF s b'); x ← loop b'; k x)
  ≡m (_ ← CHECK_EOF s b; x ← loop b; k x).
Proof.
  intros Hqp Hloop Hm.
  pose proof (bind_meq _ _ k k (scan_then_loop q p loop b m Hqp Hloop Hm)
                (fun _ => reflexivity _)) as H.
  rewrite !bind_assoc in H. rewrite <- H. apply bind_meq; [done|].
  intros [b' found]. symmetry. apply bind_assoc.
Qed.
End scan.

(** ** The entry points *)

Section builds.
Context (sse : bool) (cpu : sse_unit).
Hypothesis Hcmp : cpu_spec cpu.
Variable s : list byte.

Lemma get_token_to_eol_simple b :
  get_token_to_eol sse cpu s b ≡m get_token_simple s b.
Proof.
  unfold get_token_to_eol. apply skips_then_eol. destruct sse.
  - intros o. destruct (findchar_fast_skips s cpu Hcmp true b ranges_eol ltac:(simpl; lia) o)
      as (b' & f & E & H1 & H2 & H3 & H4).
    exists b', f. split_and!; [done.. | |].
    + intros i c Hi Hc. rewrite <- ranges_eol_ctl. by apply (H3 i).
    + intros Hf. destruct (H4 Hf) as (c & Hc & Hin). exists c.
      by rewrite <- ranges_eol_ctl.
  - apply skip_by_8_skips. lia.
Qed.

(** The name part of a header without the scanner. *)
Definition parse_header_name_simple (n b : nat) : M nat :=
  c ← deref s b;
  if negb (negb (n =? 0)%nat && ((c =? SP)%beq || (c =? HT)%beq)) then
    _ ← upd_header n (with_name (Some b));
    _ ← CHECK_EOF s b;
    b' ← name_loop s (S (length s - b)) b;
    _ ← upd_header n (with_name_len (b' - b)%nat);
    if (b' - b =? 0)%nat then fail (-1)
    else skip_blanks s (S (length s - S b')) (S b')
  else
    _ ← upd_header n (fun h => with_name_len 0 (with_name None h));
    mret b.

Lemma parse_header_name_eq n b :
  parse_header_name sse cpu s n b ≡m parse_header_name_simple n b.
Proof.
  unfold parse_header_name, parse_header_name_simple.
  apply bind_meq; [done|]. intros c.
  destruct (negb _); [|done]. apply bind_meq; [done|]. intros _.
  apply (scan_then_loop_k s (in_ranges ranges_name) (fun c => negb (name_goes_on c))
           (fun b => name_loop s (S (length s - b)) b)).
  - intros d Hd. by rewrite (ranges_name_skip _ Hd).
  - apply name_scan_skip.
  - apply findchar_fast_skips; [done | simpl; lia].
Qed.

Definition ADVANCE_TOKEN_simple (b : nat) : M (nat * nat * nat) :=
  _ ← CHECK_EOF s b;
  b' ← token_loop s (S (length s - b)) b;
  mret (b, (b' - b)%nat, b').

Lemma ADVANCE_TOKEN_eq b :
  ADVANCE_TOKEN sse cpu s b ≡m ADVANCE_TOKEN_simple b.
Proof.
  unfold ADVANCE_TOKEN, ADVANCE_TOKEN_simple.
  apply (scan_then_loop_k s (in_ranges ranges_token) (fun c => negb (token_goes_on c))
           (fun b => token_loop s (S (length s - b)) b)).
  - intros d Hd. by rewrite (ranges_token_skip _ Hd).
  - apply token_scan_skip.
  - apply findchar_fast_skips; [done | simpl; lia].
Qed.

(** The header loop without the scanners. *)
Fixpoint headers_simple (fuel : nat) (max_headers b : nat) : M nat :=
  match fuel with
  | O => out_of_fuel
  | S fuel =>
      _ ← CHECK_EOF s b;
      c ← deref s b;
      if (c =? CR)%beq then EXPECT_CHAR s LF (S b)
      else if (c =? LF)%beq then mret (S b)
      else
        n ← gets num_headers;
        if (n =? max_headers)%nat then fail (-1)
        else
          b ← parse_header_name_simple n b;
          '(token, token_len, b) ← get_token_simple s b;
          _ ← upd_header n (with_value (Some token) token_len);
          _ ← modify (set_num_headers (S n));
          headers_simple fuel max_headers b
  end.

Lemma parse_headers_loop_eq fuel max b :
  parse_headers_loop sse cpu s fuel max b ≡m headers_simple fuel max b.
Proof.
  revert b. induction fuel as [|fuel IH]; intros b; [done|].
  cbn [parse_headers_loop headers_simple].
  apply bind_meq; [done|]. intros _. apply bind_meq; [done|]. intros c.
  destruct (c =? CR)%beq; [done|]. destruct (c =? LF)%beq; [done|].
  apply bind_meq; [done|]. intros n. destruct (n =? max); [done|].
  apply bind_meq; [apply parse_header_name_eq|]. intros b1.
  apply bind_meq; [apply get_token_to_eol_simple|]. intros [[tok len] b2].
  apply bind_meq; [done|]. intros _. apply bind_meq; [done|]. intros _. apply IH.
Qed.

Lemma parse_headers_eq b max :
  parse_headers sse cpu s b max ≡m headers_simple (S (length s - b)) max b.
Proof. apply parse_headers_loop_eq. Qed.

(** The two message parsers without the scanners. *)
Definition parse_request_simple (b max_headers : nat) : M nat :=
  b ← skip_empty_line s b;
  '(tok, toklen, b) ← ADVANCE_TOKEN_simple b;
  _ ← modify (set_method (Some tok) toklen);
  '(tok, toklen, b) ← ADVANCE_TOKEN_simple (S b);
  _ ← modify (set_path (Some tok) toklen);
  b ← parse_http_version s (S b);
  c ← deref s b;
  b ← (if (c =? CR)%beq then EXPECT_CHAR s LF (S b)
       else if (c =? LF)%beq then mret (S b)
       else fail (-1));
  headers_simple (S (length s - b)) max_headers b.

Definition parse_response_simple (b max_headers : nat) : M nat :=
  b ← parse_http_version s b;
  b ← EXPECT_CHAR_NO_CHECK s SP b;
  if (length s - b <? 4)%nat then fail (-2)
  else
    b ← PARSE_INT_3 s b;
    b ← EXPECT_CHAR_NO_CHECK s SP b;
    '(tok, toklen, b) ← get_token_simple s b;
    _ ← modify (set_msg (Some tok) toklen);
    headers_simple (S (length s - b)) max_headers b.

Lemma parse_request_eq b max :
  parse_request sse cpu s b max ≡m parse_request_simple b max.
Proof.
  unfold parse_request, parse_request_simple.
  apply bind_meq; [done|]. intros b1.
  apply bind_meq; [apply ADVANCE_TOKEN_eq|]. intros [[t1 l1] b2].
  apply bind_meq; [done|]. intros _.
  apply bind_meq; [apply ADVANCE_TOKEN_eq|]. intros [[t2 l2] b3].
  apply bind_meq; [done|]. intros _. apply bind_meq; [done|]. intros b4.
  apply bind_meq; [done|]. intros c. apply bind_meq; [done|]. intros b5.
  apply parse_headers_eq.
Qed.

Lemma parse_response_eq b max :
  parse_response sse cpu s b max ≡m parse_response_simple b max.
Proof.
  unfold parse_response, parse_response_simple.
  apply bind_meq; [done|]. intros b1. apply bind_meq; [done|]. intros b2.
  destruct (_ <? 4); [done|].
  apply bind_meq; [done|]. intros b3. apply bind_meq; [done|]. intros b4.
  apply bind_meq; [apply get_token_to_eol_simple|]. intros [[t l] b5].
  apply bind_meq; [done|]. intros _. apply parse_headers_eq.
Qed.
End builds.

(** C20: the SSE4.2 build and the portable build of the parser compute the same
    function: every entry point returns the same value and writes the same
    outputs, for every buffer and every state, provided the intrinsic behaves
    as documented and the 16 bytes from the start of a range table can be read. *)
Theorem sse_equals_portable cpu any s last_len o :
  cpu_spec cpu ->
  phr_parse_request true cpu s last_len o = phr_parse_request false any s last_len o /\
  phr_parse_response true cpu s last_len o = phr_parse_response false any s last_len o /\
  phr_parse_headers true cpu s last_len o = phr_parse_headers false any s last_len o.
Proof.
  intros Hcmp.
  assert (Hany : cpu_spec intrinsics) by apply intrinsics_spec.
  assert (Hindep : forall b max,
    parse_request false any s b max ≡m parse_request_simple s b max /\
    parse_response false any s b max ≡m parse_response_simple s b max /\
    parse_headers false any s b max ≡m headers_simple s (S (length s - b)) max b).
  { intros b max. change (parse_request false any s b max)
      with (parse_request false intrinsics s b max).
    change (parse_response false any s b max) with (parse_response false intrinsics s b max).
    change (parse_headers false any s b max) with (parse_headers false intrinsics s b max).
    split_and!; [by apply parse_request_eq | by apply parse_response_eq | by apply parse_headers_eq]. }
  split_and!; apply bind_meq; [done | | done | | done |]; intros max;
    (apply bind_meq; [done|]; intros _; apply returning_meq;
     apply bind_meq; [done|]; intros _; apply bind_meq; [|done]).
  - rewrite (parse_request_eq true _ Hcmp). by rewrite (proj1 (Hindep last_len max)).
  - rewrite (parse_response_eq true _ Hcmp). by rewrite (proj1 (proj2 (Hindep 0 max))).
  - rewrite (parse_headers_eq true _ Hcmp). by rewrite (proj2 (proj2 (Hindep 0 max))).
Qed.

Lemma sse_equals_portable_witness :
  phr_parse_request true intrinsics test_head 0 (outs_init 4)
  = phr_parse_request false intrinsics test_head 0 (outs_init 4) /\
  phr_parse_response true intrinsics test_head 0 (outs_init 4)
  = phr_parse_response false intrinsics test_head 0 (outs_init 4) /\
  phr_parse_headers true intrinsics test_head 0 (outs_init 4)
  = phr_parse_headers false intrinsics test_head 0 (outs_init 4).
Proof.
  exact (sse_equals_portable intrinsics intrinsics test_head 0 (outs_init 4)
           intrinsics_spec).
Defined.
