(* ===== verification/PicoSafety.v ===== *)
(** * Memory safety, termination and output bounds of [picohttpparser.h]

    [wp m o P Q] says that the action [m], run in state [o], neither leaves an
    array nor exhausts a loop bound, and ends in [P] when it yields a value and
    in [Q] when it returns [NULL].  The rules below are proved once per macro
    and loop; the entry points follow by composing them. *)

From S2P Require Import Prelude PicoHttp PicoEquiv.

Definition wp {A} (m : M A) (o : outs) (P : A -> outs -> Prop) (Q : Z -> outs -> Prop) : Prop :=
  match m o with
  | (Done a, o') => P a o'
  | (Ret r, o') => Q r o'
  | _ => False
  end.

Lemma wp_meq {A} (m n : M A) o P Q : m ≡m n -> wp n o P Q -> wp m o P Q.
Proof. intros H. unfold wp. by rewrite H. Qed.

Lemma wp_ret {A} (a : A) o (P : A -> outs -> Prop) Q : P a o -> wp (mret a) o P Q.
Proof. done. Qed.

Lemma wp_fail {A} r o (P : A -> outs -> Prop) (Q : Z -> outs -> Prop) :
  Q r o -> wp (fail r) o P Q.
Proof. done. Qed.

Lemma wp_bind {A B} (m : M A) (f : A -> M B) o P Q :
  wp m o (fun a o' => wp (f a) o' P Q) Q -> wp (m ≫= f) o P Q.
Proof. unfold wp, mbind, M_bind. by destruct (m o) as [[a|r| |] o']. Qed.

Lemma wp_mono {A} (m : M A) o (P P' : A -> outs -> Prop) (Q Q' : Z -> outs -> Prop) :
  wp m o P Q -> (forall a o', P a o' -> P' a o') -> (forall r o', Q r o' -> Q' r o') ->
  wp m o P' Q'.
Proof. unfold wp. destruct (m o) as [[a|r| |] o']; auto. Qed.

Lemma wp_gets {A} (f : outs -> A) o P Q : P (f o) o -> wp (gets f) o P Q.
Proof. done. Qed.

Lemma wp_modify f o (P : unit -> outs -> Prop) Q : P tt (f o) -> wp (modify f) o P Q.
Proof. done. Qed.

Section safety.
Variable s : list byte.

Lemma wp_deref b o (P : byte -> outs -> Prop) Q :
  b < length s -> (forall c, s !! b = Some c -> P c o) -> wp (deref s b) o P Q.
Proof.
  intros Hb HP. destruct (lookup_lt_is_Some_2 s b Hb) as [c Hc].
  unfold wp. rewrite (deref_some _ _ _ Hc). by apply HP.
Qed.

Lemma wp_CHECK_EOF b o (P : unit -> outs -> Prop) (Q : Z -> outs -> Prop) :
  b <= length s -> Q (-2)%Z o -> (b < length s -> P tt o) -> wp (CHECK_EOF s b) o P Q.
Proof.
  intros Hb HQ HP. unfold wp, CHECK_EOF. destruct (b =? length s) eqn:E; boolp; [done|].
  apply HP. lia.
Qed.

Lemma wp_EXPECT_NC ch b o (P : nat -> outs -> Prop) (Q : Z -> outs -> Prop) :
  b < length s -> Q (-1)%Z o -> P (S b) o -> wp (EXPECT_CHAR_NO_CHECK s ch b) o P Q.
Proof.
  intros Hb HQ HP. unfold EXPECT_CHAR_NO_CHECK. apply wp_bind, wp_deref; [done|].
  intros c _. by destruct (c =? ch)%beq.
Qed.

Lemma wp_EXPECT ch b o (P : nat -> outs -> Prop) (Q : Z -> outs -> Prop) :
  b <= length s -> (forall r, r = -1 \/ r = -2 -> Q r o)%Z ->
  (b < length s -> P (S b) o) -> wp (EXPECT_CHAR s ch b) o P Q.
Proof.
  intros Hb HQ HP. unfold EXPECT_CHAR. apply wp_bind, wp_CHECK_EOF; [done | auto |].
  intros Hlt. apply wp_EXPECT_NC; auto.
Qed.

Lemma wp_PARSE_INT mul b o (P : Z * nat -> outs -> Prop) (Q : Z -> outs -> Prop) :
  b < length s -> Q (-1)%Z o -> (forall v, P (v, S b) o) -> wp (PARSE_INT s mul b) o P Q.
Proof.
  intros Hb HQ HP. unfold PARSE_INT. apply wp_bind, wp_deref; [done|].
  intros c _. destruct (_ || _); [done | apply HP].
Qed.

(** ** Loops: each ends within its bound *)

Lemma wp_eol_loop fuel b o (P : nat -> outs -> Prop) (Q : Z -> outs -> Prop) :
  b <= length s -> length s - b < fuel -> Q (-2)%Z o ->
  (forall b', b <= b' < length s -> P b' o) -> wp (eol_loop s fuel b) o P Q.
Proof.
  revert b. induction fuel as [|fuel IH]; intros b Hb Hf HQ HP; [lia|]. cbn [eol_loop].
  apply wp_bind, wp_CHECK_EOF; [done | done |]. intros Hlt.
  apply wp_bind, wp_deref; [done|]. intros c _.
  assert (HS : wp (eol_loop s fuel (S b)) o P Q).
  { apply IH; [lia | lia | done |]. intros b' ?. apply HP. lia. }
  destruct (negb _); [|done]. destruct (is_ctl c); [|done]. apply HP. lia.
Qed.

Lemma wp_found_ctl t b o (P : nat * nat * nat -> outs -> Prop) (Q : Z -> outs -> Prop) :
  t <= b < length s -> (forall r, r = -1 \/ r = -2 -> Q r o)%Z ->
  (forall len b', b < b' <= length s -> t + len < b' -> P (t, len, b') o) ->
  wp (found_ctl s t b) o P Q.
Proof.
  intros Hb HQ HP. unfold found_ctl. apply wp_bind, wp_deref; [lia|]. intros c _.
  destruct (c =? CR)%beq.
  - apply wp_bind, wp_EXPECT; [lia | done |]. intros Hlt. apply wp_ret, HP; lia.
  - destruct (c =? LF)%beq; [apply wp_ret, HP; lia | apply wp_fail; auto].
Qed.

Lemma wp_get_token b o (P : nat * nat * nat -> outs -> Prop) (Q : Z -> outs -> Prop) :
  b <= length s -> (forall r, r = -1 \/ r = -2 -> Q r o)%Z ->
  (forall len b', b < b' <= length s -> b + len < b' -> P (b, len, b') o) ->
  wp (get_token_simple s b) o P Q.
Proof.
  intros Hb HQ HP. unfold get_token_simple.
  apply wp_bind, wp_eol_loop; [done | lia | auto |]. intros b1 H1.
  apply wp_found_ctl; [lia | done |]. intros len b2 H2 H3. apply HP; lia.
Qed.

Lemma wp_name_loop fuel b o (P : nat -> outs -> Prop) (Q : Z -> outs -> Prop) :
  b < length s -> length s - b < fuel -> (forall r, r = -1 \/ r = -2 -> Q r o)%Z ->
  (forall b', b <= b' < length s -> P b' o) -> wp (name_loop s fuel b) o P Q.
Proof.
  revert b. induction fuel as [|fuel IH]; intros b Hb Hf HQ HP; [lia|]. cbn [name_loop].
  apply wp_bind, wp_deref; [done|]. intros c _.
  destruct (c =? ":"%byte)%beq; [apply wp_ret, HP; lia|].
  destruct (negb _); [apply wp_fail; auto|].
  apply wp_bind, wp_CHECK_EOF; [lia | auto |]. intros Hlt.
  apply IH; [lia | lia | done |]. intros b' ?. apply HP. lia.
Qed.

Lemma wp_token_loop fuel b o (P : nat -> outs -> Prop) (Q : Z -> outs -> Prop) :
  b < length s -> length s - b < fuel -> (forall r, r = -1 \/ r = -2 -> Q r o)%Z ->
  (forall b', b <= b' < length s -> P b' o) -> wp (token_loop s fuel b) o P Q.
Proof.
  revert b. induction fuel as [|fuel IH]; intros b Hb Hf HQ HP; [lia|]. cbn [token_loop].
  apply wp_bind, wp_deref; [done|]. intros c _.
  destruct (c =? SP)%beq; [apply wp_ret, HP; lia|].
  destruct (_ && _); [apply wp_fail; auto|].
  apply wp_bind, wp_CHECK_EOF; [lia | auto |]. intros Hlt.
  apply IH; [lia | lia | done |]. intros b' ?. apply HP. lia.
Qed.

Lemma wp_skip_blanks fuel b o (P : nat -> outs -> Prop) (Q : Z -> outs -> Prop) :
  b <= length s -> length s - b < fuel -> Q (-2)%Z o ->
  (forall b', b <= b' < length s -> P b' o) -> wp (skip_blanks s fuel b) o P Q.
Proof.
  revert b. induction fuel as [|fuel IH]; intros b Hb Hf HQ HP; [lia|]. cbn [skip_blanks].
  apply wp_bind, wp_CHECK_EOF; [done | done |]. intros Hlt.
  apply wp_bind, wp_deref; [done|]. intros c _.
  destruct (negb _); [apply wp_ret, HP; lia|].
  apply IH; [lia | lia | done |]. intros b' ?. apply HP. lia.
Qed.

Lemma wp_is_complete_loop fuel cnt b o (P : nat -> outs -> Prop) (Q : Z -> outs -> Prop) :
  b <= length s -> length s - b < fuel -> (forall r, r = -1 \/ r = -2 -> Q r o)%Z ->
  (forall b', b < b' <= length s -> P b' o) -> wp (is_complete_loop s fuel cnt b) o P Q.
Proof.
  revert b cnt. induction fuel as [|fuel IH]; intros b cnt Hb Hf HQ HP; [lia|].
  cbn [is_complete_loop].
  apply wp_bind, wp_CHECK_EOF; [done | auto |]. intros Hlt.
  apply wp_bind, wp_deref; [done|]. intros c _.
  apply wp_bind.
  assert (Hk : forall b1 cnt', b < b1 <= length s ->
    wp (if (cnt' =? 2)%nat then mret b1 else is_complete_loop s fuel cnt' b1) o P Q).
  { intros b1 cnt' H1. destruct (cnt' =? 2); [apply wp_ret, HP; lia|].
    apply IH; [lia | lia | done |]. intros b' ?. apply HP. lia. }
  destruct (c =? CR)%beq.
  - apply wp_bind, wp_CHECK_EOF; [lia | auto |]. intros H1.
    apply wp_bind, wp_EXPECT; [lia | auto |]. intros _. apply wp_ret, Hk. lia.
  - destruct (c =? LF)%beq; apply wp_ret, Hk; lia.
Qed.

(** ** Output parameters *)

(** A pointer and a length that stay inside the buffer. *)
Definition span_ok (p : option nat) (n : nat) : Prop :=
  match p with None => n = 0 | Some i => i + n <= length s end.

Definition header_name_ok (h : phr_header) : Prop :=
  span_ok (name h) (name_len h) /\ (name h <> None -> 0 < name_len h).

Definition header_ok (h : phr_header) : Prop :=
  header_name_ok h /\ value h <> None /\ span_ok (value h) (value_len h).

(** What the outputs satisfy at every point, [max] being the capacity the
    caller announced. *)
Record outs_ok (max : nat) (o : outs) : Prop := {
  ok_cap : max <= length (headers o);
  ok_num : num_headers o <= max;
  ok_headers : Forall header_ok (take (num_headers o) (headers o));
  ok_msg : span_ok (msg o) (msg_len o);
  ok_method : span_ok (method o) (method_len o);
  ok_path : span_ok (path o) (path_len o)
}.

Lemma upd_header_run n f o max :
  outs_ok max o -> num_headers o = n -> n < max ->
  exists h o', headers o !! n = Some h /\ upd_header n f o = (Done tt, o') /\
    outs_ok max o' /\ num_headers o' = n /\ headers o' !! n = Some (f h).
Proof.
  intros [] Hn Hlt. destruct (lookup_lt_is_Some_2 (headers o) n) as [h Hh]; [lia|].
  unfold upd_header. rewrite Hh. eexists h, _. split_and!; [done | done | | done |].
  - split; simpl; try done; [by rewrite length_insert|].
    rewrite take_insert_ge by lia. done.
  - simpl. apply list_lookup_insert_eq. lia.
Qed.

Definition failed (max : nat) (r : Z) (o : outs) : Prop :=
  (r = -1 \/ r = -2)%Z /\ outs_ok max o.

Lemma wp_upd_header n f o max (P : unit -> outs -> Prop) Q :
  outs_ok max o -> num_headers o = n -> n < max ->
  (forall h o', headers o !! n = Some h -> outs_ok max o' -> num_headers o' = n ->
                headers o' !! n = Some (f h) -> P tt o') ->
  wp (upd_header n f) o P Q.
Proof.
  intros Ho Hn Hlt HP. destruct (upd_header_run n f o max) as (h & o' & Hh & E & H1 & H2 & H3); [done..|].
  unfold wp. rewrite E. by apply (HP h).
Qed.

(** ** Components of a message *)

Lemma wp_header_name n b o max (P : nat -> outs -> Prop) :
  outs_ok max o -> num_headers o = n -> n < max -> b < length s ->
  (forall b' o' h, b <= b' <= length s -> outs_ok max o' -> num_headers o' = n ->
                   headers o' !! n = Some h -> header_name_ok h -> P b' o') ->
  wp (parse_header_name_simple s n b) o P (failed max).
Proof.
  intros Ho Hn Hlt Hb HP. unfold parse_header_name_simple.
  apply wp_bind, wp_deref; [done|]. intros c _. destruct (negb _).
  - apply wp_bind, wp_upd_header with max; [done..|]. intros h o1 Hh Ho1 Hn1 Hh1.
    apply wp_bind, wp_CHECK_EOF; [lia | by split; [right|] |]. intros _.
    apply wp_bind, wp_name_loop; [done | lia | by split |]. intros b' Hb'.
    apply wp_bind, wp_upd_header with max; [done..|]. intros h2 o2 Hh2 Ho2 Hn2 Hh2'.
    destruct (_ =? 0) eqn:E; boolp; [apply wp_fail; split; auto|].
    apply wp_skip_blanks; [lia | lia | split; auto |]. intros b2 Hb2.
    eapply HP; [lia | done | done | exact Hh2' |].
    rewrite Hh1 in Hh2. simplify_eq. unfold header_name_ok. simpl. split; [lia | intros _; lia].
  - apply wp_bind, wp_upd_header with max; [done..|]. intros h o1 Hh Ho1 Hn1 Hh1.
    apply wp_ret. by eapply HP; [lia | | | exact Hh1 |].
Qed.

Lemma outs_ok_push max o h :
  outs_ok max o -> num_headers o < max -> headers o !! num_headers o = Some h ->
  header_ok h -> outs_ok max (set_num_headers (S (num_headers o)) o).
Proof.
  intros [] Hlt Hh Hok. split; simpl; try done.
  rewrite (take_S_r _ _ _ Hh). apply Forall_app. by split; [|constructor].
Qed.

Lemma wp_headers fuel max b o (P : nat -> outs -> Prop) :
  outs_ok max o -> b <= length s -> length s - b < fuel ->
  (forall b' o', b < b' <= length s -> outs_ok max o' -> P b' o') ->
  wp (headers_simple s fuel max b) o P (failed max).
Proof.
  revert b o. induction fuel as [|fuel IH]; intros b o Ho Hb Hf HP; [lia|].
  cbn [headers_simple].
  apply wp_bind, wp_CHECK_EOF; [done | split; auto |]. intros Hlt.
  apply wp_bind, wp_deref; [done|]. intros c _.
  destruct (c =? CR)%beq; [|destruct (c =? LF)%beq].
  - apply wp_EXPECT; [lia | by split |]. intros H1. apply HP; [lia | done].
  - apply wp_ret, HP; [lia | done].
  - apply wp_bind, wp_gets. destruct (_ =? max) eqn:E; boolp; [apply wp_fail; split; auto|].
    pose proof (ok_num _ _ Ho).
    apply wp_bind, wp_header_name; [done | done | lia | lia |].
    intros b1 o1 h Hb1 Ho1 Hn1 Hh1 Hname.
    apply wp_bind, wp_get_token; [lia | by split |]. intros len b2 Hb2 Hlen.
    apply wp_bind, wp_upd_header with max; [done | done | lia |].
    intros h2 o2 Hh2 Ho2 Hn2 Hh2'. apply wp_bind, wp_modify. rewrite <- Hn2.
    apply IH; [| lia | lia | intros b3 o3 Hb3; apply HP; lia].
    rewrite Hh1 in Hh2. simplify_eq. rewrite <- Hn2 in Hh2'.
    eapply outs_ok_push; [done | lia | exact Hh2' |].
    split; [done|]. simpl. split; [done | simpl; lia].
Qed.

(** Setters that the invariant does not constrain. *)
Lemma outs_ok_minor max z o : outs_ok max o -> outs_ok max (set_minor_version z o).
Proof. by intros []. Qed.

Lemma outs_ok_status max z o : outs_ok max o -> outs_ok max (set_status z o).
Proof. by intros []. Qed.

Lemma outs_ok_msg max i n o :
  outs_ok max o -> i + n <= length s -> outs_ok max (set_msg (Some i) n o).
Proof. by intros []. Qed.

Lemma outs_ok_method max i n o :
  outs_ok max o -> i + n <= length s -> outs_ok max (set_method (Some i) n o).
Proof. by intros []. Qed.

Lemma outs_ok_path max i n o :
  outs_ok max o -> i + n <= length s -> outs_ok max (set_path (Some i) n o).
Proof. by intros []. Qed.

#[local] Hint Resolve outs_ok_minor outs_ok_status : coio.

Lemma failed1 max o : outs_ok max o -> failed max (-1) o.
Proof. by split; [left|]. Qed.

Lemma failed2 max o : outs_ok max o -> failed max (-2) o.
Proof. by split; [right|]. Qed.

#[local] Hint Resolve failed1 failed2 : coio.

Lemma wp_http_version b o max (P : nat -> outs -> Prop) :
  outs_ok max o ->
  (forall o', outs_ok max o' -> b + 8 < length s -> P (b + 8) o') ->
  wp (parse_http_version s b) o P (failed max).
Proof.
  intros Ho HP. unfold parse_http_version.
  destruct (_ <? 9) eqn:E; boolp; [apply wp_fail; auto with coio|].
  do 7 (apply wp_bind, wp_EXPECT_NC; [lia | auto with coio |]).
  apply wp_bind, wp_PARSE_INT; [lia | auto with coio |]. intros v.
  apply wp_bind, wp_modify, wp_ret. replace (S _) with (b + 8) by lia.
  apply HP; [auto with coio | lia].
Qed.

Lemma wp_PARSE_INT_3 b o max (P : nat -> outs -> Prop) :
  outs_ok max o -> b + 3 <= length s ->
  (forall o', outs_ok max o' -> P (b + 3) o') ->
  wp (PARSE_INT_3 s b) o P (failed max).
Proof.
  intros Ho Hb HP. unfold PARSE_INT_3.
  apply wp_bind, wp_PARSE_INT; [lia | auto with coio |]. intros v1.
  apply wp_bind, wp_modify.
  apply wp_bind, wp_PARSE_INT; [lia | auto with coio |]. intros v2.
  apply wp_bind, wp_modify.
  apply wp_bind, wp_PARSE_INT; [lia | auto with coio |]. intros v3.
  apply wp_bind, wp_modify, wp_ret. replace (S _) with (b + 3) by lia.
  apply HP. auto with coio.
Qed.

Lemma wp_parse_response b o max (P : nat -> outs -> Prop) :
  outs_ok max o ->
  (forall b' o', b < b' <= length s -> outs_ok max o' -> P b' o') ->
  wp (parse_response_simple s b max) o P (failed max).
Proof.
  intros Ho HP. unfold parse_response_simple.
  apply wp_bind, wp_http_version; [done|]. intros o1 Ho1 Hb.
  apply wp_bind, wp_EXPECT_NC; [lia | auto with coio |].
  destruct (_ <? 4) eqn:E; boolp; [apply wp_fail; auto with coio|].
  apply wp_bind, wp_PARSE_INT_3; [done | lia |]. intros o2 Ho2.
  apply wp_bind, wp_EXPECT_NC; [lia | auto with coio |].
  apply wp_bind, wp_get_token; [lia | by split |]. intros len b2 Hb2 Hlen.
  apply wp_bind, wp_modify.
  apply wp_headers; [apply outs_ok_msg; [done | lia] | lia | lia |].
  intros b3 o3 Hb3 Ho3. apply HP; [lia | done].
Qed.

Lemma wp_ADVANCE_TOKEN b o max (P : nat * nat * nat -> outs -> Prop) :
  outs_ok max o -> b <= length s ->
  (forall len, b + len < length s -> P (b, len, b + len) o) ->
  wp (ADVANCE_TOKEN_simple s b) o P (failed max).
Proof.
  intros Ho Hb HP. unfold ADVANCE_TOKEN_simple.
  apply wp_bind, wp_CHECK_EOF; [done | auto with coio |]. intros Hlt.
  apply wp_bind, wp_token_loop; [done | lia | by split |]. intros b' Hb'.
  apply wp_ret. replace b' with (b + (b' - b)) at 2 by lia. apply HP. lia.
Qed.

Lemma wp_skip_empty_line b o max (P : nat -> outs -> Prop) :
  outs_ok max o -> b <= length s -> (forall b', b <= b' <= length s -> P b' o) ->
  wp (skip_empty_line s b) o P (failed max).
Proof.
  intros Ho Hb HP. unfold skip_empty_line.
  apply wp_bind, wp_CHECK_EOF; [done | auto with coio |]. intros Hlt.
  apply wp_bind, wp_deref; [done|]. intros c _.
  destruct (c =? CR)%beq; [|destruct (c =? LF)%beq; apply wp_ret, HP; lia].
  apply wp_EXPECT; [lia | by split |]. intros H. apply HP. lia.
Qed.

Lemma wp_parse_request b o max (P : nat -> outs -> Prop) :
  outs_ok max o -> b <= length s ->
  (forall b' o', b < b' <= length s -> outs_ok max o' -> P b' o') ->
  wp (parse_request_simple s b max) o P (failed max).
Proof.
  intros Ho Hb HP. unfold parse_request_simple.
  apply wp_bind, wp_skip_empty_line; [done | done |]. intros b1 Hb1.
  apply wp_bind, wp_ADVANCE_TOKEN; [done | lia |]. intros l1 Hl1.
  apply wp_bind, wp_modify.
  assert (Ho1 := outs_ok_method max b1 l1 o Ho ltac:(lia)).
  apply wp_bind, wp_ADVANCE_TOKEN; [done | lia |]. intros l2 Hl2.
  apply wp_bind, wp_modify.
  assert (Ho2 := outs_ok_path max _ l2 _ Ho1 (Nat.lt_le_incl _ _ Hl2)).
  apply wp_bind, wp_http_version; [done|]. intros o3 Ho3 Hb3.
  apply wp_bind, wp_deref; [lia|]. intros c _. apply wp_bind.
  assert (Hk : forall b4, b < b4 <= length s ->
    wp (headers_simple s (S (length s - b4)) max b4) o3 P (failed max)).
  { intros b4 Hb4. apply wp_headers; [done | lia | lia |].
    intros b5 o5 Hb5 Ho5. apply HP; [lia | done]. }
  destruct (c =? CR)%beq; [|destruct (c =? LF)%beq].
  - apply wp_EXPECT; [lia | by split |]. intros H. apply Hk. lia.
  - apply wp_ret, Hk. lia.
  - apply wp_fail. auto with coio.
Qed.

Lemma wp_check_complete last_len o max (P : unit -> outs -> Prop) :
  outs_ok max o -> last_len <= length s -> P tt o ->
  wp (check_complete s last_len) o P (failed max).
Proof.
  intros Ho Hl HP. unfold check_complete. destruct (_ =? 0); [done|].
  apply wp_bind. unfold is_complete.
  destruct (last_len <? 3) eqn:E; boolp;
    (apply wp_is_complete_loop; [lia | lia | by split | intros b' _; by apply wp_ret]).
Qed.
End safety.

(** The result of an entry point: an error code, or the number of bytes consumed
    converted to [int], which is that number when the buffer is no longer than
    [INT_MAX]; with outputs that stay inside the buffer. *)
Definition entry_result (s : list byte) (from max : nat) (r : Z) (o : outs) : Prop :=
  ((r = -1)%Z \/ (r = -2)%Z \/
   exists b, from < b <= length s /\ r = wraps 32 (Z.of_nat b - Z.of_nat from) /\
     ((Z.of_nat (length s) <= INT_MAX)%Z -> (r = Z.of_nat b - Z.of_nat from)%Z)) /\
  outs_ok s max o.

Lemma consumed_result s from max b o :
  from < b <= length s -> outs_ok s max o -> entry_result s from max (wraps 32 (Z.of_nat b - Z.of_nat from)) o.
Proof.
  intros Hb Ho. split; [|done]. right. right. exists b. split_and!; [lia | lia | done |]. intros L.
  apply wraps_small; unfold INT_MAX in *; lia.
Qed.

(** Running an entry point whose body fails only with an error code. *)
Lemma run_returning s from max (m : M Z) o :
  wp m o (entry_result s from max) (failed s max) ->
  exists r o', returning m o = (Done r, o') /\ entry_result s from max r o'.
Proof.
  unfold wp, returning. destruct (m o) as [[a|r| |] o']; [by eauto | | done | done].
  intros [H1 H2]. eexists _, _. split; [done|]. split; [|done].
  destruct H1; [by left | by right; left].
Qed.

Lemma outs_ok_reset s o max :
  max <= length (headers o) ->
  span_ok s (msg o) (msg_len o) -> span_ok s (method o) (method_len o) ->
  span_ok s (path o) (path_len o) -> outs_ok s max (set_num_headers 0 o).
Proof. intros. split; simpl; first [done | lia | constructor]. Qed.

Section entries.
Context (sse : bool) (cpu : sse_unit).
(** Nothing is asked of the unit in the portable build. *)
Hypothesis Hcpu : sse = true -> cpu_spec cpu.

(** The body of an entry point does not depend on the unit in the portable
    build. *)
Lemma bodies_simple s b max :
  parse_response sse cpu s b max ≡m parse_response_simple s b max /\
  parse_request sse cpu s b max ≡m parse_request_simple s b max /\
  parse_headers sse cpu s b max ≡m headers_simple s (S (length s - b)) max b.
Proof.
  destruct sse.
  - specialize (Hcpu eq_refl).
    split_and!; [by apply parse_response_eq | by apply parse_request_eq | by apply parse_headers_eq].
  - split_and!; [apply (parse_response_eq false intrinsics) | apply (parse_request_eq false intrinsics)
      | apply (parse_headers_eq false intrinsics)]; apply intrinsics_spec.
Qed.

(** C3: [phr_parse_response] is memory safe and total: for every buffer, every
    [last_len] up to its length and every array of at least [*num_headers]
    elements it reads and writes in bounds, terminates, and returns -1, -2 or the
    length of the parsed head, converted to [int] (the length itself when the
    buffer is no longer than [INT_MAX]); message and headers point into the buffer,
    and no more headers are written than were allowed.  So it is of the portable
    build without further assumptions; the SSE4.2 build loads 16 bytes from range
    tables that are shorter, and the theorem holds of it where what is behind them
    can be read. *)
Theorem phr_parse_response_safe s last_len o :
  num_headers o <= length (headers o) -> last_len <= length s ->
  span_ok s (method o) (method_len o) -> span_ok s (path o) (path_len o) ->
  exists r o', phr_parse_response sse cpu s last_len o = (Done r, o') /\
               entry_result s 0 (num_headers o) r o'.
Proof.
  intros Hcap Hl Hm Hp. apply run_returning.
  apply wp_bind, wp_check_complete; [by apply outs_ok_reset | done |].
  apply wp_bind. apply (wp_meq _ _ _ _ _ (proj1 (bodies_simple s _ _))).
  apply wp_parse_response; [by apply outs_ok_reset|]. intros b o' Hb Ho'.
  apply wp_ret. rewrite <- (Z.sub_0_r (Z.of_nat b)). by apply (consumed_result s 0).
Qed.

(** [phr_parse_request] is memory safe and total under the same
    conditions; it parses from [last_len] on, and a positive result counts the
    bytes consumed from there. *)
Theorem phr_parse_request_safe s last_len o :
  num_headers o <= length (headers o) -> last_len <= length s ->
  span_ok s (msg o) (msg_len o) ->
  exists r o', phr_parse_request sse cpu s last_len o = (Done r, o') /\
               entry_result s last_len (num_headers o) r o'.
Proof.
  intros Hcap Hl Hm. apply run_returning.
  apply wp_bind, wp_check_complete; [by apply outs_ok_reset | done |].
  apply wp_bind. apply (wp_meq _ _ _ _ _ (proj1 (proj2 (bodies_simple s _ _)))).
  apply wp_parse_request; [by apply outs_ok_reset | done |]. intros b o' Hb Ho'.
  apply wp_ret. by apply consumed_result.
Qed.

(** [phr_parse_headers] is memory safe and total likewise. *)
Theorem phr_parse_headers_safe s last_len o :
  num_headers o <= length (headers o) -> last_len <= length s ->
  span_ok s (msg o) (msg_len o) -> span_ok s (method o) (method_len o) ->
  span_ok s (path o) (path_len o) ->
  exists r o', phr_parse_headers sse cpu s last_len o = (Done r, o') /\
               entry_result s 0 (num_headers o) r o'.
Proof.
  intros Hcap Hl Hmsg Hm Hp. apply run_returning.
  apply wp_bind, wp_check_complete; [by apply outs_ok_reset | done |].
  apply wp_bind. apply (wp_meq _ _ _ _ _ (proj2 (proj2 (bodies_simple s _ _)))).
  apply wp_headers; [by apply outs_ok_reset | lia | lia |]. intros b o' Hb Ho'.
  apply wp_ret. rewrite <- (Z.sub_0_r (Z.of_nat b)). by apply (consumed_result s 0).
Qed.
End entries.

(** In the SSE4.2 build the load of a range table leaves its array: where nothing
    can be read behind it, parsing a response of 16 bytes or more after the status
    does not come to an end. *)
Theorem sse_reads_past_tables :
  (phr_parse_response true (mk_sse_unit (fun ranges n b => first_in_ranges (take n ranges) b) (fun _ => []))
     test_head 0 (outs_init 100)).1 = Oob /\
  length ranges_token < 15 /\ length ranges_eol < 15.
Proof. split_and!; [vm_compute; done | simpl; lia | simpl; lia]. Qed.

Lemma phr_parse_response_safe_witness :
  exists r o', phr_parse_response true intrinsics test_head 7 (outs_init 100) = (Done r, o') /\
               entry_result test_head 0 100 r o'.
Proof.
  exact (phr_parse_response_safe true intrinsics (fun _ => intrinsics_spec) test_head 7
           (outs_init 100) (le_n 100) ltac:(vm_compute; lia) eq_refl eq_refl).
Defined.

Lemma phr_parse_request_safe_witness :
  exists r o', phr_parse_request true intrinsics test_head 7 (outs_init 3) = (Done r, o') /\
               entry_result test_head 7 3 r o'.
Proof.
  exact (phr_parse_request_safe true intrinsics (fun _ => intrinsics_spec) test_head 7
           (outs_init 3) (le_n 3) ltac:(vm_compute; lia) eq_refl).
Defined.

Lemma phr_parse_headers_safe_witness :
  exists r o', phr_parse_headers true intrinsics test_head 0 (outs_init 3) = (Done r, o') /\
               entry_result test_head 0 3 r o'.
Proof.
  exact (phr_parse_headers_safe true intrinsics (fun _ => intrinsics_spec) test_head 0
           (outs_init 3) (le_n 3) ltac:(vm_compute; lia) eq_refl eq_refl eq_refl).
Defined.
