(* ===== verification/PicoStream.v ===== *)
(** * Streaming behaviour of [picohttpparser.h]

    The parser is called again with a longer buffer while it answers -2
    ("partial").  This file shows that every other answer is final: more input
    changes neither the returned value nor any output.

    [stable m n o]: [m] is the action on the received bytes, [n] the same action
    on a longer buffer; unless [m] answers -2 they do the same. *)

From S2P Require Import Prelude PicoHttp PicoEquiv PicoSafety.

Definition stable {A} (m n : M A) (o : outs) : Prop :=
  match m o with
  | (Done a, o') => n o = (Done a, o')
  | (Ret r, o') => r = (-2)%Z \/ n o = (Ret r, o')
  | _ => True
  end.

Lemma stable_refl {A} (m : M A) o : stable m m o.
Proof. unfold stable. destruct (m o) as [[a|r| |] o']; auto. Qed.

Lemma stable_meq {A} (m m' n n' : M A) o :
  m ≡m m' -> n ≡m n' -> stable m' n' o -> stable m n o.
Proof. intros H1 H2. unfold stable. by rewrite H1, H2. Qed.

(** Composition; in the second form [R] is what is known of the value. *)
Lemma stable_seq {A B} (m n : M A) (f g : A -> M B) o :
  stable m n o -> (forall a o', m o = (Done a, o') -> stable (f a) (g a) o') ->
  stable (m ≫= f) (n ≫= g) o.
Proof.
  unfold stable, mbind, M_bind. intros Hm Hf.
  destruct (m o) as [[a|r| |] o'] eqn:E; [|destruct Hm as [->|Hm]; [by left|] | done | done].
  - rewrite Hm. by apply Hf.
  - rewrite Hm. by right.
Qed.

Lemma stable_bind {A B} (R : A -> outs -> Prop) (m n : M A) (f g : A -> M B) o :
  wp m o R (fun _ _ => True) -> stable m n o ->
  (forall a o', R a o' -> stable (f a) (g a) o') -> stable (m ≫= f) (n ≫= g) o.
Proof.
  intros HR Hm Hf. apply stable_seq; [done|]. intros a o' E. apply Hf.
  unfold wp in HR. by rewrite E in HR.
Qed.

Lemma wp_forget {A} (m : M A) o P Q : wp m o P Q -> wp m o P (fun _ _ => True).
Proof. intros H. by apply (wp_mono _ _ _ _ _ _ H). Qed.

(** Composition after an action that does not look at the buffer. *)
Lemma stable_bind_same {A B} (m : M A) (f g : A -> M B) o :
  (forall a o', m o = (Done a, o') -> stable (f a) (g a) o') ->
  stable (m ≫= f) (m ≫= g) o.
Proof.
  intros Hf. apply stable_seq; [apply stable_refl | done].
Qed.

Section streaming.
Variables s t : list byte.

Lemma stable_deref {B} b (f g : byte -> M B) o :
  (forall c, b < length s -> s !! b = Some c -> stable (f c) (g c) o) ->
  stable (deref s b ≫= f) (deref (s ++ t) b ≫= g) o.
Proof.
  intros Hf. unfold deref. destruct (s !! b) as [c|] eqn:Hc.
  - rewrite (lookup_app_l_Some _ t _ _ Hc). apply Hf; [by eapply lookup_lt_Some | done].
  - exact I.
Qed.

Lemma stable_CHECK_EOF {B} b (f g : unit -> M B) o :
  b <= length s -> (b < length s -> stable (f tt) (g tt) o) ->
  stable (CHECK_EOF s b ≫= f) (CHECK_EOF (s ++ t) b ≫= g) o.
Proof.
  intros Hb Hf. unfold CHECK_EOF. destruct (b =? length s) eqn:E; boolp.
  - by left.
  - rewrite (proj2 (Nat.eqb_neq _ _)) by (rewrite length_app; lia). apply Hf. lia.
Qed.

Lemma stable_EXPECT_NC ch b o :
  stable (EXPECT_CHAR_NO_CHECK s ch b) (EXPECT_CHAR_NO_CHECK (s ++ t) ch b) o.
Proof. apply stable_deref. intros c _ _. apply stable_refl. Qed.

Lemma stable_EXPECT ch b o :
  b <= length s -> stable (EXPECT_CHAR s ch b) (EXPECT_CHAR (s ++ t) ch b) o.
Proof. intros Hb. apply stable_CHECK_EOF; [done|]. intros _. apply stable_EXPECT_NC. Qed.

Lemma stable_PARSE_INT mul b o :
  stable (PARSE_INT s mul b) (PARSE_INT (s ++ t) mul b) o.
Proof. apply stable_deref. intros c _ _. apply stable_refl. Qed.

(** ** Loops; the longer buffer has the larger bound *)

Lemma stable_eol_loop f1 f2 b o :
  f1 <= f2 -> b <= length s -> stable (eol_loop s f1 b) (eol_loop (s ++ t) f2 b) o.
Proof.
  revert f2 b. induction f1 as [|f1 IH]; intros f2 b Hf Hb; [exact I|].
  destruct f2 as [|f2]; [lia|]. cbn [eol_loop].
  apply stable_CHECK_EOF; [done|]. intros Hlt. apply stable_deref. intros c _ _.
  destruct (negb _); [destruct (is_ctl c); [apply stable_refl|]|]; apply IH; lia.
Qed.

Lemma stable_name_loop f1 f2 b o :
  f1 <= f2 -> b <= length s -> stable (name_loop s f1 b) (name_loop (s ++ t) f2 b) o.
Proof.
  revert f2 b. induction f1 as [|f1 IH]; intros f2 b Hf Hb; [exact I|].
  destruct f2 as [|f2]; [lia|]. cbn [name_loop]. apply stable_deref. intros c Hlt _.
  destruct (c =? ":"%byte)%beq; [apply stable_refl|].
  destruct (negb _); [apply stable_refl|].
  apply stable_CHECK_EOF; [lia|]. intros _. apply IH; lia.
Qed.

Lemma stable_token_loop f1 f2 b o :
  f1 <= f2 -> b <= length s -> stable (token_loop s f1 b) (token_loop (s ++ t) f2 b) o.
Proof.
  revert f2 b. induction f1 as [|f1 IH]; intros f2 b Hf Hb; [exact I|].
  destruct f2 as [|f2]; [lia|]. cbn [token_loop]. apply stable_deref. intros c Hlt _.
  destruct (c =? SP)%beq; [apply stable_refl|].
  destruct (_ && _); [apply stable_refl|].
  apply stable_CHECK_EOF; [lia|]. intros _. apply IH; lia.
Qed.

Lemma stable_skip_blanks f1 f2 b o :
  f1 <= f2 -> b <= length s -> stable (skip_blanks s f1 b) (skip_blanks (s ++ t) f2 b) o.
Proof.
  revert f2 b. induction f1 as [|f1 IH]; intros f2 b Hf Hb; [exact I|].
  destruct f2 as [|f2]; [lia|]. cbn [skip_blanks].
  apply stable_CHECK_EOF; [done|]. intros Hlt. apply stable_deref. intros c _ _.
  destruct (negb _); [apply stable_refl|]. apply IH; lia.
Qed.

Lemma stable_is_complete_loop f1 f2 cnt b o :
  f1 <= f2 -> b <= length s ->
  stable (is_complete_loop s f1 cnt b) (is_complete_loop (s ++ t) f2 cnt b) o.
Proof.
  revert f2 cnt b o. induction f1 as [|f1 IH]; intros f2 cnt b o Hf Hb; [exact I|].
  destruct f2 as [|f2]; [lia|]. cbn [is_complete_loop].
  apply stable_CHECK_EOF; [done|]. intros Hlt. apply stable_deref. intros c _ _.
  apply stable_bind with (R := fun '(b', _) _ => b' <= length s).
  - destruct (c =? CR)%beq; [|destruct (c =? LF)%beq; apply wp_ret; lia].
    apply wp_bind, wp_CHECK_EOF; [lia | done |]. intros H1.
    apply wp_bind, wp_EXPECT; [lia | done |]. intros _. apply wp_ret. lia.
  - destruct (c =? CR)%beq; [|destruct (c =? LF)%beq; apply stable_refl].
    apply stable_CHECK_EOF; [lia|]. intros H1.
    apply stable_seq; [apply stable_EXPECT; lia|]. intros b' o' _. apply stable_refl.
  - intros [b' cnt'] o' Hb'. destruct (cnt' =? 2); [apply stable_refl|]. apply IH; lia.
Qed.

(** ** Components *)

Lemma stable_found_ctl tok b o :
  stable (found_ctl s tok b) (found_ctl (s ++ t) tok b) o.
Proof.
  apply stable_deref. intros c Hlt _. destruct (c =? CR)%beq; [|apply stable_refl].
  apply stable_seq; [apply stable_EXPECT; lia|]. intros b' o' _. apply stable_refl.
Qed.

Lemma fuel_le b : S (length s - b) <= S (length (s ++ t) - b).
Proof. rewrite length_app. lia. Qed.

Lemma stable_get_token b o :
  b <= length s -> stable (get_token_simple s b) (get_token_simple (s ++ t) b) o.
Proof.
  intros Hb. apply stable_seq; [apply stable_eol_loop; [apply fuel_le | done]|].
  intros b' o' _. apply stable_found_ctl.
Qed.

Lemma stable_header_name n b o :
  b < length s ->
  stable (parse_header_name_simple s n b) (parse_header_name_simple (s ++ t) n b) o.
Proof.
  intros Hb. apply stable_deref. intros c _ _. destruct (negb _); [|apply stable_refl].
  apply stable_bind_same. intros _ o1 _. apply stable_CHECK_EOF; [lia|]. intros _.
  apply stable_bind with (R := fun b' _ => b' < length s).
  - apply wp_name_loop; [done | lia | done |]. intros b' Hb'. lia.
  - apply stable_name_loop; [apply fuel_le | lia].
  - intros b' o2 Hb'. apply stable_bind_same. intros _ o3 _.
    destruct (_ =? 0); [apply stable_refl|]. apply stable_skip_blanks; [apply fuel_le | lia].
Qed.

Lemma stable_headers f1 f2 max b o :
  outs_ok s max o -> f1 <= f2 -> b <= length s ->
  stable (headers_simple s f1 max b) (headers_simple (s ++ t) f2 max b) o.
Proof.
  revert f2 b o. induction f1 as [|f1 IH]; intros f2 b o Ho Hf Hb; [exact I|].
  destruct f2 as [|f2]; [lia|]. cbn [headers_simple].
  apply stable_CHECK_EOF; [done|]. intros Hlt. apply stable_deref. intros c _ _.
  destruct (c =? CR)%beq; [apply stable_EXPECT; lia|].
  destruct (c =? LF)%beq; [apply stable_refl|].
  apply stable_bind_same. intros n o1 [= <- <-].
  destruct (_ =? max) eqn:E; boolp; [apply stable_refl|]. pose proof (ok_num _ _ _ Ho).
  apply stable_bind with (R := fun b' o' => b' <= length s /\ outs_ok s max o' /\
    num_headers o' = num_headers o /\
    exists h, headers o' !! num_headers o = Some h /\ header_name_ok s h).
  - eapply wp_forget, wp_header_name; [done | done | lia | done |].
    intros b' o' h H1 H2 H3 H4 H5. simpl. split_and!; [lia | done | done | eauto].
  - by apply stable_header_name.
  - intros b1 o1 (Hb1 & Ho1 & Hn1 & h & Hh & Hname).
    apply stable_bind with (R := fun '(tok, len, b2) o' =>
      o' = o1 /\ b2 <= length s /\ tok + len <= length s).
    + apply wp_get_token; [lia | done |]. intros len b2 H1 H2. split_and!; [done | lia | lia].
    + by apply stable_get_token.
    + intros [[tok len] b2] o2 (-> & Hb2 & Htok).
      apply stable_bind_same. intros [] o2 Hu.
      destruct (upd_header_run s (num_headers o) (with_value (Some tok) len) o1 max)
        as (h' & o2' & Hh' & Hu' & Ho2 & Hn2 & Hh2); [done | done | lia |].
      rewrite Hu' in Hu. simplify_eq. apply stable_bind_same. intros [] o3 [= <-].
      apply IH; [| lia | lia].
      rewrite <- Hn2. eapply outs_ok_push; [done | lia | by rewrite Hn2 |].
      split; [done|]. split; [done | simpl; lia].
Qed.

Lemma stable_http_version b o :
  stable (parse_http_version s b) (parse_http_version (s ++ t) b) o.
Proof.
  unfold parse_http_version. destruct (length s - b <? 9) eqn:E; boolp; [by left|].
  rewrite (proj2 (Nat.ltb_ge _ _)) by (rewrite length_app; lia).
  do 7 (apply stable_seq; [apply stable_EXPECT_NC | intros ? ? _]).
  apply stable_seq; [apply stable_PARSE_INT | intros [v b'] ? _]. apply stable_refl.
Qed.

Lemma stable_PARSE_INT_3 b o : stable (PARSE_INT_3 s b) (PARSE_INT_3 (s ++ t) b) o.
Proof.
  unfold PARSE_INT_3.
  do 2 (apply stable_seq; [apply stable_PARSE_INT | intros [? ?] ? _];
        apply stable_bind_same; intros _ ? _).
  apply stable_seq; [apply stable_PARSE_INT | intros [? ?] ? _]. apply stable_refl.
Qed.

Lemma stable_parse_response b max o :
  outs_ok s max o ->
  stable (parse_response_simple s b max) (parse_response_simple (s ++ t) b max) o.
Proof.
  intros Ho. unfold parse_response_simple.
  apply stable_bind with (R := fun b' o' => outs_ok s max o' /\ b' < length s).
  { eapply wp_forget, wp_http_version; [done|].
    intros o' H1 H2. simpl. split; [done | lia]. }
  { apply stable_http_version. }
  intros b1 o1 [Ho1 Hb1].
  apply stable_bind with (R := fun b' o' => o' = o1).
  { by apply wp_EXPECT_NC. }
  { apply stable_EXPECT_NC. }
  intros b2 o2 ->. destruct (length s - b2 <? 4) eqn:E; boolp; [by left|].
  rewrite (proj2 (Nat.ltb_ge _ _)) by (rewrite length_app; lia).
  apply stable_bind with (R := fun b' o' => b' = b2 + 3 /\ outs_ok s max o').
  { eapply wp_forget, wp_PARSE_INT_3; [done | lia |].
    intros o' H1. by simpl. }
  { apply stable_PARSE_INT_3. }
  intros b3 o3 [-> Ho3].
  apply stable_bind with (R := fun b' o' => o' = o3 /\ b' = b2 + 4).
  { apply wp_EXPECT_NC; [lia | done |]. split; [done | lia]. }
  { apply stable_EXPECT_NC. }
  intros b4 o4 [-> ->].
  apply stable_bind with (R := fun '(tok, len, b') o' =>
    o' = o3 /\ b' <= length s /\ tok + len <= length s).
  { apply wp_get_token; [lia | done |]. intros len b' H1 H2. split_and!; [done | lia | lia]. }
  { apply stable_get_token. lia. }
  intros [[tok len] b5] o5 (-> & Hb5 & Htok). apply stable_bind_same. intros [] o6 [= <-].
  apply stable_headers; [by apply outs_ok_msg | apply fuel_le | done].
Qed.

Lemma stable_ADVANCE_TOKEN b o :
  b <= length s -> stable (ADVANCE_TOKEN_simple s b) (ADVANCE_TOKEN_simple (s ++ t) b) o.
Proof.
  intros Hb. apply stable_CHECK_EOF; [done|]. intros Hlt.
  apply stable_seq; [apply stable_token_loop; [apply fuel_le | done]|].
  intros b' o' _. apply stable_refl.
Qed.

Lemma stable_check_complete last_len o :
  last_len <= length s ->
  stable (check_complete s last_len) (check_complete (s ++ t) last_len) o.
Proof.
  intros Hl. unfold check_complete. destruct (_ =? 0); [apply stable_refl|].
  apply stable_seq; [|intros ? ? _; apply stable_refl].
  apply stable_is_complete_loop; [apply fuel_le | case_if; lia].
Qed.
End streaming.

Lemma stable_returning (m n : M Z) o r o' :
  stable m n o -> returning m o = (Done r, o') -> r <> (-2)%Z -> returning n o = (Done r, o').
Proof.
  unfold stable, returning. destruct (m o) as [[a|q| |] o1]; intros H E Hr; simplify_eq.
  - by rewrite H.
  - destruct H as [-> | ->]; done.
Qed.

Section entries.
Context (sse : bool) (cpu : sse_unit).
Hypothesis Hcmp : cpu_spec cpu.

(** C23: the answer of [phr_parse_response] is final unless it is -2: on the
    buffer extended by any bytes [t] the call returns the same value (success
    or error) and the same outputs. *)
Theorem phr_parse_response_final s t last_len o r o' :
  num_headers o <= length (headers o) -> last_len <= length s ->
  span_ok s (method o) (method_len o) -> span_ok s (path o) (path_len o) ->
  phr_parse_response sse cpu s last_len o = (Done r, o') -> r <> (-2)%Z ->
  phr_parse_response sse cpu (s ++ t) last_len o = (Done r, o').
Proof.
  intros Hcap Hl Hm Hp. apply stable_returning.
  apply stable_bind with (R := fun _ o1 => outs_ok s (num_headers o) o1).
  - eapply wp_forget, wp_check_complete; [by apply outs_ok_reset | done |].
    by apply outs_ok_reset.
  - by apply stable_check_complete.
  - intros _ o1 Ho1. apply stable_seq; [|intros ? ? _; apply stable_refl].
    eapply stable_meq; [by apply parse_response_eq.. |]. by apply stable_parse_response.
Qed.
End entries.

(** A complete response followed by the first byte of a body. *)
Definition complete_head : list byte := test_head ++ [LF].

Lemma phr_parse_response_final_witness :
  exists o', phr_parse_response true intrinsics (complete_head ++ bs "<") 0 (outs_init 6)
             = (Done 165%Z, o').
Proof.
  eexists.
  apply (phr_parse_response_final true intrinsics intrinsics_spec complete_head
           (bs "<") 0 (outs_init 6)).
  - apply le_n.
  - apply Nat.le_0_l.
  - reflexivity.
  - reflexivity.
  - vm_compute. reflexivity.
  - discriminate.
Defined.
