(* ===== verification/PicoRoundtrip.v ===== *)
(** * Functional correctness of the response parser

    [render_response] writes the head of a response the way HTTP/1.x servers
    do; the parser recovers exactly what was written, whatever follows the
    head. *)

From S2P Require Import Prelude PicoHttp PicoEquiv PicoSafety.

(** ** Text of a response head *)

Definition CRLF : list byte := [CR; LF].

Definition header_line (h : list byte * list byte) : list byte :=
  h.1 ++ bs ": " ++ h.2 ++ CRLF.

(** A header line with any blanks after the colon. *)
Definition field_line (f : list byte * (list byte * list byte)) : list byte :=
  f.2.1 ++ ":"%byte :: f.1 ++ f.2.2 ++ CRLF.

Definition render_fields (fs : list (list byte * (list byte * list byte))) : list byte :=
  concat (map field_line fs) ++ CRLF.

Definition render_headers (hs : list (list byte * list byte)) : list byte :=
  concat (map header_line hs) ++ CRLF.

Record response_head := mk_head {
  rh_minor : byte;
  rh_d1 : byte; rh_d2 : byte; rh_d3 : byte;
  rh_msg : list byte;
  rh_headers : list (list byte * list byte)
}.

Definition render_response (h : response_head) : list byte :=
  bs "HTTP/1." ++ [rh_minor h] ++ bs " " ++ [rh_d1 h; rh_d2 h; rh_d3 h] ++ bs " " ++
  rh_msg h ++ CRLF ++ render_headers (rh_headers h).

Definition is_digit (c : byte) : Prop := (48 <= schar c <= 57)%Z.

(** A header the grammar allows: a name of token characters, a value free of
    control characters (tab excepted) that does not start with a blank. *)
Definition header_text_ok (h : list byte * list byte) : Prop :=
  h.1 <> [] /\ Forall (fun c => name_goes_on c = true) h.1 /\
  Forall (fun c => is_ctl c = false) h.2 /\
  head h.2 <> Some SP /\ head h.2 <> Some HT.

Definition is_blank (c : byte) : Prop := c = SP \/ c = HT.

Definition field_ok (f : list byte * (list byte * list byte)) : Prop :=
  Forall is_blank f.1 /\ header_text_ok f.2.

Record head_ok (h : response_head) : Prop := {
  hk_minor : is_digit (rh_minor h);
  hk_d1 : is_digit (rh_d1 h); hk_d2 : is_digit (rh_d2 h); hk_d3 : is_digit (rh_d3 h);
  hk_msg : Forall (fun c => is_ctl c = false) (rh_msg h);
  hk_headers : Forall header_text_ok (rh_headers h)
}.

Definition head_status (h : response_head) : Z :=
  (100 * (schar (rh_d1 h) - 48) + 10 * (schar (rh_d2 h) - 48) + (schar (rh_d3 h) - 48))%Z.

(** What a parsed header denotes. *)
Definition header_view (s : list byte) (h : phr_header) : list byte * list byte :=
  (view s (name h) (name_len h), view s (value h) (value_len h)).

(** ** Positions inside a known text *)

Section at_text.
Variables (pre l post : list byte).
Let s : list byte := pre ++ l ++ post.

Lemma text_inside i c :
  length pre <= i < length pre + length l -> s !! i = Some c -> c ∈ l.
Proof.
  intros Hi Hc. unfold s in Hc. rewrite lookup_app_r in Hc by lia.
  rewrite lookup_app_l in Hc by lia. by eapply list_elem_of_lookup_2.
Qed.

Lemma text_view : view s (Some (length pre)) (length l) = l.
Proof. unfold view, s. by rewrite drop_app_length, take_app_length. Qed.

Lemma text_length : length pre + length l <= length s.
Proof. unfold s. rewrite !length_app. lia. Qed.
End at_text.

Lemma lookup_at (pre : list byte) c post :
  (pre ++ c :: post) !! length pre = Some c.
Proof. by rewrite lookup_app_r, Nat.sub_diag by lia. Qed.

(** ** Running the macros at a position whose byte is known *)

Lemma run_CHECK_EOF {B} s b (f : unit -> M B) o :
  b < length s -> (CHECK_EOF s b ≫= f) o = f tt o.
Proof. intros H. by rewrite CHECK_EOF_lt. Qed.

Lemma run_EXPECT_NC s ch b o : s !! b = Some ch -> EXPECT_CHAR_NO_CHECK s ch b o = (Done (S b), o).
Proof.
  intros H. unfold EXPECT_CHAR_NO_CHECK.
  rewrite (deref_bind _ _ _ _ _ H), byte_eqb_refl. done.
Qed.

Lemma run_EXPECT s ch b o : s !! b = Some ch -> EXPECT_CHAR s ch b o = (Done (S b), o).
Proof.
  intros H. unfold EXPECT_CHAR. rewrite run_CHECK_EOF by (by eapply lookup_lt_Some).
  by apply run_EXPECT_NC.
Qed.

Lemma run_PARSE_INT s mul b c o :
  s !! b = Some c -> is_digit c ->
  PARSE_INT s mul b o = (Done ((mul * (schar c - 48))%Z, S b), o).
Proof.
  intros H Hd. unfold PARSE_INT, is_digit in *. rewrite (deref_bind _ _ _ _ _ H).
  rewrite (proj2 (Z.ltb_ge _ _)), (proj2 (Z.ltb_ge _ _)) by lia. done.
Qed.

Lemma Forall_elem {A} (P : A -> Prop) l x : Forall P l -> x ∈ l -> P x.
Proof. intros H Hx. rewrite Forall_forall in H. by apply H, list_elem_of_In. Qed.

(** ** Tokens and names at a known position *)

Lemma get_token_at pre v rest o :
  Forall (fun c => is_ctl c = false) v ->
  get_token_simple (pre ++ v ++ CRLF ++ rest) (length pre) o
  = (Done (length pre, length v, length pre + length v + 2), o).
Proof.
  intros Hv. set (s := pre ++ v ++ CRLF ++ rest).
  set (b := length pre + length v).
  assert (Hc : s !! b = Some CR).
  { unfold s, b. rewrite app_assoc, <- length_app. apply lookup_at. }
  assert (Hl : s !! S b = Some LF).
  { unfold s, b. replace (S _) with (length (pre ++ v ++ [CR]))
      by (rewrite !length_app; simpl; lia).
    replace (pre ++ v ++ CRLF ++ rest) with ((pre ++ v ++ [CR]) ++ LF :: rest)
      by (rewrite <- !app_assoc; done).
    apply lookup_at. }
  pose proof (lookup_lt_Some _ _ _ Hl) as Hlt.
  unfold get_token_simple.
  rewrite (bind_meq _ _ _ _ (eol_loop_skip s (length pre) b ltac:(lia) ltac:(left; lia)
    (fun i c Hi Hs => Forall_elem _ _ _ Hv (text_inside pre v (CRLF ++ rest) i c Hi Hs)))
    (fun _ => reflexivity _) o).
  rewrite (bind_meq _ _ _ _ (eol_loop_here s b CR Hc eq_refl) (fun _ => reflexivity _) o).
  rewrite ret_bind. unfold found_ctl. rewrite (deref_bind _ _ _ _ _ Hc), byte_eqb_refl.
  rewrite (bind_done _ _ _ _ _ (run_EXPECT _ _ _ o Hl)). unfold mret, M_ret.
  do 3 f_equal; [f_equal|]; unfold b; lia.
Qed.

Lemma name_at pre n rest o :
  Forall (fun c => name_goes_on c = true) n ->
  name_loop (pre ++ n ++ ":"%byte :: rest)
            (S (length (pre ++ n ++ ":"%byte :: rest) - length pre)) (length pre) o
  = (Done (length pre + length n), o).
Proof.
  intros Hn. set (s := pre ++ n ++ ":"%byte :: rest). set (b := length pre + length n).
  assert (Hc : s !! b = Some ":"%byte).
  { unfold s, b. rewrite app_assoc, <- length_app. apply lookup_at. }
  pose proof (lookup_lt_Some _ _ _ Hc) as Hlt.
  assert (E : forall b, b < length s ->
    (_ ← CHECK_EOF s b; name_loop s (S (length s - b)) b) o
    = name_loop s (S (length s - b)) b o) by (intros; by apply run_CHECK_EOF).
  rewrite <- E by lia.
  rewrite (name_scan_skip s (length pre) b ltac:(lia) ltac:(left; lia)).
  2: { intros i c Hi Hs. rewrite (Forall_elem _ _ _ Hn (text_inside pre n _ i c Hi Hs)). done. }
  rewrite E by done. cbn [name_loop]. rewrite (deref_bind _ _ _ _ _ Hc). done.
Qed.

(** The same two facts for a buffer that is equal to such a text. *)
Lemma get_token_in s pre v rest o :
  s = pre ++ v ++ CRLF ++ rest -> Forall (fun c => is_ctl c = false) v ->
  get_token_simple s (length pre) o
  = (Done (length pre, length v, length pre + length v + 2), o).
Proof. intros ->. apply get_token_at. Qed.

Lemma name_in s pre n rest o :
  s = pre ++ n ++ ":"%byte :: rest -> Forall (fun c => name_goes_on c = true) n ->
  name_loop s (S (length s - length pre)) (length pre) o = (Done (length pre + length n), o).
Proof. intros ->. apply name_at. Qed.

Lemma skip_blanks_at bl s pre d rest o :
  s = pre ++ bl ++ d :: rest -> Forall is_blank bl -> d <> SP -> d <> HT ->
  skip_blanks s (S (length s - length pre)) (length pre) o = (Done (length pre + length bl), o).
Proof.
  revert pre. induction bl as [|b bl IH]; intros pre Hs Hb H1 H2.
  - assert (Hd : s !! length pre = Some d) by (rewrite Hs; apply lookup_at).
    cbn [skip_blanks]. rewrite run_CHECK_EOF by (by eapply lookup_lt_Some).
    rewrite (deref_bind _ _ _ _ _ Hd).
    rewrite (proj2 (byte_eqb_neq _ _) H1), (proj2 (byte_eqb_neq _ _) H2).
    unfold mret, M_ret. do 2 f_equal. simpl. lia.
  - inversion Hb as [|? ? B1 B2]; subst x l.
    assert (Hd : s !! length pre = Some b) by (rewrite Hs; apply lookup_at).
    pose proof (lookup_lt_Some _ _ _ Hd) as Hlt.
    replace (length s - length pre) with (S (length s - length (pre ++ [b])))
      by (rewrite length_app; simpl; lia).
    set (k := S (length s - length (pre ++ [b]))).
    cbn [skip_blanks]. rewrite run_CHECK_EOF by done. rewrite (deref_bind _ _ _ _ _ Hd).
    assert (E : negb ((b =? SP)%beq || (b =? HT)%beq) = false) by (by destruct B1 as [-> | ->]).
    rewrite E. replace (S (length pre)) with (length (pre ++ [b])) by (rewrite length_app; simpl; lia).
    unfold k. rewrite (IH (pre ++ [b])); [| by rewrite Hs, <- app_assoc | done..].
    do 2 f_equal. rewrite length_app. simpl. lia.
Qed.

Lemma name_char_plain c :
  name_goes_on c = true -> c <> SP /\ c <> HT /\ c <> CR /\ c <> LF.
Proof.
  intros H. split_and!; intros ->; vm_compute in H; discriminate.
Qed.

(** The first byte of a header line. *)
Lemma field_line_head f : field_ok f ->
  exists c l, field_line f = c :: l /\ name_goes_on c = true.
Proof.
  intros (_ & Hne & Hn & _). destruct f as [bl [[|c n] v]]; [done|]. simpl in *.
  inversion Hn; subst. by eexists _, _.
Qed.

Lemma upd_header_at n f o h :
  headers o !! n = Some h ->
  upd_header n f o = (Done tt, set_headers (<[n := f h]> (headers o)) o).
Proof. unfold upd_header. by intros ->. Qed.

(** What follows the blanks is not a blank. *)
Lemma value_head v rest :
  head v <> Some SP -> head v <> Some HT ->
  exists d t, v ++ CRLF ++ rest = d :: t /\ d <> SP /\ d <> HT.
Proof.
  intros Hsp Hht. destruct v as [|d v]; simpl in *; [by eexists _, _|].
  eexists _, _. split_and!; [done | congruence | congruence].
Qed.

Lemma header_name_at s pre f rest n o h0 :
  s = pre ++ field_line f ++ rest -> field_ok f -> headers o !! n = Some h0 ->
  parse_header_name_simple s n (length pre) o
  = (Done (length pre + length f.2.1 + 1 + length f.1),
     set_headers (<[n := with_name_len (length f.2.1) (with_name (Some (length pre)) h0)]>
                    (headers o)) o).
Proof.
  intros Hs Hok H0. destruct (field_line_head f Hok) as (c & l & Hl & Hc).
  destruct Hok as (Hb & Hne & Hn & Hv & Hsp & Hht). destruct f as [bl [nm v]]. cbn [fst snd] in *.
  destruct (name_char_plain c Hc) as (C1 & C2 & _ & _).
  assert (Hn0 : 0 < length nm) by (destruct nm; simpl; [done | lia]).
  assert (Hfirst : s !! length pre = Some c) by (rewrite Hs, Hl; apply lookup_at).
  pose proof (lookup_lt_Some _ _ _ Hfirst) as Hlt.
  assert (Hs1 : s = pre ++ nm ++ ":"%byte :: (bl ++ v ++ CRLF ++ rest)).
  { rewrite Hs. unfold field_line. cbn [fst snd]. by rewrite <- !app_assoc, <- app_comm_cons, <- !app_assoc. }
  pose proof (lookup_lt_Some _ _ _ H0) as Hn1.
  unfold parse_header_name_simple. rewrite (deref_bind _ _ _ _ _ Hfirst).
  rewrite (proj2 (byte_eqb_neq c SP) C1), (proj2 (byte_eqb_neq c HT) C2). cbn [orb].
  rewrite andb_false_r. cbn [negb].
  rewrite (bind_done _ _ _ _ _ (upd_header_at n _ o h0 H0)). rewrite run_CHECK_EOF by done.
  set (o1 := set_headers _ o).
  rewrite (bind_done _ _ _ _ _ (name_in s pre nm _ o1 Hs1 Hn)).
  rewrite (bind_done _ _ _ _ _ (upd_header_at n _ o1 (with_name (Some (length pre)) h0)
             (list_lookup_insert_eq _ _ _ Hn1))).
  replace (length pre + length nm - length pre) with (length nm) by lia.
  rewrite (proj2 (Nat.eqb_neq _ _)) by lia.
  unfold o1. cbn [headers set_headers]. rewrite list_insert_insert_eq.
  destruct (value_head v rest Hsp Hht) as (d & t & Et & D1 & D2).
  replace (S (length pre + length nm)) with (length (pre ++ nm ++ [":"%byte]))
    by (rewrite !length_app; simpl; lia).
  rewrite (skip_blanks_at bl s _ d t); [| by rewrite Hs1, Et, <- !app_assoc | done..].
  do 2 f_equal. rewrite !length_app. simpl. lia.
Qed.

(** The text before the value of a header line. *)
Definition field_lead (f : list byte * (list byte * list byte)) : list byte :=
  f.2.1 ++ ":"%byte :: f.1.

Lemma field_split pre f rest :
  pre ++ field_line f ++ rest = (pre ++ field_lead f) ++ f.2.2 ++ CRLF ++ rest.
Proof.
  unfold field_line, field_lead. rewrite <- !app_assoc. cbn [app]. by rewrite <- !app_assoc.
Qed.

Lemma length_field_lead pre f :
  length (pre ++ field_lead f) = length pre + length f.2.1 + 1 + length f.1.
Proof. unfold field_lead. rewrite !length_app. simpl. lia. Qed.

Lemma header_value_at s pre f rest o :
  s = pre ++ field_line f ++ rest -> field_ok f ->
  get_token_simple s (length pre + length f.2.1 + 1 + length f.1) o
  = (Done (length pre + length f.2.1 + 1 + length f.1, length f.2.2,
           length pre + length (field_line f)), o).
Proof.
  intros Hs (_ & _ & _ & Hv & _). rewrite <- length_field_lead.
  rewrite (get_token_in s _ f.2.2 rest o); [|by rewrite Hs, field_split | done].
  do 2 f_equal. f_equal. rewrite length_field_lead. unfold field_line.
  rewrite !length_app. simpl. rewrite !length_app. simpl. lia.
Qed.

(** The views of a stored header. *)
Lemma header_view_at s pre f rest h0 :
  s = pre ++ field_line f ++ rest ->
  header_view s (with_value (Some (length pre + length f.2.1 + 1 + length f.1)) (length f.2.2)
                  (with_name_len (length f.2.1) (with_name (Some (length pre)) h0))) = f.2.
Proof.
  intros Hs. unfold header_view.
  cbn [name name_len value value_len with_value with_name_len with_name].
  rewrite <- length_field_lead. rewrite (surjective_pairing f.2) at 3. f_equal.
  - rewrite Hs. unfold field_line. rewrite <- app_assoc. apply text_view.
  - rewrite Hs, field_split. apply text_view.
Qed.

(** ** The header block *)

Lemma map_view_insert s n h o_headers h0 :
  o_headers !! n = Some h0 ->
  map (header_view s) (take (S n) (<[n := h]> o_headers))
  = map (header_view s) (take n o_headers) ++ [header_view s h].
Proof.
  intros H0. pose proof (lookup_lt_Some _ _ _ H0) as Hn.
  rewrite (take_S_r _ _ h) by (by apply list_lookup_insert_eq).
  rewrite take_insert_ge by lia. by rewrite map_app.
Qed.

(** The empty line ends the block. *)
Lemma headers_end s pre rest o fuel max :
  s = pre ++ CRLF ++ rest ->
  headers_simple s (S fuel) max (length pre) o = (Done (length pre + 2), o).
Proof.
  intros Hs. cbn [headers_simple].
  assert (H1 : s !! length pre = Some CR) by (rewrite Hs; apply lookup_at).
  assert (H2 : s !! S (length pre) = Some LF).
  { replace (S (length pre)) with (length (pre ++ [CR])) by (rewrite length_app; simpl; lia).
    replace s with ((pre ++ [CR]) ++ LF :: rest) by (rewrite Hs, <- app_assoc; done).
    apply lookup_at. }
  rewrite run_CHECK_EOF by (by eapply lookup_lt_Some).
  rewrite (deref_bind _ _ _ _ _ H1), byte_eqb_refl, (run_EXPECT _ _ _ _ H2).
  do 2 f_equal. lia.
Qed.

(** One header line: one iteration, one stored header. *)
Definition stored_header (pre : list byte) (f : list byte * (list byte * list byte))
    (h0 : phr_header) : phr_header :=
  with_value (Some (length pre + length f.2.1 + 1 + length f.1)) (length f.2.2)
    (with_name_len (length f.2.1) (with_name (Some (length pre)) h0)).

Lemma headers_step s pre f rest o h0 fuel max :
  s = pre ++ field_line f ++ rest -> field_ok f ->
  num_headers o < max -> headers o !! num_headers o = Some h0 ->
  headers_simple s (S fuel) max (length pre) o
  = headers_simple s fuel max (length (pre ++ field_line f))
      (set_num_headers (S (num_headers o))
        (set_headers (<[num_headers o := stored_header pre f h0]> (headers o)) o)).
Proof.
  intros Hs Hh Hmax H0. cbn [headers_simple].
  destruct (field_line_head f Hh) as (c & l & Hl & Hc).
  destruct (name_char_plain c Hc) as (_ & _ & C3 & C4).
  assert (H1 : s !! length pre = Some c) by (rewrite Hs, Hl; apply lookup_at).
  rewrite run_CHECK_EOF by (by eapply lookup_lt_Some).
  rewrite (deref_bind _ _ _ _ _ H1).
  rewrite (proj2 (byte_eqb_neq _ _) C3), (proj2 (byte_eqb_neq _ _) C4).
  rewrite (bind_done (gets num_headers) _ o (num_headers o) o eq_refl).
  rewrite (proj2 (Nat.eqb_neq _ _)) by lia.
  rewrite (bind_done _ _ _ _ _ (header_name_at s pre f rest _ o h0 Hs Hh H0)).
  rewrite (bind_done _ _ _ _ _ (header_value_at s pre f rest _ Hs Hh)).
  set (hv := with_name_len (length f.2.1) (with_name (Some (length pre)) h0)).
  set (o1 := set_headers _ o). pose proof (lookup_lt_Some _ _ _ H0) as Hn0.
  rewrite (bind_done _ _ _ _ _ (upd_header_at (num_headers o) _ o1 hv
             (list_lookup_insert_eq _ _ _ Hn0))).
  unfold o1. cbn [headers set_headers]. rewrite list_insert_insert_eq.
  rewrite (bind_done (modify _) _ _ tt _ eq_refl), length_app. done.
Qed.

Lemma headers_at fs s pre rest o fuel max :
  s = pre ++ render_fields fs ++ rest -> Forall field_ok fs ->
  num_headers o + length fs <= max -> max <= length (headers o) -> length fs < fuel ->
  exists hs',
    headers_simple s fuel max (length pre) o
    = (Done (length pre + length (render_fields fs)),
       set_num_headers (num_headers o + length fs) (set_headers hs' o)) /\
    length hs' = length (headers o) /\
    map (header_view s) (take (num_headers o + length fs) hs')
    = map (header_view s) (take (num_headers o) (headers o)) ++ map snd fs.
Proof.
  revert pre o fuel. induction fs as [|f fs IH]; intros pre o fuel Hs Hok Hmax Hcap Hf;
    (destruct fuel as [|fuel]; [simpl in Hf; lia|]).
  - exists (headers o). rewrite (headers_end s pre rest) by done.
    rewrite Nat.add_0_r, app_nil_r. split_and!; [|done|done]. by destruct o.
  - inversion Hok as [|? ? Hh Hhs]; subst x l. simpl in Hmax, Hf.
    assert (Hs1 : s = pre ++ field_line f ++ (render_fields fs ++ rest)).
    { rewrite Hs. unfold render_fields. cbn [map concat]. by rewrite <- !app_assoc. }
    destruct (lookup_lt_is_Some_2 (headers o) (num_headers o)) as [h0 H0]; [lia|].
    rewrite (headers_step s pre f _ o h0 fuel max Hs1 Hh ltac:(lia) H0).
    set (o2 := set_num_headers _ _).
    destruct (IH (pre ++ field_line f) o2 fuel) as (hs' & E & L & V);
      [by rewrite Hs1, <- app_assoc | done | simpl; lia | simpl; rewrite length_insert; lia | lia |].
    exists hs'. rewrite E. split_and!.
    + f_equal; [f_equal; unfold render_fields; cbn [map concat]; rewrite !length_app; lia|].
      unfold set_num_headers, set_headers. simpl. f_equal. lia.
    + rewrite L. simpl. by rewrite length_insert.
    + replace (num_headers o + length (f :: fs)) with (num_headers o2 + length fs) by (simpl; lia).
      rewrite V. cbn [num_headers headers o2 set_num_headers set_headers].
      rewrite (map_view_insert s _ _ _ h0 H0).
      unfold stored_header. rewrite (header_view_at s pre f _ h0 Hs1). by rewrite <- app_assoc.
Qed.

(** Headers written with one blank. *)
Definition plain_fields (hs : list (list byte * list byte)) := map (pair [SP]) hs.

Lemma render_plain hs : render_fields (plain_fields hs) = render_headers hs.
Proof. unfold render_fields, plain_fields. by rewrite map_map. Qed.

Lemma map_snd_plain hs : map snd (plain_fields hs) = hs.
Proof. unfold plain_fields. rewrite map_map. apply map_id. Qed.

Lemma plain_fields_ok hs : Forall header_text_ok hs -> Forall field_ok (plain_fields hs).
Proof.
  intros H. unfold plain_fields. apply Forall_map. eapply Forall_impl; [|exact H].
  intros h Hh. split; [|done]. constructor; [by left | constructor].
Qed.

Lemma plain_headers_at hs s pre rest o fuel max :
  s = pre ++ render_headers hs ++ rest -> Forall header_text_ok hs ->
  num_headers o + length hs <= max -> max <= length (headers o) -> length hs < fuel ->
  exists hs',
    headers_simple s fuel max (length pre) o
    = (Done (length pre + length (render_headers hs)),
       set_num_headers (num_headers o + length hs) (set_headers hs' o)) /\
    length hs' = length (headers o) /\
    map (header_view s) (take (num_headers o + length hs) hs')
    = map (header_view s) (take (num_headers o) (headers o)) ++ hs.
Proof.
  rewrite <- render_plain. intros Hs Hok.
  assert (El : length (plain_fields hs) = length hs) by (unfold plain_fields; by rewrite length_map).
  pose proof (headers_at (plain_fields hs) s pre rest o fuel max Hs (plain_fields_ok _ Hok)) as H.
  by rewrite El, map_snd_plain in H.
Qed.

(** ** The status line and the whole head *)

Section status_line.
Variables (m d1 d2 d3 : byte) (rest : list byte).
Hypotheses (Hm : is_digit m) (H1 : is_digit d1) (H2 : is_digit d2) (H3 : is_digit d3).
Let s : list byte :=
  bs "HTTP/1." ++ [m] ++ bs " " ++ [d1; d2; d3] ++ bs " " ++ rest.

Lemma run_http_version o :
  parse_http_version s 0 o = (Done 8, set_minor_version (1 * (schar m - 48)) o).
Proof.
  unfold parse_http_version. change (length s - 0 <? 9) with false. cbv iota.
  rewrite (bind_done _ _ _ _ _ (run_EXPECT_NC s "H"%byte 0 _ eq_refl)).
  rewrite (bind_done _ _ _ _ _ (run_EXPECT_NC s "T"%byte 1 _ eq_refl)).
  rewrite (bind_done _ _ _ _ _ (run_EXPECT_NC s "T"%byte 2 _ eq_refl)).
  rewrite (bind_done _ _ _ _ _ (run_EXPECT_NC s "P"%byte 3 _ eq_refl)).
  rewrite (bind_done _ _ _ _ _ (run_EXPECT_NC s "/"%byte 4 _ eq_refl)).
  rewrite (bind_done _ _ _ _ _ (run_EXPECT_NC s "1"%byte 5 _ eq_refl)).
  rewrite (bind_done _ _ _ _ _ (run_EXPECT_NC s "."%byte 6 _ eq_refl)).
  rewrite (bind_done _ _ _ _ _ (run_PARSE_INT s 1 7 m _ eq_refl Hm)). done.
Qed.

Lemma run_PARSE_INT_3 o :
  PARSE_INT_3 s 9 o
  = (Done 12, set_status (100 * (schar d1 - 48) + 10 * (schar d2 - 48)
                          + 1 * (schar d3 - 48)) o).
Proof.
  unfold PARSE_INT_3.
  rewrite (bind_done _ _ _ _ _ (run_PARSE_INT s 100 9 d1 _ eq_refl H1)).
  rewrite (bind_done (modify _) _ _ tt _ eq_refl).
  rewrite (bind_done _ _ _ _ _ (run_PARSE_INT s 10 10 d2 _ eq_refl H2)).
  rewrite (bind_done (modify _) _ _ tt _ eq_refl).
  rewrite (bind_done _ _ _ _ _ (run_PARSE_INT s 1 11 d3 _ eq_refl H3)). done.
Qed.

Lemma run_status_line o max :
  parse_response_simple s 0 max o
  = ('(tok, toklen, b) ← get_token_simple s 13;
     _ ← modify (set_msg (Some tok) toklen);
     headers_simple s (S (length s - b)) max b)
    (set_status (100 * (schar d1 - 48) + 10 * (schar d2 - 48) + 1 * (schar d3 - 48))
      (set_minor_version (1 * (schar m - 48)) o)).
Proof.
  unfold parse_response_simple.
  rewrite (bind_done _ _ _ _ _ (run_http_version o)).
  rewrite (bind_done _ _ _ _ _ (run_EXPECT_NC s SP 8 _ eq_refl)).
  change (length s - 9 <? 4) with false. cbv iota.
  rewrite (bind_done _ _ _ _ _ (run_PARSE_INT_3 _)).
  rewrite (bind_done _ _ _ _ _ (run_EXPECT_NC s SP 12 _ eq_refl)). done.
Qed.
End status_line.

Lemma count_headers_le hs : length hs <= length (concat (map header_line hs)).
Proof.
  induction hs as [|h hs IH]; [done|]. cbn [map concat]. unfold header_line at 1.
  rewrite !length_app. simpl. lia.
Qed.

(** The simple parser on a rendered head. *)
Lemma parse_rendered h body o0 :
  head_ok h -> length (rh_headers h) <= num_headers o0 <= length (headers o0) ->
  let s := render_response h ++ body in
  exists hs',
    parse_response_simple s 0 (num_headers o0) (set_num_headers 0 o0)
    = (Done (length (render_response h)),
       set_num_headers (length (rh_headers h)) (set_headers hs'
         (set_msg (Some 13) (length (rh_msg h)) (set_status (head_status h)
           (set_minor_version (schar (rh_minor h) - 48) o0))))) /\
    map (header_view s) (take (length (rh_headers h)) hs') = rh_headers h /\
    view s (Some 13) (length (rh_msg h)) = rh_msg h.
Proof.
  destruct h as [m d1 d2 d3 v hs]. intros [Hm H1 H2 H3 Hv Hhs] [Hn Hcap] s.
  cbn [rh_minor rh_d1 rh_d2 rh_d3 rh_msg rh_headers] in *.
  set (pre := bs "HTTP/1." ++ [m] ++ bs " " ++ [d1; d2; d3] ++ bs " ").
  set (pre2 := pre ++ v ++ CRLF).
  assert (Hs : s = bs "HTTP/1." ++ [m] ++ bs " " ++ [d1; d2; d3] ++ bs " " ++
                   (v ++ CRLF ++ render_headers hs ++ body)).
  { unfold s, render_response. cbn [rh_minor rh_d1 rh_d2 rh_d3 rh_msg rh_headers].
    by rewrite <- !app_assoc. }
  assert (Hs1 : s = pre ++ v ++ CRLF ++ (render_headers hs ++ body)) by done.
  assert (Hs2 : s = pre2 ++ render_headers hs ++ body).
  { rewrite Hs1. unfold pre2. by rewrite <- !app_assoc. }
  assert (Hl2 : length pre2 = 13 + length v + 2).
  { unfold pre2. rewrite !length_app. simpl. lia. }
  assert (Hrun := fun o => run_status_line m d1 d2 d3
            (v ++ CRLF ++ render_headers hs ++ body) Hm H1 H2 H3 o (num_headers o0)).
  rewrite <- Hs in Hrun. rewrite Hrun. clear Hrun.
  rewrite (bind_done _ _ _ _ _ (get_token_in s pre v _ _ Hs1 Hv)).
  rewrite (bind_done (modify _) _ _ tt _ eq_refl).
  change (length pre) with 13. rewrite <- Hl2. set (o1 := set_msg _ _ _).
  pose proof (count_headers_le hs) as Hc.
  assert (Hfuel : length hs < S (length s - length pre2)).
  { rewrite Hs2, !length_app. unfold render_headers. rewrite length_app. lia. }
  destruct (plain_headers_at hs s pre2 body o1 (S (length s - length pre2)) (num_headers o0))
    as (hs' & E & L & V); [done | done | done | done | done |].
  exists hs'. rewrite E. split_and!; [| exact V |].
  - unfold o1, head_status, render_response, pre2, pre.
    cbn [rh_minor rh_d1 rh_d2 rh_d3 rh_msg rh_headers].
    f_equal; [f_equal; rewrite !length_app; simpl; lia|].
    unfold set_num_headers, set_headers, set_msg, set_status, set_minor_version. simpl.
    f_equal; lia.
  - rewrite Hs1. apply (text_view pre v).
Qed.

(** Recovery of a rendered head, from any state of the out-parameters. *)
Lemma response_recovered sse cpu h body o :
  cpu_spec cpu -> head_ok h ->
  length (rh_headers h) <= num_headers o <= length (headers o) ->
  (Z.of_nat (length (render_response h)) <= INT_MAX)%Z ->
  exists o',
    phr_parse_response sse cpu (render_response h ++ body) 0 o
    = (Done (Z.of_nat (length (render_response h))), o') /\
    minor_version o' = (schar (rh_minor h) - 48)%Z /\
    status o' = head_status h /\
    view (render_response h ++ body) (msg o') (msg_len o') = rh_msg h /\
    num_headers o' = length (rh_headers h) /\
    map (header_view (render_response h ++ body)) (take (num_headers o') (headers o'))
    = rh_headers h.
Proof.
  intros Hcmp Hh Hn Hmax.
  set (o0 := set_msg None 0 (set_status 0 (set_minor_version (-1) o))).
  destruct (parse_rendered h body o0 Hh Hn) as (hs' & E & V & W).
  exists (set_num_headers (length (rh_headers h)) (set_headers hs'
         (set_msg (Some 13) (length (rh_msg h)) (set_status (head_status h)
           (set_minor_version (schar (rh_minor h) - 48) o0))))).
  split_and!.
  - unfold phr_parse_response. rewrite (bind_done (gets _) _ _ _ _ eq_refl).
    rewrite (bind_done (modify _) _ _ _ _ eq_refl). change (num_headers o) with (num_headers o0).
    change (check_complete _ 0) with (mret tt : M unit).
    unfold returning. rewrite ret_bind. fold o0.
    rewrite (bind_meq _ _ _ _ (parse_response_eq sse _ Hcmp _ 0 _) (fun _ => reflexivity _) _).
    rewrite (bind_done _ _ _ _ _ E). rewrite wraps32_small by lia. done.
  - done.
  - done.
  - exact W.
  - done.
  - exact V.
Qed.

(** C1: [phr_parse_response] recovers a response head: on the text of any
    grammatical head, followed by any body, and with room for its headers, it
    returns the length of the head, the version, the status code, the reason
    phrase and the header list in order. *)
Theorem phr_parse_response_render sse cpu h body o :
  cpu_spec cpu -> head_ok h ->
  length (rh_headers h) <= num_headers o <= length (headers o) ->
  (Z.of_nat (length (render_response h)) <= INT_MAX)%Z ->
  exists o',
    phr_parse_response sse cpu (render_response h ++ body) 0 o
    = (Done (Z.of_nat (length (render_response h))), o') /\
    minor_version o' = (schar (rh_minor h) - 48)%Z /\
    status o' = head_status h /\
    view (render_response h ++ body) (msg o') (msg_len o') = rh_msg h /\
    num_headers o' = length (rh_headers h) /\
    map (header_view (render_response h ++ body)) (take (num_headers o') (headers o'))
    = rh_headers h.
Proof. apply response_recovered. Qed.

Definition sample_head : response_head :=
  mk_head "1"%byte "2"%byte "0"%byte "4"%byte (bs "No Content")
    [(bs "Server", bs "coio"); (bs "Content-Length", bs "0"); (bs "X", [])].

Lemma sample_head_ok : head_ok sample_head.
Proof.
  split; try (unfold is_digit; vm_compute; split; discriminate).
  - repeat constructor.
  - repeat constructor; discriminate.
Defined.

Lemma phr_parse_response_render_witness :
  exists o',
    phr_parse_response true intrinsics (render_response sample_head ++ bs "body") 0 (outs_init 5)
    = (Done (Z.of_nat (length (render_response sample_head))), o') /\
    minor_version o' = (schar "1"%byte - 48)%Z /\
    status o' = head_status sample_head /\
    view (render_response sample_head ++ bs "body") (msg o') (msg_len o') = bs "No Content" /\
    num_headers o' = 3 /\
    map (header_view (render_response sample_head ++ bs "body"))
        (take (num_headers o') (headers o')) = rh_headers sample_head.
Proof.
  apply (phr_parse_response_render true intrinsics sample_head (bs "body") (outs_init 5)).
  - exact intrinsics_spec.
  - exact sample_head_ok.
  - simpl. lia.
  - vm_compute. discriminate.
Defined.
