(* ===== verification/PicoRequest.v ===== *)
(** * Functional correctness of the request parser

    [render_request] writes the head of a request; [phr_parse_request] recovers
    method, target, version and headers from it, whatever follows the head.
    Header lines may have any blanks, or none, after the colon. *)

From S2P Require Import Prelude PicoHttp PicoEquiv PicoSafety PicoRoundtrip.

Record request_head := mk_request {
  qh_method : list byte;
  qh_target : list byte;
  qh_minor : byte;
  qh_fields : list (list byte * (list byte * list byte))
}.

Definition render_request (q : request_head) : list byte :=
  qh_method q ++ bs " " ++ qh_target q ++ bs " HTTP/1." ++ [qh_minor q] ++ CRLF ++
  render_fields (qh_fields q).

Record request_head_ok (q : request_head) : Prop := {
  qk_method : Forall (fun c => token_goes_on c = true) (qh_method q);
  qk_target : Forall (fun c => token_goes_on c = true) (qh_target q);
  qk_minor : is_digit (qh_minor q);
  qk_fields : Forall field_ok (qh_fields q)
}.

(** ** Tokens *)

Lemma token_char_plain c : token_goes_on c = true -> c <> SP /\ c <> CR /\ c <> LF.
Proof. intros H. split_and!; intros ->; vm_compute in H; discriminate. Qed.

(** A token up to the blank that ends it. *)
Lemma advance_token_in s pre t rest o :
  s = pre ++ t ++ SP :: rest -> Forall (fun c => token_goes_on c = true) t ->
  ADVANCE_TOKEN_simple s (length pre) o = (Done (length pre, length t, length pre + length t), o).
Proof.
  intros -> Ht. set (s := pre ++ t ++ SP :: rest). set (b := length pre + length t).
  assert (Hc : s !! b = Some SP).
  { unfold s, b. rewrite app_assoc, <- length_app. apply lookup_at. }
  pose proof (lookup_lt_Some _ _ _ Hc) as Hlt.
  assert (E : forall b o, b < length s ->
    (_ ← CHECK_EOF s b; token_loop s (S (length s - b)) b) o
    = token_loop s (S (length s - b)) b o) by (intros; by apply run_CHECK_EOF).
  assert (T : token_loop s (S (length s - length pre)) (length pre) o = (Done b, o)).
  { rewrite <- E by (unfold b in *; lia).
    rewrite (token_scan_skip s (length pre) b ltac:(unfold b; lia) ltac:(left; lia)).
    - rewrite E by done. cbn [token_loop]. rewrite (deref_bind _ _ _ _ _ Hc). done.
    - intros i c Hi Hs. by rewrite (Forall_elem _ _ _ Ht (text_inside pre t _ i c Hi Hs)). }
  unfold ADVANCE_TOKEN_simple. rewrite run_CHECK_EOF by (unfold b in *; lia).
  rewrite (bind_done _ _ _ _ _ T). unfold mret, M_ret. do 3 f_equal. f_equal. unfold b. lia.
Qed.

(** ** The version *)

Lemma lookup_mid (pre l rest : list byte) k c :
  l !! k = Some c -> (pre ++ l ++ rest) !! (k + length pre) = Some c.
Proof.
  intros H. rewrite lookup_app_r by lia. replace (k + length pre - length pre) with k by lia.
  rewrite lookup_app_l; [done | by eapply lookup_lt_Some].
Qed.

Lemma http_version_in s pre m rest o :
  s = pre ++ (bs "HTTP/1." ++ [m]) ++ CRLF ++ rest -> is_digit m ->
  parse_http_version s (length pre) o
  = (Done (8 + length pre), set_minor_version (schar m - 48) o).
Proof.
  intros -> Hm. set (s := pre ++ _). unfold parse_http_version.
  assert (L : forall k c, (bs "HTTP/1." ++ [m]) !! k = Some c -> s !! (k + length pre) = Some c)
    by (intros k c H; by apply lookup_mid).
  rewrite (proj2 (Nat.ltb_ge _ _)) by (unfold s; rewrite !length_app; simpl; lia).
  rewrite (bind_done _ _ _ _ _ (run_EXPECT_NC s "H"%byte _ _ (L 0 _ eq_refl))).
  rewrite (bind_done _ _ _ _ _ (run_EXPECT_NC s "T"%byte _ _ (L 1 _ eq_refl))).
  rewrite (bind_done _ _ _ _ _ (run_EXPECT_NC s "T"%byte _ _ (L 2 _ eq_refl))).
  rewrite (bind_done _ _ _ _ _ (run_EXPECT_NC s "P"%byte _ _ (L 3 _ eq_refl))).
  rewrite (bind_done _ _ _ _ _ (run_EXPECT_NC s "/"%byte _ _ (L 4 _ eq_refl))).
  rewrite (bind_done _ _ _ _ _ (run_EXPECT_NC s "1"%byte _ _ (L 5 _ eq_refl))).
  rewrite (bind_done _ _ _ _ _ (run_EXPECT_NC s "."%byte _ _ (L 6 _ eq_refl))).
  rewrite (bind_done _ _ _ _ _ (run_PARSE_INT s 1 _ m _ (L 7 _ eq_refl) Hm)).
  rewrite (bind_done (modify _) _ _ tt _ eq_refl). unfold mret, M_ret. do 2 f_equal.
  destruct (schar m - 48)%Z; done.
Qed.

(** ** The request line and the whole head *)

Lemma count_fields_le fs : length fs <= length (concat (map field_line fs)).
Proof.
  induction fs as [|f fs IH]; [done|]. cbn [map concat]. unfold field_line at 1.
  rewrite !length_app. simpl. lia.
Qed.

Lemma skip_empty_line_plain s c o :
  s !! 0 = Some c -> c <> CR -> c <> LF -> skip_empty_line s 0 o = (Done 0, o).
Proof.
  intros H H1 H2. unfold skip_empty_line. rewrite run_CHECK_EOF by (by eapply lookup_lt_Some).
  rewrite (deref_bind _ _ _ _ _ H), (proj2 (byte_eqb_neq _ _) H1), (proj2 (byte_eqb_neq _ _) H2). done.
Qed.

(** The first byte of a request is not the start of an empty line. *)
Lemma request_first q rest :
  request_head_ok q -> exists c, (render_request q ++ rest) !! 0 = Some c /\ c <> CR /\ c <> LF.
Proof.
  intros [Hm _ _ _]. unfold render_request. destruct (qh_method q) as [|c m]; [by exists SP|].
  inversion Hm; subst. exists c. split; [done|]. by apply token_char_plain.
Qed.

(** What the parser leaves in the out-parameters. *)
Definition request_outs (q : request_head) (hs' : list phr_header) (o : outs) : outs :=
  set_num_headers (length (qh_fields q)) (set_headers hs'
    (set_minor_version (schar (qh_minor q) - 48)
      (set_path (Some (S (length (qh_method q)))) (length (qh_target q))
        (set_method (Some 0) (length (qh_method q)) o)))).

Lemma parse_rendered_request q rest o0 :
  request_head_ok q -> length (qh_fields q) <= num_headers o0 <= length (headers o0) ->
  let s := render_request q ++ rest in
  exists hs',
    parse_request_simple s 0 (num_headers o0) (set_num_headers 0 o0)
    = (Done (length (render_request q)), request_outs q hs' o0) /\
    map (header_view s) (take (length (qh_fields q)) hs') = map snd (qh_fields q).
Proof.
  intros Hq [Hn Hcap] s. destruct (request_first q rest Hq) as (c & F1 & F2 & F3).
  pose proof Hq as [Hm Ht Hv Hf]. destruct q as [m t v fs]. cbn [qh_method qh_target qh_minor qh_fields] in *.
  set (pre1 := m ++ [SP]). set (pre2 := pre1 ++ t ++ [SP]).
  set (pre3 := pre2 ++ (bs "HTTP/1." ++ [v]) ++ CRLF).
  assert (Hs : s = [] ++ m ++ SP :: (t ++ bs " HTTP/1." ++ [v] ++ CRLF ++ render_fields fs ++ rest)).
  { unfold s, render_request. cbn [qh_method qh_target qh_minor qh_fields]. by rewrite <- !app_assoc. }
  assert (Hs1 : s = pre1 ++ t ++ SP :: (bs "HTTP/1." ++ [v] ++ CRLF ++ render_fields fs ++ rest)).
  { rewrite Hs. unfold pre1. by rewrite <- !app_assoc. }
  assert (Hs2 : s = pre2 ++ (bs "HTTP/1." ++ [v]) ++ CRLF ++ (render_fields fs ++ rest)).
  { rewrite Hs1. unfold pre2. by rewrite <- !app_assoc. }
  assert (Hs3 : s = pre3 ++ render_fields fs ++ rest).
  { rewrite Hs2. unfold pre3. by rewrite <- !app_assoc. }
  unfold parse_request_simple.
  rewrite (bind_done _ _ _ _ _ (skip_empty_line_plain s c _ F1 F2 F3)).
  rewrite (bind_done _ _ _ _ _ (advance_token_in s [] m _ _ Hs Hm)).
  rewrite (bind_done (modify _) _ _ tt _ eq_refl).
  replace (S (length [] + length m)) with (length pre1) by (unfold pre1; rewrite length_app; simpl; lia).
  rewrite (bind_done _ _ _ _ _ (advance_token_in s pre1 t _ _ Hs1 Ht)).
  rewrite (bind_done (modify _) _ _ tt _ eq_refl).
  replace (S (length pre1 + length t)) with (length pre2) by (unfold pre2; rewrite !length_app; simpl; lia).
  rewrite (bind_done _ _ _ _ _ (http_version_in s pre2 v _ _ Hs2 Hv)).
  assert (L : forall k c, ((bs "HTTP/1." ++ [v]) ++ CRLF) !! k = Some c -> s !! (k + length pre2) = Some c).
  { intros k c' H. rewrite Hs2, (app_assoc (bs "HTTP/1." ++ [v])). by apply lookup_mid. }
  rewrite (deref_bind _ _ _ _ _ (L 8 CR eq_refl)), byte_eqb_refl.
  rewrite (bind_done _ _ _ _ _ (run_EXPECT s LF _ _ (L 9 LF eq_refl))).
  assert (Hl3 : S (9 + length pre2) = length pre3) by (unfold pre3; rewrite !length_app; simpl; lia).
  rewrite Hl3. set (o1 := set_minor_version _ _).
  pose proof (count_fields_le fs) as Hc.
  destruct (headers_at fs s pre3 rest o1 (S (length s - length pre3)) (num_headers o0))
    as (hs' & E & Lh & V); [done | done | done | done | |].
  { rewrite Hs3, !length_app. unfold render_fields. rewrite length_app. lia. }
  exists hs'. rewrite E. split; [|exact V]. f_equal; [f_equal|].
  - unfold render_request, pre3, pre2, pre1. cbn [qh_method qh_target qh_minor qh_fields].
    rewrite !length_app. simpl. lia.
  - unfold request_outs, o1. cbn [qh_method qh_target qh_minor qh_fields].
    unfold pre1. rewrite length_app. cbn [length]. rewrite Nat.add_1_r. done.
Qed.

(** Recovery of a rendered head, from any state of the out-parameters. *)
Lemma request_recovered sse cpu q rest o :
  cpu_spec cpu -> request_head_ok q ->
  length (qh_fields q) <= num_headers o <= length (headers o) ->
  (Z.of_nat (length (render_request q)) <= INT_MAX)%Z ->
  let s := render_request q ++ rest in
  exists o',
    phr_parse_request sse cpu s 0 o = (Done (Z.of_nat (length (render_request q))), o') /\
    view s (method o') (method_len o') = qh_method q /\
    view s (path o') (path_len o') = qh_target q /\
    minor_version o' = (schar (qh_minor q) - 48)%Z /\
    num_headers o' = length (qh_fields q) /\
    map (header_view s) (take (num_headers o') (headers o')) = map snd (qh_fields q).
Proof.
  intros Hcmp Hq Hn Hmax s.
  set (o0 := set_minor_version (-1) (set_path None 0 (set_method None 0 o))).
  destruct (parse_rendered_request q rest o0 Hq Hn) as (hs' & E & V).
  exists (request_outs q hs' o0). split_and!; try done.
  - unfold phr_parse_request. rewrite (bind_done (gets _) _ _ _ _ eq_refl).
    rewrite (bind_done (modify _) _ _ _ _ eq_refl). change (num_headers o) with (num_headers o0).
    change (check_complete _ 0) with (mret tt : M unit).
    unfold returning. rewrite ret_bind. fold o0.
    rewrite (bind_meq _ _ _ _ (parse_request_eq sse _ Hcmp _ 0 _) (fun _ => reflexivity _) _).
    rewrite (bind_done _ _ _ _ _ E). rewrite Z.sub_0_r, wraps32_small by lia. done.
  - unfold s, render_request, request_outs. simpl. rewrite <- !app_assoc. apply (text_view []).
  - unfold s, render_request, request_outs. cbn [path path_len set_num_headers set_headers set_minor_version set_path].
    rewrite <- !app_assoc. replace (S (length (qh_method q))) with (length (qh_method q ++ bs " "))
      by (rewrite length_app; simpl; lia).
    rewrite (app_assoc (qh_method q)). apply text_view.
Qed.

(** C27: [phr_parse_request] recovers a request head: on the text of any
    grammatical head, followed by anything, and with room for its headers, it
    returns the length of the head, the method, the target, the version and the
    header list in order. *)
Theorem phr_parse_request_render sse cpu q rest o :
  cpu_spec cpu -> request_head_ok q ->
  length (qh_fields q) <= num_headers o <= length (headers o) ->
  (Z.of_nat (length (render_request q)) <= INT_MAX)%Z ->
  let s := render_request q ++ rest in
  exists o',
    phr_parse_request sse cpu s 0 o = (Done (Z.of_nat (length (render_request q))), o') /\
    view s (method o') (method_len o') = qh_method q /\
    view s (path o') (path_len o') = qh_target q /\
    minor_version o' = (schar (qh_minor q) - 48)%Z /\
    num_headers o' = length (qh_fields q) /\
    map (header_view s) (take (num_headers o') (headers o')) = map snd (qh_fields q).
Proof. apply request_recovered. Qed.

Definition sample_req : request_head :=
  mk_request (bs "POST") (bs "/a/b?x=1") "0"%byte
    [([], (bs "Host", bs "example.org")); ([SP; HT], (bs "Accept", bs "*/*"))].

Lemma sample_req_ok : request_head_ok sample_req.
Proof.
  split.
  - repeat constructor.
  - repeat constructor.
  - unfold is_digit; vm_compute; split; discriminate.
  - repeat apply Forall_cons_2; [| |constructor].
    + split; [constructor|]. split_and!; try discriminate; repeat constructor.
    + split; [repeat apply Forall_cons_2; [by left | by right | constructor]|].
      split_and!; try discriminate; repeat constructor.
Defined.

Lemma phr_parse_request_render_witness :
  exists o',
    phr_parse_request true intrinsics (render_request sample_req ++ bs "body") 0 (outs_init 4)
    = (Done (Z.of_nat (length (render_request sample_req))), o') /\
    view (render_request sample_req ++ bs "body") (path o') (path_len o') = bs "/a/b?x=1".
Proof.
  destruct (phr_parse_request_render true intrinsics sample_req (bs "body") (outs_init 4))
    as (o' & H1 & H2 & H3 & _).
  - exact intrinsics_spec.
  - exact sample_req_ok.
  - simpl. lia.
  - vm_compute. discriminate.
  - exists o'. split; [exact H1 | exact H3].
Defined.
