(* ===== verification/Chunked.v ===== *)
(** * [include/http/picohttpparser.h]: the chunked transfer decoder

    [phr_decode_chunked] rewrites a buffer in place: [src] reads the encoded
    text, [dst] writes the decoded data over it, and the decoder's fields carry
    the state from one call to the next.  The cases of the [switch] are
    definitions of their own that fall through to each other as in the source.

    [feed] is the specification: a machine that reads one byte at a time,
    with unbounded integers, no buffer and no call boundaries.  The decoder
    implements it ([phr_decode_chunked_refines]); splitting the input over
    calls and decoding encoded text follow from the machine alone. *)

From S2P Require Import Prelude.

(** ** Data *)

Inductive chunked_state :=
| CHUNKED_IN_CHUNK_SIZE
| CHUNKED_IN_CHUNK_EXT
| CHUNKED_IN_CHUNK_DATA
| CHUNKED_IN_CHUNK_CRLF
| CHUNKED_IN_TRAILERS_LINE_HEAD
| CHUNKED_IN_TRAILERS_LINE_MIDDLE.

#[export] Instance chunked_state_eq_dec : EqDecision chunked_state.
Proof. solve_decision. Defined.

Record phr_chunked_decoder := mk_decoder {
  bytes_left_in_chunk : Z;
  consume_trailer : bool;
  _hex_count : Z;
  _state : chunked_state
}.

(** A zero-filled decoder. *)
Definition decoder_zero (trailer : bool) : phr_chunked_decoder :=
  mk_decoder 0 trailer 0 CHUNKED_IN_CHUNK_SIZE.

Definition set_bytes_left (n : Z) (d : phr_chunked_decoder) : phr_chunked_decoder :=
  mk_decoder n (consume_trailer d) (_hex_count d) (_state d).
Definition set_hex_count (n : Z) (d : phr_chunked_decoder) : phr_chunked_decoder :=
  mk_decoder (bytes_left_in_chunk d) (consume_trailer d) n (_state d).
Definition set_state (q : chunked_state) (d : phr_chunked_decoder) : phr_chunked_decoder :=
  mk_decoder (bytes_left_in_chunk d) (consume_trailer d) (_hex_count d) q.

(** The local variables of one call, the decoder included. *)
Record cursor := mk_cursor {
  dec : phr_chunked_decoder;
  buf : list byte;
  dst : nat;
  src : nat
}.

Definition on_dec (f : phr_chunked_decoder -> phr_chunked_decoder) (x : cursor) : cursor :=
  mk_cursor (f (dec x)) (buf x) (dst x) (src x).
Definition next_src (x : cursor) : cursor :=
  mk_cursor (dec x) (buf x) (dst x) (S (src x)).

(** Where control goes at the end of a case: into the next case, out of the
    [switch], to [Complete] or to [Exit]; [Oob] is an access outside the
    buffer and [Fuel] an exhausted loop bound. *)
Inductive flow :=
| Fall (x : cursor)
| Break (x : cursor)
| Complete (x : cursor)
| Exit (ret : Z) (x : cursor)
| Oob
| Fuel.

Definition fallthru (r : flow) (k : cursor -> flow) : flow :=
  match r with Fall x => k x | r => r end.

(** ** The decoder *)

Definition decode_hex (ch : Z) : Z :=
  if (48 <=? ch)%Z && (ch <=? 57)%Z then (ch - 48)%Z
  else if (65 <=? ch)%Z && (ch <=? 70)%Z then (ch - 65 + 10)%Z
  else if (97 <=? ch)%Z && (ch <=? 102)%Z then (ch - 97 + 10)%Z
  else (-1)%Z.

(** [memmove(b + d, b + s, n)]; [None] when either range leaves the buffer. *)
Definition memmove (b : list byte) (d s n : nat) : option (list byte) :=
  if (d + n <=? length b)%nat && (s + n <=? length b)%nat
  then Some (take d b ++ take n (drop s b) ++ drop (d + n) b)
  else None.

(** [if (dst != src) memmove(buf + dst, buf + src, n)] *)
Definition move_down (n : nat) (x : cursor) (k : cursor -> flow) : flow :=
  if (dst x =? src x)%nat then k x
  else match memmove (buf x) (dst x) (src x) n with
       | Some b => k (mk_cursor (dec x) b (dst x) (src x))
       | None => Oob
       end.

(** [for (;; ++src) { if (src == bufsz) goto Exit; if (stop(buf[src])) break; }] *)
Fixpoint scan (fuel : nat) (stop : byte -> bool) (x : cursor) : flow :=
  match fuel with
  | O => Fuel
  | S fuel =>
      if (src x =? length (buf x))%nat then Exit (-2) x
      else match buf x !! src x with
           | None => Oob
           | Some c => if stop c then Fall x else scan fuel stop (next_src x)
           end
  end.

Definition bound (x : cursor) : nat := S (length (buf x) - src x).

(** The loop of [CHUNKED_IN_CHUNK_SIZE] *)
Fixpoint size_loop (fuel : nat) (x : cursor) : flow :=
  match fuel with
  | O => Fuel
  | S fuel =>
      if (src x =? length (buf x))%nat then Exit (-2) x
      else match buf x !! src x with
           | None => Oob
           | Some c =>
               let v := decode_hex (schar c) in
               if (v =? -1)%Z then
                 if (_hex_count (dec x) =? 0)%Z then Exit (-1) x else Fall x
               else if (_hex_count (dec x) =? 16)%Z then Exit (-1) x
               else
                 size_loop fuel (next_src (on_dec (fun d =>
                   set_hex_count (wraps 8 (_hex_count d + 1))
                     (set_bytes_left (wrapu 64 (bytes_left_in_chunk d * 16 + v)) d)) x))
           end
  end.

Definition case_size (x : cursor) : flow :=
  fallthru (size_loop (bound x) x) (fun x =>
    Fall (on_dec (fun d => set_state CHUNKED_IN_CHUNK_EXT (set_hex_count 0 d)) x)).

Definition case_ext (x : cursor) : flow :=
  fallthru (scan (bound x) (fun c => (c =? x0a)%beq) x) (fun x =>
    let x := next_src x in
    if (bytes_left_in_chunk (dec x) =? 0)%Z then
      if consume_trailer (dec x) then
        Break (on_dec (set_state CHUNKED_IN_TRAILERS_LINE_HEAD) x)
      else Complete x
    else Fall (on_dec (set_state CHUNKED_IN_CHUNK_DATA) x)).

Definition case_data (x : cursor) : flow :=
  let avail := (length (buf x) - src x)%nat in
  if (Z.of_nat avail <? bytes_left_in_chunk (dec x))%Z then
    move_down avail x (fun x =>
      Exit (-2) (mk_cursor
        (set_bytes_left (bytes_left_in_chunk (dec x) - Z.of_nat avail) (dec x))
        (buf x) (dst x + avail) (src x + avail)))
  else
    let n := Z.to_nat (bytes_left_in_chunk (dec x)) in
    move_down n x (fun x =>
      Fall (mk_cursor (set_state CHUNKED_IN_CHUNK_CRLF (set_bytes_left 0 (dec x)))
        (buf x) (dst x + n) (src x + n))).

Definition case_crlf (x : cursor) : flow :=
  fallthru (scan (bound x) (fun c => negb (c =? x0d)%beq) x) (fun x =>
    match buf x !! src x with
    | None => Oob
    | Some c =>
        if negb (c =? x0a)%beq then Exit (-1) x
        else Break (on_dec (set_state CHUNKED_IN_CHUNK_SIZE) (next_src x))
    end).

Definition case_line_head (x : cursor) : flow :=
  fallthru (scan (bound x) (fun c => negb (c =? x0d)%beq) x) (fun x =>
    match buf x !! src x with
    | None => Oob
    | Some c =>
        if (c =? x0a)%beq then Complete (next_src x)
        else Fall (on_dec (set_state CHUNKED_IN_TRAILERS_LINE_MIDDLE) (next_src x))
    end).

Definition case_line_middle (x : cursor) : flow :=
  fallthru (scan (bound x) (fun c => (c =? x0a)%beq) x) (fun x =>
    Break (on_dec (set_state CHUNKED_IN_TRAILERS_LINE_HEAD) (next_src x))).

(** [switch (decoder->_state)] with its fall-throughs *)
Definition switch (x : cursor) : flow :=
  match _state (dec x) with
  | CHUNKED_IN_CHUNK_SIZE =>
      fallthru (case_size x) (fun x => fallthru (case_ext x) (fun x =>
        fallthru (case_data x) case_crlf))
  | CHUNKED_IN_CHUNK_EXT =>
      fallthru (case_ext x) (fun x => fallthru (case_data x) case_crlf)
  | CHUNKED_IN_CHUNK_DATA => fallthru (case_data x) case_crlf
  | CHUNKED_IN_CHUNK_CRLF => case_crlf x
  | CHUNKED_IN_TRAILERS_LINE_HEAD => fallthru (case_line_head x) case_line_middle
  | CHUNKED_IN_TRAILERS_LINE_MIDDLE => case_line_middle x
  end.

(** What a call leaves: the returned value, the decoder, the buffer and the
    new [*_bufsz]. *)
Inductive decoded :=
| Returned (ret : Z) (d : phr_chunked_decoder) (b : list byte) (bufsz : nat)
| Undefined
| Stuck.

(** The code at [Exit]. *)
Definition finish (ret : Z) (x : cursor) : decoded :=
  match move_down (length (buf x) - src x) x Fall with
  | Fall x => Returned ret (dec x) (buf x) (dst x)
  | _ => Undefined
  end.

(** [while (1)] *)
Fixpoint decode_loop (fuel : nat) (x : cursor) : decoded :=
  match fuel with
  | O => Stuck
  | S fuel =>
      match switch x with
      | Fall x | Break x => decode_loop fuel x
      | Complete x => finish (wraps 64 (Z.of_nat (length (buf x) - src x))) x
      | Exit ret x => finish ret x
      | Oob => Undefined
      | Fuel => Stuck
      end
  end.

Definition phr_decode_chunked (d : phr_chunked_decoder) (b : list byte) : decoded :=
  decode_loop (S (length b)) (mk_cursor d b 0 0).

Definition phr_decode_chunked_is_in_data (d : phr_chunked_decoder) : bool :=
  bool_decide (_state d = CHUNKED_IN_CHUNK_DATA).

(** ** Specification: one byte at a time *)

Inductive verdict :=
| Took (d : phr_chunked_decoder) (out : list byte)
| Finished (d : phr_chunked_decoder)
| Rejected (d : phr_chunked_decoder).

Definition feed_ext (d : phr_chunked_decoder) (c : byte) : verdict :=
  if (c =? x0a)%beq then
    if (bytes_left_in_chunk d =? 0)%Z then
      if consume_trailer d then Took (set_state CHUNKED_IN_TRAILERS_LINE_HEAD d) []
      else Finished d
    else Took (set_state CHUNKED_IN_CHUNK_DATA d) []
  else Took d [].

Definition feed_data (d : phr_chunked_decoder) : phr_chunked_decoder :=
  let d := set_bytes_left (bytes_left_in_chunk d - 1) d in
  if (bytes_left_in_chunk d =? 0)%Z then set_state CHUNKED_IN_CHUNK_CRLF d else d.

Definition feed (d : phr_chunked_decoder) (c : byte) : verdict :=
  match _state d with
  | CHUNKED_IN_CHUNK_SIZE =>
      let v := decode_hex (schar c) in
      if (v =? -1)%Z then
        if (_hex_count d =? 0)%Z then Rejected d
        else feed_ext (set_state CHUNKED_IN_CHUNK_EXT (set_hex_count 0 d)) c
      else if (_hex_count d =? 16)%Z then Rejected d
      else Took (set_hex_count (_hex_count d + 1)
                  (set_bytes_left (bytes_left_in_chunk d * 16 + v) d)) []
  | CHUNKED_IN_CHUNK_EXT => feed_ext d c
  | CHUNKED_IN_CHUNK_DATA => Took (feed_data d) [c]
  | CHUNKED_IN_CHUNK_CRLF =>
      if (c =? x0d)%beq then Took d []
      else if (c =? x0a)%beq then Took (set_state CHUNKED_IN_CHUNK_SIZE d) []
      else Rejected d
  | CHUNKED_IN_TRAILERS_LINE_HEAD =>
      if (c =? x0d)%beq then Took d []
      else if (c =? x0a)%beq then Finished d
      else Took (set_state CHUNKED_IN_TRAILERS_LINE_MIDDLE d) []
  | CHUNKED_IN_TRAILERS_LINE_MIDDLE =>
      if (c =? x0a)%beq then Took (set_state CHUNKED_IN_TRAILERS_LINE_HEAD d) []
      else Took d []
  end.

Inductive ending := More | Done | Bad.

(** The machine on a text: how it ended, its state, the data it put out and
    the input it did not read. *)
Record outcome := mk_outcome {
  oc_end : ending;
  oc_dec : phr_chunked_decoder;
  oc_out : list byte;
  oc_rest : list byte
}.

Definition prepend (o : list byte) (r : outcome) : outcome :=
  mk_outcome (oc_end r) (oc_dec r) (o ++ oc_out r) (oc_rest r).

Fixpoint run (d : phr_chunked_decoder) (l : list byte) : outcome :=
  match l with
  | [] => mk_outcome More d [] []
  | c :: t =>
      match feed d c with
      | Took d o => prepend o (run d t)
      | Finished d => mk_outcome Done d [] t
      | Rejected d => mk_outcome Bad d [] (c :: t)
      end
  end.

(** The value returned for an ending. *)
Definition code_of (e : ending) (rest : list byte) : Z :=
  match e with
  | More => (-2)%Z
  | Done => Z.of_nat (length rest)
  | Bad => (-1)%Z
  end.

(** The states a zero-filled decoder can get into. *)
Definition wf_decoder (d : phr_chunked_decoder) : Prop :=
  (0 <= bytes_left_in_chunk d < 2 ^ 64)%Z /\
  match _state d with
  | CHUNKED_IN_CHUNK_SIZE =>
      (0 <= _hex_count d <= 16)%Z /\ (bytes_left_in_chunk d < 16 ^ _hex_count d)%Z
  | CHUNKED_IN_CHUNK_EXT => _hex_count d = 0%Z
  | CHUNKED_IN_CHUNK_DATA => _hex_count d = 0%Z /\ (0 < bytes_left_in_chunk d)%Z
  | _ => _hex_count d = 0%Z /\ bytes_left_in_chunk d = 0%Z
  end.

(** ** The machine *)

Lemma run_cons d c t :
  run d (c :: t) = match feed d c with
                   | Took d o => prepend o (run d t)
                   | Finished d => mk_outcome Done d [] t
                   | Rejected d => mk_outcome Bad d [] (c :: t)
                   end.
Proof. done. Qed.

Lemma prepend_nil r : prepend [] r = r.
Proof. by destruct r. Qed.

Lemma prepend_app o1 o2 r : prepend o1 (prepend o2 r) = prepend (o1 ++ o2) r.
Proof. unfold prepend. simpl. by rewrite app_assoc. Qed.

(** The machine reads a text and its continuation one after the other. *)
Lemma run_app d l1 l2 :
  run d (l1 ++ l2) =
  match oc_end (run d l1) with
  | More => prepend (oc_out (run d l1)) (run (oc_dec (run d l1)) l2)
  | e => mk_outcome e (oc_dec (run d l1)) (oc_out (run d l1)) (oc_rest (run d l1) ++ l2)
  end.
Proof.
  revert d. induction l1 as [|c l1 IH]; intros d; [simpl; by rewrite prepend_nil|].
  cbn [app]. rewrite !run_cons. destruct (feed d c) as [d' o | d' | d']; [|done|done].
  rewrite IH. cbn [oc_end oc_dec oc_out oc_rest prepend].
  destruct (oc_end (run d' l1)); [apply prepend_app | done | done].
Qed.

Lemma decode_hex_range ch : (-1 <= decode_hex ch <= 15)%Z.
Proof. unfold decode_hex. repeat case_if; lia. Qed.

Lemma decode_hex_digit ch : decode_hex ch <> (-1)%Z -> (0 <= decode_hex ch <= 15)%Z.
Proof. pose proof (decode_hex_range ch). lia. Qed.

Lemma pow16_16 : (16 ^ 16 = 2 ^ 64)%Z.
Proof. reflexivity. Qed.

(** One more digit stays within the bound of the digits read. *)
Lemma hex_step n h v :
  (0 <= h < 16)%Z -> (0 <= n < 16 ^ h)%Z -> (0 <= v <= 15)%Z ->
  (0 <= n * 16 + v < 16 ^ (h + 1))%Z /\ (16 ^ (h + 1) <= 2 ^ 64)%Z.
Proof.
  intros Hh Hn Hv. rewrite Z.pow_add_r by lia. split; [lia|].
  rewrite <- pow16_16. change (16 ^ 1)%Z with 16%Z.
  change (16 ^ 16)%Z with (16 ^ 15 * 16)%Z.
  apply Z.mul_le_mono_nonneg_r; [lia|]. apply Z.pow_le_mono_r; lia.
Qed.

Definition verdict_wf (v : verdict) : Prop :=
  match v with Took d _ | Finished d | Rejected d => wf_decoder d end.

Lemma feed_ext_wf d c :
  (0 <= bytes_left_in_chunk d < 2 ^ 64)%Z -> _hex_count d = 0%Z ->
  _state d = CHUNKED_IN_CHUNK_EXT -> verdict_wf (feed_ext d c).
Proof.
  intros Hb Hh Hq. unfold feed_ext, verdict_wf, wf_decoder.
  repeat case_if; cbn; rewrite ?Hq; split_and!; try done; lia.
Qed.

(** Every byte keeps the decoder well formed. *)
Lemma feed_wf d c : wf_decoder d -> verdict_wf (feed d c).
Proof.
  intros [Hb Hq]. unfold feed. destruct (_state d) eqn:E.
  - destruct Hq as [Hh Hl]. repeat case_if.
    + split; [done|]. by rewrite E.
    + by apply feed_ext_wf.
    + split; [done|]. by rewrite E.
    + pose proof (decode_hex_digit _ E0) as Hv.
      destruct (hex_step (bytes_left_in_chunk d) (_hex_count d) _ ltac:(lia) ltac:(lia) Hv).
      split; cbn [bytes_left_in_chunk _hex_count _state set_hex_count set_bytes_left];
        [lia|]. rewrite E. lia.
  - by apply feed_ext_wf.
  - destruct Hq as [Hh Hl]. unfold feed_data, verdict_wf, wf_decoder.
    case_if; cbn in *; [|rewrite E]; split_and!; try done; lia.
  - repeat case_if; split; try done; cbn; rewrite ?E; try done. destruct Hq as [-> ->]. cbn. lia.
  - repeat case_if; split; try done; cbn; rewrite ?E; done.
  - repeat case_if; split; try done; cbn; rewrite ?E; done.
Qed.

(** ** Simulation *)

Definition rest (x : cursor) : list byte := drop (src x) (buf x).
Definition out (x : cursor) : list byte := take (dst x) (buf x).

Record good (x : cursor) : Prop := {
  good_dec : wf_decoder (dec x);
  good_pos : dst x <= src x <= length (buf x)
}.

(** From [x] the code has got to [y], and the machine agrees. *)
Definition reaches (x y : cursor) : Prop :=
  good y /\ length (buf y) = length (buf x) /\ src x <= src y /\
  exists o, out y = out x ++ o /\ run (dec x) (rest x) = prepend o (run (dec y) (rest y)).

(** From [x] the code stops in [y], where the machine stops with [e]. *)
Definition ends (x : cursor) (e : ending) (y : cursor) : Prop :=
  good y /\ length (buf y) = length (buf x) /\
  exists o, out y = out x ++ o /\ run (dec x) (rest x) = mk_outcome e (dec y) o (rest y).

Lemma reaches_refl x : good x -> reaches x x.
Proof.
  intros H. split_and!; [done | done | done |]. exists []. by rewrite app_nil_r, prepend_nil.
Qed.

Lemma reaches_trans x y z : reaches x y -> reaches y z -> reaches x z.
Proof.
  intros (G1 & L1 & S1 & o1 & O1 & R1) (G2 & L2 & S2 & o2 & O2 & R2).
  split_and!; [done | congruence | lia |]. exists (o1 ++ o2).
  by rewrite O2, O1, R1, R2, prepend_app, <- app_assoc.
Qed.

Lemma reaches_ends x y z e : reaches x y -> ends y e z -> ends x e z.
Proof.
  intros (G1 & L1 & S1 & o1 & O1 & R1) (G2 & L2 & o2 & O2 & R2).
  split_and!; [done | congruence |]. exists (o1 ++ o2).
  by rewrite O2, O1, R1, R2, <- app_assoc.
Qed.

Lemma reaches_good x y : reaches x y -> good y.
Proof. by intros []. Qed.

Lemma rest_cons x c : buf x !! src x = Some c -> rest x = c :: rest (next_src x).
Proof. intros H. unfold rest. simpl. by apply drop_S. Qed.

Lemma rest_end x : src x = length (buf x) -> rest x = [].
Proof. intros H. unfold rest. apply drop_ge. lia. Qed.

Lemma ends_more x : good x -> src x = length (buf x) -> ends x More x.
Proof.
  intros G H. split_and!; [done | done |]. exists []. by rewrite app_nil_r, rest_end.
Qed.

Lemma ends_bad x c :
  good x -> buf x !! src x = Some c -> feed (dec x) c = Rejected (dec x) -> ends x Bad x.
Proof.
  intros G H F. split_and!; [done | done |]. exists [].
  by rewrite app_nil_r, (rest_cons x c H), run_cons, F.
Qed.

Definition after_byte (d : phr_chunked_decoder) (x : cursor) : cursor :=
  mk_cursor d (buf x) (dst x) (S (src x)).

Lemma good_after x c d : good x -> buf x !! src x = Some c -> wf_decoder d -> good (after_byte d x).
Proof.
  intros [_ Hp] H Hd. apply lookup_lt_Some in H. split; [done | simpl; lia].
Qed.

Lemma reaches_byte x c d :
  good x -> buf x !! src x = Some c -> feed (dec x) c = Took d [] -> reaches x (after_byte d x).
Proof.
  intros G H F. pose proof (feed_wf (dec x) c (good_dec _ G)) as W. rewrite F in W.
  split_and!; [by eapply good_after | done | simpl; lia |].
  exists []. by rewrite app_nil_r, (rest_cons x c H), run_cons, F.
Qed.

Lemma ends_done x c d :
  good x -> buf x !! src x = Some c -> feed (dec x) c = Finished d -> ends x Done (after_byte d x).
Proof.
  intros G H F. pose proof (feed_wf (dec x) c (good_dec _ G)) as W. rewrite F in W.
  split_and!; [by eapply good_after | done |].
  exists []. by rewrite app_nil_r, (rest_cons x c H), run_cons, F.
Qed.

(** What a piece of the code that starts at [x] may do; [P] is what it
    guarantees where it falls through. *)
Definition flow_ok (x : cursor) (P : cursor -> Prop) (r : flow) : Prop :=
  match r with
  | Fall y => reaches x y /\ P y
  | Break y => reaches x y /\ src x < src y
  | Complete y => ends x Done y
  | Exit ret y => exists e, ends x e y /\ e <> Done /\ ret = code_of e (rest y)
  | Oob | Fuel => False
  end.

Lemma flow_ok_from x y P r : reaches x y -> flow_ok y P r -> flow_ok x P r.
Proof.
  intros H. pose proof H as (_ & _ & Hs & _). destruct r; simpl.
  - intros [H1 H2]. split; [by eapply reaches_trans | done].
  - intros [H1 H2]. split; [by eapply reaches_trans | lia].
  - by apply reaches_ends.
  - intros (e & H1 & H2). exists e. split; [by eapply reaches_ends | done].
  - done.
  - done.
Qed.

Lemma flow_ok_fallthru x P Q r k :
  flow_ok x P r -> (forall y, good y -> P y -> flow_ok y Q (k y)) -> flow_ok x Q (fallthru r k).
Proof.
  intros H Hk. destruct r; try done. destruct H as [H1 H2]. simpl.
  eapply flow_ok_from; [done|]. apply Hk; [by eapply reaches_good | done].
Qed.

(** The fall-through is only taken after reading at least one byte. *)
Definition state_is (q : chunked_state) (y : cursor) : Prop := _state (dec y) = q.

Lemma lookup_src x : good x -> src x <> length (buf x) -> exists c, buf x !! src x = Some c.
Proof. intros [_ H] Hne. apply lookup_lt_is_Some_2. lia. Qed.

Lemma scan_ok fuel stop x :
  good x -> length (buf x) - src x < fuel ->
  (forall c, stop c = false -> feed (dec x) c = Took (dec x) []) ->
  flow_ok x (fun y => dec y = dec x /\ exists c, buf y !! src y = Some c /\ stop c = true)
    (scan fuel stop x).
Proof.
  revert x. induction fuel as [|fuel IH]; intros x G Hf Hfeed; [lia|]. cbn [scan]. case_if.
  - exists More. split_and!; [by apply ends_more | done | done].
  - destruct (lookup_src x G E) as [c Hc]. rewrite Hc. case_if.
    + split; [by apply reaches_refl | eauto].
    + pose proof (reaches_byte x c _ G Hc (Hfeed _ E0)) as R.
      eapply flow_ok_from; [exact R|]. apply lookup_lt_Some in Hc.
      apply (IH (next_src x)); [by eapply reaches_good | simpl; lia | exact Hfeed].
Qed.

Lemma size_loop_ok fuel x :
  good x -> length (buf x) - src x < fuel -> state_is CHUNKED_IN_CHUNK_SIZE x ->
  flow_ok x (fun y => state_is CHUNKED_IN_CHUNK_SIZE y /\ (_hex_count (dec y) =? 0)%Z = false /\
     exists c, buf y !! src y = Some c /\ decode_hex (schar c) = (-1)%Z)
    (size_loop fuel x).
Proof.
  revert x. induction fuel as [|fuel IH]; intros x G Hf Hq; [lia|]. cbn [size_loop].
  unfold state_is in *.
  assert (F : forall c, feed (dec x) c = _) by (intros c; unfold feed; rewrite Hq; reflexivity).
  case_if; [exists More; split_and!; [by apply ends_more | done | done]|].
  destruct (lookup_src x G E) as [c Hc]. rewrite Hc. specialize (F c).
  destruct (decode_hex (schar c) =? -1)%Z eqn:E1.
  { destruct (_hex_count (dec x) =? 0)%Z eqn:E2.
    - exists Bad. split_and!; [by eapply ends_bad | done | done].
    - split; [by apply reaches_refl|]. split_and!; [done | done |]. exists c.
      by apply Z.eqb_eq in E1. }
  destruct (_hex_count (dec x) =? 16)%Z eqn:E2.
  { exists Bad. split_and!; [by eapply ends_bad | done | done]. }
  pose proof (reaches_byte x c _ G Hc F) as R. pose proof (lookup_lt_Some _ _ _ Hc) as Hlt.
  destruct G as [[Hb Hw] Hp]. rewrite Hq in Hw. boolp.
  destruct (hex_step (bytes_left_in_chunk (dec x)) (_hex_count (dec x)) _
              ltac:(lia) ltac:(lia) (decode_hex_digit _ E1)).
  cbv zeta. unfold next_src, on_dec. cbn [dec buf dst src bytes_left_in_chunk].
  rewrite wrapu_small by lia.
  rewrite wraps_small by (change (2 ^ (8 - 1))%Z with 128%Z; lia).
  eapply flow_ok_from; [exact R|].
  apply (IH (after_byte _ x)); [by eapply reaches_good | simpl; lia | done].
Qed.

(** A byte that ends the size goes to the extension without being read. *)
Lemma case_size_ok x :
  good x -> state_is CHUNKED_IN_CHUNK_SIZE x ->
  flow_ok x (state_is CHUNKED_IN_CHUNK_EXT) (case_size x).
Proof.
  intros G Hq. unfold case_size. eapply flow_ok_fallthru.
  { apply size_loop_ok; [done | unfold bound; lia | done]. }
  intros y [[Hb Hw] Hp] (Hy & Hh & c & Hc & Hv). unfold state_is in *. rewrite Hy in Hw.
  split; [|done]. split_and!; [split; [split; done | done] | done | done |]. exists [].
  rewrite app_nil_r, prepend_nil. split; [done|].
  change (rest (on_dec _ y)) with (rest y). rewrite (rest_cons y c Hc), !run_cons.
  unfold feed. rewrite Hy, Hv, Hh. done.
Qed.

Lemma case_ext_ok x :
  good x -> state_is CHUNKED_IN_CHUNK_EXT x ->
  flow_ok x (state_is CHUNKED_IN_CHUNK_DATA) (case_ext x).
Proof.
  intros G Hq. unfold case_ext, state_is in *. eapply flow_ok_fallthru.
  { apply scan_ok; [done | unfold bound; lia |].
    intros c Hc. unfold feed, feed_ext. by rewrite Hq, Hc. }
  intros y Gy (Hd & c & Hc & Hs).
  assert (F : feed (dec y) c = feed_ext (dec y) c) by (unfold feed; by rewrite Hd, Hq).
  unfold feed_ext in F. rewrite Hs in F. cbv zeta. change (dec (next_src y)) with (dec y).
  destruct (bytes_left_in_chunk (dec y) =? 0)%Z; [destruct (consume_trailer (dec y))|].
  - split; [by apply (reaches_byte y c) | simpl; lia].
  - by apply (ends_done y c).
  - split; [by apply (reaches_byte y c) | done].
Qed.

(** [n] bytes of data moved from [src] to [dst]. *)
Definition moved (n : nat) (x : cursor) (b : list byte) : Prop :=
  length b = length (buf x) /\ take (dst x + n) b = out x ++ take n (rest x) /\
  drop (src x + n) b = drop n (rest x).

Lemma memmove_moved x n :
  dst x <= src x -> src x + n <= length (buf x) ->
  exists b, memmove (buf x) (dst x) (src x) n = Some b /\ moved n x b.
Proof.
  intros H1 H2. unfold memmove. rewrite (proj2 (Nat.leb_le _ _)), (proj2 (Nat.leb_le _ _)) by lia.
  eexists. split; [reflexivity|]. unfold moved, out, rest.
  assert (L : length (take (dst x) (buf x) ++ take n (drop (src x) (buf x))) = dst x + n).
  { rewrite length_app, !length_take, length_drop. lia. }
  split_and!.
  - rewrite app_assoc, length_app, L, length_drop. lia.
  - rewrite app_assoc, <- L, take_app_length. done.
  - rewrite app_assoc, drop_app_ge by lia. rewrite !drop_drop. f_equal. lia.
Qed.

Lemma move_down_ok n x k (Q : flow -> Prop) :
  dst x <= src x -> src x + n <= length (buf x) ->
  (forall b, moved n x b -> Q (k (mk_cursor (dec x) b (dst x) (src x)))) ->
  Q (move_down n x k).
Proof.
  intros H1 H2 Hk. unfold move_down. case_if.
  - replace x with (mk_cursor (dec x) (buf x) (dst x) (src x)) at 1 by (by destruct x).
    apply Hk. unfold moved, out, rest. rewrite E. split_and!; [done | | by rewrite drop_drop].
    rewrite <- (take_drop (src x) (buf x)) at 1. rewrite take_app, length_take, take_take.
    f_equal; f_equal; lia.
  - destruct (memmove_moved x n H1 H2) as (b & -> & M). by apply Hk.
Qed.

(** The machine on data that stays inside the chunk. *)
Lemma run_data d l t :
  _state d = CHUNKED_IN_CHUNK_DATA -> (Z.of_nat (length l) < bytes_left_in_chunk d)%Z ->
  run d (l ++ t)
  = prepend l (run (set_bytes_left (bytes_left_in_chunk d - Z.of_nat (length l)) d) t).
Proof.
  revert d. induction l as [|c l IH]; intros d Hq Hl.
  - rewrite prepend_nil. cbn [app length]. rewrite Z.sub_0_r. by destruct d.
  - cbn [app]. rewrite run_cons. unfold feed. rewrite Hq. unfold feed_data.
    cbn [length bytes_left_in_chunk set_bytes_left] in *.
    rewrite (proj2 (Z.eqb_neq _ _)) by lia.
    rewrite IH by (simpl; [done || lia]). rewrite prepend_app.
    cbn [bytes_left_in_chunk set_bytes_left consume_trailer _hex_count _state].
    do 2 f_equal. unfold set_bytes_left. simpl. f_equal. lia.
Qed.

(** The machine on the whole of the data of a chunk. *)
Lemma run_data_all d l t :
  _state d = CHUNKED_IN_CHUNK_DATA -> (0 < bytes_left_in_chunk d)%Z ->
  Z.of_nat (length l) = bytes_left_in_chunk d ->
  run d (l ++ t)
  = prepend l (run (set_state CHUNKED_IN_CHUNK_CRLF (set_bytes_left 0 d)) t).
Proof.
  intros Hq Hp Hl. destruct l as [|c l _] using rev_ind; [simpl in Hl; lia|].
  rewrite length_app in Hl. simpl in Hl. rewrite <- app_assoc.
  rewrite run_data by (done || lia). cbn [app]. rewrite run_cons. unfold feed.
  cbn [_state set_bytes_left]. rewrite Hq. unfold feed_data.
  cbn [bytes_left_in_chunk set_bytes_left].
  rewrite (proj2 (Z.eqb_eq _ _)) by lia. rewrite prepend_app. do 2 f_equal.
  unfold set_state, set_bytes_left. simpl. f_equal. lia.
Qed.

Lemma case_data_ok x :
  good x -> state_is CHUNKED_IN_CHUNK_DATA x ->
  flow_ok x (state_is CHUNKED_IN_CHUNK_CRLF) (case_data x).
Proof.
  intros [[Hb Hw] Hp] Hq. unfold state_is in Hq. rewrite Hq in Hw. destruct Hw as [Hh Hpos].
  assert (Hrest : length (rest x) = length (buf x) - src x) by (unfold rest; apply length_drop).
  unfold case_data. case_if.
  - apply (move_down_ok _ _ _ (flow_ok x _)); [lia | lia |].
    intros b (L & T & D). simpl. exists More. split_and!; [|done|done].
    split_and!; [split; simpl; [|lia] | done |].
    { split; cbn [bytes_left_in_chunk _state set_bytes_left]; [lia|]. rewrite Hq. simpl. lia. }
    exists (rest x). unfold out at 1, rest at 4. cbn [buf dst src dec].
    rewrite T, D, take_ge by lia. split; [done|].
    rewrite <- (app_nil_r (rest x)) at 1. rewrite run_data by (done || lia).
    rewrite Hrest, drop_ge by lia. simpl. unfold prepend. simpl. by rewrite app_nil_r.
  - apply (move_down_ok _ _ _ (flow_ok x _)); [lia | lia |].
    intros b (L & T & D). simpl. split; [|done].
    split_and!; [split; simpl; [|lia] | done | simpl; lia |].
    { split; simpl; [lia | done]. }
    exists (take (Z.to_nat (bytes_left_in_chunk (dec x))) (rest x)).
    unfold out at 1, rest at 4. cbn [buf dst src dec]. rewrite T, D. split; [done|].
    rewrite <- (take_drop (Z.to_nat (bytes_left_in_chunk (dec x))) (rest x)) at 1.
    apply run_data_all; [done | lia | rewrite length_take; lia].
Qed.

Lemma case_crlf_ok x :
  good x -> state_is CHUNKED_IN_CHUNK_CRLF x -> flow_ok x (fun _ => False) (case_crlf x).
Proof.
  intros G Hq. unfold case_crlf, state_is in *. eapply flow_ok_fallthru.
  { apply scan_ok; [done | unfold bound; lia |].
    intros c Hc. boolp. subst c. unfold feed. by rewrite Hq. }
  intros y Gy (Hd & c & Hc & Hs). rewrite Hc. apply negb_true_iff in Hs.
  assert (F : feed (dec y) c = if (c =? x0a)%beq then
      Took (set_state CHUNKED_IN_CHUNK_SIZE (dec y)) [] else Rejected (dec y))
    by (unfold feed; by rewrite Hd, Hq, Hs).
  destruct (c =? x0a)%beq; simpl.
  - split; [by apply (reaches_byte y c) | lia].
  - exists Bad. split_and!; [by eapply ends_bad | done | done].
Qed.

Lemma case_line_head_ok x :
  good x -> state_is CHUNKED_IN_TRAILERS_LINE_HEAD x ->
  flow_ok x (state_is CHUNKED_IN_TRAILERS_LINE_MIDDLE) (case_line_head x).
Proof.
  intros G Hq. unfold case_line_head, state_is in *. eapply flow_ok_fallthru.
  { apply scan_ok; [done | unfold bound; lia |].
    intros c Hc. boolp. subst c. unfold feed. by rewrite Hq. }
  intros y Gy (Hd & c & Hc & Hs). rewrite Hc. apply negb_true_iff in Hs.
  assert (F : feed (dec y) c = if (c =? x0a)%beq then Finished (dec y)
      else Took (set_state CHUNKED_IN_TRAILERS_LINE_MIDDLE (dec y)) [])
    by (unfold feed; by rewrite Hd, Hq, Hs).
  destruct (c =? x0a)%beq; simpl.
  - by apply (ends_done y c).
  - split; [by apply (reaches_byte y c) | done].
Qed.

Lemma case_line_middle_ok x :
  good x -> state_is CHUNKED_IN_TRAILERS_LINE_MIDDLE x ->
  flow_ok x (fun _ => False) (case_line_middle x).
Proof.
  intros G Hq. unfold case_line_middle, state_is in *. eapply flow_ok_fallthru.
  { apply scan_ok; [done | unfold bound; lia |].
    intros c Hc. unfold feed. by rewrite Hq, Hc. }
  intros y Gy (Hd & c & Hc & Hs).
  assert (F : feed (dec y) c = Took (set_state CHUNKED_IN_TRAILERS_LINE_HEAD (dec y)) [])
    by (unfold feed; by rewrite Hd, Hq, Hs).
  split; [by apply (reaches_byte y c) | simpl; lia].
Qed.

#[export] Hint Resolve case_size_ok case_ext_ok case_data_ok case_crlf_ok
  case_line_head_ok case_line_middle_ok : coio.

(** One turn of the [while] loop. *)
Lemma switch_ok x : good x -> flow_ok x (fun _ => False) (switch x).
Proof.
  intros G. unfold switch.
  destruct (_state (dec x)) eqn:E; repeat match goal with
    | |- flow_ok _ _ (fallthru _ _) => eapply flow_ok_fallthru; [|intros ? ? ?]
    end; eauto with coio.
Qed.

(** The code at [Exit] leaves the data in front and the unread input behind it. *)
Lemma finish_ok ret y :
  good y ->
  exists b, finish ret y = Returned ret (dec y) b (dst y) /\
    length b = length (buf y) /\ take (dst y) b = out y /\
    take (length (buf y) - src y) (drop (dst y) b) = rest y.
Proof.
  intros [_ Hp]. unfold finish. pattern (move_down (length (buf y) - src y) y Fall).
  apply move_down_ok; [lia | lia |]. intros b (L & T & D). simpl.
  assert (Hr : take (length (buf y) - src y) (rest y) = rest y).
  { apply take_ge. unfold rest. rewrite length_drop. lia. }
  rewrite Hr in T. exists b. split_and!; [done | done | |].
  - replace (dst y) with (dst y `min` (dst y + (length (buf y) - src y))) by lia.
    rewrite <- take_take, T. unfold out. rewrite take_app_le by (rewrite length_take; lia).
    rewrite take_take. f_equal. lia.
  - rewrite take_drop_commute, T. apply drop_app_length'. unfold out.
    rewrite length_take. lia.
Qed.

(** The result the machine prescribes for a cursor. *)
Definition implements (x : cursor) (r : decoded) : Prop :=
  let m := run (dec x) (rest x) in
  exists b, r = Returned (code_of (oc_end m) (oc_rest m)) (oc_dec m) b
                  (dst x + length (oc_out m)) /\
    length b = length (buf x) /\
    take (dst x + length (oc_out m)) b = out x ++ oc_out m /\
    take (length (oc_rest m)) (drop (dst x + length (oc_out m)) b) = oc_rest m /\
    wf_decoder (oc_dec m).

Lemma length_out x : good x -> length (out x) = dst x.
Proof. intros [_ H]. unfold out. rewrite length_take. lia. Qed.

Lemma ends_implements x e y :
  good x -> ends x e y -> implements x (finish (code_of e (rest y)) y).
Proof.
  intros Gx (Gy & L & o & O & R). destruct (finish_ok (code_of e (rest y)) y Gy) as (b & F & B & T & D).
  unfold implements. rewrite R, F. cbn [oc_end oc_dec oc_out oc_rest].
  assert (Hd : dst x + length o = dst y)
    by (rewrite <- (length_out y Gy), O, length_app, length_out; done).
  rewrite Hd. exists b. split_and!; [done | lia | congruence | | apply Gy].
  rewrite <- D at 2. f_equal. unfold rest. by rewrite length_drop.
Qed.

Lemma reaches_implements x y r : good x -> reaches x y -> implements y r -> implements x r.
Proof.
  intros Gx (Gy & L & Hs & o & O & R) (b & E & B & T & D & W).
  assert (Hd : dst x + length o = dst y)
    by (rewrite <- (length_out y Gy), O, length_app, length_out; done).
  exists b. rewrite R. cbn [oc_end oc_dec oc_out oc_rest prepend].
  rewrite length_app, Nat.add_assoc, Hd.
  split_and!; [done | lia | by rewrite T, O, app_assoc | done | done].
Qed.

Lemma decode_loop_ok fuel x :
  good x -> length (buf x) - src x < fuel -> (Z.of_nat (length (buf x)) < 2 ^ 63)%Z ->
  implements x (decode_loop fuel x).
Proof.
  revert x. induction fuel as [|fuel IH]; intros x G Hf Hmax; [lia|]. cbn [decode_loop].
  pose proof (switch_ok x G) as H. destruct (switch x) as [y|y|y|ret y| |]; simpl in H; try done.
  - by destruct H.
  - destruct H as [R Hlt]. pose proof R as (Gy & L & _).
    apply (reaches_implements x y _ G R). apply IH; [done | destruct Gy; lia | lia].
  - pose proof H as (Gy & L & _). replace (wraps 64 _) with (code_of Done (rest y)).
    + by apply ends_implements.
    + simpl. unfold rest. rewrite length_drop, wraps_small; [done | lia |].
      change (64 - 1)%Z with 63%Z. lia.
  - destruct H as (e & H & _ & ->). by apply ends_implements.
Qed.

Lemma decode_implements d b :
  wf_decoder d -> (Z.of_nat (length b) < 2 ^ 63)%Z ->
  let m := run d b in
  exists b',
    phr_decode_chunked d b
    = Returned (code_of (oc_end m) (oc_rest m)) (oc_dec m) b' (length (oc_out m)) /\
    length b' = length b /\
    take (length (oc_out m)) b' = oc_out m /\
    take (length (oc_rest m)) (drop (length (oc_out m)) b') = oc_rest m /\
    wf_decoder (oc_dec m).
Proof.
  intros W Hmax. apply (decode_loop_ok (S (length b)) (mk_cursor d b 0 0));
    [split; simpl; [done | lia] | simpl; lia | done].
Qed.

(** C4: [phr_decode_chunked] implements the byte-at-a-time machine: from any
    decoder a zero-filled one can become and on any buffer, the call returns
    (no access outside the buffer, no endless loop), the value is the one of
    the machine's ending (-2 when it wants more, -1 when it rejects a byte,
    the number of unread bytes when it has finished), the decoder is left in
    the machine's state, [*_bufsz] bytes of decoded data are at the front of
    the buffer, and the unread input follows them. *)
Theorem phr_decode_chunked_refines d b :
  wf_decoder d -> (Z.of_nat (length b) < 2 ^ 63)%Z ->
  let m := run d b in
  exists b',
    phr_decode_chunked d b
    = Returned (code_of (oc_end m) (oc_rest m)) (oc_dec m) b' (length (oc_out m)) /\
    length b' = length b /\
    take (length (oc_out m)) b' = oc_out m /\
    take (length (oc_rest m)) (drop (length (oc_out m)) b') = oc_rest m /\
    wf_decoder (oc_dec m).
Proof.
  apply decode_implements.
Qed.

(** "5;x\r\nhe" then "llo\r\n0\r\n": a chunk with an extension, cut in its data. *)
Definition sample_part1 : list byte := bs "5;x" ++ [x0d; x0a] ++ bs "he".
Definition sample_part2 : list byte :=
  bs "llo" ++ [x0d; x0a] ++ bs "0" ++ [x0d; x0a] ++ bs "tail".

Lemma phr_decode_chunked_refines_witness :
  exists b', phr_decode_chunked (decoder_zero false) sample_part1
    = Returned (-2) (mk_decoder 3 false 0 CHUNKED_IN_CHUNK_DATA) b' 2 /\ take 2 b' = bs "he".
Proof.
  destruct (phr_decode_chunked_refines (decoder_zero false) sample_part1)
    as (b' & H1 & _ & H2 & _); [split; simpl; lia | vm_compute; reflexivity |].
  exists b'. split; [exact H1 | exact H2].
Defined.

(** ** Consequences *)

Lemma code_of_more e l : code_of e l = (-2)%Z -> e = More.
Proof. destruct e; simpl; [done | lia | done]. Qed.

(** C22: the input may arrive in pieces: when a call on [a] wants more, going on
    with [b] in the same decoder gives the returned value, the decoder and (in
    two parts) the data of one call on [a ++ b]. *)
Theorem phr_decode_chunked_split d a b d1 a' n1 :
  wf_decoder d -> (Z.of_nat (length (a ++ b)) < 2 ^ 63)%Z ->
  phr_decode_chunked d a = Returned (-2) d1 a' n1 ->
  exists ret d2 b' n2 c',
    phr_decode_chunked d1 b = Returned ret d2 b' n2 /\
    phr_decode_chunked d (a ++ b) = Returned ret d2 c' (n1 + n2) /\
    take (n1 + n2) c' = take n1 a' ++ take n2 b'.
Proof.
  intros W Hmax H1. pose proof Hmax as Hlen. rewrite length_app in Hlen.
  destruct (decode_implements d a W ltac:(lia)) as (a2 & E1 & _ & T1 & _ & W1).
  rewrite H1 in E1. injection E1 as C -> <- ->. symmetry in C. apply code_of_more in C.
  destruct (decode_implements (oc_dec (run d a)) b W1 ltac:(lia)) as (b' & E2 & _ & T2 & _ & _).
  destruct (decode_implements d (a ++ b) W Hmax) as (c' & E3 & _ & T3 & _ & _).
  rewrite run_app, C in E3, T3. cbn [oc_end oc_dec oc_out oc_rest prepend] in *.
  rewrite length_app in E3, T3.
  do 5 eexists. split_and!; [exact E2 | exact E3 | by rewrite T3, T1, T2].
Qed.

Lemma phr_decode_chunked_split_witness :
  exists ret d2 b' n2 c',
    phr_decode_chunked (mk_decoder 3 false 0 CHUNKED_IN_CHUNK_DATA) sample_part2
      = Returned ret d2 b' n2 /\
    phr_decode_chunked (decoder_zero false) (sample_part1 ++ sample_part2)
      = Returned ret d2 c' (2 + n2) /\
    take (2 + n2) c' = bs "he" ++ take n2 b'.
Proof.
  refine (phr_decode_chunked_split (decoder_zero false) sample_part1 sample_part2 _
            (bs "hex" ++ [x0d; x0a] ++ bs "he") 2 _ _ _).
  - split; simpl; lia.
  - vm_compute. reflexivity.
  - vm_compute. reflexivity.
Defined.

(** ** Encoded text

    A chunk as RFC 7230 writes it: the size in hexadecimal, an extension, the
    data. *)

Record chunk := mk_chunk {
  ck_size : list byte;
  ck_ext : list byte;
  ck_data : list byte
}.

Definition hexval (c : byte) : Z := decode_hex (schar c).

(** The number a text of hexadecimal digits denotes, after [acc]. *)
Definition hex_number (acc : Z) (l : list byte) : Z :=
  fold_left (fun n c => n * 16 + hexval c)%Z l acc.

Definition size_line (size ext : list byte) : list byte := size ++ ext ++ [x0d; x0a].

Definition chunk_text (k : chunk) : list byte :=
  size_line (ck_size k) (ck_ext k) ++ ck_data k ++ [x0d; x0a].

(** Hexadecimal digits that fit in a [size_t], then an extension. *)
Record size_ok (size ext : list byte) : Prop := {
  so_digits : Forall (fun c => hexval c <> (-1)%Z) size;
  so_length : 0 < length size <= 16;
  so_ext : Forall (fun c => c <> x0a) ext;
  so_head : forall c, head ext = Some c -> hexval c = (-1)%Z
}.

Record chunk_ok (k : chunk) : Prop := {
  co_size : size_ok (ck_size k) (ck_ext k);
  co_value : hex_number 0 (ck_size k) = Z.of_nat (length (ck_data k));
  co_data : ck_data k <> []
}.

(** A message: the chunks, the last chunk of size 0, and the trailer lines. *)
Definition trailer_text (ts : list (list byte)) : list byte :=
  concat (map (fun t => t ++ [x0d; x0a]) ts) ++ [x0d; x0a].

Definition trailer_ok (t : list byte) : Prop :=
  Forall (fun c => c <> x0a) t /\ exists c l, t = c :: l /\ c <> x0d.

Definition message_text (ks : list chunk) (size0 ext0 : list byte) (ts : list (list byte))
  : list byte :=
  concat (map chunk_text ks) ++ size_line size0 ext0 ++ trailer_text ts.

Section decoding.
Variable trailer : bool.

Abbreviation at_size n h := (mk_decoder n trailer h CHUNKED_IN_CHUNK_SIZE).
Abbreviation at_ext n := (mk_decoder n trailer 0 CHUNKED_IN_CHUNK_EXT).
Abbreviation at_data n := (mk_decoder n trailer 0 CHUNKED_IN_CHUNK_DATA).
Abbreviation at_crlf := (mk_decoder 0 trailer 0 CHUNKED_IN_CHUNK_CRLF).
Abbreviation at_head := (mk_decoder 0 trailer 0 CHUNKED_IN_TRAILERS_LINE_HEAD).
Abbreviation at_middle := (mk_decoder 0 trailer 0 CHUNKED_IN_TRAILERS_LINE_MIDDLE).

Lemma run_digits n h l t :
  (0 <= h)%Z -> Forall (fun c => hexval c <> (-1)%Z) l -> (h + Z.of_nat (length l) <= 16)%Z ->
  run (at_size n h) (l ++ t)
  = run (at_size (hex_number n l) (h + Z.of_nat (length l))) t.
Proof.
  revert n h. induction l as [|c l IH]; intros n h Hh Hl Hlen; cbn [app length] in *.
  - by rewrite Z.add_0_r.
  - inversion Hl as [|? ? Hc Hl']; subst. rewrite run_cons. unfold feed, hexval in *.
    cbn [_state _hex_count]. rewrite (proj2 (Z.eqb_neq _ _)) by done.
    rewrite (proj2 (Z.eqb_neq _ _)) by lia. rewrite prepend_nil.
    unfold set_hex_count, set_bytes_left. cbn [bytes_left_in_chunk consume_trailer _state _hex_count].
    rewrite IH by (done || lia). do 2 f_equal. lia.
Qed.

Lemma run_ext n l t :
  Forall (fun c => c <> x0a) l ->
  run (at_ext n) (l ++ x0a :: t)
  = match feed_ext (at_ext n) x0a with
    | Took d o => prepend o (run d t)
    | Finished d => mk_outcome Done d [] t
    | Rejected d => mk_outcome Bad d [] (x0a :: t)
    end.
Proof.
  induction l as [|c l IH]; intros Hl; [done|]. inversion Hl as [|? ? Hc Hl']; subst.
  cbn [app]. rewrite run_cons. unfold feed at 1. cbn [_state]. unfold feed_ext at 1.
  rewrite (proj2 (byte_eqb_neq _ _) Hc), prepend_nil. by apply IH.
Qed.

(** The digits of a size are followed by a byte that is none. *)
Lemma run_size_line size ext t :
  size_ok size ext ->
  run (at_size 0 0) (size_line size ext ++ t)
  = match feed_ext (at_ext (hex_number 0 size)) x0a with
    | Took d o => prepend o (run d t)
    | Finished d => mk_outcome Done d [] t
    | Rejected d => mk_outcome Bad d [] (x0a :: t)
    end.
Proof.
  intros [Hd Hl He Hh]. unfold size_line. rewrite <- !app_assoc.
  rewrite run_digits by (done || lia).
  assert (Hx : exists c l, ext ++ [x0d] = c :: l /\ hexval c = (-1)%Z).
  { destruct ext as [|c l]; [by exists x0d, [] | exists c, (l ++ [x0d]); auto]. }
  destruct Hx as (c & l & El & Hc).
  rewrite <- run_ext with (l := ext ++ [x0d]).
  2: { apply Forall_app. split; [done|]. by repeat constructor. }
  change ([x0d; x0a] ++ t) with ([x0d] ++ x0a :: t). rewrite app_assoc, El.
  cbn [app]. rewrite !run_cons. unfold feed, hexval in *. cbn [_state _hex_count].
  rewrite Hc, (proj2 (Z.eqb_neq (0 + _) 0)) by lia. done.
Qed.

Lemma run_chunk k t :
  chunk_ok k -> run (at_size 0 0) (chunk_text k ++ t) = prepend (ck_data k) (run (at_size 0 0) t).
Proof.
  intros [Hs Hv Hd]. unfold chunk_text. rewrite <- app_assoc, run_size_line by done.
  assert (Hp : (0 < Z.of_nat (length (ck_data k)))%Z) by (destruct (ck_data k); simpl; [done | lia]).
  rewrite Hv. unfold feed_ext. cbn [bytes_left_in_chunk]. rewrite byte_eqb_refl.
  rewrite (proj2 (Z.eqb_neq _ _)) by lia. rewrite prepend_nil, <- app_assoc.
  rewrite run_data_all by (done || simpl; lia). done.
Qed.

Lemma run_chunks ks t :
  Forall chunk_ok ks ->
  run (at_size 0 0) (concat (map chunk_text ks) ++ t)
  = prepend (concat (map ck_data ks)) (run (at_size 0 0) t).
Proof.
  induction ks as [|k ks IH]; intros Hk; [by rewrite prepend_nil|].
  inversion Hk; subst. cbn [map concat]. rewrite <- app_assoc, run_chunk by done.
  by rewrite IH, prepend_app.
Qed.

Lemma run_line l t :
  Forall (fun c => c <> x0a) l -> run at_middle (l ++ x0a :: t) = run at_head t.
Proof.
  induction l as [|c l IH]; intros Hl; cbn [app]; rewrite run_cons; unfold feed; cbn [_state].
  - by rewrite byte_eqb_refl, prepend_nil.
  - inversion Hl; subst. rewrite (proj2 (byte_eqb_neq _ _)) by done. rewrite prepend_nil. auto.
Qed.

Lemma run_trailers ts t :
  Forall trailer_ok ts -> run at_head (trailer_text ts ++ t) = mk_outcome Done at_head [] t.
Proof.
  unfold trailer_text. induction ts as [|l ts IH]; intros Hts; [done|].
  inversion Hts as [|? ? (Hl & c & m & -> & Hc) Hts']; subst. inversion Hl; subst.
  cbn [map concat]. rewrite <- !app_assoc. cbn [app]. rewrite run_cons. unfold feed. cbn [_state].
  rewrite (proj2 (byte_eqb_neq c x0d)), (proj2 (byte_eqb_neq c x0a)) by done.
  rewrite prepend_nil. unfold set_state. cbn [bytes_left_in_chunk consume_trailer _hex_count].
  rewrite cons_middle, app_assoc.
  rewrite run_line by (apply Forall_app; split; [done | by repeat constructor]).
  rewrite <- app_assoc in IH. by apply IH.
Qed.

End decoding.

(** The machine on a message followed by anything: the trailer is left unread
    unless it is to be consumed. *)
Lemma run_message (trailer : bool) ks size0 ext0 ts after :
  Forall chunk_ok ks -> size_ok size0 ext0 -> hex_number 0 size0 = 0%Z -> Forall trailer_ok ts ->
  exists d, run (decoder_zero trailer) (message_text ks size0 ext0 ts ++ after)
  = mk_outcome Done d (concat (map ck_data ks))
      (if trailer then after else trailer_text ts ++ after).
Proof.
  intros Hk H0 Hz Ht. unfold message_text, decoder_zero. rewrite <- !app_assoc.
  rewrite run_chunks by done. rewrite run_size_line, Hz by done.
  unfold feed_ext. rewrite byte_eqb_refl. cbn [bytes_left_in_chunk consume_trailer Z.eqb].
  clear Hk H0. revert Ht. destruct trailer; intros Ht; eexists.
  - rewrite prepend_nil. unfold set_state. cbn [bytes_left_in_chunk consume_trailer _hex_count].
    rewrite (run_trailers true ts after Ht). unfold prepend. simpl. by rewrite app_nil_r.
  - unfold prepend. simpl. by rewrite app_nil_r.
Qed.

(** C21: decoding an encoded message gives the data back: on any well-formed
    sequence of chunks, the terminating chunk and trailer lines, followed by
    anything, one call on a zero-filled decoder leaves the concatenated data at
    the front of the buffer and returns the number of bytes that follow the
    message (the trailer among them when [consume_trailer] is 0). *)
Theorem phr_decode_chunked_message (trailer : bool) ks size0 ext0 ts after :
  Forall chunk_ok ks -> size_ok size0 ext0 -> hex_number 0 size0 = 0%Z -> Forall trailer_ok ts ->
  (Z.of_nat (length (message_text ks size0 ext0 ts ++ after)) < 2 ^ 63)%Z ->
  let data := concat (map ck_data ks) in
  let unread := if trailer then after else trailer_text ts ++ after in
  exists d b',
    phr_decode_chunked (decoder_zero trailer) (message_text ks size0 ext0 ts ++ after)
    = Returned (Z.of_nat (length unread)) d b' (length data) /\
    take (length data) b' = data /\
    take (length unread) (drop (length data) b') = unread.
Proof.
  intros Hk H0 Hz Ht Hmax data unread.
  destruct (run_message trailer ks size0 ext0 ts after Hk H0 Hz Ht) as [d R].
  destruct (decode_implements (decoder_zero trailer) (message_text ks size0 ext0 ts ++ after))
    as (b' & E & _ & T & D & _); [split; simpl; lia | done |].
  rewrite R in E, T, D. exists d, b'. split_and!; [exact E | exact T | exact D].
Qed.

Definition sample_chunks : list chunk :=
  [mk_chunk (bs "5") (bs ";x=1") (bs "hello"); mk_chunk (bs "0B") [] (bs "hello world")].

Lemma phr_decode_chunked_message_witness :
  exists d b',
    phr_decode_chunked (decoder_zero true)
      (message_text sample_chunks (bs "000") [] [bs "X: y"] ++ bs "GET")
    = Returned 3 d b' 16 /\ take 16 b' = bs "hellohello world" /\
    take 3 (drop 16 b') = bs "GET".
Proof.
  apply (phr_decode_chunked_message true sample_chunks (bs "000") [] [bs "X: y"] (bs "GET")).
  - repeat constructor; try discriminate; simpl; try lia; intros c [= <-]; reflexivity.
  - split; [repeat constructor; discriminate | simpl; lia | constructor | discriminate].
  - reflexivity.
  - repeat constructor; try discriminate. eexists _, _. split; [reflexivity | discriminate].
  - vm_compute. reflexivity.
Defined.
