(* ===== verification/IoContext.v ===== *)
(** * [include/io_context.hpp]: the event loop

    An [io_context] owns a ring and three queues: tasks and coroutines handed
    over by other threads, and tasks posted by its own thread.  One turn of the
    loop handles the ring's completions, then the three queues, then submits.

    A task or coroutine body is a [prog]: the calls it makes on the context, in
    order; [AwaitIo op k] suspends it until the completion of [op] arrives,
    whose result is handed to [k], and [Raise] throws.  [exec local p] runs a body
    until it returns, suspends or throws; [local] is the value of
    [is_in_local_thread()] on the thread that runs it.  [Crash] is a failed
    [assert] or a bad pointer, [Escape] an exception on its way out.

    liburing is the interface [Uring] with the laws [UringLaws].  What other
    threads do is given by lists of [remote_call]s placed at the points of a turn
    where it can be observed.  [post] and [dispatch] change [m_remote_tasks] when
    their [lock_guard], a temporary, is already gone: another thread's post is two
    steps, between which anything else can happen ([IoLocking] has the accesses to
    the mutex as well).  The context also records, for the statements only, which
    tasks were pushed on and started from which queue. *)

From S2P Require Import Prelude.
From stdpp Require Import gmap.

(** ** Failures *)

(** [NoSqe]: [assert(sqe)], the submission queue is full; [NullSqe]: the entry
    of the timer is written through a null pointer for the same reason;
    [NoContext]: [assert(this_thread_context)]; [NoContinuation]:
    [assert(continuation.address())]; [Dangling]: a completion whose awaiter is
    not alive; [Stuck]: a loop bound of the model was too small. *)
Inductive crash := NoSqe | NullSqe | NoContext | NoContinuation | Dangling | Stuck.

(** ** Bodies *)

Inductive prog :=
| Return
| Raise
| Effect (n : nat) (k : prog)
| Post (f : prog) (k : prog)
| Dispatch (f : prog) (k : prog)
| CoSpawn (a : prog) (k : prog)
| Schedule (k : prog)
| AwaitIo (op : nat) (k : Z -> Z -> prog)
| RequestStop (k : prog).

(** ** liburing *)

(** A prepared entry: the operation and [user_data], [None] being [nullptr]. *)
Record sqe := mk_sqe { sqe_op : nat; sqe_data : option nat }.
Record cqe := mk_cqe { cqe_res : Z; cqe_flags : Z; cqe_data : option nat }.

(** [sq_push] is [io_uring_get_sqe] with the entry filled in ([None]: the queue
    is full); [cq_pop] is the head of the completion queue and
    [io_uring_cqe_seen] on it; [kernel] is the kernel's own progress. *)
Class Uring (ring : Type) := {
  sq_push : sqe -> ring -> option ring;
  uring_submit : ring -> ring;
  cq_ready : ring -> nat;
  cq_pop : ring -> option (cqe * ring);
  kernel : nat -> ring -> ring;
  owned : ring -> list (option nat)
}.

(** [owned r] lists the [user_data] of the entries that have been prepared and
    whose completion has not been seen: every entry gets one completion. *)
Class UringLaws (ring : Type) `{!Uring ring} := {
  sq_push_owned e r r' : sq_push e r = Some r' -> owned r' ≡ₚ sqe_data e :: owned r;
  sq_push_ready e r r' : sq_push e r = Some r' -> cq_ready r' = cq_ready r;
  submit_owned r : owned (uring_submit r) ≡ₚ owned r;
  kernel_owned n r : owned (kernel n r) ≡ₚ owned r;
  cq_pop_owned r c r' : cq_pop r = Some (c, r') -> owned r ≡ₚ cqe_data c :: owned r';
  cq_pop_ready r c r' : cq_pop r = Some (c, r') -> cq_ready r = S (cq_ready r');
  cq_pop_none r : cq_pop r = None -> cq_ready r = 0
}.

(** ** The context *)

(** [async_result], the part of an awaiter the loop works on. *)
Record async_result := mk_async {
  res : Z; flag : Z; continuation : option (Z -> Z -> prog)
}.

Definition set_result (r f : Z) (a : async_result) : async_result :=
  mk_async r f (continuation a).
Definition set_continuation (k : Z -> Z -> prog) (a : async_result) : async_result :=
  mk_async (res a) (flag a) (Some k).

Inductive queue_id := RemoteTasks | RemoteSpawn | LocalTasks.
#[export] Instance queue_id_eq_dec : EqDecision queue_id.
Proof. solve_decision. Defined.

Inductive event :=
| Did (n : nat)
| Pushed (q : queue_id) (t : prog)
| Started (q : queue_id) (t : prog)
| Resumed (id : nat).

Section context.
Context {ring : Type} `{!Uring ring}.

(** [awaiters] are the [async_result]s alive in suspended coroutine frames,
    by address; [next_id] is an address not yet used; [posting] is what the
    threads inside [emplace_back] on [m_remote_tasks] have read of it. *)
Record io_context := mk_ctx {
  m_ring : ring;
  m_remote_tasks : list prog;
  m_remote_spawn : list prog;
  m_local_tasks : list prog;
  m_is_stopped : bool;
  awaiters : gmap nat async_result;
  next_id : nat;
  posting : gmap nat (list prog);
  trace : list event
}.

Definition with_ring (r : ring) (c : io_context) : io_context :=
  mk_ctx r (m_remote_tasks c) (m_remote_spawn c) (m_local_tasks c) (m_is_stopped c)
    (awaiters c) (next_id c) (posting c) (trace c).
Definition with_remote_tasks (l : list prog) (c : io_context) : io_context :=
  mk_ctx (m_ring c) l (m_remote_spawn c) (m_local_tasks c) (m_is_stopped c)
    (awaiters c) (next_id c) (posting c) (trace c).
Definition with_remote_spawn (l : list prog) (c : io_context) : io_context :=
  mk_ctx (m_ring c) (m_remote_tasks c) l (m_local_tasks c) (m_is_stopped c)
    (awaiters c) (next_id c) (posting c) (trace c).
Definition with_local_tasks (l : list prog) (c : io_context) : io_context :=
  mk_ctx (m_ring c) (m_remote_tasks c) (m_remote_spawn c) l (m_is_stopped c)
    (awaiters c) (next_id c) (posting c) (trace c).
Definition with_stopped (b : bool) (c : io_context) : io_context :=
  mk_ctx (m_ring c) (m_remote_tasks c) (m_remote_spawn c) (m_local_tasks c) b
    (awaiters c) (next_id c) (posting c) (trace c).
Definition with_awaiters (m : gmap nat async_result) (n : nat) (c : io_context) : io_context :=
  mk_ctx (m_ring c) (m_remote_tasks c) (m_remote_spawn c) (m_local_tasks c) (m_is_stopped c)
    m n (posting c) (trace c).
Definition with_posting (m : gmap nat (list prog)) (c : io_context) : io_context :=
  mk_ctx (m_ring c) (m_remote_tasks c) (m_remote_spawn c) (m_local_tasks c) (m_is_stopped c)
    (awaiters c) (next_id c) m (trace c).
Definition log (e : event) (c : io_context) : io_context :=
  mk_ctx (m_ring c) (m_remote_tasks c) (m_remote_spawn c) (m_local_tasks c) (m_is_stopped c)
    (awaiters c) (next_id c) (posting c) (trace c ++ [e]).

Definition queue (q : queue_id) (c : io_context) : list prog :=
  match q with
  | RemoteTasks => m_remote_tasks c
  | RemoteSpawn => m_remote_spawn c
  | LocalTasks => m_local_tasks c
  end.

Definition with_queue (q : queue_id) (l : list prog) (c : io_context) : io_context :=
  match q with
  | RemoteTasks => with_remote_tasks l c
  | RemoteSpawn => with_remote_spawn l c
  | LocalTasks => with_local_tasks l c
  end.

(** [emplace_back] on a queue *)
Definition push (q : queue_id) (t : prog) (c : io_context) : io_context :=
  log (Pushed q t) (with_queue q (queue q c ++ [t]) c).

Definition request_stop (c : io_context) : io_context := with_stopped true c.

(** [emplace_back] on [m_remote_tasks] by thread [i], without the lock: the
    container is read, and written back with the task. *)
Definition post_begin (i : nat) (c : io_context) : io_context :=
  with_posting (<[i := m_remote_tasks c]> (posting c)) c.
Definition post_end (i : nat) (f : prog) (c : io_context) : io_context :=
  match posting c !! i with
  | None => c
  | Some l => log (Pushed RemoteTasks f) (with_remote_tasks (l ++ [f]) (with_posting (delete i (posting c)) c))
  end.

(** A body on another thread is thread 0. *)
Definition post (local : bool) (f : prog) (c : io_context) : io_context :=
  if negb local then post_end 0 f (post_begin 0 c) else push LocalTasks f c.

(** ** Outcomes *)

(** [Escape c]: an exception leaves the code that runs, in context [c]. *)
Inductive outcome (A : Type) :=
| Ok (a : A)
| Crash (e : crash)
| Escape (c : io_context).

Definition or_crash {A} (e : crash) (m : option A) : outcome A :=
  match m with Some a => Ok _ a | None => Crash _ e end.

(** The promise of a coroutine keeps the exception of its body. *)
Definition swallow (m : outcome io_context) : outcome io_context :=
  match m with Escape _ c => Ok _ c | m => m end.
End context.

Arguments Ok {ring A} a.
Arguments Crash {ring A} e.
Arguments Escape {ring A} c.

#[export] Instance outcome_bind {ring} : MBind (outcome (ring := ring)) := fun A B f m =>
  match m with Ok a => f a | Crash e => Crash e | Escape c => Escape c end.

Section context.
Context {ring : Type} `{!Uring ring}.
Local Abbreviation io_context := (io_context (ring := ring)).
Local Abbreviation outcome := (outcome (ring := ring)).
Implicit Types c : io_context.

(** [io_awaiter::await_suspend]: current context, entry, continuation. *)
Definition await_suspend (local : bool) (op : nat) (k : Z -> Z -> prog) (c : io_context)
  : outcome io_context :=
  if negb local then Crash NoContext
  else
    r ← or_crash NoSqe (sq_push (mk_sqe op (Some (next_id c))) (m_ring c));
    Ok (with_awaiters (<[next_id c := set_continuation k (mk_async 0 0 None)]> (awaiters c))
            (S (next_id c)) (with_ring r c)).

(** Running a body on a thread of the context ([local]) or another one.  A task
    that is dispatched throws into its caller; a coroutine does not. *)
Fixpoint exec (local : bool) (p : prog) (c : io_context) : outcome io_context :=
  match p with
  | Return => Ok c
  | Raise => Escape c
  | Effect n k => exec local k (log (Did n) c)
  | Post f k => exec local k (post local f c)
  | Dispatch f k =>
      c ← (if negb local then Ok (post local f c) else exec local f c);
      exec local k c
  | CoSpawn a k =>
      c ← (if local then swallow (exec local a c) else Ok (push RemoteSpawn a c));
      exec local k c
  | Schedule k => if local then exec local k c else Ok (post local (CoSpawn k Return) c)
  | AwaitIo op k => await_suspend local op k c
  | RequestStop k => exec local k (request_stop c)
  end.

Definition dispatch (local : bool) (f : prog) (c : io_context) : outcome io_context :=
  if negb local then Ok (post local f c) else exec local f c.

Definition co_spawn (local : bool) (a : prog) (c : io_context) : outcome io_context :=
  if local then swallow (exec local a c) else Ok (push RemoteSpawn a c).

(** [result->resume()]: the coroutine takes the result and its awaiter dies. *)
Definition resume (id : nat) (a : async_result) (c : io_context) : outcome io_context :=
  match continuation a with
  | None => Crash NoContinuation
  | Some k => swallow (exec true (k (res a) (flag a))
                (log (Resumed id) (with_awaiters (delete id (awaiters c)) (next_id c) c)))
  end.

(** The handler of one completion; a dangling address has no meaning. *)
Definition on_cqe (e : cqe) (c : io_context) : outcome io_context :=
  match cqe_data e with
  | None => Ok c
  | Some id =>
      a ← or_crash Dangling (awaiters c !! id);
      resume id (set_result (cqe_res e) (cqe_flags e) a) c
  end.

Fixpoint for_each_cqe (fuel : nat) (c : io_context) : outcome io_context :=
  match cq_pop (m_ring c) with
  | None => Ok c
  | Some (e, r) =>
      match fuel with
      | O => Crash Stuck
      | S fuel => c ← on_cqe e (with_ring r c); for_each_cqe fuel c
      end
  end.

(** [for (auto &task : tasks) task();], or [t.start()] for the coroutines, whose
    exceptions do not come out of them.  When a task throws, [tasks] dies with
    the tasks that are left. *)
Fixpoint run_all (q : queue_id) (ts : list prog) (c : io_context) : outcome io_context :=
  match ts with
  | [] => Ok c
  | t :: ts =>
      let m := exec true t (log (Started q t) c) in
      c ← (if decide (q = RemoteSpawn) then swallow m else m);
      run_all q ts c
  end.

(** ** Other threads *)

(** The two steps of [post] and [dispatch] on thread [i], [co_spawn] under the
    lock, [request_stop]. *)
Inductive remote_call :=
| RPostBegin (i : nat)
| RPostEnd (i : nat) (f : prog)
| RSpawn (a : prog)
| RStop.

Definition call (r : remote_call) (c : io_context) : io_context :=
  match r with
  | RPostBegin i => post_begin i c
  | RPostEnd i f => post_end i f c
  | RSpawn a => push RemoteSpawn a c
  | RStop => request_stop c
  end.

Definition calls (rs : list remote_call) (c : io_context) : io_context :=
  fold_left (fun c r => call r c) rs c.

(** The three [resolve_] functions: test, swap the queue out, run it.  [rs] are
    the calls other threads make between the test and the swap; [m_local_tasks]
    is only touched by the context's own thread. *)
Definition resolve (q : queue_id) (rs : list remote_call) (c : io_context)
  : outcome (nat * io_context) :=
  match queue q c with
  | [] => Ok (0, calls rs c)
  | _ =>
      let c := calls rs c in
      let tasks := queue q c in
      c ← run_all q tasks (with_queue q [] c);
      Ok (length tasks, c)
  end.

Definition resolve_remote_coroutine := resolve RemoteSpawn.
Definition resolve_remote_task := resolve RemoteTasks.
Definition resolve_local_task := resolve LocalTasks [].

(** What the rest of the system does during one turn. *)
Record turn := mk_turn {
  t_kernel : nat;
  t_before : list remote_call;
  t_at_spawn : list remote_call;
  t_between : list remote_call;
  t_at_task : list remote_call;
  t_after : list remote_call;
  t_token : bool
}.

(** A post that nothing comes in between of. *)
Definition remote_post (i : nat) (f : prog) : list remote_call := [RPostBegin i; RPostEnd i f].

(** No post overlaps anything else. *)
Fixpoint serial (rs : list remote_call) : bool :=
  match rs with
  | [] => true
  | RPostBegin i :: rs => match rs with RPostEnd j _ :: rs => (i =? j)%nat && serial rs | _ => false end
  | RPostEnd _ _ :: _ => false
  | _ :: rs => serial rs
  end.

Definition turn_calls (t : turn) : list remote_call :=
  t_before t ++ t_at_spawn t ++ t_between t ++ t_at_task t ++ t_after t.
Definition serial_turn (t : turn) : bool :=
  serial (t_before t) && serial (t_at_spawn t) && serial (t_between t) && serial (t_at_task t) && serial (t_after t).

Definition run_once (t : turn) (c : io_context) : outcome (nat * io_context) :=
  let cnt := cq_ready (m_ring c) in
  let c := with_ring (kernel (t_kernel t) (m_ring c)) c in
  c ← for_each_cqe (cq_ready (m_ring c)) c;
  '(n1, c) ← resolve_remote_coroutine (t_at_spawn t) (calls (t_before t) c);
  '(n2, c) ← resolve_remote_task (t_at_task t) (calls (t_between t) c);
  '(n3, c) ← resolve_local_task (calls (t_after t) c);
  Ok (cnt + n1 + n2 + n3, c).

(** The operation number of the 1 ms timer. *)
Definition timer_op : nat := 0.

Definition nonpoll_submit (c : io_context) : outcome io_context :=
  r ← or_crash NullSqe (sq_push (mk_sqe timer_op None) (m_ring c));
  Ok (with_ring (uring_submit r) c).

(** [poll_submit]; [empty_cnt] is its thread-local counter, and the boolean
    says whether it yielded. *)
Definition poll_submit (empty_cnt cnt : nat) (c : io_context) : io_context * nat * bool :=
  let c := with_ring (uring_submit (m_ring c)) c in
  if negb (cnt =? 0)%nat then (c, 0, false)
  else if (S empty_cnt =? 64)%nat then (c, 0, true)
  else (c, S empty_cnt, false).

(** ** Binding and the loop *)

Inductive logic_error := NotBound | OtherContext | OtherThread.

(** [assert_bind]: [ttc] is [this_thread_context], contexts and threads are
    numbered. *)
Definition assert_bind (self : nat) (ttc : option nat) (m_thid this_thid : nat)
  : option logic_error :=
  match ttc with
  | None => Some NotBound
  | Some x =>
      if negb (x =? self)%nat then Some OtherContext
      else if negb (m_thid =? this_thid)%nat then Some OtherThread
      else None
  end.

(** The argument [f] of [loop]: from the count and the thread-local
    [empty_cnt], submit. *)
Definition submitter := nat -> nat -> io_context -> outcome (nat * io_context).

Definition run_submit : submitter := fun _ ec c => c ← nonpoll_submit c; Ok (ec, c).
Definition poll_submit_fn : submitter := fun cnt ec c =>
  let '(c, ec, _) := poll_submit ec cnt c in Ok (ec, c).

(** [while (!m_is_stopped && !token.stop_requested())] over the turns [ts] the
    environment offers; [true]: the loop has returned.  A loop without token
    sees [t_token = false]. *)
Fixpoint turns (f : submitter) (ts : list turn) (ec : nat) (c : io_context)
  : outcome (bool * io_context) :=
  if m_is_stopped c then Ok (true, c)
  else match ts with
       | [] => Ok (false, c)
       | t :: ts =>
           if t_token t then Ok (true, c)
           else
             '(cnt, c) ← run_once t c;
             '(ec, c) ← f cnt ec c;
             turns f ts ec c
       end.

Inductive loop_result :=
| Threw (e : logic_error)
| Ran (returned : bool) (c : io_context)
| Escaped (c : io_context)
| Aborted (e : crash).

Definition loop (f : submitter) (bound : option logic_error) (ts : list turn) (ec : nat)
    (c : io_context) : loop_result :=
  let c := with_stopped false c in
  match bound with
  | Some e => Threw e
  | None =>
      match turns f ts ec c with
      | Ok (b, c) => Ran b c
      | Crash e => Aborted e
      | Escape c => Escaped c
      end
  end.

(** [run()] and [poll()] *)
Definition run := loop run_submit.
Definition poll := loop poll_submit_fn.

(** ** Histories *)

Definition pushed (q : queue_id) (tr : list event) : list prog :=
  omap (fun e => match e with Pushed q' t => if decide (q = q') then Some t else None
                            | _ => None end) tr.
Definition started (q : queue_id) (tr : list event) : list prog :=
  omap (fun e => match e with Started q' t => if decide (q = q') then Some t else None
                            | _ => None end) tr.
Definition resumed (tr : list event) : list nat :=
  omap (fun e => match e with Resumed id => Some id | _ => None end) tr.

(** Every queue is first-in first-out: what was pushed is what was started,
    then what is [held] (swapped out, not started yet), then what is queued. *)
Definition fifo (held : queue_id -> list prog) (c : io_context) : Prop :=
  forall q, pushed q (trace c) = started q (trace c) ++ held q ++ queue q c.

Definition none_held : queue_id -> list prog := fun _ => [].

(** The ring and the suspended coroutines agree: the outstanding entries are
    those of the live awaiters, each of which has a coroutine to resume, and no
    awaiter is resumed twice. *)
Record awaiters_ok (c : io_context) : Prop := {
  ao_owned : omap id (owned (m_ring c)) ≡ₚ (map_to_list (awaiters c)).*1;
  ao_next : forall i, i ∈ resumed (trace c) \/ is_Some (awaiters c !! i) -> i < next_id c;
  ao_cont : forall i a, awaiters c !! i = Some a -> is_Some (continuation a);
  ao_once : NoDup (resumed (trace c));
  ao_dead : forall i, i ∈ resumed (trace c) -> awaiters c !! i = None
}.

(** ** What a body can do *)

Inductive atom (local : bool) (c : io_context) : io_context -> Prop :=
| atom_did n : atom local c (log (Did n) c)
| atom_push q t :
    (local = true -> q = LocalTasks) -> (local = false -> q <> LocalTasks) ->
    atom local c (push q t c)
| atom_stop : atom local c (request_stop c)
| atom_await op k r :
    local = true -> sq_push (mk_sqe op (Some (next_id c))) (m_ring c) = Some r ->
    atom local c
      (with_awaiters (<[next_id c := set_continuation k (mk_async 0 0 None)]> (awaiters c))
         (S (next_id c)) (with_ring r c))
| atom_posting m : local = false -> atom local c (with_posting m c).

(** An outcome is [ok] when it satisfies [Q], or its exception [X], or the
    submission queue is full. *)
Definition ok {A} (X : io_context -> Prop) (Q : A -> Prop) (m : outcome A) : Prop :=
  match m with Ok a => Q a | Crash e => e = NoSqe | Escape c => X c end.

Lemma ok_bind {A B} (X Y : io_context -> Prop) (P : A -> Prop) (Q : B -> Prop) (m : outcome A)
    (f : A -> outcome B) :
  ok X P m -> (forall c, X c -> Y c) -> (forall a, P a -> ok Y Q (f a)) -> ok Y Q (m ≫= f).
Proof. destruct m; simpl; auto. Qed.

Lemma ok_mono {A} (X Y : io_context -> Prop) (P Q : A -> Prop) m :
  ok X P m -> (forall c, X c -> Y c) -> (forall a, P a -> Q a) -> ok Y Q m.
Proof. destruct m; simpl; auto. Qed.

(** No exception. *)
Definition never (c : io_context) : Prop := False.

Lemma ok_swallow (X : io_context -> Prop) m : ok X X m -> ok never X (swallow m).
Proof. by destruct m. Qed.

Lemma exec_atoms p c : ok (rtc (atom true) c) (rtc (atom true) c) (exec true p c).
Proof.
  revert c.
  assert (H1 : forall c c1 (m : outcome io_context), rtc (atom true) c c1 ->
    ok (rtc (atom true) c1) (rtc (atom true) c1) m -> ok (rtc (atom true) c) (rtc (atom true) c) m).
  { intros c c1 m Ha Hm. eapply ok_mono; [exact Hm | |]; intros a; by etrans. }
  induction p as [| | n k IH | f IHf k IH | f IHf k IH | f IHf k IH | k IH | op k IH | k IH];
    intros c; cbn [exec negb].
  - simpl. reflexivity.
  - simpl. reflexivity.
  - eapply H1; [apply rtc_once; constructor | apply IH].
  - eapply H1; [apply rtc_once; by constructor | apply IH].
  - eapply ok_bind; [apply IHf | done |]. intros c1 R. by eapply H1.
  - eapply ok_bind; [apply ok_swallow, IHf | done |]. intros c1 R. by eapply H1.
  - apply IH.
  - unfold await_suspend. simpl. destruct (sq_push _ _) as [r|] eqn:E; simpl; [|done].
    apply rtc_once. by apply (atom_await true c op k r).
  - eapply H1; [apply rtc_once; constructor | apply IH].
Qed.

(** A post that nothing comes in between of is one push. *)
Lemma remote_post_pushes i f c :
  calls (remote_post i f) c
  = push RemoteTasks f (with_posting (delete i (<[i := m_remote_tasks c]> (posting c))) c).
Proof. unfold calls. simpl. unfold post_end. simpl. by rewrite lookup_insert_eq. Qed.

Lemma calls_atoms rs c : serial rs = true -> rtc (atom false) c (calls rs c).
Proof.
  remember (length rs) as n eqn:Hn. revert rs c Hn.
  induction (lt_wf n) as [n _ IH]. intros rs c -> S.
  destruct rs as [|[i|i f|a|] rs]; [reflexivity | | done | |].
  - destruct rs as [|[|j f| |] rs]; try done. simpl in S. apply andb_true_iff in S as [E S].
    apply Nat.eqb_eq in E as <-. unfold calls. change (RPostBegin i :: RPostEnd i f :: rs) with (remote_post i f ++ rs).
    rewrite fold_left_app. fold (calls (remote_post i f) c). rewrite remote_post_pushes.
    eapply rtc_l; [by apply atom_posting|]. eapply rtc_l; [by apply (atom_push false _ RemoteTasks f)|].
    eapply IH; [|done | done]. simpl. lia.
  - change (calls (RSpawn a :: rs) c) with (calls rs (push RemoteSpawn a c)).
    eapply rtc_l; [by apply (atom_push false c RemoteSpawn a)|]. eapply IH; [|done | done]. simpl. lia.
  - change (calls (RStop :: rs) c) with (calls rs (request_stop c)).
    eapply rtc_l; [by apply (atom_stop false c)|]. eapply IH; [|done | done]. simpl. lia.
Qed.

(** ** Invariants of the atomic changes *)

Lemma queue_with_queue q q' l c :
  queue q (with_queue q' l c) = if decide (q = q') then l else queue q c.
Proof. by destruct q, q'. Qed.

Lemma trace_with_queue q l c : trace (with_queue q l c) = trace c.
Proof. by destruct q. Qed.

Lemma queue_log q e c : queue q (log e c) = queue q c.
Proof. by destruct q. Qed.

Lemma pushed_snoc q tr e :
  pushed q (tr ++ [e]) = pushed q tr ++ match e with
    Pushed q' t => if decide (q = q') then [t] else [] | _ => [] end.
Proof. unfold pushed. rewrite omap_app. simpl. destruct e; simpl; try case_decide; done. Qed.

Lemma started_snoc q tr e :
  started q (tr ++ [e]) = started q tr ++ match e with
    Started q' t => if decide (q = q') then [t] else [] | _ => [] end.
Proof. unfold started. rewrite omap_app. simpl. destruct e; simpl; try case_decide; done. Qed.

Lemma resumed_snoc tr e :
  resumed (tr ++ [e]) = resumed tr ++ match e with Resumed i => [i] | _ => [] end.
Proof. unfold resumed. rewrite omap_app. by destruct e. Qed.

(** Queues only grow at the back and nothing is started. *)
Definition grows (q : queue_id) (c c' : io_context) : Prop :=
  started q (trace c') = started q (trace c) /\ exists l, queue q c' = queue q c ++ l.

Lemma atom_grows local q c c' : atom local c c' -> grows q c c'.
Proof.
  intros H. destruct H; unfold grows.
  - rewrite queue_log. cbn [trace log]. rewrite started_snoc, app_nil_r.
    split; [done|]. exists []. by rewrite app_nil_r.
  - unfold push. rewrite queue_log, queue_with_queue. cbn [trace log].
    rewrite trace_with_queue, started_snoc, app_nil_r. split; [done|].
    case_decide; subst; [by exists [t] | exists []; by rewrite app_nil_r].
  - split; [done|]. exists []. by destruct q; rewrite app_nil_r.
  - split; [done|]. exists []. by destruct q; rewrite app_nil_r.
  - split; [done|]. exists []. by destruct q; rewrite app_nil_r.
Qed.

Lemma grows_refl q c : grows q c c.
Proof. split; [done|]. exists []. by rewrite app_nil_r. Qed.

Lemma grows_trans q c1 c2 c3 : grows q c1 c2 -> grows q c2 c3 -> grows q c1 c3.
Proof.
  intros [S1 [l1 Q1]] [S2 [l2 Q2]]. split; [congruence|].
  exists (l1 ++ l2). by rewrite Q2, Q1, app_assoc.
Qed.

Lemma atoms_grow local q c c' : rtc (atom local) c c' -> grows q c c'.
Proof.
  induction 1; [apply grows_refl|]. eapply grows_trans; [by eapply atom_grows | done].
Qed.

Lemma atom_fifo local held c c' : atom local c c' -> fifo held c -> fifo held c'.
Proof.
  intros H F q. specialize (F q). destruct H.
  - rewrite queue_log. cbn [trace log]. by rewrite pushed_snoc, started_snoc, !app_nil_r.
  - unfold push. rewrite queue_log, queue_with_queue. cbn [trace log].
    rewrite trace_with_queue, pushed_snoc, started_snoc, app_nil_r, F.
    case_decide; subst; [by rewrite <- !app_assoc | by rewrite app_nil_r].
  - by destruct q.
  - by destruct q.
  - by destruct q.
Qed.

Lemma atoms_fifo local held c c' : rtc (atom local) c c' -> fifo held c -> fifo held c'.
Proof. induction 1; [done|]. intros F. by eapply IHrtc, atom_fifo. Qed.


(** ** The invariants over a turn *)

Context `{!UringLaws ring}.

Lemma atom_awaiters local c c' : atom local c c' -> awaiters_ok c -> awaiters_ok c'.
Proof.
  intros H [Ho Hn Hc H1 Hd]. destruct H as [n | q t _ _ | | op k r _ Hr |]; [| | | | by split].
  - split; cbn [m_ring awaiters next_id trace log]; rewrite ?resumed_snoc, ?app_nil_r; done.
  - unfold push. destruct q; split; cbn [m_ring awaiters next_id trace log with_queue
      with_remote_tasks with_remote_spawn with_local_tasks];
      rewrite ?resumed_snoc, ?app_nil_r; done.
  - by split.
  - assert (Hf : awaiters c !! next_id c = None).
    { apply eq_None_not_Some. intros Hs. specialize (Hn _ (or_intror Hs)). lia. }
    split; cbn [m_ring awaiters next_id trace with_awaiters with_ring].
    + rewrite (sq_push_owned _ _ _ Hr), map_to_list_insert by done. simpl. by rewrite Ho.
    + intros i [Hi | Hi]; [specialize (Hn i (or_introl Hi)); lia|].
      destruct (decide (i = next_id c)) as [->|Hne]; [lia|].
      rewrite lookup_insert_ne in Hi by done. specialize (Hn i (or_intror Hi)). lia.
    + intros i a. destruct (decide (i = next_id c)) as [->|Hne].
      * rewrite lookup_insert_eq. intros [= <-]. by eexists.
      * rewrite lookup_insert_ne by done. apply Hc.
    + done.
    + intros i Hi. specialize (Hn i (or_introl Hi)).
      rewrite lookup_insert_ne by lia. by apply Hd.
Qed.

Lemma atoms_awaiters local c c' : rtc (atom local) c c' -> awaiters_ok c -> awaiters_ok c'.
Proof. induction 1; [done|]. intros F. by eapply IHrtc, atom_awaiters. Qed.

Lemma atoms_ready c c' : rtc (atom true) c c' -> cq_ready (m_ring c') = cq_ready (m_ring c).
Proof.
  induction 1 as [|c1 c2 c3 H _ IH]; [done|]. rewrite IH.
  destruct H as [| q t _ _ | | op k r _ Hr |]; [done | by destruct q | done | | done].
  simpl. by eapply sq_push_ready.
Qed.

(** Both invariants, with some tasks in hand. *)
Definition inv (held : queue_id -> list prog) (c : io_context) : Prop :=
  fifo held c /\ awaiters_ok c.

Lemma atoms_inv local held c c' : rtc (atom local) c c' -> inv held c -> inv held c'.
Proof. intros H [F A]. split; [by eapply atoms_fifo | by eapply atoms_awaiters]. Qed.

Lemma exec_inv held p c :
  inv held c ->
  ok (fun c' => inv held c' /\ rtc (atom true) c c') (fun c' => inv held c' /\ rtc (atom true) c c') (exec true p c).
Proof.
  intros I. eapply ok_mono; [apply exec_atoms | |]; intros c' R; (split; [by eapply atoms_inv | done]).
Qed.

(** What happened to queue [q] between two states: [l] was started, and nothing
    was taken from it otherwise. *)
Definition took (q : queue_id) (l : list prog) (c c' : io_context) : Prop :=
  started q (trace c') = started q (trace c) ++ l.

Definition just_held (q : queue_id) (l : list prog) : queue_id -> list prog :=
  fun q' => if decide (q' = q) then l else [].

Lemma log_started_inv q t ts c :
  inv (just_held q (t :: ts)) c -> inv (just_held q ts) (log (Started q t) c).
Proof.
  intros [F [Ho Hn Hc H1 Hd]]. split.
  - intros q'. specialize (F q'). unfold just_held in *. rewrite queue_log. cbn [trace log].
    rewrite pushed_snoc, started_snoc, app_nil_r, F. case_decide; [|by rewrite app_nil_r].
    by rewrite <- !app_assoc.
  - split; cbn [m_ring awaiters next_id trace log]; rewrite ?resumed_snoc, ?app_nil_r; done.
Qed.

(** Between two states [l] was started from [q] and nothing from the other
    queues, which only grew, and only the local one if it is not [q]. *)
Definition ran (q : queue_id) (l : list prog) (c c' : io_context) : Prop :=
  (forall q', took q' (if decide (q' = q) then l else []) c c') /\
  (forall q', exists l, queue q' c' = queue q' c ++ l).

(** Task [t] of the batch [ts] threw, and what came after it is lost. *)
Definition threw (q : queue_id) (ts : list prog) (c c' : io_context) : Prop :=
  q <> RemoteSpawn /\ exists done t lost c1,
    ts = done ++ t :: lost /\ exec true t c1 = Escape c' /\ inv (just_held q lost) c' /\ ran q (done ++ [t]) c c'.

Lemma ran_nil q c : ran q [] c c.
Proof.
  split; intros q'; [unfold took; case_decide; by rewrite app_nil_r | exists []; by rewrite app_nil_r].
Qed.

Lemma ran_cons q t ts c c1 c2 :
  rtc (atom true) (log (Started q t) c) c1 -> ran q ts c1 c2 -> ran q (t :: ts) c c2.
Proof.
  intros R [T G]. split; intros q'; destruct (atoms_grow _ q' _ _ R) as [S1 [l1 Q1]].
  - specialize (T q'). unfold took in *. rewrite T, S1. cbn [trace log]. rewrite started_snoc.
    case_decide; [by rewrite <- app_assoc | by rewrite !app_nil_r].
  - destruct (G q') as [l ->]. rewrite Q1, queue_log. exists (l1 ++ l). by rewrite app_assoc.
Qed.

Lemma run_all_ok q ts c :
  inv (just_held q ts) c -> ok (threw q ts c) (fun c' => inv none_held c' /\ ran q ts c c') (run_all q ts c).
Proof.
  revert c. induction ts as [|t ts IH]; intros c I.
  - simpl. split; [|apply ran_nil]. destruct I as [F A]. split; [|done]. intros q'. rewrite (F q').
    unfold just_held. by case_decide.
  - cbn [run_all]. pose proof (exec_inv _ t _ (log_started_inv _ _ _ _ I)) as E.
    assert (Next : forall c1, inv (just_held q ts) c1 /\ rtc (atom true) (log (Started q t) c) c1 ->
      ok (threw q (t :: ts) c) (fun c' => inv none_held c' /\ ran q (t :: ts) c c') (run_all q ts c1)).
    { intros c1 [I1 R1]. eapply ok_mono; [apply IH, I1 | |].
      - intros c2 (Nq & dn & t' & lost & c3 & -> & Et & I2 & Rn). split; [done|].
        exists (t :: dn), t', lost, c3. split_and!; try done. by eapply ran_cons.
      - intros c2 [I2 Rn]. split; [done | by eapply ran_cons]. }
    destruct (decide (q = RemoteSpawn)) as [Eq|Nq].
    + eapply ok_bind; [apply ok_swallow, E | by intros ? [] | exact Next].
    + eapply (ok_bind (fun c' => threw q (t :: ts) c c')); [|done | exact Next].
      destruct (exec true t _) as [c1| |c1] eqn:Et; [done | done |]. destruct E as [I1 R1]. split; [done|].
      exists [], t, ts, (log (Started q t) c). split_and!; try done. eapply ran_cons; [exact R1 | apply ran_nil].
Qed.

(** Completions: every awaiter a completion names is alive. *)
Lemma on_cqe_inv e r c :
  inv none_held c -> cq_pop (m_ring c) = Some (e, r) ->
  ok never (fun c' => inv none_held c' /\ (forall q, grows q c c') /\ cq_ready (m_ring c') = cq_ready r)
    (on_cqe e (with_ring r c)).
Proof.
  intros [F [Ho Hn Hc H1 Hd]] Hp. pose proof (cq_pop_owned _ _ _ Hp) as Hown.
  rewrite Hown in Ho. unfold on_cqe. destruct (cqe_data e) as [i|]; simpl in Ho.
  2: { split_and!; [|intros q; split; [done|exists []; by destruct q; rewrite app_nil_r]
                    |done].
       split; [intros q; specialize (F q); by destruct q | by split]. }
  assert (Hi : i ∈ (map_to_list (awaiters c)).*1) by (rewrite <- Ho; left).
  apply list_elem_of_fmap in Hi as [[i' a] [-> Ha%elem_of_map_to_list]]. simpl in *.
  change (awaiters (with_ring r c)) with (awaiters c). rewrite Ha. simpl.
  destruct (Hc _ _ Ha) as [k Hk]. unfold resume. cbn [continuation set_result]. rewrite Hk.
  set (c1 := log _ _).
  assert (I1 : inv none_held c1).
  { split.
    - intros q. specialize (F q). unfold c1. rewrite queue_log. cbn [trace log].
      rewrite pushed_snoc, started_snoc, !app_nil_r. by destruct q.
    - unfold c1. split; cbn [m_ring awaiters next_id trace log with_awaiters with_ring];
        rewrite ?resumed_snoc.
      + rewrite <- (map_to_list_delete _ _ _ Ha) in Ho. simpl in Ho. by apply Permutation.Permutation_cons_inv in Ho.
      + intros j [Hj | Hj].
        * apply elem_of_app in Hj as [Hj | Hj%list_elem_of_singleton]; [auto|].
          subst j. apply Hn. right. by eexists.
        * destruct Hj as [b Hb%lookup_delete_Some]. apply Hn. right. exists b. by apply Hb.
      + intros j b Hb%lookup_delete_Some. by eapply Hc, Hb.
      + apply NoDup_app. split_and!; [done | | apply NoDup_singleton].
        intros j Hj ->%list_elem_of_singleton. specialize (Hd _ Hj). congruence.
      + intros j [Hj | ->%list_elem_of_singleton]%elem_of_app;
          [apply lookup_delete_None; auto | apply lookup_delete_eq]. }
  eapply ok_mono; [apply ok_swallow, (exec_inv _ _ _ I1) | done |]. intros c2 [I2 R2].
  assert (G1 : forall q, grows q c c1).
  { intros q. split; [unfold c1; cbn [trace log]; by rewrite started_snoc, app_nil_r|].
    exists []. unfold c1. rewrite queue_log, app_nil_r. by destruct q. }
  split_and!; [done | | by rewrite (atoms_ready _ _ R2)].
  intros q. eapply grows_trans; [apply G1 | by eapply atoms_grow].
Qed.


Lemma for_each_cqe_ok fuel c :
  inv none_held c -> cq_ready (m_ring c) <= fuel ->
  ok never (fun c' => inv none_held c' /\ (forall q, grows q c c')) (for_each_cqe fuel c).
Proof.
  revert c. induction fuel as [|fuel IH]; intros c I Hf; cbn [for_each_cqe];
    (destruct (cq_pop (m_ring c)) as [[e r]|] eqn:E;
       [|split; [done | intros q; apply grows_refl]]);
    pose proof (cq_pop_ready _ _ _ E) as Hr; [lia|].
  eapply ok_bind; [apply (on_cqe_inv e r c I E) | done |]. intros c1 (I1 & G1 & R1).
  eapply ok_mono; [apply (IH c1 I1); lia | done |]. intros c2 [I2 G2].
  split; [done|]. intros q. by eapply grows_trans.
Qed.

(** What a phase of the turn does to the queues: [q] is emptied, up to calls
    that come after, and the other two only grow. *)
Lemma swap_inv q c : inv none_held c -> inv (just_held q (queue q c)) (with_queue q [] c).
Proof.
  intros [F [Ho Hn Hc H1 Hd]]. split.
  - intros q'. specialize (F q'). unfold just_held, none_held in *.
    rewrite trace_with_queue, queue_with_queue, F. case_decide; [|done].
    subst. by rewrite app_nil_r.
  - destruct q; by split.
Qed.

(** A task of queue [q] threw, after those before it and others that came in the
    meantime. *)
Definition cut (q : queue_id) (c c' : io_context) : Prop :=
  q <> RemoteSpawn /\ exists more done t lost c1,
    queue q c ++ more = done ++ t :: lost /\ exec true t c1 = Escape c' /\ inv (just_held q lost) c' /\
    took q (done ++ [t]) c c'.

Lemma resolve_ok q rs c :
  inv none_held c -> serial rs = true ->
  ok (fun c' => cut q c c' /\ forall q', q' <> q -> grows q' c c')
    (fun '(n, c') => inv none_held c' /\
        (exists more, took q (queue q c ++ more) c c' /\ n = length (queue q c ++ more)) /\
        (forall q', q' <> q -> grows q' c c'))
    (resolve q rs c).
Proof.
  intros I S. pose proof (calls_atoms rs c S) as R. pose proof (atoms_inv _ _ _ _ R I) as I1.
  unfold resolve. destruct (queue q c) as [|t ts] eqn:E.
  - split_and!; [done | | intros q' _; by eapply atoms_grow].
    exists []. split; [|done]. destruct (atoms_grow _ q _ _ R) as [S1 _]. unfold took.
    by rewrite S1, app_nil_r.
  - destruct (atoms_grow _ q _ _ R) as [S1 [l Q]]. rewrite E in Q.
    assert (Rn : forall l' c2, ran q l' (with_queue q [] (calls rs c)) c2 ->
      took q l' c c2 /\ forall q', q' <> q -> grows q' c c2).
    { intros l' c2 [T G]. split.
      - specialize (T q). rewrite decide_True in T by done. unfold took in *. by rewrite T, trace_with_queue, S1.
      - intros q' Hq. destruct (atoms_grow _ q' _ _ R) as [S' [l2 Q']]. specialize (T q').
        rewrite decide_False in T by done. unfold took in T. split; [by rewrite T, trace_with_queue, app_nil_r|].
        destruct (G q') as [l3 ->]. rewrite queue_with_queue, decide_False by done.
        rewrite Q'. exists (l2 ++ l3). by rewrite app_assoc. }
    eapply ok_bind; [apply run_all_ok, (swap_inv q _ I1) | |].
    + intros c2 (Nq & dn & t' & lost & c3 & Ed & Et & I2 & Rn2). apply Rn in Rn2 as [T G]. split; [|done].
      split; [done|]. exists l, dn, t', lost, c3. rewrite E. split_and!; try done. by rewrite <- Ed, Q.
    + intros c2 (I2 & Rn2). apply Rn in Rn2 as [T G]. split_and!; [done | | done].
      exists l. by rewrite <- Q.
Qed.

(** Queue [q] is only added to, then served, then only added to. *)
Lemma served q c c1 c2 c3 more :
  grows q c c1 -> took q (queue q c1 ++ more) c1 c2 -> grows q c2 c3 ->
  exists l, took q (queue q c ++ l) c c3 /\ length (queue q c ++ l) = length (queue q c1 ++ more).
Proof.
  intros [S1 [l1 Q1]] T [S3 _]. exists (l1 ++ more). unfold took in *.
  rewrite S3, T, S1, Q1, <- !app_assoc. done.
Qed.

Lemma cut_later q c c1 c' : grows q c c1 -> cut q c1 c' -> cut q c c'.
Proof.
  intros [S1 [l1 Q1]] (Nq & more & dn & t & lost & c2 & Q & Et & I & T). split; [done|].
  exists (l1 ++ more), dn, t, lost, c2. unfold took in *. rewrite T, S1, app_assoc, <- Q1. done.
Qed.

(** Everything that was in queue [q], and perhaps more, was started. *)
Definition all_of (q : queue_id) (c c' : io_context) : Prop := exists l, took q (queue q c ++ l) c c'.

(** The turn ends early: the queues before [q] were served, those after it not. *)
Definition cut_short (c c' : io_context) : Prop :=
  all_of RemoteSpawn c c' /\
  (cut RemoteTasks c c' /\ took LocalTasks [] c c' \/ all_of RemoteTasks c c' /\ cut LocalTasks c c').

Definition all_served (n : nat) (c c' : io_context) : Prop :=
  exists ls lt ll,
    took RemoteSpawn (m_remote_spawn c ++ ls) c c' /\
    took RemoteTasks (m_remote_tasks c ++ lt) c c' /\
    took LocalTasks (m_local_tasks c ++ ll) c c' /\
    n = cq_ready (m_ring c) + length (m_remote_spawn c ++ ls) +
        length (m_remote_tasks c ++ lt) + length (m_local_tasks c ++ ll).

Lemma with_kernel_inv k c :
  inv none_held c -> inv none_held (with_ring (kernel k (m_ring c)) c).
Proof.
  intros [F [Ho Hn Hc H1 Hd]]. split; [intros q; specialize (F q); by destruct q|].
  split; try done. simpl. by rewrite kernel_owned.
Qed.

Lemma calls_ok rs c :
  inv none_held c -> serial rs = true -> inv none_held (calls rs c) /\ forall q, grows q c (calls rs c).
Proof.
  intros I S. pose proof (calls_atoms rs c S) as R.
  split; [by eapply atoms_inv | intros q; by eapply atoms_grow].
Qed.

Lemma grows_took q c c' : grows q c c' -> took q [] c c'.
Proof. intros [S _]. unfold took. by rewrite S, app_nil_r. Qed.

Lemma run_once_ok t c :
  inv none_held c -> serial_turn t = true ->
  ok (cut_short c) (fun '(n, c') => inv none_held c' /\ all_served n c c') (run_once t c).
Proof.
  unfold serial_turn. intros I [[[[S1 S2]%andb_true_iff S3]%andb_true_iff S4]%andb_true_iff S5]%andb_true_iff.
  unfold run_once. set (c0 := with_ring _ c).
  pose proof (with_kernel_inv (t_kernel t) c I : inv none_held c0) as I0.
  eapply ok_bind; [apply (for_each_cqe_ok _ c0 I0); done | done |]. intros c1 [I1 G1].
  destruct (calls_ok (t_before t) c1 I1 S1) as [I2 G2]. set (c2 := calls _ c1) in *.
  assert (A2 : forall q, grows q c c2).
  { intros q. eapply grows_trans; [|apply G2]. eapply grows_trans; [|apply G1].
    split; [done|]. exists []. rewrite app_nil_r. by destruct q. }
  eapply ok_bind; [apply (resolve_ok _ _ _ I2 S2) | by intros ? [[? _] _] |].
  intros [n1 c3] (I3 & (l1 & T1 & ->) & G3).
  destruct (calls_ok (t_between t) c3 I3 S3) as [I4 G4]. set (c4 := calls _ c3) in *.
  assert (A4 : forall q, q <> RemoteSpawn -> grows q c c4)
    by (intros q Hq; eapply grows_trans; [apply A2 | eapply grows_trans; [by apply G3 | apply G4]]).
  assert (Sp : forall c', grows RemoteSpawn c4 c' -> exists l, took RemoteSpawn (m_remote_spawn c ++ l) c c' /\
    length (m_remote_spawn c ++ l) = length (queue RemoteSpawn c2 ++ l1)).
  { intros c' G. apply (served RemoteSpawn c c2 c3 c' l1 (A2 _) T1). eapply grows_trans; [apply G4 | exact G]. }
  eapply ok_bind; [apply (resolve_ok _ _ _ I4 S4) | |].
  { intros c' [C G]. split; [destruct (Sp c') as (l & T & _); [by apply G | by exists l]|]. left.
    split; [by eapply cut_later, C; apply A4 | apply grows_took; eapply grows_trans; [by apply A4 | by apply G]]. }
  intros [n2 c5] (I5 & (l2 & T2 & ->) & G5).
  destruct (calls_ok (t_after t) c5 I5 S5) as [I6 G6]. set (c6 := calls _ c5) in *.
  assert (A6 : grows LocalTasks c c6)
    by (eapply grows_trans; [by apply A4 | eapply grows_trans; [by apply G5 | apply G6]]).
  assert (Ta : forall c', grows RemoteTasks c6 c' -> exists l, took RemoteTasks (m_remote_tasks c ++ l) c c' /\
    length (m_remote_tasks c ++ l) = length (queue RemoteTasks c4 ++ l2)).
  { intros c' G. apply (served RemoteTasks c c4 c5 c' l2); [by apply A4 | done|]. eapply grows_trans; [apply G6 | exact G]. }
  assert (Sp' : forall c', grows RemoteSpawn c6 c' -> grows RemoteSpawn c4 c')
    by (intros c' G; eapply grows_trans; [by apply G5 | eapply grows_trans; [apply G6 | exact G]]).
  eapply ok_bind; [apply (resolve_ok _ _ _ I6); done | |].
  { intros c' [C G]. split; [destruct (Sp c') as (l & T & _); [apply Sp'; by apply G | by exists l]|]. right.
    split; [destruct (Ta c') as (l & T & _); [by apply G | by exists l] | by eapply cut_later]. }
  intros [n3 c7] (I7 & (l3 & T3 & ->) & G7). split; [done|].
  destruct (Sp c7) as (ls & Ts & Ns); [apply Sp'; by apply G7|].
  destruct (Ta c7) as (lt & Tt & Nt); [by apply G7|].
  destruct (served LocalTasks c c6 c7 c7 l3) as (ll & Tl & Nl); [done | done | apply grows_refl |].
  exists ls, lt, ll. split_and!; [done | done | done |]. simpl in *. by rewrite Ns, Nt, Nl.
Qed.

(** ** The loop *)

(** A run of the loop can only end badly because the submission queue is full,
    or with the exception of a task. *)
Definition ok_loop {A} (X : io_context -> Prop) (Q : A -> Prop) (m : outcome A) : Prop :=
  match m with Ok a => Q a | Crash e => e = NoSqe \/ e = NullSqe | Escape c => X c end.

Definition submitter_ok (f : submitter) : Prop := forall cnt ec c,
  inv none_held c -> ok_loop never (fun '(_, c') => inv none_held c') (f cnt ec c).

Lemma run_submit_ok : submitter_ok run_submit.
Proof.
  intros cnt ec c [F [Ho Hn Hc H1 Hd]]. unfold run_submit, nonpoll_submit.
  destruct (sq_push _ _) as [r|] eqn:E; simpl; [|by right].
  split; [intros q; specialize (F q); by destruct q|]. split; try done.
  simpl. by rewrite submit_owned, (sq_push_owned _ _ _ E).
Qed.

Lemma poll_submit_ok : submitter_ok poll_submit_fn.
Proof.
  intros cnt ec c [F [Ho Hn Hc H1 Hd]]. unfold poll_submit_fn, poll_submit.
  set (c1 := with_ring _ c).
  assert (I : inv none_held c1).
  { split; [intros q; specialize (F q); by destruct q|]. split; try done.
    simpl. by rewrite submit_owned. }
  repeat case_if; done.
Qed.

(** The task at the end of the batch that was started last threw; the tasks
    [lost] that came after it in the batch are gone, and nothing else is. *)
Definition lost_batch (c : io_context) : Prop :=
  exists q l t lost c1, q <> RemoteSpawn /\ exec true t c1 = Escape c /\
    started q (trace c) = l ++ [t] /\ fifo (just_held q lost) c /\ awaiters_ok c.

Lemma cut_lost q c c' : cut q c c' -> lost_batch c'.
Proof.
  intros (Nq & more & dn & t & lost & c1 & _ & Et & [F A] & T). unfold took in T.
  exists q, (started q (trace c) ++ dn), t, lost, c1. by rewrite T, app_assoc.
Qed.

Lemma turns_ok f ts ec c :
  submitter_ok f -> inv none_held c -> Forall (fun t => serial_turn t = true) ts ->
  ok_loop lost_batch (fun '(_, c') => inv none_held c') (turns f ts ec c).
Proof.
  intros Hf I Hs. revert ec c I. induction Hs as [|t ts St Hs IH]; intros ec c I; simpl; case_if; [done..|].
  case_if; [done|]. pose proof (run_once_ok t c I St) as H.
  destruct (run_once t c) as [[n c1]|e|c1]; simpl in *; [|by left|].
  - destruct H as [I1 _]. pose proof (Hf n ec c1 I1) as H.
    destruct (f n ec c1) as [[ec2 c2]|e|]; simpl in *; [by apply IH | done | done].
  - destruct H as [_ [[C _] | [_ C]]]; by eapply cut_lost.
Qed.

(** A context as the constructor makes it. *)
Definition ctx_init (r : ring) : io_context := mk_ctx r [] [] [] false ∅ 0 ∅ [].

Lemma ctx_init_inv r : owned r = [] -> inv none_held (ctx_init r).
Proof.
  intros H. split; [by intros []|]. split; simpl.
  - rewrite H, map_to_list_empty. done.
  - intros i [Hi | [a Ha]]; [by apply not_elem_of_nil in Hi | done].
  - done.
  - constructor.
  - intros i Hi. by apply not_elem_of_nil in Hi.
Qed.


(** ** Stopping *)

(** Nothing in a turn clears [m_is_stopped]. *)
Definition keeps_stop (c c' : io_context) : Prop :=
  m_is_stopped c = true -> m_is_stopped c' = true.

Lemma atoms_stop local c c' : rtc (atom local) c c' -> keeps_stop c c'.
Proof.
  unfold keeps_stop. induction 1 as [|c1 c2 c3 H _ IH]; [done|]. intros S. apply IH.
  destruct H as [| q t _ _ | | |]; try done. by destruct q.
Qed.

Lemma exec_stop p c : ok (keeps_stop c) (keeps_stop c) (exec true p c).
Proof. eapply ok_mono; [apply exec_atoms | |]; intros c' R; by eapply atoms_stop. Qed.

Lemma run_all_stop q ts c c' : run_all q ts c = Ok c' -> keeps_stop c c'.
Proof.
  revert c. induction ts as [|t ts IH]; intros c; cbn [run_all]; [by intros [= <-] ?|].
  pose proof (exec_stop t (log (Started q t) c)) as E. unfold keeps_stop in *.
  destruct (exec true t _) as [c1| |c1]; case_decide; simpl; try done;
    intros Hr S; apply (IH _ Hr), E, S.
Qed.

Lemma on_cqe_stop e c c' : on_cqe e c = Ok c' -> keeps_stop c c'.
Proof.
  unfold on_cqe, resume. destruct (cqe_data e) as [i|]; [|by intros [= <-] ?].
  destruct (awaiters c !! i) as [a|]; simpl; [|done].
  destruct (continuation a); [|done].
  match goal with |- context [exec true ?p ?c] => pose proof (exec_stop p c) as E; destruct (exec true p c) end;
    try done; intros [= <-] S; by apply E.
Qed.

Lemma for_each_cqe_stop fuel c c' : for_each_cqe fuel c = Ok c' -> keeps_stop c c'.
Proof.
  revert c. induction fuel as [|fuel IH]; intros c; cbn [for_each_cqe];
    (destruct (cq_pop (m_ring c)) as [[e r]|]; [|by intros [= <-] ?]); [done|].
  destruct (on_cqe e _) as [c1| |] eqn:E; simpl; [|done|done]. intros H S.
  apply (IH _ H), (on_cqe_stop _ _ _ E S).
Qed.

Lemma resolve_stop q rs c n c' : resolve q rs c = Ok (n, c') -> keeps_stop (calls rs c) c'.
Proof.
  unfold resolve. destruct (queue q c); [by intros [= _ <-] ?|]. cbv zeta.
  destruct (run_all _ _ _) as [c1| |] eqn:E; simpl; [|done|done]. intros [= _ <-] S.
  apply (run_all_stop _ _ _ _ E). by destruct q.
Qed.

Lemma call_stop r c : m_is_stopped c = true -> m_is_stopped (call r c) = true.
Proof. destruct r; simpl; try done. unfold post_end. by destruct (posting c !! i). Qed.

Lemma calls_stop rs c : m_is_stopped c = true \/ RStop ∈ rs -> m_is_stopped (calls rs c) = true.
Proof.
  revert c. induction rs as [|r rs IH]; intros c; [by intros [? | ?%not_elem_of_nil]|].
  intros [S | [<-|H]%elem_of_cons]; apply IH; [left; by apply call_stop | by left | by right].
Qed.

Lemma run_once_stop t c n c' :
  run_once t c = Ok (n, c') -> RStop ∈ turn_calls t -> m_is_stopped c' = true.
Proof.
  unfold run_once, turn_calls. rewrite !elem_of_app.
  destruct (for_each_cqe _ _) as [c1| |]; simpl; [|done|done].
  destruct (resolve_remote_coroutine _ _) as [[n1 c2]| |] eqn:E1; simpl; [|done|done].
  destruct (resolve_remote_task _ _) as [[n2 c3]| |] eqn:E2; simpl; [|done|done].
  destruct (resolve_local_task _) as [[n3 c4]| |] eqn:E3; simpl; [|done|done].
  intros [= _ <-] H. apply resolve_stop in E1, E2, E3.
  apply E3, calls_stop. left. apply calls_stop. destruct H as [H|[H|[H|[H|H]]]];
    [left; apply E2, calls_stop; left; apply calls_stop; left; apply E1, calls_stop; left;
     apply calls_stop; by right
    |left; apply E2, calls_stop; left; apply calls_stop; left; apply E1, calls_stop; by right
    |left; apply E2, calls_stop; left; apply calls_stop; by right
    |left; apply E2, calls_stop; by right
    |by right].
Qed.


(** ** Properties *)

(** C6: one turn of the loop serves everything that was waiting, unless a task
    throws.  From a consistent context, while posts of other threads do not overlap
    anything, a turn ends, throws or finds the submission queue full.  When it ends,
    every task and coroutine that was in one of the three queues at its beginning
    has been started, in the order of the queue and before anything newer, and the
    returned count is the number of ready completions plus the tasks started.  When
    it throws, a posted task did: the coroutines and the queue before were served,
    its own queue up to it, the queue after it not at all, and the tasks behind it
    that had been swapped out are lost.  In both cases no completion named a dead
    awaiter, no coroutine was resumed twice, and nothing else was lost. *)
Theorem run_once_serves t c :
  inv none_held c -> serial_turn t = true ->
  match run_once t c with
  | Ok (n, c') => inv none_held c' /\ all_served n c c'
  | Escape c' => cut_short c c'
  | Crash e => e = NoSqe
  end.
Proof. intros I S. pose proof (run_once_ok t c I S) as H. by destruct (run_once t c) as [[]| |]. Qed.

(** C5: over whole runs of [run()] and [poll()], with any spawns and stops of other
    threads and with posts of other threads that do not overlap anything, whatever
    the kernel completes: each queue is first-in first-out with every task started
    at most once and none lost, and each suspended coroutine has exactly one
    outstanding ring entry.  The run is cut short only by a full submission queue or
    by a posted task that throws; in the second case exactly the tasks behind it in
    the batch that had been swapped out are lost. *)
Theorem loop_exactly_once (polling : bool) r rs ts ec :
  owned r = [] -> serial rs = true -> Forall (fun t => serial_turn t = true) ts ->
  match (if polling then poll else run) None ts ec (calls rs (ctx_init r)) with
  | Ran _ c => fifo none_held c /\ awaiters_ok c
  | Escaped c => lost_batch c
  | Aborted e => e = NoSqe \/ e = NullSqe
  | Threw _ => False
  end.
Proof.
  intros Hr Sr Ss. destruct (calls_ok rs _ (ctx_init_inv r Hr) Sr) as [[F A] _].
  assert (I : inv none_held (with_stopped false (calls rs (ctx_init r)))).
  { split; [intros q; specialize (F q); by destruct q | destruct A; by split]. }
  destruct polling; unfold poll, run, loop.
  - pose proof (turns_ok _ ts ec _ poll_submit_ok I Ss) as H. by destruct (turns _ _ _ _) as [[]| |].
  - pose proof (turns_ok _ ts ec _ run_submit_ok I Ss) as H. by destruct (turns _ _ _ _) as [[]| |].
Qed.

(** A stop requested by another thread at any point of a turn makes [run]
    return at the end of that turn; a stop requested before [run] is entered
    is forgotten, because the loop clears the flag first. *)
Theorem loop_stop t ts ec c n c1 c2 :
  RStop ∈ turn_calls t -> t_token t = false ->
  run_once t (with_stopped false c) = Ok (n, c1) -> nonpoll_submit c1 = Ok c2 ->
  run None (t :: ts) ec c = Ran true c2 /\
  run None (t :: ts) ec (request_stop c) = run None (t :: ts) ec c.
Proof.
  intros Hin Ht H1 H2. split; [|done]. unfold run, loop. cbn [turns m_is_stopped with_stopped].
  rewrite Ht, H1. simpl. unfold run_submit. rewrite H2. simpl.
  pose proof (run_once_stop t _ n c1 H1 Hin) as S.
  unfold nonpoll_submit in H2. destruct (sq_push _ _); simplify_eq/=. by destruct ts; simpl; rewrite S.
Qed.
End context.

(** ** A ring of lists

    The laws of the interface can be met: a submission queue of bounded size,
    entries in flight, completions in order; an operation completes with its
    own number as result. *)

Record list_ring := mk_list_ring {
  lr_size : nat; lr_sq : list sqe; lr_flight : list sqe; lr_cq : list cqe
}.

Definition complete (e : sqe) : cqe := mk_cqe (Z.of_nat (sqe_op e)) 0 (sqe_data e).

#[export] Instance list_uring : Uring list_ring := {
  sq_push e r := if (length (lr_sq r) <? lr_size r)%nat
                 then Some (mk_list_ring (lr_size r) (lr_sq r ++ [e]) (lr_flight r) (lr_cq r))
                 else None;
  uring_submit r := mk_list_ring (lr_size r) [] (lr_flight r ++ lr_sq r) (lr_cq r);
  cq_ready r := length (lr_cq r);
  cq_pop r := match lr_cq r with
              | [] => None
              | c :: l => Some (c, mk_list_ring (lr_size r) (lr_sq r) (lr_flight r) l)
              end;
  kernel n r := mk_list_ring (lr_size r) (lr_sq r) (drop n (lr_flight r))
                  (lr_cq r ++ map complete (take n (lr_flight r)));
  owned r := map sqe_data (lr_sq r) ++ map sqe_data (lr_flight r) ++ map cqe_data (lr_cq r)
}.

#[export] Instance list_uring_laws : UringLaws list_ring.
Proof.
  split; simpl.
  - intros e r r' H. case_if_in H; simplify_eq/=. rewrite map_app. simpl.
    rewrite <- app_assoc. simpl. symmetry. apply Permutation_middle.
  - intros e r r' H. by case_if_in H; simplify_eq/=.
  - intros r. rewrite map_app. simpl. rewrite <- !app_assoc.
    rewrite !(app_assoc (map sqe_data _) (map sqe_data _)).
    by rewrite (Permutation_app_comm (map sqe_data (lr_sq r))).
  - intros n r. apply Permutation_app_head. rewrite map_app, map_map.
    change (map (fun e => cqe_data (complete e))) with (map sqe_data).
    transitivity ((map sqe_data (take n (lr_flight r)) ++ map sqe_data (drop n (lr_flight r)))
                  ++ map cqe_data (lr_cq r)).
    + rewrite (Permutation_app_comm (map cqe_data _)), app_assoc.
      apply Permutation_app_tail, Permutation_app_comm.
    + by rewrite <- map_app, take_drop.
  - intros [n sq fl [|c l]] c' r' H; simplify_eq/=. rewrite !app_assoc.
    symmetry. apply Permutation_middle.
  - intros [n sq fl [|c l]] c' r' H; by simplify_eq/=.
  - intros [n sq fl [|c l]] H; by simplify_eq/=.
Qed.

Definition empty_ring : list_ring := mk_list_ring 8 [] [] [].

(** A body that waits for operation 7 and then posts two tasks. *)
Definition sample_co : prog :=
  AwaitIo 7 (fun r _ => Effect (Z.to_nat r) (Post (Effect 1 Return) (Post (Effect 2 Return) Return))).

Definition sample_ctx : io_context (ring := list_ring) :=
  calls (RSpawn sample_co :: remote_post 1 (Effect 3 Return)) (ctx_init empty_ring).

Definition sample_turn (k : nat) (rs : list remote_call) : turn :=
  mk_turn k [] [] [] [] rs false.

(** A context with three tasks, the second of which throws. *)
Definition throwing_ctx : io_context (ring := list_ring) :=
  calls (remote_post 1 (Effect 3 Return) ++ remote_post 1 Raise ++ remote_post 2 (Effect 4 Return))
    (ctx_init empty_ring).

Lemma run_once_serves_witness :
  (exists n c', run_once (sample_turn 0 []) sample_ctx = Ok (n, c') /\ inv none_held c' /\ all_served n sample_ctx c') /\
  (exists c', run_once (sample_turn 0 []) throwing_ctx = Escape c' /\ cut_short throwing_ctx c').
Proof.
  assert (I : inv none_held sample_ctx) by (apply calls_ok; [apply ctx_init_inv|]; reflexivity).
  assert (J : inv none_held throwing_ctx) by (apply calls_ok; [apply ctx_init_inv|]; reflexivity).
  pose proof (run_once_serves (sample_turn 0 []) sample_ctx I eq_refl) as H1.
  pose proof (run_once_serves (sample_turn 0 []) throwing_ctx J eq_refl) as H2.
  destruct (run_once (sample_turn 0 []) sample_ctx) as [[n c1]| |] eqn:E1; [|vm_compute in E1; discriminate..].
  destruct (run_once (sample_turn 0 []) throwing_ctx) as [[m c2]| |c2] eqn:E2; [vm_compute in E2; discriminate..|].
  split; [exists n, c1; split; [reflexivity | exact H1] | exists c2; split; [reflexivity | exact H2]].
Defined.

Lemma loop_exactly_once_witness :
  match run None [sample_turn 0 []; sample_turn 2 [RStop]] 0 sample_ctx with
  | Ran _ c => fifo none_held c /\ awaiters_ok c
  | Escaped c => lost_batch c
  | Aborted e => e = NoSqe \/ e = NullSqe
  | Threw _ => False
  end.
Proof. apply (loop_exactly_once false empty_ring); [reflexivity | reflexivity | repeat constructor]. Defined.

(** Two posts that overlap: the first one is lost. *)
Example overlapping_posts :
  m_remote_tasks (calls [RPostBegin 1; RPostBegin 2; RPostEnd 1 (Effect 1 Return); RPostEnd 2 (Effect 2 Return)]
    (ctx_init empty_ring)) = [Effect 2 Return].
Proof. reflexivity. Qed.

(** The coroutine is resumed with its result and its tasks run in order. *)
Example sample_run_trace :
  match run None [sample_turn 0 []; sample_turn 2 [RStop]] 0 sample_ctx with
  | Ran true c => omap (fun e => match e with Did n => Some n | _ => None end) (trace c)
  | _ => []
  end = [3; 7; 1; 2].
Proof. vm_compute. reflexivity. Qed.

Lemma loop_stop_witness :
  exists c2, run None [sample_turn 0 [RStop]; sample_turn 0 []] 0 sample_ctx = Ran true c2 /\
    run None [sample_turn 0 [RStop]; sample_turn 0 []] 0 (request_stop sample_ctx)
    = run None [sample_turn 0 [RStop]; sample_turn 0 []] 0 sample_ctx.
Proof.
  eexists. eapply (loop_stop (sample_turn 0 [RStop]) [sample_turn 0 []] 0 sample_ctx 2).
  - cbn. left.
  - reflexivity.
  - vm_compute. reflexivity.
  - vm_compute. reflexivity.
Defined.
