(* ===== verification/IoLocking.v ===== *)
(** * [include/io_context.hpp]: the remote queues under concurrency

    [IoContext] treats a call of another thread as one step.  Here the calls
    are the sequences of lock operations and container accesses that the source
    makes: [emplace_back] and [swap] read the container and write it back, and
    threads interleave between any two of these accesses.

    [co_spawn] and the two [resolve_remote_] functions hold a named
    [lock_guard] over their access.  [post] and [dispatch] write
    [std::lock_guard{m_mutex};], a temporary that is destroyed at the end of
    that statement, so that the access after it is not protected. *)

From S2P Require Import Prelude.
From stdpp Require Import functions relations.

Inductive rq := Tasks | Spawn.
#[export] Instance rq_eq_dec : EqDecision rq.
Proof. solve_decision. Defined.

Inductive qop := OpPush (t : nat) | OpSwap.

Inductive instr :=
| Lock
| Unlock
| Load (q : rq)
| Store (q : rq) (o : qop).

(** ** The calls *)

Definition post_code (t : nat) : list instr :=
  [Lock; Unlock; Load Tasks; Store Tasks (OpPush t)].
Definition dispatch_code (t : nat) : list instr :=
  [Lock; Unlock; Load Tasks; Store Tasks (OpPush t)].
Definition co_spawn_code (t : nat) : list instr :=
  [Lock; Load Spawn; Store Spawn (OpPush t); Unlock].
Definition resolve_remote_task_code : list instr :=
  [Lock; Load Tasks; Store Tasks OpSwap; Unlock].
Definition resolve_remote_coroutine_code : list instr :=
  [Lock; Load Spawn; Store Spawn OpSwap; Unlock].

Inductive api_call :=
| CPost (t : nat)
| CDispatch (t : nat)
| CSpawn (t : nat)
| CResolveTask
| CResolveCoroutine.

Definition code_of_call (c : api_call) : list instr :=
  match c with
  | CPost t => post_code t
  | CDispatch t => dispatch_code t
  | CSpawn t => co_spawn_code t
  | CResolveTask => resolve_remote_task_code
  | CResolveCoroutine => resolve_remote_coroutine_code
  end.

(** ** Interleaving *)

Record thread := mk_thread { code : list instr; reg : list nat }.

(** [content] is what the containers hold, [taken] what the loop has swapped
    out of them, [stored] the pushes in the order of their writes. *)
Record world := mk_world {
  owner : option nat;
  content : rq -> list nat;
  taken : rq -> list nat;
  stored : rq -> list nat;
  threads : list thread
}.

Definition set_thread (i : nat) (th : thread) (w : world) : world :=
  mk_world (owner w) (content w) (taken w) (stored w) (<[i := th]> (threads w)).

Definition store (q : rq) (o : qop) (snapshot : list nat) (w : world) : world :=
  match o with
  | OpPush t => mk_world (owner w) (<[q := snapshot ++ [t]]> (content w)) (taken w)
                  (<[q := stored w q ++ [t]]> (stored w)) (threads w)
  | OpSwap => mk_world (owner w) (<[q := []]> (content w))
                (<[q := taken w q ++ snapshot]> (taken w)) (stored w) (threads w)
  end.

(** The next instruction of thread [i]; [None] when it cannot run. *)
Definition step_at (i : nat) (w : world) : option world :=
  th ← threads w !! i;
  match code th with
  | [] => None
  | Lock :: k =>
      if bool_decide (owner w = None)
      then Some (set_thread i (mk_thread k (reg th))
                   (mk_world (Some i) (content w) (taken w) (stored w) (threads w)))
      else None
  | Unlock :: k =>
      if bool_decide (owner w = Some i)
      then Some (set_thread i (mk_thread k (reg th))
                   (mk_world None (content w) (taken w) (stored w) (threads w)))
      else None
  | Load q :: k => Some (set_thread i (mk_thread k (content w q)) w)
  | Store q o :: k => Some (set_thread i (mk_thread k (reg th)) (store q o (reg th) w))
  end.

Definition step (w w' : world) : Prop := exists i, step_at i w = Some w'.

Fixpoint run_schedule (sched : list nat) (w : world) : option world :=
  match sched with
  | [] => Some w
  | i :: sched => w ← step_at i w; run_schedule sched w
  end.

Definition start (progs : list (list api_call)) : world :=
  mk_world None (fun _ => []) (fun _ => []) (fun _ => [])
    (map (fun cs => mk_thread (concat (map code_of_call cs)) []) progs).

(** ** Lock discipline on [m_remote_spawn] *)

(** A thread that does ([held]) or does not hold the lock only touches
    [m_remote_spawn] while it does, and writes what it read under the same
    hold ([fresh]). *)
Fixpoint disciplined (held fresh : bool) (k : list instr) : Prop :=
  match k with
  | [] => held = false
  | Lock :: k => held = false /\ disciplined true false k
  | Unlock :: k => held = true /\ disciplined false false k
  | Load Spawn :: k => held = true /\ disciplined true true k
  | Load Tasks :: k => disciplined held false k
  | Store Spawn _ :: k => held = true /\ fresh = true /\ disciplined true false k
  | Store Tasks _ :: k => disciplined held fresh k
  end.

Lemma calls_disciplined cs : disciplined false false (concat (map code_of_call cs)).
Proof. induction cs as [|c cs IH]; [done|]. destruct c; simpl; auto 10. Qed.

(** [m_remote_spawn] is what was pushed and not taken, and a thread about to
    write it back has its current content in hand. *)
Record spawn_inv (w : world) : Prop := {
  si_order : taken w Spawn ++ content w Spawn = stored w Spawn;
  si_threads : forall i th, threads w !! i = Some th ->
    exists fresh, disciplined (bool_decide (owner w = Some i)) fresh (code th) /\
      (fresh = true -> owner w = Some i /\ reg th = content w Spawn)
}.

Lemma start_inv progs : spawn_inv (start progs).
Proof.
  split; [done|]. intros i th Hi. simpl in *. rewrite list_lookup_fmap in Hi.
  destruct (progs !! i) as [cs|]; simplify_eq/=. exists false.
  split; [apply calls_disciplined | done].
Qed.

(** Replacing one thread: the others must agree with the new world. *)
Lemma threads_insert (P : nat -> thread -> Prop) (l : list thread) i th j th' :
  <[i := th]> l !! j = Some th' -> P i th ->
  (forall j th', j <> i -> l !! j = Some th' -> P j th') -> P j th'.
Proof.
  intros H Hi Ho. destruct (decide (i = j)) as [<-|Hne].
  - apply list_lookup_insert_Some in H as [(_ & -> & _) | (? & _)]; done.
  - rewrite list_lookup_insert_ne in H by done. apply Ho; auto.
Qed.

(** A thread without the lock stays disciplined when another one moves. *)
Definition thread_ok (o : option nat) (spawn : list nat) (i : nat) (th : thread) : Prop :=
  exists fresh, disciplined (bool_decide (o = Some i)) fresh (code th) /\
    (fresh = true -> o = Some i /\ reg th = spawn).

Lemma thread_ok_other o o' spawn spawn' i th :
  thread_ok o spawn i th -> o <> Some i -> o' <> Some i -> thread_ok o' spawn' i th.
Proof.
  intros (f & D & F) H H'. rewrite bool_decide_eq_false_2 in D by done.
  exists f. rewrite bool_decide_eq_false_2 by done. split; [done|].
  intros Hf. destruct (F Hf) as [? _]. done.
Qed.

(** Thread [i] has moved to [th]: the others are unaffected if neither the owner
    nor the content changed, or if none of them had or has the lock. *)
Lemma set_thread_inv w w1 i th :
  spawn_inv w -> threads w1 = threads w ->
  taken w1 Spawn ++ content w1 Spawn = stored w1 Spawn ->
  thread_ok (owner w1) (content w1 Spawn) i th ->
  (owner w1 = owner w /\ content w1 Spawn = content w Spawn \/
   forall j, j <> i -> owner w <> Some j /\ owner w1 <> Some j) ->
  spawn_inv (set_thread i th w1).
Proof.
  intros [_ Ht] Et Ho Hi Hoth. split; [done|]. intros j th' Hj. cbn in Hj. rewrite Et in Hj.
  apply (threads_insert (thread_ok (owner w1) (content w1 Spawn)) _ _ _ _ _ Hj Hi).
  intros j' t' Hne Hj'. specialize (Ht j' t' Hj'). destruct Hoth as [[-> ->]|Hoth]; [done|].
  destruct (Hoth j' Hne). by eapply thread_ok_other.
Qed.

Lemma store_frame q o l w :
  owner (store q o l w) = owner w /\ threads (store q o l w) = threads w.
Proof. by destruct o. Qed.

(** A write to [m_remote_tasks] leaves [m_remote_spawn] alone. *)
Lemma store_tasks_spawn o l w :
  let w1 := store Tasks o l w in
  content w1 Spawn = content w Spawn /\ taken w1 Spawn = taken w Spawn /\
  stored w1 Spawn = stored w Spawn.
Proof. destruct o; simpl; by rewrite ?fn_lookup_insert_ne by done. Qed.

(** A write to [m_remote_spawn] from its current content keeps the order. *)
Lemma store_spawn_order o w :
  taken w Spawn ++ content w Spawn = stored w Spawn ->
  let w1 := store Spawn o (content w Spawn) w in
  taken w1 Spawn ++ content w1 Spawn = stored w1 Spawn.
Proof.
  intros Ho. destruct o; simpl; rewrite ?fn_lookup_insert, <- Ho;
    [by rewrite app_assoc | by rewrite app_nil_r].
Qed.

Lemma step_inv w w' : step w w' -> spawn_inv w -> spawn_inv w'.
Proof.
  intros [i H] Inv. pose proof Inv as [Ho Ht]. unfold step_at in H.
  destruct (threads w !! i) as [th|] eqn:Ei; [|done].
  simpl in H. destruct (Ht i th Ei) as (f & D & F).
  destruct (code th) as [|[| |q|q o] k] eqn:Ec; [done|..].
  - destruct (bool_decide_reflect (owner w = None)) as [En|]; simplify_eq/=.
    apply (set_thread_inv w); try done; [|right; simpl; intros; split; congruence].
    exists false. simpl. by rewrite bool_decide_eq_true_2 by done; destruct D.
  - destruct (bool_decide_reflect (owner w = Some i)) as [En|]; simplify_eq/=.
    apply (set_thread_inv w); try done; [|right; simpl; intros; split; congruence].
    by exists false; destruct D.
  - simplify_eq/=. apply (set_thread_inv w); auto.
    destruct q; [by exists false|]. destruct D as [Hh D]. exists true. rewrite Hh.
    by apply bool_decide_eq_true_1 in Hh.
  - simplify_eq/=. destruct (store_frame q o (reg th) w) as [Eo Et]. destruct q.
    + destruct (store_tasks_spawn o (reg th) w) as (E1 & E2 & E3).
      apply (set_thread_inv w); rewrite ?Eo, ?E1, ?E2, ?E3; auto. by exists f.
    + destruct D as (Hh & -> & D). destruct (F eq_refl) as [En Hr].
      apply (set_thread_inv w); rewrite ?Eo; auto.
      * rewrite Hr. by apply store_spawn_order.
      * exists false. by rewrite Hh.
      * right. intros; split; congruence.
Qed.

Lemma reachable_inv progs w : rtc step (start progs) w -> spawn_inv w.
Proof.
  intros R. assert (H : spawn_inv (start progs)) by apply start_inv. revert H.
  induction R as [|w1 w2 w3 H1 _ IH]; intros H; [done|]. by eapply IH, step_inv.
Qed.

Lemma run_schedule_steps sched w w' : run_schedule sched w = Some w' -> rtc step w w'.
Proof.
  revert w. induction sched as [|i sched IH]; intros w; simpl; [by intros [= <-]|].
  destruct (step_at i w) as [w1|] eqn:E; simpl; [|done]. intros H.
  eapply rtc_l; [by exists i | by apply IH].
Qed.

(** C33: coroutines handed over with [co_spawn] are never lost or reordered: for
    any number of threads making any calls, in every interleaving, what the loop
    has taken from [m_remote_spawn] followed by what is still in it is the
    sequence of the pushes, in the order they were written. *)
Theorem co_spawn_loses_nothing progs w :
  rtc step (start progs) w -> taken w Spawn ++ content w Spawn = stored w Spawn.
Proof. intros R. by apply (reachable_inv progs w R). Qed.

(** Two threads spawn, one of them posts as well, and the loop takes. *)
Definition sample_threads : list (list api_call) :=
  [[CSpawn 1; CPost 7]; [CSpawn 2]; [CResolveCoroutine]].

Definition sample_schedule : list nat := [1;1;1;1; 0;0;0;0; 2;2;2;2; 0;0;0;0].

Lemma co_spawn_loses_nothing_witness :
  exists w, rtc step (start sample_threads) w /\ stored w Spawn = [2; 1] /\
    taken w Spawn ++ content w Spawn = stored w Spawn.
Proof.
  destruct (run_schedule sample_schedule (start sample_threads)) as [w|] eqn:E;
    [|vm_compute in E; discriminate].
  exists w. pose proof (run_schedule_steps _ _ _ E) as R. split_and!; [exact R | |].
  - vm_compute in E. injection E as <-. reflexivity.
  - exact (co_spawn_loses_nothing sample_threads w R).
Defined.

(** C34: [post] does not have that guarantee: two threads that each post one task
    can both finish with one of the two tasks in the queue and the other one
    gone, because the access is outside the lock. *)
Theorem post_can_lose_a_task :
  exists w, rtc step (start [[CPost 1]; [CPost 2]]) w /\
    Forall (fun th => code th = []) (threads w) /\
    stored w Tasks = [1; 2] /\ taken w Tasks ++ content w Tasks = [2].
Proof.
  destruct (run_schedule [0;0;1;1; 0;1;0;1] (start [[CPost 1]; [CPost 2]])) as [w|] eqn:E;
    [|vm_compute in E; discriminate].
  exists w. split; [by eapply run_schedule_steps|]. vm_compute in E. injection E as <-.
  split_and!; [repeat constructor | reflexivity | reflexivity].
Qed.
