(* ===== verification/IoSetup.v ===== *)
(** * [include/io_context.hpp]: options, and binding a context to a thread

    [make_params] turns [ctx_opt] into the parameters of the ring.  Binding is
    modelled for any number of threads and contexts: [this_thread_context] of
    every thread, [m_thid] of every context, and which loops are running.  A
    step is one of [bind_this_thread], the end of the guard it returned, [run]
    up to [assert_bind], and the return of the loop. *)

From S2P Require Import Prelude IoContext.
From stdpp Require Import gmap.
Local Open Scope Z_scope.

(** ** Options *)

Definition invalid_cpuno : Z := 2 ^ 32 - 1.

Record ctx_opt := mk_opt {
  ring_size : Z; sq_cpu_affinity : Z; sq_poll_idle : Z; sq_polling : bool; io_polling : bool
}.

Definition ctx_opt_default : ctx_opt := mk_opt 4096 invalid_cpuno 100 false false.

Record io_uring_params := mk_params { flags : Z; sq_thread_cpu : Z; sq_thread_idle : Z }.

Definition IORING_SETUP_IOPOLL : Z := 1.
Definition IORING_SETUP_SQPOLL : Z := 2.
Definition IORING_SETUP_SQ_AFF : Z := 4.

(** [cpus] is [std::thread::hardware_concurrency()]. *)
Definition make_params (cpus : Z) (option : ctx_opt) : io_uring_params :=
  let f := if io_polling option then Z.lor 0 IORING_SETUP_IOPOLL else 0 in
  if sq_polling option then
    let f := Z.lor f IORING_SETUP_SQPOLL in
    let f := if negb (sq_cpu_affinity option =? invalid_cpuno) && (sq_cpu_affinity option <? cpus)
             then Z.lor f IORING_SETUP_SQ_AFF else f in
    mk_params f (sq_cpu_affinity option) (sq_poll_idle option)
  else mk_params f 0 0.

(** The ring keeps the flags it was made with. *)
Definition is_enable_sqpoll (f : Z) : bool := negb (Z.land f IORING_SETUP_SQPOLL =? 0).
Definition is_enable_iopoll (f : Z) : bool := negb (Z.land f IORING_SETUP_IOPOLL =? 0).
Definition test_feature (features fea : Z) : bool := negb (Z.land features fea =? 0).

(** The constructor; [r] is what [io_uring_queue_init_params] returns. *)
Definition construct (r : Z) : option Z := if r <? 0 then Some (- r) else None.

Lemma make_params_flags cpus o :
  0 <= cpus < 2 ^ 32 ->
  let p := make_params cpus o in
  is_enable_iopoll (flags p) = io_polling o /\ is_enable_sqpoll (flags p) = sq_polling o /\
  (Z.testbit (flags p) 2 = true <-> sq_polling o = true /\ sq_cpu_affinity o < cpus).
Proof.
  intros H. unfold make_params. destruct o as [rs aff idle sq io]. cbn [io_polling sq_polling sq_cpu_affinity sq_poll_idle].
  assert (A : negb (aff =? invalid_cpuno) && (aff <? cpus) = (aff <? cpus)).
  { unfold invalid_cpuno. destruct (aff <? cpus) eqn:E; [|by rewrite andb_false_r].
    rewrite (proj2 (Z.eqb_neq aff _)) by lia. done. }
  rewrite A. destruct io, sq; simpl; try destruct (aff <? cpus) eqn:E; simpl;
    (split_and!; [reflexivity | reflexivity | split; [|intros [? ?]]; try done; try lia]).
  all: intros; split; [done | lia].
Qed.

(** ** Threads and contexts *)

Record state := mk_state {
  this_thread_context : gmap nat nat;   (* thread -> context; absent is null *)
  m_thid : gmap nat nat;                (* context -> thread; absent is the default id *)
  looping : list (nat * nat)            (* (thread, context) inside [loop] *)
}.

Definition state_init : state := mk_state ∅ ∅ [].

(** [bind_this_thread()] of context [c] in thread [t]. *)
Definition bind_this_thread (t c : nat) (s : state) : state :=
  mk_state (<[t := c]> (this_thread_context s)) (<[c := t]> (m_thid s)) (looping s).

(** The scope guard's destructor, in thread [t]. *)
Definition guard_end (t : nat) (s : state) : state :=
  mk_state (delete t (this_thread_context s)) (m_thid s) (looping s).

Definition is_in_local_thread (t c : nat) (s : state) : bool :=
  bool_decide (this_thread_context s !! t = Some c).

Definition current_context (t : nat) (s : state) : option nat := this_thread_context s !! t.

(** The test at the start of [run], with thread ids from 1 (0 is the default id). *)
Definition may_run (t c : nat) (s : state) : option logic_error :=
  assert_bind c (this_thread_context s !! t) (from_option S 0%nat (m_thid s !! c)) (S t).

Definition enter (t c : nat) (s : state) : state :=
  mk_state (this_thread_context s) (m_thid s) ((t, c) :: looping s).

Inductive bind_op := Bind (t c : nat) | Unbind (t : nat) | Run (t c : nat) | Return (t c : nat).

(** A run that fails its test throws and changes nothing. *)
Definition perform (o : bind_op) (s : state) : state :=
  match o with
  | Bind t c => bind_this_thread t c s
  | Unbind t => guard_end t s
  | Run t c => match may_run t c s with None => enter t c s | Some _ => s end
  | Return t c => mk_state (this_thread_context s) (m_thid s)
                    (filter (fun x => x <> (t, c)) (looping s))
  end.

Definition performs (os : list bind_op) (s : state) : state := foldl (fun s o => perform o s) s os.

(** What a program keeps to: a thread inside a loop neither binds nor lets its
    guard end, and a context is not bound while a loop of it runs. *)
Definition thread_busy (t : nat) (s : state) : bool :=
  existsb (fun x => (x.1 =? t)%nat) (looping s).
Definition context_busy (c : nat) (s : state) : bool :=
  existsb (fun x => (x.2 =? c)%nat) (looping s).

Definition allowed (o : bind_op) (s : state) : bool :=
  match o with
  | Bind t c => negb (thread_busy t s) && negb (context_busy c s)
  | Unbind t => negb (thread_busy t s)
  | Run _ _ | Return _ _ => true
  end.

Fixpoint disciplined (os : list bind_op) (s : state) : bool :=
  match os with
  | [] => true
  | o :: os => allowed o s && disciplined os (perform o s)
  end.

(** A running loop is the loop of its thread's context. *)
Definition bound_ok (s : state) : Prop := forall t c, (t, c) ∈ looping s ->
  this_thread_context s !! t = Some c /\ m_thid s !! c = Some t.

Lemma existsb_false_elem {A} (p : A -> bool) l x : existsb p l = false -> x ∈ l -> p x = false.
Proof.
  intros H Hx. destruct (p x) eqn:E; [|done]. rewrite <- H. symmetry. apply existsb_exists.
  exists x. split; [by apply list_elem_of_In | done].
Qed.

Lemma may_run_bound t c s :
  may_run t c s = None -> this_thread_context s !! t = Some c /\ m_thid s !! c = Some t.
Proof.
  unfold may_run, assert_bind. destruct (this_thread_context s !! t) as [x|]; [|done].
  destruct (x =? c)%nat eqn:E; [|done]. apply Nat.eqb_eq in E as ->.
  destruct (_ =? S t)%nat eqn:E; [|done]. apply Nat.eqb_eq in E.
  destruct (m_thid s !! c) as [t'|]; simpl in E; [|done]. by injection E as ->.
Qed.

Lemma perform_bound_ok o s : allowed o s = true -> bound_ok s -> bound_ok (perform o s).
Proof.
  unfold bound_ok. destruct o as [t c | t | t c | t c]; cbn [allowed perform];
    intros Ha Hs t' c' Hin.
  - apply andb_true_iff in Ha as [Ht Hc]. apply negb_true_iff in Ht, Hc.
    apply (existsb_false_elem _ _ _ Ht) in Hin as Et.
    apply (existsb_false_elem _ _ _ Hc) in Hin as Ec. apply Nat.eqb_neq in Et, Ec. simpl in *.
    rewrite !lookup_insert_ne by done. by apply Hs.
  - apply negb_true_iff in Ha. apply (existsb_false_elem _ _ _ Ha) in Hin as Et.
    apply Nat.eqb_neq in Et. simpl in *. rewrite lookup_delete_ne by done. by apply Hs.
  - destruct (may_run t c s) eqn:E; [by apply Hs|]. simpl in *.
    apply elem_of_cons in Hin as [[= -> ->] | Hin]; [by apply may_run_bound | by apply Hs].
  - simpl in *. apply list_elem_of_filter in Hin as [_ Hin]. by apply Hs.
Qed.

Lemma performs_bound_ok os s : disciplined os s = true -> bound_ok s -> bound_ok (performs os s).
Proof.
  revert s. induction os as [|o os IH]; intros s H Hs; [done|].
  cbn [disciplined] in H. apply andb_true_iff in H as [Ha H]. apply IH; [done|].
  by apply perform_bound_ok.
Qed.

(** C28: contexts and threads are paired.  In any program that keeps guards alive
    over its loops and does not bind a context that is running, a running loop
    finds its own context as the current one (so that operations awaited in its
    coroutines go to the ring it serves), a thread runs at most one context and
    a context is run by at most one thread. *)
Theorem loops_are_exclusive os t c :
  disciplined os state_init = true ->
  let s := performs os state_init in
  (t, c) ∈ looping s ->
  current_context t s = Some c /\
  (forall t' c', (t', c') ∈ looping s -> (t' = t <-> c' = c)).
Proof.
  intros H s Hin. assert (B : bound_ok s).
  { apply performs_bound_ok; [done|]. intros ? ? Hn. by apply elem_of_nil in Hn. }
  destruct (B t c Hin) as [T C]. split; [done|]. intros t' c' Hin'.
  destruct (B t' c' Hin') as [T' C']. split; intros ->; congruence.
Qed.

Lemma loops_are_exclusive_witness :
  let s := performs [Bind 0 7; Bind 1 8; Run 0 7; Run 1 7; Run 1 8] state_init in
  current_context 1 s = Some 8%nat /\
  (forall t' c', (t', c') ∈ looping s -> (t' = 1%nat <-> c' = 8%nat)).
Proof.
  apply (loops_are_exclusive [Bind 0 7; Bind 1 8; Run 0 7; Run 1 7; Run 1 8] 1 8).
  - vm_compute. reflexivity.
  - apply list_elem_of_here.
Defined.

(** [assert_bind] does not keep a context on one thread: the second thread's
    [bind_this_thread] overwrites [m_thid], after which its [run] passes the
    test while the first thread is still inside its loop.  A thread that bound
    the context before keeps taking it for local, and would fill the local queue
    of the running loop.  And the end of an inner guard unbinds the outer context
    too: its [run] then throws although the guard it was given is alive. *)
Theorem binding_not_exclusive :
  looping (performs [Bind 0 7; Run 0 7; Bind 1 7; Run 1 7] state_init) = [(1, 7); (0, 7)]%nat /\
  (let s := performs [Bind 1 7; Bind 0 7; Run 0 7] state_init in
   looping s = [(0, 7)]%nat /\ is_in_local_thread 1 7 s = true) /\
  may_run 0 7 (performs [Bind 0 7; Bind 0 8; Unbind 0] state_init) = Some NotBound.
Proof. cbv zeta. repeat split. Qed.
