(* ===== verification/AtomicWait.v ===== *)
(** * [include/common/atomic_wait.hpp]: waiting for a change of an atomic

    The file gives [std::atomic_wait], [atomic_notify_one] and
    [atomic_notify_all] by one of several strategies, chosen by macros and by the
    type of the atomic: a futex on the atomic itself, a futex on the version
    counter of a contention table, a condition variable, or a loop that sleeps.

    Threads are waiters, which run [__cxx_atomic_wait(ptr, val, order)], and
    notifiers, which run a sequence of stores each followed by a notification.
    One step is one atomic access, one system call or one operation on a mutex
    or condition variable; threads interleave freely.  The sequentially
    consistent fences of the source separate the accesses of each side, so that
    interleaving is what they guarantee; a fence is not a step of its own.

    All objects that hash to one entry of the contention table share it, also
    objects of different types, whose strategies differ.  A notifier's entry
    [None] is a notification for another object of the same entry and strategy,
    which changes the entry and not the atomic; [neighbour_step] gives the
    accesses that waits on and notifications of any other object of the entry
    make to its fields.  Of the condition variable's neighbours the time for which
    a waiter of another object holds the mutex is left out. *)

From S2P Require Import Prelude.
From stdpp Require Import relations.
Local Open Scope Z_scope.

(** ** Choice of the strategy on Linux *)

Inductive strategy :=
| Direct (table : bool)
| Proxy
| Condvar
| Fallback.

(** The preprocessor's choice from [__NO_FUTEX], [__NO_CONDVAR], [__NO_TABLE] and
    [__type_used_directly]. *)
Definition select (no_futex no_condvar no_table used_directly : bool) : strategy :=
  if negb no_futex then
    if used_directly then Direct (negb no_table)
    else if negb no_table then Proxy else Fallback
  else if negb no_condvar then Condvar else Fallback.

(** ** State *)

(** Where a waiter is: before the first load, at turn [i] of the spin loop, at
    the test of the [while], in [__cxx_atomic_try_wait_slow] (the prefix gives
    the strategy), in the kernel, or returned after it saw [seen]. *)
Inductive wpc :=
| WFirst
| WSpin (i : nat)
| WLoop
| DAdd | DWait | DSub
| PStore | PVersion | PCheck (version : Z) | PWait (version : Z)
| CLock | CCredit | CCheck | CWait | CRelock | CUnlock
| FSleep (history : Z) | FLoad (history : Z)
| WAsleep
| WReturned (seen : Z).

(** Where a notifier is: between notifications, or in [__cxx_atomic_notify_*]. *)
Inductive npc :=
| NStore
| NLoad | NWake
| MBump | MExchange | MWake
| KLoad | KExchange | KLock | KUnlock | KBroadcast.

#[export] Instance wpc_eq_dec : EqDecision wpc.
Proof. solve_decision. Defined.
#[export] Instance npc_eq_dec : EqDecision npc.
Proof. solve_decision. Defined.

Inductive thread :=
| Waiter (val : Z) (pc : wpc)
| Notifier (one : bool) (todo : list (option Z)) (pc : npc).

(** The atomic, the entry of the table ([contended_t]) and the threads. *)
Record world := mk_world {
  value : Z;
  waiters : Z;
  version : Z;
  credit : Z;
  mutex : option nat;
  threads : list thread
}.

Definition set_value (x : Z) (w : world) : world :=
  mk_world x (waiters w) (version w) (credit w) (mutex w) (threads w).
Definition set_waiters (x : Z) (w : world) : world :=
  mk_world (value w) x (version w) (credit w) (mutex w) (threads w).
Definition set_version (x : Z) (w : world) : world :=
  mk_world (value w) (waiters w) x (credit w) (mutex w) (threads w).
Definition set_credit (x : Z) (w : world) : world :=
  mk_world (value w) (waiters w) (version w) x (mutex w) (threads w).
Definition set_mutex (x : option nat) (w : world) : world :=
  mk_world (value w) (waiters w) (version w) (credit w) x (threads w).
Definition set_threads (x : list thread) (w : world) : world :=
  mk_world (value w) (waiters w) (version w) (credit w) (mutex w) x.
Definition put (i : nat) (th : thread) (w : world) : world :=
  set_threads (<[i := th]> (threads w)) w.

Definition start (x : Z) (ths : list thread) : world := mk_world x 0 0 0 None ths.

(** ** Waking *)

(** Where a waiter goes on after it was woken, or was not put to sleep. *)
Definition after_wake (s : strategy) : wpc :=
  match s with
  | Direct true => DSub
  | Condvar => CRelock
  | Direct false | Proxy | Fallback => WLoop
  end.

Definition wake (s : strategy) (th : thread) : thread :=
  match th with
  | Waiter v WAsleep => Waiter v (after_wake s)
  | _ => th
  end.

Definition is_asleep (th : thread) : bool :=
  match th with Waiter _ WAsleep => true | _ => false end.

(** [FUTEX_WAKE] of [INT_MAX] waiters; [pthread_cond_broadcast]. *)
Definition wake_all (s : strategy) (w : world) : world :=
  set_threads (wake s <$> threads w) w.

(** [FUTEX_WAKE] of one waiter, the kernel's choice [j]; nothing if none sleeps. *)
Definition wake_one (s : strategy) (j : nat) (w : world) : option world :=
  if existsb is_asleep (threads w) then
    match threads w !! j with
    | Some (Waiter v WAsleep) => Some (put j (Waiter v (after_wake s)) w)
    | _ => None
    end
  else Some w.

(** ** The waiter *)

(** [history += history >> 2; if (history > (1 << 10)) history = 1 << 10;] *)
Definition next_history (h : Z) : Z :=
  let h := h + Z.shiftr h 2 in if 2 ^ 10 <? h then 2 ^ 10 else h.

(** Entry of [__cxx_atomic_try_wait_slow]. *)
Definition slow_entry (s : strategy) : wpc :=
  match s with
  | Direct true => DAdd
  | Direct false => DWait
  | Proxy => PStore
  | Condvar => CLock
  | Fallback => FSleep 10
  end.

(** The next step of a waiter for [v]: the new place and the change of the
    shared state; [None] when it is blocked. *)
Definition step_waiter (s : strategy) (i : nat) (v : Z) (pc : wpc) (w : world)
  : option (wpc * world) :=
  match pc with
  | WFirst => Some (if negb (value w =? v) then WReturned (value w) else WSpin 0, w)
  | WSpin n =>
      Some (if negb (value w =? v) then WReturned (value w)
            else if (S n =? 16)%nat then WLoop else WSpin (S n), w)
  | WLoop => Some (if v =? value w then slow_entry s else WReturned (value w), w)
  | DAdd => Some (DWait, set_waiters (wraps 32 (waiters w + 1)) w)
  | DWait => Some (if value w =? v then WAsleep else after_wake s, w)
  | DSub => Some (WLoop, set_waiters (wraps 32 (waiters w - 1)) w)
  | PStore => Some (PVersion, set_waiters 1 w)
  | PVersion => Some (PCheck (version w), w)
  | PCheck ver => Some (if negb (v =? value w) then WLoop else PWait ver, w)
  | PWait ver => Some (if version w =? ver then WAsleep else WLoop, w)
  | CLock | CRelock =>
      match mutex w with
      | None => Some (match pc with CLock => CCredit | _ => CUnlock end, set_mutex (Some i) w)
      | Some _ => None
      end
  | CCredit => Some (CCheck, set_credit 1 w)
  | CCheck => Some (if v =? value w then CWait else CUnlock, w)
  | CWait => Some (WAsleep, set_mutex None w)
  | CUnlock => Some (WLoop, set_mutex None w)
  | FSleep h => Some (FLoad (next_history h), w)
  | FLoad h => Some (if value w =? v then FSleep h else WLoop, w)
  | WAsleep | WReturned _ => None
  end.

(** The [timespec] of 2 seconds of the futex on [version]. *)
Definition timeout (s : strategy) (pc : wpc) : option wpc :=
  match s, pc with
  | Proxy, WAsleep => Some WLoop
  | _, _ => None
  end.

(** ** The notifier *)

Definition notify_entry (s : strategy) : npc :=
  match s with
  | Direct true => NLoad
  | Direct false => NWake
  | Proxy => MBump
  | Condvar => KLoad
  | Fallback => NStore
  end.

(** The next step of a notifier; [j] is the kernel's choice of a waiter. *)
Definition step_notifier (s : strategy) (i j : nat) (one : bool) (todo : list (option Z))
    (pc : npc) (w : world) : option (list (option Z) * npc * world) :=
  match pc with
  | NStore =>
      match todo with
      | [] => None
      | x :: todo =>
          Some (todo, notify_entry s, match x with Some v => set_value v w | None => w end)
      end
  | NLoad => Some (todo, if negb (waiters w =? 0) then NWake else NStore, w)
  | NWake => w' ← (if one then wake_one s j w else Some (wake_all s w)); Some (todo, NStore, w')
  | MBump => Some (todo, MExchange, set_version (wraps 32 (version w + 1)) w)
  | MExchange => Some (todo, if negb (waiters w =? 0) then MWake else NStore, set_waiters 0 w)
  | MWake => Some (todo, NStore, wake_all s w)
  | KLoad => Some (todo, if credit w =? 0 then NStore else KExchange, w)
  | KExchange => Some (todo, if negb (credit w =? 0) then KLock else NStore, set_credit 0 w)
  | KLock => match mutex w with
             | None => Some (todo, KUnlock, set_mutex (Some i) w)
             | Some _ => None
             end
  | KUnlock => Some (todo, KBroadcast, set_mutex None w)
  | KBroadcast => Some (todo, NStore, wake_all s w)
  end.

Definition step_at (s : strategy) (i j : nat) (w : world) : option world :=
  th ← threads w !! i;
  match th with
  | Waiter v pc => '(pc, w) ← step_waiter s i v pc w; Some (put i (Waiter v pc) w)
  | Notifier one todo pc =>
      '(todo, pc, w) ← step_notifier s i j one todo pc w;
      Some (put i (Notifier one todo pc) w)
  end.

Definition timeout_at (s : strategy) (i : nat) (w : world) : option world :=
  th ← threads w !! i;
  match th with
  | Waiter v pc => pc ← timeout s pc; Some (put i (Waiter v pc) w)
  | Notifier _ _ _ => None
  end.

Definition step (s : strategy) (w w' : world) : Prop := exists i j, step_at s i j w = Some w'.

(** Steps in which the timeout may fire. *)
Definition step_timed (s : strategy) (w w' : world) : Prop :=
  step s w w' \/ exists i, timeout_at s i w = Some w'.

(** ** Other objects of the same table entry *)

(** How many threads wait on other atomics that are used directly, and whether
    there are atomics that are waited on by proxy. *)
Record neighbours := mk_neighbours { direct_waiters : nat; proxied : bool }.

(** What their waits and notifications do to the entry; [k] of the directly used
    ones' waiters are counted in [waiters] at the time. *)
Inductive neighbour_step (nb : neighbours) : world * nat -> world * nat -> Prop :=
| direct_adds w k : (k < direct_waiters nb)%nat ->
    neighbour_step nb (w, k) (set_waiters (wraps 32 (waiters w + 1)) w, S k)
| direct_subs w k :
    neighbour_step nb (w, S k) (set_waiters (wraps 32 (waiters w - 1)) w, k)
| proxied_marks w k : proxied nb = true -> neighbour_step nb (w, k) (set_waiters 1 w, k)
| proxied_bumps w k : proxied nb = true ->
    neighbour_step nb (w, k) (set_version (wraps 32 (version w + 1)) w, k)
| proxied_exchanges w k : proxied nb = true -> neighbour_step nb (w, k) (set_waiters 0 w, k)
| condvar_credits w k : neighbour_step nb (w, k) (set_credit 1 w, k).

(** A step of one of the threads, or of a neighbour. *)
Definition own_step (s : strategy) (c c' : world * nat) : Prop :=
  step_timed s c.1 c'.1 /\ c'.2 = c.2.
Definition step_shared (s : strategy) (nb : neighbours) (c c' : world * nat) : Prop :=
  own_step s c c' \/ neighbour_step nb c c'.

(** The next step of one of the threads, after any number of the neighbours'. *)
Definition next_own (s : strategy) (nb : neighbours) (c c' : world * nat) : Prop :=
  exists c1, rtc (neighbour_step nb) c c1 /\ own_step s c1 c'.

(** ** Counting threads *)

Definition tot (f : thread -> nat) (l : list thread) : nat := sum_list_with f l.
Definition cnt (f : thread -> bool) (l : list thread) : nat := tot (fun th => Nat.b2n (f th)) l.

Lemma tot_insert f l i th th' :
  l !! i = Some th -> (tot f (<[i := th']> l) + f th = tot f l + f th')%nat.
Proof. apply sum_list_with_insert. Qed.

Lemma tot_ext f l l' : f <$> l = f <$> l' -> tot f l = tot f l'.
Proof.
  revert l'. unfold tot. induction l as [|a l IH]; intros [|a' l']; simpl; try done.
  intros [= -> E]. by rewrite (IH l').
Qed.

Lemma cnt_insert f l i th th' :
  l !! i = Some th -> (cnt f (<[i := th']> l) + Nat.b2n (f th) = cnt f l + Nat.b2n (f th'))%nat.
Proof. apply (tot_insert (fun th => Nat.b2n (f th))). Qed.

Lemma cnt_in f l i th : l !! i = Some th -> f th = true -> (1 <= cnt f l)%nat.
Proof.
  intros H Hf. unfold cnt, tot. revert i H. induction l as [|a l IH]; intros [|i]; simpl; [done..| |].
  - intros [= ->]. rewrite Hf. simpl. lia.
  - intros H. specialize (IH i H). lia.
Qed.

Lemma cnt_le f l : (cnt f l <= length l)%nat.
Proof. unfold cnt, tot. induction l as [|a l IH]; simpl; [lia|]. destruct (f a); simpl; lia. Qed.

Lemma cnt_mono (f g : thread -> bool) l :
  (forall th, f th = true -> g th = true) -> (cnt f l <= cnt g l)%nat.
Proof.
  intros H. unfold cnt, tot. induction l as [|a l IH]; simpl; [lia|].
  destruct (f a) eqn:E; [rewrite (H _ E)|]; simpl; lia.
Qed.

Lemma fmap_lookup_eq {A} (f : thread -> A) (l l' : list thread) (k : nat) t :
  f <$> l = f <$> l' -> l !! k = Some t -> exists t', l' !! k = Some t' /\ f t' = f t.
Proof.
  intros E H. apply (f_equal (fun l => l !! k)) in E. rewrite !list_lookup_fmap, H in E.
  destruct (l' !! k) as [t'|]; simplify_eq/=. eauto.
Qed.

(** ** Invariants of all strategies *)

(** What never changes of a thread. *)
Definition shape (th : thread) : Z + bool :=
  match th with Waiter v _ => inl v | Notifier one _ _ => inr one end.
Definition shapes (w : world) : list (Z + bool) := shape <$> threads w.

(** The places that occur under a strategy. *)
Definition wpc_ok (s : strategy) (pc : wpc) : bool :=
  match pc with
  | WFirst | WSpin _ | WLoop | WReturned _ => true
  | DAdd | DSub => match s with Direct b => b | _ => false end
  | DWait => match s with Direct _ => true | _ => false end
  | PStore | PVersion | PCheck _ | PWait _ => match s with Proxy => true | _ => false end
  | CLock | CCredit | CCheck | CWait | CRelock | CUnlock =>
      match s with Condvar => true | _ => false end
  | FSleep _ | FLoad _ => match s with Fallback => true | _ => false end
  | WAsleep => match s with Fallback => false | _ => true end
  end.

Definition npc_ok (s : strategy) (pc : npc) : bool :=
  match pc with
  | NStore => true
  | NLoad => match s with Direct b => b | _ => false end
  | NWake => match s with Direct _ => true | _ => false end
  | MBump | MExchange | MWake => match s with Proxy => true | _ => false end
  | KLoad | KExchange | KLock | KUnlock | KBroadcast =>
      match s with Condvar => true | _ => false end
  end.

(** A waiter returns only after it has seen another value. *)
Definition thread_ok (s : strategy) (th : thread) : Prop :=
  match th with
  | Waiter v pc => wpc_ok s pc = true /\ (forall x, pc = WReturned x -> x <> v)
  | Notifier _ _ pc => npc_ok s pc = true
  end.

Definition all_ok (P : thread -> Prop) (l : list thread) : Prop :=
  forall i th, l !! i = Some th -> P th.

Lemma all_ok_insert P l i th : all_ok P l -> P th -> all_ok P (<[i := th]> l).
Proof.
  intros H Hth j th' Hj. apply list_lookup_insert_Some in Hj as [(_ & <- & _)|[_ Hj]]; eauto.
Qed.

Lemma all_ok_map (P : thread -> Prop) g l :
  all_ok P l -> (forall th, P th -> P (g th)) -> all_ok P (g <$> l).
Proof.
  intros H Hg j th Hj. apply list_lookup_fmap_Some in Hj as (th' & -> & Hj). eauto.
Qed.

(** A step seen as a change of thread [i] in a world [w1] that keeps the other
    threads, or has woken some of them. *)
Lemma step_at_inv s i j w w' :
  step_at s i j w = Some w' ->
  (exists v pc pc' w1, threads w !! i = Some (Waiter v pc) /\
     step_waiter s i v pc w = Some (pc', w1) /\ w' = put i (Waiter v pc') w1) \/
  (exists one todo todo' pc pc' w1, threads w !! i = Some (Notifier one todo pc) /\
     step_notifier s i j one todo pc w = Some (todo', pc', w1) /\
     w' = put i (Notifier one todo' pc') w1).
Proof.
  unfold step_at. destruct (threads w !! i) as [[v pc|one todo pc]|] eqn:E; simpl; [| |done].
  - destruct (step_waiter s i v pc w) as [[pc' w1]|] eqn:E1; simpl; [|done]. intros [= <-].
    left. eauto 10.
  - destruct (step_notifier s i j one todo pc w) as [[[todo' pc'] w1]|] eqn:E1; simpl; [|done].
    intros [= <-]. right. exists one, todo, todo', pc, pc', w1. eauto.
Qed.

Lemma step_waiter_threads s i v pc w pc' w1 :
  step_waiter s i v pc w = Some (pc', w1) -> threads w1 = threads w.
Proof. destruct pc; simpl; try (intros; by simplify_eq/=); destruct (mutex w); intros; by simplify_eq/=. Qed.

(** What a notifier does to the other threads. *)
Lemma step_notifier_threads s i j one todo pc w todo' pc' w1 :
  step_notifier s i j one todo pc w = Some (todo', pc', w1) ->
  threads w1 = threads w \/ threads w1 = wake s <$> threads w \/
  one = true /\ pc = NWake /\ exists v, threads w !! j = Some (Waiter v WAsleep) /\
    threads w1 = <[j := Waiter v (after_wake s)]> (threads w).
Proof.
  destruct pc; simpl; intros H; simplify_eq/=; auto.
  - destruct todo as [|[]]; simplify_eq/=; auto.
  - destruct one; simplify_eq/=; [|auto]. unfold wake_one in H.
    destruct (existsb is_asleep (threads w)); simplify_eq/=; [|auto].
    destruct (threads w !! j) as [[v []|]|] eqn:E; simplify_eq/=. eauto 10.
  - destruct (mutex w); simplify_eq/=; auto.
Qed.

Lemma after_wake_ok s : wpc_ok s (after_wake s) = true.
Proof. by destruct s as [[]| | |]. Qed.

Lemma wake_ok s th : thread_ok s th -> thread_ok s (wake s th).
Proof.
  destruct th as [v []|]; simpl; auto. intros _. split; [apply after_wake_ok|].
  by destruct s as [[]| | |].
Qed.

Definition basic (s : strategy) (w : world) : Prop := all_ok (thread_ok s) (threads w).

(** The places stay within the strategy and waiters return rightly. *)
Lemma step_waiter_ok s i v pc w pc' w1 :
  step_waiter s i v pc w = Some (pc', w1) -> thread_ok s (Waiter v pc) ->
  thread_ok s (Waiter v pc').
Proof.
  intros H [Hok _]. destruct pc; simpl in *; try done;
    repeat (case_match; simplify_eq/=); boolp; try (split; [done | congruence]).
  by destruct s as [[]| | |].
Qed.

Lemma step_notifier_ok s i j one todo pc w todo' pc' w1 :
  step_notifier s i j one todo pc w = Some (todo', pc', w1) -> npc_ok s pc = true ->
  npc_ok s pc' = true.
Proof.
  intros H Hok. destruct pc; simpl in H.
  - destruct todo as [|x todo]; simplify_eq/=. by destruct s as [[]| | |].
  - simplify_eq/=. case_if; [by destruct s|done].
  - destruct (if one then _ else _); by simplify_eq/=.
  - by simplify_eq/=.
  - simplify_eq/=. by case_if.
  - by simplify_eq/=.
  - simplify_eq/=. by case_if.
  - simplify_eq/=. by case_if.
  - by destruct (mutex w); simplify_eq/=.
  - by simplify_eq/=.
  - by simplify_eq/=.
Qed.

(** What is kept by waking is kept of the other threads by a notifier. *)
Lemma step_notifier_all P s i j one todo pc w todo' pc' w1 :
  step_notifier s i j one todo pc w = Some (todo', pc', w1) ->
  (forall th, P th -> P (wake s th)) -> all_ok P (threads w) -> all_ok P (threads w1).
Proof.
  intros H HP HT. destruct (step_notifier_threads _ _ _ _ _ _ _ _ _ _ H) as [->|[->|(_ & _ & v & E & ->)]].
  - done.
  - by apply all_ok_map.
  - apply all_ok_insert; [done|]. apply (HP (Waiter v WAsleep)), (HT j), E.
Qed.

Lemma step_notifier_map {A} (f : thread -> A) s i j one todo pc w todo' pc' w1 :
  step_notifier s i j one todo pc w = Some (todo', pc', w1) ->
  (forall th, f (wake s th) = f th) -> f <$> threads w1 = f <$> threads w.
Proof.
  intros H Hf. destruct (step_notifier_threads _ _ _ _ _ _ _ _ _ _ H) as [->|[->|(_ & _ & v & E & ->)]].
  - done.
  - rewrite <- list_fmap_compose. apply list_fmap_ext. intros. apply Hf.
  - change (<[j:=Waiter v (after_wake s)]> (threads w))
      with (<[j := wake s (Waiter v WAsleep)]> (threads w)).
    rewrite list_fmap_insert, Hf. apply list_insert_id. by rewrite list_lookup_fmap, E.
Qed.

Lemma shape_wake s th : shape (wake s th) = shape th.
Proof. by destruct th as [v []|]. Qed.

Lemma map_shape_insert (l : list thread) (i : nat) th th' :
  l !! i = Some th -> shape th' = shape th -> shape <$> <[i := th']> l = shape <$> l.
Proof.
  intros H E. rewrite list_fmap_insert, E. apply list_insert_id. by rewrite list_lookup_fmap, H.
Qed.

Lemma basic_step s w w' : step_timed s w w' -> basic s w -> basic s w' /\ shapes w' = shapes w.
Proof.
  intros [(i & j & H)|[i H]] B; unfold basic, shapes.
  - apply step_at_inv in H as [(v & pc & pc' & w1 & E & H & ->)|(one & todo & todo' & pc & pc' & w1 & E & H & ->)];
      simpl.
    + rewrite (step_waiter_threads _ _ _ _ _ _ _ H). split; [|by eapply map_shape_insert].
      apply all_ok_insert; [done|]. eapply step_waiter_ok; [done|]. by apply (B i).
    + pose proof (step_notifier_map shape _ _ _ _ _ _ _ _ _ _ H (shape_wake s)) as Em. split.
      * apply all_ok_insert; [by eapply step_notifier_all; [|apply wake_ok|]|].
        simpl. eapply step_notifier_ok; [done|]. by apply (B i (Notifier one todo pc)).
      * rewrite list_fmap_insert, Em. apply list_insert_id. by rewrite list_lookup_fmap, E.
  - unfold timeout_at in H. destruct (threads w !! i) as [[v pc|]|] eqn:E; simplify_eq/=.
    destruct s, pc; simplify_eq/=. split; [|by eapply map_shape_insert].
    by apply all_ok_insert.
Qed.

(** ** No lost wake-up: futex on the atomic *)

Definition at_npc (P : npc -> bool) (th : thread) : bool :=
  match th with Notifier _ _ pc => P pc | _ => false end.

(** A notifier inside a notification. *)
Definition busy (pc : npc) : bool := match pc with NStore => false | _ => true end.

(** A waiter between its two changes of [waiters]. *)
Definition inside (th : thread) : bool :=
  match th with Waiter _ (DWait | WAsleep | DSub) => true | _ => false end.

(** Every waiter that a notification finds asleep is woken by it: all are
    woken, or there is one waiter only. *)
Definition polite (l : list (Z + bool)) : Prop :=
  inr true ∉ l \/ forall i j v v', l !! i = Some (inl v) -> l !! j = Some (inl v') -> i = j.

(** A sleeper's value is current, or a notifier is on its way to wake it. *)
Definition attended (P : npc -> bool) (w : world) : Prop :=
  forall i v, threads w !! i = Some (Waiter v WAsleep) ->
    value w = v \/ (1 <= cnt (at_npc P) (threads w))%nat.

(** [k] waiters of other objects are counted too. *)
Record direct_inv (b : bool) (k : nat) (w : world) : Prop := {
  di_attended : attended busy w;
  di_waiters : b = true -> waiters w = Z.of_nat (cnt inside (threads w)) + Z.of_nat k
}.

Lemma cnt_npc_waiter P l i v pc pc' :
  l !! i = Some (Waiter v pc) -> cnt (at_npc P) (<[i := Waiter v pc']> l) = cnt (at_npc P) l.
Proof. intros H. pose proof (cnt_insert (at_npc P) _ _ _ (Waiter v pc') H). simpl in *. lia. Qed.

Lemma at_npc_wake P s th : at_npc P (wake s th) = at_npc P th.
Proof. by destruct th as [v []|]. Qed.

(** A waiter's own step keeps the others attended. *)
Lemma attended_waiter P w w1 i v pc pc' :
  attended P w -> threads w !! i = Some (Waiter v pc) ->
  threads w1 = threads w -> value w1 = value w ->
  (pc' = WAsleep -> value w = v \/ (1 <= cnt (at_npc P) (threads w))%nat) ->
  attended P (put i (Waiter v pc') w1).
Proof.
  intros A E Et Ev Hs j v' Hj. simpl in *. rewrite Et, Ev in *.
  rewrite (cnt_npc_waiter _ _ _ _ pc) by done.
  apply list_lookup_insert_Some in Hj as [(-> & [= -> ->] & _)|[_ Hj]]; eauto.
Qed.

(** Nobody sleeps after a wake-up. *)
Lemma wake_no_sleeper s (l : list thread) (i : nat) v : (wake s <$> l) !! i <> Some (Waiter v WAsleep).
Proof.
  intros H. apply list_lookup_fmap_Some in H as (th & E & _).
  destruct th as [? []|]; simplify_eq/=. by destruct s as [[]| | |].
Qed.

Lemma attended_awake P w : (forall i v, threads w !! i <> Some (Waiter v WAsleep)) -> attended P w.
Proof. intros H i v Hi. by destruct (H i v). Qed.

Lemma step_waiter_value s i v pc w pc' w1 :
  step_waiter s i v pc w = Some (pc', w1) -> value w1 = value w.
Proof. destruct pc; simpl; try (intros; by simplify_eq/=); destruct (mutex w); intros; by simplify_eq/=. Qed.

(** Nobody sleeps in a world in which thread [i] became a notifier. *)
Lemma no_sleeper_put w i one todo pc :
  (forall j v, threads w !! j <> Some (Waiter v WAsleep)) ->
  forall j v, threads (put i (Notifier one todo pc) w) !! j <> Some (Waiter v WAsleep).
Proof. intros H j v Hj. apply list_lookup_insert_Some in Hj as [(_ & ? & _)|[_ Hj]]; [done|]. by apply (H j v). Qed.

Lemma existsb_no_sleeper l :
  existsb is_asleep l = false -> forall (j : nat) v, l !! j <> Some (Waiter v WAsleep).
Proof.
  intros H j v Hj. apply list_elem_of_lookup_2, list_elem_of_In in Hj.
  assert (existsb is_asleep l = true) by (apply existsb_exists; eauto). congruence.
Qed.

(** A polite wake-up leaves nobody asleep. *)
Lemma nwake_no_sleeper s i j one todo w todo' pc' w1 :
  step_notifier s i j one todo NWake w = Some (todo', pc', w1) -> polite (shapes w) ->
  threads w !! i = Some (Notifier one todo NWake) ->
  forall k v, threads w1 !! k <> Some (Waiter v WAsleep).
Proof.
  simpl. intros H Hp Hi. destruct one; simplify_eq/=; [|intros k v; apply wake_no_sleeper].
  unfold wake_one in H. destruct (existsb is_asleep (threads w)) eqn:Ex; simplify_eq/=;
    [|by apply existsb_no_sleeper].
  destruct (threads w !! j) as [[v' []|]|] eqn:Ej; simplify_eq/=.
  intros k v Hk. apply list_lookup_insert_Some in Hk as [(_ & ? & _)|[Hne Hk]]; [by destruct s as [[]| | |]|].
  destruct Hp as [Hp|Hp].
  - apply Hp. apply list_elem_of_lookup. exists i. unfold shapes. by rewrite list_lookup_fmap, Hi.
  - apply Hne, (Hp j k v' v); unfold shapes; by rewrite list_lookup_fmap, ?Ej, ?Hk.
Qed.

(** How a notifier's step changes a total that waking does not change. *)
Lemma tot_notifier f s i j one todo pc w todo' pc' w1 :
  step_notifier s i j one todo pc w = Some (todo', pc', w1) ->
  (forall th, f (wake s th) = f th) -> threads w !! i = Some (Notifier one todo pc) ->
  (tot f (threads (put i (Notifier one todo' pc') w1)) + f (Notifier one todo pc) =
   tot f (threads w) + f (Notifier one todo' pc'))%nat.
Proof.
  intros H Hf Hi. simpl. pose proof (step_notifier_map f _ _ _ _ _ _ _ _ _ _ H Hf) as Em.
  destruct (fmap_lookup_eq f _ _ _ _ (eq_sym Em) Hi) as (th & E1 & Hth).
  pose proof (tot_insert f _ _ _ (Notifier one todo' pc') E1). rewrite (tot_ext f _ _ Em), Hth in *. lia.
Qed.

Lemma cnt_notifier f s i j one todo pc w todo' pc' w1 :
  step_notifier s i j one todo pc w = Some (todo', pc', w1) ->
  (forall th, f (wake s th) = f th) -> threads w !! i = Some (Notifier one todo pc) ->
  (cnt f (threads (put i (Notifier one todo' pc') w1)) + Nat.b2n (f (Notifier one todo pc)) =
   cnt f (threads w) + Nat.b2n (f (Notifier one todo' pc')))%nat.
Proof.
  intros H Hf Hi.
  apply (tot_notifier (fun th => Nat.b2n (f th)) _ _ _ _ _ _ _ _ _ _ H); [|done].
  intros th. by rewrite Hf.
Qed.

Lemma cnt_npc_notifier P s i j one todo pc w todo' pc' w1 :
  step_notifier s i j one todo pc w = Some (todo', pc', w1) ->
  threads w !! i = Some (Notifier one todo pc) ->
  (cnt (at_npc P) (threads (put i (Notifier one todo' pc') w1)) + Nat.b2n (P pc) =
   cnt (at_npc P) (threads w) + Nat.b2n (P pc'))%nat.
Proof. intros H Hi. by apply (cnt_notifier (at_npc P) _ _ _ _ _ _ _ _ _ _ H (at_npc_wake P s)). Qed.

(** A notifier that stays on its way keeps the sleepers attended. *)
Lemma attended_notifier P s i j one todo pc w todo' pc' w1 :
  step_notifier s i j one todo pc w = Some (todo', pc', w1) ->
  threads w !! i = Some (Notifier one todo pc) -> threads w1 = threads w ->
  P pc' = true -> attended P (put i (Notifier one todo' pc') w1).
Proof.
  intros H Hi _ HP k v _. right. pose proof (cnt_npc_notifier P _ _ _ _ _ _ _ _ _ _ H Hi) as C.
  rewrite HP in C. destruct (P pc) eqn:E; simpl in C; [|simpl; lia].
  pose proof (cnt_in (at_npc P) _ _ _ Hi E). simpl. lia.
Qed.

Lemma direct_step_waiter b k i v pc w pc' w1 :
  threads w !! i = Some (Waiter v pc) -> step_waiter (Direct b) i v pc w = Some (pc', w1) ->
  wpc_ok (Direct b) pc = true -> Z.of_nat (length (threads w) + k) < 2 ^ 31 ->
  direct_inv b k w -> direct_inv b k (put i (Waiter v pc') w1).
Proof.
  intros Hi H Hok Hl [A W]. split.
  - apply (attended_waiter _ w _ _ _ pc); eauto using step_waiter_threads, step_waiter_value.
    intros ->. left. destruct pc; simpl in *; repeat (case_match; simplify_eq/=); by boolp.
  - intros Hb. specialize (W Hb). subst b.
    pose proof (cnt_insert inside _ _ _ (Waiter v pc') Hi) as C.
    pose proof (cnt_le inside (<[i := Waiter v pc']> (threads w))) as L. rewrite length_insert in L.
    simpl. rewrite (step_waiter_threads _ _ _ _ _ _ _ H).
    destruct pc; simpl in *; simplify_eq/=; repeat (case_match; simplify_eq/=); try lia.
    + rewrite wraps_small by (change (2 ^ (32 - 1)) with (2 ^ 31); lia). lia.
    + rewrite wraps_small by (change (2 ^ (32 - 1)) with (2 ^ 31); lia). lia.
Qed.

Lemma inside_wake th : inside (wake (Direct true) th) = inside th.
Proof. by destruct th as [v []|]. Qed.

Ltac step_notifier_cases H :=
  simpl in H; unfold wake_one in H; repeat (case_match; simplify_eq/=).

Lemma direct_step b k w w' :
  step (Direct b) w w' -> basic (Direct b) w -> polite (shapes w) ->
  Z.of_nat (length (threads w) + k) < 2 ^ 31 -> direct_inv b k w -> direct_inv b k w'.
Proof.
  intros (i & j & H) B Hp Hl I.
  apply step_at_inv in H as [(v & pc & pc' & w1 & E & H & ->)|(one & todo & todo' & pc & pc' & w1 & E & H & ->)].
  { eapply direct_step_waiter; eauto. by apply (B i (Waiter v pc)). }
  pose proof (B i _ E) as Hok. destruct I as [A W]. split.
  - destruct pc; simpl in Hok; try done.
    + eapply attended_notifier; eauto; simpl in H; destruct todo as [|[]]; simplify_eq/=; by destruct b.
    + destruct b; [|done]. specialize (W eq_refl). destruct (waiters w =? 0) eqn:Ew.
      * apply attended_awake, no_sleeper_put. simpl in H. rewrite Ew in H. simplify_eq/=. boolp.
        intros n v Hn. pose proof (cnt_in inside _ _ _ Hn eq_refl). lia.
      * eapply attended_notifier; eauto; simpl in H; rewrite Ew in H; by simplify_eq/=.
    + apply attended_awake, no_sleeper_put. by eapply nwake_no_sleeper.
  - intros Hb. subst b. pose proof (cnt_notifier inside _ _ _ _ _ _ _ _ _ _ H inside_wake E) as C.
    assert (Ew : waiters w1 = waiters w) by (by destruct pc; simpl in H; try done; step_notifier_cases H).
    cbn in C |- *. rewrite Ew, W by done. lia.
Qed.

(** ** No lost wake-up: condition variable *)

Definition holds (th : thread) : bool :=
  match th with
  | Waiter _ (CCredit | CCheck | CWait | CUnlock) | Notifier _ _ KUnlock => true
  | _ => false
  end.

Definition locking (pc : npc) : bool := match pc with KLock => true | _ => false end.
Definition coming (pc : npc) : bool :=
  match pc with KLoad | KExchange | KLock => true | _ => false end.
Definition waking (pc : npc) : bool :=
  match pc with KLock | KUnlock | KBroadcast => true | _ => false end.

(** What protects a waiter: until it sleeps it holds the mutex, so that a
    notifier that took its credit is still before its lock; once it sleeps such a
    notifier may be anywhere up to the broadcast. *)
Definition guard (w : world) (v : Z) (pc : wpc) : Prop :=
  let n P := cnt (at_npc P) (threads w) in
  match pc with
  | CCheck => credit w <> 0 \/ (1 <= n locking)%nat
  | CWait => (credit w <> 0 \/ (1 <= n locking)%nat) /\ (value w = v \/ (1 <= n coming)%nat)
  | WAsleep => (credit w <> 0 \/ (1 <= n waking)%nat) /\ (value w = v \/ (1 <= n busy)%nat)
  | _ => True
  end.

Definition guarded (w : world) : Prop :=
  forall i v pc, threads w !! i = Some (Waiter v pc) -> guard w v pc.

Lemma holds_wake th : holds (wake Condvar th) = holds th.
Proof. by destruct th as [v []|]. Qed.

(** One holder of the mutex, before and after thread [i] moved. *)
Definition one_holder (w : world) : Prop :=
  (forall k t, threads w !! k = Some t -> holds t = true -> mutex w = Some k) /\
  (forall k, mutex w = Some k -> exists t, threads w !! k = Some t /\ holds t = true).

Lemma one_holder_put w w1 i th th' :
  holds <$> threads w1 = holds <$> threads w -> threads w !! i = Some th ->
  (mutex w1 = mutex w /\ holds th' = holds th \/
   mutex w = None /\ mutex w1 = Some i /\ holds th' = true \/
   holds th = true /\ mutex w1 = None /\ holds th' = false) ->
  one_holder w -> one_holder (put i th' w1).
Proof.
  intros Hf Hi Hm [Hx Hh]. destruct (fmap_lookup_eq holds _ _ _ _ (eq_sym Hf) Hi) as (ti & Ei & _).
  split.
  - intros k t Hk Ht. simpl in *. apply list_lookup_insert_Some in Hk as [(-> & -> & _)|[Hne Hk]].
    + destruct Hm as [[-> E]|[(_ & -> & _)|(_ & _ & E)]]; [|done|congruence].
      eapply Hx; [done | congruence].
    + destruct (fmap_lookup_eq holds _ _ _ _ Hf Hk) as (t0 & Hk0 & E0).
      pose proof (Hx k t0 Hk0 ltac:(congruence)) as Hxk.
      destruct Hm as [[-> E]|[(E & _)|(E & _)]]; [done | congruence |].
      specialize (Hx i th Hi E). congruence.
  - intros k Hk. simpl in *. destruct (decide (i = k)) as [<-|Hne].
    + rewrite list_lookup_insert_eq by (by eapply lookup_lt_Some). exists th'. split; [done|].
      destruct Hm as [[E Et]|[(_ & _ & ?)|(_ & E & _)]]; [|done|congruence].
      rewrite E in Hk. destruct (Hh _ Hk) as (t & Ht & ?). congruence.
    + rewrite list_lookup_insert_ne by done.
      destruct Hm as [[E Et]|[(_ & E & ?)|(_ & E & _)]]; [|congruence|congruence].
      rewrite E in Hk. destruct (Hh _ Hk) as (t & Ht & ?).
      destruct (fmap_lookup_eq holds _ _ _ _ (eq_sym Hf) Ht) as (t1 & ? & ?).
      exists t1. split; [done|congruence].
Qed.

Lemma one_holder_step w w' :
  step Condvar w w' -> basic Condvar w -> one_holder w -> one_holder w'.
Proof.
  intros (i & j & H) B O.
  apply step_at_inv in H as [(v & pc & pc' & w1 & E & H & ->)|(one & todo & todo' & pc & pc' & w1 & E & H & ->)].
  - apply (one_holder_put w _ _ (Waiter v pc)); auto; [by rewrite (step_waiter_threads _ _ _ _ _ _ _ H)|].
    pose proof (B i _ E) as [Hok _]. destruct pc; simpl in *; try done;
      repeat (case_match; simplify_eq/=); auto 10.
  - apply (one_holder_put w _ _ (Notifier one todo pc)); auto;
      [by apply (step_notifier_map holds _ _ _ _ _ _ _ _ _ _ H), holds_wake|].
    pose proof (B i _ E) as Hok. destruct pc; simpl in *; try done;
      repeat (case_match; simplify_eq/=); auto 10.
Qed.

(** A waiter that leaves the others' protection as it is. *)
Lemma guarded_waiter w w1 i v pc pc' :
  guarded w -> threads w !! i = Some (Waiter v pc) -> threads w1 = threads w ->
  value w1 = value w -> (credit w1 = credit w \/ credit w1 <> 0) ->
  guard (put i (Waiter v pc') w1) v pc' -> guarded (put i (Waiter v pc') w1).
Proof.
  intros G E Et Ev Hc Hg k v' pck Hk. simpl in Hk. rewrite Et in Hk.
  apply list_lookup_insert_Some in Hk as [(_ & [= <- <-] & _)|[_ Hk]]; [done|].
  specialize (G k v' pck Hk). unfold guard in *. cbn [threads put set_threads value credit] in *.
  rewrite Et, Ev, !(cnt_npc_waiter _ _ _ _ pc) by done.
  destruct pck; auto; intuition congruence.
Qed.

Lemma condvar_step_waiter i v pc w pc' w1 :
  threads w !! i = Some (Waiter v pc) -> step_waiter Condvar i v pc w = Some (pc', w1) ->
  wpc_ok Condvar pc = true -> guarded w -> guarded (put i (Waiter v pc') w1).
Proof.
  intros Hi H Hok G. pose proof (G _ _ _ Hi) as Gi.
  eapply guarded_waiter; eauto using step_waiter_threads, step_waiter_value.
  - destruct pc; simpl in *; simplify_eq/=; repeat (case_match; simplify_eq/=); first [by left | by right].
  - pose proof (step_waiter_threads _ _ _ _ _ _ _ H) as Et.
    unfold guard in *. cbn [threads put set_threads value credit] in *. rewrite Et.
    rewrite !(cnt_npc_waiter _ _ _ _ pc) by done.
    pose proof (cnt_mono (at_npc locking) (at_npc waking) (threads w) ltac:(by intros [|? ? []])).
    pose proof (cnt_mono (at_npc coming) (at_npc busy) (threads w) ltac:(by intros [|? ? []])).
    destruct pc; simpl in *; simplify_eq/=; repeat (case_match; simplify_eq/=); boolp; auto; lia.
Qed.

Lemma condvar_step w w' :
  step Condvar w w' -> basic Condvar w -> one_holder w -> guarded w -> guarded w'.
Proof.
  intros (i & j & H) B O G.
  apply step_at_inv in H as [(v & pc & pc' & w1 & E & H & ->)|(one & todo & todo' & pc & pc' & w1 & E & H & ->)].
  { eapply condvar_step_waiter; eauto. by apply (B i (Waiter v pc)). }
  pose proof (B i _ E) as Hok.
  pose proof (fun P => cnt_npc_notifier P _ _ _ _ _ _ _ _ _ _ H E) as C.
  pose proof (C locking) as C1. pose proof (C coming) as C2.
  pose proof (C waking) as C3. pose proof (C busy) as C4.
  intros k v pck Hk. cbn [threads put set_threads] in Hk.
  apply list_lookup_insert_Some in Hk as [(_ & ? & _)|[_ Hk]]; [done|].
  unfold guard. cbn [value credit put set_threads] in *.
  set (n1 := cnt (at_npc locking) _) in *. set (n2 := cnt (at_npc coming) _) in *.
  set (n3 := cnt (at_npc waking) _) in *. set (n4 := cnt (at_npc busy) _) in *.
  pose proof (cnt_mono (at_npc waking) (at_npc busy) (threads (put i (Notifier one todo' pc') w1))
    ltac:(by intros [|? ? []])) as M1.
  pose proof (cnt_mono (at_npc locking) (at_npc coming) (threads (put i (Notifier one todo' pc') w1))
    ltac:(by intros [|? ? []])) as M2.
  fold n1 n2 n3 n4 in M1, M2. clearbody n1 n2 n3 n4.
  destruct (decide (pc = KBroadcast)) as [->|Hne].
  - simplify_eq/=. apply list_lookup_fmap_Some in Hk as ([v0 pc0|] & E0 & Hk); [|done].
    specialize (G _ _ _ Hk). unfold guard in G.
    destruct pc0; simplify_eq/=; auto; lia.
  - assert (Et : threads w1 = threads w)
      by (destruct pc; try done; simpl in H; repeat (case_match; simplify_eq/=); by simplify_eq/=).
    assert (Hk0 : threads w !! k = Some (Waiter v pck)) by congruence.
    specialize (G _ _ _ Hk0). unfold guard in G.
    assert (L : holds (Waiter v pck) = true -> pc <> KLock).
    { intros Hh ->. simpl in H. by rewrite (proj1 O _ _ Hk0 Hh) in H. }
    destruct pck; auto; destruct pc; simpl in Hok; try done; try (by destruct (L eq_refl));
      simpl in H; repeat (case_match; simplify_eq/=); simplify_eq/=; boolp; lia.
Qed.

(** ** Waiting ends *)

Definition initial (th : thread) : Prop :=
  match th with Waiter _ pc => pc = WFirst | Notifier _ _ pc => pc = NStore end.

(** All notifications have been made. *)
Definition notified (w : world) : Prop :=
  all_ok (fun th => match th with Notifier _ todo pc => todo = [] /\ pc = NStore | _ => True end)
    (threads w).

(** The atomic has another value than every waiter waits for to go. *)
Definition changed (w : world) : Prop :=
  all_ok (fun th => match th with Waiter v _ => value w <> v | _ => True end) (threads w).

Definition all_returned (w : world) : Prop :=
  all_ok (fun th => match th with Waiter v pc => exists x, pc = WReturned x /\ x <> v | _ => True end)
    (threads w).

Definition inv (s : strategy) (k : nat) (w : world) : Prop :=
  basic s w /\
  match s with
  | Direct b => direct_inv b k w
  | Condvar => one_holder w /\ guarded w
  | Proxy | Fallback => True
  end.

Lemma timeout_at_proxy s i w w' : timeout_at s i w = Some w' -> s = Proxy.
Proof.
  unfold timeout_at. destruct (threads w !! i) as [[v pc|]|]; simpl; try done.
  by destruct s.
Qed.

Lemma wait_start_inv s x ths : all_ok initial ths -> inv s 0 (start x ths).
Proof.
  intros F.
  assert (Hz : forall f, (forall th, initial th -> f th = false) -> cnt f ths = 0%nat).
  { intros f Hf. clear -F Hf. unfold cnt, tot. induction ths as [|a l IH]; simpl; [done|].
    rewrite (Hf a (F 0%nat a eq_refl)), IH; [done|]. intros i th. apply (F (S i)). }
  assert (Hs : forall i v pc, ths !! i = Some (Waiter v pc) -> pc = WFirst)
    by (intros i v pc Hi; apply (F i _ Hi)).
  split; [|destruct s as [b| | |]; try done].
  - intros i th Hi. specialize (F i th Hi). destruct th; simpl in *; by subst.
  - split; [intros i v Hi; by apply Hs in Hi|]. intros _. simpl. rewrite Hz; [done|].
    intros [] ?; simpl in *; by subst.
  - split; [split; [|done]|].
    + intros i th Hi Hh. specialize (F i th Hi). destruct th; simpl in *; by subst.
    + intros i v pc Hi. by rewrite (Hs _ _ _ Hi).
Qed.

Lemma inv_step s k w w' :
  step_timed s w w' -> inv s k w -> polite (shapes w) ->
  Z.of_nat (length (shapes w) + k) < 2 ^ 31 -> inv s k w' /\ shapes w' = shapes w.
Proof.
  intros H [B I] Hp Hl. unfold shapes in Hl. rewrite length_fmap in Hl.
  destruct (basic_step _ _ _ H B) as [B' E]. split; [|done]. split; [done|].
  destruct H as [H|[i H]]; [|by rewrite (timeout_at_proxy _ _ _ _ H) in *].
  destruct s as [b| | |]; try done.
  - by eapply direct_step.
  - destruct I. split; [by eapply one_holder_step | by eapply condvar_step].
Qed.

Lemma wait_reach_inv s w w' :
  rtc (step_timed s) w w' -> inv s 0 w -> polite (shapes w) ->
  Z.of_nat (length (shapes w)) < 2 ^ 31 -> inv s 0 w' /\ shapes w' = shapes w.
Proof.
  intros R. induction R as [w|w w1 w2 H _ IH]; intros I Hp Hl; [done|].
  destruct (inv_step _ _ _ _ H I Hp ltac:(lia)) as [I1 E1]. rewrite <- E1 in Hp, Hl |- *. by apply IH.
Qed.

(** The neighbours leave the atomic and the threads alone. *)
Lemma neighbour_keeps nb c c' :
  neighbour_step nb c c' -> threads c'.1 = threads c.1 /\ value c'.1 = value c.1.
Proof. by destruct 1. Qed.

(** What neighbours may do without harm to the waiters of a strategy. *)
Definition harmless (s : strategy) (nb : neighbours) : Prop := s = Direct true -> proxied nb = false.

Lemma neighbour_inv s nb c c' :
  neighbour_step nb c c' -> harmless s nb -> inv s c.2 c.1 -> (c.2 <= direct_waiters nb)%nat ->
  Z.of_nat (length (threads c.1) + direct_waiters nb) < 2 ^ 31 ->
  inv s c'.2 c'.1 /\ (c'.2 <= direct_waiters nb)%nat.
Proof.
  intros H Hh [B I] Hk Hl. pose proof (neighbour_keeps _ _ _ H) as [Et Ev].
  split; [|destruct H; simpl in *; lia]. split; [unfold basic; by rewrite Et|].
  destruct s as [b| | |]; try done.
  - destruct I as [A W]. split; [unfold attended; by rewrite Et, Ev|].
    intros ->. rewrite Et. specialize (W eq_refl). specialize (Hh eq_refl).
    pose proof (cnt_le inside (threads c.1)) as L.
    destruct H; simpl in *; try congruence; rewrite ?wraps_small by (change (2 ^ (32 - 1)) with (2 ^ 31); lia); lia.
  - destruct I as [[O1 O2] G]. split.
    + unfold one_holder. rewrite Et. by destruct H.
    + intros i v pc Hi. rewrite Et in Hi. specialize (G _ _ _ Hi). unfold guard in *. rewrite Et, Ev.
      assert (credit c'.1 = credit c.1 \/ credit c'.1 <> 0) as Hc by (destruct H; simpl; auto).
      destruct pc; auto; intuition congruence.
Qed.

Lemma shared_inv s nb c c' :
  rtc (step_shared s nb) c c' -> harmless s nb -> inv s c.2 c.1 -> (c.2 <= direct_waiters nb)%nat ->
  polite (shapes c.1) -> Z.of_nat (length (shapes c.1) + direct_waiters nb) < 2 ^ 31 ->
  inv s c'.2 c'.1 /\ shapes c'.1 = shapes c.1 /\ (c'.2 <= direct_waiters nb)%nat.
Proof.
  intros R. induction R as [c|c c1 c2 H _ IH]; intros Hh I Hk Hp Hl; [done|].
  assert (inv s c1.2 c1.1 /\ shapes c1.1 = shapes c.1 /\ (c1.2 <= direct_waiters nb)%nat) as (I1 & E1 & K1).
  { destruct H as [[H E]|H].
    - rewrite E. destruct (inv_step _ _ _ _ H I Hp ltac:(lia)). done.
    - assert (shapes c1.1 = shapes c.1) by (unfold shapes; by rewrite (proj1 (neighbour_keeps _ _ _ H))).
      unfold shapes in Hl. rewrite length_fmap in Hl.
      destruct (neighbour_inv _ _ _ _ H Hh I Hk Hl). done. }
  rewrite <- E1 in Hp, Hl |- *. by apply IH.
Qed.

(** Steps left to a waiter that can no longer find its value. *)
Definition pc_left (pc : wpc) : nat :=
  match pc with
  | WReturned _ => 0
  | WFirst | WSpin _ | WLoop => 1
  | DSub | PCheck _ | CUnlock | FLoad _ => 2
  | DWait | PVersion | CCheck | CRelock | FSleep _ => 3
  | DAdd | PStore | CCredit => 4
  | CLock => 5
  | WAsleep => 6
  | PWait _ | CWait => 7
  end.

Definition waiter_left (th : thread) : nat := match th with Waiter _ pc => pc_left pc | _ => 0 end.
Definition steps_left (w : world) : nat := tot waiter_left (threads w).

(** After the last notification only waiters move, and each comes closer to its end. *)
Lemma quiet_step s w w' :
  step_timed s w w' -> basic s w -> notified w -> changed w ->
  notified w' /\ changed w' /\ (steps_left w' < steps_left w)%nat.
Proof.
  intros H B N C.
  assert (exists i v pc pc' w1, threads w !! i = Some (Waiter v pc) /\ (pc_left pc' < pc_left pc)%nat /\
            threads w1 = threads w /\ value w1 = value w /\ w' = put i (Waiter v pc') w1)
    as (i & v & pc & pc' & w1 & Hi & Hlt & Et & Ev & ->).
  { destruct H as [(i & j & H)|[i H]].
    - apply step_at_inv in H as [(v & pc & pc' & w1 & E & H & ->)|(one & todo & todo' & pc & pc' & w1 & E & H & _)].
      + exists i, v, pc, pc', w1. split_and!; eauto using step_waiter_threads, step_waiter_value.
        pose proof (C _ _ E) as Hv. pose proof (B _ _ E) as [Hok _]. simpl in Hv.
        destruct pc; simpl in *; try done; simplify_eq/=; repeat (case_match; simplify_eq/=); boolp;
          simpl; first [lia | congruence | by destruct s as [[]| | |]; simpl; lia].
      + destruct (N _ _ E) as [-> ->]. done.
    - unfold timeout_at in H. destruct (threads w !! i) as [[v pc|]|] eqn:E; simplify_eq/=.
      destruct s, pc; simplify_eq/=. exists i, v, WAsleep, WLoop, w. split_and!; try done. simpl. lia. }
  split_and!.
  - unfold notified. simpl. rewrite Et. by apply all_ok_insert.
  - unfold changed. simpl. rewrite Et, Ev. apply all_ok_insert; [done|]. apply (C _ _ Hi).
  - unfold steps_left. simpl. rewrite Et.
    pose proof (tot_insert waiter_left _ _ _ (Waiter v pc') Hi). simpl in *. lia.
Qed.

Definition quiet (s : strategy) (w : world) : Prop := basic s w /\ notified w /\ changed w.

Lemma quiet_own s c c' :
  own_step s c c' -> quiet s c.1 -> quiet s c'.1 /\ (steps_left c'.1 < steps_left c.1)%nat.
Proof.
  intros [H _] (B & N & C). destruct (quiet_step _ _ _ H B N C) as (N' & C' & L).
  split; [|done]. split; [|done]. by apply (basic_step _ _ _ H).
Qed.

Lemma quiet_neighbour s nb c c' :
  neighbour_step nb c c' -> quiet s c.1 -> quiet s c'.1 /\ steps_left c'.1 = steps_left c.1.
Proof.
  intros H. destruct (neighbour_keeps _ _ _ H) as [Et Ev].
  unfold quiet, basic, notified, changed, steps_left. by rewrite Et, Ev.
Qed.

Lemma quiet_shared s nb c c' : rtc (step_shared s nb) c c' -> quiet s c.1 -> quiet s c'.1.
Proof.
  intros R. induction R as [|c c1 c2 [H|H] _ IH]; [done|intros Q; apply IH..].
  - by apply (quiet_own _ _ _ H).
  - by apply (quiet_neighbour _ _ _ _ H).
Qed.

Lemma quiet_neighbours s nb c c' :
  rtc (neighbour_step nb) c c' -> quiet s c.1 -> quiet s c'.1 /\ steps_left c'.1 = steps_left c.1.
Proof.
  intros R. induction R as [|c c1 c2 H _ IH]; [done|]. intros Q.
  destruct (quiet_neighbour s _ _ _ H Q) as [Q1 <-]. by apply IH.
Qed.

Lemma quiet_sn s nb c : quiet s c.1 -> sn (next_own s nb) c.
Proof.
  remember (steps_left c.1) as n eqn:En. revert c En.
  induction n as [n IH] using lt_wf_ind. intros c -> Q. constructor. intros c' (c1 & R & H).
  destruct (quiet_neighbours s _ _ _ R Q) as [Q1 E1]. destruct (quiet_own _ _ _ H Q1) as [Q' L].
  eapply IH; [|done|done]. lia.
Qed.

(** A waiter can move unless it has returned, sleeps, or finds the mutex taken. *)
Lemma waiter_moves_at s w i v pc :
  threads w !! i = Some (Waiter v pc) ->
  (exists x, pc = WReturned x) \/ pc = WAsleep \/
  (exists w', step_at s i 0 w = Some w') \/ ((pc = CLock \/ pc = CRelock) /\ exists k, mutex w = Some k).
Proof.
  intros Hi. unfold step_at. rewrite Hi. simpl.
  destruct (step_waiter s i v pc w) as [[pc' w1]|] eqn:E; simpl; [eauto 6|].
  destruct pc; simpl in E; try done; eauto; destruct (mutex w); try done; eauto 10.
Qed.

Lemma waiter_moves s w i v pc :
  threads w !! i = Some (Waiter v pc) ->
  (exists x, pc = WReturned x) \/ pc = WAsleep \/
  (exists w', step s w w') \/ ((pc = CLock \/ pc = CRelock) /\ exists k, mutex w = Some k).
Proof.
  intros Hi. destruct (waiter_moves_at s w i v pc Hi) as [?|[?|[[w' H]|?]]]; eauto.
  right; right; left. by exists w', i, 0%nat.
Qed.

Lemma notified_quiet w : notified w -> cnt (at_npc busy) (threads w) = 0%nat.
Proof.
  unfold notified, all_ok. generalize (threads w). unfold cnt, tot.
  intros l. induction l as [|a l IH]; intros N; simpl; [done|].
  rewrite (IH (fun i => N (S i))). specialize (N 0%nat a eq_refl). destruct a; simpl in *; [done|].
  by destruct N as [_ ->].
Qed.

(** After the last notification nobody is left asleep for good. *)
Lemma quiet_awake s k w i v :
  inv s k w -> notified w -> changed w -> threads w !! i = Some (Waiter v WAsleep) -> s = Proxy.
Proof.
  intros [B I] N C Hi. pose proof (C _ _ Hi) as Hv. simpl in Hv.
  pose proof (notified_quiet w N) as Hn.
  destruct s as [b| | |]; [| done | |].
  - destruct I as [A _]. destruct (A _ _ Hi); [done|lia].
  - destruct I as [_ G]. specialize (G _ _ _ Hi). simpl in G. lia.
  - by destruct (B _ _ Hi).
Qed.

(** The holder of the mutex can always go on. *)
Lemma holder_moves w k : one_holder w -> notified w -> basic Condvar w ->
  mutex w = Some k -> exists w', step Condvar w w'.
Proof.
  intros [_ Hh] N B Hk. destruct (Hh _ Hk) as ([v pc|one todo pc] & E & Hholds).
  - destruct (waiter_moves Condvar w k v pc E) as [[x ->]|[->|[?|[[-> | ->] _]]]]; simpl in Hholds; done.
  - by destruct (N _ _ E) as [_ ->].
Qed.

Lemma stuck_returned s k w :
  inv s k w -> notified w -> changed w -> (forall w', ~ step_timed s w w') -> all_returned w.
Proof.
  intros I N C St i [v pc|] Hi; [|done]. destruct I as [B I].
  destruct (B _ _ Hi) as [Hok Hr].
  destruct (waiter_moves s w i v pc Hi) as [[x ->]|[->|[[w' ?]|[Hl [n Hn]]]]].
  - eauto.
  - rewrite (quiet_awake s k w i v) in * by done. exfalso.
    apply (St (put i (Waiter v WLoop) w)). right. exists i. unfold timeout_at. by rewrite Hi.
  - by destruct (St w' (or_introl H)).
  - assert (s = Condvar) as -> by (destruct Hl as [-> | ->]; by destruct s as [[]| | |]).
    destruct (holder_moves w n (proj1 I) N B Hn) as [w' H]. by destruct (St w' (or_introl H)).
Qed.

(** C10: [atomic_wait] returns.  Under every strategy, for any waiters and
    notifiers of the atomic, any interleaving with each other and with the waits
    and notifications of other objects of the same table entry: once the last
    notification has been made and the atomic differs from what the waiters wait
    on, the waiters' executions end however the others' steps come between, and
    when none of the threads can move every waiter has returned after it saw
    another value; only the proxied futex may need its timeout for this.  The
    conditions: [atomic_notify_one] is used only for at most one waiter, all
    waiters together fit the counter, waiters of other objects do not hold on to
    the mutex of the entry, and where the atomic is used directly with a table
    ([harmless]), no atomic of another strategy shares the entry
    ([direct_waiter_starves] is what happens otherwise). *)
Theorem wait_returns s nb x ths w k :
  all_ok initial ths -> polite (shape <$> ths) -> harmless s nb ->
  Z.of_nat (length ths + direct_waiters nb) < 2 ^ 31 ->
  rtc (step_shared s nb) (start x ths, 0%nat) (w, k) -> notified w -> changed w ->
  sn (next_own s nb) (w, k) /\
  (forall w' k', rtc (step_shared s nb) (w, k) (w', k') ->
     (forall w'', ~ step_timed s w' w'') -> all_returned w') /\
  (forall i v, s <> Proxy -> threads w !! i <> Some (Waiter v WAsleep)).
Proof.
  intros F Hp Hh Hl R N C.
  assert (Hl' : Z.of_nat (length (shape <$> ths) + direct_waiters nb) < 2 ^ 31) by by rewrite length_fmap.
  destruct (shared_inv s nb _ _ R Hh (wait_start_inv s x ths F) ltac:(simpl; lia) Hp Hl') as (I & E & K).
  simpl in *. assert (Q : quiet s w) by (by destruct I). split_and!.
  - by apply quiet_sn.
  - intros w' k' R' St. destruct (quiet_shared _ _ _ _ R' Q) as (_ & N' & C').
    apply (stuck_returned s k'); auto. change (shape <$> ths) with (shapes (start x ths)) in Hp, Hl'.
    rewrite <- E in Hp, Hl'. by apply (shared_inv s nb _ _ R' Hh I K Hp Hl').
  - intros i v Hs Hi. by apply Hs, (quiet_awake s k w i v).
Qed.

(** Runs by explicit schedules: the thread that moves and the kernel's choice. *)
Fixpoint run_schedule (s : strategy) (sched : list (nat * nat)) (w : world) : option world :=
  match sched with
  | [] => Some w
  | (i, j) :: sched => w ← step_at s i j w; run_schedule s sched w
  end.

Lemma wait_run_schedule_steps s sched w w' : run_schedule s sched w = Some w' -> rtc (step s) w w'.
Proof.
  revert w. induction sched as [|[i j] sched IH]; intros w; simpl; [by intros [= <-]|].
  destruct (step_at s i j w) as [w1|] eqn:E; simpl; [|done]. intros H.
  eapply rtc_l; [by exists i, j | by apply IH].
Qed.

Lemma step_is_timed s w w' : rtc (step s) w w' -> rtc (step_timed s) w w'.
Proof. apply rtc_subrel. intros ? ?. by left. Qed.

Lemma step_is_shared s nb k w w' : rtc (step s) w w' -> rtc (step_shared s nb) (w, k) (w', k).
Proof.
  intros R. induction R as [|w w1 w2 H _ IH]; [apply rtc_refl|].
  apply (rtc_l _ _ (w1, k)); [left; split; [by left | reflexivity] | exact IH].
Qed.

(** C39: without that condition the wake-up can be lost for good: the notification of
    a proxied atomic of the same entry clears [waiters] while a thread sleeps on
    the directly used one; the store and notification meant for it then find
    nobody to wake, and, as the direct futex has no timeout, it sleeps whatever
    happens later. *)
Theorem direct_waiter_starves :
  exists w, rtc (step_shared (Direct true) (mk_neighbours 0 true))
      (start 0 [Waiter 0 WFirst; Notifier false [Some 1] NStore], 0%nat) (w, 0%nat) /\
    notified w /\ changed w /\
    forall c, rtc (step_shared (Direct true) (mk_neighbours 0 true)) (w, 0%nat) c ->
      threads c.1 !! 0%nat = Some (Waiter 0 WAsleep).
Proof.
  set (nb := mk_neighbours 0 true). set (ths := [Waiter 0 WAsleep; Notifier false [] NStore]).
  exists (mk_world 1 0 0 0 None ths). split_and!.
  - etransitivity.
    { apply step_is_shared, (wait_run_schedule_steps _ (replicate 20 (0, 0)%nat)).
      instantiate (1 := mk_world 0 1 0 0 None [Waiter 0 WAsleep; Notifier false [Some 1] NStore]).
      vm_compute. reflexivity. }
    eapply rtc_l; [right; by apply proxied_exchanges|].
    apply step_is_shared, (wait_run_schedule_steps _ (replicate 2 (1, 0)%nat)). vm_compute. reflexivity.
  - intros [|[|i]] th Hi; simpl in Hi; simplify_eq/=; auto.
  - intros [|[|i]] th Hi; simpl in Hi; simplify_eq/=; done.
  - assert (forall c c', rtc (step_shared (Direct true) nb) c c' -> threads c.1 = ths -> threads c'.1 = ths) as K.
    { intros c c' R. induction R as [|c c1 c2 [[[(i & j & H)|[i H]] _]|H] _ IH]; intros E; auto.
      - unfold step_at in H. rewrite E in H. unfold ths in H. destruct i as [|[|i]]; discriminate H.
      - unfold timeout_at in H. rewrite E in H. unfold ths in H. destruct i as [|[|i]]; discriminate H.
      - apply IH. by rewrite (proj1 (neighbour_keeps _ _ _ H)). }
    intros c R. by rewrite (K _ _ R).
Qed.

(** A waiter goes to sleep on the condition variable; the notifier's store and
    notification wake it, and the notifier is done. *)
Definition demo_threads : list thread := [Waiter 0 WFirst; Notifier false [Some 1] NStore].
Definition demo_schedule : list (nat * nat) :=
  replicate 22 (0%nat, 0%nat) ++ replicate 6 (1%nat, 0%nat).

Lemma demo_run :
  exists w, run_schedule Condvar demo_schedule (start 0 demo_threads) = Some w /\
            notified w /\ changed w.
Proof.
  eexists. split; [vm_compute; reflexivity|].
  split; intros [|[|i]] th Hi; simpl in Hi; simplify_eq/=; done.
Defined.

Lemma wait_returns_witness :
  exists w, rtc (step Condvar) (start 0 demo_threads) w /\
            sn (next_own Condvar (mk_neighbours 3 true)) (w, 0%nat) /\
            forall v, threads w !! 0%nat <> Some (Waiter v WAsleep).
Proof.
  destruct demo_run as (w & R & N & C). apply wait_run_schedule_steps in R. exists w.
  assert (F : all_ok initial demo_threads)
    by (intros [|[|i]] th Hi; simpl in Hi; simplify_eq/=; reflexivity).
  assert (P : polite (shape <$> demo_threads)) by (left; apply (bool_decide_unpack _); vm_compute; exact I).
  destruct (wait_returns Condvar (mk_neighbours 3 true) 0 demo_threads w 0 F P ltac:(discriminate)
              ltac:(simpl; lia) (step_is_shared _ _ 0 _ _ R) N C) as (S1 & _ & S3).
  split_and!; [exact R | exact S1 | intros v; apply S3; discriminate].
Defined.
