(* ===== verification/AtomicProxy.v ===== *)
(** * [include/common/atomic_wait.hpp]: the proxied futex and the sleeping loop

    Two strategies of [AtomicWait] in more detail.  The futex on the version
    counter of the table relies on its timeout unless the atomic is set once;
    the loop that sleeps is what the library itself compiles to. *)

From S2P Require Import Prelude AtomicWait.
From stdpp Require Import relations.
Local Open Scope Z_scope.

(** ** The proxied futex *)

(** Values that a notifier stores. *)
Definition stores (P : Z -> Prop) (th : thread) : Prop :=
  match th with
  | Notifier _ todo _ => Forall (fun x => exists y, x = Some y /\ P y) todo
  | _ => True
  end.

(** Notifications not yet counted in [version]. *)
Definition pending (th : thread) : nat :=
  match th with
  | Notifier _ todo pc => length todo + match pc with MBump => 1 | _ => 0 end
  | _ => 0
  end.
Definition pendings (l : list thread) : nat := tot pending l.

Definition bumped (pc : npc) : bool := match pc with MExchange | MWake => true | _ => false end.
Definition mwaking (pc : npc) : bool := match pc with MWake => true | _ => false end.

(** [M] notifications have bumped [version].  Before the first store nothing has
    happened to the table; afterwards no waiter sees its value again. *)
Definition proxy_guard (M : nat) (w : world) (v : Z) (pc : wpc) : Prop :=
  let n P := cnt (at_npc P) (threads w) in
  (value w = v -> M = 0%nat /\ n busy = 0%nat) /\
  match pc with
  | PVersion => waiters w <> 0 \/ (1 <= M)%nat
  | PCheck ver => (waiters w <> 0 \/ (1 <= M)%nat) /\ (value w = v -> ver = 0)
  | PWait ver => (waiters w <> 0 \/ (1 <= M)%nat) /\ ver = 0 /\
                 (value w = v \/ (1 <= M)%nat \/ (1 <= n busy)%nat)
  | WAsleep => (waiters w <> 0 \/ (1 <= n mwaking)%nat) /\ (value w = v \/ (1 <= n busy)%nat)
  | _ => True
  end.

Record proxy_inv (N : nat) (vals : list (Z + bool)) (w : world) (M : nat) : Prop := {
  pi_version : version w = wraps 32 (Z.of_nat M);
  pi_count : (M + pendings (threads w) = N)%nat;
  pi_bumped : (1 <= cnt (at_npc bumped) (threads w))%nat -> (1 <= M)%nat;
  pi_stores : all_ok (stores (fun y => inl y ∉ vals)) (threads w);
  pi_shapes : shapes w = vals;
  pi_guard : forall i v pc, threads w !! i = Some (Waiter v pc) -> proxy_guard M w v pc
}.

Lemma wraps32_zero n : (Z.of_nat n < 2 ^ 32) -> wraps 32 (Z.of_nat n) = 0 -> n = 0%nat.
Proof.
  intros H E. unfold wraps in E. change (2 ^ (32 - 1)) with (2 ^ 31) in E.
  destruct (Z.lt_ge_cases (Z.of_nat n + 2 ^ 31) (2 ^ 32)) as [L|L].
  - rewrite Z.mod_small in E by lia. lia.
  - rewrite <- (Z.mod_add _ (-1)), Z.mod_small in E by lia. lia.
Qed.

Lemma wraps32_succ n : wraps 32 (wraps 32 (Z.of_nat n) + 1) = wraps 32 (Z.of_nat (S n)).
Proof.
  unfold wraps. change (2 ^ (32 - 1)) with (2 ^ 31). f_equal.
  replace (Z.of_nat (S n) + 2 ^ 31) with (Z.of_nat n + 2 ^ 31 + 1) by lia.
  rewrite <- (Z.add_mod_idemp_l (Z.of_nat n + 2 ^ 31)) by lia. f_equal. lia.
Qed.

Lemma proxy_step_waiter N vals M w i v pc pc' w1 :
  Z.of_nat N < 2 ^ 32 -> threads w !! i = Some (Waiter v pc) ->
  step_waiter Proxy i v pc w = Some (pc', w1) -> wpc_ok Proxy pc = true ->
  proxy_inv N vals w M -> proxy_inv N vals (put i (Waiter v pc') w1) M.
Proof.
  intros HN Hi H Hok [V C Bu St Sh G].
  pose proof (step_waiter_threads _ _ _ _ _ _ _ H) as Et.
  pose proof (step_waiter_value _ _ _ _ _ _ _ H) as Ev.
  assert (Ew : version w1 = version w /\ (waiters w1 = waiters w \/ waiters w1 = 1)).
  { destruct pc; simpl in *; simplify_eq/=; repeat (case_match; simplify_eq/=); auto. }
  destruct Ew as [Er Ew].
  assert (Eb : forall P, cnt (at_npc P) (<[i := Waiter v pc']> (threads w)) = cnt (at_npc P) (threads w))
    by (intros P; by apply (cnt_npc_waiter _ _ _ _ pc)).
  pose proof (tot_insert pending _ _ _ (Waiter v pc') Hi) as Ep. simpl in Ep.
  split; unfold shapes, pendings; cbn [put set_threads threads version]; rewrite ?Et.
  - congruence.
  - unfold pendings in C. lia.
  - by rewrite Eb.
  - by apply all_ok_insert.
  - rewrite <- Sh. by eapply map_shape_insert.
  - intros k v' pck Hk. unfold proxy_guard. cbn [put set_threads threads value waiters].
    rewrite Et, Ev, !Eb. apply list_lookup_insert_Some in Hk as [(_ & [= <- <-] & _)|[_ Hk]].
    + specialize (G _ _ _ Hi). unfold proxy_guard in G. destruct G as [G1 G2]. split; [done|].
      destruct pc; simpl in *; try done; simplify_eq/=; repeat (case_match; simplify_eq/=); boolp; try done.
      * left. done.
      * split; [done|]. intros Hv. destruct (G1 Hv) as [-> _]. done.
      * destruct G2 as [G2 G3]. auto.
      * destruct G2 as (G2 & Hver & G3).
        assert (M = 0%nat) by (apply wraps32_zero; [lia|congruence]). subst M. lia.
    + specialize (G _ _ _ Hk). unfold proxy_guard in G.
      destruct pck; intuition lia.
Qed.

Lemma stores_wake P s th : stores P th -> stores P (wake s th).
Proof. by destruct th as [v []|]. Qed.
Lemma pending_wake s th : pending (wake s th) = pending th.
Proof. by destruct th as [v []|]. Qed.

(** A notifier's step keeps the waiters' guards. *)
Lemma proxy_guard_notifier vals M w i j one todo pc todo' pc' w1 :
  threads w !! i = Some (Notifier one todo pc) ->
  step_notifier Proxy i j one todo pc w = Some (todo', pc', w1) -> npc_ok Proxy pc = true ->
  shapes w = vals -> stores (fun y => inl y ∉ vals) (Notifier one todo pc) ->
  (bumped pc = true -> (1 <= M)%nat) ->
  (forall k v pck, threads w !! k = Some (Waiter v pck) -> proxy_guard M w v pck) ->
  forall k v pck, threads (put i (Notifier one todo' pc') w1) !! k = Some (Waiter v pck) ->
    proxy_guard (match pc with MBump => S M | _ => M end) (put i (Notifier one todo' pc') w1) v pck.
Proof.
  intros Hi H Hok Sh St HB G k v pck Hk.
  pose proof (fun P => cnt_npc_notifier P _ _ _ _ _ _ _ _ _ _ H Hi) as Eb.
  pose proof (Eb busy) as Eb1. pose proof (Eb mwaking) as Eb3. clear Eb.
  pose proof (cnt_mono (at_npc mwaking) (at_npc busy) (threads (put i (Notifier one todo' pc') w1))
    ltac:(by intros [|? ? []])) as Mo.
  pose proof (fun E => cnt_in (at_npc busy) _ _ _ Hi E) as Hbusy. simpl in Hbusy.
  unfold proxy_guard. cbn [value waiters put set_threads] in *.
  set (n1 := cnt (at_npc busy) (threads (put _ _ _))) in *.
  set (n3 := cnt (at_npc mwaking) (threads (put _ _ _))) in *. clearbody n1 n3.
  simpl in Hk. apply list_lookup_insert_Some in Hk as [(_ & ? & _)|[_ Hk]]; [done|].
  destruct (decide (pc = MWake)) as [->|Hne].
  - simplify_eq/=. apply list_lookup_fmap_Some in Hk as ([v0 pc0|] & E0 & Hk); [|done].
    specialize (G _ _ _ Hk). unfold proxy_guard in G. specialize (Hbusy eq_refl). specialize (HB eq_refl).
    destruct pc0; simplify_eq/=; intuition lia.
  - assert (Et : threads w1 = threads w)
      by (destruct pc; try done; simpl in H; repeat (case_match; simplify_eq/=); by simplify_eq/=).
    rewrite Et in Hk. specialize (G _ _ _ Hk). unfold proxy_guard in G.
    assert (Hv : inl v ∈ vals).
    { subst vals. apply list_elem_of_lookup. exists k. unfold shapes. by rewrite list_lookup_fmap, Hk. }
    destruct pc; simpl in Hok; try done.
    + simpl in H, St. destruct todo as [|x todo]; [done|]. apply Forall_cons in St as [(y & -> & Hy) _].
      simplify_eq/=. assert (y <> v) by congruence. destruct pck; intuition lia.
    + simplify_eq/=. specialize (Hbusy eq_refl). destruct pck; intuition lia.
    + specialize (Hbusy eq_refl). specialize (HB eq_refl). simpl in H.
      destruct (waiters w =? 0) eqn:Ew; simplify_eq/=; boolp; destruct pck; intuition lia.
Qed.

Lemma proxy_step_notifier N vals M w i j one todo pc todo' pc' w1 :
  threads w !! i = Some (Notifier one todo pc) ->
  step_notifier Proxy i j one todo pc w = Some (todo', pc', w1) -> npc_ok Proxy pc = true ->
  proxy_inv N vals w M ->
  proxy_inv N vals (put i (Notifier one todo' pc') w1)
    (match pc with MBump => S M | _ => M end).
Proof.
  intros Hi H Hok [V C Bu St Sh G].
  pose proof (fun P => cnt_npc_notifier P _ _ _ _ _ _ _ _ _ _ H Hi) as Eb.
  pose proof (Eb bumped) as Eb2. clear Eb.
  pose proof (tot_notifier pending _ _ _ _ _ _ _ _ _ _ H (pending_wake _) Hi) as Ep.
  assert (HB : bumped pc = true -> (1 <= M)%nat)
    by (intros Hb; apply Bu, (cnt_in _ _ _ _ Hi Hb)).
  assert (HS : all_ok (stores (fun y => inl y ∉ vals)) (threads (put i (Notifier one todo' pc') w1))).
  { apply all_ok_insert; [by eapply step_notifier_all; [|apply stores_wake|]|].
    specialize (St _ _ Hi). simpl in St |- *.
    destruct pc; simpl in *; repeat (case_match; simplify_eq/=); simplify_eq/=; try done; by inversion St. }
  assert (HSh : shapes (put i (Notifier one todo' pc') w1) = vals).
  { rewrite <- Sh. unfold shapes. simpl.
    pose proof (step_notifier_map shape _ _ _ _ _ _ _ _ _ _ H (shape_wake Proxy)) as Em.
    rewrite list_fmap_insert, Em. apply list_insert_id. by rewrite list_lookup_fmap, Hi. }
  split; auto; unfold pendings in *.
  - destruct pc; simpl in *; try done; repeat (case_match; simplify_eq/=); simplify_eq/=; try done.
    rewrite V. apply wraps32_succ.
  - destruct pc; simpl in *; try done; repeat (case_match; simplify_eq/=); simplify_eq/=; lia.
  - destruct pc; simpl in *; try done; repeat (case_match; simplify_eq/=); simplify_eq/=; lia.
  - eapply proxy_guard_notifier; eauto.
Qed.

Lemma proxy_step N vals M w w' :
  step Proxy w w' -> basic Proxy w -> Z.of_nat N < 2 ^ 32 -> proxy_inv N vals w M ->
  exists M', proxy_inv N vals w' M'.
Proof.
  intros (i & j & H) B HN I.
  apply step_at_inv in H as [(v & pc & pc' & w1 & E & H & ->)|(one & todo & todo' & pc & pc' & w1 & E & H & ->)].
  - exists M. eapply proxy_step_waiter; eauto. by apply (B i (Waiter v pc)).
  - eexists. eapply proxy_step_notifier; eauto. by apply (B i (Notifier one todo pc)).
Qed.

Lemma proxy_start x ths :
  all_ok initial ths -> all_ok (stores (fun y => inl y ∉ shape <$> ths)) ths ->
  proxy_inv (pendings ths) (shape <$> ths) (start x ths) 0.
Proof.
  intros F St.
  assert (Hz : forall P, P NStore = false -> cnt (at_npc P) ths = 0%nat).
  { intros P HP. clear -F HP. unfold cnt, tot. induction ths as [|a l IH]; simpl; [done|].
    rewrite IH by (intros i th; apply (F (S i))). specialize (F 0%nat a eq_refl).
    destruct a; simpl in *; subst; rewrite ?HP; done. }
  split; simpl; auto; [rewrite Hz by done; lia|].
  intros i v pc Hi. pose proof (F _ _ Hi) as Hpc. simpl in Hpc. subst pc.
  unfold proxy_guard. simpl. rewrite Hz by done. done.
Qed.

Lemma proxy_reach N vals w w' M :
  rtc (step Proxy) w w' -> basic Proxy w -> Z.of_nat N < 2 ^ 32 -> proxy_inv N vals w M ->
  exists M', proxy_inv N vals w' M'.
Proof.
  intros R. revert M. induction R as [|w w1 w2 H _ IH]; intros M B HN I; [eauto|].
  destruct (proxy_step _ _ _ _ _ H B HN I) as [M1 I1]. eapply IH; eauto.
  by apply (basic_step Proxy w w1); [left|].
Qed.

(** C30: The proxied futex does not need its timeout for a flag that is set once
    and has its table entry for itself: if no other object of the entry is waited
    on or notified, so that every notification follows a store to this atomic, if
    no stored value is one that is waited on, and if there are fewer than [2^32]
    notifications, then after the last of them no waiter sleeps unless the value
    is still the one it waits on.  A notification for another object of the entry
    breaks it ([proxy_misses_wakeup]). *)
Theorem proxy_one_shot x ths w :
  all_ok initial ths -> all_ok (stores (fun y => inl y ∉ shape <$> ths)) ths ->
  Z.of_nat (pendings ths) < 2 ^ 32 ->
  rtc (step Proxy) (start x ths) w -> notified w ->
  forall i v, threads w !! i = Some (Waiter v WAsleep) -> value w = v.
Proof.
  intros F St HN R N i v Hi.
  destruct (proxy_reach _ _ _ _ _ R (proj1 (wait_start_inv Proxy x ths F)) HN (proxy_start x ths F St)) as [M I].
  destruct (pi_guard _ _ _ _ I _ _ _ Hi) as [_ [_ [?|Hb]]]; [done|].
  rewrite (notified_quiet w N) in Hb. lia.
Qed.

(** Two waiters on a flag that is set once; both are asleep when it is set. *)
Definition flag_threads : list thread :=
  [Waiter 0 WFirst; Waiter 0 WFirst; Notifier false [Some 1] NStore].
Definition flag_schedule : list (nat * nat) :=
  replicate 22 (0%nat, 0%nat) ++ replicate 22 (1%nat, 0%nat) ++ replicate 4 (2%nat, 0%nat).

Lemma proxy_one_shot_witness :
  exists w, run_schedule Proxy flag_schedule (start 0 flag_threads) = Some w /\
            forall i v, threads w !! i = Some (Waiter v WAsleep) -> value w = v.
Proof.
  eexists. split; [vm_compute; reflexivity|]. apply (proxy_one_shot 0 flag_threads).
  - intros [|[|[|i]]] th Hi; simpl in Hi; simplify_eq/=; reflexivity.
  - intros [|[|[|i]]] th Hi; simpl in Hi; simplify_eq/=; try exact I.
    constructor; [exists 1; split; [done|apply (bool_decide_unpack _); vm_compute; exact I] | constructor].
  - vm_compute. reflexivity.
  - apply (wait_run_schedule_steps Proxy flag_schedule). vm_compute. reflexivity.
  - intros [|[|[|i]]] th Hi; simpl in Hi; simplify_eq/=; auto.
Defined.

(** In general the timeout is what ends the wait.  A notification of another
    object of the same table entry takes away the mark [waiters] that a waiter
    has just set, the waiter sleeps, and the store and notification meant for it
    find nobody to wake: all notifiers are done, the value has changed, and the
    only step left is the timeout. *)
Theorem proxy_misses_wakeup :
  exists w, rtc (step Proxy)
      (start 0 [Waiter 0 WFirst; Notifier false [None] NStore; Notifier false [Some 1] NStore]) w /\
    notified w /\ changed w /\ threads w !! 0%nat = Some (Waiter 0 WAsleep) /\
    (forall w', ~ step Proxy w w') /\ (exists w', timeout_at Proxy 0 w = Some w').
Proof.
  set (sched := (replicate 18 (0, 0) ++ replicate 2 (1, 0) ++ replicate 2 (0, 0) ++
                 replicate 2 (1, 0) ++ replicate 2 (0, 0) ++ replicate 3 (2, 0))%nat).
  eexists. split; [apply (wait_run_schedule_steps Proxy sched); vm_compute; reflexivity|].
  split_and!; try done.
  - intros [|[|[|i]]] th Hi; simpl in Hi; simplify_eq/=; auto.
  - intros [|[|[|i]]] th Hi; simpl in Hi; simplify_eq/=; done.
  - intros w' ([|[|[|i]]] & j & H); done.
  - eexists. reflexivity.
Qed.

(** ** The build of the library: no table, no direct type *)

(** The library defines [__NO_TABLE] and waits on [atomic<bool>] and
    [atomic<uint64_t>]. *)
Definition library_strategy : strategy := select false false true false.

(** [history] when the [n]-th sleep of a wait begins. *)
Fixpoint history_at (n : nat) : Z :=
  match n with O => 10 | S n => next_history (history_at n) end.

Lemma next_history_bounds h : 10 <= h <= 1024 -> h < 1024 -> h < next_history h <= 1024.
Proof.
  intros H Hl. unfold next_history. rewrite Z.shiftr_div_pow2 by lia. change (2 ^ 2) with 4.
  change (2 ^ 10) with 1024. pose proof (Z.div_le_lower_bound h 4 2 ltac:(lia) ltac:(lia)).
  destruct (1024 <? h + h / 4) eqn:E; boolp; lia.
Qed.

Lemma history_in_bounds n : 10 <= history_at n <= 1024.
Proof.
  induction n as [|n IH]; simpl; [lia|].
  destruct (Z.eq_dec (history_at n) 1024) as [->|Hne]; [by vm_compute|].
  pose proof (next_history_bounds (history_at n) IH ltac:(lia)). lia.
Qed.

(** The histories a waiter can be found with. *)
Definition history_ok (th : thread) : Prop :=
  match th with
  | Waiter _ (FSleep h | FLoad h) => exists n, h = history_at n
  | _ => True
  end.

Lemma history_ok_step s w w' :
  step s w w' -> all_ok history_ok (threads w) -> all_ok history_ok (threads w').
Proof.
  intros (i & j & H) Hh.
  apply step_at_inv in H as [(v & pc & pc' & w1 & E & H & ->)|(one & todo & todo' & pc & pc' & w1 & E & H & ->)];
    apply all_ok_insert.
  - by rewrite (step_waiter_threads _ _ _ _ _ _ _ H).
  - specialize (Hh _ _ E). simpl in Hh.
    destruct pc; simpl in *; simplify_eq/=; try done; repeat (case_match; simplify_eq/=); try done.
    all: try (destruct s as [[]| | |]; simplify_eq/=; by exists 0%nat).
    destruct Hh as [n ->]. by exists (S n).
  - eapply step_notifier_all; [done| |done]. intros [v0 pc0|]; [|done].
    destruct pc0; simpl; try done. by destruct s as [[]| | |].
  - done.
Qed.

Lemma history_ok_reach s w w' :
  rtc (step s) w w' -> all_ok history_ok (threads w) -> all_ok history_ok (threads w').
Proof. intros R. induction R; eauto using history_ok_step. Qed.

Lemma put_put w i a b : put i a (put i b w) = put i a w.
Proof. unfold put, set_threads. simpl. by rewrite list_insert_insert_eq. Qed.

(** The steps that take a waiter of the sleeping loop home. *)
Definition home (pc : wpc) : nat :=
  match pc with WReturned _ => 0 | FLoad _ => 2 | FSleep _ => 3 | _ => 1 end.

(** In the library's own build a wait sleeps between 2 and 256 microseconds
    at a time, and once the atomic has changed it returns after at most three
    more steps of its own, one of them such a sleep, without any help from the
    notifier (whose notification does nothing). *)
Theorem library_wait_latency x ths w i v pc :
  all_ok initial ths -> rtc (step library_strategy) (start x ths) w ->
  threads w !! i = Some (Waiter v pc) ->
  (forall h, pc = FSleep h -> 2 <= Z.shiftr h 2 <= 256) /\
  (value w <> v -> (forall y, pc <> WReturned y) ->
   (home pc <= 3)%nat /\
   run_schedule library_strategy (replicate (home pc) (i, 0%nat)) w =
     Some (put i (Waiter v (WReturned (value w))) w)).
Proof.
  intros F R Hi. change library_strategy with Fallback in *. split.
  - intros h ->.
    destruct (history_ok_reach _ _ _ R) with (i := i) (th := Waiter v (FSleep h)) as [n ->]; [|done|].
    { intros k th Hk. specialize (F k th Hk). destruct th; simpl in *; by subst. }
    pose proof (history_in_bounds n). rewrite Z.shiftr_div_pow2 by lia. change (2 ^ 2) with 4.
    split; [apply Z.div_le_lower_bound; lia | apply Z.div_le_upper_bound; lia].
  - intros Hv Hnr.
    assert (B : basic Fallback w).
    { clear -F R. assert (B : basic Fallback (start x ths)) by apply (wait_start_inv Fallback x ths F).
      revert B. induction R as [|w w1 w2 H _ IH]; intros B; [done|]. apply IH.
      by apply (basic_step Fallback w w1); [left|]. }
    destruct (B _ _ Hi) as [Hok _].
    assert (Hl : (i < length (threads w))%nat) by (by eapply lookup_lt_Some).
    assert (Ev : (value w =? v) = false) by (by apply Z.eqb_neq).
    assert (Ev' : (v =? value w) = false) by (by rewrite Z.eqb_sym).
    assert (Hp : forall pc', threads (put i (Waiter v pc') w) !! i = Some (Waiter v pc'))
      by (intros; simpl; by rewrite list_lookup_insert_eq).
    split; [destruct pc; simpl; lia|].
    assert (H1 : forall w pc pc', threads w !! i = Some (Waiter v pc) ->
              step_waiter Fallback i v pc w = Some (pc', w) ->
              step_at Fallback i 0 w = Some (put i (Waiter v pc') w))
      by (intros w0 pc0 pc' E0 E1; unfold step_at; rewrite E0; simpl; by rewrite E1).
    assert (H2 : forall h, step_at Fallback i 0 (put i (Waiter v (FLoad h)) w) = Some (put i (Waiter v WLoop) w))
      by (intros h; rewrite (H1 _ _ WLoop (Hp _)) by (simpl; by rewrite Ev); by rewrite put_put).
    assert (H3 : step_at Fallback i 0 (put i (Waiter v WLoop) w) =
                 Some (put i (Waiter v (WReturned (value w))) w))
      by (rewrite (H1 _ WLoop (WReturned (value w)) (Hp _)) by (simpl; by rewrite Ev'); by rewrite put_put).
    destruct pc; simpl in Hok; try done; cbn [home replicate run_schedule];
      try (erewrite H1; [|exact Hi|simpl; rewrite ?Ev, ?Ev'; reflexivity]); simpl;
      rewrite ?H2; simpl; rewrite ?H3; try done; by destruct (Hnr seen).
Qed.

Lemma library_wait_latency_witness :
  exists w h, run_schedule library_strategy (replicate 24 (0, 0)%nat ++ [(1, 0)%nat])
                (start 0 demo_threads) = Some w /\
    threads w !! 0%nat = Some (Waiter 0 (FSleep h)) /\ 2 <= Z.shiftr h 2 <= 256 /\
    run_schedule library_strategy (replicate 3 (0, 0)%nat) w =
      Some (put 0 (Waiter 0 (WReturned 1)) w).
Proof.
  eexists _, _. split; [vm_compute; reflexivity|]. split; [reflexivity|].
  assert (F : all_ok initial demo_threads)
    by (intros [|[|i]] th Hi; simpl in Hi; simplify_eq/=; reflexivity).
  eassert (R : rtc (step library_strategy) (start 0 demo_threads) _)
    by (apply (wait_run_schedule_steps _ (replicate 24 (0, 0)%nat ++ [(1, 0)%nat])); vm_compute; reflexivity).
  destruct (library_wait_latency 0 demo_threads _ 0 0 _ F R eq_refl) as [H1 H2].
  split; [apply H1; reflexivity|]. apply H2; discriminate.
Defined.
