(* ===== verification/Awaiting.v ===== *)
(** * Rendezvous of coroutines: [future.hpp], [details/await_counter.hpp],
    [sync_wait.hpp]

    Each module is a step relation over the shared variables of one protocol,
    one step per atomic access, with the two sides interleaved freely: the
    awaiting coroutine (or thread) and the coroutine that completes.  [resumes]
    counts how often the awaiting side was set going again. *)

From S2P Require Import Prelude.
From stdpp Require Import relations.

(** ** [future]: [set_continuation] against [final_awaiter::await_suspend] *)

Module FutureProtocol.

(** The awaiting coroutine: before [co_await]; after [m_handle.resume()]; after
    [m_continuation = continuation]; suspended; running again. *)
Inductive awaiter_pc := ABegin | AStarted | ASet | ASuspended | ARunning.

(** The awaited coroutine: not started; in its body; at [final_suspend] with its
    result stored; after the exchange, with the old value; finished. *)
Inductive inner_pc := INot | IBody | IFinal | IAfter (old : bool) | IEnd.

Record state := mk_state {
  m_state : bool;
  m_continuation : bool;
  m_result : bool;
  apc : awaiter_pc;
  ipc : inner_pc;
  resumes : nat;
  null_resume : bool
}.

Definition init : state := mk_state false false false ABegin INot 0 false.

(** [done()]: suspended at its final suspend point. *)
Definition done (s : state) : bool :=
  match ipc s with IAfter _ | IEnd => true | _ => false end.

Inductive step (s : state) : state -> Prop :=
| await_ready :
    apc s = ABegin -> done s = true ->
    step s (mk_state (m_state s) (m_continuation s) (m_result s) ARunning (ipc s)
              (S (resumes s)) (null_resume s))
| resume_inner :
    apc s = ABegin -> ipc s = INot ->
    step s (mk_state (m_state s) (m_continuation s) (m_result s) AStarted IBody
              (resumes s) (null_resume s))
| set_continuation_write :
    apc s = AStarted ->
    step s (mk_state (m_state s) true (m_result s) ASet (ipc s) (resumes s) (null_resume s))
| set_continuation_exchange :
    apc s = ASet ->
    step s (mk_state true (m_continuation s) (m_result s)
              (if m_state s then ARunning else ASuspended) (ipc s)
              (if m_state s then S (resumes s) else resumes s) (null_resume s))
| body_returns :
    ipc s = IBody ->
    step s (mk_state (m_state s) (m_continuation s) true (apc s) IFinal
              (resumes s) (null_resume s))
| final_exchange :
    ipc s = IFinal ->
    step s (mk_state true (m_continuation s) (m_result s) (apc s) (IAfter (m_state s))
              (resumes s) (null_resume s))
| final_resume :
    ipc s = IAfter true ->
    step s (mk_state (m_state s) (m_continuation s) (m_result s)
              (if m_continuation s then ARunning else apc s) IEnd
              (S (resumes s)) (negb (m_continuation s)))
| final_leave :
    ipc s = IAfter false ->
    step s (mk_state (m_state s) (m_continuation s) (m_result s) (apc s) IEnd
              (resumes s) (null_resume s)).

(** The reachable combinations of the two positions, with what the shared
    variables hold in each. *)
Definition good (s : state) : Prop :=
  null_resume s = false /\
  m_result s = (match ipc s with INot | IBody => false | _ => true end) /\
  m_continuation s = (match apc s with ABegin | AStarted => false | _ => true end) /\
  match apc s, ipc s with
  | ABegin, INot => m_state s = false /\ resumes s = 0
  | AStarted, (IBody | IFinal) | ASet, (IBody | IFinal) => m_state s = false /\ resumes s = 0
  | AStarted, (IAfter false | IEnd) | ASet, (IAfter false | IEnd) => m_state s = true /\ resumes s = 0
  | ASuspended, (IBody | IFinal | IAfter true) => m_state s = true /\ resumes s = 0
  | ARunning, (IAfter false | IEnd) => m_state s = true /\ resumes s = 1
  | _, _ => False
  end.

Lemma future_step_good s s' : good s -> step s s' -> good s'.
Proof.
  intros (N & R & C & G) H. destruct s as [st co re a i n nr]. simpl in *. subst.
  destruct H; unfold done in *; simpl in *; subst;
    repeat match goal with
    | H : match ?x with _ => _ end |- _ => destruct x; simpl in *; try done
    | H : match ?x with _ => _ end = true |- _ => destruct x; simpl in *; try done
    end; destruct_and?; subst; unfold good; simpl; auto.
Qed.

Lemma future_reachable_good s : rtc step init s -> good s.
Proof.
  intros R. assert (H : good init) by done. revert H.
  induction R as [|x y z H1 _ IH]; intros H; [done|]. by eapply IH, future_step_good.
Qed.

(** Steps left before everything is at rest. *)
Definition measure (s : state) : nat :=
  match apc s with ABegin => 3 | AStarted => 2 | ASet => 1 | _ => 0 end +
  match ipc s with INot => 4 | IBody => 3 | IFinal => 2 | IAfter _ => 1 | IEnd => 0 end.

Lemma future_step_measure s s' : good s -> step s s' -> measure s' < measure s.
Proof.
  intros (N & R & C & G) H. destruct s as [st co re a i n nr]. unfold measure.
  destruct H; simpl in *; subst; simpl; try lia;
    repeat match goal with |- context [if ?b then _ else _] => destruct b end; simpl; try lia;
    destruct a; simpl in *; try lia; done.
Qed.

(** Wherever the two sides are, one of them can move, or both are through. *)
Lemma future_good_progress s :
  good s -> (exists s', step s s') \/ (apc s = ARunning /\ ipc s = IEnd).
Proof.
  intros (N & R & C & G). destruct s as [st co re a i n nr]. simpl in *.
  destruct i as [| | |[]|]; try (left; eexists; by econstructor; simpl); destruct a; try done;
    try (left; eexists; by econstructor; simpl); auto.
Qed.

(** C8: awaiting a [future] resumes the awaiting coroutine exactly once: in
    every interleaving of the two sides the coroutine is resumed at most once,
    only after the result has been stored, never through an empty handle, every
    execution ends, and where it ends the awaiting coroutine runs. *)
Theorem future_resumes_once s :
  rtc step init s ->
  resumes s <= 1 /\ null_resume s = false /\ (resumes s = 1 -> m_result s = true) /\
  (apc s = ARunning <-> resumes s = 1) /\
  (forall s', step s s' -> measure s' < measure s) /\
  ((exists s', step s s') \/ (apc s = ARunning /\ ipc s = IEnd)).
Proof.
  intros R. pose proof (future_reachable_good s R) as G.
  split_and!; [| apply G | | | intros s'; by apply future_step_measure | by apply future_good_progress];
    destruct G as (_ & Hr & _ & G); destruct s as [st co re a i n nr]; simpl in *;
    destruct a, i as [| | |[]|]; try done; destruct G as [-> ->]; try done; lia.
Qed.

(** The awaited coroutine completes on another thread between the two accesses
    of [set_continuation]. *)
Lemma future_resumes_once_witness :
  exists s, rtc step init s /\ apc s = ARunning /\ resumes s <= 1 /\ null_resume s = false.
Proof.
  assert (R : rtc step init (mk_state true true true ARunning (IAfter false) 1 false)).
  { eapply rtc_l; [by apply resume_inner|]. eapply rtc_l; [by apply set_continuation_write|].
    eapply rtc_l; [by apply body_returns|]. eapply rtc_l; [by apply final_exchange|].
    eapply rtc_l; [by apply set_continuation_exchange|]. apply rtc_refl. }
  eexists. split; [exact R|]. split; [reflexivity|].
  destruct (future_resumes_once _ R) as (H1 & H2 & _). split; [exact H1 | exact H2].
Defined.

End FutureProtocol.

(** ** [awaitable_counter]: [co_await counter] against [notify_complete_one] *)

Module CounterProtocol.

(** The awaiting coroutine: before [await_ready]; after it returned false;
    suspended with its handle stored; running again. *)
Inductive awaiter_pc := CBegin | CMiss | CSuspended | CRunning.

(** [pending] completions have not called [notify_complete_one]; [last] says
    that one has seen the count fall to 0 and is about to test the handle. *)
Record state := mk_state {
  cnt : nat;
  continuation : bool;
  apc : awaiter_pc;
  pending : nat;
  last : bool;
  resumes : nat
}.

Definition init (n : nat) : state := mk_state n false CBegin n false 0.

Definition load (s : state) : state :=
  if (cnt s =? 0)%nat
  then mk_state (cnt s) (continuation s) CRunning (pending s) (last s) (S (resumes s))
  else mk_state (cnt s) (continuation s) CMiss (pending s) (last s) (resumes s).

Definition write (s : state) : state :=
  mk_state (cnt s) true CSuspended (pending s) (last s) (resumes s).

(** [cnt.fetch_sub(1) == 1]; the count is unsigned and wraps at 64 bits. *)
Definition fetch_sub (s : state) : state :=
  mk_state (Z.to_nat (wrapu 64 (Z.of_nat (cnt s) - 1))) (continuation s) (apc s)
    (pred (pending s)) (cnt s =? 1)%nat (resumes s).

(** [if (continuation) continuation.resume()] *)
Definition check_resume (s : state) : state :=
  if continuation s
  then mk_state (cnt s) true CRunning (pending s) false (S (resumes s))
  else mk_state (cnt s) false (apc s) (pending s) false (resumes s).

(** Threads interleave between any two accesses. *)
Inductive step (s : state) : state -> Prop :=
| step_load : apc s = CBegin -> step s (load s)
| step_write : apc s = CMiss -> step s (write s)
| step_sub : 0 < pending s -> last s = false -> step s (fetch_sub s)
| step_check : last s = true -> step s (check_resume s).

(** All on the thread of one context: [await_ready] and [await_suspend] run
    without interruption, and so does [notify_complete_one]. *)
Definition notify_complete_one (s : state) : state :=
  let s := fetch_sub s in if last s then check_resume s else s.

Definition await_counter (s : state) : state :=
  let s := load s in match apc s with CMiss => write s | _ => s end.

Inductive local_step (s : state) : state -> Prop :=
| local_await : apc s = CBegin -> local_step s (await_counter s)
| local_notify : 0 < pending s -> local_step s (notify_complete_one s).

(** The count is what is pending, and the coroutine waits while it is not 0. *)
Definition good (s : state) : Prop :=
  cnt s = pending s /\ (Z.of_nat (cnt s) < 2 ^ 64)%Z /\ last s = false /\
  match apc s with
  | CBegin => continuation s = false /\ resumes s = 0
  | CMiss => False
  | CSuspended => continuation s = true /\ 0 < cnt s /\ resumes s = 0
  | CRunning => cnt s = 0 /\ resumes s = 1
  end.

Lemma fetch_sub_cnt s n :
  cnt s = S n -> (Z.of_nat (cnt s) < 2 ^ 64)%Z ->
  fetch_sub s = mk_state n (continuation s) (apc s) (pred (pending s)) (n =? 0)%nat (resumes s).
Proof.
  intros E H. unfold fetch_sub. rewrite E in *. rewrite wrapu_small by lia.
  f_equal; lia.
Qed.

Lemma local_step_good s s' : good s -> local_step s s' -> good s'.
Proof.
  intros (P & B & L & G) H. destruct H as [Ha | Hp].
  - unfold await_counter, load. rewrite Ha in G. destruct G as [C R].
    destruct (cnt s =? 0)%nat eqn:E; boolp; simpl; unfold good; simpl; split_and!; try done; lia.
  - destruct (cnt s) as [|n] eqn:E; [lia|]. unfold notify_complete_one.
    rewrite (fetch_sub_cnt s n E) by lia. unfold check_resume. cbn.
    destruct (n =? 0)%nat eqn:En, (apc s) eqn:Ea; boolp; cbn; destruct_and?; try done;
      try (destruct (continuation s); done || idtac); unfold good; cbn; rewrite ?Ea;
      split_and!; try done; try lia.
Qed.

(** On the thread of one context, [co_await counter] resumes the awaiting
    coroutine exactly once and after the last completion, whatever the order of
    the completions and of the [co_await], and no execution gets stuck before
    that. *)
Theorem counter_resumes_once n s :
  (Z.of_nat n < 2 ^ 64)%Z -> rtc local_step (init n) s ->
  resumes s <= 1 /\ (resumes s = 1 -> pending s = 0) /\
  ((exists s', local_step s s') \/ (pending s = 0 /\ resumes s = 1)).
Proof.
  intros Hn R. assert (G : good (init n)) by done. revert G.
  induction R as [s|x y z H1 _ IH]; intros G; [|by eapply IH, local_step_good].
  destruct G as (P & B & L & G). destruct (pending s) as [|k] eqn:E.
  - destruct (apc s) eqn:Ea; try done; [|destruct_and?; lia|].
    + destruct G as [C ->]. split_and!; [lia | done |]. left. eexists. by apply local_await.
    + destruct G as [C ->]. split_and!; [lia | done | by right].
  - destruct (apc s); try done; destruct_and?; [..|lia];
      (split_and!; [lia | lia |]; left; eexists; apply local_notify; lia).
Qed.

Lemma counter_resumes_once_witness :
  exists s, rtc local_step (init 2) s /\ resumes s <= 1 /\ (resumes s = 1 -> pending s = 0) /\
    apc s = CRunning.
Proof.
  assert (R : rtc local_step (init 2)
                (notify_complete_one (notify_complete_one (await_counter (init 2))))).
  { eapply rtc_l; [by apply local_await|]. eapply rtc_l; [apply local_notify; simpl; lia|].
    eapply rtc_l; [apply local_notify; simpl; lia|]. apply rtc_refl. }
  destruct (counter_resumes_once 2 _ ltac:(lia) R) as (H1 & H2 & _).
  eexists. split; [exact R|]. split; [exact H1|]. split; [exact H2 | reflexivity].
Defined.

(** C35: when completions come from other threads, the wake-up can be lost: the
    last completion may find the handle empty between [await_ready] and
    [await_suspend], and then the coroutine is suspended with nothing left that
    could resume it. *)
Theorem counter_wakeup_can_be_lost :
  exists s, rtc step (init 1) s /\ apc s = CSuspended /\ resumes s = 0 /\ forall s', ~ step s s'.
Proof.
  exists (write (check_resume (fetch_sub (load (init 1))))).
  split; [|split_and!; try reflexivity].
  - eapply rtc_l; [by apply step_load|]. eapply rtc_l; [apply step_sub; simpl; lia || done|].
    eapply rtc_l; [by apply step_check|]. eapply rtc_l; [by apply step_write|]. apply rtc_refl.
  - intros s' H. inversion H; simpl in *; try done; lia.
Qed.

End CounterProtocol.

(** ** [sync_wait]: a thread waits for a coroutine *)

Module SyncWait.

(** The waiting thread: before the load in [atomic_wait_explicit]; blocked in
    it; returned from [sync_wait], its frame with [flag] gone. *)
Inductive waiter_pc := WLoad | WBlocked | WReturned.

(** The completing side: before [notice_fin]; after the exchange, before
    [atomic_notify_all]; after it. *)
Inductive notifier_pc := NBefore | NExchanged | NDone.

(** [dead_access]: the flag was used after its frame was gone. *)
Record state := mk_state {
  flag : bool;
  wpc : waiter_pc;
  npc : notifier_pc;
  dead_access : bool
}.

Definition init : state := mk_state false WLoad NBefore false.

Definition alive (s : state) : bool := match wpc s with WReturned => false | _ => true end.

(** [std::atomic_wait]: load, and block while the value is the old one; a
    notification lets a blocked thread load again. *)
Inductive step (s : state) : state -> Prop :=
| wait_load :
    wpc s = WLoad ->
    step s (mk_state (flag s) (if flag s then WReturned else WBlocked) (npc s) (dead_access s))
| exchange_flag :
    npc s = NBefore ->
    step s (mk_state true (wpc s) (if flag s then NDone else NExchanged) (dead_access s))
| notify_all :
    npc s = NExchanged ->
    step s (mk_state (flag s) (match wpc s with WBlocked => WLoad | w => w end) NDone
              (dead_access s || negb (alive s))).

Definition good (s : state) : Prop :=
  flag s = (match npc s with NBefore => false | _ => true end) /\
  match wpc s, npc s with
  | WBlocked, NDone => False
  | WReturned, NBefore => False
  | _, _ => True
  end.

Lemma sync_wait_step_good s s' : good s -> step s s' -> good s'.
Proof.
  intros [F G] H. destruct s as [f w n d]. simpl in *.
  destruct H; simpl in *; subst; [destruct n | destruct w | destruct w]; by split.
Qed.

Lemma sync_wait_reachable_good s : rtc step init s -> good s.
Proof.
  intros R. assert (H : good init) by done. revert H.
  induction R as [|x y z H1 _ IH]; intros H; [done|]. by eapply IH, sync_wait_step_good.
Qed.

(** [sync_wait] returns, and only after the coroutine has completed: in
    every interleaving the thread does not pass the wait before the callback
    has set the flag, and an execution that cannot go on has the thread
    returned and the callback finished. *)
Theorem sync_wait_returns s :
  rtc step init s ->
  (wpc s = WReturned -> npc s <> NBefore) /\
  ((exists s', step s s') \/ (wpc s = WReturned /\ npc s = NDone)).
Proof.
  intros R. destruct (sync_wait_reachable_good s R) as [F G]. destruct s as [f w n d]. simpl in *.
  split; [by destruct w, n|].
  destruct n; [left; eexists; by apply exchange_flag | left; eexists; by apply notify_all |].
  destruct w; [left; eexists; by apply wait_load | done | auto].
Qed.

Lemma sync_wait_returns_witness :
  exists s, rtc step init s /\ wpc s = WReturned /\ npc s <> NBefore.
Proof.
  assert (R : rtc step init (mk_state true WReturned NDone false)).
  { eapply rtc_l; [by apply wait_load|]. eapply rtc_l; [by apply exchange_flag|].
    eapply rtc_l; [by apply notify_all|]. eapply rtc_l; [by apply wait_load|]. apply rtc_refl. }
  eexists. split; [exact R|]. split; [reflexivity|].
  exact (proj1 (sync_wait_returns _ R) eq_refl).
Defined.

(** The callback may touch [flag] after [sync_wait] has returned: the waiting
    thread can see the flag set, return and drop its frame before
    [atomic_notify_all(&flag)] runs. *)
Theorem sync_wait_flag_outlived :
  exists s, rtc step init s /\ dead_access s = true.
Proof.
  exists (mk_state true WReturned NDone true). split; [|done].
  eapply rtc_l; [by apply exchange_flag|]. eapply rtc_l; [by apply wait_load|].
  eapply rtc_l; [by apply notify_all|]. apply rtc_refl.
Qed.

End SyncWait.
