(* ===== verification/HttpParser.v ===== *)
(** * [include/http/http_parser.hpp]: header lists and the response parser

    [http_header] owns its strings; [http_parser] keeps the [phr_header] array
    that [phr_parse_response] fills, whose pointers refer to the text parsed.
    [std::tolower] and [std::stoi] are the C library's, in the "C" locale. *)

From S2P Require Import Prelude PicoHttp PicoEquiv PicoSafety PicoRoundtrip.

(** ** Case-insensitive comparison *)

(** [std::tolower]: the 26 upper-case letters move by 32. *)
Definition tolower (c : byte) : byte :=
  if (65 <=? code c)%Z && (code c <=? 90)%Z
  then default c (Byte.of_N (Byte.to_N c + 32))
  else c.

Fixpoint bytes_eqb (a b : list byte) : bool :=
  match a, b with
  | [], [] => true
  | x :: a, y :: b => (x =? y)%beq && bytes_eqb a b
  | _, _ => false
  end.

Definition is_lower_equal (a b : list byte) : bool :=
  bytes_eqb (map tolower a) (map tolower b).

(** ** [http_header] *)

Record http_header := mk_http_header { m_headers : list (list byte * list byte) }.

(** The constructor from a range of [phr_header]: copies both texts. *)
Definition http_header_of (s : list byte) (r : list phr_header) : http_header :=
  mk_http_header (map (fun h => (view s (name h) (name_len h), view s (value h) (value_len h))) r).

Fixpoint find_header (l : list (list byte * list byte)) (key : list byte) : option (list byte) :=
  match l with
  | [] => None
  | (k, v) :: l => if is_lower_equal k key then Some v else find_header l key
  end.

Definition header_get (h : http_header) (key : list byte) : option (list byte) :=
  find_header (m_headers h) key.

Definition add_headers (k v : list byte) (h : http_header) : http_header :=
  mk_http_header (m_headers h ++ [(k, v)]).

(** ** [std::stoi] *)

Inductive stoi_error := invalid_argument | out_of_range.

Definition is_space (c : byte) : bool := (code c =? 32)%Z || ((9 <=? code c)%Z && (code c <=? 13)%Z).
Definition is_digitb (c : byte) : bool := (48 <=? code c)%Z && (code c <=? 57)%Z.

Fixpoint skip_spaces (l : list byte) : list byte :=
  match l with
  | c :: t => if is_space c then skip_spaces t else l
  | [] => []
  end.

Fixpoint take_digits (l : list byte) : list byte :=
  match l with
  | c :: t => if is_digitb c then c :: take_digits t else []
  | [] => []
  end.

Definition decimal (l : list byte) : Z := fold_left (fun n c => n * 10 + (code c - 48))%Z l 0%Z.

Definition stoi (l : list byte) : stoi_error + Z :=
  let l := skip_spaces l in
  let '(neg, l) := match l with
                   | c :: t => if (c =? "-"%byte)%beq then (true, t)
                               else if (c =? "+"%byte)%beq then (false, t) else (false, l)
                   | [] => (false, [])
                   end in
  match take_digits l with
  | [] => inl invalid_argument
  | ds => let n := (if neg then - decimal ds else decimal ds)%Z in
          if (n <? - INT_MAX - 1)%Z || (INT_MAX <? n)%Z then inl out_of_range else inr n
  end.

(** ** [http_parser] *)

Definition MAX_HEADERS : nat := 100.

(** [p_headers] and [p_message] refer to the text that was parsed. *)
Record http_parser := mk_parser {
  p_headers : list phr_header;
  headers_cnt : nat;
  body_len : Z;
  p_message : option nat * nat;
  p_status : Z
}.

Definition parser_init : http_parser :=
  mk_parser (replicate MAX_HEADERS null_header) 0 0 (None, 0) 0.

(** [get_header_value]: the empty view when the header is missing. *)
Fixpoint find_view (s : list byte) (hs : list phr_header) (key : list byte) : list byte :=
  match hs with
  | [] => []
  | h :: hs => if is_lower_equal (view s (name h) (name_len h)) key
               then view s (value h) (value_len h) else find_view s hs key
  end.

Definition get_header_value (s : list byte) (p : http_parser) (key : list byte) : list byte :=
  find_view s (take (headers_cnt p) (p_headers p)) key.

(** What a call ends with: a value, an exception of [std::stoi], or undefined
    behaviour of the parser it calls. *)
Inductive parse_result :=
| Returned (len : Z)
| Threw (e : stoi_error)
| Undefined.

Section parse.
Variable sse4_2 : bool.
Variable cpu : sse_unit.

(** The out-parameters before the call: the fields of the parser and zeroed locals. *)
Definition parser_outs (p : http_parser) : outs :=
  mk_outs None 0 None 0 0 (p_status p) None 0 (p_headers p) MAX_HEADERS.

Definition parse_response (str : list byte) (p : http_parser) : http_parser * parse_result :=
  match phr_parse_response sse4_2 cpu str 0 (parser_outs p) with
  | (Done len, o) =>
      let p := mk_parser (headers o) (num_headers o) (body_len p) (msg o, msg_len o) (status o) in
      let content_len := get_header_value str p (bs "content-length") in
      match content_len with
      | [] => (p, Returned len)
      | _ => match stoi content_len with
             | inr n => (mk_parser (p_headers p) (headers_cnt p) (wrapu 64 n) (p_message p)
                           (p_status p), Returned len)
             | inl e => (p, Threw e)
             end
      end
  | (_, _) => (p, Undefined)
  end.
End parse.

(** ** Comparison and lookup *)

Lemma bytes_eqb_eq a b : bytes_eqb a b = true <-> a = b.
Proof.
  revert b. induction a as [|x a IH]; intros [|y b]; simpl; try done.
  rewrite andb_true_iff, byte_eqb_eq, IH. split; [by intros [-> ->] | by intros [= -> ->]].
Qed.

Lemma is_lower_equal_eq a b : is_lower_equal a b = true <-> map tolower a = map tolower b.
Proof. apply bytes_eqb_eq. Qed.

Lemma tolower_idem c : tolower (tolower c) = tolower c.
Proof.
  apply byte_eqb_eq. revert c. apply (all_bytes_spec (fun c => (tolower (tolower c) =? tolower c)%beq)).
  vm_compute. reflexivity.
Qed.

(** The two lookups agree. *)
Lemma find_view_header s hs key :
  find_view s hs key = default [] (find_header (map (header_view s) hs) key).
Proof. induction hs as [|h hs IH]; simpl; [done|]. by case_if. Qed.

(** Lookup does not depend on the case of the key or of the names. *)
Lemma find_header_lower l key : find_header l (map tolower key) = find_header l key.
Proof.
  induction l as [|[k v] l IH]; simpl; [done|]. rewrite IH.
  assert (E : is_lower_equal k (map tolower key) = is_lower_equal k key).
  { unfold is_lower_equal. f_equal. rewrite map_map. apply map_ext, tolower_idem. }
  by rewrite E.
Qed.

Lemma find_header_app l1 l2 key :
  find_header (l1 ++ l2) key
  = match find_header l1 key with Some v => Some v | None => find_header l2 key end.
Proof. induction l1 as [|[k v] l1 IH]; simpl; [done|]. by case_if. Qed.

(** ** Properties *)

(** A header list is a map with case-insensitive keys in which the first
    entry wins: adding a header makes it found under any spelling of its name
    unless an entry with that name is already there, and changes no other
    lookup. *)
Theorem header_get_add k v h key :
  header_get (add_headers k v h) key
  = match header_get h key with
    | Some v' => Some v'
    | None => if is_lower_equal k key then Some v else None
    end /\
  header_get h (map tolower key) = header_get h key.
Proof. split; [apply find_header_app | apply find_header_lower]. Qed.

(** The body length a header list announces, [old] when it announces none. *)
Definition content_length (hs : list (list byte * list byte)) (old : Z) : stoi_error + Z :=
  match find_header hs (bs "content-length") with
  | None | Some [] => inr old
  | Some v => match stoi v with inr n => inr (wrapu 64 n) | inl e => inl e end
  end.

(** The parser object on a rendered head. *)
Lemma response_head_parsed sse cpu h body p :
  cpu_spec cpu -> head_ok h -> length (rh_headers h) <= MAX_HEADERS ->
  length (p_headers p) = MAX_HEADERS ->
  (Z.of_nat (length (render_response h)) <= INT_MAX)%Z ->
  let s := render_response h ++ body in
  exists p',
    parse_response sse cpu s p
    = (p', match content_length (rh_headers h) (body_len p) with
           | inr _ => Returned (Z.of_nat (length (render_response h)))
           | inl e => Threw e
           end) /\
    p_status p' = head_status h /\
    view s (p_message p').1 (p_message p').2 = rh_msg h /\
    (forall key, get_header_value s p' key = default [] (find_header (rh_headers h) key)) /\
    (forall n, content_length (rh_headers h) (body_len p) = inr n -> body_len p' = n) /\
    headers_cnt p' = length (rh_headers h) /\
    http_header_of s (take (headers_cnt p') (p_headers p')) = mk_http_header (rh_headers h).
Proof.
  intros Hcmp Hh Hn Hp Hmax s.
  destruct (response_recovered sse cpu h body (parser_outs p) Hcmp Hh)
    as (o' & E & _ & Hs & Hm & Hc & Hv); [simpl; lia | done |]. fold s in E, Hm, Hv.
  set (p1 := mk_parser (headers o') (num_headers o') (body_len p) (msg o', msg_len o') (status o')).
  assert (Hget : forall key, get_header_value s p1 key = default [] (find_header (rh_headers h) key)).
  { intros key. unfold get_header_value. by rewrite find_view_header, <- Hv. }
  assert (Hhdr : http_header_of s (take (headers_cnt p1) (p_headers p1))
                 = mk_http_header (rh_headers h)) by (by rewrite <- Hv).
  unfold parse_response. rewrite E. fold p1. cbv zeta. rewrite Hget. unfold content_length.
  destruct (find_header (rh_headers h) (bs "content-length")) as [[|c v]|]; simpl default.
  - exists p1. split_and!; try done. by intros n [= <-].
  - destruct (stoi (c :: v)) as [e|n].
    + exists p1. by split_and!.
    + eexists. split; [reflexivity|]. split_and!; try done. by intros m [= <-].
  - exists p1. split_and!; try done. by intros n [= <-].
Qed.

(** [http_parser::parse_response] on a response head: it returns the length
    of the head (or the exception of [std::stoi] on the announced length), the
    status, the reason phrase, every header under every spelling of its name,
    and as [body_len] the announced length; without an announced length
    [body_len] keeps the value of the previous response. *)
Theorem parse_response_head sse cpu h body p :
  cpu_spec cpu -> head_ok h -> length (rh_headers h) <= MAX_HEADERS ->
  length (p_headers p) = MAX_HEADERS ->
  (Z.of_nat (length (render_response h)) <= INT_MAX)%Z ->
  let s := render_response h ++ body in
  exists p',
    parse_response sse cpu s p
    = (p', match content_length (rh_headers h) (body_len p) with
           | inr _ => Returned (Z.of_nat (length (render_response h)))
           | inl e => Threw e
           end) /\
    p_status p' = head_status h /\
    view s (p_message p').1 (p_message p').2 = rh_msg h /\
    (forall key, get_header_value s p' key = default [] (find_header (rh_headers h) key)) /\
    (forall n, content_length (rh_headers h) (body_len p) = inr n -> body_len p' = n) /\
    headers_cnt p' = length (rh_headers h) /\
    http_header_of s (take (headers_cnt p') (p_headers p')) = mk_http_header (rh_headers h).
Proof. apply response_head_parsed. Qed.

Lemma parse_response_head_witness :
  exists p',
    parse_response true intrinsics (render_response sample_head ++ []) parser_init
    = (p', Returned (Z.of_nat (length (render_response sample_head)))) /\
    p_status p' = 204%Z /\ body_len p' = 0%Z /\
    get_header_value (render_response sample_head ++ []) p' (bs "SERVER") = bs "coio".
Proof.
  destruct (parse_response_head true intrinsics sample_head [] parser_init)
    as (p' & E & Hs & _ & Hg & Hb & _ & _).
  - exact intrinsics_spec.
  - exact sample_head_ok.
  - apply Nat.leb_le. reflexivity.
  - reflexivity.
  - vm_compute. discriminate.
  - exists p'. split; [exact E|]. split; [exact Hs|]. split; [by apply Hb|].
    rewrite Hg. reflexivity.
Defined.

(** A negative announced length is accepted and becomes a huge [size_t]:
    [std::stoi] reads the sign and the [int] is converted to [std::size_t]. *)
Theorem negative_length_wraps ds n hs old :
  find_header hs (bs "content-length") = Some ("-"%byte :: ds) ->
  stoi ("-"%byte :: ds) = inr (- n)%Z -> (0 < n <= INT_MAX)%Z ->
  content_length hs old = inr (2 ^ 64 - n)%Z.
Proof.
  intros H1 H2 Hn. unfold content_length. rewrite H1, H2. f_equal. unfold wrapu, INT_MAX in *.
  rewrite <- (Z.mod_add _ 1) by lia. rewrite Z.mod_small; lia.
Qed.

Lemma negative_length_wraps_witness :
  content_length [(bs "Content-Length", bs "-5")] 0 = inr (2 ^ 64 - 5)%Z.
Proof.
  apply (negative_length_wraps (bs "5") 5); [reflexivity | reflexivity |].
  split; [lia | vm_compute; discriminate].
Defined.
