(* ===== verification/HttpClient.v ===== *)
(** * [include/http/httpclient.hpp]: the HTTP client

    The client reads through the interface [ReadBuffer] of [StreamBuffer], so
    that its theorems are about any buffer with those laws.  The socket and the
    resolver are code of other components: the class [Socket] lists what the
    client uses of them, and [SocketLaws] what it relies on, that received bytes
    come in order and that 0 bytes mean the peer has finished.

    A [co_await] gives its value to the rest of the body; an exception leaves
    the body ([Exn]).  Loops carry a bound, one turn per received byte at most;
    the theorems show that [Stuck] is not reached. *)

From S2P Require Import Prelude ResultType Url StreamBuffer PicoHttp PicoEquiv PicoRoundtrip HttpParser.
From Stdlib Require DecimalString.

(** ** Interfaces *)

Inductive recv_result := Bytes (l : list byte) | RecvError (err : Z).

(** [sk_recv n] receives into [n] bytes; [sk_connect] is [false] when it throws;
    [sk_send] gives the number of bytes the kernel took, [None] when it throws;
    [sk_stream] is what the peer has yet to deliver. *)
Class Socket (K Addr : Type) := {
  sk_recv : nat -> K -> recv_result * K;
  sk_connect : Addr -> K -> bool * K;
  sk_send : list byte -> K -> option nat * K;
  sk_close : K -> K;
  sk_query : list byte -> option (list Addr);
  sk_stream : K -> list byte
}.

Class SocketLaws (K Addr : Type) `{!Socket K Addr} := {
  sk_recv_ok n k l k' :
    0 < n -> sk_recv n k = (Bytes l, k') ->
    length l <= n /\ sk_stream k = l ++ sk_stream k' /\ (l = [] -> sk_stream k = [])
}.

(** The connection does not fail while the client reads. *)
Definition reliable {K Addr} `{!Socket K Addr} : Prop :=
  forall n k, exists l k', sk_recv n k = (Bytes l, k').

(** [Exn x]: an exception leaves the body with the members in state [x]. *)
Inductive io (X A : Type) := Val (a : A) | Exn (x : X) | Stuck.
Arguments Val {X A} a.
Arguments Exn {X A} x.
Arguments Stuck {X A}.

#[export] Instance io_bind X : MBind (io X) := fun A B f m =>
  match m with Val a => f a | Exn x => Exn x | Stuck => Stuck end.

(** ** Data *)

Inductive http_method := get | post | head.

Definition to_str (m : http_method) : list byte :=
  match m with get => bs "GET" | post => bs "POST" | head => bs "HEAD" end.

Record http_response := mk_response {
  r_header : http_header;
  r_rsp : list byte;
  r_body_length : Z;
  r_status_code : Z
}.

Definition CRLF : list byte := [CR; LF].
Definition DCRLF : list byte := [CR; LF; CR; LF].

(** ** The message *)

Definition to_string (n : nat) : list byte := bs (DecimalString.NilZero.string_of_uint (Nat.to_uint n)).

(** [std::less<std::string>]: bytes compared as unsigned. *)
Fixpoint str_lt (a b : list byte) : bool :=
  match a, b with
  | _, [] => false
  | [], _ :: _ => true
  | x :: a, y :: b => (code x <? code y)%Z || ((x =? y)%beq && str_lt a b)
  end.

(** [m_headers[k] = v] on a [std::map], kept as its sorted entries. *)
Fixpoint map_set (k v : list byte) (l : list (list byte * list byte)) : list (list byte * list byte) :=
  match l with
  | [] => [(k, v)]
  | (k', v') :: l' =>
      if str_lt k k' then (k, v) :: l
      else if bytes_eqb k k' then (k', v) :: l'
      else (k', v') :: map_set k v l'
  end.

Definition build_msg (m_headers : list (list byte * list byte)) (u : url) (method : http_method)
    (body : list byte) : list byte :=
  to_str method ++ bs " " ++ Url.path u ++
  (match query u with [] => [] | q => bs "?" ++ q end) ++
  bs " HTTP/1.0" ++ CRLF ++ bs "Host:" ++ host u ++ CRLF ++
  concat (List.map (fun '(k, v) => k ++ bs ": " ++ v ++ CRLF) m_headers) ++
  (if negb (match body with [] => true | _ => false end) ||
      (match method with post => true | _ => false end)
   then bs "Content-Length: " ++ to_string (length body) ++ CRLF else []) ++
  CRLF ++ (match body with [] => [] | b => b end).

(** ** Strings and their lives *)

(** The text of the strings by address, [None] when the string is destroyed. *)
Definition memory : Type := list (option (list byte)).

Definition construct_string (s : list byte) (mem : memory) : nat * memory := (length mem, mem ++ [Some s]).
Definition destroy_string (a : nat) (mem : memory) : memory := <[a := None]> mem.

(** [std::string{p, n}] with a pointer into the string at [a]; [None]: bytes of a
    destroyed string are read. *)
Definition copy_text (mem : memory) (a : nat) (p : option nat) (n : nat) : option (list byte) :=
  if (n =? 0)%nat then Some []
  else match mem !! a with Some (Some s) => Some (view s p n) | _ => None end.

(** The constructor of [http_header] from the headers of the parser. *)
Definition copy_headers (mem : memory) (a : nat) (r : list phr_header) : option http_header :=
  l ← mapM (fun h => n ← copy_text mem a (name h) (name_len h);
                     v ← copy_text mem a (value h) (value_len h); Some (n, v)) r;
  Some (mk_http_header l).

(** ** Reading *)

Section client.
Context {B K Addr : Type} `{!ReadBuffer B} `{!Socket K Addr}.
Variable sse4_2 : bool.
Variable cpu : sse_unit.

(** The loop of [read_until]; [room] is the size of the prepared span. *)
Fixpoint read_until_loop (fuel : nat) (delim : list byte) (room beg : nat) (b : B) (k : K)
  : io (B * K) (list byte * B * K) :=
  match fuel with
  | O => Stuck
  | S fuel =>
      match sk_recv room k with
      | (RecvError _, k) => Exn (b, k)
      | (Bytes [], k) => Val ([], b, k)
      | (Bytes l, k) =>
          let b := rb_commit (Z.of_nat (length l)) (rb_fill l b) in
          let str := rb_contents b in
          match sv_find delim str beg with
          | Some pos =>
              let pos := pos + length delim in
              Val (take pos str, rb_consume (Z.of_nat pos) b, k)
          | None =>
              let beg := if (length delim <? length str)%nat
                         then length str - length delim else 0 in
              match rb_prepare 256 b with
              | None => Exn (b, k)
              | Some b => read_until_loop fuel delim 256 beg b k
              end
          end
      end
  end.

Definition read_until (fuel : nat) (delim : list byte) (b : B) (k : K)
  : io (B * K) (list byte * B * K) :=
  match rb_prepare 512 b with
  | None => Exn (b, k)
  | Some b =>
      '(result, b, k) ← read_until_loop fuel delim 512 0 b k;
      match result with
      | [] => let result := rb_contents b in
              Val (result, rb_consume (Z.of_nat (length result)) b, k)
      | _ => Val (result, b, k)
      end
  end.

(** The loop of [read_body] inside its [try]; an exception ends it. *)
Fixpoint read_body_loop (fuel : nat) (need_read : nat) (b : B) (k : K) : io (B * K) (B * K) :=
  if (need_read =? 0)%nat then Val (b, k)
  else
    match fuel with
    | O => Stuck
    | S fuel =>
        let room := Nat.max need_read 64 in
        match rb_prepare (Z.of_nat room) b with
        | None => Val (b, k)
        | Some b =>
            match sk_recv room k with
            | (RecvError _, k) => Val (b, k)
            | (Bytes [], k) => Val (b, k)
            | (Bytes l, k) =>
                let n := if (need_read <=? length l)%nat then need_read else length l in
                read_body_loop fuel (need_read - n) (rb_commit (Z.of_nat n) (rb_fill l b)) k
            end
        end
    end.

Definition read_body (fuel : nat) (need_read : nat) (b : B) (k : K)
  : io (B * K) (list byte * B * K) :=
  if (need_read =? 0)%nat then Val ([], b, k)
  else
    match rb_try_get (Z.of_nat need_read) b with
    | Some s => Val (s, rb_consume (Z.of_nat (length s)) b, k)
    | None =>
        let rsp := rb_contents b in
        let b := rb_consume (Z.of_nat (length rsp)) b in
        '(b, k) ← read_body_loop fuel (need_read - length rsp) b k;
        let rsp := rsp ++ rb_contents b in
        Val (rsp, rb_consume (Z.of_nat (length rsp)) b, k)
    end.

Definition ends_with (suffix s : list byte) : bool :=
  (length suffix <=? length s)%nat && bytes_eqb (drop (length s - length suffix) s) suffix.

(** [read_headers]: the [int] of [parse_response] becomes the [bool].  The string
    that is parsed is the local [head]; its address, into which the headers of the
    parser point from then on, is returned with the memory after it has been
    destroyed. *)
Definition read_headers (fuel : nat) (p : http_parser) (b : B) (k : K) (mem : memory)
  : io (http_parser * B * K) (bool * http_parser * B * K * nat * memory) :=
  match read_until fuel DCRLF b k with
  | Stuck => Stuck
  | Exn (b, k) => Exn (p, b, k)
  | Val (h, b, k) =>
  let '(head_, mem) := construct_string h mem in
  if (match h with [] => true | _ => false end) || negb (ends_with DCRLF h)
  then Val (false, p, b, k, head_, destroy_string head_ mem)
  else match parse_response sse4_2 cpu h p with
       | (p, Returned r) => Val (negb (r =? 0)%Z, p, b, k, head_, destroy_string head_ mem)
       | (p, Threw _) => Exn (p, b, k)
       | (_, Undefined) => Stuck
       end
  end.

(** [connect]: the addresses in order until one answers. *)
Fixpoint connect (l : list Addr) (k : K) : bool * K :=
  match l with
  | [] => (false, k)
  | a :: l => match sk_connect a k with
              | (true, k) => (true, k)
              | (false, k) => connect l k
              end
  end.
End client.

(** ** Searching while the text grows *)

(** A search that starts where the last one could not have succeeded finds the
    first occurrence. *)
Lemma find_from delim s l beg :
  0 < length delim -> find0 delim s = None -> beg <= length s - length delim ->
  sv_find delim (s ++ l) beg = find0 delim (s ++ l).
Proof.
  intros Hd Hs Hb. unfold sv_find. rewrite (proj2 (Nat.ltb_ge _ _)) by (rewrite length_app; lia).
  assert (Hno : forall j, j < beg -> prefixb delim (drop j (s ++ l)) = false).
  { intros j Hj. rewrite drop_app_le by lia.
    rewrite prefixb_app_inv by (rewrite length_drop; lia). apply (proj1 (find0_None _ _) Hs). lia. }
  destruct (find0 delim (s ++ l)) as [i|] eqn:E.
  - apply find0_Some in E as (Hl & Hp & Hj).
    assert (Hi : beg <= i).
    { destruct (Nat.le_gt_cases beg i) as [|Hlt]; [done|]. specialize (Hno i Hlt). congruence. }
    apply fmap_Some. exists (i - beg). split; [|lia]. apply find0_Some.
    rewrite length_drop. split_and!; [lia | |].
    + rewrite drop_drop. by replace (beg + (i - beg)) with i by lia.
    + intros j Hj'. rewrite drop_drop. apply Hj. lia.
  - apply fmap_None, find0_None. intros j. rewrite length_drop. intros Hj. rewrite drop_drop.
    apply (proj1 (find0_None _ _) E). rewrite length_app in *. lia.
Qed.

Section reading.
Context {B K Addr : Type} `{!ReadBuffer B} `{!ReadBufferLaws B}.
Context `{!Socket K Addr} `{!SocketLaws K Addr}.
Hypothesis Hrel : reliable (K := K) (Addr := Addr).

(** Everything the client can still see: buffered, then to come. *)
Definition total (b : B) (k : K) : list byte := rb_contents b ++ sk_stream k.

(** Room for everything that is to come. *)
Record fits (extra : Z) (b : B) (k : K) : Prop := {
  ft_wf : rb_wf b;
  ft_int : (Z.of_nat (length (total b k)) <= INT_MAX)%Z;
  ft_put : (rb_put b + Z.of_nat (length (sk_stream k)) + extra <= VEC_MAX)%Z
}.

(** One receive and commit of [n] of its bytes. *)
Lemma recv_commit extra room b k l k' n :
  fits extra b k -> (Z.of_nat room <= rb_room b)%Z -> 0 < room ->
  sk_recv room k = (Bytes l, k') -> n <= length l ->
  let b' := rb_commit (Z.of_nat n) (rb_fill l b) in
  rb_wf b' /\ rb_contents b' = rb_contents b ++ take n l /\
  rb_put b' = (rb_put b + Z.of_nat n)%Z /\ sk_stream k = l ++ sk_stream k' /\
  (l = [] -> sk_stream k = []) /\ length l <= room.
Proof.
  intros [W I P] Hr H0 E Hn b'. destruct (sk_recv_ok room k l k' H0 E) as (L & S & Z0).
  unfold total in I. rewrite S, !length_app in I.
  destruct (rb_recv_ok l n b W) as (W' & C' & P'); [lia | lia | unfold INT_MAX in *; lia |].
  by split_and!.
Qed.

Lemma prepare_fits extra n b k :
  fits extra b k -> (0 <= n <= extra)%Z ->
  exists b', rb_prepare n b = Some b' /\ fits extra b' k /\ rb_contents b' = rb_contents b /\
             (n <= rb_room b')%Z.
Proof.
  intros [W I P] Hn. destruct (rb_prepare_ok n b W) as (b' & E & W' & C & Pt & R); [lia | lia |].
  exists b'. split_and!; [done | | done | done]. split; [done | | lia].
  unfold total in *. by rewrite C.
Qed.

(** The text up to and with the first delimiter, and what follows; all of it
    when there is none. *)
Definition split_at (delim t : list byte) : list byte * list byte :=
  match find0 delim t with
  | Some i => (take (i + length delim) t, drop (i + length delim) t)
  | None => (t, [])
  end.

(** The loop ends with the first delimiter in [total], or with all of it. *)
Definition until_result (delim t r : list byte) (b : B) (k : K) : Prop :=
  match find0 delim t with
  | Some i => r = take (i + length delim) t /\ total b k = drop (i + length delim) t
  | None => r = [] /\ rb_contents b = t /\ sk_stream k = []
  end.

Lemma read_until_loop_ok extra fuel delim room beg b k :
  (256 <= extra)%Z -> 0 < length delim -> fits extra b k -> 0 < room -> (Z.of_nat room <= rb_room b)%Z ->
  find0 delim (rb_contents b) = None -> beg <= length (rb_contents b) - length delim ->
  length (sk_stream k) < fuel ->
  exists r b' k', read_until_loop fuel delim room beg b k = Val (r, b', k') /\
    fits extra b' k' /\ until_result delim (total b k) r b' k'.
Proof.
  intros Hx Hd. revert room beg b k.
  induction fuel as [|fuel IH]; intros room beg b k F H0 Hr Hnone Hbeg Hf; [lia|].
  cbn [read_until_loop]. destruct (Hrel room k) as (l & k' & E). rewrite E.
  destruct (recv_commit extra room b k l k' (length l) F Hr H0 E (le_n _))
    as (W & C & P & S & Z0 & L). rewrite take_ge in C by lia.
  pose proof F as [FW FI FP]. destruct l as [|c l].
  { specialize (Z0 eq_refl). assert (S' : sk_stream k' = []) by (rewrite Z0 in S; by symmetry).
    eexists [], b, k'. split; [done|]. unfold until_result, total in *.
    rewrite Z0, app_nil_r, Hnone in *. split; [|done].
    split; [done | unfold total; by rewrite S', app_nil_r | rewrite S'; simpl in *; lia]. }
  set (b1 := rb_commit _ _) in *.
  assert (T : total b1 k' = total b k) by (unfold total; by rewrite C, S, <- app_assoc).
  rewrite C, (find_from delim _ (c :: l) beg Hd Hnone Hbeg), <- C.
  assert (Hk : length (sk_stream k) = length (c :: l) + length (sk_stream k'))
    by (rewrite S, length_app; done).
  assert (F1 : fits extra b1 k') by (split; [done | by rewrite T | rewrite P; lia]).
  destruct (find0 delim (rb_contents b1)) as [i|] eqn:Ei.
  - pose proof (find0_app _ _ (sk_stream k') _ Ei) as Ei'. fold (total b1 k') in Ei'. rewrite T in Ei'.
    pose proof (find0_length _ _ _ Ei) as Hlen. set (n := i + length delim) in *.
    destruct (rb_consume_ok (Z.of_nat n) b1 W) as (W2 & C2 & P2); [lia | |].
    { destruct F1 as [_ I1 _]. unfold total in I1. rewrite length_app in I1. lia. }
    rewrite Nat2Z.id in C2. do 3 eexists. split; [reflexivity|].
    assert (Htot : total (rb_consume (Z.of_nat n) b1) k' = drop n (total b k)).
    { rewrite <- T. unfold total. by rewrite C2, drop_app_le by lia. }
    split.
    + split; [done | rewrite Htot, length_drop; lia | rewrite P2; destruct F1; lia].
    + unfold until_result. rewrite Ei', <- T. fold n. split; [|by rewrite T].
      unfold total. by rewrite take_app_le by lia.
  - destruct (prepare_fits extra 256 b1 k' F1 ltac:(lia)) as (b2 & -> & F2 & C2 & R2).
    destruct (IH 256 (if length delim <? length (rb_contents b1)
                      then length (rb_contents b1) - length delim else 0) b2 k')
      as (r & b' & k2 & -> & F3 & U); [done | lia | lia | by rewrite C2 | | simpl in Hk; lia |].
    { rewrite C2. case_if; lia. }
    exists r, b', k2. split_and!; [done | done |].
    by replace (total b k) with (total b2 k') by (unfold total in *; by rewrite C2).
Qed.

Lemma read_until_ok extra fuel delim b k :
  (512 <= extra)%Z -> 0 < length delim -> fits extra b k -> find0 delim (rb_contents b) = None ->
  length (sk_stream k) < fuel ->
  exists b' k', read_until fuel delim b k = Val ((split_at delim (total b k)).1, b', k') /\
    fits extra b' k' /\ total b' k' = (split_at delim (total b k)).2.
Proof.
  intros Hx Hd F Hnone Hf. unfold read_until.
  destruct (prepare_fits extra 512 b k F ltac:(lia)) as (b1 & -> & F1 & C1 & R1).
  assert (T : total b1 k = total b k) by (unfold total; by rewrite C1).
  destruct (read_until_loop_ok extra fuel delim 512 0 b1 k) as (r & b2 & k2 & -> & F2 & U);
    [lia | done | done | lia | lia | by rewrite C1 | lia | done |].
  simpl. rewrite T in U. unfold until_result, split_at in *.
  destruct (find0 delim (total b k)) as [i|] eqn:E.
  - destruct U as [-> Ht]. pose proof (find0_length _ _ _ E) as Hl.
    destruct (take (i + length delim) (total b k)) as [|c l] eqn:Et.
    + apply (f_equal length) in Et. rewrite length_take in Et. simpl in Et. lia.
    + by exists b2, k2.
  - destruct U as (-> & Hc & Hs). rewrite Hc.
    destruct (rb_consume_ok (Z.of_nat (length (total b k))) b2 (ft_wf _ _ _ F2))
      as (W3 & C3 & P3); [lia | rewrite Hc; destruct F; lia |].
    rewrite Nat2Z.id, Hc, drop_ge in C3 by lia.
    assert (Ht : total (rb_consume (Z.of_nat (length (total b k))) b2) k2 = [])
      by (unfold total at 1; by rewrite C3, Hs).
    do 2 eexists. split; [reflexivity|]. split; [|done].
    split; [done | by rewrite Ht | rewrite P3; destruct F2; lia].
Qed.

Lemma read_body_loop_ok fuel need b k extra :
  fits extra b k -> (Z.of_nat (Nat.max need 64) <= extra)%Z -> length (sk_stream k) < fuel ->
  exists b' k', read_body_loop fuel need b k = Val (b', k') /\ rb_wf b' /\
    rb_contents b' = rb_contents b ++ take need (sk_stream k).
Proof.
  revert need b k. induction fuel as [|fuel IH]; intros need b k F He Hf; [lia|].
  cbn [read_body_loop]. case_if.
  { exists b, k. subst need. by rewrite take_0, app_nil_r; destruct F. }
  destruct (prepare_fits extra (Z.of_nat (Nat.max need 64)) b k F ltac:(lia))
    as (b1 & -> & F1 & C1 & R1).
  destruct (Hrel (Nat.max need 64) k) as (l & k' & El). rewrite El.
  set (n := if (need <=? length l)%nat then need else length l).
  assert (Hn : n = Nat.min need (length l)) by (unfold n; case_if; lia).
  destruct (recv_commit extra _ b1 k l k' n F1 R1 ltac:(lia) El ltac:(lia))
    as (W & C & P & S & Z0 & L).
  destruct l as [|c l].
  { exists b1, k'. rewrite (Z0 eq_refl), take_nil, app_nil_r, C1. by destruct F1. }
  assert (Hk : length (sk_stream k) = length (c :: l) + length (sk_stream k'))
    by (rewrite S, length_app; done).
  set (b2 := rb_commit _ _) in *.
  assert (F2 : fits extra b2 k').
  { destruct F1 as [_ I1 P1]. split; [done | | rewrite P; simpl in *; lia].
    unfold total in *. rewrite C, !length_app, length_take. rewrite length_app in I1.
    simpl in *. lia. }
  destruct (IH (need - n) b2 k' F2) as (b' & k2 & E2 & W' & C'); [lia | simpl in Hk; lia |].
  exists b', k2. split_and!; [exact E2 | done |].
  rewrite C', C, C1, S, <- app_assoc, (firstn_app need). do 2 f_equal; [|f_equal; lia].
  rewrite Hn. destruct (Nat.le_gt_cases need (length (c :: l))); [f_equal; lia|].
  by rewrite !take_ge by lia.
Qed.

Lemma read_body_ok fuel need b k :
  fits (Z.of_nat (Nat.max need 64)) b k -> length (sk_stream k) < fuel ->
  exists b' k', read_body fuel need b k = Val (take need (total b k), b', k') /\ rb_wf b' /\
    rb_contents b' = drop need (rb_contents b).
Proof.
  intros F Hf. pose proof F as [W I P].
  assert (Hlen : (Z.of_nat (length (rb_contents b)) <= INT_MAX)%Z)
    by (unfold total in I; rewrite length_app in I; lia).
  unfold read_body. case_if.
  { subst need. by exists b, k. }
  rewrite rb_try_get_ok by (done || lia). rewrite Nat2Z.id. unfold total in *.
  destruct (Z.of_nat (length (rb_contents b)) <? Z.of_nat need)%Z eqn:El; boolp.
  - destruct (rb_consume_ok (Z.of_nat (length (rb_contents b))) b W) as (W1 & C1 & P1);
      [lia | done |]. rewrite Nat2Z.id, drop_ge in C1 by lia.
    set (b1 := rb_consume _ b) in *.
    assert (F1 : fits (Z.of_nat (Nat.max need 64)) b1 k).
    { split; [done | unfold total; rewrite C1 | by rewrite P1].
      rewrite length_app in I. simpl. lia. }
    destruct (read_body_loop_ok fuel (need - length (rb_contents b)) b1 k _ F1)
      as (b2 & k2 & -> & W2 & C2); [lia | done |]. rewrite C1 in C2. simpl in C2. simpl.
    rewrite C2. rewrite (firstn_app need), (take_ge (rb_contents b)) by lia.
    set (r := _ ++ _). destruct (rb_consume_ok (Z.of_nat (length r)) b2 W2) as (W3 & C3 & P3);
      [lia | rewrite C2, length_take; rewrite length_app in I; lia |].
    do 2 eexists. split_and!; [reflexivity | done |]. rewrite C3, C2, Nat2Z.id, !drop_ge; [done | lia|].
    unfold r. rewrite length_app. lia.
  - rewrite take_app_le by lia.
    destruct (rb_consume_ok (Z.of_nat (length (take need (rb_contents b)))) b W) as (W1 & C1 & P1);
      [lia | done |].
    do 2 eexists. split_and!; [reflexivity | done |]. rewrite C1, Nat2Z.id, length_take. f_equal. lia.
Qed.
End reading.

(** ** The blank line of a message *)

(** Lines, each with its line break. *)
Definition lines_text (ls : list (list byte)) : list byte := concat (List.map (fun l => l ++ CRLF) ls).

(** A line of a head: not empty and without a carriage return. *)
Definition line_ok (l : list byte) : Prop := l <> [] /\ CR ∉ l.

Lemma find_skip l t :
  CR ∉ l -> find0 DCRLF (l ++ t) = Nat.add (length l) <$> find0 DCRLF t.
Proof.
  induction l as [|c l IH]; intros Hc; [cbn [app length]; by destruct (find0 DCRLF t)|].
  apply not_elem_of_cons in Hc as [Hne Hc]. cbn [app]. rewrite find0_unfold.
  unfold DCRLF at 1. cbn [prefixb]. rewrite (proj2 (byte_eqb_neq CR c) Hne). cbn [andb].
  rewrite IH by done. by destruct (find0 DCRLF t).
Qed.

Lemma find_skip_break t :
  List.hd_error t <> Some CR -> find0 DCRLF (CRLF ++ t) = Nat.add 2 <$> find0 DCRLF t.
Proof.
  intros Ht. cbn [app CRLF]. rewrite find0_unfold.
  assert (E : prefixb DCRLF (CR :: LF :: t) = false).
  { unfold DCRLF. cbn [prefixb]. rewrite !byte_eqb_refl. cbn [andb]. destruct t as [|c t]; [done|].
    rewrite (proj2 (byte_eqb_neq CR c)); [done|]. intros <-. by apply Ht. }
  rewrite E. change (LF :: t) with ([LF] ++ t). rewrite find_skip; [by destruct (find0 DCRLF t)|].
  rewrite list_elem_of_singleton. done.
Qed.

(** The first blank line of a head is the one that ends it. *)
Lemma find_blank_line ls body :
  ls <> [] -> Forall line_ok ls ->
  find0 DCRLF (lines_text ls ++ CRLF ++ body) = Some (length (lines_text ls) - 2).
Proof.
  unfold lines_text. induction ls as [|l ls IH]; intros Hne Hok; [done|].
  inversion Hok as [|? ? [Hl Hc] Hls]; subst. cbn [List.map concat].
  rewrite <- !app_assoc, find_skip by done. destruct ls as [|l2 ls].
  - change (find0 DCRLF _) with (Some 0). cbn [List.map concat]. rewrite !length_app.
    cbn [length CRLF]. simpl. f_equal. lia.
  - rewrite find_skip_break.
    + assert (HX : 2 <= length (concat (List.map (fun l => l ++ CRLF) (l2 :: ls))))
        by (cbn [List.map concat]; rewrite !length_app; cbn [length CRLF]; lia).
      rewrite IH by done. rewrite !length_app. cbn [length CRLF fmap option_fmap option_map].
      f_equal. lia.
    + inversion Hls as [|? ? [Hl2 Hc2] _]; subst. cbn [List.map concat]. destruct l2 as [|c l2]; [done|].
      simpl. intros [= ->]. apply Hc2. left.
Qed.

Lemma no_CR_app l1 l2 : CR ∉ l1 -> CR ∉ l2 -> CR ∉ l1 ++ l2.
Proof. rewrite elem_of_app. tauto. Qed.

Lemma no_CR_forallb l : forallb (fun c => negb (c =? CR)%beq) l = true -> CR ∉ l.
Proof.
  intros H Hin. rewrite forallb_forall in H. specialize (H CR). rewrite byte_eqb_refl in H.
  discriminate H. by apply list_elem_of_In.
Qed.

(** Decimal digits. *)
Lemma uint_no_CR u : CR ∉ bs (DecimalString.NilEmpty.string_of_uint u).
Proof.
  induction u; cbn [DecimalString.NilEmpty.string_of_uint]; [by apply not_elem_of_nil|..];
    unfold bs in *; cbn [String.list_byte_of_string];
    apply not_elem_of_cons; (split; [discriminate | exact IHu]).
Qed.

Lemma to_string_no_CR n : CR ∉ to_string n.
Proof.
  unfold to_string, DecimalString.NilZero.string_of_uint. destruct (Nat.to_uint n); try apply uint_no_CR.
  apply no_CR_forallb. reflexivity.
Qed.

#[export] Hint Resolve no_CR_app to_string_no_CR : coio.

(** The lines of the request head. *)
Definition request_lines (m_headers : list (list byte * list byte)) (u : url)
    (method : http_method) (body : list byte) : list (list byte) :=
  [to_str method ++ bs " " ++ Url.path u ++
     (match query u with [] => [] | q => bs "?" ++ q end) ++ bs " HTTP/1.0";
   bs "Host:" ++ host u] ++
  List.map (fun '(k, v) => k ++ bs ": " ++ v) m_headers ++
  (if negb (match body with [] => true | _ => false end) ||
      (match method with post => true | _ => false end)
   then [bs "Content-Length: " ++ to_string (length body)] else []).

Lemma build_msg_lines hs u method body :
  build_msg hs u method body = lines_text (request_lines hs u method body) ++ CRLF ++ body.
Proof.
  assert (Hh : concat (List.map (fun '(k, v) => k ++ bs ": " ++ v ++ CRLF) hs)
               = lines_text (List.map (fun '(k, v) => k ++ bs ": " ++ v) hs)).
  { unfold lines_text. rewrite map_map. f_equal. apply map_ext. intros [k v].
    by rewrite <- !app_assoc. }
  unfold build_msg, request_lines, lines_text in *. rewrite Hh. rewrite map_app, concat_app.
  cbn [List.map concat app]. rewrite map_app, concat_app.
  replace (match body with [] => [] | b => b end) with body by (by destruct body).
  repeat case_if; cbn [List.map concat]; rewrite <- ?app_assoc, ?app_nil_r; simpl;
    rewrite <- ?app_assoc; done.
Qed.

(** Input that does not smuggle line breaks into the head. *)
Record request_ok (hs : list (list byte * list byte)) (u : url) : Prop := {
  rq_path : CR ∉ Url.path u;
  rq_query : CR ∉ query u;
  rq_host : CR ∉ host u;
  rq_headers : Forall (fun h => (CR ∉ h.1) /\ (CR ∉ h.2)) hs
}.

Lemma request_lines_ok hs u method body :
  request_ok hs u -> Forall line_ok (request_lines hs u method body).
Proof.
  intros [Hp Hq Hh Hhs]. unfold request_lines. repeat apply Forall_app_2.
  - repeat constructor; try (destruct method; discriminate);
      repeat apply no_CR_app; try done;
      try (destruct method; apply no_CR_forallb; reflexivity).
    all: try (apply no_CR_forallb; reflexivity).
    destruct (query u); [by apply not_elem_of_nil|]. apply no_CR_app; [|done].
    apply no_CR_forallb. reflexivity.
  - induction Hhs as [|[k v] hs [Hk Hv] _ IH]; cbn [List.map fst snd] in *; constructor; [|done].
    split; [by destruct k|]. repeat apply no_CR_app; try done. apply no_CR_forallb. reflexivity.
  - case_if; constructor; [|constructor]. split; [discriminate|].
    apply no_CR_app; [apply no_CR_forallb; reflexivity | apply to_string_no_CR].
Qed.

(** ** A request *)

Section request.
Context {B K Addr : Type} `{!ReadBuffer B} `{!Socket K Addr}.
Variable sse4_2 : bool.
Variable cpu : sse_unit.

Record http_client := mk_client {
  m_tcp_client : K;
  m_read_streambuf : B;
  m_parser : http_parser;
  m_headers : list (list byte * list byte)
}.

Definition add_header (k v : list byte) (c : http_client) : http_client :=
  mk_client (m_tcp_client c) (m_read_streambuf c) (m_parser c) (map_set k v (m_headers c)).

(** What the client does to the outside. *)
Inductive net_event :=
| Query (host : list byte)
| Connect (a : Addr)
| Sent (msg : list byte)
| Closed.

(** How a request ends.  [DeadText]: bytes of a string that has been destroyed are
    read. *)
Inductive reply :=
| Reply (r : result http_response (list byte))
| Raised
| DeadText
| NoEnd.

Definition failure (s : list byte) : reply := Reply (result_error s).

(** The addresses [connect] tries. *)
Fixpoint tried (l : list Addr) (k : K) : list Addr :=
  match l with
  | [] => []
  | a :: l => match sk_connect a k with
              | (true, _) => [a]
              | (false, k) => a :: tried l k
              end
  end.

Definition with_members (p : http_parser) (b : B) (k : K) (c : http_client) : http_client :=
  mk_client k b p (m_headers c).

(** The scope guard: [m_tcp_client.socket().close()]. *)
Definition close_socket (c : http_client) : http_client :=
  with_members (m_parser c) (m_read_streambuf c) (sk_close (m_tcp_client c)) c.

(** From the connection on: send, read the head, read the body.  The number of
    bytes that [send] took is not looked at. *)
Definition exchange (fuel : nat) (msg : list byte) (c : http_client) (k : K)
  : list net_event * reply * http_client :=
  match sk_send msg k with
  | (None, k) => ([], Raised, with_members (m_parser c) (m_read_streambuf c) k c)
  | (Some n, k) =>
      let t := [Sent (take n msg)] in
      match read_headers sse4_2 cpu fuel (m_parser c) (m_read_streambuf c) k [] with
      | Exn (p, b, k) => (t, Raised, with_members p b k c)
      | Stuck => (t, NoEnd, c)
      | Val (false, p, b, k, _, _) => (t, failure (bs "http response parse error"), with_members p b k c)
      | Val (true, p, b, k, head_, mem) =>
          let c := with_members p b k c in
          match copy_headers mem head_ (take (headers_cnt p) (p_headers p)) with
          | None => (t, DeadText, c)
          | Some header =>
              if (body_len p =? 0)%Z
              then (t, Reply (result_value (mk_response header [] (body_len p) (p_status p))), c)
              else match read_body fuel (Z.to_nat (body_len p)) b k with
                   | Val (rsp, b, k) =>
                       (t, Reply (result_value (mk_response header rsp (body_len p) (p_status p))),
                        with_members p b k c)
                   | Exn (b, k) => (t, Raised, with_members p b k c)
                   | Stuck => (t, NoEnd, c)
                   end
          end
      end
  end.

Definition request (fuel : nat) (method : http_method) (url_ body : list byte) (c : http_client)
  : list net_event * reply * http_client :=
  if negb (match method with post => true | _ => false end) &&
     negb (match body with [] => true | _ => false end)
  then ([], failure (bs "method error"), c)
  else
    if is_error (Url.parse url_) then ([], failure (bs "invalid url"), c)
    else match ResultType.value (Url.parse url_) with
    | None => ([], NoEnd, c)
    | Some u =>
        if negb (bytes_eqb (proto u) (bs "http")) then ([], failure (bs "unsupport protocal"), c)
        else
          match sk_query (host u) with
          | None => ([Query (host u)], failure (bs "invalid host name"), c)
          | Some l =>
              let t := Query (host u) :: List.map Connect (tried l (m_tcp_client c)) in
              match connect l (m_tcp_client c) with
              | (false, k) =>
                  (t, failure (bs "host connection failed"),
                   with_members (m_parser c) (m_read_streambuf c) k c)
              | (true, k) =>
                  let msg := build_msg (m_headers c) u method body in
                  let '(ev, r, c) := exchange fuel msg c k in
                  (t ++ ev ++ [Closed], r, close_socket c)
              end
          end
    end.
End request.

(** ** A socket over a byte string *)

(** The peer's bytes, delivered at most [S (fk_mss k)] at a time; the addresses
    are numbers, the even ones answer. *)
Record fake_socket := mk_fake { fk_in : list byte; fk_mss : nat; fk_out : list byte }.

#[export] Instance fake_sock : Socket fake_socket nat := {
  sk_recv n k := let m := Nat.min n (S (fk_mss k)) in
                 (Bytes (take m (fk_in k)), mk_fake (drop m (fk_in k)) (fk_mss k) (fk_out k));
  sk_connect a k := (Nat.even a, k);
  sk_send m k := (Some (length m), mk_fake (fk_in k) (fk_mss k) (fk_out k ++ m));
  sk_close k := k;
  sk_query h := match h with [] => None | _ => Some [1; 3; 4; 6] end;
  sk_stream k := fk_in k
}.

#[export] Instance fake_sock_laws : SocketLaws fake_socket nat.
Proof.
  split. intros n k l k' Hn [= <- <-]. cbn. split_and!.
  - rewrite length_take. lia.
  - by rewrite take_drop.
  - destruct n as [|n], (fk_in k); simpl; [lia | lia | done | done].
Qed.

Lemma fake_reliable : reliable (K := fake_socket) (Addr := nat).
Proof. intros n k. by eexists _, _. Qed.

(** ** A response on the wire *)

Definition response_lines (h : response_head) : list (list byte) :=
  (bs "HTTP/1." ++ [rh_minor h] ++ bs " " ++ [rh_d1 h; rh_d2 h; rh_d3 h] ++ bs " " ++ rh_msg h)
  :: List.map (fun x => x.1 ++ bs ": " ++ x.2) (rh_headers h).

Lemma render_response_lines h : render_response h = lines_text (response_lines h) ++ CRLF.
Proof.
  assert (Hm : List.map header_line (rh_headers h)
               = List.map (fun x => (x.1 ++ bs ": " ++ x.2) ++ CRLF) (rh_headers h)).
  { apply map_ext. intros [k v]. unfold header_line. by rewrite <- !app_assoc. }
  unfold render_response, render_headers, response_lines, lines_text. cbn [List.map concat].
  rewrite map_map, Hm. by rewrite <- !app_assoc.
Qed.

Lemma plain_no_CR l : Forall (fun c => is_ctl c = false) l -> CR ∉ l.
Proof. intros H Hin. by pose proof (Forall_elem _ _ _ H Hin). Qed.

Lemma name_no_CR l : Forall (fun c => name_goes_on c = true) l -> CR ∉ l.
Proof.
  intros H Hin. pose proof (Forall_elem _ _ _ H Hin) as Hn.
  by destruct (name_char_plain CR Hn) as (_ & _ & ? & _).
Qed.

Lemma digit_not_CR c : is_digit c -> CR <> c.
Proof. intros H <-. unfold is_digit in H. vm_compute in H. destruct H. done. Qed.

Lemma response_lines_ok h : head_ok h -> Forall line_ok (response_lines h).
Proof.
  intros [Hm H1 H2 H3 Hv Hh]. constructor.
  - split; [discriminate|]. repeat apply no_CR_app.
    1, 3, 5: apply no_CR_forallb; reflexivity.
    + rewrite list_elem_of_singleton. by apply digit_not_CR.
    + rewrite !not_elem_of_cons. split_and!; try by apply digit_not_CR. apply not_elem_of_nil.
    + by apply plain_no_CR.
  - induction Hh as [|x hs (Hne & Hn & Hx & _) _ IH]; cbn [List.map]; constructor; [|done].
    split; [by destruct x.1|]. repeat apply no_CR_app;
      [by apply name_no_CR | apply no_CR_forallb; reflexivity | by apply plain_no_CR].
Qed.

(** The head of a response is what [read_until] cuts off. *)
Lemma lines_split ls body :
  ls <> [] -> Forall line_ok ls ->
  split_at DCRLF (lines_text ls ++ CRLF ++ body) = (lines_text ls ++ CRLF, body).
Proof.
  intros Hne Hok. unfold split_at. rewrite find_blank_line by done.
  assert (HX : 2 <= length (lines_text ls)).
  { destruct ls; [done|]. unfold lines_text. cbn [List.map concat]. rewrite !length_app. simpl. lia. }
  replace (length (lines_text ls) - 2 + length DCRLF) with (length (lines_text ls ++ CRLF))
    by (rewrite length_app; simpl; lia).
  by rewrite app_assoc, take_app_length, drop_app_length.
Qed.

Lemma lines_end ls : ls <> [] -> exists t, lines_text ls = t ++ CRLF.
Proof.
  intros H. destruct (exists_last H) as (ls' & l & ->). unfold lines_text.
  rewrite map_app, concat_app. cbn [List.map concat]. rewrite app_nil_r.
  eexists. by rewrite app_assoc.
Qed.

Lemma ends_with_app t suffix : ends_with suffix (t ++ suffix) = true.
Proof.
  unfold ends_with. rewrite length_app, (proj2 (Nat.leb_le _ _)) by lia.
  rewrite drop_app_length' by lia. simpl. by apply bytes_eqb_eq.
Qed.

Lemma render_response_ends h : ends_with DCRLF (render_response h) = true /\ render_response h <> [].
Proof.
  rewrite render_response_lines. destruct (lines_end (response_lines h)) as [t ->]; [done|].
  rewrite <- app_assoc. split; [apply ends_with_app | by destruct t].
Qed.

Section response.
Context {B K Addr : Type} `{!ReadBuffer B} `{!ReadBufferLaws B}.
Context `{!Socket K Addr} `{!SocketLaws K Addr}.
Variable sse4_2 : bool.
Variable cpu : sse_unit.
Hypothesis Hrel : reliable (K := K) (Addr := Addr).
Hypothesis Hcmp : cpu_spec cpu.

(** A peer that answers with the head [h] and then [body]. *)
Record answers (h : response_head) (body : list byte) (p : http_parser) (b : B) (k : K) : Prop := {
  an_head : head_ok h;
  an_count : length (rh_headers h) <= MAX_HEADERS;
  an_array : length (p_headers p) = MAX_HEADERS;
  an_empty : rb_contents b = [];
  an_stream : sk_stream k = render_response h ++ body
}.

Lemma read_headers_ok extra fuel h body n p b k mem :
  answers h body p b k -> content_length (rh_headers h) (body_len p) = inr n ->
  (512 <= extra)%Z -> fits extra b k -> length (sk_stream k) < fuel ->
  exists p' b' k' head_ mem', read_headers sse4_2 cpu fuel p b k mem = Val (true, p', b', k', head_, mem') /\
    p_status p' = head_status h /\ body_len p' = n /\
    http_header_of (render_response h) (take (headers_cnt p') (p_headers p')) = mk_http_header (rh_headers h) /\
    mem' !! head_ = Some None /\ total b' k' = body /\ fits extra b' k'.
Proof.
  intros [Hh Hc Ha He Hs] Hn Hx F Hf.
  assert (Ht : total b k = render_response h ++ body) by (unfold total; by rewrite He, Hs).
  assert (Hsp : split_at DCRLF (total b k) = (render_response h, body)).
  { rewrite Ht, render_response_lines, <- app_assoc. apply lines_split; [done|].
    by apply response_lines_ok. }
  assert (Hmax : (Z.of_nat (length (render_response h)) <= INT_MAX)%Z).
  { destruct F as [_ I _]. rewrite Ht, length_app in I. lia. }
  unfold read_headers.
  destruct (read_until_ok Hrel extra fuel DCRLF b k Hx) as (b' & k' & -> & F' & T');
    [simpl; lia | done | by rewrite He | done |].
  rewrite Hsp in *. simpl. destruct (render_response_ends h) as [Hend Hne].
  destruct (response_head_parsed sse4_2 cpu h [] p Hcmp Hh Hc Ha Hmax) as
    (p' & E & S1 & _ & _ & S2 & S3 & S4). rewrite app_nil_r, Hn in E. rewrite app_nil_r in S4.
  rewrite E, Hend, (proj2 (Z.eqb_neq _ _)) by (destruct (render_response h); [done | simpl; lia]).
  destruct (render_response h) as [|c r] eqn:Er; [done|]. simpl.
  do 5 eexists. split; [done|]. split_and!; try done; [by apply S2|].
  unfold destroy_string. apply list_lookup_insert_eq. rewrite length_app. simpl. lia.
Qed.

(** C2: a response is received whole, however the network cuts it up: from an
    empty buffer and a peer that sends a grammatical head and then a body, the
    head is read and parsed (status and announced length), and [read_body]
    then returns the first bytes of the body, as many as announced. *)
Theorem response_received extra fuel h body n p b k mem :
  answers h body p b k -> content_length (rh_headers h) (body_len p) = inr n ->
  (512 <= extra)%Z -> (n <= extra)%Z -> (0 <= n)%Z -> fits extra b k ->
  length (sk_stream k) < fuel ->
  exists p' b' k' head_ mem' b2 k2,
    read_headers sse4_2 cpu fuel p b k mem = Val (true, p', b', k', head_, mem') /\
    p_status p' = head_status h /\ body_len p' = n /\
    read_body fuel (Z.to_nat n) b' k' = Val (take (Z.to_nat n) body, b2, k2).
Proof.
  intros A Hn Hx Hnx Hn0 F Hf.
  destruct (read_headers_ok extra fuel h body n p b k mem A Hn Hx F Hf)
    as (p' & b' & k' & head_ & mem' & E & S1 & S2 & _ & _ & T & F').
  assert (F2 : fits (Z.of_nat (Nat.max (Z.to_nat n) 64)) b' k') by (destruct F'; split; [done | done | lia]).
  assert (Hlen : length (sk_stream k') <= length (sk_stream k)).
  { apply (f_equal length) in T. destruct A as [_ _ _ _ Hs]. rewrite Hs.
    unfold total in T. rewrite !length_app in *. lia. }
  destruct (read_body_ok Hrel fuel (Z.to_nat n) b' k' F2) as (b2 & k2 & E2 & _ & _); [lia|].
  rewrite T in E2. by exists p', b', k', head_, mem', b2, k2.
Qed.

(** Copying headers: their texts while the string is alive, and undefined once it
    is destroyed and there is a byte to copy. *)
Lemma copy_headers_alive mem a s hs :
  mem !! a = Some (Some s) -> copy_headers mem a hs = Some (http_header_of s hs).
Proof.
  intros E. unfold copy_headers, http_header_of.
  assert (C : forall p n, copy_text mem a p n = Some (view s p n)).
  { intros p n. unfold copy_text. rewrite E. destruct n; [by destruct p|done]. }
  enough (mapM (fun h => n ← copy_text mem a (name h) (name_len h);
      v ← copy_text mem a (value h) (value_len h); Some (n, v)) hs
    = Some (List.map (fun h => (view s (name h) (name_len h), view s (value h) (value_len h))) hs)) as -> by done.
  induction hs as [|x hs IH]; [done|]. simpl. rewrite !C. simpl. by rewrite IH.
Qed.

Lemma copy_headers_dead mem a h hs :
  mem !! a = Some None -> name_len h <> 0 -> copy_headers mem a (h :: hs) = None.
Proof.
  intros E N. unfold copy_headers. cbn [mapM].
  assert (copy_text mem a (name h) (name_len h) = None) as ->; [|done].
  unfold copy_text. by rewrite E, (proj2 (Nat.eqb_neq _ _) N).
Qed.

(** C36: a request whose response has header lines reads a destroyed string: the
    headers of the parser point into the local string of [read_headers], which is
    gone when [request] copies them out; the name of the first one is not empty. *)
Theorem request_reads_dead_head extra fuel h body n msg c k k1 sent :
  sk_send msg k = (Some sent, k1) ->
  answers h body (m_parser c) (m_read_streambuf c) k1 -> rh_headers h <> [] ->
  content_length (rh_headers h) (body_len (m_parser c)) = inr n ->
  (512 <= extra)%Z -> fits extra (m_read_streambuf c) k1 -> length (sk_stream k1) < fuel ->
  (exchange sse4_2 cpu fuel msg c k).1.2 = DeadText.
Proof.
  intros Hsend A Hh Hn Hx F Hf. unfold exchange. rewrite Hsend.
  destruct (read_headers_ok extra fuel h body n _ _ k1 [] A Hn Hx F Hf)
    as (p' & b' & k' & head_ & mem' & -> & _ & _ & C & D & _). cbv zeta.
  destruct (rh_headers h) as [|[x v] l] eqn:El; [done|].
  destruct (take (headers_cnt p') (p_headers p')) as [|y ys]; [done|]. injection C as Cx _ _.
  rewrite (copy_headers_dead mem' head_ y ys D); [done|]. intros N. rewrite N in Cx.
  assert (x = []) as -> by (rewrite <- Cx; by destruct (name y)).
  destruct A as [Hok _ _ _ _]. pose proof (hk_headers _ Hok) as HF. rewrite El in HF.
  apply Forall_cons_1 in HF as [Hx0 _]. by destruct Hx0.
Qed.
End response.

(** [url::parse] gives a value or an error, with the flag that says which. *)
Lemma url_parse_shape s :
  (exists u, Url.parse s = result_value u) \/ (exists e, Url.parse s = result_error e).
Proof. unfold Url.parse. repeat case_match; eauto. Qed.

(** ** Reading properties *)

Section properties.
Context {B K Addr : Type} `{!ReadBuffer B} `{!ReadBufferLaws B}.
Context `{!Socket K Addr} `{!SocketLaws K Addr}.
Hypothesis Hrel : reliable (K := K) (Addr := Addr).

(** [read_until] cuts the incoming bytes at the first delimiter: whatever
    the sizes in which they arrive, it returns the bytes up to and including
    the first occurrence, and what follows is still to be read, from the buffer
    or the socket; without an occurrence it returns everything. *)
Theorem read_until_first extra fuel delim b k :
  (512 <= extra)%Z -> 0 < length delim -> fits extra b k ->
  find0 delim (rb_contents b) = None -> length (sk_stream k) < fuel ->
  exists b' k', read_until fuel delim b k = Val ((split_at delim (total b k)).1, b', k') /\
    fits extra b' k' /\ total b' k' = (split_at delim (total b k)).2.
Proof. by apply read_until_ok. Qed.

(** [read_body] returns the next [need] bytes, or all there are if the peer
    closes earlier, taking them from the buffer first; bytes buffered beyond
    them stay in the buffer. *)
Theorem read_body_exact fuel need b k :
  fits (Z.of_nat (Nat.max need 64)) b k -> length (sk_stream k) < fuel ->
  exists b' k', read_body fuel need b k = Val (take need (total b k), b', k') /\ rb_wf b' /\
    rb_contents b' = drop need (rb_contents b).
Proof. by apply read_body_ok. Qed.
End properties.

(** The head of a request is framed: when path, query, host and headers are
    free of carriage returns, the first blank line of the message is the one
    before the body, so that a receiver sees exactly these lines and this body. *)
Theorem build_msg_framed hs u method body :
  request_ok hs u ->
  split_at DCRLF (build_msg hs u method body)
  = (lines_text (request_lines hs u method body) ++ CRLF, body).
Proof. intros H. rewrite build_msg_lines. apply lines_split; [done | by apply request_lines_ok]. Qed.

Lemma exchange_sent {B K Addr : Type} `{!ReadBuffer B} `{!Socket K Addr} sse4_2 cpu fuel msg
    (c : http_client (B := B) (K := K)) k :
  let ev := (exchange (Addr := Addr) sse4_2 cpu fuel msg c k).1.1 in
  ev = [] \/ exists n, ev = [Sent (take n msg)].
Proof.
  unfold exchange. destruct (sk_send msg k) as [[n|] k1]; [right; exists n | by left].
  repeat (case_match; simpl; try done).
Qed.

(** A request either ends with an error message before anything is sent, or
    sends the message built for the parsed URL (or the part of it that the
    kernel takes), at most once, after the connection attempts, and closes the
    socket as its last action, however the exchange ended. *)
Theorem request_effects {B K Addr : Type} `{!ReadBuffer B} `{!Socket K Addr}
    sse4_2 cpu fuel method url_ body (c : http_client (B := B) (K := K)) :
  let '(t, r, c') := request (Addr := Addr) sse4_2 cpu fuel method url_ body c in
  ((exists e, r = failure e) /\ Forall (fun ev => match ev with Sent _ | Closed => False | _ => True end) t) \/
  (exists u l k k' ev, Url.parse url_ = result_value u /\
     sk_query (host u) = Some l /\ connect l (m_tcp_client c) = (true, k) /\
     t = Query (host u) :: List.map Connect (tried l (m_tcp_client c)) ++ ev ++ [Closed] /\
     (ev = [] \/ exists n, ev = [Sent (take n (build_msg (m_headers c) u method body))]) /\
     m_tcp_client c' = sk_close k').
Proof.
  unfold request. case_if; [left; split; [by eexists | constructor]|].
  destruct (url_parse_shape url_) as [[u Eu] | [e Eu]]; rewrite Eu;
    [|left; split; [by eexists | constructor]].
  cbn [is_error ResultType.value m_store m_iserr result_value].
  case_if; [left; split; [by eexists | constructor]|].
  destruct (sk_query (host u)) as [l|] eqn:Eq.
  2: { left. split; [by eexists | by repeat constructor]. }
  destruct (connect l (m_tcp_client c)) as [[] k] eqn:Ec.
  - pose proof (exchange_sent (Addr := Addr) sse4_2 cpu fuel (build_msg (m_headers c) u method body) c k) as S.
    destruct (exchange _ _ _ _ _ _) as [[ev r] c'] eqn:Ex. simpl in S.
    right. exists u, l, k, (m_tcp_client c'), ev. by split_and!.
  - left. split; [by eexists|]. constructor; [done|]. generalize (tried l (m_tcp_client c)).
    intros as_. induction as_; by constructor.
Qed.

(** A malformed response head is taken for a good one: the head that cannot
    be parsed makes [parse_response] return a negative number, which
    [read_headers] turns into [true]. *)
Theorem read_headers_accepts_malformed {B K Addr : Type} `{!ReadBuffer B} `{!Socket K Addr}
    sse4_2 cpu fuel p b (k : K) h (b' : B) k' p' r :
  read_until fuel DCRLF b k = Val (h, b', k') -> ends_with DCRLF h = true ->
  parse_response sse4_2 cpu h p = (p', Returned r) -> (r < 0)%Z ->
  exists head_ mem', read_headers (Addr := Addr) sse4_2 cpu fuel p b k [] = Val (true, p', b', k', head_, mem').
Proof.
  intros H1 H2 H3 Hr. unfold read_headers. rewrite H1. simpl.
  destruct h as [|c h]; [done|]. rewrite H2, H3. cbn [negb orb].
  rewrite (proj2 (Z.eqb_neq r 0)) by lia. by do 2 eexists.
Qed.

(** ** Witnesses *)

Definition answer_head : response_head :=
  mk_head "1"%byte "2"%byte "0"%byte "0"%byte (bs "OK") [(bs "Content-Length", bs "5")].

(** Three bytes at a time, and more than the announced body. *)
Definition answer_socket : fake_socket :=
  mk_fake (render_response answer_head ++ bs "hello, world") 2 [].

Lemma answer_fits : fits 512 sb_init answer_socket.
Proof.
  split; [apply wf_init | vm_compute; discriminate | vm_compute; discriminate].
Defined.

Lemma answer_ok : answers answer_head (bs "hello, world") parser_init sb_init answer_socket.
Proof.
  split; [| apply Nat.leb_le; reflexivity | reflexivity | reflexivity | reflexivity].
  split; try (unfold is_digit; vm_compute; split; discriminate).
  - repeat constructor.
  - repeat constructor; discriminate.
Defined.

Lemma read_until_first_witness :
  exists b' k', read_until 100 DCRLF sb_init answer_socket
    = Val (render_response answer_head, b', k') /\ total b' k' = bs "hello, world".
Proof.
  destruct (read_until_first fake_reliable 512 100 DCRLF sb_init answer_socket)
    as (b' & k' & E & _ & T).
  - lia.
  - simpl. lia.
  - exact answer_fits.
  - reflexivity.
  - apply Nat.ltb_lt. vm_compute. reflexivity.
  - exists b', k'. split; [exact E | exact T].
Defined.

Lemma read_body_exact_witness :
  exists b' k', read_body 20 5 sb_init (mk_fake (bs "hello, world") 2 [])
    = Val (bs "hello", b', k') /\ wf_sb b' /\ data b' = [].
Proof.
  destruct (read_body_exact fake_reliable 20 5 sb_init (mk_fake (bs "hello, world") 2 []))
    as (b' & k' & E & W & C).
  - split; [apply wf_init | vm_compute; discriminate | vm_compute; discriminate].
  - apply Nat.ltb_lt. vm_compute. reflexivity.
  - exists b', k'. split; [exact E | split; [exact W | exact C]].
Defined.

Lemma response_received_witness :
  exists p' b' k' head_ mem' b2 k2,
    read_headers true intrinsics 100 parser_init sb_init answer_socket []
    = Val (true, p', b', k', head_, mem') /\
    p_status p' = 200%Z /\ body_len p' = 5%Z /\
    read_body 100 5 b' k' = Val (bs "hello", b2, k2).
Proof.
  apply (response_received true intrinsics fake_reliable intrinsics_spec
           512 100 answer_head (bs "hello, world") 5 parser_init sb_init answer_socket []).
  - exact answer_ok.
  - vm_compute. reflexivity.
  - lia.
  - lia.
  - lia.
  - exact answer_fits.
  - apply Nat.ltb_lt. vm_compute. reflexivity.
Defined.

Definition sample_u : url := mk_url (bs "http") (bs "example.org") (bs "/a") (bs "q=1").

Lemma build_msg_framed_witness :
  split_at DCRLF (build_msg [(bs "Accept", bs "*/*")] sample_u post (bs "x"))
  = (lines_text (request_lines [(bs "Accept", bs "*/*")] sample_u post (bs "x")) ++ CRLF, bs "x").
Proof.
  apply build_msg_framed. split; try (apply no_CR_forallb; reflexivity).
  repeat constructor; apply no_CR_forallb; reflexivity.
Defined.

Lemma request_reads_dead_head_witness :
  (exchange true intrinsics 100 (bs "GET")
    (mk_client answer_socket sb_init parser_init []) answer_socket).1.2 = DeadText.
Proof.
  apply (request_reads_dead_head true intrinsics fake_reliable intrinsics_spec
           512 100 answer_head (bs "hello, world") 5 (bs "GET") _ answer_socket
           (mk_fake (fk_in answer_socket) 2 (bs "GET")) 3).
  - reflexivity.
  - destruct answer_ok. split; [exact an_head0 | exact an_count0 | reflexivity | reflexivity | reflexivity].
  - discriminate.
  - vm_compute. reflexivity.
  - lia.
  - split; [apply wf_init | vm_compute; discriminate | vm_compute; discriminate].
  - apply Nat.ltb_lt. vm_compute. reflexivity.
Defined.

Definition bad_socket : fake_socket := mk_fake (bs "no http at all" ++ DCRLF) 100 [].

Lemma read_headers_accepts_malformed_witness :
  exists p' b' k' head_ mem', read_headers false intrinsics 100 parser_init sb_init bad_socket []
    = Val (true, p', b', k', head_, mem').
Proof.
  do 3 eexists.
  eapply (read_headers_accepts_malformed (Addr := nat) false intrinsics 100 parser_init sb_init
            bad_socket (bs "no http at all" ++ DCRLF) _ _ _ (-1)).
  - vm_compute. reflexivity.
  - vm_compute. reflexivity.
  - vm_compute. reflexivity.
  - lia.
Defined.

(** The whole request over the sample socket: two addresses refuse. *)
Example sample_request :
  (request true intrinsics 100 get (bs "http://example.org/a?q=1") []
     (mk_client answer_socket sb_init parser_init [])).1.1
  = [Query (bs "example.org"); Connect 1; Connect 3; Connect 4;
     Sent (bs "GET /a?q=1 HTTP/1.0" ++ CRLF ++ bs "Host:example.org" ++ CRLF ++ CRLF); Closed].
Proof. vm_compute. reflexivity. Qed.
