(* ===== verification/HttpWire.v ===== *)
(** * From the client's request to a server's parser

    [HttpClient.build_msg] writes a request; [phr_parse_request] is the same
    repository's parser for the other side.  The composition is the identity on
    what the request means: method, target, headers in order with [Host] first,
    the body behind the head, and a [Content-Length] that is its length. *)

From S2P Require Import Prelude ResultType Url StreamBuffer PicoHttp PicoEquiv.
From S2P Require Import PicoSafety PicoRoundtrip PicoRequest HttpParser HttpClient.
From Stdlib Require DecimalString DecimalNat.

(** ** Decimal numbers *)

Lemma tail_mul_add a b c : Nat.tail_addmul a b c = a + b * c.
Proof. apply Nat.tail_addmul_spec. Qed.

Lemma decimal_uint d : forall acc,
  fold_left (fun n c => n * 10 + (code c - 48))%Z
    (bs (DecimalString.NilEmpty.string_of_uint d)) (Z.of_nat acc)
  = Z.of_nat (Nat.of_uint_acc d acc).
Proof.
  induction d as [|d IH|d IH|d IH|d IH|d IH|d IH|d IH|d IH|d IH|d IH]; intros acc; [done|..];
    cbn [Nat.of_uint_acc]; rewrite <- IH; unfold Nat.tail_mul; rewrite tail_mul_add; cbn -[Z.mul Z.add];
    f_equal; unfold code; simpl; lia.
Qed.

Lemma uint_digits d : Forall (fun c => is_digitb c = true) (bs (DecimalString.NilEmpty.string_of_uint d)).
Proof. induction d; cbn; constructor; done. Qed.

Lemma take_digits_all l : Forall (fun c => is_digitb c = true) l -> take_digits l = l.
Proof. induction 1 as [|c l Hc _ IH]; [done|]. simpl. by rewrite Hc, IH. Qed.

Lemma to_string_uint n :
  exists d, d <> Decimal.Nil /\ to_string n = bs (DecimalString.NilEmpty.string_of_uint d) /\
            Nat.of_uint d = n.
Proof.
  unfold to_string. pose proof (DecimalNat.Unsigned.of_to n) as E.
  destruct (Nat.to_uint n) eqn:Ed; [exists (Decimal.D0 Decimal.Nil); by rewrite <- E|..];
    eexists; (split; [|split; [reflexivity|exact E]]); done.
Qed.

(** [std::stoi(std::to_string(n))] is [n] while it fits an [int]. *)
Lemma stoi_to_string n : (Z.of_nat n <= INT_MAX)%Z -> stoi (to_string n) = inr (Z.of_nat n).
Proof.
  intros Hn. destruct (to_string_uint n) as (d & Hd & -> & Ed).
  pose proof (uint_digits d) as Hdig.
  assert (Hdec : decimal (bs (DecimalString.NilEmpty.string_of_uint d)) = Z.of_nat n)
    by (rewrite <- Ed; apply (decimal_uint d 0)).
  assert (Hne : bs (DecimalString.NilEmpty.string_of_uint d) <> []) by (by destruct d).
  set (l := bs _) in *. clearbody l. unfold stoi.
  destruct l as [|c l]; [done|]. pose proof (Forall_inv Hdig) as Hc. cbv beta in Hc.
  assert (Hsp : is_space c = false /\ (c =? "-"%byte)%beq = false /\ (c =? "+"%byte)%beq = false).
  { unfold is_digitb, is_space in *. boolp. split_and!.
    - destruct (_ || _) eqn:E; [|done]. boolp. destruct E as [E|E]; boolp; lia.
    - apply byte_eqb_neq. intros ->. vm_compute in H. by apply H.
    - apply byte_eqb_neq. intros ->. vm_compute in H. by apply H. }
  destruct Hsp as (S1 & S2 & S3). cbn [skip_spaces]. rewrite S1. cbv zeta. rewrite S2, S3.
  rewrite (take_digits_all _ Hdig). rewrite Hdec.
  destruct (_ || _) eqn:E; [|done]. boolp. unfold INT_MAX in *. destruct E as [E|E]; boolp; lia.
Qed.

(** ** The message as a rendered head *)

Definition sends_length (method : http_method) (body : list byte) : bool :=
  negb (match body with [] => true | _ => false end) ||
  (match method with post => true | _ => false end).

Definition wire_headers (hs : list (list byte * list byte)) (u : url) (method : http_method)
    (body : list byte) : list (list byte * (list byte * list byte)) :=
  ([], (bs "Host", host u)) :: plain_fields hs ++
  (if sends_length method body
   then [([SP], (bs "Content-Length", to_string (length body)))] else []).

Definition target (u : url) : list byte :=
  Url.path u ++ (match query u with [] => [] | q => bs "?" ++ q end).

Definition wire_request (hs : list (list byte * list byte)) (u : url) (method : http_method)
    (body : list byte) : request_head :=
  mk_request (to_str method) (target u) "0"%byte (wire_headers hs u method body).

Lemma concat_plain hs :
  concat (List.map field_line (plain_fields hs))
  = concat (List.map (fun '(k, v) => k ++ bs ": " ++ v ++ CRLF) hs).
Proof. unfold plain_fields. rewrite map_map. f_equal. apply map_ext. by intros [k v]. Qed.

Lemma build_msg_render hs u method body :
  build_msg hs u method body = render_request (wire_request hs u method body) ++ body.
Proof.
  unfold build_msg, render_request, wire_request, render_fields, wire_headers, target.
  cbn [qh_method qh_target qh_minor qh_fields]. cbn [List.map concat].
  rewrite map_app, concat_app, concat_plain. fold (sends_length method body).
  replace (match body with [] => [] | b => b end) with body by (by destruct body).
  unfold field_line at 1. cbn [fst snd].
  destruct (sends_length method body); cbn [List.map concat]; rewrite <- ?app_assoc, ?app_nil_r; simpl;
    rewrite <- ?app_assoc; done.
Qed.

(** Input that is written as it is: tokens in the target, a host and headers the
    grammar allows. *)
Record wire_ok (hs : list (list byte * list byte)) (u : url) : Prop := {
  wk_path : Forall (fun c => token_goes_on c = true) (Url.path u);
  wk_query : Forall (fun c => token_goes_on c = true) (query u);
  wk_host : header_text_ok (bs "Host", host u);
  wk_headers : Forall header_text_ok hs
}.

Lemma digits_value_ok l :
  Forall (fun c => is_digitb c = true) l ->
  Forall (fun c => is_ctl c = false) l /\ List.head l <> Some SP /\ List.head l <> Some HT.
Proof.
  intros H. split_and!.
  - eapply Forall_impl; [|exact H]. intros c Hc. cbv beta in *.
    pose proof (all_bytes_spec (fun c => negb (is_digitb c) || negb (is_ctl c))
      ltac:(vm_compute; reflexivity) c) as E. cbv beta in E. rewrite Hc in E. simpl in E. by boolp.
  - destruct H as [|c l Hc _]; [done|]. intros [= ->]. vm_compute in Hc. discriminate.
  - destruct H as [|c l Hc _]; [done|]. intros [= ->]. vm_compute in Hc. discriminate.
Qed.

Lemma to_string_digits n : Forall (fun c => is_digitb c = true) (to_string n).
Proof. destruct (to_string_uint n) as (d & _ & -> & _). apply uint_digits. Qed.

Lemma wire_request_ok hs u method body :
  wire_ok hs u -> request_head_ok (wire_request hs u method body).
Proof.
  intros [Hp Hq Hh Hhs]. split; cbn [wire_request qh_method qh_target qh_minor qh_fields].
  - destruct method; repeat constructor.
  - unfold target. apply Forall_app_2; [done|]. destruct (query u); [constructor|].
    apply Forall_app_2; [repeat constructor | done].
  - unfold is_digit. vm_compute. split; discriminate.
  - unfold wire_headers. constructor; [split; [constructor | done]|].
    apply Forall_app_2; [by apply plain_fields_ok|]. destruct (sends_length method body); [|constructor].
    constructor; [|constructor]. split; [constructor; [by left | constructor]|].
    destruct (digits_value_ok _ (to_string_digits (length body))) as (D1 & D2 & D3).
    split_and!; cbn [fst snd]; [done | repeat constructor | done | done | done].
Qed.

(** A header list without an entry for [key]. *)
Definition absent (key : list byte) (hs : list (list byte * list byte)) : Prop :=
  find_header hs key = None.

(** C26: What the client sends, the request parser reads back.  For input that
    can be written as it is, a body of at most [INT_MAX] bytes and room for the
    headers, parsing the built message yields the method, the target with its
    query, HTTP/1.0, the headers with [Host] first; the returned length is where
    the body starts; and unless the caller gave a [Content-Length] of its own,
    the one the receiver finds denotes the length of the body. *)
Theorem request_understood sse cpu hs u m body o :
  cpu_spec cpu -> wire_ok hs u -> length hs + 2 <= num_headers o <= length (headers o) ->
  (Z.of_nat (length (build_msg hs u m body)) <= INT_MAX)%Z ->
  let s := build_msg hs u m body in
  exists len o',
    phr_parse_request sse cpu s 0 o = (Done (Z.of_nat len), o') /\
    view s (method o') (method_len o') = to_str m /\
    view s (PicoHttp.path o') (path_len o') = target u /\ minor_version o' = 0%Z /\
    drop len s = body /\
    let received := List.map (header_view s) (take (num_headers o') (headers o')) in
    (exists tl, received = (bs "Host", host u) :: hs ++ tl) /\
    (absent (bs "content-length") hs -> sends_length m body = true ->
     stoi (default [] (find_header received (bs "content-length"))) = inr (Z.of_nat (length body))).
Proof.
  intros Hcmp Hw Hn Hmax s.
  set (q := wire_request hs u m body).
  assert (Hs : s = render_request q ++ body) by apply build_msg_render.
  assert (Hl : length (qh_fields q) <= num_headers o <= length (headers o)).
  { unfold q, wire_request, wire_headers, plain_fields. cbn [qh_fields length].
    rewrite length_app, length_map. destruct (sends_length m body); simpl; lia. }
  fold s in Hmax. rewrite Hs, length_app in Hmax.
  destruct (request_recovered sse cpu q body o Hcmp (wire_request_ok hs u m body Hw) Hl)
    as (o' & E & V1 & V2 & V3 & _ & V4); [lia|].
  rewrite <- Hs in E, V1, V2, V4. exists (length (render_request q)), o'. split; [exact E|].
  split; [exact V1|]. split; [exact V2|]. split; [by rewrite V3|].
  split; [rewrite Hs; apply drop_app_length|]. split.
  - cbv zeta. rewrite V4. unfold q, wire_request, wire_headers. cbn [qh_fields List.map snd].
    rewrite map_app, map_snd_plain. eauto.
  - cbv zeta. rewrite V4. unfold q, wire_request, wire_headers. cbn [qh_fields List.map snd].
    rewrite map_app, map_snd_plain. intros Ha ->. cbn [find_header].
    change (is_lower_equal (bs "Host") (bs "content-length")) with false. cbv iota.
    rewrite find_header_app, Ha. cbn -[stoi to_string]. apply stoi_to_string. lia.
Qed.

Definition wire_url : url := mk_url (bs "http") (bs "example.org") (bs "/a") (bs "k=v").

Lemma wire_url_ok : wire_ok [(bs "Accept", bs "*/*")] wire_url.
Proof.
  split; try (repeat constructor; done); repeat constructor; discriminate.
Defined.

Lemma request_understood_witness :
  exists len o',
    phr_parse_request false intrinsics (build_msg [(bs "Accept", bs "*/*")] wire_url post (bs "hello")) 0
      (outs_init 3) = (Done (Z.of_nat len), o') /\
    drop len (build_msg [(bs "Accept", bs "*/*")] wire_url post (bs "hello")) = bs "hello".
Proof.
  destruct (request_understood true intrinsics [(bs "Accept", bs "*/*")] wire_url post (bs "hello")
    (outs_init 3)) as (len & o' & H & _ & _ & _ & D & _).
  - exact intrinsics_spec.
  - exact wire_url_ok.
  - simpl. lia.
  - vm_compute. discriminate.
  - exists len, o'. split; [|exact D]. rewrite <- H. vm_compute. reflexivity.
Defined.
