(* ===== verification/Endian.v ===== *)
(** * [include/ioutils/endian.hpp] and [include/ioutils/protocol.hpp]: byte
    order and socket addresses

    The byte order of the host ([std::endian::native]) is the parameter [big].
    [htons] and [htonl] are POSIX's: on a little-endian host they reverse the
    bytes of a 16 or 32 bit value.  [inet_pton], which parses a dotted address,
    is a parameter. *)

From S2P Require Import Prelude.
Local Open Scope Z_scope.

(** ** Bytes of a number, least significant first *)

Fixpoint le_bytes (n : nat) (x : Z) : list Z :=
  match n with
  | O => []
  | S n => x mod 256 :: le_bytes n (x / 256)
  end.

Fixpoint of_le (l : list Z) : Z :=
  match l with
  | [] => 0
  | b :: l => b + 256 * of_le l
  end.

(** The bytes of an [n]-byte value in memory, in address order. *)
Definition mem_bytes (big : bool) (n : nat) (x : Z) : list Z :=
  if big then rev (le_bytes n x) else le_bytes n x.

Definition bswap (n : nat) (x : Z) : Z := of_le (rev (le_bytes n x)).

Section endian.
Variable big : bool.

Definition htons (x : Z) : Z := if big then x else bswap 2 x.
Definition htonl (x : Z) : Z := if big then x else bswap 4 x.
Definition ntohs (x : Z) : Z := htons x.
Definition ntohl (x : Z) : Z := htonl x.

Definition host_to_net16 (x : Z) : Z := htons x.
Definition host_to_net32 (x : Z) : Z := htonl x.

(** The 64-bit overload; the argument of [htonl] is converted to 32 bits. *)
Definition host_to_net64 (x : Z) : Z :=
  if big then x
  else wrapu 64 (wrapu 64 (Z.shiftl (htonl (wrapu 32 x)) 32) + htonl (wrapu 32 (Z.shiftr x 32))).

Definition net_to_host16 (x : Z) : Z := ntohs x.
Definition net_to_host32 (x : Z) : Z := ntohl x.
Definition net_to_host64 (x : Z) : Z :=
  if big then x
  else wrapu 64 (wrapu 64 (Z.shiftl (ntohl (wrapu 32 x)) 32) + ntohl (wrapu 32 (Z.shiftr x 32))).
End endian.

(** ** Lemmas on bytes *)

Definition is_byte (b : Z) : Prop := 0 <= b < 256.

Lemma length_le_bytes n x : length (le_bytes n x) = n.
Proof. revert x. induction n; intros x; simpl; auto. Qed.

Lemma le_bytes_range n x : Forall is_byte (le_bytes n x).
Proof.
  revert x. induction n; intros x; simpl; constructor; [|done]. apply Z.mod_pos_bound. lia.
Qed.

Lemma of_le_app l1 l2 : of_le (l1 ++ l2) = of_le l1 + 256 ^ Z.of_nat (length l1) * of_le l2.
Proof.
  induction l1 as [|b l1 IH]; cbn [app of_le length]; [lia|]. rewrite IH.
  rewrite Nat2Z.inj_succ, Z.pow_succ_r by lia. lia.
Qed.

Lemma of_le_range l : Forall is_byte l -> 0 <= of_le l < 256 ^ Z.of_nat (length l).
Proof.
  induction 1 as [|b l Hb _ IH]; cbn [of_le length]; [lia|]. unfold is_byte in Hb.
  rewrite Nat2Z.inj_succ, Z.pow_succ_r by lia. lia.
Qed.

Lemma le_bytes_of_le l : Forall is_byte l -> le_bytes (length l) (of_le l) = l.
Proof.
  induction 1 as [|b l Hb _ IH]; cbn [of_le length le_bytes]; [done|]. unfold is_byte in Hb.
  rewrite (Z.mul_comm 256), Z_mod_plus_full, Z.mod_small by lia. f_equal.
  rewrite Z.div_add, Z.div_small by lia. by rewrite Z.add_0_l.
Qed.

Lemma of_le_bytes n x : 0 <= x < 256 ^ Z.of_nat n -> of_le (le_bytes n x) = x.
Proof.
  revert x. induction n as [|n IH]; intros x Hx; cbn [le_bytes of_le]; [simpl in Hx; lia|].
  rewrite Nat2Z.inj_succ, Z.pow_succ_r in Hx by lia.
  rewrite IH by (split; [apply Z.div_pos; lia | apply Z.div_lt_upper_bound; lia]).
  pose proof (Z.div_mod x 256 ltac:(lia)). lia.
Qed.

Lemma le_bytes_app n m x :
  le_bytes (n + m) x = le_bytes n x ++ le_bytes m (x / 256 ^ Z.of_nat n).
Proof.
  revert x. induction n as [|n IH]; intros x; cbn [Nat.add le_bytes app].
  - by rewrite Z.pow_0_r, Z.div_1_r.
  - rewrite IH. do 3 f_equal. rewrite Nat2Z.inj_succ, Z.pow_succ_r by lia.
    by rewrite Z.div_div by lia.
Qed.

(** The low bytes do not see the bits above them. *)
Lemma le_bytes_mod n x : le_bytes n (x mod 256 ^ Z.of_nat n) = le_bytes n x.
Proof.
  revert x. induction n as [|n IH]; intros x; cbn [le_bytes]; [done|].
  rewrite Nat2Z.inj_succ, Z.pow_succ_r by lia.
  rewrite Z.rem_mul_r by lia. f_equal.
  - rewrite Z.mul_comm, Z.mod_add by lia. apply Z.mod_mod. lia.
  - rewrite Z.add_comm, Z.mul_comm, Z.div_add_l by lia.
    rewrite (Z.div_small (x mod 256)) by (apply Z.mod_pos_bound; lia).
    by rewrite Z.add_0_r, IH.
Qed.

Lemma bswap_range n x : 0 <= bswap n x < 256 ^ Z.of_nat n.
Proof.
  unfold bswap. pose proof (of_le_range (rev (le_bytes n x))) as H.
  rewrite length_rev, length_le_bytes in H. apply H.
  apply Forall_rev, le_bytes_range.
Qed.

Lemma le_bytes_bswap n x : le_bytes n (bswap n x) = rev (le_bytes n x).
Proof.
  unfold bswap. pose proof (le_bytes_of_le (rev (le_bytes n x))) as H.
  rewrite length_rev, length_le_bytes in H. apply H, Forall_rev, le_bytes_range.
Qed.

Lemma bswap_bswap n x : 0 <= x < 256 ^ Z.of_nat n -> bswap n (bswap n x) = x.
Proof.
  intros H. unfold bswap at 1. rewrite le_bytes_bswap, rev_involutive. by apply of_le_bytes.
Qed.

(** Two 32-bit swaps in exchanged halves are a 64-bit swap. *)
Lemma bswap_halves x :
  wrapu 64 (wrapu 64 (Z.shiftl (bswap 4 (wrapu 32 x)) 32) + bswap 4 (wrapu 32 (Z.shiftr x 32)))
  = bswap 8 x.
Proof.
  assert (E : forall y, bswap 4 (wrapu 32 y) = bswap 4 y).
  { intros y. unfold bswap, wrapu. change (2 ^ 32) with (256 ^ Z.of_nat 4). by rewrite le_bytes_mod. }
  rewrite !E, Z.shiftl_mul_pow2, Z.shiftr_div_pow2 by lia.
  pose proof (bswap_range 4 x) as R1. pose proof (bswap_range 4 (x / 2 ^ 32)) as R2.
  change (256 ^ Z.of_nat 4) with (2 ^ 32) in *.
  rewrite (wrapu_small 64 (_ * _)) by lia. rewrite wrapu_small by lia.
  unfold bswap at 3. change 8%nat with (4 + 4)%nat.
  rewrite le_bytes_app, rev_app_distr, of_le_app, length_rev, length_le_bytes.
  change (256 ^ Z.of_nat 4) with (2 ^ 32). unfold bswap. lia.
Qed.

(** [host_to_net] puts a 16, 32 or 64 bit value into network order: on
    either kind of host, the bytes of the result in memory are those of the
    value, most significant first, and [net_to_host] gives the value back. *)
Theorem host_to_net_network_order big x :
  (0 <= x < 2 ^ 16 ->
     mem_bytes big 2 (host_to_net16 big x) = rev (le_bytes 2 x) /\
     net_to_host16 big (host_to_net16 big x) = x) /\
  (0 <= x < 2 ^ 32 ->
     mem_bytes big 4 (host_to_net32 big x) = rev (le_bytes 4 x) /\
     net_to_host32 big (host_to_net32 big x) = x) /\
  (0 <= x < 2 ^ 64 ->
     mem_bytes big 8 (host_to_net64 big x) = rev (le_bytes 8 x) /\
     net_to_host64 big (host_to_net64 big x) = x).
Proof.
  unfold mem_bytes, net_to_host16, net_to_host32, net_to_host64, host_to_net16, host_to_net32,
    host_to_net64, ntohs, ntohl, htons, htonl.
  destruct big; [done|]. rewrite !bswap_halves.
  split_and!; intros Hx; (split; [apply le_bytes_bswap | apply bswap_bswap; exact Hx]).
Qed.

Lemma host_to_net_network_order_witness :
  mem_bytes false 8 (host_to_net64 false 1) = [0; 0; 0; 0; 0; 0; 0; 1] /\
  net_to_host64 false (host_to_net64 false 1) = 1.
Proof. apply (host_to_net_network_order false 1). lia. Defined.

(** ** [protocol.hpp]: IPv4 and local addresses *)

Module Ipv4.

Definition AF_INET : Z := 2.

(** [sockaddr_in]: family, port and address in network order. *)
Record address := mk_address { sin_family : Z; sin_port : Z; s_addr : Z }.

Section address.
Variable big : bool.
Variable inet_pton : list byte -> option Z.

Definition address_default : address := mk_address AF_INET 0 0.

(** [address(port, ip)]; a text [inet_pton] rejects leaves the field at 0. *)
Definition make_address (port : Z) (ip : option (list byte)) : address :=
  mk_address AF_INET (host_to_net16 big port)
    (match ip with None => 0 | Some t => default 0 (inet_pton t) end).

Definition address_eqb (a b : address) : bool :=
  (sin_family a =? sin_family b) && (s_addr a =? s_addr b) && (sin_port a =? sin_port b).

(** The port [to_string] prints. *)
Definition shown_port (a : address) : Z := net_to_host16 big (sin_port a).

Definition from_raw_address (a : address) : address :=
  mk_address (sin_family a) (sin_port a) (s_addr a).

Definition address_len : Z := 16.
End address.
End Ipv4.

Module IpLocal.

(** [sizeof(sockaddr_in)] and the size of [sun_path] on Linux. *)
Definition sizeof_sockaddr_in : Z := 16.
Definition sun_path_size : nat := 108.

Record address := mk_address { sun_path : list byte }.

(** [strncpy(sun_path, path, sizeof(sun_path))]; [path] is the text before its
    terminator. *)
Definition make_address (path : list byte) : address :=
  mk_address (take sun_path_size path ++ replicate (sun_path_size - length path) x00).

(** [std::string{sun_path}]: up to the first NUL, [None] if there is none. *)
Fixpoint c_string (l : list byte) : option (list byte) :=
  match l with
  | [] => None
  | c :: l => if (c =? x00)%beq then Some [] else cons c <$> c_string l
  end.

Definition to_string (a : address) : option (list byte) := c_string (sun_path a).

Definition address_len : Z := sizeof_sockaddr_in.

Lemma c_string_replicate l n :
  x00 ∉ l -> c_string (l ++ replicate (S n) x00) = Some l.
Proof.
  induction l as [|c l IH]; intros H; [done|]. apply not_elem_of_cons in H as [Hc Hl].
  cbn [app c_string]. rewrite (proj2 (byte_eqb_neq c x00)) by done. by rewrite IH.
Qed.

Lemma c_string_none l : x00 ∉ l -> c_string l = None.
Proof.
  induction l as [|c l IH]; intros H; [done|]. apply not_elem_of_cons in H as [Hc Hl].
  cbn [c_string]. rewrite (proj2 (byte_eqb_neq c x00)) by done. by rewrite IH.
Qed.

(** A path is read back when it leaves room for the terminator; otherwise the
    field is not terminated and reading it runs past its end. *)
Lemma local_path_roundtrip path :
  x00 ∉ path ->
  to_string (make_address path)
  = if (length path <? sun_path_size)%nat then Some path else None.
Proof.
  intros H. unfold to_string, make_address. cbn [sun_path]. case_if.
  - rewrite take_ge by lia.
    replace (sun_path_size - length path)%nat with (S (sun_path_size - length path - 1)) by lia.
    by apply c_string_replicate.
  - replace (sun_path_size - length path)%nat with 0%nat by lia. rewrite app_nil_r.
    apply c_string_none. intros Hin. apply H.
    rewrite <- (take_drop sun_path_size path). apply elem_of_app. by left.
Qed.
End IpLocal.
