(* ===== verification/Resolver.v ===== *)
(** * [include/http/resolver.hpp]: address lists and the resolver thread

    [Addresses]: the list c-ares returns and its iterator.  [Queries]: the
    protocol between the coroutines that ask, the resolver's thread and the
    contexts that resume them.  c-ares is the class [Ares] with the documented
    behaviour that the code relies on: every request is called back once, at
    once or while it is processed, and a channel without requests has no
    descriptors. *)

From S2P Require Import Prelude Endian.
From stdpp Require Import relations.

(** ** Address lists *)

Module Addresses.

(** [ares_addrinfo_node]: family, [ai_addrlen], and the address when it is an
    IPv4 one. *)
Record node := mk_node { ai_family : Z; ai_addrlen : Z; ai_addr : Ipv4.address }.

(** [ares_addrinfo]: the two linked lists. *)
Record addrinfo := mk_addrinfo { cnames : list (list byte); nodes : list node }.

(** A pointer into a list of [n] cells is an index, [None] is [nullptr]. *)
Definition first (n : nat) : option nat := if (n =? 0)%nat then None else Some 0.
Definition next (n : nat) (p : option nat) : option nat :=
  match p with
  | None => None
  | Some i => if (S i <? n)%nat then Some (S i) else None
  end.

Record iterator_type := mk_it { it_name : option nat; it_node : option nat }.

Section list.
Variable l : addrinfo.

Definition begin : iterator_type := mk_it (first (length (cnames l))) (first (length (nodes l))).
Definition end_ : iterator_type := mk_it None None.

Definition incr (it : iterator_type) : iterator_type :=
  mk_it (next (length (cnames l)) (it_name it)) (next (length (nodes l)) (it_node it)).

(** [auto it = *this; return ++it;]: the iterator afterwards and the value. *)
Definition post_incr (it : iterator_type) : iterator_type * iterator_type := (it, incr it).

Definition it_eqb (a b : iterator_type) : bool := bool_decide (it_node a = it_node b).

(** [get_name()]: the empty text without a name. *)
Definition get_name (it : iterator_type) : list byte :=
  match it_name it with Some i => default [] (cnames l !! i) | None => [] end.

Definition is_v4 (n : node) : bool := (ai_family n =? Ipv4.AF_INET)%Z.

(** [to_address()]; [None] is the [std::logic_error]. *)
Definition to_address (n : node) : option Ipv4.address :=
  if negb (ai_addrlen n =? Ipv4.address_len)%Z then None
  else Some (Ipv4.from_raw_address (ai_addr n)).

(** [for (auto &v : list)]: names and nodes in the order of the visits; [None]
    when the bound is too small or a null node is read. *)
Fixpoint visit (fuel : nat) (it : iterator_type) : option (list (list byte * node)) :=
  if it_eqb it end_ then Some []
  else match fuel with
       | O => None
       | S fuel =>
           i ← it_node it; n ← nodes l !! i;
           cons (get_name it, n) <$> visit fuel (incr it)
       end.
End list.

(** The iterator at position [k] of both lists. *)
Definition at_pos (l : addrinfo) (k : nat) : iterator_type :=
  mk_it (if (k <? length (cnames l))%nat then Some k else None)
        (if (k <? length (nodes l))%nat then Some k else None).

Lemma begin_at l : begin l = at_pos l 0.
Proof. unfold begin, at_pos, first. destruct (cnames l), (nodes l); done. Qed.

Lemma incr_at l k : incr l (at_pos l k) = at_pos l (S k).
Proof.
  assert (H : forall n, next n (if (k <? n)%nat then Some k else None) =
                        if (S k <? n)%nat then Some (S k) else None).
  { intros n. destruct (k <? n)%nat eqn:E; simpl; [done|]. boolp.
    by rewrite (proj2 (Nat.ltb_ge _ _)) by lia. }
  unfold incr, at_pos. simpl. by rewrite !H.
Qed.

Lemma get_name_at l k : get_name l (at_pos l k) = default [] (cnames l !! k).
Proof.
  unfold get_name, at_pos. simpl. destruct (k <? length (cnames l))%nat eqn:E; [done|]. boolp.
  by rewrite (proj2 (lookup_ge_None _ _)) by lia.
Qed.

Lemma visit_at l fuel k :
  length (nodes l) - k <= fuel ->
  visit l fuel (at_pos l k) =
    Some (imap (fun i n => (default [] (cnames l !! (k + i)), n)) (drop k (nodes l))).
Proof.
  revert k. induction fuel as [|fuel IH]; intros k Hf; simpl; unfold it_eqb; simpl.
  - rewrite (proj2 (Nat.ltb_ge _ _)) by lia. rewrite bool_decide_eq_true_2 by done.
    by rewrite drop_ge by lia.
  - destruct (k <? length (nodes l))%nat eqn:E; boolp.
    + rewrite bool_decide_eq_false_2 by done. simpl.
      destruct (lookup_lt_is_Some_2 (nodes l) k E) as [n Hn]. rewrite Hn. simpl.
      rewrite incr_at, IH by lia. simpl. rewrite (drop_S _ _ _ Hn). cbn [imap]. f_equal. f_equal.
      * rewrite get_name_at. by rewrite Nat.add_0_r.
      * apply imap_ext. intros i x _. simpl. by rewrite Nat.add_succ_r.
    + rewrite bool_decide_eq_true_2 by done. by rewrite drop_ge by lia.
Qed.

(** The connection loop over an address list: addresses that are not IPv4
    addresses are skipped by the exception of [to_address]. *)
Definition usable (l : addrinfo) : list Ipv4.address :=
  omap to_address (nodes l).

(** A range-for over an address list ends and visits every node once, in
    order, each with the name at the same position, or with an empty name when
    there are fewer names than nodes. *)
Theorem address_list_visited l :
  visit l (length (nodes l)) (begin l)
  = Some (imap (fun i n => (default [] (cnames l !! i), n)) (nodes l)).
Proof. rewrite begin_at, visit_at by lia. by rewrite drop_0. Qed.

End Addresses.

(** ** c-ares *)

(** A callback: the argument of the request, the status, and whether a result is
    handed over. *)
Record answer := mk_answer { a_arg : nat; a_status : Z; a_result : option Addresses.addrinfo }.

Definition ARES_SUCCESS : Z := 0.

(** [ares_getaddrinfo arg ch] may call back at once; [ares_process k ch] is one
    round of [select] and [ares_process], [k] being what the network did;
    [ares_fds] is its return value; [ares_destroy] calls back what is left. *)
Class Ares (C : Type) := {
  ares_getaddrinfo : nat -> C -> list answer * C;
  ares_fds : C -> nat;
  ares_process : nat -> C -> list answer * C;
  ares_destroy : C -> list answer;
  active : C -> list nat
}.

(** Every request is called back once; a channel without requests has no
    descriptors. *)
Class AresLaws (C : Type) `{!Ares C} := {
  getaddrinfo_once q ch l ch' :
    ares_getaddrinfo q ch = (l, ch') -> map a_arg l ++ active ch' ≡ₚ q :: active ch;
  process_once k ch l ch' :
    ares_process k ch = (l, ch') -> map a_arg l ++ active ch' ≡ₚ active ch;
  destroy_once ch : map a_arg (ares_destroy ch) ≡ₚ active ch;
  fds_idle ch : active ch = [] -> ares_fds ch = 0%nat
}.

(** ** Queries *)

Module Queries.
Section queries.
Context {C : Type} `{!Ares C}.

(** The resolver's thread: at the loop test, at the test of the list, before the
    swap, in the loop over [qlist], before [ares_fds], before [ares_process], at
    the load of the counter, in [atomic_wait], after the loop, or using a
    channel that has been destroyed. *)
Inductive tpc := TTest | TEmpty | TSwap | TSubmit | TFds | TProcess | TLoad | TWait | TExit | TBad.

(** [uncounted] are the awaiters between [push_back] and [try_wakeup]; [posted] are
    the callbacks, each of which has posted a task to its awaiter's context;
    [asked] and [wakeups] are for the statements: all queries so far, and the
    calls of [try_wakeup] by the destructor. *)
Record resolver := mk_resolver {
  m_query_list : list nat;
  m_pending_cnt : Z;
  qlist : list nat;
  m_channel : C;
  destroyed : bool;
  stop_requested : bool;
  pc : tpc;
  uncounted : list nat;
  posted : list answer;
  asked : list nat;
  wakeups : nat
}.

Definition init (ch : C) : resolver := mk_resolver [] 0 [] ch false false TTest [] [] [] 0.

Definition at_pc (p : tpc) (r : resolver) : resolver :=
  mk_resolver (m_query_list r) (m_pending_cnt r) (qlist r) (m_channel r) (destroyed r) (stop_requested r) p
    (uncounted r) (posted r) (asked r) (wakeups r).

(** [query_callback] for each answer: a task for the context, and the counter. *)
Definition query_callbacks (l : list answer) (ch : C) (r : resolver) : resolver :=
  mk_resolver (m_query_list r) (wrapu 64 (m_pending_cnt r - Z.of_nat (length l))) (qlist r) ch
    (destroyed r) (stop_requested r) (pc r) (uncounted r) (posted r ++ l) (asked r) (wakeups r).

(** [await_suspend] of awaiter [q]: the locked [push_back] ... *)
Definition push_query (q : nat) (r : resolver) : resolver :=
  mk_resolver (m_query_list r ++ [q]) (m_pending_cnt r) (qlist r) (m_channel r) (destroyed r) (stop_requested r)
    (pc r) (q :: uncounted r) (posted r) (asked r ++ [q]) (wakeups r).

(** ... and [try_wakeup]: [fetch_add] and a notification. *)
Definition count_query (q : nat) (r : resolver) : resolver :=
  mk_resolver (m_query_list r) (wrapu 64 (m_pending_cnt r + 1)) (qlist r) (m_channel r)
    (destroyed r) (stop_requested r) (pc r) (remove Nat.eq_dec q (uncounted r)) (posted r) (asked r) (wakeups r).

(** The destructor's [request_stop()] and [try_wakeup()]. *)
Definition request_stop (r : resolver) : resolver :=
  mk_resolver (m_query_list r) (m_pending_cnt r) (qlist r) (m_channel r) (destroyed r) true (pc r)
    (uncounted r) (posted r) (asked r) (wakeups r).
Definition wakeup_stopped (r : resolver) : resolver :=
  mk_resolver (m_query_list r) (wrapu 64 (m_pending_cnt r + 1)) (qlist r) (m_channel r)
    (destroyed r) (stop_requested r) (pc r) (uncounted r) (posted r) (asked r) (S (wakeups r)).

(** [ares_destroy(m_channel)], before [m_thread] is joined. *)
Definition destroy_channel (r : resolver) : resolver :=
  let l := ares_destroy (m_channel r) in
  mk_resolver (m_query_list r) (wrapu 64 (m_pending_cnt r - Z.of_nat (length l))) (qlist r)
    (m_channel r) true (stop_requested r) (pc r) (uncounted r) (posted r ++ l) (asked r) (wakeups r).

Definition swap_lists (r : resolver) : resolver :=
  mk_resolver (qlist r) (m_pending_cnt r) (m_query_list r) (m_channel r) (destroyed r) (stop_requested r) (pc r)
    (uncounted r) (posted r) (asked r) (wakeups r).

(** The body of [for (auto &q : qlist)] for its first element. *)
Definition submit_first (r : resolver) : resolver :=
  match qlist r with
  | [] => r
  | q :: rest =>
      let '(l, ch) := ares_getaddrinfo q (m_channel r) in
      query_callbacks l ch
        (mk_resolver (m_query_list r) (m_pending_cnt r) rest (m_channel r) (destroyed r) (stop_requested r) (pc r)
          (uncounted r) (posted r) (asked r) (wakeups r))
  end.

(** One step of the resolver's thread; [k] is what the network does. *)
Definition thread_step (k : nat) (r : resolver) : option resolver :=
  match pc r with
  | TTest => Some (at_pc (if stop_requested r then TExit else TEmpty) r)
  | TEmpty => Some (at_pc (match m_query_list r with [] => TSubmit | _ => TSwap end) r)
  | TSwap => Some (at_pc TSubmit (swap_lists r))
  | TSubmit => Some (match qlist r with
                     | [] => at_pc TFds r
                     | _ => if destroyed r then at_pc TBad r else submit_first r
                     end)
  | TFds => Some (if destroyed r then at_pc TBad r else at_pc (if (ares_fds (m_channel r) =? 0)%nat then TExit else TProcess) r)
  | TProcess => if destroyed r then Some (at_pc TBad r) else
                let '(l, ch) := ares_process k (m_channel r) in
                Some (at_pc TLoad (query_callbacks l ch r))
  | TLoad => Some (at_pc (if (m_pending_cnt r =? 0)%Z then TWait else TTest) r)
  | TWait => if (m_pending_cnt r =? 0)%Z then None else Some (at_pc TTest r)
  | TExit | TBad => None
  end.

Inductive step (r : resolver) : resolver -> Prop :=
| step_thread k r' : thread_step k r = Some r' -> step r r'
| step_push q : q ∉ asked r -> step r (push_query q r)
| step_count q : q ∈ uncounted r -> step r (count_query q r)
| step_stop : step r (request_stop r)
| step_wakeup : stop_requested r = true -> wakeups r = 0%nat -> step r (wakeup_stopped r)
| step_destroy : wakeups r = 1%nat -> destroyed r = false -> step r (destroy_channel r).

(** What [await_resume] returns once the posted task has stored the answer. *)
Definition await_resume (status : Z) (result : option Addresses.addrinfo) : option Addresses.addrinfo :=
  if (status =? ARES_SUCCESS)%Z then result else None.









Context `{!AresLaws C}.









(** Runs of the thread and of others, by explicit choices. *)
Inductive move := Thread (k : nat) | Push (q : nat) | Count (q : nat) | Stop | Wakeup | Destroy.

Definition do_move (m : move) (r : resolver) : option resolver :=
  match m with
  | Thread k => thread_step k r
  | Push q => if decide (q ∈ asked r) then None else Some (push_query q r)
  | Count q => if decide (q ∈ uncounted r) then Some (count_query q r) else None
  | Stop => Some (request_stop r)
  | Wakeup => if stop_requested r && (wakeups r =? 0)%nat then Some (wakeup_stopped r) else None
  | Destroy => if (wakeups r =? 1)%nat && negb (destroyed r) then Some (destroy_channel r) else None
  end.

Fixpoint do_moves (ms : list move) (r : resolver) : option resolver :=
  match ms with [] => Some r | m :: ms => r ← do_move m r; do_moves ms r end.

Lemma do_moves_steps ms r r' : do_moves ms r = Some r' -> rtc step r r'.
Proof.
  revert r. induction ms as [|m ms IH]; intros r; simpl; [by intros [= <-]|].
  destruct (do_move m r) as [r1|] eqn:E; simpl; [|done]. intros H. apply rtc_l with r1; [|by apply IH].
  destruct m; simpl in E; repeat (case_decide; simplify_eq/=); simplify_eq/=; try (by econstructor).
  - case_if_in E; simplify_eq. by apply step_wakeup.
  - case_if_in E; simplify_eq. by apply step_destroy.
Qed.

(** Once the thread has left its loop nothing is answered any more. *)
Lemma exited_keeps r r' q :
  rtc step r r' -> pc r = TExit -> q ∈ m_query_list r -> pc r' = TExit /\ q ∈ m_query_list r'.
Proof.
  intros R. induction R as [|r r1 r2 S R IH]; intros Hp Hq; [done|].
  destruct S as [k r' E|q' _|q' _| |? ?|? ?]; try (by apply IH).
  - unfold thread_step in E. by rewrite Hp in E.
  - apply IH; [done|]. simpl. apply elem_of_app. by left.
Qed.

(** C31: The resolver's thread can end before the first query.  On a channel
    without requests [ares_fds] is 0 and the loop is left; a query asked
    afterwards stays in the list for ever, and its coroutine is never resumed. *)
Theorem resolver_thread_dies ch q :
  active ch = [] ->
  exists r, rtc step (init ch) r /\ pc r = TExit /\ stop_requested r = false /\
    q ∈ asked r /\ uncounted r = [] /\
    forall r', rtc step r r' -> q ∈ m_query_list r' /\ pc r' = TExit.
Proof.
  intros Hch. pose proof (fds_idle ch Hch) as Hf.
  set (r0 := at_pc TExit (init ch)). set (r := count_query q (push_query q r0)).
  assert (R : rtc step (init ch) r).
  { apply (do_moves_steps [Thread 0; Thread 0; Thread 0; Thread 0; Push q; Count q]).
    assert (D1 : q ∉ ([] : list nat)) by apply not_elem_of_nil.
    assert (D2 : q ∈ [q]) by (apply elem_of_cons; by left).
    cbn [do_moves do_move thread_step pc at_pc init stop_requested m_query_list qlist mbind option_bind
         destroyed m_channel]. rewrite Hf. simpl.
    destruct (decide (q ∈ [])); [done|]. simpl. by destruct (decide (q ∈ [q])). }
  exists r. split_and!; [done | done | done | | |].
  - simpl. apply elem_of_cons. by left.
  - simpl. by destruct (Nat.eq_dec q q).
  - intros r' R'. apply and_comm. apply (exited_keeps r); [done | done |].
    simpl. apply elem_of_cons. by left.
Qed.

(** The destructor destroys the channel before the thread is joined: the
    thread can be about to use it. *)
Theorem resolver_uses_destroyed_channel ch :
  exists r, rtc step (init ch) r /\ destroyed r = true /\ pc r = TBad.
Proof.
  eexists. split; [|split; [|]].
  - apply (do_moves_steps [Thread 0; Thread 0; Stop; Wakeup; Destroy; Thread 0; Thread 0]). reflexivity.
  - done.
  - done.
Qed.

End queries.
End Queries.

(** ** A small c-ares *)

(** Requests with an even argument are answered at once (a name of the hosts
    file), the others when the network answers the first [k] of them. *)
Definition list_answer (q : nat) : answer :=
  mk_answer q ARES_SUCCESS (Some (Addresses.mk_addrinfo [] [])).

#[export] Instance list_ares : Ares (list nat) := {
  ares_getaddrinfo q ch := if Nat.even q then ([list_answer q], ch) else ([], ch ++ [q]);
  ares_fds ch := length ch;
  ares_process k ch := (map list_answer (take k ch), drop k ch);
  ares_destroy ch := map (fun q => mk_answer q 16 None) ch;
  active ch := ch
}.

#[export] Instance list_ares_laws : AresLaws (list nat).
Proof.
  split; simpl.
  - intros q ch l ch'. destruct (Nat.even q); intros [= <- <-]; simpl; [done|]. solve_Permutation.
  - intros k ch l ch' [= <- <-]. rewrite map_map. simpl. rewrite map_id. by rewrite take_drop.
  - intros ch. rewrite map_map. simpl. by rewrite map_id.
  - by intros ch ->.
Defined.


(** Parked on a zero counter although a counted query is unanswered: query 1 was
    answered before its asker counted it, query 3 was counted and is in the
    channel.  The thread goes on when the asker of 1 counts. *)
Example parked_with_counted_query :
  exists r, Queries.do_moves [Queries.Push 1; Queries.Push 3; Queries.Count 3;
      Queries.Thread 0; Queries.Thread 0; Queries.Thread 0; Queries.Thread 0; Queries.Thread 0;
      Queries.Thread 0; Queries.Thread 0; Queries.Thread 1; Queries.Thread 0]
      (Queries.init ([] : list nat)) = Some r /\
    Queries.pc r = Queries.TWait /\ Queries.m_pending_cnt r = 0%Z /\
    Queries.uncounted r = [1] /\ active (Queries.m_channel r) = [3] /\
    exists r', Queries.do_moves [Queries.Count 1; Queries.Thread 0] r = Some r' /\
               Queries.pc r' = Queries.TTest.
Proof. eexists. split; [vm_compute; reflexivity|]. repeat split. eexists. by split. Qed.

Lemma resolver_thread_dies_witness :
  exists r, rtc Queries.step (Queries.init ([] : list nat)) r /\ Queries.pc r = Queries.TExit /\
    7 ∈ Queries.asked r /\ forall r', rtc Queries.step r r' -> 7 ∈ Queries.m_query_list r'.
Proof.
  destruct (@Queries.resolver_thread_dies (list nat) list_ares list_ares_laws [] 7 eq_refl) as (r & R & P & _ & A & _ & F).
  exists r. split; [exact R|]. split; [exact P|]. split; [exact A|].
  intros r' R'. apply (F r' R').
Defined.
