(* ===== verification/Handles.v ===== *)
(** * Owners of handles

    [future], [task_with_callback], [generator] and [file_descriptor_base] each
    own one handle (a coroutine frame or a file descriptor) and release it in
    their destructor; [oneway_task] gives its handle up when it is started.
    Their special member functions are modelled on a store of objects, each
    holding a handle or none, with the list of handles that were released.
    An object's slot survives its destruction: move assignment calls
    [this->~future()] and goes on using the object. *)

From S2P Require Import Prelude.
From stdpp Require Import gmap relations.

(** [objs !! x = Some h]: object [x] exists and its [m_handle] ([fd]) is [h]. *)
Record store := mk_store {
  objs : gmap nat (option nat);
  released : list nat
}.

Definition set_handle (x : nat) (h : option nat) (s : store) : store :=
  mk_store (<[x := h]> (objs s)) (released s).

(** [m_handle.destroy()] or [::close(fd)] *)
Definition release (h : option nat) (s : store) : store :=
  mk_store (objs s) (match h with Some h => released s ++ [h] | None => released s end).

(** The destructors: release what is held.  [future] and [task_with_callback]
    also clear the handle; [file_descriptor_base] and [generator] do not. *)
Definition destructor (clears : bool) (x : nat) (s : store) : store :=
  match objs s !! x with
  | Some h => let s := release h s in if clears then set_handle x None s else s
  | None => s
  end.

(** The object's life ends: its destructor runs and its slot goes away. *)
Definition end_life (clears : bool) (x : nat) (s : store) : store :=
  let s := destructor clears x s in mk_store (delete x (objs s)) (released s).

(** The move constructors: take the handle and clear the source. *)
Definition move_construct (x y : nat) (s : store) : store :=
  match objs s !! y with
  | Some h => set_handle y None (set_handle x h s)
  | None => s
  end.

(** [operator=(T &&other)] of [future] and [file_descriptor_base] *)
Definition move_assign (clears : bool) (x y : nat) (s : store) : store :=
  match objs s !! x, objs s !! y with
  | Some hx, Some hy =>
      let s := if bool_decide (hy = hx) then s else destructor clears x s in
      set_handle y None (set_handle x hy s)
  | _, _ => s
  end.

(** [operator=] of [task_with_callback]: destroy what is held, then swap. *)
Definition swap_assign (x y : nat) (s : store) : store :=
  match objs s !! x, objs s !! y with
  | Some hx, Some hy =>
      let s := match hx with Some _ => destructor true x s | None => s end in
      let hx' := default None (objs s !! x) in
      let hy' := default None (objs s !! y) in
      set_handle x hy' (set_handle y hx' s)
  | _, _ => s
  end.

(** ** Programs over owners *)

Inductive owner_kind := KFuture | KTask | KDescriptor.

Definition clears_handle (k : owner_kind) : bool :=
  match k with KFuture | KTask => true | KDescriptor => false end.

Inductive op :=
| New (x h : nat)
| End (x : nat)
| MoveNew (x y : nat)
| Assign (x y : nat).

(** A well-formed program names fresh objects and fresh handles where it creates
    them, and live objects otherwise.  A handle that is [lost] is not given out
    again. *)
Definition allowed (lost : list nat) (o : op) (s : store) : Prop :=
  match o with
  | New x h => objs s !! x = None /\ (h ∉ released s) /\ (forall y, objs s !! y <> Some (Some h)) /\ (h ∉ lost)
  | End x => is_Some (objs s !! x)
  | MoveNew x y => objs s !! x = None /\ is_Some (objs s !! y)
  | Assign x y => is_Some (objs s !! x) /\ is_Some (objs s !! y)
  end.

Definition perform (k : owner_kind) (o : op) (s : store) : store :=
  match o with
  | New x h => set_handle x (Some h) s
  | End x => end_life (clears_handle k) x s
  | MoveNew x y => move_construct x y s
  | Assign x y => match k with
                  | KTask => swap_assign x y s
                  | _ => move_assign (clears_handle k) x y s
                  end
  end.

(** ** Unique ownership *)

(** No handle is held twice, none is held after its release, none is released
    twice. *)
Record owned_ok (s : store) : Prop := {
  oo_unique : forall x y h, objs s !! x = Some (Some h) -> objs s !! y = Some (Some h) -> x = y;
  oo_alive : forall x h, objs s !! x = Some (Some h) -> h ∉ released s;
  oo_once : NoDup (released s)
}.

(** Every handle created is in one place: it is held, or released, or lost. *)
Definition accounted (hs lost : list nat) (s : store) : Prop :=
  (forall h, h ∈ hs <-> (h ∈ released s) \/ (exists x, objs s !! x = Some (Some h)) \/ h ∈ lost) /\
  NoDup lost /\ (forall h, h ∈ lost -> (h ∉ released s) /\ forall x, objs s !! x <> Some (Some h)).

Definition created (o : op) : list nat := match o with New _ h => [h] | _ => [] end.

(** What an operation loses: the handle of a future or descriptor that is assigned
    to itself. *)
Definition leaked (k : owner_kind) (o : op) (s : store) : list nat :=
  match o, k with
  | Assign x y, (KFuture | KDescriptor) =>
      if decide (x = y) then match objs s !! x with Some (Some h) => [h] | _ => [] end else []
  | _, _ => []
  end.

(** An assignment of an object to itself leaves it empty. *)
Lemma self_assign_shape k x hx s :
  objs s !! x = Some hx ->
  perform k (Assign x x) s
  = mk_store (<[x := None]> (objs s))
      (match k, hx with KTask, Some h => released s ++ [h] | _, _ => released s end).
Proof.
  intros Hx. destruct k; cbn [perform clears_handle]; unfold move_assign, swap_assign; rewrite Hx.
  - rewrite bool_decide_eq_true_2 by done. unfold set_handle. simpl. by rewrite insert_insert_eq.
  - unfold destructor. destruct hx as [h|]; rewrite ?Hx; simpl; unfold set_handle; simpl;
      rewrite ?lookup_insert_eq, ?Hx; simpl; by rewrite ?insert_insert_eq.
  - rewrite bool_decide_eq_true_2 by done. unfold set_handle. simpl. by rewrite insert_insert_eq.
Qed.

(** A move assignment between two objects is a release and a transfer. *)
Lemma assign_shape k x y hx hy s :
  owned_ok s -> x <> y -> objs s !! x = Some hx -> objs s !! y = Some hy ->
  perform k (Assign x y) s
  = mk_store (<[y := None]> (<[x := hy]> (objs s)))
      (match hx with Some h => released s ++ [h] | None => released s end).
Proof.
  intros [U _ _] Hne Hx Hy.
  assert (Hd : hy <> hx \/ (hx = None /\ hy = None)).
  { destruct (decide (hy = hx)) as [->|]; [|by left]. destruct hx as [h|]; [|by right].
    destruct Hne. by eapply U. }
  destruct k; cbn [perform clears_handle]; unfold move_assign, swap_assign; rewrite Hx, Hy.
  - destruct Hd as [Hd | [-> ->]];
      [rewrite bool_decide_eq_false_2 by done | by rewrite bool_decide_eq_true_2 by done].
    unfold destructor. rewrite Hx. unfold set_handle. simpl. by rewrite insert_insert_eq.
  - unfold destructor. destruct hx as [h|]; rewrite ?Hx; simpl; unfold set_handle; simpl;
      rewrite ?lookup_insert_eq, ?lookup_insert_ne, ?Hx, ?Hy by done; simpl.
    + rewrite (insert_insert_ne _ x y) by done. by rewrite insert_insert_eq.
    + by rewrite (insert_insert_ne _ x y) by done.
  - destruct Hd as [Hd | [-> ->]];
      [rewrite bool_decide_eq_false_2 by done | by rewrite bool_decide_eq_true_2 by done].
    unfold destructor. by rewrite Hx.
Qed.

(** Releasing what [x] holds and letting it go. *)
Lemma owned_release x hx s objs' :
  owned_ok s -> objs s !! x = Some hx ->
  (forall z h, objs' !! z = Some (Some h) ->
     exists z', objs s !! z' = Some (Some h) /\ z' <> x) ->
  (forall z z' h, objs' !! z = Some (Some h) -> objs' !! z' = Some (Some h) -> z = z') ->
  owned_ok (mk_store objs' (match hx with Some h => released s ++ [h] | None => released s end)).
Proof.
  intros [U A N] Hx Hsub Huniq. split; [done | |].
  - intros z h Hz. simpl. destruct (Hsub z h Hz) as (z' & Hz' & Hne).
    destruct hx as [h'|]; [|by eapply A]. rewrite elem_of_app, list_elem_of_singleton.
    intros [Hin | ->]; [by eapply A | by destruct Hne; eapply U].
  - destruct hx as [h|]; [|done]. simpl. apply NoDup_app.
    split_and!; [done | | apply NoDup_singleton].
    intros h' Hin ->%list_elem_of_singleton. by eapply A.
Qed.

(** Unfold the lookups in updated stores. *)
Ltac lookups := repeat match goal with
  | H : context [<[_ := _]> _ !! _ = Some _] |- _ => rewrite lookup_insert_Some in H
  | H : context [delete _ _ !! _ = Some _] |- _ => rewrite lookup_delete_Some in H
  end.

Lemma perform_owned k lost o s : owned_ok s -> allowed lost o s -> owned_ok (perform k o s).
Proof.
  intros Ok Al. pose proof Ok as [U A N]. destruct o as [x h | x | x y | x y]; simpl in Al.
  - destruct Al as (Hx & Hr & Hf & _). split; simpl; [| |done].
    + intros z z' h' H1 H2. lookups. naive_solver.
    + intros z h' H1. lookups. naive_solver.
  - destruct Al as [hx Hx]. cbn [perform]. unfold end_life, destructor. rewrite Hx.
    assert (E : forall b, owned_ok (mk_store (delete x (objs (if b : bool
                  then set_handle x None (release hx s) else release hx s)))
                (match hx with Some h => released s ++ [h] | None => released s end))).
    { intros b. apply (owned_release x hx s); [done | done | |].
      - intros z h Hz. exists z. destruct b; simpl in Hz; lookups; naive_solver.
      - intros z z' h H1 H2. destruct b; simpl in *; lookups; naive_solver. }
    by destruct (clears_handle k), hx; apply (E true) || apply (E false).
  - destruct Al as (Hx & [hy Hy]). cbn [perform]. unfold move_construct. rewrite Hy.
    split; simpl; [| |done].
    + intros z z' h H1 H2. lookups. naive_solver.
    + intros z h H1. lookups. naive_solver.
  - destruct Al as ([hx Hx] & [hy Hy]). destruct (decide (x = y)) as [<-|Hne].
    + assert (Sub : forall z h, <[x := None]> (objs s) !! z = Some (Some h) ->
        objs s !! z = Some (Some h) /\ z <> x) by (intros z h Hz; lookups; naive_solver).
      rewrite (self_assign_shape k x hx s Hx).
      destruct k; [split; simpl; [intros z z' h H1 H2 | intros z h H1 |]; naive_solver | |
                   split; simpl; [intros z z' h H1 H2 | intros z h H1 |]; naive_solver].
      apply (owned_release x hx s); [done | done | |]; [intros z h Hz | intros z z' h H1 H2]; naive_solver.
    + rewrite (assign_shape k x y hx hy s Ok Hne Hx Hy).
      apply (owned_release x hx s); [done | done | |].
      * intros z h Hz. lookups. naive_solver.
      * intros z z' h H1 H2. lookups. naive_solver.
Qed.

(** Membership of a handle in the places it can be. *)
Definition somewhere (lost : list nat) (s : store) (h : nat) : Prop :=
  (h ∈ released s) \/ (exists x, objs s !! x = Some (Some h)) \/ h ∈ lost.

(** A handle that an object gives up is released, moved or lost. *)
Lemma perform_somewhere k lost o s h :
  owned_ok s -> allowed lost o s ->
  somewhere (lost ++ leaked k o s) (perform k o s) h <-> somewhere lost s h \/ h ∈ created o.
Proof.
  intros Ok Al. unfold somewhere. destruct o as [x h0 | x | x y | x y]; simpl in Al; cbn [created].
  - destruct Al as (Hx & Hr & Hf & _). cbn [leaked]. rewrite app_nil_r, list_elem_of_singleton. simpl.
    setoid_rewrite lookup_insert_Some. split; [naive_solver|].
    intros [[Hin | [[z Hz] | Hl]] | ->]; [by left | | by right; right | right; left; exists x; naive_solver].
    right. left. exists z. right. split; congruence.
  - destruct Al as [hx Hx]. cbn [perform leaked]. rewrite app_nil_r. unfold end_life, destructor. rewrite Hx.
    destruct (clears_handle k), hx as [hx|]; simpl; rewrite ?elem_of_app, ?list_elem_of_singleton;
      setoid_rewrite lookup_delete_Some; try setoid_rewrite lookup_insert_Some;
      (split; [intros [Hin | [[z Hz] | Hl]] | intros [[Hin | [[z Hz] | Hl]] | []%not_elem_of_nil]];
       try destruct (decide (x = z)) as [<-|]; naive_solver).
  - destruct Al as (Hx & [hy Hy]). cbn [perform leaked]. rewrite app_nil_r. unfold move_construct. rewrite Hy. simpl.
    setoid_rewrite lookup_insert_Some. setoid_rewrite lookup_insert_Some.
    split; [naive_solver|]. intros [[Hin | [[z Hz] | Hl]] | []%not_elem_of_nil]; [by left | | by right; right].
    right. left. destruct (decide (y = z)) as [<-|]; [exists x | exists z]; naive_solver.
  - destruct Al as ([hx Hx] & [hy Hy]). cbn [leaked]. destruct (decide (x = y)) as [<-|Hne].
    + rewrite (self_assign_shape k x hx s Hx). rewrite elem_of_app. simpl. setoid_rewrite lookup_insert_Some.
      rewrite Hx. destruct k, hx as [hx|]; rewrite ?elem_of_app, ?list_elem_of_singleton, ?elem_of_nil;
        (split; [intros [Hin | [[z Hz] | Hl]] | intros [[Hin | [[z Hz] | Hl]] | Hl]];
         try destruct (decide (x = z)) as [<-|]; naive_solver).
    + replace (match k with KTask => [] | _ => [] end) with (@nil nat) by (by destruct k).
      rewrite app_nil_r, (assign_shape k x y hx hy s Ok Hne Hx Hy). simpl.
      setoid_rewrite lookup_insert_Some. setoid_rewrite lookup_insert_Some.
      split; [intros [Hin | [[z Hz] | Hl]] | intros [[Hin | [[z Hz] | Hl]] | []%not_elem_of_nil]].
      * destruct hx; [apply elem_of_app in Hin as [Hin | ->%list_elem_of_singleton] |]; eauto.
      * naive_solver.
      * naive_solver.
      * left. destruct hx; [apply elem_of_app; by left | done].
      * destruct (decide (z = x)) as [->|Hzx].
        { left. rewrite Hx in Hz. simplify_eq. apply elem_of_app. right. by apply list_elem_of_singleton. }
        right. left. destruct (decide (z = y)) as [->|]; [exists x | exists z]; naive_solver.
      * by right; right.
Qed.

(** What is lost stays lost, and was not in two places. *)
Lemma perform_lost k lost o s :
  owned_ok s -> allowed lost o s -> NoDup lost ->
  (forall h, h ∈ lost -> (h ∉ released s) /\ forall x, objs s !! x <> Some (Some h)) ->
  NoDup (lost ++ leaked k o s) /\
  (forall h, h ∈ lost ++ leaked k o s ->
     (h ∉ released (perform k o s)) /\ forall x, objs (perform k o s) !! x <> Some (Some h)).
Proof.
  intros Ok Al N L. pose proof Ok as [U A _].
  assert (Old : forall h, h ∈ lost -> (h ∉ released (perform k o s)) /\
    forall x, objs (perform k o s) !! x <> Some (Some h)).
  { intros h Hl. destruct (L h Hl) as [L1 L2]. destruct o as [x h0 | x | x y | x y]; simpl in Al; cbn [perform].
    - destruct Al as (_ & _ & _ & Hf). split; [done|]. simpl. intros z Hz. lookups. naive_solver.
    - destruct Al as [hx Hx]. unfold end_life, destructor. rewrite Hx.
      destruct (clears_handle k), hx as [hx|]; simpl; rewrite ?elem_of_app, ?list_elem_of_singleton;
        (split; [naive_solver | intros z Hz; lookups; naive_solver]).
    - destruct Al as (Hx & [hy Hy]). unfold move_construct. rewrite Hy. simpl.
      split; [done | intros z Hz; lookups; naive_solver].
    - destruct Al as ([hx Hx] & [hy Hy]). destruct (decide (x = y)) as [<-|Hne].
      + pose proof (self_assign_shape k x hx s Hx) as E. cbn [perform] in E. rewrite E. simpl.
        destruct k, hx; rewrite ?elem_of_app, ?list_elem_of_singleton;
          (split; [naive_solver | intros z Hz; lookups; naive_solver]).
      + pose proof (assign_shape k x y hx hy s Ok Hne Hx Hy) as E. cbn [perform] in E. rewrite E. simpl.
        destruct hx; rewrite ?elem_of_app, ?list_elem_of_singleton;
          (split; [naive_solver | intros z Hz; lookups; naive_solver]). }
  destruct (leaked k o s) as [|h l] eqn:E; [by rewrite app_nil_r|].
  destruct o as [| | | x y]; try (by destruct k). cbn [leaked] in E. simpl in Al. destruct Al as [[hx Hx] _].
  rewrite Hx in E. assert (Kk : k <> KTask) by (by intros ->).
  destruct (decide (x = y)) as [<-|]; [|by destruct k].
  destruct hx as [h'|]; [|by destruct k]. assert (h' = h /\ l = []) as [-> ->] by (destruct k; by simplify_eq).
  split.
  - apply NoDup_app. split_and!; [done | | apply NoDup_singleton].
    intros h2 H2 ->%list_elem_of_singleton. destruct (L _ H2) as [_ L2]. by destruct (L2 x).
  - intros h2 [H2 | ->%list_elem_of_singleton]%elem_of_app; [by apply Old|].
    rewrite (self_assign_shape k x (Some h) s Hx). simpl. split.
    + specialize (A x h Hx). by destruct k.
    + intros z Hz. lookups. naive_solver.
Qed.

(** ** Whole programs *)

(** [runs k s lost os s' lost']: the operations [os] lead from [s] to [s'], what was
    lost before and after being [lost] and [lost']. *)
Inductive runs (k : owner_kind) : store -> list nat -> list op -> store -> list nat -> Prop :=
| runs_nil s lost : runs k s lost [] s lost
| runs_cons s lost o os s' lost' :
    allowed lost o s -> runs k (perform k o s) (lost ++ leaked k o s) os s' lost' ->
    runs k s lost (o :: os) s' lost'.

Definition store_empty : store := mk_store ∅ [].

Lemma runs_inv k s lost os s' lost' hs :
  runs k s lost os s' lost' -> owned_ok s -> accounted hs lost s ->
  owned_ok s' /\ accounted (hs ++ concat (map created os)) lost' s'.
Proof.
  intros R. revert hs. induction R as [s lost | s lost o os s' lost' Al _ IH]; intros hs Ok (Ac & N & L); simpl.
  - by rewrite app_nil_r.
  - rewrite app_assoc. apply IH; [by eapply perform_owned|]. destruct (perform_lost k lost o s Ok Al N L).
    split_and!; [|done|done]. intros h. rewrite elem_of_app, (Ac h).
    symmetry. by apply perform_somewhere.
Qed.

Lemma store_empty_ok : owned_ok store_empty /\ accounted [] [] store_empty.
Proof.
  split; [split; simpl; [done | done | constructor]|]. split_and!; [|constructor | by intros h ?%not_elem_of_nil].
  intros h. simpl. split; [by intros ?%not_elem_of_nil|].
  intros [?%not_elem_of_nil | [[x Hx] | ?%not_elem_of_nil]]; done.
Qed.

(** The program assigns no object to itself. *)
Definition no_self_assign (os : list op) : Prop :=
  Forall (fun o => match o with Assign x y => x <> y | _ => True end) os.

Lemma runs_lost k s lost os s' lost' :
  runs k s lost os s' lost' -> k = KTask \/ no_self_assign os -> lost' = lost.
Proof.
  intros R H. induction R as [|s lost o os s' lost' Al _ IH]; [done|].
  assert (leaked k o s = []) as E.
  { destruct o as [| | | x y], k; simpl; try done; destruct H as [? | [Hxy _]%Forall_cons]; try done;
      by rewrite decide_False. }
  rewrite E, app_nil_r in IH. apply IH. destruct H as [? | [_ H]%Forall_cons]; [by left | by right].
Qed.

(** C38: futures, tasks and descriptors own their handles uniquely.  In every program
    that constructs, moves, assigns and destroys them no handle is released twice or
    used after its release, and no two objects hold the same handle; a handle that
    was created is in exactly one place: held by an object, released, or lost.  The
    lost ones are those that futures and descriptors held when they were assigned to
    themselves; tasks lose none, and neither do programs without such an assignment,
    which have released everything when all objects are gone. *)
Theorem owners_release_once k os s lost :
  runs k store_empty [] os s lost ->
  owned_ok s /\ accounted (concat (map created os)) lost s /\
  (k = KTask \/ no_self_assign os -> lost = [] /\
     (objs s = ∅ -> forall h, h ∈ concat (map created os) <-> h ∈ released s)).
Proof.
  intros R. destruct store_empty_ok as [Ok Ac]. destruct (runs_inv k _ _ os s lost [] R Ok Ac) as [Ok' Ac'].
  split_and!; [done | exact Ac' |]. intros H. pose proof (runs_lost _ _ _ _ _ _ R H) as ->.
  split; [done|]. intros He h. destruct Ac' as [Ac' _]. simpl in Ac'. rewrite (Ac' h), He. split; [|by left].
  intros [Hin | [[x Hx] | ?%not_elem_of_nil]]; [done| |done]. by rewrite lookup_empty in Hx.
Qed.

Definition sample_ops : list op :=
  [New 0 7; New 2 8; New 3 9; MoveNew 1 0; Assign 2 1; Assign 3 3; End 0; End 1; End 2; End 3].

Lemma owners_release_once_witness :
  exists s, runs KDescriptor store_empty [] sample_ops s [9] /\ owned_ok s /\ released s = [8; 7] /\
    accounted [7; 8; 9] [9] s.
Proof.
  assert (Fr : forall (m : gmap nat (option nat)) h, bool_decide (map_Forall (fun _ v => v <> Some h) m) = true ->
    forall y, m !! y <> Some (Some h)).
  { intros m h H y E. apply bool_decide_eq_true_1 in H. by apply (H y (Some h) E). }
  assert (R : exists s, runs KDescriptor store_empty [] sample_ops s [9] /\ released s = [8; 7]).
  { eexists. split.
    - do 3 (eapply runs_cons; [split_and!; [reflexivity | apply not_elem_of_nil | apply Fr; reflexivity
        | apply not_elem_of_nil]|]).
      eapply runs_cons; [split; [done | by eexists]|].
      do 2 (eapply runs_cons; [split; by eexists|]).
      do 4 (eapply runs_cons; [by eexists|]). apply runs_nil.
    - reflexivity. }
  destruct R as (s & R & E). exists s. split; [exact R|].
  destruct (owners_release_once KDescriptor sample_ops s [9] R) as (O & A & _).
  split; [exact O|]. split; [exact E | exact A].
Defined.

(** Assigning a future to itself loses the frame: it is neither held nor
    destroyed afterwards. *)
Lemma self_assign_leaks x h :
  let s := mk_store {[x := Some h]} [] in
  perform KFuture (Assign x x) s = mk_store {[x := None]} [] /\ leaked KFuture (Assign x x) s = [h].
Proof.
  intros s. split.
  - rewrite (self_assign_shape KFuture x (Some h)) by apply lookup_singleton_eq. unfold s. simpl.
    by rewrite insert_singleton_eq.
  - simpl. by rewrite decide_True, lookup_singleton_eq by done.
Qed.
