(* ===== verification/Common.v ===== *)
(** * [common/scope_guard.hpp], [common/cpu_affinity.hpp] and [common/ref.hpp] *)

From S2P Require Import Prelude.
Local Open Scope Z_scope.

(** ** [scope_guard]

    A block is a list of statements over a state: one that runs, changing the
    state, possibly throwing, or the declaration of a guard, whose function does
    not throw.  A guard is destroyed when its block is left, however it is left. *)

Section scope_guard.
Context {S : Type}.

Inductive stmt :=
| Run (f : S -> S) (throws : S -> option nat)
| Guard (f : S -> S).

(** The state and the exception with which the block is left. *)
Fixpoint block (l : list stmt) (s : S) : S * option nat :=
  match l with
  | [] => (s, None)
  | Run f throws :: l =>
      match throws s with Some e => (s, Some e) | None => block l (f s) end
  | Guard f :: l => let '(s, r) := block l s in (f s, r)
  end.

(** The same block without guards, with the guards that were declared before it
    was left, the last one first. *)
Fixpoint body (l : list stmt) (gs : list (S -> S)) (s : S) : S * option nat * list (S -> S) :=
  match l with
  | [] => (s, None, gs)
  | Run f throws :: l =>
      match throws s with Some e => (s, Some e, gs) | None => body l gs (f s) end
  | Guard f :: l => body l (f :: gs) s
  end.

Definition run_all (gs : list (S -> S)) (s : S) : S := fold_left (fun s f => f s) gs s.

(** Every guard declared before the block is left runs once, after the
    statements, in the reverse order of declaration, and the way the block is
    left does not depend on the guards. *)
Theorem guards_run_in_reverse l s :
  block l s = let '(s', r, gs) := body l [] s in (run_all gs s', r).
Proof.
  assert (G : forall gs, let '(s1, r1) := block l s in
    let '(s', r, gs') := body l gs s in (run_all gs' s', r) = (run_all gs s1, r1)).
  { revert s. induction l as [|[f th | f] l IH]; intros s gs; simpl; [done | |].
    - destruct (th s); [done | apply IH].
    - specialize (IH s (f :: gs)). destruct (block l s) as [s1 r1].
      by destruct (body l (f :: gs) s) as [[s' r] gs']. }
  specialize (G []). destruct (block l s) as [s1 r1]. by destruct (body l [] s) as [[s' r] gs].
Qed.
End scope_guard.

(** ** [reset_cpu_affinity] *)

Definition CPU_SETSIZE : Z := 1024.

(** [CPU_SET(cpuno, &mask)]: the number is converted to [size_t], and one outside
    the set is ignored. *)
Definition cpu_mask (cpuno : Z) : Z :=
  let n := wrapu 64 cpuno in if n <? CPU_SETSIZE then Z.shiftl 1 n else 0.

(** [sched_setaffinity(tid, sizeof(mask), &mask)], from the mask. *)
Definition reset_cpu_affinity (sched_setaffinity : Z -> Z) (cpuno : Z) : bool :=
  negb (sched_setaffinity (cpu_mask cpuno) =? -1).

(** A thread is bound to the one processor asked for or not at all: a number
    outside the set asks for no processor, which the kernel refuses. *)
Theorem affinity_one_cpu sched_setaffinity cpuno :
  - 2 ^ 31 <= cpuno < 2 ^ 31 -> sched_setaffinity 0 = -1 ->
  reset_cpu_affinity sched_setaffinity cpuno = true ->
  0 <= cpuno < CPU_SETSIZE /\ forall i, 0 <= i -> Z.testbit (cpu_mask cpuno) i = (i =? cpuno).
Proof.
  intros R K H. unfold reset_cpu_affinity, cpu_mask in *. destruct (_ <? _) eqn:E.
  - apply Z.ltb_lt in E. unfold wrapu, CPU_SETSIZE in *.
    assert (0 <= cpuno).
    { destruct (Z.leb_spec 0 cpuno); [done|]. exfalso.
      rewrite <- (Z.mod_add cpuno 1), Z.mod_small in E by lia. lia. }
    rewrite Z.mod_small in * by lia. split; [lia|]. intros i Hi.
    rewrite Z.shiftl_1_l, Z.pow2_bits_eqb by lia. apply Z.eqb_sym.
  - by rewrite K in H.
Qed.

Lemma affinity_one_cpu_witness :
  let k m := if m =? 0 then -1 else 0 in
  reset_cpu_affinity k 3 = true /\ forall i, 0 <= i -> Z.testbit (cpu_mask 3) i = (i =? 3).
Proof.
  intros k. split; [reflexivity|].
  apply (affinity_one_cpu k 3); [lia | reflexivity | reflexivity].
Defined.

(** ** [ref<T>]

    A pointer to an object of a store. *)

Section ref.
Context {T : Type}.

Record ref := mk_ref { m_ptr : nat }.

(** [ref(T &t)], [get()] (and the conversion), a write through [T &], and the
    defaulted assignment. *)
Definition ref_of (l : nat) : ref := mk_ref l.
Definition ref_get (s : list T) (r : ref) : option T := s !! m_ptr r.
Definition ref_write (v : T) (r : ref) (s : list T) : list T := <[m_ptr r := v]> s.
Definition ref_assign (this x : ref) : ref := x.

(** Assigning a [ref] makes it refer to the other object and leaves the one it
    referred to alone, unlike assigning through the reference it gives. *)
Lemma ref_assign_rebinds (s : list T) l l' v :
  l <> l' -> (l < length s)%nat ->
  ref_get s (ref_assign (ref_of l) (ref_of l')) = ref_get s (ref_of l') /\
  ref_get (ref_write v (ref_assign (ref_of l) (ref_of l')) s) (ref_of l) = ref_get s (ref_of l) /\
  ref_get (ref_write v (ref_of l) s) (ref_of l) = Some v.
Proof.
  intros N L. unfold ref_get, ref_write, ref_assign. simpl. split_and!; [done | |].
  - by rewrite list_lookup_insert_ne.
  - by rewrite list_lookup_insert_eq.
Qed.
End ref.
