(* ===== verification/Concepts.v ===== *)
(** * [include/awaitable.hpp] and [common/type_concepts.hpp]: the concepts

    What the concepts see of a type: its category, and for a class which of the
    awaiting members it has and what they return.  The three [get_awaiter]
    templates take the same parameter, so that the choice between them is by
    their constraints: the one that is more constrained than every other viable
    one, where one constraint is more constrained when it subsumes the other
    (every clause of its disjunctive normal form shares an atomic constraint with
    every clause of the other's conjunctive normal form).  A requires-expression is
    one atomic constraint. *)

From S2P Require Import Prelude.

(** ** Types *)

Inductive ty :=
| TVoid | TBool
| THandle (promise : nat)
| TObject (n : nat)
| TFunction (n : nat)
| TLRef (t : ty)
| TRRef (t : ty).

Definition void_type (t : ty) : bool := match t with TVoid => true | _ => false end.
Definition reference_type (t : ty) : bool := match t with TLRef _ | TRRef _ => true | _ => false end.
Definition function_type (t : ty) : bool := match t with TFunction _ => true | _ => false end.
Definition rvalue_reference (t : ty) : bool :=
  reference_type t && match t with TRRef _ => true | _ => false end.
Definition lvalue_reference (t : ty) : bool := reference_type t && negb (rvalue_reference t).
Definition value_type (t : ty) : bool :=
  negb (void_type t) && negb (reference_type t) && negb (function_type t).

(** [future_value] of [future.hpp]. *)
Definition future_value (t : ty) : bool := value_type t || void_type t.

Definition remove_reference (t : ty) : ty := match t with TLRef t | TRRef t => t | t => t end.

(** Every type is in exactly one of the categories. *)
Lemma categories_partition t :
  length (filter (fun p => p t = true)
    [void_type; function_type; lvalue_reference; rvalue_reference; value_type]) = 1.
Proof. by destruct t. Qed.

(** ** Awaiters *)

(** [await_ready] returning something convertible to bool, the return types of
    [await_suspend] and [await_resume], and the operators [co_await]. *)
Inductive class_ := mk_class {
  await_ready : bool;
  await_suspend : option ty;
  await_resume : option ty;
  free_co_await : option class_;
  member_co_await : option class_
}.

(** [details::is_coroutine_handle_v], as it is written. *)
Definition is_coroutine_handle_v (t : ty) : bool := match t with THandle _ => false | _ => true end.

Definition suspend_result (t : ty) : bool :=
  match t with TBool => true | _ => false end || match t with TVoid => true | _ => false end ||
  is_coroutine_handle_v t.

Definition awaiter (c : class_) : bool :=
  await_ready c &&
  match await_suspend c with Some t => suspend_result t | None => false end &&
  match await_resume c with Some _ => true | None => false end.

Definition returns_awaiter (o : option class_) : bool :=
  match o with Some a => awaiter a | None => false end.

Definition awaitable (c : class_) : bool :=
  awaiter c || returns_awaiter (free_co_await c) || returns_awaiter (member_co_await c).

(** [awaiter_of<A, T>] *)
Definition awaiter_of (t : ty) (c : class_) : Prop := awaiter c = true /\ await_resume c = Some t.

(** *** The language *)

(** [await_suspend] may return void, bool or a coroutine handle. *)
Definition lang_suspend (t : ty) : bool :=
  match t with TVoid | TBool | THandle _ => true | _ => false end.

Definition lang_awaiter (c : class_) : bool :=
  await_ready c &&
  match await_suspend c with Some t => lang_suspend t | None => false end &&
  match await_resume c with Some _ => true | None => false end.

(** The object that [co_await] awaits: the result of an operator if there is one,
    the operand otherwise; two operators are ambiguous. *)
Definition lang_choice (c : class_) : option class_ :=
  match member_co_await c, free_co_await c with
  | Some _, Some _ => None
  | Some a, None | None, Some a => Some a
  | None, None => Some c
  end.

(** ** Overload resolution by constraints *)

Inductive constraint := Atom (n : nat) | And (p q : constraint) | Or (p q : constraint).

(** Products of clauses. *)
Definition cross (xs ys : list (list nat)) : list (list nat) :=
  List.concat (List.map (fun x => List.map (app x) ys) xs).

Fixpoint dnf (p : constraint) : list (list nat) :=
  match p with
  | Atom n => [[n]]
  | Or p q => dnf p ++ dnf q
  | And p q => cross (dnf p) (dnf q)
  end.

Fixpoint cnf (p : constraint) : list (list nat) :=
  match p with
  | Atom n => [[n]]
  | And p q => cnf p ++ cnf q
  | Or p q => cross (cnf p) (cnf q)
  end.

Definition subsumes (p q : constraint) : bool :=
  forallb (fun x => forallb (fun y => existsb (fun a => existsb (Nat.eqb a) y) x) (cnf q)) (dnf p).

Definition more_constrained (p q : constraint) : bool := subsumes p q && negb (subsumes q p).

(** The atomic constraints: the requires-expressions of [awaiter], of the two
    operators in [awaitable], and of the second [get_awaiter]. *)
Definition c_awaiter : constraint := Atom 0.
Definition c_awaitable : constraint := Or (Or c_awaiter (Atom 1)) (Atom 2).
Definition c_member : constraint := And c_awaitable (Atom 3).

Definition satisfied (c : class_) (n : nat) : bool :=
  match n with
  | 0 => awaiter c
  | 1 => returns_awaiter (free_co_await c)
  | 2 => returns_awaiter (member_co_await c)
  | _ => match member_co_await c with Some _ => true | None => false end
  end.

Fixpoint holds (c : class_) (p : constraint) : bool :=
  match p with
  | Atom n => satisfied c n
  | And p q => holds c p && holds c q
  | Or p q => holds c p || holds c q
  end.

(** A call of an overload set: a candidate is chosen when it is viable and more
    constrained than every other viable one. *)
Inductive resolution := Chosen (i : nat) | Ambiguous | NoViable.

Definition resolve (c : class_) (cands : list constraint) : resolution :=
  let viable := List.filter (fun i => match cands !! i with Some p => holds c p | None => false end)
                  (seq 0 (length cands)) in
  let best i := forallb (fun j => (i =? j) ||
                  match cands !! i, cands !! j with
                  | Some p, Some q => more_constrained p q
                  | _, _ => false
                  end) viable in
  match viable, List.filter best viable with
  | [], _ => NoViable
  | _, [i] => Chosen i
  | _, _ => Ambiguous
  end.

Definition get_awaiter_constraints : list constraint := [c_awaiter; c_member; c_awaitable].

(** What [get_awaiter(t)] gives; [None] does not compile. *)
Definition get_awaiter (c : class_) : option class_ :=
  match resolve c get_awaiter_constraints with
  | Chosen 0 => Some c
  | Chosen 1 => member_co_await c
  | Chosen _ => free_co_await c
  | _ => None
  end.

(** [awaitable_traits] *)
Definition await_resume_t (c : class_) : option ty := a ← get_awaiter c; await_resume a.
Definition await_result_t (c : class_) : option ty := remove_reference <$> await_resume_t c.

(** The constraints order the three templates but the first two. *)
Lemma get_awaiter_order :
  more_constrained c_awaiter c_awaitable = true /\ more_constrained c_member c_awaitable = true /\
  more_constrained c_awaiter c_member = false /\ more_constrained c_member c_awaiter = false.
Proof. by vm_compute. Qed.

Lemma resolve_get_awaiter c :
  resolve c get_awaiter_constraints =
  if awaitable c then
    match awaiter c, member_co_await c with
    | true, Some _ => Ambiguous
    | true, None => Chosen 0
    | false, Some _ => Chosen 1
    | false, None => Chosen 2
    end
  else NoViable.
Proof.
  unfold resolve, get_awaiter_constraints, awaitable. cbn -[more_constrained awaiter].
  destruct (awaiter c) eqn:Ea, (member_co_await c) as [m|] eqn:Em, (free_co_await c) as [f|] eqn:Ef;
    cbn -[more_constrained awaiter]; try (by vm_compute);
    try destruct (awaiter m) eqn:Em'; try destruct (awaiter f) eqn:Ef'; by vm_compute.
Qed.

(** C19: [get_awaiter] against the language.  Where a type is awaitable in one
    way, it is the object that [co_await] awaits.  For a type that is an awaiter
    and also has a member operator the call is ambiguous; for one with a free
    operator it is the object itself, and the language awaits the operator's
    result; with both operators it is the member's, and [co_await] is ambiguous. *)
Theorem get_awaiter_agrees c :
  awaitable c = true ->
  match awaiter c, member_co_await c, free_co_await c with
  | false, Some a, Some _ => get_awaiter c = Some a /\ lang_choice c = None
  | true, Some _, _ => get_awaiter c = None
  | true, None, Some a => get_awaiter c = Some c /\ lang_choice c = Some a
  | _, _, _ => get_awaiter c = lang_choice c
  end.
Proof.
  intros H. unfold get_awaiter, lang_choice. rewrite resolve_get_awaiter, H.
  destruct (awaiter c) eqn:Ea, (member_co_await c) eqn:Em, (free_co_await c) eqn:Ef; try done.
  unfold awaitable in H. by rewrite Ea, Em, Ef in H.
Qed.

(** An awaiter with a free operator, as the library has none. *)
Lemma get_awaiter_agrees_witness :
  let a := mk_class true (Some TVoid) (Some (TObject 0)) None None in
  let c := mk_class true (Some TBool) (Some (TObject 1)) (Some a) None in
  get_awaiter c = Some c /\ lang_choice c = Some a.
Proof.
  exact (get_awaiter_agrees
    (mk_class true (Some TBool) (Some (TObject 1))
       (Some (mk_class true (Some TVoid) (Some (TObject 0)) None None)) None) eq_refl).
Defined.

(** The concept [awaiter] has the test for handles the wrong way round: of a
    class with the three members it accepts every return type of
    [await_suspend] but a coroutine handle, while the language accepts void,
    bool and coroutine handles. *)
Theorem awaiter_rejects_handles r s t :
  awaiter (mk_class true (Some s) (Some r) None t) =
    match s with THandle _ => false | _ => true end /\
  lang_awaiter (mk_class true (Some s) (Some r) None t) =
    match s with TVoid | TBool | THandle _ => true | _ => false end.
Proof. by destruct s. Qed.

(** ** The awaiters of the library *)

(** [future]'s awaiters, [io_awaiter], the counter's awaiter, [just], the
    resolver's and [schedule]'s, by the return type of [await_suspend]. *)
Definition library_awaiter (suspend : ty) (resume : ty) : class_ :=
  mk_class true (Some suspend) (Some resume) None None.

(** [operator co_await] of [future] and of [awaitable_counter] are members. *)
Definition library_awaitable (suspend resume : ty) : class_ :=
  mk_class false None None None (Some (library_awaiter suspend resume)).

(** They are all seen the same by the concept, by [get_awaiter] and by the
    language, and the traits give their result. *)
Lemma library_types_awaitable suspend resume :
  suspend = TVoid \/ suspend = TBool ->
  awaiter (library_awaiter suspend resume) = true /\
  get_awaiter (library_awaiter suspend resume) = lang_choice (library_awaiter suspend resume) /\
  get_awaiter (library_awaitable suspend resume) = lang_choice (library_awaitable suspend resume) /\
  await_result_t (library_awaitable suspend resume) = Some (remove_reference resume).
Proof. by intros [-> | ->]. Qed.

(** ** [common/match_template.hpp] and the concept [duration] of [time_delay.hpp] *)

(** Types as a template sees them: a class that is no specialisation, a
    specialisation, and the qualified and reference types. *)
Inductive cxx :=
| Class_ (n : nat)
| Applied (template : nat) (args : list nat)
| Const (t : cxx)
| LRef (t : cxx)
| RRef (t : cxx).

(** [is_match<TMP<T...>>] is true, [is_match<T>] false. *)
Definition is_match_template_v (template : nat) (t : cxx) : bool :=
  match t with Applied template' _ => (template =? template')%nat | _ => false end.

(** [std::chrono::duration] *)
Definition chrono_duration : nat := 0.
Definition duration (t : cxx) : bool := is_match_template_v chrono_duration t.

(** What [D] is deduced to for the parameter [D &&d], from the type of the
    argument, which is no reference, and its category. *)
Inductive category := LvalueArg | RvalueArg.
Definition deduced (c : category) (t : cxx) : cxx := match c with LvalueArg => LRef t | RvalueArg => t end.

(** [template <concepts::duration D> auto time_delay(D &&d)] *)
Definition time_delay_viable (c : category) (t : cxx) : bool := duration (deduced c t).

(** [time_delay] can only be called with a temporary: for a named duration, or a
    constant one, the deduced type is not a specialisation of
    [std::chrono::duration] and there is no viable function. *)
Theorem time_delay_temporaries_only c t :
  time_delay_viable c t = true <-> c = RvalueArg /\ exists args, t = Applied chrono_duration args.
Proof.
  split.
  - destruct c; [done|]. destruct t as [|k args| | |]; try done. unfold time_delay_viable, duration. simpl.
    destruct k; [|done]. intros _. split; [done | by exists args].
  - by intros [-> [args ->]].
Qed.
