(* ===== verification/Coroutines.v ===== *)
(** * Values through coroutines: [future.hpp], [just.hpp], [fmap.hpp],
    [flat_map.hpp], [details/task_with_callback.hpp], [when_all.hpp]

    How results and exceptions travel; [Awaiting] treats when coroutines are
    resumed.  An awaitable is the tree [co A] of what it does until it has a
    result: [Ret] ends with a value or an exception, [Wait op k] suspends for
    operation [op] and goes on with its result.  Two awaitables are equivalent
    when they do the same for every result. *)

From S2P Require Import Prelude.

Inductive outcome (A : Type) :=
| Value (a : A)
| Throw (e : nat).
Arguments Value {A} a.
Arguments Throw {A} e.

Inductive co (A : Type) :=
| Ret (r : outcome A)
| Wait (op : nat) (k : Z -> co A).
Arguments Ret {A} r.
Arguments Wait {A} op k.

(** ** [future_promise] *)

(** [std::variant<std::monostate, T, std::exception_ptr>] *)
Inductive variant (T : Type) := Monostate | HasValue (v : T) | HasException (e : nat).
Arguments Monostate {T}.
Arguments HasValue {T} v.
Arguments HasException {T} e.

Definition return_value {T} (v : T) (m_result : variant T) : variant T := HasValue v.
Definition unhandled_exception {T} (e : nat) (m_result : variant T) : variant T := HasException e.

(** [result()]: [None] is the failed [assert(has_value())]. *)
Definition promise_result {T} (m_result : variant T) : option (outcome T) :=
  match m_result with
  | HasException e => Some (Throw e)
  | HasValue v => Some (Value v)
  | Monostate => None
  end.

(** What a body that ends with [r] leaves in its promise. *)
Definition finish_body {T} (r : outcome T) : variant T :=
  match r with
  | Value v => return_value v Monostate
  | Throw e => unhandled_exception e Monostate
  end.

(** [future_promise<void>]: only an exception is kept; before the end of the
    body [result()] returns. *)
Definition void_return (m_exception : option nat) : option nat := m_exception.
Definition void_unhandled_exception (e : nat) (m_exception : option nat) : option nat := Some e.
Definition void_promise_result (m_exception : option nat) : outcome unit :=
  match m_exception with Some e => Throw e | None => Value tt end.
Definition finish_void_body (r : outcome unit) : option nat :=
  match r with
  | Value _ => void_return None
  | Throw e => void_unhandled_exception e None
  end.

(** A future hands on how its body ended, a value or the exception. *)
Lemma future_hands_on {T} (r : outcome T) (u : outcome unit) :
  promise_result (finish_body r) = Some r /\ void_promise_result (finish_void_body u) = u.
Proof. destruct r, u as [[]|]; done. Qed.

(** ** [co_await], [just], [fmap], [flat_map] *)

(** [co_await m] in a body that goes on with [k]; an exception ends the body. *)
Fixpoint co_await {A B} (m : co A) (k : A -> co B) : co B :=
  match m with
  | Ret (Value a) => k a
  | Ret (Throw e) => Ret (Throw e)
  | Wait op f => Wait op (fun z => co_await (f z) k)
  end.

Definition co_return {A} (a : A) : co A := Ret (Value a).

(** The awaiter of a [future]: the body runs, its promise keeps how it ended, and
    [await_resume] is [result()].  (A body that has ended leaves no
    [std::monostate], so the assertion of [result()] holds.) *)
Fixpoint future_of {A} (body : co A) : co A :=
  match body with
  | Ret r => match promise_result (finish_body r) with Some r => Ret r | None => body end
  | Wait op k => Wait op (fun z => future_of (k z))
  end.

(** An awaiter that waits for nothing itself: its [await_ready],
    [await_suspend] and [await_resume], and [co_await] on
    it, which is suspended for [op] unless it is ready or refuses to be. *)
Record plain_awaiter (A : Type) := mk_plain {
  pa_ready : bool; pa_suspend : bool; pa_resume : outcome A
}.
Arguments mk_plain {A}.
Arguments pa_ready {A}.
Arguments pa_suspend {A}.
Arguments pa_resume {A}.
Definition awaited {A} (op : nat) (w : plain_awaiter A) : co A :=
  if pa_ready w then Ret (pa_resume w)
  else if pa_suspend w then Wait op (fun _ => Ret (pa_resume w))
  else Ret (pa_resume w).

(** [just<T>] and [just<void>]. *)
Definition just_awaiter {A} (value : A) : plain_awaiter A := mk_plain true false (Value value).
Definition just {A} (a : A) : co A := awaited 0 (just_awaiter a).
Definition just_void : co unit := just tt.

(** [fmap_awaiter]: ready and suspended as the inner awaiter, and
    [await_resume] applies [fn], which may throw, to the inner result. *)
Fixpoint fmap_awaitable {A B} (m : co A) (fn : A -> outcome B) : co B :=
  match m with
  | Ret (Value a) => Ret (fn a)
  | Ret (Throw e) => Ret (Throw e)
  | Wait op f => Wait op (fun z => fmap_awaitable (f z) fn)
  end.

(** [flat_map_impl]: the coroutine [co_return co_await fn(co_await awaitable)] of
    type [future]. *)
Definition flat_map {A B} (m : co A) (fn : A -> co B) : co B :=
  future_of (co_await m (fun a => co_await (fn a) (fun b => co_return b))).

(** The overload for an awaitable of [void] *)
Definition flat_map_void {B} (m : co unit) (fn : co B) : co B :=
  future_of (co_await m (fun _ => co_await fn (fun b => co_return b))).

(** [await_resume] over an awaiter of [void]: [std::invoke(fn)]. *)
Definition fmap_void {B} (m : co unit) (fn : outcome B) : co B := fmap_awaitable m (fun _ => fn).

(** ** Equivalence *)

Inductive co_eq {A} : co A -> co A -> Prop :=
| eq_ret r : co_eq (Ret r) (Ret r)
| eq_wait op f g : (forall z, co_eq (f z) (g z)) -> co_eq (Wait op f) (Wait op g).

Infix "≈" := co_eq (at level 70).

#[export] Instance co_eq_equiv {A} : Equivalence (@co_eq A).
Proof.
  split.
  - intros m. induction m as [r | op k IH]; constructor; auto.
  - intros m n H. induction H; constructor; auto.
  - intros m n p H. revert p. induction H as [r | op f g H IH]; intros p Hp; [done|].
    inversion Hp; subst. constructor. intros z. by apply IH.
Qed.

#[export] Instance co_await_proper {A B} :
  Proper (co_eq ==> pointwise_relation A co_eq ==> co_eq) (@co_await A B).
Proof.
  intros m n H f g Hfg. induction H as [[a|e] | op u v H IH]; simpl;
    [apply Hfg | reflexivity | by constructor].
Qed.

Lemma co_await_ret {A} (m : co A) : co_await m co_return ≈ m.
Proof. induction m as [[a|e] | op k IH]; simpl; [reflexivity | reflexivity | by constructor]. Qed.

Lemma co_await_assoc {A B C} (m : co A) (f : A -> co B) (g : B -> co C) :
  co_await (co_await m f) g ≈ co_await m (fun a => co_await (f a) g).
Proof. induction m as [[a|e] | op k IH]; simpl; [reflexivity | reflexivity | by constructor]. Qed.

(** A future gives what its body gives. *)
Lemma future_of_body {A} (m : co A) : future_of m ≈ m.
Proof. induction m as [[a|e] | op k IH]; simpl; [reflexivity | reflexivity | by constructor]. Qed.

Lemma flat_map_await {A B} (m : co A) (fn : A -> co B) : flat_map m fn ≈ co_await m fn.
Proof.
  unfold flat_map. rewrite future_of_body. apply co_await_proper; [reflexivity|]. intros a. apply co_await_ret.
Qed.

#[export] Instance flat_map_proper {A B} :
  Proper (co_eq ==> pointwise_relation A co_eq ==> co_eq) (@flat_map A B).
Proof. intros m n H f g Hfg. rewrite !flat_map_await. by apply co_await_proper. Qed.

Lemma fmap_await {A B} (m : co A) (fn : A -> outcome B) :
  fmap_awaitable m fn ≈ co_await m (fun a => Ret (fn a)).
Proof. induction m as [[a|e] | op k IH]; simpl; [reflexivity | reflexivity | by constructor]. Qed.

(** [just<void>] is neutral: mapped or flat-mapped it is the function's call. *)
Lemma just_void_neutral {B} (fn : outcome B) (k : co B) :
  fmap_void just_void fn ≈ Ret fn /\ flat_map_void just_void k ≈ k.
Proof. split; [reflexivity|]. unfold flat_map_void. rewrite future_of_body. simpl. apply co_await_ret. Qed.

(** ** [task_with_callback] and [when_all] *)

(** The promise of a task: the yielded value, the exception. *)
Record task (T : Type) := mk_task { m_pointer : option T; m_exception : option nat }.
Arguments mk_task {T} _ _.
Arguments m_pointer {T} _.
Arguments m_exception {T} _.

Definition task_init {T} : task T := mk_task None None.

(** The body [co_yield co_await a]: the value is yielded, or the exception kept. *)
Definition complete_task {T} (r : outcome T) (t : task T) : task T :=
  match r with
  | Value v => mk_task (Some v) (m_exception t)
  | Throw e => mk_task (m_pointer t) (Some e)
  end.

(** [result()]; [None] dereferences a null pointer. *)
Definition task_result {T} (t : task T) : option (outcome T) :=
  match m_exception t with
  | Some e => Some (Throw e)
  | None => match m_pointer t with Some v => Some (Value v) | None => None end
  end.

(** [get_non_void()] of a task of [void]: no look at the exception. *)
Definition get_non_void_unit (t : task unit) : option (outcome unit) := Some (Value tt).

(** [for (auto &t : tasks) results.emplace_back(std::move(t.get()));] *)
Fixpoint collect {T} (ts : list (task T)) : option (outcome (list T)) :=
  match ts with
  | [] => Some (Value [])
  | t :: ts =>
      r ← task_result t;
      match r with
      | Throw e => Some (Throw e)
      | Value v =>
          r ← collect ts;
          Some (match r with Value l => Value (v :: l) | Throw e => Throw e end)
      end
  end.

(** The tasks complete one after the other, [order] naming them by position. *)
Definition complete_all {T} (rs : list (outcome T)) (order : list nat) (ts : list (task T))
  : list (task T) :=
  fold_left (fun ts i => match rs !! i, ts !! i with
                         | Some r, Some t => <[i := complete_task r t]> ts
                         | _, _ => ts
                         end) order ts.

(** [when_all] over a vector, from the start of the tasks to the result. *)
Definition when_all {T} (rs : list (outcome T)) (order : list nat) : option (outcome (list T)) :=
  collect (complete_all rs order (replicate (length rs) task_init)).

(** The overload for [void]: the results are not looked at. *)
Definition when_all_void (rs : list (outcome unit)) : outcome unit := Value tt.

(** What it should give: the values in order, or the first exception in order. *)
Fixpoint sequence {T} (rs : list (outcome T)) : outcome (list T) :=
  match rs with
  | [] => Value []
  | Throw e :: _ => Throw e
  | Value v :: rs => match sequence rs with Value l => Value (v :: l) | Throw e => Throw e end
  end.

Lemma complete_all_lookup {T} (rs : list (outcome T)) order ts i :
  NoDup order -> length ts = length rs ->
  (forall j, j ∈ order -> ts !! j = None \/ ts !! j = Some task_init) ->
  complete_all rs order ts !! i =
  if decide (i ∈ order) then match rs !! i with Some r => Some (complete_task r task_init) | None => None end
  else ts !! i.
Proof.
  intros Hd. revert ts. induction Hd as [|j order Hj Hd IH]; intros ts Hl Hi;
    unfold complete_all in *; cbn [fold_left].
  - rewrite decide_False; [done | apply not_elem_of_nil].
  - destruct (rs !! j) as [r|] eqn:Er.
    + destruct (lookup_lt_is_Some_2 ts j) as [t Ht]; [apply lookup_lt_Some in Er; lia|].
      assert (t = task_init) as -> by (destruct (Hi j ltac:(left)); congruence).
      rewrite Ht. rewrite IH.
      * destruct (decide (i = j)) as [->|Hne].
        { rewrite decide_False by done. rewrite (decide_True (P := j ∈ j :: order)) by left.
          rewrite list_lookup_insert_eq by (by eapply lookup_lt_Some). by rewrite Er. }
        rewrite list_lookup_insert_ne by done.
        destruct (decide (i ∈ order)); [rewrite decide_True by (by right); done|].
        rewrite decide_False; [done|]. by rewrite not_elem_of_cons.
      * by rewrite length_insert.
      * intros j' Hj'. rewrite list_lookup_insert_ne by (intros ->; done). apply Hi. by right.
    + rewrite IH; [|done|intros j' Hj'; apply Hi; by right].
      destruct (decide (i ∈ order)); [rewrite decide_True by (by right); done|].
      destruct (decide (i = j)) as [->|Hne].
      { rewrite decide_True by left. rewrite Er. apply lookup_ge_None in Er.
        by apply lookup_ge_None; lia. }
      rewrite decide_False; [done|]. by rewrite not_elem_of_cons.
Qed.

Lemma collect_complete {T} (rs : list (outcome T)) :
  collect (map (fun r => complete_task r task_init) rs) = Some (sequence rs).
Proof.
  induction rs as [|[v|e] rs IH]; simpl; [done | | done]. rewrite IH. simpl.
  by destruct (sequence rs).
Qed.

(** [when_all] does not depend on the order in which the tasks complete: for
    every order the result is the list of the values in the order of the
    awaitables, or the exception of the first awaitable that threw. *)
Theorem when_all_in_order {T} (rs : list (outcome T)) order :
  NoDup order -> (forall i, i < length rs -> i ∈ order) ->
  when_all rs order = Some (sequence rs).
Proof.
  intros Hd Hall. unfold when_all. rewrite <- (collect_complete rs). f_equal.
  apply list_eq. intros i. rewrite complete_all_lookup; [|done|by rewrite length_replicate|].
  - rewrite list_lookup_fmap. destruct (rs !! i) as [r|] eqn:E; simpl.
    + rewrite decide_True; [done|]. apply Hall. by eapply lookup_lt_Some.
    + case_decide; [done|]. apply lookup_ge_None. apply lookup_ge_None in E.
      rewrite length_replicate. lia.
  - intros j _. destruct (replicate (length rs) task_init !! j) eqn:E; [|by left].
    right. apply lookup_replicate in E as [-> _]. done.
Qed.

Lemma when_all_in_order_witness :
  when_all [Value 10; Value 20; Value 30] [2; 0; 1] = Some (Value [10; 20; 30]).
Proof.
  apply (when_all_in_order [Value 10; Value 20; Value 30] [2; 0; 1]).
  - repeat constructor; rewrite ?not_elem_of_cons; split_and?; try done; apply not_elem_of_nil.
  - intros i Hi. simpl in Hi. destruct i as [|[|[|]]]; [right; left | right; right; left | left | lia].
Defined.

(** The overloads for [void] report success when a task threw. *)
Lemma when_all_void_swallows e :
  when_all_void [Throw e] = Value tt /\
  get_non_void_unit (complete_task (Throw e) task_init) = Some (Value tt).
Proof. done. Qed.
