(* ===== verification/WhenAll.v ===== *)
(** * [include/when_all.hpp], [details/task_with_callback.hpp] and
    [details/await_counter.hpp] together

    The coroutine [when_all] makes a task for every awaitable, gives it the
    callback that counts it down, starts it and awaits the counter, which is two
    steps: [await_ready] and, if the count is not 0, [await_suspend].  The model
    is the frame of every task, the counter and the place of the coroutine.  A
    started task completes when its awaitable does, at once or at any later time,
    before or after the coroutine has awaited the counter; its final awaiter takes
    the callback out of the promise and calls it, and the callback of the last one
    resumes the coroutine, which collects the results.  Completions on the
    coroutine's own thread cannot come between the two steps of the await;
    completions on other threads can.  [notify_complete_one] is one step here; its
    own interleavings are those of [Awaiting.CounterProtocol]. *)

From S2P Require Import Prelude Coroutines.
From stdpp Require Import relations.

Section when_all.
Context {V : Type}.

(** ** Tasks *)

Inductive place := NotStarted | Waiting | Finished.

(** The frame of [make_when_all_wait_task(a)]: its promise and its place.
    [is_void] is the overload for awaitables without a value. *)
Record frame := mk_frame {
  is_void : bool;
  promise : task V;
  m_callback : bool;
  at_place : place
}.

Definition make_when_all_wait_task (void_ : bool) : frame := mk_frame void_ task_init false NotStarted.

Definition set_callback (f : frame) : frame := mk_frame (is_void f) (promise f) true (at_place f).
Definition start (f : frame) : frame := mk_frame (is_void f) (promise f) (m_callback f) Waiting.

(** The awaitable gave [r]: [co_yield] stores the value, [unhandled_exception] the
    exception; the overload for [void] only returns.  The final awaiter moves the
    callback out of the promise. *)
Definition finish (r : outcome V) (f : frame) : frame :=
  let p := match r with
           | Value _ => if is_void f then promise f else complete_task r (promise f)
           | Throw _ => complete_task r (promise f)
           end in
  mk_frame (is_void f) p false Finished.

(** [get_non_void()]: [None] is [void_t{}]. *)
Definition get_non_void (f : frame) : option (outcome (option V)) :=
  if is_void f then Some (Value None)
  else r ← task_result (promise f);
       Some (match r with Value v => Value (Some v) | Throw e => Throw e end).

(** The results in order, up to the first exception. *)
Fixpoint get_results (fs : list frame) : option (outcome (list (option V))) :=
  match fs with
  | [] => Some (Value [])
  | f :: fs =>
      r ← get_non_void f;
      match r with
      | Throw e => Some (Throw e)
      | Value v =>
          r ← get_results fs;
          Some (match r with Value l => Value (v :: l) | Throw e => Throw e end)
      end
  end.

(** ** The coroutine *)

Inductive action := SetCallback (i : nat) | Start (i : nat) | AwaitReady | AwaitSuspend.

#[export] Instance action_eq_dec : EqDecision action.
Proof. solve_decision. Defined.

(** [when_all_impl]: all callbacks, then all starts. *)
Definition tuple_body (n : nat) : list action :=
  List.map SetCallback (seq 0 n) ++ List.map Start (seq 0 n) ++ [AwaitReady; AwaitSuspend].

(** The overloads for a vector: one task after the other. *)
Definition vector_body (n : nat) : list action :=
  List.concat (List.map (fun i => [SetCallback i; Start i]) (seq 0 n)) ++ [AwaitReady; AwaitSuspend].

(** [ended]: the result, [Some None] when reading it dereferences a null pointer. *)
Record state := mk_state {
  frames : list frame;
  cnt : Z;
  continuation : bool;
  body : list action;
  ended : option (option (outcome (list (option V))))
}.

Definition init (kinds : list bool) (b : nat -> list action) : state :=
  mk_state (List.map make_when_all_wait_task kinds) (Z.of_nat (length kinds)) false
    (b (length kinds)) None.

Definition with_frame (i : nat) (g : frame -> frame) (s : state) : state :=
  mk_state (alter g i (frames s)) (cnt s) (continuation s) (body s) (ended s).

(** The coroutine after [co_await counter]. *)
Definition go_on (s : state) : state :=
  mk_state (frames s) (cnt s) (continuation s) [] (Some (get_results (frames s))).

(** [notify_complete_one()] *)
Definition notify_complete_one (s : state) : state :=
  let s' := mk_state (frames s) (wrapu 64 (cnt s - 1)) (continuation s) (body s) (ended s) in
  if (cnt s =? 1)%Z && continuation s then go_on s' else s'.

(** [co_await counter]: [await_ready()], which lets the coroutine go on without
    being suspended when the count is 0, *)
Definition await_ready (s : state) : state := if (cnt s =? 0)%Z then go_on s else s.

(** and [await_suspend(continuation)]. *)
Definition await_suspend (s : state) : state :=
  mk_state (frames s) (cnt s) true (body s) (ended s).

Definition act (a : action) (s : state) : state :=
  match a with
  | SetCallback i => with_frame i set_callback s
  | Start i => with_frame i start s
  | AwaitReady => await_ready s
  | AwaitSuspend => await_suspend s
  end.

(** The task of [i] completes with [r]. *)
Definition complete (i : nat) (r : outcome V) (s : state) : state :=
  match frames s !! i with
  | Some f => let s := with_frame i (finish r) s in
              if m_callback f then notify_complete_one s else s
  | None => s
  end.

(** What the awaitables give. *)
Variable rs : list (outcome V).

(** The steps when completions may happen on other threads ([elsewhere]) or only
    on the coroutine's own, which is then not in the middle of its await. *)
Inductive step (elsewhere : bool) (s : state) : state -> Prop :=
| step_body a b :
    body s = a :: b ->
    step elsewhere s (act a (mk_state (frames s) (cnt s) (continuation s) b (ended s)))
| step_complete i f r :
    frames s !! i = Some f -> at_place f = Waiting -> rs !! i = Some r ->
    elsewhere = true \/ body s <> [AwaitSuspend] ->
    step elsewhere s (complete i r s).

(** ** What it should give *)

Definition cell (k : bool) (r : outcome V) : outcome (option V) :=
  if k then Value None else match r with Value v => Value (Some v) | Throw e => Throw e end.

Definition expected (kinds : list bool) : outcome (list (option V)) :=
  sequence (zip_with cell kinds rs).

(** ** Invariant *)

(** A task that has not been started, with its callback flag. *)
Definition view (f : frame) : option bool :=
  match at_place f with NotStarted => Some (m_callback f) | _ => None end.

(** The body starts every task once, after it has its callback. *)
Fixpoint body_ok (b : list action) (vs : list (option bool)) : Prop :=
  match b with
  | [] => False
  | SetCallback i :: b => vs !! i = Some (Some false) /\ body_ok b (<[i := Some true]> vs)
  | Start i :: b => vs !! i = Some (Some true) /\ body_ok b (<[i := None]> vs)
  | AwaitReady :: b => b = [AwaitSuspend] /\ Forall (fun v => v = None) vs
  | AwaitSuspend :: _ => False
  end.

(** A frame and the result of its awaitable. *)
Definition frame_ok (f : frame) (r : outcome V) : Prop :=
  match at_place f with
  | NotStarted => promise f = task_init
  | Waiting => promise f = task_init /\ m_callback f = true
  | Finished => f = finish r (mk_frame (is_void f) task_init true Waiting)
  end.

Definition open_frame (f : frame) : nat := match at_place f with Finished => 0 | _ => 1 end.
Definition unfinished (fs : list frame) : nat := sum_list_with open_frame fs.

Record inv (kinds : list bool) (s : state) : Prop := {
  inv_kinds : List.map is_void (frames s) = kinds;
  inv_frames : Forall2 frame_ok (frames s) rs;
  inv_cnt : cnt s = Z.of_nat (unfinished (frames s));
  inv_small : (cnt s < 2 ^ 64)%Z;
  inv_place :
    match ended s with
    | Some r => body s = [] /\ cnt s = 0%Z /\ r = Some (expected kinds)
    | None => if continuation s
              then body s = [] /\ (0 < cnt s)%Z /\ Forall (fun v => v = None) (List.map view (frames s))
              else body_ok (body s) (List.map view (frames s)) \/
                   body s = [AwaitSuspend] /\ (0 < cnt s)%Z /\
                   Forall (fun v => v = None) (List.map view (frames s))
    end
}.

Lemma get_results_finished fs os :
  Forall2 frame_ok fs os -> unfinished fs = 0 ->
  get_results fs = Some (sequence (zip_with cell (List.map is_void fs) os)).
Proof.
  intros F. induction F as [|f r fs os Hf _ IH]; intros U; [done|].
  unfold unfinished, open_frame, frame_ok in *. simpl in U.
  destruct f as [k p c pl]. destruct pl; simpl in *; try lia. rewrite IH by lia.
  injection Hf as -> ->. unfold get_non_void. destruct k, r; simpl; try done;
    by destruct (sequence _).
Qed.

Lemma unfinished_insert fs i f f' :
  fs !! i = Some f -> unfinished (<[i := f']> fs) + open_frame f = unfinished fs + open_frame f'.
Proof. apply sum_list_with_insert. Qed.

(** Changing a frame without changing whether it is finished. *)
Lemma insert_frame kinds s i f f' r b vs :
  inv kinds s -> frames s !! i = Some f -> rs !! i = Some r ->
  is_void f' = is_void f -> frame_ok f' r -> open_frame f' = open_frame f ->
  ended s = None -> continuation s = false ->
  body_ok b vs -> vs = List.map view (<[i := f']> (frames s)) ->
  inv kinds (mk_state (<[i := f']> (frames s)) (cnt s) (continuation s) b (ended s)).
Proof.
  intros [Hk Hf Hc Hs _] Hi Hr Ev Hf' Eo He Hn Hb ->. split; cbn [frames cnt continuation body ended].
  - rewrite <- Hk. apply list_eq. intros j. rewrite !list_lookup_fmap.
    destruct (decide (j = i)) as [->|Hj]; [|by rewrite list_lookup_insert_ne].
    rewrite list_lookup_insert_eq by (by eapply lookup_lt_Some). rewrite Hi. simpl. by rewrite Ev.
  - rewrite <- (list_insert_id rs i r) by done. by apply Forall2_insert.
  - rewrite Hc. pose proof (unfinished_insert (frames s) i f f' Hi). lia.
  - done.
  - rewrite He, Hn. by left.
Qed.

(** The frame at the position the body speaks of. *)
Lemma view_lookup kinds s i b :
  inv kinds s -> List.map view (frames s) !! i = Some (Some b) ->
  exists f r, frames s !! i = Some f /\ rs !! i = Some r /\ at_place f = NotStarted /\
    m_callback f = b /\ promise f = task_init.
Proof.
  intros I. rewrite list_lookup_fmap. destruct (frames s !! i) as [f|] eqn:Hi; [|done].
  simpl. intros [= Hv]. destruct (Forall2_lookup_l _ _ _ _ _ (inv_frames _ _ I) Hi) as (r & Hr & Ok).
  exists f, r. unfold view in Hv. unfold frame_ok in Ok. destruct (at_place f); [|done..].
  by injection Hv as ->.
Qed.

Lemma when_all_map_view_insert fs i f : List.map view (<[i := f]> fs) = <[i := view f]> (List.map view fs).
Proof. apply list_fmap_insert. Qed.

Lemma act_inv kinds s a b :
  inv kinds s -> body s = a :: b ->
  inv kinds (act a (mk_state (frames s) (cnt s) (continuation s) b (ended s))).
Proof.
  intros I E. pose proof (inv_place _ _ I) as P. rewrite E in P.
  destruct (ended s) as [r|] eqn:He; [by destruct P|].
  destruct (continuation s) eqn:Hn; [by destruct P|]. destruct P as [P|([= -> ->] & C & Hv)]; cycle 1.
  { destruct I as [Hk Hf Hc Hs _]. by split. }
  destruct a as [i | i | | ]; simpl in P; [| | |done].
  - destruct P as [Hv Hb]. destruct (view_lookup _ _ _ _ I Hv) as (f & r & Hi & Hr & Pl & Cb & Pr).
    cbn [act with_frame frames cnt continuation body ended]. unfold with_frame. cbn.
    rewrite (alter_known _ _ _ _ Hi). rewrite <- Hn, <- He.
    eapply (insert_frame kinds s i f); [done | done | done | done | | | done | done | exact Hb |].
    + unfold frame_ok, set_callback. simpl. by rewrite Pl.
    + unfold open_frame, set_callback. simpl. by rewrite Pl.
    + rewrite when_all_map_view_insert. f_equal. unfold view, set_callback. simpl. by rewrite Pl.
  - destruct P as [Hv Hb]. destruct (view_lookup _ _ _ _ I Hv) as (f & r & Hi & Hr & Pl & Cb & Pr).
    unfold act, with_frame. cbn. rewrite (alter_known _ _ _ _ Hi). rewrite <- Hn, <- He.
    eapply (insert_frame kinds s i f); [done | done | done | done | | | done | done | exact Hb |].
    + unfold frame_ok, start. simpl. by rewrite Cb.
    + unfold open_frame, start. simpl. by rewrite Pl.
    + rewrite when_all_map_view_insert. done.
  - destruct P as [-> Hv]. destruct I as [Hk Hf Hc Hs _]. unfold act, await_ready. cbn.
    destruct (cnt s =? 0)%Z eqn:Ez; boolp.
    + split; cbn; try done. split_and!; [done | done |]. unfold expected. rewrite <- Hk.
      apply get_results_finished; [done | lia].
    + split; cbn; try done. right. split_and!; [done | lia | done].
Qed.

(** A waiting task is counted. *)
Lemma waiting_counted kinds s i f :
  inv kinds s -> frames s !! i = Some f -> at_place f = Waiting ->
  (0 < cnt s)%Z /\ ended s = None /\ m_callback f = true /\ promise f = task_init.
Proof.
  intros I Hi Pl. destruct (Forall2_lookup_l _ _ _ _ _ (inv_frames _ _ I) Hi) as (r & Hr & Ok).
  unfold frame_ok in Ok. rewrite Pl in Ok. destruct Ok as [Pr Cb].
  assert (C : (0 < cnt s)%Z).
  { rewrite (inv_cnt _ _ I). pose proof (unfinished_insert _ i f (finish r f) Hi) as U.
    unfold open_frame in U. rewrite Pl in U. simpl in U. lia. }
  split_and!; [done | | done | done].
  pose proof (inv_place _ _ I) as P. destruct (ended s); [destruct P as (_ & Z0 & _); lia | done].
Qed.

Lemma complete_inv kinds s i f r :
  inv kinds s -> frames s !! i = Some f -> at_place f = Waiting -> rs !! i = Some r ->
  body s <> [AwaitSuspend] -> inv kinds (complete i r s).
Proof.
  intros I Hi Pl Hr Hne. destruct (waiting_counted _ _ _ _ I Hi Pl) as (C & He & Cb & Pr).
  unfold complete, with_frame. rewrite Hi, Cb, (alter_known _ _ _ _ Hi).
  pose proof (unfinished_insert _ i f (finish r f) Hi) as U. unfold open_frame in U.
  rewrite Pl in U. simpl in U.
  destruct I as [Hk Hf Hc Hs P]. rewrite He in P.
  assert (Ef : finish r f = finish r (mk_frame (is_void f) task_init true Waiting)).
  { unfold finish. simpl. by rewrite Pr. }
  assert (Hk' : List.map is_void (<[i := finish r f]> (frames s)) = kinds).
  { rewrite <- Hk. rewrite (list_fmap_insert is_void). apply list_insert_id.
    rewrite list_lookup_fmap, Hi. done. }
  assert (Hf' : Forall2 frame_ok (<[i := finish r f]> (frames s)) rs).
  { rewrite <- (list_insert_id rs i r) by done. by apply Forall2_insert. }
  assert (Hv : List.map view (<[i := finish r f]> (frames s)) = List.map view (frames s)).
  { rewrite when_all_map_view_insert. apply list_insert_id. rewrite list_lookup_fmap, Hi.
    simpl. unfold view. by rewrite Pl. }
  unfold notify_complete_one. cbn [frames cnt continuation body ended].
  destruct (cnt s =? 1)%Z eqn:E1; boolp; [destruct (continuation s) eqn:Hn|]; cbn [andb].
  - split; cbn [frames cnt continuation body ended go_on]; try done; rewrite ?wrapu_small by lia; try lia.
    split_and!; [done | lia |]. unfold expected. rewrite <- Hk'.
    apply get_results_finished; [done | lia].
  - split; cbn [frames cnt continuation body ended go_on]; try done; rewrite ?wrapu_small by lia; try lia. rewrite He, Hv.
    destruct P as [P|(Bd & _)]; [by left | done].
  - split; cbn [frames cnt continuation body ended go_on]; try done; rewrite ?wrapu_small by lia; try lia. rewrite He, Hv.
    destruct (continuation s); [|destruct P as [P|(Bd & _)]; [by left | done]]. destruct P as (Bd & _ & P). split_and!; [done | lia | done].
Qed.

Lemma when_all_step_inv kinds s s' : inv kinds s -> step false s s' -> inv kinds s'.
Proof. intros I H. destruct H as [|i f r ? ? ? [?|?]]; [by apply act_inv | done | by eapply complete_inv]. Qed.

(** ** The bodies *)

Lemma starts_ok k n vs :
  length vs = (k + n)%nat -> (forall j, j < k -> vs !! j = Some None) ->
  (forall j, k <= j < k + n -> vs !! j = Some (Some true)) ->
  body_ok (List.map Start (seq k n) ++ [AwaitReady; AwaitSuspend]) vs.
Proof.
  revert k vs. induction n as [|n IH]; intros k vs L A B; cbn [seq List.map app body_ok].
  - split; [done|]. apply Forall_lookup. intros j v Hj. pose proof (lookup_lt_Some _ _ _ Hj).
    rewrite A in Hj by lia. congruence.
  - split; [apply B; lia|]. apply IH; [rewrite length_insert; lia | |].
    + intros j Hj. destruct (decide (j = k)) as [->|]; [apply list_lookup_insert_eq; lia|].
      rewrite list_lookup_insert_ne by done. apply A. lia.
    + intros j Hj. rewrite list_lookup_insert_ne by lia. apply B. lia.
Qed.

Lemma sets_ok k n vs b :
  length vs = (k + n)%nat -> (forall j, j < k -> vs !! j = Some (Some true)) ->
  (forall j, k <= j < k + n -> vs !! j = Some (Some false)) ->
  body_ok b (replicate (k + n) (Some true)) ->
  body_ok (List.map SetCallback (seq k n) ++ b) vs.
Proof.
  revert k vs. induction n as [|n IH]; intros k vs L A B H; cbn [seq List.map app body_ok].
  - replace vs with (replicate (k + 0) (Some true)); [done|]. apply replicate_as_Forall.
    split; [done|]. apply Forall_lookup. intros j v Hj. pose proof (lookup_lt_Some _ _ _ Hj).
    rewrite A in Hj by lia. congruence.
  - split; [apply B; lia|]. apply IH; [rewrite length_insert; lia | | |].
    + intros j Hj. destruct (decide (j = k)) as [->|]; [apply list_lookup_insert_eq; lia|].
      rewrite list_lookup_insert_ne by done. apply A. lia.
    + intros j Hj. rewrite list_lookup_insert_ne by lia. apply B. lia.
    + by replace (S k + n)%nat with (k + S n)%nat by lia.
Qed.

Lemma pairs_ok k n vs :
  length vs = (k + n)%nat -> (forall j, j < k -> vs !! j = Some None) ->
  (forall j, k <= j < k + n -> vs !! j = Some (Some false)) ->
  body_ok (List.concat (List.map (fun i => [SetCallback i; Start i]) (seq k n)) ++ [AwaitReady; AwaitSuspend]) vs.
Proof.
  revert k vs. induction n as [|n IH]; intros k vs L A B; cbn [seq List.map List.concat app body_ok].
  - split; [done|]. apply Forall_lookup. intros j v Hj. pose proof (lookup_lt_Some _ _ _ Hj).
    rewrite A in Hj by lia. congruence.
  - split; [apply B; lia|]. split; [apply list_lookup_insert_eq; lia|]. rewrite list_insert_insert_eq.
    apply IH; [rewrite length_insert; lia | |].
    + intros j Hj. destruct (decide (j = k)) as [->|]; [apply list_lookup_insert_eq; lia|].
      rewrite list_lookup_insert_ne by done. apply A. lia.
    + intros j Hj. rewrite list_lookup_insert_ne by lia. apply B. lia.
Qed.

(** Either overload. *)
Definition overload (tuple : bool) : nat -> list action := if tuple then tuple_body else vector_body.

Lemma overload_ok tuple n : body_ok (overload tuple n) (replicate n (Some false)).
Proof.
  assert (R : forall (x : option bool) j, 0 <= j < 0 + n -> replicate n x !! j = Some x)
    by (intros x j Hj; apply lookup_replicate_2; lia).
  destruct tuple; [apply (sets_ok 0) | apply (pairs_ok 0)];
    rewrite ?length_replicate; try done; try (intros j Hj; lia); try apply R.
  apply (starts_ok 0); rewrite ?length_replicate; try done; try (intros j Hj; lia); apply R.
Qed.

Lemma length_overload tuple n : length (overload tuple n) = (2 * n + 2)%nat.
Proof.
  destruct tuple; unfold overload, tuple_body, vector_body.
  - rewrite !length_app, !length_map, length_seq. simpl. lia.
  - rewrite length_app. simpl. enough (E : forall k, length (List.concat (List.map (fun i => [SetCallback i; Start i]) (seq k n))) = (2 * n)%nat) by (rewrite E; lia).
    induction n as [|n IH]; intros k; [done|]. simpl. rewrite IH. lia.
Qed.

Lemma when_all_init_inv kinds tuple :
  length kinds = length rs -> (Z.of_nat (length rs) < 2 ^ 64)%Z ->
  inv kinds (init kinds (overload tuple)).
Proof.
  intros L Hs. split; cbn [frames cnt continuation body ended init].
  - rewrite map_map. apply map_id.
  - revert L. clear. revert rs. induction kinds as [|k kinds IH]; intros [|r os] L; try done.
    constructor; [done|]. apply IH. simpl in L. lia.
  - f_equal. unfold unfinished. clear. induction kinds as [|k kinds IH]; [done|].
    cbn [List.map sum_list_with fmap list_fmap]. simpl. by f_equal.
  - lia.
  - rewrite map_map. replace (List.map _ kinds) with (replicate (length kinds) (Some false)).
    + left. apply overload_ok.
    + clear. induction kinds as [|k kinds IH]; [done|]. simpl. by f_equal.
Qed.

(** ** Progress and termination *)

Definition left_to_do (s : state) : nat := length (body s) + unfinished (frames s).

Lemma when_all_step_decreases kinds s s' : inv kinds s -> step false s s' -> left_to_do s' < left_to_do s.
Proof.
  intros I H. unfold left_to_do. destruct H as [a b E | i f r Hi Pl Hr Hn].
  - pose proof (inv_place _ _ I) as P. rewrite E in *.
    destruct (ended s); [by destruct P|]. destruct (continuation s); [by destruct P|].
    destruct P as [P|([= -> ->] & _ & _)]; cycle 1.
    { cbn [act await_suspend frames body]. simpl. lia. }
    destruct a as [i|i| |]; simpl in P; [| | |done].
    1,2: destruct P as [Hv _]; destruct (view_lookup _ _ _ _ I Hv) as (f & r & Hi & Hr & Pl & _ & _);
      cbn [act with_frame frames body]; rewrite (alter_known _ _ _ _ Hi).
    + pose proof (unfinished_insert _ i f (set_callback f) Hi) as U. unfold open_frame in U.
      simpl in U. rewrite Pl in U. simpl. lia.
    + pose proof (unfinished_insert _ i f (start f) Hi) as U. unfold open_frame in U.
      simpl in U. rewrite Pl in U. simpl. lia.
    + unfold act, await_ready. cbn [cnt]. destruct (cnt s =? 0)%Z; cbn [go_on frames body]; simpl; lia.
  - destruct (waiting_counted _ _ _ _ I Hi Pl) as (_ & _ & Cb & _).
    pose proof (unfinished_insert _ i f (finish r f) Hi) as U. unfold open_frame in U.
    rewrite Pl in U. simpl in U.
    unfold complete, with_frame, notify_complete_one. rewrite Hi, Cb, (alter_known _ _ _ _ Hi).
    cbn [frames cnt continuation body ended]. destruct (_ && _); cbn [go_on frames body]; simpl; lia.
Qed.

Lemma unfinished_frame fs :
  0 < unfinished fs -> exists i f, fs !! i = Some f /\ at_place f <> Finished.
Proof.
  induction fs as [|f fs IH]; unfold unfinished; simpl; [lia|]. intros H.
  unfold open_frame in H at 1. destruct (at_place f) eqn:E.
  1,2: exists 0, f; split; [done | congruence].
  destruct IH as (i & g & Hi & Hg); [done|]. exists (S i), g. done.
Qed.

Lemma when_all_step_possible kinds s :
  inv kinds s -> length (frames s) = length rs -> ended s = None -> exists s', step false s s'.
Proof.
  intros I L He. pose proof (inv_place _ _ I) as P. rewrite He in P.
  destruct (body s) as [|a b] eqn:E; [|by eexists; eapply step_body].
  destruct (continuation s); [|by destruct P as [?|[? _]]]. destruct P as (_ & C & Hv).
  destruct (unfinished_frame (frames s)) as (i & f & Hi & Hf); [rewrite (inv_cnt _ _ I) in C; lia|].
  assert (view f = None) as V0.
  { rewrite Forall_lookup in Hv. apply (Hv i). rewrite list_lookup_fmap, Hi. done. }
  destruct (lookup_lt_is_Some_2 rs i) as [r Hr]; [rewrite <- L; by eapply lookup_lt_Some|].
  eexists. eapply step_complete; [done | | done | right; by rewrite E].
  unfold view in V0. by destruct (at_place f).
Qed.

Lemma no_step_after kinds s r : inv kinds s -> ended s = Some r -> forall s', ~ step false s s'.
Proof.
  intros I He s' H. pose proof (inv_place _ _ I) as P. rewrite He in P. destruct P as (B & C & _).
  destruct H as [a b E | i f r' Hi Pl Hr Hn]; [by rewrite B in E|].
  destruct (waiting_counted _ _ _ _ I Hi Pl) as (C' & _). lia.
Qed.

Lemma nsteps_inv kinds n s s' :
  inv kinds s -> nsteps (step false) n s s' -> inv kinds s' /\ n + left_to_do s' <= left_to_do s.
Proof.
  intros I H. induction H as [s|n s s1 s' H1 _ IH]; [split; [done | lia]|].
  destruct IH as [I' L]; [by eapply when_all_step_inv|]. split; [done|].
  pose proof (when_all_step_decreases _ _ _ I H1). lia.
Qed.
End when_all.

(** C11: [when_all] waits for all and returns, provided the awaitables complete on
    the coroutine's own thread: whichever overload, and whenever the awaitables
    complete (at once, while others are being started, or after the coroutine was
    suspended, in any order), an execution takes at most three steps per awaitable
    and two more, does not stop before the coroutine has gone on, and goes on only
    after the last completion, exactly once, with the results in the order of the
    awaitables, [void_t] for those without a value (also when they threw), or the
    first exception in that order.  [when_all_hangs] shows that the condition on
    the thread is needed. *)
Theorem when_all_completes {V} (rs : list (outcome V)) kinds tuple n s :
  length kinds = length rs -> (Z.of_nat (length rs) < 2 ^ 64)%Z ->
  nsteps (step rs false) n (init kinds (overload tuple)) s ->
  n <= 3 * length rs + 2 /\
  match ended s with
  | None => exists s', step rs false s s'
  | Some r => r = Some (expected rs kinds) /\ unfinished (frames s) = 0 /\
              forall s', ~ step rs false s s'
  end.
Proof.
  intros L Hs R. pose proof (when_all_init_inv rs kinds tuple L Hs) as I0.
  destruct (nsteps_inv rs kinds n _ s I0 R) as [I B]. split.
  - pose proof (inv_cnt _ _ _ I0) as C. unfold left_to_do in B.
    cbn [body frames cnt init] in *. rewrite length_overload in B. lia.
  - destruct (ended s) as [r|] eqn:He.
    + pose proof (inv_place _ _ _ I) as P. rewrite He in P. destruct P as (_ & C & ->).
      split_and!; [done | rewrite (inv_cnt _ _ _ I) in C; lia | by eapply no_step_after].
    + apply (when_all_step_possible _ kinds); [done | | done].
      pose proof (Forall2_length _ _ _ (inv_frames _ _ _ I)). done.
Qed.

(** The second of two awaitables has no value and throws; it completes first. *)
Lemma when_all_completes_witness :
  let rs : list (outcome nat) := [Value 7; Throw 1] in
  exists s, nsteps (step rs false) 8 (init [false; true] (overload true)) s /\
    ended s = Some (Some (Value [Some 7; None])) /\ 8 <= 3 * length rs + 2 /\ unfinished (frames s) = 0.
Proof.
  intros rs. assert (R : exists s, nsteps (step rs false) 8 (init [false; true] (overload true)) s /\
    ended s = Some (Some (Value [Some 7; None]))).
  { eexists. split.
    - do 4 (eapply nsteps_l; [by eapply step_body|]).
      eapply nsteps_l; [eapply (step_complete _ _ _ 1); [done.. | by right]|].
      do 2 (eapply nsteps_l; [by eapply step_body|]).
      eapply nsteps_l; [eapply (step_complete _ _ _ 0); [done.. | by right]|]. apply nsteps_O.
    - reflexivity. }
  destruct R as (s & R & E). exists s.
  destruct (when_all_completes rs [false; true] true 8 s eq_refl ltac:(simpl; lia) R) as [B H].
  rewrite E in H. destruct H as (_ & U & _). by split_and!.
Defined.

(** With completions on other threads the coroutine can hang, even for one
    awaitable: the completion comes after [await_ready] has seen the count and
    before [await_suspend] has stored the continuation, finds no continuation, and
    the coroutine is suspended with nothing left that could resume it. *)
Theorem when_all_hangs {V} (r : outcome V) k tuple :
  exists s, rtc (step [r] true) (init [k] (overload tuple)) s /\
    cnt s = 0%Z /\ continuation s = true /\ ended s = None /\ forall s', ~ step [r] true s s'.
Proof.
  eexists. split.
  - destruct tuple.
    all: do 3 (eapply rtc_l; [by eapply step_body|]; simpl).
    all: eapply rtc_l; [eapply (step_complete _ _ _ 0); [done.. | by left]|].
    all: eapply rtc_l; [by eapply step_body|]; apply rtc_refl.
  - split_and!; [done.. |]. intros s' H. destruct H as [a b E | [|i] f r' Hi Pl Hr _]; [done | | done].
    simplify_eq/=.
Qed.
