(* ===== verification/SyncRun.v ===== *)
(** * [include/sync_wait.hpp] over [common/atomic_wait.hpp]

    [sync_wait] makes a task for the awaitable, gives it the callback
    [notice_fin], starts it, waits for [flag] and takes the task's result.  Here
    the wait and the notification are those of [AtomicWait], by any strategy:
    thread 0 of its world is the waiting thread, thread 1 is whoever completes
    the awaitable and so runs the callback (the waiting thread itself when the
    awaitable completes at once: then thread 1 moves before thread 0 does).  The
    task is a frame of [WhenAll]; it has its callback and has been started.

    [sync_wait] returns [decltype(task.get())], a reference.  What it refers to
    depends on [await_resume()] of the awaitable: a value it returns by value is
    materialised in the frame of the task, a local variable of [sync_wait]; a
    reference it returns refers to an object outside that frame. *)

From S2P Require Import Prelude Coroutines WhenAll AtomicWait.
From stdpp Require Import relations.
Local Open Scope Z_scope.

Section sync_wait.
Context {V : Type}.
Variable st : strategy.

(** What [await_resume()] returns: nothing, a value, or a reference. *)
Inductive resume_kind := NoValue | ByValue | ByReference.

(** Where the object is that [promise.m_pointer] points to. *)
Inductive address := InFrame | Outside.

(** The awaitable gives [r]. *)
Variable kind : resume_kind.
Variable r : outcome V.

Definition is_void_ : bool := match kind with NoValue => true | _ => false end.
Definition home : address := match kind with ByReference => Outside | _ => InFrame end.

(** What the coroutine sees of [r]: [yield_value(val)] takes the address of it. *)
Definition yielded : outcome address :=
  match r with Value _ => Value home | Throw e => Throw e end.

(** [task.get()]: [promise::result()]; [None] dereferences a null pointer. *)
Definition get (f : frame (V := address)) : option (outcome (option address)) :=
  match m_exception (promise f) with
  | Some e => Some (Throw e)
  | None => if is_void f then Some (Value None)
            else a ← m_pointer (promise f); Some (Value (Some a))
  end.

(** [frame_obj] and [outside_obj]: the objects at the two addresses while they
    live.  [returned]: what [sync_wait] returned. *)
Record state := mk_state {
  the_task : frame (V := address);
  frame_obj : option V;
  outside_obj : option V;
  flag_world : world;
  returned : option (option (outcome (option address)))
}.

(** Reading through a reference; [None] reads an object that does not exist. *)
Definition deref (a : address) (s : state) : option V :=
  match a with InFrame => frame_obj s | Outside => outside_obj s end.

(** [make_sync_wait] goes on with what the awaitable gave. *)
Definition finish_sync_wait (s : state) : state :=
  let v := match r with Value v => Some v | Throw _ => None end in
  mk_state (finish yielded (the_task s))
    (match kind with ByValue => v | _ => frame_obj s end)
    (match kind with ByReference => v | _ => outside_obj s end)
    (flag_world s) (returned s).

Definition with_flag (w : world) (s : state) : state :=
  mk_state (the_task s) (frame_obj s) (outside_obj s) w (returned s).

(** [return task.get()]: the reference is made, then [~task_with_callback()]
    destroys the frame and what is in it. *)
Definition return_get (s : state) : state :=
  mk_state (the_task s) None (outside_obj s) (flag_world s) (Some (get (the_task s))).

(** [flag] is false; the callback will store true and notify all. *)
Definition flag_threads : list thread := [Waiter 0 WFirst; Notifier false [Some 1] NStore].

Definition init : state :=
  mk_state (WhenAll.start (WhenAll.set_callback (make_when_all_wait_task is_void_))) None None
    (AtomicWait.start 0 flag_threads) None.

Definition waiter_back (w : world) : bool :=
  match threads w !! 0%nat with Some (Waiter _ (WReturned _)) => true | _ => false end.

Inductive step (s : state) : state -> Prop :=
| completes :
    at_place (the_task s) = Waiting -> step s (finish_sync_wait s)
| waiter_moves j w :
    step_at st 0 j (flag_world s) = Some w -> step s (with_flag w s)
| waiter_times_out w :
    timeout_at st 0 (flag_world s) = Some w -> step s (with_flag w s)
| callback_moves j w :
    at_place (the_task s) = Finished -> step_at st 1 j (flag_world s) = Some w ->
    step s (with_flag w s)
| gets :
    waiter_back (flag_world s) = true -> returned s = None -> step s (return_get s).

(** What [sync_wait] should return: the exception, also of an awaitable without a
    value, nothing, or a reference to what the awaitable gave. *)
Definition given : outcome (option address) :=
  match r with Throw e => Throw e | Value _ => Value (if is_void_ then None else Some home) end.

(** The object it refers to, when [sync_wait] has returned ([back]) or not yet. *)
Definition referred (back : bool) : option V :=
  match r, kind with
  | Value v, ByReference => Some v
  | Value v, ByValue => if back then None else Some v
  | _, _ => None
  end.

(** ** Invariant *)

(** The flag is set exactly when the callback has stored it, and the waiter is not
    back before. *)
Definition pair_inv (w : world) : Prop :=
  exists pc todo np, threads w = [Waiter 0 pc; Notifier false todo np] /\
    ((todo = [Some 1] /\ np = NStore /\ value w = 0 /\ forall x, pc <> WReturned x) \/
     (todo = [] /\ value w = 1)).

Definition callback_left (w : world) : bool :=
  match threads w !! 1%nat with Some (Notifier _ (_ :: _) _) => true | _ => false end.

Definition is_back (s : state) : bool := match returned s with Some _ => true | None => false end.

Record sync_inv (s : state) : Prop := {
  si_world : rtc (step_timed st) (AtomicWait.start 0 flag_threads) (flag_world s);
  si_pair : pair_inv (flag_world s);
  si_task : the_task s = mk_frame is_void_ task_init true Waiting \/
            the_task s = finish yielded (mk_frame is_void_ task_init true Waiting) /\
            deref home s = referred (is_back s);
  si_order : at_place (the_task s) = Waiting -> callback_left (flag_world s) = true;
  si_start : at_place (the_task s) = Waiting -> frame_obj s = None /\ outside_obj s = None;
  si_result : returned s = None \/
    returned s = Some (Some given) /\ at_place (the_task s) = Finished
}.

Lemma get_given : get (finish yielded (mk_frame is_void_ task_init true Waiting)) = Some given.
Proof. unfold get, given, yielded. by destruct r, is_void_. Qed.

Lemma pair_waiter w j w' :
  pair_inv w -> step_at st 0 j w = Some w' -> pair_inv w' /\ callback_left w' = callback_left w.
Proof.
  intros (pc & todo & np & E & H) S.
  apply step_at_inv in S as [(v & p & p' & w1 & Ei & S & ->)|(one & t & t' & p & p' & w1 & Ei & _)];
    rewrite E in Ei; [|done]. injection Ei as <- <-.
  pose proof (step_waiter_threads _ _ _ _ _ _ _ S) as Et.
  pose proof (step_waiter_value _ _ _ _ _ _ _ S) as Ev.
  unfold callback_left, pair_inv, put, set_threads. cbn [threads value]. rewrite Et, E. cbn. split; [|done].
  exists p', todo, np. split; [done|]. destruct H as [(-> & -> & Hv & Hp) | (-> & Hv)]; [left | right];
    rewrite Ev; split_and!; try done. intros x ->.
  destruct pc; cbn in S; rewrite ?Hv in S; cbn in S; repeat (case_match; simplify_eq/=).
  all: by destruct st as [[]| | |].
Qed.

Lemma pair_timeout w w' :
  pair_inv w -> timeout_at st 0 w = Some w' -> pair_inv w' /\ callback_left w' = callback_left w.
Proof.
  intros (pc & todo & np & E & H) S. unfold timeout_at in S. rewrite E in S. cbn in S.
  destruct (timeout st pc) as [p'|] eqn:T; simplify_eq/=.
  unfold callback_left, pair_inv, put, set_threads. cbn [threads value]. rewrite E. cbn. split; [|done].
  exists p', todo, np. split; [done|]. destruct H as [(-> & -> & Hv & Hp) | (-> & Hv)]; [left | by right].
  split_and!; try done. intros x ->. by destruct st, pc.
Qed.

Lemma pair_callback w j w' :
  pair_inv w -> step_at st 1 j w = Some w' -> pair_inv w' /\ value w' = 1.
Proof.
  intros (pc & todo & np & E & H) S.
  apply step_at_inv in S as [(v & p & p' & w1 & Ei & _)|(one & t & t' & p & p' & w1 & Ei & S & ->)];
    rewrite E in Ei; [done|]. injection Ei as <- <- <-.
  assert (Et : exists pc', threads w1 = [Waiter 0 pc'; Notifier false todo np]).
  { destruct (step_notifier_threads _ _ _ _ _ _ _ _ _ _ S) as [->|[->|(Hf & _)]]; [| |done].
    - eauto.
    - rewrite E. cbn. destruct pc; cbn; eauto. }
  destruct Et as [pc' Et]. unfold pair_inv, put, set_threads. cbn [threads value]. rewrite Et. cbn.
  assert (Ht : t' = [] /\ value w1 = 1).
  { destruct H as [(-> & -> & Hv & Hp) | (-> & Hv)]; [by cbn in S; simplify_eq/=|].
    destruct np; cbn in S; simplify_eq/=; try done; by repeat (case_match; simplify_eq/=). }
  destruct Ht as [-> Hv]. split; [|done]. exists pc', [], p'. split; [done | by right].
Qed.

Lemma back_set w : pair_inv w -> waiter_back w = true -> callback_left w = false.
Proof.
  intros (pc & todo & np & E & H) B. unfold waiter_back, callback_left in *. rewrite E in *. cbn in *.
  destruct pc; try done. destruct H as [(_ & _ & _ & Hp) | (-> & _)]; [by destruct (Hp seen) | done].
Qed.

Lemma sync_init_inv : sync_inv init.
Proof.
  split; [done | | by left | done | done | by left].
  eexists _, _, _. split; [done|]. left. by split_and!.
Qed.

Lemma sync_step_inv s s' : sync_inv s -> step s s' -> sync_inv s'.
Proof.
  intros [W P T O Z R] H.
  destruct H as [Hp | j w S | w S | j w Hp S | B N].
  - destruct T as [E | [E _]]; [|by rewrite E in Hp].
    destruct R as [R|[_ R]]; [|by rewrite R in Hp]. destruct (Z Hp) as [Zf Zo].
    split; cbn [finish_sync_wait the_task flag_world returned frame_obj outside_obj]; try done; [|by left].
    right. rewrite E. split; [done|]. unfold deref, home, referred, is_back.
    cbn [finish_sync_wait returned frame_obj outside_obj]. rewrite R.
    destruct kind, r; cbn; by rewrite ?Zf, ?Zo.
  - destruct (pair_waiter _ _ _ P S) as [P' E]. split; try done; cbn; [|by rewrite E].
    eapply rtc_r; [done|]. left. by exists 0%nat, j.
  - destruct (pair_timeout _ _ P S) as [P' E]. split; try done; cbn; [|by rewrite E].
    eapply rtc_r; [done|]. right. by exists 0%nat.
  - destruct (pair_callback _ _ _ P S) as [P' E]. split; try done; cbn; [|by rewrite Hp].
    eapply rtc_r; [done|]. left. by exists 1%nat, j.
  - pose proof (back_set _ P B) as C.
    destruct T as [E | [E D]]; [rewrite E in O; by rewrite O in C|].
    split; cbn [return_get the_task flag_world returned frame_obj outside_obj]; try done.
    + right. split; [done|]. unfold deref, referred, is_back in *. rewrite N in D.
      cbn [return_get returned frame_obj outside_obj]. unfold home in *. by destruct kind, r.
    + by rewrite E.
    + right. rewrite E. by rewrite get_given.
Qed.

Lemma sync_reach_inv s : rtc step init s -> sync_inv s.
Proof.
  intros R. assert (I : sync_inv init) by apply sync_init_inv. revert I.
  induction R as [|a b c H _ IH]; intros I; [done|]. by eapply IH, sync_step_inv.
Qed.

(** ** After the callback *)

(** The callback has run to its end. *)
Definition callback_done (s : state) : Prop :=
  at_place (the_task s) = Finished /\
  threads (flag_world s) !! 1%nat = Some (Notifier false [] NStore).

Lemma done_notified s : sync_inv s -> callback_done s -> notified (flag_world s) /\ changed (flag_world s).
Proof.
  intros [W (pc & todo & np & E & H) T O Z R] [_ D]. rewrite E in D. cbn in D. injection D as -> ->.
  destruct H as [(? & _) | (_ & Hv)]; [done|].
  split; intros [|[|i]] th Hi; rewrite E in Hi; simplify_eq/=; try done. by rewrite Hv.
Qed.

Lemma flag_polite : polite (shape <$> flag_threads).
Proof. left. apply (bool_decide_unpack _). by vm_compute. Qed.

Lemma flag_initial : all_ok initial flag_threads.
Proof. intros [|[|i]] th Hi; simpl in Hi; by simplify_eq/=. Qed.

Lemma sync_world_inv s : sync_inv s -> inv st 0 (flag_world s).
Proof.
  intros [W _ _ _ _ _]. by destruct (wait_reach_inv st _ _ W (wait_start_inv st 0 _ flag_initial) flag_polite).
Qed.

(** The callback can move, has run to its end, or finds the mutex taken. *)
Lemma callback_moves_at w todo np :
  threads w !! 1%nat = Some (Notifier false todo np) ->
  (exists w', step_at st 1 0 w = Some w') \/ (todo = [] /\ np = NStore) \/
  (np = KLock /\ exists k, mutex w = Some k).
Proof.
  intros Hi. unfold step_at. rewrite Hi. simpl.
  destruct np; simpl; eauto; [destruct todo; simpl; eauto|].
  destruct (mutex w) eqn:E; simpl; eauto.
Qed.

(** Whoever holds the mutex is not the one that asks for it. *)
Lemma holder_is w k :
  inv st 0 w -> mutex w = Some k -> st = Condvar ->
  exists th, threads w !! k = Some th /\ holds th = true.
Proof. intros [_ I] Hk E. rewrite E in I. destruct I as [[_ H] _]. by apply H. Qed.

Lemma lock_condvar w i v pc :
  inv st 0 w -> threads w !! i = Some (Waiter v pc) -> pc = CLock \/ pc = CRelock -> st = Condvar.
Proof. intros [B _] Hi Hl. destruct (B _ _ Hi) as [Hok _]. destruct Hl as [-> | ->]; by destruct st as [[]| | |]. Qed.

Lemma klock_condvar w i one todo :
  inv st 0 w -> threads w !! i = Some (Notifier one todo KLock) -> st = Condvar.
Proof. intros [B _] Hi. specialize (B _ _ Hi). simpl in B. by destruct st as [[]| | |]. Qed.

Lemma world_progress s :
  sync_inv s -> at_place (the_task s) = Finished ->
  waiter_back (flag_world s) = true \/
  (exists w, step_at st 0 0 (flag_world s) = Some w) \/ (exists w, timeout_at st 0 (flag_world s) = Some w) \/
  (exists w, step_at st 1 0 (flag_world s) = Some w).
Proof.
  intros I F. pose proof (sync_world_inv s I) as J.
  destruct (si_pair _ I) as (pc & todo & np & E & _).
  assert (E0 : threads (flag_world s) !! 0%nat = Some (Waiter 0 pc)) by by rewrite E.
  assert (E1 : threads (flag_world s) !! 1%nat = Some (Notifier false todo np)) by by rewrite E.
  destruct (waiter_moves_at st _ _ _ _ E0) as [[x Hx]|[Hp|[?|[Hl [k Hk]]]]]; [| |by auto|].
  - left. unfold waiter_back. rewrite E0. by rewrite Hx.
  - destruct (callback_moves_at _ _ _ E1) as [?|[[Ht Hn]|[Hn [k Hk]]]]; [by auto| |].
    + subst. destruct (done_notified s I (conj F E1)) as [N C].
      pose proof (quiet_awake st _ _ _ _ J N C E0) as Hs.
      right; right; left. unfold timeout_at. rewrite E0, Hs. simpl. eauto.
    + exfalso. subst. pose proof (klock_condvar _ _ _ _ J E1) as Hs.
      destruct (holder_is _ _ J Hk Hs) as (th & Hth & Hh). rewrite E in Hth.
      destruct k as [|[|k]]; simplify_eq/=.
  - pose proof (lock_condvar _ _ _ _ J E0 Hl) as Hs.
    destruct (holder_is _ _ J Hk Hs) as (th & Hth & Hh). rewrite E in Hth.
    destruct k as [|[|k]]; simplify_eq/=; [by destruct Hl; subst|].
    destruct (callback_moves_at _ _ _ E1) as [?|[[_ ->]|[-> _]]]; [by auto | done | done].
Qed.

Lemma sync_progress s : sync_inv s -> returned s = None -> exists s', step s s'.
Proof.
  intros I N. destruct (si_task _ I) as [T | [T _]]; [eexists; apply completes; by rewrite T|].
  assert (F : at_place (the_task s) = Finished) by by rewrite T.
  destruct (world_progress s I F) as [?|[[w ?]|[[w ?]|[w ?]]]]; eexists.
  - by apply gets.
  - by eapply waiter_moves.
  - by eapply waiter_times_out.
  - by eapply callback_moves.
Qed.

(** ** Termination *)

Definition sync_left (s : state) : nat :=
  steps_left (flag_world s) + match returned s with None => 1 | Some _ => 0 end.

Lemma done_step s s' :
  sync_inv s -> callback_done s -> step s s' -> callback_done s' /\ (sync_left s' < sync_left s)%nat.
Proof.
  intros I D H. destruct (done_notified s I D) as [N C]. pose proof (sync_world_inv s I) as [B _].
  destruct D as [F E1].
  assert (K : forall w, step_timed st (flag_world s) w -> (steps_left w < steps_left (flag_world s))%nat /\
                threads w !! 1%nat = Some (Notifier false [] NStore)).
  { intros w Hw. destruct (quiet_step st _ _ Hw B N C) as (N' & _ & L). split; [done|].
    destruct (basic_step st _ _ Hw B) as [_ Sh]. unfold shapes in Sh.
    destruct (fmap_lookup_eq shape _ (threads w) _ _ (eq_sym Sh) E1) as (t' & Ht & Hs).
    rewrite Ht. destruct t' as [|one todo np]; [done|]. destruct (N' _ _ Ht) as [-> ->].
    by injection Hs as ->. }
  unfold callback_done, sync_left.
  destruct H as [Hp | j w S | w S | j w _ S | Bk Nn];
    cbn [with_flag return_get the_task flag_world returned].
  - by rewrite F in Hp.
  - destruct (K w) as [L E]; [left; by exists 0%nat, j|]. split; [done | lia].
  - destruct (K w) as [L E]; [right; by exists 0%nat|]. split; [done | lia].
  - unfold step_at in S. by rewrite E1 in S.
  - split; [done|]. rewrite Nn. lia.
Qed.

Lemma done_sn s : sync_inv s -> callback_done s -> sn step s.
Proof.
  remember (sync_left s) as n eqn:En. revert s En. induction n as [n IH] using lt_wf_ind.
  intros s -> I D. constructor. intros s' H. destruct (done_step s s' I D H) as [D' L].
  eapply IH; eauto. by eapply sync_step_inv.
Qed.
End sync_wait.

(** C12: [sync_wait] waits for the awaitable and returns, by every strategy of
    [atomic_wait]: the thread passes its wait only after the task has finished; it
    then throws the exception the awaitable threw (also one without a value), or
    returns nothing, or a reference to the object the awaitable gave, never made
    from a null pointer; until it has returned some step is possible; and once
    the callback has run, every execution ends.  The reference is good to read
    when the awaitable's [await_resume()] returns a reference; a value that it
    returns by value is in the frame of the local task, is there until [sync_wait]
    returns, and is gone when it has. *)
Theorem sync_wait_total {V} st kind (r : outcome V) s :
  rtc (step st kind r) (init kind) s ->
  (waiter_back (flag_world s) = true -> at_place (the_task s) = Finished) /\
  (returned s = None \/ returned s = Some (Some (given kind r))) /\
  (at_place (the_task s) = Finished -> deref (home kind) s = referred kind r (is_back s)) /\
  (returned s = None -> exists s', step st kind r s s') /\
  (callback_done s -> sn (step st kind r) s).
Proof.
  intros R. pose proof (sync_reach_inv st kind r s R) as I. split_and!.
  - intros B. pose proof (back_set _ (si_pair _ _ _ _ I) B) as C.
    destruct (si_task _ _ _ _ I) as [T | [-> _]]; [|done].
    pose proof (si_order _ _ _ _ I) as O. rewrite T in O. by rewrite O in C.
  - destruct (si_result _ _ _ _ I) as [?|[? _]]; auto.
  - intros F. destruct (si_task _ _ _ _ I) as [T | [_ D]]; [by rewrite T in F | done].
  - by apply (sync_progress st kind).
  - by apply (done_sn st kind).
Qed.

(** A value returned by value, with the library's strategy: [sync_wait] returns a
    reference to an object that no longer exists. *)
Lemma sync_wait_total_witness :
  exists s, rtc (step Fallback ByValue (Value 7%nat)) (init ByValue) s /\
    returned s = Some (Some (Value (Some InFrame))) /\ deref InFrame s = None /\
    sn (step Fallback ByValue (Value 7%nat)) s.
Proof.
  assert (R : exists s, rtc (step Fallback ByValue (Value 7%nat)) (init ByValue) s /\
    returned s = Some (Some (Value (Some InFrame))) /\ callback_done s).
  { eexists. split; [|split; [|split]].
    - eapply rtc_l; [by apply completes|]. eapply rtc_l; [by eapply (callback_moves _ _ _ _ 0)|].
      eapply rtc_l; [by eapply (waiter_moves _ _ _ _ 0)|]. eapply rtc_l; [by apply gets|]. apply rtc_refl.
    - reflexivity.
    - reflexivity.
    - reflexivity. }
  destruct R as (s & R & E & D). exists s. split; [exact R|]. split; [exact E|].
  destruct (sync_wait_total Fallback ByValue (Value 7%nat) s R) as (_ & _ & F & _ & T).
  split; [|exact (T D)]. specialize (F (proj1 D)). unfold is_back in F. rewrite E in F. exact F.
Defined.
