(* ===== verification/Pipes.v ===== *)
(** * Pipes and the life of what they hold: [fmap.hpp], [flat_map.hpp]

    [Coroutines] says what [fmap] and [flat_map] compute; this file says which
    objects the values they return own, and which they refer to.  Objects live
    at locations of a store.  An argument of a forwarding reference is an lvalue
    or an rvalue; the template parameter it deduces is a reference in the first
    case, so that a member or a coroutine parameter of that type is a reference,
    and an object type in the second, so that the argument is moved in.
    Temporaries live to the end of the full expression.  Awaiting reads what the
    value refers to; a location with no such object any more is undefined
    behaviour, which is the result [None]. *)

From S2P Require Import Prelude Coroutines.
From stdpp Require Import gmap.

Abbreviation loc := nat (only parsing).

(** A member or parameter whose type is deduced: by value or a reference. *)
Inductive held (A : Type) := Own (a : A) | Ref (l : loc).
Arguments Own {A} a.
Arguments Ref {A} l.

(** An argument expression, by the location of the object it denotes. *)
Inductive arg := Lvalue (l : loc) | Rvalue (l : loc).
Definition arg_loc (x : arg) : loc := match x with Lvalue l | Rvalue l => l end.

Section pipes.
Context {V : Type}.
Abbreviation fn_t := (V -> outcome V) (only parsing).
Abbreviation binder_t := (V -> co V) (only parsing).

(** Awaitables: one that is not built here ([just], a [future]), an
    [fmap_awaitable], and the future of [flat_map_impl] before it is started,
    which is its frame with the two parameters; [Fn &&fn] is a reference. *)
Inductive awaitable :=
| Awaitable (m : co V)
| FmapAwaitable (a : held awaitable) (continuation : held fn_t)
| FlatMapFuture (a : held awaitable) (fn : loc).

Inductive object :=
| OAwaitable (a : awaitable)
| OFn (f : fn_t)
| OBinder (g : binder_t)
| OFmapTransform (fn : held fn_t)
| OFlatMapTransform (fn : held binder_t)
| OMoved.

Definition as_awaitable (o : object) : option awaitable :=
  match o with OAwaitable a => Some a | _ => None end.
(** A closure, or the member [fn] of a transform that owns one. *)
Definition as_fn (o : object) : option fn_t :=
  match o with OFn f | OFmapTransform (Own f) => Some f | _ => None end.
Definition as_binder (o : object) : option binder_t :=
  match o with OBinder g | OFlatMapTransform (Own g) => Some g | _ => None end.

(** The objects alive, and which of them are temporaries of the full expression
    that is being evaluated. *)
Record env := mk_env { objects : gmap loc object; temps : list loc }.

Definition materialize (o : object) (e : env) : loc * env :=
  let l := fresh (dom (objects e)) in (l, mk_env (<[l := o]> (objects e)) (l :: temps e)).

(** The end of the full expression. *)
Definition drop_temps (e : env) : gmap loc object :=
  foldr delete (objects e) (temps e).

(** [std::forward<X>(x)] into a member or parameter of type [X]. *)
Definition forward {X} (as_x : object -> option X) (x : arg) (e : env) : option (held X * env) :=
  match x with
  | Lvalue l => Some (Ref l, e)
  | Rvalue l =>
      o ← objects e !! l; v ← as_x o;
      Some (Own v, mk_env (<[l := OMoved]> (objects e)) (temps e))
  end.

(** ** [fmap] *)

(** [fmap(Fn &&fn)] *)
Definition fmap1 (fn : arg) (e : env) : option (object * env) :=
  '(h, e) ← forward as_fn fn e; Some (OFmapTransform h, e).

(** [fmap(A &&awaitable, Fn &&fn)] *)
Definition fmap2 (a fn : arg) (e : env) : option (awaitable * env) :=
  '(h, e) ← forward as_awaitable a e; '(c, e) ← forward as_fn fn e;
  Some (FmapAwaitable h c, e).

(** The two [operator|]: [then.fn] is an lvalue, or has the category of [then]
    unless its type is a reference. *)
Definition pipe_fmap (a t : arg) (e : env) : option (awaitable * env) :=
  o ← objects e !! arg_loc t;
  match o with
  | OFmapTransform (Own _) => fmap2 a t e
  | OFmapTransform (Ref l) => fmap2 a (Lvalue l) e
  | _ => None
  end.

(** ** [flat_map] *)

Definition flat_map1 (fn : arg) (e : env) : option (object * env) :=
  '(h, e) ← forward as_binder fn e; Some (OFlatMapTransform h, e).

(** [flat_map(Awaitable &&a, Fn &&fn)]: [flat_map_impl<Awaitable>] takes the
    awaitable as [Awaitable] and the function as [Fn &&]. *)
Definition flat_map2 (a fn : arg) (e : env) : option (awaitable * env) :=
  '(h, e) ← forward as_awaitable a e; Some (FlatMapFuture h (arg_loc fn), e).

(** The two [operator|]: [std::move(transform.fn)] of an rvalue, also when
    [fn] is a reference, and [transform.fn] of an lvalue. *)
Definition pipe_flat_map (a t : arg) (e : env) : option (awaitable * env) :=
  o ← objects e !! arg_loc t;
  match o, t with
  | OFlatMapTransform (Own _), _ => flat_map2 a t e
  | OFlatMapTransform (Ref l), Rvalue _ => flat_map2 a (Rvalue l) e
  | OFlatMapTransform (Ref l), Lvalue _ => flat_map2 a (Lvalue l) e
  | _, _ => None
  end.

(** ** Awaiting *)

Definition undefined : co (option V) := Ret (Value None).
Definition some_result (r : outcome V) : outcome (option V) :=
  match r with Value v => Value (Some v) | Throw e => Throw e end.

(** A result that is defined, as a value of the model. *)
Definition defined (m : co V) : co (option V) := co_await m (fun v => co_return (Some v)).

Definition awaitable_of (s : gmap loc object) (h : held awaitable) : option awaitable :=
  match h with Own a => Some a | Ref l => s !! l ≫= as_awaitable end.
Definition fn_of (s : gmap loc object) (h : held fn_t) : option fn_t :=
  match h with Own f => Some f | Ref l => s !! l ≫= as_fn end.
Definition binder_of (s : gmap loc object) (h : held binder_t) : option binder_t :=
  match h with Own g => Some g | Ref l => s !! l ≫= as_binder end.

(** [std::invoke(fn, awaiter.await_resume())] *)
Definition resume_fmap (s : gmap loc object) (c : held fn_t) (o : option V) : outcome (option V) :=
  match o, fn_of s c with
  | Some v, Some f => some_result (f v)
  | _, _ => Value None
  end.

(** [co_return co_await fn(...)], once the awaitable has a result. *)
Definition resume_flat_map (s : gmap loc object) (l : loc) (o : option V) : co (option V) :=
  match o, binder_of s (Ref l) with
  | Some v, Some g => co_await (defined (g v)) (fun b => co_return b)
  | _, _ => undefined
  end.

(** [co_await a]; the fuel bounds the depth to which awaitables are nested or
    refer to each other. *)
Fixpoint await (fuel : nat) (s : gmap loc object) (a : awaitable) : co (option V) :=
  match fuel with
  | O => undefined
  | S fuel =>
      let inner (h : held awaitable) :=
        match awaitable_of s h with Some a => await fuel s a | None => undefined end in
      match a with
      | Awaitable m => defined m
      | FmapAwaitable h c => fmap_awaitable (inner h) (resume_fmap s c)
      | FlatMapFuture h l => co_await (inner h) (resume_flat_map s l)
      end
  end.

(** ** Pipelines *)

(** A function argument: a local, or a prvalue. *)
Inductive fn_arg (F : Type) := FnLocal (l : loc) | FnTemp (f : F).
Arguments FnLocal {F} l.
Arguments FnTemp {F} f.

Inductive stage :=
| PipeFmap (fn : fn_arg fn_t)
| PipeFmapLocal (t : loc)
| CallFmap (fn : fn_arg fn_t)
| PipeFlatMap (fn : fn_arg binder_t)
| PipeFlatMapLocal (t : loc)
| CallFlatMap (fn : fn_arg binder_t).

Definition eval_fn {F} (wrap : F -> object) (x : fn_arg F) (e : env) : arg * env :=
  match x with
  | FnLocal l => (Lvalue l, e)
  | FnTemp f => let '(l, e) := materialize (wrap f) e in (Rvalue l, e)
  end.

(** [a | fmap(fn)], [a | t], [fmap(a, fn)] and the same for [flat_map]. *)
Definition eval_stage (a : arg) (st : stage) (e : env) : option (awaitable * env) :=
  match st with
  | PipeFmap fn =>
      let '(x, e) := eval_fn OFn fn e in
      '(t, e) ← fmap1 x e; let '(l, e) := materialize t e in pipe_fmap a (Rvalue l) e
  | PipeFmapLocal t => pipe_fmap a (Lvalue t) e
  | CallFmap fn => let '(x, e) := eval_fn OFn fn e in fmap2 a x e
  | PipeFlatMap fn =>
      let '(x, e) := eval_fn OBinder fn e in
      '(t, e) ← flat_map1 x e; let '(l, e) := materialize t e in pipe_flat_map a (Rvalue l) e
  | PipeFlatMapLocal t => pipe_flat_map a (Lvalue t) e
  | CallFlatMap fn => let '(x, e) := eval_fn OBinder fn e in flat_map2 a x e
  end.

(** What the pipeline starts with: a local awaitable, or a value. *)
Inductive source := SourceLocal (l : loc) | SourceTemp (a : awaitable).

Definition eval_source (src : source) (e : env) : arg * env :=
  match src with
  | SourceLocal l => (Lvalue l, e)
  | SourceTemp a => let '(l, e) := materialize (OAwaitable a) e in (Rvalue l, e)
  end.

(** Every stage gives a prvalue, the source of the next one. *)
Fixpoint eval (src : source) (st : stage) (sts : list stage) (e : env) : option (awaitable * env) :=
  let '(x, e) := eval_source src e in
  '(a, e) ← eval_stage x st e;
  match sts with
  | [] => Some (a, e)
  | st :: sts => eval (SourceTemp a) st sts e
  end.

(** ** What a pipeline means *)

Definition fn_meaning {F} (local : held F -> option F) (x : fn_arg F) : option F :=
  match x with FnLocal l => local (Ref l) | FnTemp f => Some f end.

(** The function a local transform stands for. *)
Definition fmap_local (s : gmap loc object) (t : loc) : option fn_t :=
  o ← s !! t; match o with OFmapTransform h => fn_of s h | _ => None end.
Definition flat_map_local (s : gmap loc object) (t : loc) : option binder_t :=
  o ← s !! t; match o with OFlatMapTransform h => binder_of s h | _ => None end.

Definition fmap_meaning (f : fn_t) (m : co V) : co V := fmap_awaitable m f.
Definition flat_map_meaning (g : binder_t) (m : co V) : co V := Coroutines.flat_map m g.

(** A stage as a function on awaitables, from the locals it names. *)
Definition meaning (s : gmap loc object) (st : stage) : option (co V -> co V) :=
  match st with
  | PipeFmap fn | CallFmap fn => fmap_meaning <$> fn_meaning (fn_of s) fn
  | PipeFmapLocal t => fmap_meaning <$> fmap_local s t
  | PipeFlatMap fn | CallFlatMap fn => flat_map_meaning <$> fn_meaning (binder_of s) fn
  | PipeFlatMapLocal t => flat_map_meaning <$> flat_map_local s t
  end.

(** No [flat_map] of the pipeline was given its function as a prvalue. *)
Definition keeps (st : stage) : Prop :=
  match st with PipeFlatMap (FnTemp _) | CallFlatMap (FnTemp _) => False | _ => True end.

(** Awaiting [a] is defined and is [m]. *)
Definition denotes (fuel : nat) (s : gmap loc object) (a : awaitable) (m : co V) : Prop :=
  await fuel s a ≈ defined m.

Definition source_denotes (fuel : nat) (s : gmap loc object) (src : source) (m : co V) : Prop :=
  match src with
  | SourceLocal l => exists a, s !! l = Some (OAwaitable a) /\ denotes fuel s a m
  | SourceTemp a => denotes fuel s a m
  end.

(** ** More fuel and more objects only define more *)

Inductive co_le : co (option V) -> co (option V) -> Prop :=
| le_undefined m : co_le undefined m
| le_ret r : co_le (Ret r) (Ret r)
| le_wait op f g : (forall z, co_le (f z) (g z)) -> co_le (Wait op f) (Wait op g).

Lemma co_le_refl m : co_le m m.
Proof. induction m as [r | op k IH]; by constructor. Qed.

Lemma co_le_eq m n p : co_le m n -> m ≈ defined p -> n ≈ defined p.
Proof.
  intros H. revert p. induction H as [n | r | op f g H IH]; intros p E; [| done |].
  - destruct p as [[v|e]|]; inversion E.
  - destruct p as [[v|e]|op' k]; inversion E; subst. constructor. intros z. by apply IH.
Qed.

Lemma co_await_le m n k k' :
  co_le m n -> k None = undefined -> (forall o, co_le (k o) (k' o)) ->
  co_le (co_await m k) (co_await n k').
Proof.
  intros H K L. induction H as [n | [o|e] | op f g H IH]; simpl.
  - rewrite K. constructor.
  - apply L.
  - constructor.
  - constructor. apply IH.
Qed.

Lemma fmap_awaitable_le m n k k' :
  co_le m n -> k None = Value None -> (forall o, k o = Value None \/ k o = k' o) ->
  co_le (fmap_awaitable m k) (fmap_awaitable n k').
Proof.
  intros H K L. induction H as [n | [o|e] | op f g H IH]; simpl.
  - rewrite K. constructor.
  - destruct (L o) as [-> | ->]; constructor.
  - constructor.
  - constructor. apply IH.
Qed.

Lemma lookup_bind_mono {X} (as_x : object -> option X) (s s' : gmap loc object) l v :
  s ⊆ s' -> s !! l ≫= as_x = Some v -> s' !! l ≫= as_x = Some v.
Proof.
  intros S H. destruct (s !! l) as [o|] eqn:E; [|done]. by rewrite (lookup_weaken _ _ _ _ E S).
Qed.

Lemma fn_of_mono s s' h f : s ⊆ s' -> fn_of s h = Some f -> fn_of s' h = Some f.
Proof. destruct h; [done|]. apply lookup_bind_mono. Qed.

Lemma binder_of_mono s s' h g : s ⊆ s' -> binder_of s h = Some g -> binder_of s' h = Some g.
Proof. destruct h; [done|]. apply lookup_bind_mono. Qed.

Lemma awaitable_of_mono s s' h a : s ⊆ s' -> awaitable_of s h = Some a -> awaitable_of s' h = Some a.
Proof. destruct h; [done|]. apply lookup_bind_mono. Qed.

Lemma await_mono n n' s s' a : n <= n' -> s ⊆ s' -> co_le (await n s a) (await n' s' a).
Proof.
  intros Hn Hs. revert n' Hn a. induction n as [|n IH]; intros [|n'] Hn a; simpl; try constructor; try lia.
  assert (I : forall h, co_le match awaitable_of s h with Some a => await n s a | None => undefined end
                              match awaitable_of s' h with Some a => await n' s' a | None => undefined end).
  { intros h. destruct (awaitable_of s h) as [b|] eqn:E; [|constructor].
    rewrite (awaitable_of_mono _ _ _ _ Hs E). apply IH. lia. }
  destruct a as [m | h c | h l]; [apply co_le_refl | |].
  - apply fmap_awaitable_le; [apply I | done |]. intros [v|]; [|by left]. unfold resume_fmap.
    destruct (fn_of s c) as [f|] eqn:E; [|by left]. rewrite (fn_of_mono _ _ _ _ Hs E). by right.
  - apply co_await_le; [apply I | done |]. intros [v|]; unfold resume_flat_map; [|constructor].
    destruct (binder_of s (Ref l)) as [g|] eqn:E; [|constructor].
    rewrite (binder_of_mono _ _ _ _ Hs E). apply co_le_refl.
Qed.

Lemma denotes_mono n n' s s' a m : n <= n' -> s ⊆ s' -> denotes n s a m -> denotes n' s' a m.
Proof. intros Hn Hs. apply co_le_eq. by apply await_mono. Qed.

(** ** The meaning of one stage *)

#[local] Instance fmap_awaitable_proper {A B} :
  Proper (co_eq ==> eq ==> co_eq) (@fmap_awaitable A B).
Proof. intros m n H k _ <-. induction H as [[a|e] | op f g H IH]; simpl; [reflexivity.. | by constructor]. Qed.

Lemma fmap_defined m f (k : option V -> outcome (option V)) :
  (forall v, k (Some v) = some_result (f v)) ->
  fmap_awaitable (defined m) k ≈ defined (fmap_awaitable m f).
Proof.
  intros K. unfold defined. induction m as [[v|e] | op g IH]; simpl; [|reflexivity|by constructor].
  rewrite K. destruct (f v); reflexivity.
Qed.

Lemma flat_map_defined m g (k : option V -> co (option V)) :
  (forall v, k (Some v) ≈ defined (g v)) -> co_await (defined m) k ≈ defined (Coroutines.flat_map m g).
Proof.
  intros K. unfold defined. rewrite flat_map_await.
  induction m as [[v|e] | op f IH]; simpl; [apply K | reflexivity | by constructor].
Qed.

Lemma denotes_fmap n s h a c f m :
  awaitable_of s h = Some a -> denotes n s a m -> fn_of s c = Some f ->
  denotes (S n) s (FmapAwaitable h c) (fmap_meaning f m).
Proof.
  intros Ha D Hf. unfold denotes. simpl. rewrite Ha. unfold denotes in D. rewrite D.
  apply fmap_defined. intros v. unfold resume_fmap. by rewrite Hf.
Qed.

Lemma denotes_flat_map n s h a l g m :
  awaitable_of s h = Some a -> denotes n s a m -> binder_of s (Ref l) = Some g ->
  denotes (S n) s (FlatMapFuture h l) (flat_map_meaning g m).
Proof.
  intros Ha D Hg. unfold denotes. simpl. rewrite Ha. unfold denotes in D. rewrite D.
  apply flat_map_defined. intros v. unfold resume_flat_map. rewrite Hg. apply co_await_ret.
Qed.

(** ** Evaluation only adds temporaries *)

(** [e] is the store [s] of the locals with temporaries added to it. *)
Definition extends (s : gmap loc object) (e : env) : Prop :=
  s ⊆ objects e /\ drop_temps e = s.

(** [e'] comes after [e] in the evaluation of one expression. *)
Definition later (s : gmap loc object) (e e' : env) : Prop :=
  objects e ⊆ objects e' /\ extends s e'.

Lemma later_refl s e : extends s e -> later s e e.
Proof. done. Qed.

Lemma later_trans s e e1 e2 : later s e e1 -> later s e1 e2 -> later s e e2.
Proof. intros [A _] [B C]. split; [by etrans | done]. Qed.

Lemma fresh_lookup (m : gmap loc object) : m !! fresh (dom m) = None.
Proof. apply not_elem_of_dom, is_fresh. Qed.

Lemma drop_temps_fresh m ts l o :
  m !! l = None -> drop_temps (mk_env (<[l := o]> m) (l :: ts)) = drop_temps (mk_env m ts).
Proof.
  intros H. unfold drop_temps. simpl. induction ts as [|t ts IH]; simpl.
  - by apply delete_insert_id.
  - by rewrite delete_delete, IH.
Qed.

(** [x] denotes the object [v]: a local, or a temporary made after [e0]. *)
Definition avail {X} (as_x : object -> option X) (s : gmap loc object) (e0 e : env) (x : arg) (v : X) : Prop :=
  match x with
  | Lvalue l => s !! l ≫= as_x = Some v
  | Rvalue l => objects e0 !! l = None /\ l ∈ temps e /\ objects e !! l ≫= as_x = Some v
  end.

(** Not the same temporary. *)
Definition apart (x y : arg) : Prop :=
  match x, y with Rvalue l, Rvalue l' => l <> l' | _, _ => True end.

Definition resolves {X} (as_x : object -> option X) (s : gmap loc object) (h : held X) (v : X) : Prop :=
  match h with Own w => w = v | Ref l => s !! l ≫= as_x = Some v end.

Lemma drop_temps_in m ts l o : l ∈ ts -> drop_temps (mk_env (<[l := o]> m) ts) = drop_temps (mk_env m ts).
Proof.
  unfold drop_temps. simpl. induction ts as [|t ts IH]; intros H; [by apply not_elem_of_nil in H|].
  simpl. destruct (decide (l ∈ ts)) as [Hl|Hl]; [by rewrite IH|].
  apply elem_of_cons in H as [<-|]; [|done]. clear IH.
  induction ts as [|u us IH]; simpl; [by rewrite delete_insert_eq|].
  apply not_elem_of_cons in Hl as [_ Hl]. rewrite !(delete_delete _ l). by rewrite IH.
Qed.

(** A temporary made after [e0] may take any value. *)
Lemma later_write s e0 e l o :
  later s e0 e -> objects e0 !! l = None -> l ∈ temps e -> extends s e0 ->
  later s e0 (mk_env (<[l := o]> (objects e)) (temps e)).
Proof.
  intros [A [B C]] H T [D _]. split; [|split]; simpl.
  - by apply insert_subseteq_r.
  - apply insert_subseteq_r; [|done]. by eapply lookup_weaken_None.
  - rewrite drop_temps_in by done. by destruct e.
Qed.

(** What was there for [e] is there for [e']. *)
Definition preserves (s : gmap loc object) (e0 e e' : env) (x : arg) : Prop :=
  forall Y (as_y : object -> option Y) y w,
    avail as_y s e0 e y w -> apart y x -> avail as_y s e0 e' y w.

Lemma materialize_spec {X} (as_x : object -> option X) s e0 e o v :
  extends s e0 -> later s e0 e -> as_x o = Some v ->
  exists l e', materialize o e = (l, e') /\ objects e' !! l = Some o /\
    later s e0 e' /\ avail as_x s e0 e' (Rvalue l) v /\ preserves s e0 e e' (Rvalue l) /\
    (forall Y (as_y : object -> option Y) y w, avail as_y s e0 e y w -> apart y (Rvalue l)).
Proof.
  intros E L Ho. unfold materialize. set (l := fresh (dom (objects e))).
  assert (F : objects e !! l = None) by apply fresh_lookup. do 2 eexists. split; [done|].
  destruct L as [A [B C]]. split_and!; cbn [avail objects temps].
  - apply lookup_insert_eq.
  - split; [|split]; simpl.
    + by apply insert_subseteq_r; [eapply lookup_weaken_None|].
    + by apply insert_subseteq_r; [eapply lookup_weaken_None|].
    + rewrite drop_temps_fresh by done. by destruct e.
  - split; [by eapply lookup_weaken_None|]. split; [left|]. by rewrite lookup_insert_eq.
  - intros Y as_y [l'|l'] w; [done|]. intros (P & Q & R) N. split; [done|]. split; [by right|].
    cbn [objects]. by rewrite lookup_insert_ne.
  - intros Y as_y [l'|l'] w; [done|]. intros (_ & _ & R) ->. by rewrite F in R.
Qed.

Lemma forward_spec {X} (as_x : object -> option X) s e0 e x v :
  extends s e0 -> later s e0 e -> avail as_x s e0 e x v ->
  exists h e', forward as_x x e = Some (h, e') /\ later s e0 e' /\ resolves as_x s h v /\
    preserves s e0 e e' x.
Proof.
  intros E L Hx. destruct x as [l|l]; simpl in *.
  { do 2 eexists. split_and!; [done..|]. by intros Y as_y y w. }
  destruct Hx as (A & B & C). destruct (objects e !! l) as [o|]; [|done]. simpl in *. rewrite C. simpl.
  do 2 eexists. split; [done|]. split_and!; [by apply later_write | done |].
  intros Y as_y [l'|l'] w; [done|]. intros (? & ? & ?) N. split; [done|]. split; [done|].
  cbn [objects]. by rewrite lookup_insert_ne.
Qed.

Lemma resolves_later {X} (as_x : object -> option X) s e0 e h v :
  later s e0 e -> resolves as_x s h v -> resolves as_x (objects e) h v.
Proof. intros [_ [S _]]. destruct h; [done|]. by apply lookup_bind_mono. Qed.

Lemma resolves_awaitable s h a : resolves as_awaitable s h a -> awaitable_of s h = Some a.
Proof. destruct h; [by intros ->|done]. Qed.
Lemma resolves_fn s h f : resolves as_fn s h f -> fn_of s h = Some f.
Proof. destruct h; [by intros ->|done]. Qed.

(** What a stage on an awaitable [a] of meaning [m] gives: it means [F m], in the
    full expression and, when [k] holds, after it. *)
Definition gives (s : gmap loc object) (e0 : env) (n : nat) (a : awaitable) (m : co V)
    (F : co V -> co V) (k : Prop) (r : option (awaitable * env)) : Prop :=
  exists a' e', r = Some (a', e') /\ later s e0 e' /\ denotes (S n) (objects e') a' (F m) /\
    (k -> denotes n s a m -> denotes (S n) s a' (F m)).

Section stages.
Context (s : gmap loc object) (e0 : env) (Hs : extends s e0).
Context (n : nat) (a : awaitable) (m : co V) (Ha : denotes n (objects e0) a m).

Lemma denotes_later e : later s e0 e -> denotes n (objects e) a m.
Proof. intros [L _]. by eapply denotes_mono. Qed.

Lemma fmap2_spec e x y f :
  later s e0 e -> avail as_awaitable s e0 e x a -> avail as_fn s e0 e y f -> apart y x ->
  gives s e0 n a m (fmap_meaning f) True (fmap2 x y e).
Proof.
  intros L Hx Hy P. unfold fmap2.
  destruct (forward_spec as_awaitable s e0 e x a) as (h & e1 & -> & L1 & R1 & K1); [done..|]. simpl.
  destruct (forward_spec as_fn s e0 e1 y f) as (c & e2 & -> & L2 & R2 & _); [done | done | by apply K1 |].
  simpl. do 2 eexists. split_and!; [done | done | |].
  - eapply denotes_fmap; [apply resolves_awaitable; by eapply resolves_later | by apply denotes_later |].
    apply resolves_fn. by eapply resolves_later.
  - intros _ D. eapply denotes_fmap; [by apply resolves_awaitable | done | by apply resolves_fn].
Qed.

Lemma flat_map2_spec e x y g :
  later s e0 e -> avail as_awaitable s e0 e x a -> avail as_binder s e0 e y g -> apart y x ->
  gives s e0 n a m (flat_map_meaning g) (s !! arg_loc y ≫= as_binder = Some g) (flat_map2 x y e).
Proof.
  intros L Hx Hy P. unfold flat_map2.
  destruct (forward_spec as_awaitable s e0 e x a) as (h & e1 & -> & L1 & R1 & K1); [done..|]. simpl.
  apply (K1 _ as_binder y g Hy) in P as Hy'. do 2 eexists. split_and!; [done | done | |].
  - eapply denotes_flat_map; [apply resolves_awaitable; by eapply resolves_later | by apply denotes_later |].
    destruct y as [l|l]; simpl in *; [by eapply lookup_bind_mono; [apply L1|] | apply Hy'].
  - intros K D. eapply denotes_flat_map; [by apply resolves_awaitable | done | done].
Qed.

Lemma gives_weaken F (k k' : Prop) r : (k' -> k) -> gives s e0 n a m F k r -> gives s e0 n a m F k' r.
Proof. intros K (a' & e' & E & L & D & S). exists a', e'. split_and!; auto. Qed.

Lemma apart_sym x y : apart x y -> apart y x.
Proof. destruct x, y; simpl; congruence. Qed.

(** [y] is a new argument: what was there stays, and is not [y]. *)
Definition adds (e e' : env) (y : arg) : Prop :=
  forall Y (as_y : object -> option Y) z w,
    avail as_y s e0 e z w -> avail as_y s e0 e' z w /\ apart z y.

Lemma materialize_adds e o :
  later s e0 e ->
  exists l e', materialize o e = (l, e') /\ later s e0 e' /\ adds e e' (Rvalue l) /\
    objects e' !! l = Some o /\
    forall X (as_x : object -> option X) v, as_x o = Some v -> avail as_x s e0 e' (Rvalue l) v.
Proof.
  intros L. destruct (materialize_spec Some s e0 e o o) as (l & e' & E & O & L' & V' & K & A); [done..|].
  exists l, e'. split_and!; [done | done | | done |].
  - intros Y as_y z w Hz. specialize (A _ _ _ _ Hz). split; [by apply K | done].
  - intros X as_x v H. simpl in *. destruct V' as (? & ? & _). split_and!; [done..|]. by rewrite O.
Qed.

Lemma eval_fn_spec {F} (wrap : F -> object) (as_x : object -> option F) (fn : fn_arg F) e f :
  (forall g, as_x (wrap g) = Some g) -> later s e0 e ->
  match fn with FnLocal l => s !! l ≫= as_x | FnTemp f => Some f end = Some f ->
  exists y e', eval_fn wrap fn e = (y, e') /\ later s e0 e' /\ adds e e' y /\ avail as_x s e0 e' y f /\
    (match fn with FnLocal _ => True | FnTemp _ => False end -> s !! arg_loc y ≫= as_x = Some f).
Proof.
  intros W L H. destruct fn as [l|g]; cbn [eval_fn].
  - exists (Lvalue l), e. split_and!; try done. intros Y as_y [z|z] w Hz; done.
  - simplify_eq. destruct (materialize_adds e (wrap f) L) as (l & e' & E & L' & A & _ & V').
    rewrite E. exists (Rvalue l), e'. split_and!; [done | done | done | by apply V' | done].
Qed.

Lemma pipe_fmap_spec e x t h f :
  later s e0 e -> avail as_awaitable s e0 e x a -> apart t x ->
  objects e !! arg_loc t = Some (OFmapTransform h) -> resolves as_fn s h f ->
  (forall g, h = Own g -> avail as_fn s e0 e t f) ->
  gives s e0 n a m (fmap_meaning f) True (pipe_fmap x t e).
Proof.
  intros L Hx P O R T. unfold pipe_fmap. rewrite O. simpl. destruct h as [g|l].
  - apply fmap2_spec; [done | done | by eapply T | done].
  - by apply fmap2_spec.
Qed.

Lemma pipe_flat_map_spec e x t h g :
  later s e0 e -> avail as_awaitable s e0 e x a -> apart t x ->
  objects e !! arg_loc t = Some (OFlatMapTransform h) -> resolves as_binder s h g ->
  (forall g', h = Own g' -> avail as_binder s e0 e t g) ->
  gives s e0 n a m (flat_map_meaning g)
    (match h with Own _ => s !! arg_loc t ≫= as_binder = Some g | Ref _ => True end)
    (pipe_flat_map x t e).
Proof.
  intros L Hx P O R T. unfold pipe_flat_map. rewrite O. simpl. destruct h as [g'|l].
  - eapply flat_map2_spec; [done | done | by eapply T | done].
  - destruct t as [t|t].
    + eapply gives_weaken; [|by apply (flat_map2_spec e x (Lvalue l) g)]. done.
    + assert (E : flat_map2 x (Rvalue l) e = flat_map2 x (Lvalue l) e) by done. rewrite E.
      eapply gives_weaken; [|by apply (flat_map2_spec e x (Lvalue l) g)]. done.
Qed.

Lemma pipe_fmap_prvalue e x fn f :
  later s e0 e -> avail as_awaitable s e0 e x a -> fn_meaning (fn_of s) fn = Some f ->
  gives s e0 n a m (fmap_meaning f) True (eval_stage x (PipeFmap fn) e).
Proof.
  intros L Hx Hf. cbn [eval_stage].
  destruct (eval_fn_spec OFn as_fn fn e f) as (y & e1 & -> & L1 & A1 & V1 & _); [done..|].
  destruct (A1 _ _ _ _ Hx) as [Hx1 Px]. unfold fmap1.
  destruct (forward_spec as_fn s e0 e1 y f) as (h & e2 & -> & L2 & R2 & K2); [done..|]. cbn [mbind option_bind].
  pose proof (K2 _ _ _ _ Hx1 Px) as Hx2.
  destruct (materialize_adds e2 (OFmapTransform h) L2) as (l & e3 & -> & L3 & A3 & O3 & V3).
  destruct (A3 _ _ _ _ Hx2) as [Hx3 Px3].
  eapply pipe_fmap_spec; [done | done | by apply apart_sym | done | done |].
  intros g ->. apply V3. simpl in *. by subst.
Qed.

Lemma pipe_flat_map_prvalue e x fn g :
  later s e0 e -> avail as_awaitable s e0 e x a -> fn_meaning (binder_of s) fn = Some g ->
  gives s e0 n a m (flat_map_meaning g) (keeps (PipeFlatMap fn)) (eval_stage x (PipeFlatMap fn) e).
Proof.
  intros L Hx Hf. cbn [eval_stage].
  destruct (eval_fn_spec OBinder as_binder fn e g) as (y & e1 & Ey & L1 & A1 & V1 & _); [done..|].
  rewrite Ey. destruct (A1 _ _ _ _ Hx) as [Hx1 Px]. unfold flat_map1.
  destruct (forward_spec as_binder s e0 e1 y g) as (h & e2 & Eh & L2 & R2 & K2); [done..|].
  rewrite Eh. cbn [mbind option_bind]. pose proof (K2 _ _ _ _ Hx1 Px) as Hx2.
  destruct (materialize_adds e2 (OFlatMapTransform h) L2) as (l & e3 & -> & L3 & A3 & O3 & V3).
  destruct (A3 _ _ _ _ Hx2) as [Hx3 Px3].
  eapply gives_weaken; [|eapply pipe_flat_map_spec; [done | done | by apply apart_sym | done | done |]].
  - destruct fn as [lf|gf]; [|done]. simpl in Ey. simplify_eq. simpl in Eh. by simplify_eq.
  - intros g' ->. apply V3. simpl in *. by subst.
Qed.

Lemma eval_stage_spec e x st F :
  later s e0 e -> avail as_awaitable s e0 e x a -> meaning s st = Some F ->
  gives s e0 n a m F (keeps st) (eval_stage x st e).
Proof.
  intros L Hx M. pose proof L as [_ [S _]].
  destruct st as [fn | t | fn | fn | t | fn]; cbn [meaning] in M; apply fmap_Some in M as (f & Hf & ->).
  - by apply pipe_fmap_prvalue.
  - unfold fmap_local in Hf. destruct (s !! t) as [o|] eqn:Et; [|done]. simpl in Hf. destruct o as [| | |h| |]; try done.
    apply (pipe_fmap_spec e x (Lvalue t) h); [done | done | done | by eapply lookup_weaken | by destruct h; simplify_eq/= |].
    intros g ->. simpl. by rewrite Et.
  - cbn [eval_stage]. destruct (eval_fn_spec OFn as_fn fn e f) as (y & e1 & -> & L1 & A1 & V1 & _); [done..|].
    destruct (A1 _ _ _ _ Hx) as [Hx1 Px]. apply fmap2_spec; [done..|]. by apply apart_sym.
  - by apply pipe_flat_map_prvalue.
  - unfold flat_map_local in Hf. destruct (s !! t) as [o|] eqn:Et; [|done]. simpl in Hf. destruct o as [| | | |h|]; try done.
    eapply gives_weaken; [|apply (pipe_flat_map_spec e x (Lvalue t) h f); [done | done | done | by eapply lookup_weaken | by destruct h; simplify_eq/= |]].
    + intros _. destruct h; [|done]. simpl in *. by rewrite Et.
    + intros g ->. simpl. by rewrite Et.
  - cbn [eval_stage]. destruct (eval_fn_spec OBinder as_binder fn e f) as (y & e1 & -> & L1 & A1 & V1 & K1); [done..|].
    destruct (A1 _ _ _ _ Hx) as [Hx1 Px]. eapply gives_weaken; [|apply flat_map2_spec; [done | done | done | by apply apart_sym]].
    intros K. apply K1. by destruct fn.
Qed.
End stages.

Lemma eval_source_spec s e n src m :
  extends s e -> source_denotes n (objects e) src m ->
  (forall l, src = SourceLocal l -> source_denotes n s src m) ->
  exists x e' a, eval_source src e = (x, e') /\ later s e e' /\ avail as_awaitable s e e' x a /\
    denotes n (objects e) a m /\ (source_denotes n s src m -> denotes n s a m).
Proof.
  intros E D K. destruct src as [l|a]; cbn [eval_source].
  - destruct (K l eq_refl) as (a & La & Da). exists (Lvalue l), e, a. split_and!; [done | by apply later_refl | | |].
    + simpl. by rewrite La.
    + eapply denotes_mono; [done | by destruct E | done].
    + done.
  - destruct (materialize_adds s e E e (OAwaitable a)) as (l & e' & -> & L & _ & _ & V'); [by apply later_refl|].
    exists (Rvalue l), e', a. split_and!; [done | done | by apply V' | done | done].
Qed.

Lemma eval_spec s sts : forall n src st e m Fs F,
  extends s e -> source_denotes n (objects e) src m ->
  (forall l, src = SourceLocal l -> source_denotes n s src m) ->
  meaning s st = Some F -> mapM (meaning s) sts = Some Fs ->
  exists a e', eval src st sts e = Some (a, e') /\ extends s e' /\
    denotes (S (length sts) + n) (objects e') a (fold_left (fun m F => F m) Fs (F m)) /\
    (Forall keeps (st :: sts) -> source_denotes n s src m ->
     denotes (S (length sts) + n) s a (fold_left (fun m F => F m) Fs (F m))).
Proof.
  induction sts as [|st' sts IH]; intros n src st e m Fs F E D K M Ms;
    destruct (eval_source_spec s e n src m E D K) as (x & e1 & a & Ex & L & Hx & Da & Ds);
    destruct (eval_stage_spec s e E n a m Da e1 x st F L Hx M) as (a' & e2 & Est & L2 & D2 & S2);
    cbn [eval]; rewrite Ex, Est; cbn [mbind option_bind].
  - apply mapM_Some in Ms. inversion Ms; subst. exists a', e2. split_and!; [done | by destruct L2 | done |].
    intros [Hk _]%Forall_cons Hsrc. exact (S2 Hk (Ds Hsrc)).
  - apply mapM_Some in Ms. inversion Ms as [|? F' ? Fs' M' Ms']; subst. apply mapM_Some in Ms'.
    destruct (IH (S n) (SourceTemp a') st' e2 (F m) Fs' F') as (a2 & e3 & -> & E3 & D3 & S3);
      [by destruct L2 | done | done | done | done |].
    exists a2, e3. cbn [length fold_left]. replace (S (S (length sts)) + n) with (S (length sts) + S n) by lia.
    split_and!; [done | done | done |].
    intros [Hk Hks]%Forall_cons Hsrc. exact (S3 Hks (S2 Hk (Ds Hsrc))).
Qed.

(** C13: a pipeline of [fmap]s and [flat_map]s, over named and temporary
    awaitables, functions and transforms, means the composition of its stages
    when it is awaited in its own full expression; it still does when it was
    stored in a variable and is awaited later, provided no [flat_map] of it was
    given its function as a temporary.  The locals are as they were before. *)
Theorem pipeline_composes s n src st sts m F Fs :
  source_denotes n s src m -> meaning s st = Some F -> mapM (meaning s) sts = Some Fs ->
  let composed := fold_left (fun m F => F m) Fs (F m) in
  exists a e, eval src st sts (mk_env s []) = Some (a, e) /\
    drop_temps e = s /\
    denotes (S (length sts) + n) (objects e) a composed /\
    (Forall keeps (st :: sts) -> denotes (S (length sts) + n) (drop_temps e) a composed).
Proof.
  intros D M Ms composed.
  destruct (eval_spec s sts n src st (mk_env s []) m Fs F) as (a & e & H & [S E] & D1 & D2); [done..|].
  exists a, e. rewrite E. split_and!; [done | done | done |]. intros K. by apply D2.
Qed.

(** ** A stored [flat_map] with a temporary function *)

Lemma co_le_value (x : co (option V)) v : co_le x (defined (co_return v)) -> x = undefined \/ x = defined (co_return v).
Proof. intros H. inversion H; subst; [by left | by right]. Qed.

Lemma dangling_undefined s h l a n v k :
  awaitable_of s h = Some a -> denotes n s a (co_return v) -> s !! l = None ->
  await k s (FlatMapFuture h l) = undefined.
Proof.
  intros Ha D N. destruct k as [|k]; [done|]. cbn [await]. rewrite Ha.
  assert (L : await k s a = undefined \/ await k s a = defined (co_return v)).
  { apply co_le_value. unfold denotes in D.
    pose proof (await_mono k (k `max` n) s s a ltac:(lia) ltac:(done)) as L1.
    pose proof (denotes_mono n (k `max` n) s s a _ ltac:(lia) ltac:(done) D) as L2.
    unfold denotes in L2. inversion L2 as [r E1 E2|]; simplify_eq/=. by rewrite <- E1 in L1. }
  destruct L as [-> | ->]; [done|]. simpl. unfold resume_flat_map. simpl. by rewrite N.
Qed.
Lemma flat_map2_shape s e0 e x l a :
  extends s e0 -> later s e0 e -> avail as_awaitable s e0 e x a -> objects e0 !! l = None ->
  exists h e', flat_map2 x (Rvalue l) e = Some (FlatMapFuture h l, e') /\
    resolves as_awaitable s h a /\ s !! l = None.
Proof.
  intros E L Hx N. unfold flat_map2.
  destruct (forward_spec as_awaitable s e0 e x a) as (h & e1 & -> & _ & R & _); [done..|].
  exists h, e1. split_and!; [done | done |]. destruct E as [S _]. by eapply lookup_weaken_None.
Qed.

Lemma flat_map_temp_shape s e0 e x a st :
  extends s e0 -> later s e0 e -> avail as_awaitable s e0 e x a -> ~ keeps st ->
  exists h l e', eval_stage x st e = Some (FlatMapFuture h l, e') /\
    resolves as_awaitable s h a /\ s !! l = None.
Proof.
  intros E L Hx K. destruct st as [| | |[|g]| |[|g]]; try (exfalso; by apply K); cbn [eval_stage eval_fn].
  - destruct (materialize_adds s e0 E e (OBinder g) L) as (l & e1 & -> & L1 & A1 & O1 & V1).
    destruct (A1 _ _ _ _ Hx) as [Hx1 Px]. unfold flat_map1.
    destruct (forward_spec as_binder s e0 e1 (Rvalue l) g) as (h & e2 & Eh & L2 & R2 & K2); [done | done | by apply V1 |].
    rewrite Eh. cbn [mbind option_bind]. simpl in Eh. rewrite O1 in Eh. injection Eh as <- <-.
    pose proof (K2 _ _ _ _ Hx1 Px) as Hx2.
    edestruct (materialize_adds s e0 E _ (OFlatMapTransform (Own g)) L2) as (l2 & e3 & -> & L3 & A3 & O3 & V3).
    destruct (A3 _ _ _ _ Hx2) as [Hx3 Px3]. unfold pipe_flat_map. cbn [arg_loc]. rewrite O3. cbn [mbind option_bind].
    destruct (V3 _ as_binder g eq_refl) as (N & _).
    destruct (flat_map2_shape s e0 e3 x l2 a) as (h & e4 & ? & ? & ?); [done..|]. by eauto 10.
  - destruct (materialize_adds s e0 E e (OBinder g) L) as (l & e1 & -> & L1 & A1 & O1 & V1).
    destruct (A1 _ _ _ _ Hx) as [Hx1 Px]. destruct (V1 _ as_binder g eq_refl) as (N & _).
    destruct (flat_map2_shape s e0 e1 x l a) as (h & e2 & ? & ? & ?); [done..|]. by eauto 10.
Qed.

(** C18: a [flat_map] that was given its function as a temporary holds a reference
    to it: awaited in the same full expression it calls the function, but when
    the future is stored and awaited once the awaitable has a value, the
    coroutine calls a function that no longer exists. *)
Theorem stored_flat_map_dangles s n src st v F :
  source_denotes n s src (co_return v) -> meaning s st = Some F -> ~ keeps st ->
  exists a e, eval src st [] (mk_env s []) = Some (a, e) /\
    denotes (S n) (objects e) a (F (co_return v)) /\
    forall fuel, await fuel (drop_temps e) a = undefined.
Proof.
  intros D M K.
  assert (E0 : extends s (mk_env s [])) by done.
  destruct (eval_spec s [] n src st (mk_env s []) (co_return v) [] F) as (a & e & H & [_ E] & D1 & _); [done..|].
  exists a, e. rewrite E. split_and!; [done | done |]. intros fuel.
  destruct (eval_source_spec s (mk_env s []) n src (co_return v)) as (x & e1 & a0 & Ex & L & Hx & _ & D0); [done..|].
  destruct (flat_map_temp_shape s (mk_env s []) e1 x a0 st) as (h & l & e2 & Es & R & N); [done..|].
  cbn [eval] in H. rewrite Ex, Es in H. simplify_eq/=.
  eapply dangling_undefined; [by apply resolves_awaitable | by apply D0 | done].
Qed.
End pipes.

Arguments FnLocal {F} l.
Arguments FnTemp {F} f.
Arguments object V : clear implicits.
Arguments awaitable V : clear implicits.
Arguments env V : clear implicits.
Arguments stage V : clear implicits.

(** [s1 | flat_map(and_then) | fmap(...)] over a local future and function, stored. *)
Lemma pipeline_composes_witness :
  let s : gmap nat (object Z) :=
    {[ 0%nat := OAwaitable (Awaitable (Wait 7 (fun z => Ret (Value z))));
       1%nat := OBinder (fun z => Ret (Value (2 * z)%Z)) ]} in
  exists a e, eval (SourceLocal 0) (PipeFlatMap (FnLocal 1)) [PipeFmap (FnTemp (fun z => Value (- z)%Z))]
    (mk_env s []) = Some (a, e) /\
    denotes 3 (drop_temps e) a (Wait 7 (fun z => Ret (Value (- (2 * z))%Z))).
Proof.
  intros s.
  destruct (pipeline_composes s 1 (SourceLocal 0) (PipeFlatMap (FnLocal 1))
    [PipeFmap (FnTemp (fun z => Value (- z)%Z))] (Wait 7 (fun z => Ret (Value z)))
    (flat_map_meaning (fun z => Ret (Value (2 * z)%Z))) [fmap_meaning (fun z => Value (- z)%Z)])
    as (a & e & E & _ & _ & D).
  - eexists. split; [reflexivity|]. unfold denotes. reflexivity.
  - reflexivity.
  - reflexivity.
  - exists a, e. split; [exact E|]. apply D. repeat constructor.
Defined.

(** [auto f = flat_map(just{3}, [](int n) -> future<int> {...}); co_await f;] *)
Lemma stored_flat_map_dangles_witness :
  exists a e, eval (SourceTemp (Awaitable (just 3%Z))) (CallFlatMap (FnTemp (fun z => Ret (Value (z + 1)%Z)))) []
    (mk_env ∅ []) = Some (a, e) /\
    denotes 2 (objects e) a (Ret (Value 4%Z)) /\
    forall fuel, await fuel (drop_temps e) a = undefined.
Proof.
  apply (stored_flat_map_dangles ∅ 1 (SourceTemp (Awaitable (just 3%Z)))
    (CallFlatMap (FnTemp (fun z => Ret (Value (z + 1)%Z)))) 3%Z
    (flat_map_meaning (fun z => Ret (Value (z + 1)%Z)))).
  - unfold source_denotes, denotes. reflexivity.
  - reflexivity.
  - intros [].
Defined.
