(* ===== verification/Spawn.v ===== *)
(** * [details/oneway_task.hpp] and [io_context::co_spawn]: detached coroutines

    [co_spawn(a)] makes the frame of [co_spawn_entry_point(a)], which owns [a] and
    awaits it.  A [oneway_task] is only a handle to that frame: it has no
    destructor, [start] takes the handle out and resumes the frame, and the frame
    ends its own life ([final_suspend] does not suspend).  The model is the store
    of frames with the two vectors of handles, [m_remote_spawn] and the one that
    [resolve_remote_coroutine] has swapped out and is walking through; a started
    frame may complete at any time and spawn others in between. *)

From S2P Require Import Prelude Coroutines.
From stdpp Require Import gmap relations.

(** A frame: suspended at its start, awaiting [a], or gone together with [a]. *)
Inductive frame := Created | Started | Gone.

(** [m_handle] of a [oneway_task]. *)
Record oneway_task := mk_oneway { m_handle : option nat }.

(** [bad]: a frame was resumed that was not suspended at its start.
    [swallowed]: exceptions that reached [unhandled_exception() {}]. *)
Record spawner := mk_spawner {
  frames : gmap nat frame;
  m_remote_spawn : list oneway_task;
  tasks : list oneway_task;
  dropped : list oneway_task;
  swallowed : list nat;
  bad : bool
}.

Definition spawner_init : spawner := mk_spawner ∅ [] [] [] [] false.

Definition with_frames (m : gmap nat frame) (s : spawner) : spawner :=
  mk_spawner m (m_remote_spawn s) (tasks s) (dropped s) (swallowed s) (bad s).

(** [h.resume()] of a frame at its initial suspension. *)
Definition resume (h : nat) (s : spawner) : spawner :=
  match frames s !! h with
  | Some Created => with_frames (<[h := Started]> (frames s)) s
  | _ => mk_spawner (frames s) (m_remote_spawn s) (tasks s) (dropped s) (swallowed s) true
  end.

(** [start()]: the handle is taken out first. *)
Definition start (t : oneway_task) (s : spawner) : oneway_task * spawner :=
  match m_handle t with
  | None => (t, s)
  | Some h => (mk_oneway None, resume h s)
  end.

(** [co_spawn(a)] with the new frame [h]. *)
Definition co_spawn (local : bool) (h : nat) (s : spawner) : spawner :=
  let s := with_frames (<[h := Created]> (frames s)) s in
  let task := mk_oneway (Some h) in
  if local then (start task s).2
  else mk_spawner (frames s) (m_remote_spawn s ++ [task]) (tasks s) (dropped s) (swallowed s) (bad s).

(** [std::swap(tasks, m_remote_spawn)] into the empty local vector. *)
Definition swap_out (s : spawner) : spawner :=
  mk_spawner (frames s) [] (m_remote_spawn s) (dropped s) (swallowed s) (bad s).

(** One turn of [for (auto &t : tasks) t.start();] *)
Definition start_next (s : spawner) : option spawner :=
  match tasks s with
  | [] => None
  | t :: rest =>
      let '(_, s) := start t s in
      Some (mk_spawner (frames s) (m_remote_spawn s) rest (dropped s) (swallowed s) (bad s))
  end.

(** The awaited [a] of frame [h] completes: the body returns, or its exception is
    dropped; then the frame destroys itself and [a]. *)
Definition complete (h : nat) (r : outcome unit) (s : spawner) : spawner :=
  mk_spawner (<[h := Gone]> (frames s)) (m_remote_spawn s) (tasks s) (dropped s)
    (match r with Throw e => swallowed s ++ [e] | Value _ => swallowed s end) (bad s).

(** [~io_context()]: the handles in the queue are destroyed, not the frames. *)
Definition end_context (s : spawner) : spawner :=
  mk_spawner (frames s) [] (tasks s) (dropped s ++ m_remote_spawn s) (swallowed s) (bad s).

Inductive step (s : spawner) : spawner -> Prop :=
| spawns local h : frames s !! h = None -> step s (co_spawn local h s)
| swaps : tasks s = [] -> m_remote_spawn s <> [] -> step s (swap_out s)
| starts s' : start_next s = Some s' -> step s s'
| completes h r : frames s !! h = Some Started -> step s (complete h r s)
| ends_context : tasks s = [] -> step s (end_context s).

(** ** Invariant *)

Definition handles (l : list oneway_task) : list nat := omap m_handle l.
Definition waiting (s : spawner) : list nat :=
  handles (m_remote_spawn s) ++ handles (tasks s) ++ handles (dropped s).

(** The frames that have not been started are those some handle refers to, each by
    one handle. *)
Record spawn_ok (s : spawner) : Prop := {
  so_bad : bad s = false;
  so_nodup : NoDup (waiting s);
  so_waiting h : h ∈ waiting s <-> frames s !! h = Some Created
}.

Lemma handles_app l l' : handles (l ++ l') = handles l ++ handles l'.
Proof. apply omap_app. Qed.

(** A new frame that goes to the waiting ones. *)
Lemma spawn_ok_perm s s' :
  bad s' = bad s -> frames s' = frames s -> waiting s' ≡ₚ waiting s -> spawn_ok s -> spawn_ok s'.
Proof.
  intros Eb Ef Ew [B N W]. split; [by rewrite Eb | by rewrite Ew |]. intros h. by rewrite Ew, Ef.
Qed.

Lemma spawn_ok_add s s' h :
  frames s !! h = None -> bad s' = bad s -> frames s' = <[h := Created]> (frames s) ->
  waiting s' ≡ₚ h :: waiting s -> spawn_ok s -> spawn_ok s'.
Proof.
  intros Hn Eb Ef Ew [B N W]. split; [by rewrite Eb | |].
  - rewrite Ew. constructor; [|done]. rewrite W, Hn. done.
  - intros h'. rewrite Ew, Ef, elem_of_cons. destruct (decide (h' = h)) as [->|Hne].
    + rewrite lookup_insert_eq. by split; [|left].
    + rewrite lookup_insert_ne by done. rewrite W. split; [by intros [?|?] | by right].
Qed.

(** A frame that leaves them: it is started. *)
Lemma spawn_ok_start s s' h :
  bad s' = bad s -> frames s' = <[h := Started]> (frames s) ->
  waiting s ≡ₚ h :: waiting s' -> spawn_ok s -> spawn_ok s'.
Proof.
  intros Eb Ef Ew [B N W]. rewrite Ew in N. apply NoDup_cons in N as [Hh N].
  split; [by rewrite Eb | done |]. intros h'. rewrite Ef. destruct (decide (h' = h)) as [->|Hne].
  - rewrite lookup_insert_eq. by split.
  - rewrite lookup_insert_ne, <- W, Ew, elem_of_cons by done. split; [by right | by intros [?|?]].
Qed.

Lemma resume_created s h :
  frames s !! h = Some Created -> resume h s = with_frames (<[h := Started]> (frames s)) s.
Proof. unfold resume. by intros ->. Qed.

Lemma start_next_ok s s' : spawn_ok s -> start_next s = Some s' -> spawn_ok s'.
Proof.
  intros I. unfold start_next. destruct (tasks s) as [|[[h|]] rest] eqn:E; simpl; [done | |].
  - assert (Ew : waiting s ≡ₚ h :: handles (m_remote_spawn s) ++ handles rest ++ handles (dropped s)).
    { unfold waiting. rewrite E. simpl. apply Permutation_sym, Permutation_middle. }
    rewrite resume_created by (apply (so_waiting _ I); rewrite Ew; apply elem_of_cons; by left).
    intros [= <-]. by apply (spawn_ok_start s _ h).
  - intros [= <-]. apply (spawn_ok_perm s); try done. unfold waiting. by rewrite E.
Qed.

Lemma co_spawn_ok local s h : frames s !! h = None -> spawn_ok s -> spawn_ok (co_spawn local h s).
Proof.
  intros Hn I. destruct local; unfold co_spawn; cbn [start m_handle snd].
  - rewrite resume_created by (cbn; apply lookup_insert_eq).
    destruct I as [B N W]. split; cbn; [done | done |]. intros h'. fold (waiting s).
    change (h' ∈ waiting s <-> <[h:=Started]> (<[h:=Created]> (frames s)) !! h' = Some Created).
    rewrite insert_insert_eq, W. destruct (decide (h' = h)) as [->|Hne].
    + rewrite lookup_insert_eq, Hn. done.
    + by rewrite lookup_insert_ne.
  - apply (spawn_ok_add s _ h); try done. unfold waiting. cbn. rewrite handles_app. cbn.
    rewrite <- app_assoc. symmetry. apply Permutation_middle.
Qed.

Lemma spawn_step_ok s s' : spawn_ok s -> step s s' -> spawn_ok s'.
Proof.
  intros I H. destruct H as [local h Hn | Et _ | s' E | h r Hh | Et].
  - by apply co_spawn_ok.
  - apply (spawn_ok_perm s); try done. unfold waiting, swap_out. cbn. by rewrite Et.
  - by apply (start_next_ok s).
  - destruct I as [B N W]. split; cbn; [done | done |]. intros h'. fold (waiting s).
    change (h' ∈ waiting s <-> <[h:=Gone]> (frames s) !! h' = Some Created). rewrite W.
    destruct (decide (h' = h)) as [->|Hne]; [rewrite Hh, lookup_insert_eq; done | by rewrite lookup_insert_ne].
  - apply (spawn_ok_perm s); try done. unfold waiting, end_context. cbn. rewrite Et, handles_app. cbn.
    apply Permutation_app_comm.
Qed.

Lemma spawn_reach_ok s : rtc step spawner_init s -> spawn_ok s.
Proof.
  intros R. assert (I : spawn_ok spawner_init).
  { split; [done | constructor |]. intros h. cbn. rewrite elem_of_nil, lookup_empty. done. }
  revert I. induction R as [|a b c H _ IH]; intros I; [done|]. by eapply IH, spawn_step_ok.
Qed.

(** ** Draining *)

Lemma drain_tasks s :
  spawn_ok s -> exists s', rtc step s s' /\ tasks s' = [] /\ m_remote_spawn s' = m_remote_spawn s /\
    dropped s' = dropped s /\
    forall h, frames s' !! h = (if decide (h ∈ handles (tasks s)) then Some Started else frames s !! h).
Proof.
  remember (tasks s) as ts eqn:E. revert s E. induction ts as [|t ts IH]; intros s E I.
  { exists s. split_and!; try done. }
  assert (Q : exists s1, start_next s = Some s1 /\ tasks s1 = ts /\ m_remote_spawn s1 = m_remote_spawn s /\
    dropped s1 = dropped s /\
    frames s1 = match m_handle t with Some h => <[h := Started]> (frames s) | None => frames s end).
  { unfold start_next. rewrite <- E. unfold start. destruct (m_handle t) as [h|] eqn:Eh.
    - rewrite resume_created; [by eexists|]. apply (so_waiting _ I). unfold waiting. rewrite <- E.
      cbn. rewrite Eh. set_solver.
    - by eexists. }
  destruct Q as (s1 & S1 & T1 & M1 & D1 & F1).
  destruct (IH s1 (eq_sym T1)) as (s' & R & T & M & D & F); [by apply (start_next_ok s)|].
  exists s'. split_and!; [by eapply rtc_l; [apply starts|] | done | by rewrite M | by rewrite D |].
  intros h. rewrite F, F1. cbn. destruct (m_handle t) as [h0|] eqn:Eh; [|done].
  destruct (decide (h ∈ handles ts)) as [Hin|Hin].
  - rewrite decide_True by set_solver. done.
  - destruct (decide (h = h0)) as [->|Hne].
    + rewrite lookup_insert_eq, decide_True by set_solver. done.
    + rewrite lookup_insert_ne, decide_False by set_solver. done.
Qed.

Lemma dropped_stays s s' h :
  rtc step s s' -> h ∈ handles (dropped s) -> h ∈ handles (dropped s').
Proof.
  intros R. induction R as [|a b c H _ IH]; [done|]. intros Hh. apply IH.
  destruct H as [local h' Hn | _ _ | s' E | h' r _ | _]; cbn; try done.
  - by destruct local; unfold co_spawn, start, resume; cbn; [rewrite lookup_insert_eq|].
  - unfold start_next, start, resume in E. by repeat (case_match; simplify_eq/=).
  - rewrite handles_app. set_solver.
Qed.

(** C14: detached coroutines live once.  In any sequence of spawns on either
    thread, turns of the loop and completions, no frame is resumed twice or
    after its end: the frames that are not started are exactly those that one
    handle in a queue (or one the context dropped) refers to.  Every queued frame
    is started by the turns that walk the two vectors; and a frame whose
    handle a context drops when it ends is never started nor destroyed. *)
Theorem spawned_frames_live_once s :
  rtc step spawner_init s ->
  bad s = false /\ NoDup (waiting s) /\ (forall h, h ∈ waiting s <-> frames s !! h = Some Created) /\
  (exists s', rtc step s s' /\ m_remote_spawn s' = [] /\ tasks s' = [] /\
     forall h, h ∈ handles (m_remote_spawn s) ++ handles (tasks s) -> frames s' !! h = Some Started) /\
  (forall h s', h ∈ handles (dropped s) -> rtc step s s' -> frames s' !! h = Some Created).
Proof.
  intros R. pose proof (spawn_reach_ok s R) as I. split_and!; [apply I | apply I | apply I | |].
  - destruct (drain_tasks s I) as (s1 & R1 & T1 & M1 & D1 & F1).
    assert (I1 : spawn_ok s1) by (apply spawn_reach_ok; by etrans).
    destruct (m_remote_spawn s) as [|t l] eqn:E.
    { exists s1. split_and!; try done. intros h Hh. by rewrite F1, decide_True by set_solver. }
    assert (S2 : step s1 (swap_out s1)) by (apply swaps; [done | by rewrite M1]).
    destruct (drain_tasks (swap_out s1)) as (s2 & R2 & T2 & M2 & _ & F2); [by eapply spawn_step_ok|].
    exists s2. split_and!; [etrans; [done | by eapply rtc_l] | done | done |].
    intros h Hh. rewrite F2. cbn. rewrite M1. case_decide; [done|]. rewrite F1, decide_True by set_solver. done.
  - intros h s' Hh R'. apply so_waiting; [apply spawn_reach_ok; by etrans|].
    unfold waiting. pose proof (dropped_stays s s' h R' Hh). set_solver.
Qed.

(** One frame runs to its end with an exception, one is queued and dropped. *)
Lemma spawned_frames_live_once_witness :
  exists s, rtc step spawner_init s /\ swallowed s = [4] /\ frames s !! 0 = Some Gone /\
    bad s = false /\ forall s', rtc step s s' -> frames s' !! 1 = Some Created.
Proof.
  assert (R : exists s, rtc step spawner_init s /\ swallowed s = [4] /\ frames s !! 0 = Some Gone /\
    1 ∈ handles (dropped s)).
  { eexists. split; [|split; [|split]].
    - eapply rtc_l; [by apply (spawns _ true 0)|]. eapply rtc_l; [by apply (spawns _ false 1)|].
      eapply rtc_l; [by apply (completes _ 0 (Throw 4))|]. eapply rtc_l; [by apply ends_context|]. apply rtc_refl.
    - reflexivity.
    - reflexivity.
    - apply list_elem_of_here. }
  destruct R as (s & R & E & G & D). exists s.
  destruct (spawned_frames_live_once s R) as (B & _ & _ & _ & L).
  split_and!; try assumption. intros s'. exact (L 1 s' D).
Defined.
