(* ===== verification/IoRun.v ===== *)
(** * Coroutines on the event loop: [co_spawn], [io_awaiter], [run()]

    [Coroutines] gives an awaitable as the tree of the operations it waits for,
    [IoContext] the loop that resumes awaiters.  Here coroutines of the first
    kind are spawned on a context of the second kind, over a ring that answers
    every operation: the loop then gives each of them the result that the
    operations' answers lead to, in a number of turns that does not depend on
    how many coroutines there are. *)

From S2P Require Import Prelude IoContext Coroutines.
From stdpp Require Import gmap.

Section run.
Context {A : Type}.
(** The result of an operation; how the end of coroutine [i] is observed. *)
Variable answer : nat -> Z.
Variable encode : nat -> Coroutines.outcome A -> nat.

(** ** A coroutine by itself *)

(** Its result when every operation gives its answer, and the operations it
    then waits for. *)
Fixpoint evaluate (m : co A) : Coroutines.outcome A :=
  match m with Ret r => r | Wait op f => evaluate (f (answer op)) end.
Fixpoint waits (m : co A) : nat :=
  match m with Ret _ => 0 | Wait op f => S (waits (f (answer op))) end.

(** [co_spawn_entry_point(a)]: [(void)co_await a], with its end observed.
    [await_suspend] of an operation suspends, [await_resume] takes [res]. *)
Fixpoint spawned (i : nat) (m : co A) : prog :=
  match m with
  | Ret r => Effect (encode i r) Return
  | Wait op f => AwaitIo op (fun res _ => spawned i (f res))
  end.

(** ** A ring that answers *)

(** [pending]: prepared and not completed; [ready]: completed and not seen, in
    the order in which they will be; [room]: free places of the submission
    queue, [size] of them after a submission. *)
Class AnswerRing (ring : Type) `{!Uring ring} := {
  pending : ring -> list sqe;
  ready : ring -> list sqe;
  room : ring -> nat;
  size : nat;
  push_room e r n : room r = S n -> exists r', sq_push e r = Some r' /\ room r' = n /\
    pending r' ≡ₚ e :: pending r /\ ready r' = ready r;
  submit_room r : room (uring_submit r) = size;
  submit_pending r : pending (uring_submit r) ≡ₚ pending r;
  submit_ready r : ready (uring_submit r) = ready r;
  kernel_room n r : room (kernel n r) = room r;
  kernel_split n r : exists l, pending r ≡ₚ l ++ pending (kernel n r) /\ ready (kernel n r) = ready r ++ l;
  kernel_all n r : length (pending r) <= n -> pending (kernel n (uring_submit r)) = [];
  pop_none r : cq_pop r = None <-> ready r = [];
  pop_some r c r' : cq_pop r = Some (c, r') -> exists e, ready r = e :: ready r' /\
    cqe_data c = sqe_data e /\ cqe_res c = answer (sqe_op e) /\ pending r' = pending r /\ room r' = room r;
  ready_count r : cq_ready r = length (ready r)
}.

Context {ring : Type} `{!Uring ring} `{!AnswerRing ring}.

(** ** Suspended coroutines *)

(** The awaiter at [j_id] is in the frame of coroutine [j_no], which waits for
    [j_op] and then goes on with [j_fn]. *)
Record job := mk_job { j_id : nat; j_no : nat; j_op : nat; j_fn : Z -> co A }.

Definition entry_of (j : job) : sqe := mk_sqe (j_op j) (Some (j_id j)).
Definition async_of (j : job) : async_result :=
  mk_async 0 0 (Some (fun res _ => spawned (j_no j) (j_fn j res))).
Definition job_tree (j : job) : co A := Wait (j_op j) (j_fn j).
Definition job_result (j : job) : nat := encode (j_no j) (evaluate (job_tree j)).

Definition jobs_map (js : list job) : gmap nat async_result :=
  list_to_map (List.map (fun j => (j_id j, async_of j)) js).

(** The entries that are not timers. *)
Definition real (l : list sqe) : list sqe := filter (fun e => is_Some (sqe_data e)) l.

(** What the bodies were observed to do. *)
Definition dids (tr : list event) : list nat :=
  omap (fun e => match e with Did n => Some n | _ => None end) tr.

(** [rs] are the suspended coroutines whose operation is completed, [ps] the
    others; at most [k] timers are pending. *)
Record tracks (c : io_context) (rs ps : list job) (k : nat) : Prop := {
  t_awaiters : awaiters c = jobs_map (rs ++ ps);
  t_nodup : NoDup (List.map j_id (rs ++ ps));
  t_next : Forall (fun j => j_id j < next_id c) (rs ++ ps);
  t_ready : real (ready (m_ring c)) = List.map entry_of rs;
  t_pending : real (pending (m_ring c)) ≡ₚ List.map entry_of ps;
  t_count : length (pending (m_ring c)) <= length ps + k
}.

(** What of the context a running coroutine leaves alone. *)
Definition quiet_part (c : io_context (ring := ring)) : list prog * list prog * list prog * bool :=
  (m_remote_tasks c, m_remote_spawn c, m_local_tasks c, m_is_stopped c).

(** ** One coroutine runs *)

Lemma dids_snoc tr e : dids (tr ++ [e]) = dids tr ++ match e with Did n => [n] | _ => [] end.
Proof. unfold dids. rewrite omap_app. by destruct e. Qed.

Lemma jobs_map_cons j js : jobs_map (j :: js) = <[j_id j := async_of j]> (jobs_map js).
Proof. done. Qed.

Lemma jobs_map_perm js js' :
  NoDup (List.map j_id js) -> js ≡ₚ js' -> jobs_map js = jobs_map js'.
Proof.
  intros N P. unfold jobs_map. apply list_to_map_proper.
  - rewrite <- list_fmap_compose. exact N.
  - by rewrite P.
Qed.

Lemma real_cons e l : real (e :: l) = match sqe_data e with Some _ => e :: real l | None => real l end.
Proof.
  unfold real. rewrite filter_cons. destruct (sqe_data e) as [x|].
  - by rewrite decide_True by by eexists.
  - rewrite decide_False; [done|]. by intros [? ?].
Qed.

Lemma real_perm l l' : l ≡ₚ l' -> real l ≡ₚ real l'.
Proof. intros P. unfold real. by rewrite P. Qed.

Lemma next_fresh j js n : Forall (fun j => j_id j < n) js -> j_id j = n -> j_id j ∉ List.map j_id js.
Proof.
  intros F E H. apply list_elem_of_fmap in H as (j' & E' & H').
  eapply Forall_forall in F; [|done]. lia.
Qed.

(** A coroutine suspends on a new awaiter. *)
Lemma suspend_tracks c rs ps k i op f r' :
  tracks c rs ps k -> pending r' ≡ₚ mk_sqe op (Some (next_id c)) :: pending (m_ring c) ->
  ready r' = ready (m_ring c) ->
  tracks (with_awaiters
            (<[next_id c := set_continuation (fun res _ => spawned i (f res)) (mk_async 0 0 None)]> (awaiters c))
            (S (next_id c)) (with_ring r' c))
    rs (mk_job (next_id c) i op f :: ps) k.
Proof.
  intros [Ta Tn Tx Tr Tp Tc] P R. set (j := mk_job (next_id c) i op f).
  assert (Pm : j :: rs ++ ps ≡ₚ rs ++ j :: ps) by apply Permutation_middle.
  assert (N : NoDup (List.map j_id (j :: rs ++ ps))).
  { constructor; [by eapply (next_fresh j) | done]. }
  split; cbn [awaiters with_awaiters next_id with_ring m_ring].
  - rewrite <- (jobs_map_perm _ _ N Pm), Ta. done.
  - by rewrite <- Pm.
  - rewrite <- Pm. constructor; [simpl; lia|]. eapply Forall_impl; [exact Tx|]. simpl. lia.
  - by rewrite R.
  - rewrite (real_perm _ _ P), real_cons. simpl. by rewrite Tp.
  - rewrite P. simpl. lia.
Qed.

Lemma exec_spawned i m c rs ps k q :
  tracks c rs ps k -> S q <= room (m_ring c) ->
  exists c' new, exec true (spawned i m) c = Ok c' /\ tracks c' rs (new ++ ps) k /\ q <= room (m_ring c') /\
    dids (trace c') ++ List.map job_result new = dids (trace c) ++ [encode i (evaluate m)] /\
    Forall (fun j => waits (job_tree j) = waits m) new /\
    ready (m_ring c') = ready (m_ring c) /\ quiet_part c' = quiet_part c.
Proof.
  intros T L. destruct m as [r | op f]; simpl.
  - eexists _, []. split; [done|]. split_and!; [by destruct T | simpl; lia | | done | done | done].
    simpl. by rewrite dids_snoc, app_nil_r.
  - unfold await_suspend. simpl. destruct (room (m_ring c)) as [|n] eqn:E; [lia|].
    destruct (push_room (mk_sqe op (Some (next_id c))) _ _ E) as (r' & -> & Ek & P & R). simpl.
    eexists _, [mk_job (next_id c) i op f]. split; [done|].
    split_and!; [by apply suspend_tracks | simpl; lia | done | by repeat constructor | done | done].
Qed.

(** ** One completion *)

Lemma tracks_drop c rs ps k r' :
  tracks c rs ps k -> real (ready r') = List.map entry_of rs -> pending r' = pending (m_ring c) ->
  tracks (with_ring r' c) rs ps k.
Proof. intros [Ta Tn Tx Tr Tp Tc] R P. split; simpl; try done; by rewrite P. Qed.

(** The awaiter of the first completed job dies. *)
Lemma tracks_resume c j rs ps k r' :
  tracks c (j :: rs) ps k -> real (ready r') = List.map entry_of rs -> pending r' = pending (m_ring c) ->
  tracks (log (Resumed (j_id j)) (with_awaiters (delete (j_id j) (awaiters c)) (next_id c) (with_ring r' c))) rs ps k.
Proof.
  intros [Ta Tn Tx Tr Tp Tc] R P. simpl in *. apply NoDup_cons in Tn as [Nj Tn].
  apply Forall_cons in Tx as [_ Tx]. split; simpl; try done; rewrite ?P; try done.
  rewrite Ta, jobs_map_cons. apply delete_insert_id. unfold jobs_map.
  apply not_elem_of_list_to_map. by rewrite <- list_fmap_compose.
Qed.

(** Each of them waits for at most [d] operations. *)
Definition within (d : nat) (js : list job) : Prop := Forall (fun j => waits (job_tree j) <= d) js.

Lemma within_mono d d' js : d <= d' -> within d js -> within d' js.
Proof. intros L W. eapply Forall_impl; [exact W|]. simpl. lia. Qed.

Lemma on_cqe_spec c j rs ps k q e r' d :
  tracks c (j :: rs) ps k -> S q <= room (m_ring c) ->
  real (ready r') = List.map entry_of rs -> pending r' = pending (m_ring c) -> room r' = room (m_ring c) ->
  cqe_data e = Some (j_id j) -> cqe_res e = answer (j_op j) ->
  within (S d) [j] -> within d ps ->
  exists c' new, on_cqe e (with_ring r' c) = Ok c' /\ tracks c' rs (new ++ ps) k /\ q <= room (m_ring c') /\
    dids (trace c') ++ List.map job_result new = dids (trace c) ++ [job_result j] /\
    within d (new ++ ps) /\ ready (m_ring c') = ready r' /\ quiet_part c' = quiet_part c.
Proof.
  intros T L R P Ro Ed Er Wj Wp. unfold on_cqe. rewrite Ed. cbn [awaiters with_ring].
  pose proof (tracks_resume c j rs ps k r' T R P) as T'. destruct T as [Ta _ _ _ _ _].
  rewrite Ta. cbn [app]. rewrite jobs_map_cons, lookup_insert_eq. cbn [or_crash mbind outcome_bind].
  unfold resume, async_of, set_result. cbn [continuation res]. rewrite Er.
  set (c1 := log _ _) in *. change (delete (j_id j) (awaiters (with_ring r' c))) with (delete (j_id j) (awaiters c)).
  destruct (exec_spawned (j_no j) (j_fn j (answer (j_op j))) c1 rs ps k q T') as
    (c' & new & E & T1 & F1 & D1 & W1 & R1 & Q1);
    [unfold c1; cbn [m_ring log with_awaiters with_ring]; lia |].
  rewrite E. exists c', new. split_and!; try done.
  - rewrite D1. unfold c1. simpl. by rewrite dids_snoc, app_nil_r.
  - unfold within in *. apply Forall_app. split; [|done]. apply Forall_cons in Wj as [Wj _].
    unfold job_tree at 1 in Wj. cbn [waits] in Wj. eapply Forall_impl; [exact W1|]. intros a ->. lia.
Qed.

Lemma for_each_spec d k q fuel : forall c rs ps,
  length (ready (m_ring c)) <= fuel ->
  tracks c rs ps k -> length rs + q <= room (m_ring c) -> within (S d) rs -> within d ps ->
  exists c' ps', for_each_cqe fuel c = Ok c' /\ tracks c' [] ps' k /\ ready (m_ring c') = [] /\
    q <= room (m_ring c') /\
    dids (trace c') ++ List.map job_result ps' ≡ₚ dids (trace c) ++ List.map job_result (rs ++ ps) /\
    within d ps' /\ quiet_part c' = quiet_part c.
Proof.
  induction fuel as [|fuel IH]; intros c rs ps Lf T L Wr Wp; cbn [for_each_cqe];
    (destruct (cq_pop (m_ring c)) as [[e r']|] eqn:E;
     [apply pop_some in E as (x & Rx & Ed & Er & P & Ro) | apply pop_none in E]).
  2, 4: pose proof T as [_ _ _ Tr _ _]; rewrite E in Tr; destruct rs; [|done];
    exists c, ps; split_and!; try done; simpl in L; lia.
  1: rewrite Rx in Lf; simpl in Lf; lia.
  rewrite Rx in Lf. simpl in Lf. pose proof T as [_ _ _ Tr _ _]. rewrite Rx, real_cons in Tr.
  destruct (sqe_data x) as [y|] eqn:Ex.
  - destruct rs as [|j rs]; [done|]. simpl in Tr, L. injection Tr as Eq Tr. subst x.
    simpl in Ed, Er, Ex. injection Ex as <-. apply Forall_cons in Wr as [Wj Wr].
    destruct (on_cqe_spec c j rs ps k (length rs + q) e r' d T L Tr P Ro Ed Er) as
      (c1 & new & -> & T1 & F1 & D1 & W1 & R1 & Q1); [by apply Forall_singleton | done |].
    cbn [mbind outcome_bind].
    destruct (IH c1 rs (new ++ ps)) as (c' & ps' & -> & T2 & R2 & F2 & D2 & W2 & Q2);
      [rewrite R1; lia | done | done | done | done |].
    exists c', ps'. split_and!; try done.
    + rewrite D2, !map_app. simpl. rewrite (Permutation_app_comm (List.map job_result rs)), <- !app_assoc.
      rewrite (app_assoc (dids (trace c1))), D1, <- app_assoc. simpl.
      by rewrite (Permutation_app_comm (List.map job_result ps)).
    + congruence.
  - unfold on_cqe. rewrite Ed. cbn [mbind outcome_bind].
    destruct (IH (with_ring r' c) rs ps) as (c' & ps' & -> & T2 & R2 & F2 & D2 & W2 & Q2);
      [simpl; lia | by apply tracks_drop | simpl; lia | done | done |].
    exists c', ps'. by split_and!.
Qed.

(** ** The coroutines are started *)

(** [runner] runs the coroutines of a list one after the other, each after [pre],
    which at most records the start. *)
Section start.
Variable runner : list (nat * co A) -> io_context (ring := ring) -> IoContext.outcome (ring := ring) (io_context (ring := ring)).
Variable pre : nat -> co A -> io_context (ring := ring) -> io_context (ring := ring).
Hypothesis runner_nil : forall c, runner [] c = Ok c.
Hypothesis runner_cons : forall i m l c,
  runner ((i, m) :: l) c = (c ← swallow (exec true (spawned i m) (pre i m c)); runner l c).
Hypothesis pre_records : forall i m c, pre i m c = c \/ exists q p, pre i m c = log (Started q p) c.

Lemma pre_keeps i m c ps k :
  tracks c [] ps k ->
  tracks (pre i m c) [] ps k /\ m_ring (pre i m c) = m_ring c /\ dids (trace (pre i m c)) = dids (trace c) /\
  quiet_part (pre i m c) = quiet_part c.
Proof.
  intros T. destruct (pre_records i m c) as [-> | (q & p & ->)]; [done|].
  split_and!; [by destruct T | done | | done]. simpl. by rewrite dids_snoc, app_nil_r.
Qed.

Lemma runner_spec d k q : forall l c ps,
  tracks c [] ps k -> length l + q <= room (m_ring c) ->
  Forall (fun '(i, m) => waits m <= d) l -> within d ps ->
  exists c' ps', runner l c = Ok c' /\
    tracks c' [] ps' k /\ ready (m_ring c') = ready (m_ring c) /\ q <= room (m_ring c') /\
    dids (trace c') ++ List.map job_result ps' ≡ₚ
    dids (trace c) ++ List.map job_result ps ++ List.map (fun '(i, m) => encode i (evaluate m)) l /\
    within d ps' /\ quiet_part c' = quiet_part c.
Proof.
  induction l as [|[i m] l IH]; intros c ps T L Wl Wp.
  - exists c, ps. rewrite runner_nil. simpl. rewrite app_nil_r. by split_and!.
  - simpl in L. apply Forall_cons in Wl as [Wm Wl]. rewrite runner_cons.
    destruct (pre_keeps i m c ps k T) as (T' & Er & Ed & Eq).
    destruct (exec_spawned i m _ [] ps k (length l + q) T') as (c1 & new & -> & T1 & F1 & D1 & W1 & R1 & Q1);
      [by rewrite Er|].
    cbn [mbind outcome_bind swallow].
    destruct (IH c1 (new ++ ps)) as (c' & ps' & -> & T2 & R2 & F2 & D2 & W2 & Q2); [done | done | done | |].
    { unfold within in *. apply Forall_app. split; [|done]. eapply Forall_impl; [exact W1|]. simpl. intros a ->. done. }
    exists c', ps'. split_and!; try done.
    + by rewrite R2, R1, Er.
    + rewrite D2, map_app, <- app_assoc. rewrite (app_assoc (dids (trace c1))), D1. simpl.
      rewrite Ed, <- !app_assoc. simpl. apply Permutation_app_head, Permutation_middle.
    + by rewrite Q2, Q1.
Qed.
End start.

(** From the queue of spawned coroutines. *)
Definition run_queue (l : list (nat * co A)) : io_context -> IoContext.outcome (ring := ring) (io_context (ring := ring)) :=
  run_all RemoteSpawn (List.map (fun '(i, m) => spawned i m) l).

(** From a coroutine on the context's own thread, which starts them in turn. *)
Definition start_each (l : list (nat * co A)) : prog :=
  foldr (fun '(i, m) k => CoSpawn (spawned i m) k) Return l.

Definition run_queue_spec d k q :=
  runner_spec run_queue (fun i m => log (Started RemoteSpawn (spawned i m)))
    (fun _ => eq_refl) (fun _ _ _ _ => eq_refl) (fun _ _ _ => or_intror (ex_intro _ _ (ex_intro _ _ eq_refl))) d k q.
Definition start_each_spec d k q :=
  runner_spec (fun l => exec true (start_each l)) (fun _ _ c => c)
    (fun _ => eq_refl) (fun _ _ _ _ => eq_refl) (fun _ _ _ => or_introl eq_refl) d k q.

(** ** A turn and its submission *)

(** Other threads leave the context alone during the turn. *)
Definition calm (t : turn) : Prop :=
  t_before t = [] /\ t_at_spawn t = [] /\ t_between t = [] /\ t_at_task t = [] /\ t_after t = [] /\
  t_token t = false.

(** The kernel completes everything when there are at most [n] entries. *)
Definition full (n : nat) (t : turn) : bool := (n <=? t_kernel t)%nat.

Lemma nonpoll_submit_spec c ps k :
  tracks c [] ps k -> 1 <= room (m_ring c) ->
  exists r, nonpoll_submit c = Ok (with_ring (uring_submit r) c) /\
    tracks (with_ring (uring_submit r) c) [] ps (S k) /\ ready (uring_submit r) = ready (m_ring c).
Proof.
  intros [Ta Tn Tx Tr Tp Tc] L. unfold nonpoll_submit.
  destruct (room (m_ring c)) as [|n] eqn:E; [lia|].
  destruct (push_room (mk_sqe timer_op None) _ _ E) as (r & -> & Ek & P & R). exists r. split; [done|].
  split; [|by rewrite submit_ready].
  split; simpl; try done.
  - by rewrite submit_ready, R.
  - rewrite (real_perm _ _ (submit_pending r)), (real_perm _ _ P), real_cons. done.
  - rewrite submit_pending, P. simpl. lia.
Qed.

Lemma real_length l : length (real l) <= length l.
Proof. apply length_filter. Qed.

Lemma real_app l l' : real (l ++ l') = real l ++ real l'.
Proof. apply filter_app. Qed.

(** The jobs of a list of entries that is split in two. *)
Lemma entries_split l l' ps :
  real l ++ real l' ≡ₚ List.map entry_of ps ->
  exists rs ps', real l = List.map entry_of rs /\ real l' = List.map entry_of ps' /\ rs ++ ps' ≡ₚ ps.
Proof.
  intros P. apply Permutation_map_inv in P as (js & E & P').
  exists (take (length (real l)) js), (drop (length (real l)) js).
  rewrite <- firstn_map, <- skipn_map, <- E, take_app_length, drop_app_length, take_drop. by split_and!.
Qed.

(** The kernel completes some entries, all of them in a full turn. *)
Lemma kernel_spec c ps k r n :
  tracks c [] ps k -> m_ring c = uring_submit r -> ready (m_ring c) = [] ->
  exists rs ps', rs ++ ps' ≡ₚ ps /\ tracks (with_ring (kernel n (m_ring c)) c) rs ps' k /\
    room (kernel n (m_ring c)) = size /\ (length ps + k <= n -> ps' = []).
Proof.
  intros [Ta Tn Tx Tr Tp Tc] E R. simpl in *.
  destruct (kernel_split n (m_ring c)) as (l & Pl & Rl). rewrite R in Rl. simpl in Rl.
  destruct (entries_split l (pending (kernel n (m_ring c))) ps) as (rs & ps' & El & Ep & P).
  { rewrite <- real_app. by rewrite <- (real_perm _ _ Pl). }
  assert (Lr : length rs <= length l) by (rewrite <- (length_map entry_of rs), <- El; apply real_length).
  exists rs, ps'. split_and!; [done | | |].
  - split; simpl; rewrite ?Rl, ?Ep; try done.
    + rewrite Ta. symmetry. apply jobs_map_perm; by rewrite P.
    + by rewrite P.
    + by rewrite P.
    + apply Permutation_length in Pl, P. rewrite length_app in Pl, P. lia.
  - rewrite kernel_room, E. apply submit_room.
  - intros L. assert (K : pending (kernel n (m_ring c)) = []).
    { rewrite E. apply kernel_all. rewrite E, submit_pending in Tc. lia. }
    rewrite K in Ep. by destruct ps'.
Qed.

(** Between two turns: [ps] are suspended and wait for at most [d] operations
    each; what was observed and what they will give is [expected]. *)
Record settled (c : io_context (ring := ring)) (ps : list job) (expected : list nat) (k d : nat) : Prop := {
  s_tracks : tracks c [] ps k;
  s_ring : exists r, m_ring c = uring_submit r;
  s_ready : ready (m_ring c) = [];
  s_idle : quiet_part c = ([], [], [], false);
  s_expected : dids (trace c) ++ List.map job_result ps ≡ₚ expected;
  s_within : within d ps
}.

Lemma expected_length (c : io_context (ring := ring)) (ps : list job) expected :
  dids (trace c) ++ List.map job_result ps ≡ₚ expected -> length ps <= length expected.
Proof. intros P. rewrite <- P, length_app, length_map. lia. Qed.

Lemma submit_settled c ps expected k d :
  tracks c [] ps k -> 1 <= room (m_ring c) -> ready (m_ring c) = [] ->
  quiet_part c = ([], [], [], false) -> dids (trace c) ++ List.map job_result ps ≡ₚ expected -> within d ps ->
  exists c', nonpoll_submit c = Ok c' /\ settled c' ps expected (S k) d.
Proof.
  intros T L R Q P W. destruct (nonpoll_submit_spec c ps k T L) as (r & E & T1 & R1).
  eexists. split; [exact E|]. split; try done; [by exists r | simpl; by rewrite R1].
Qed.

(** In an idle context the three queues have nothing to run. *)
Lemma resolve_idle c :
  quiet_part c = ([], [], [], false) ->
  resolve_remote_task [] c = Ok (0, c) /\ resolve_local_task c = Ok (0, c) /\
  resolve_remote_coroutine [] c = Ok (0, c).
Proof.
  unfold quiet_part. intros [= E1 E2 E3 E4].
  unfold resolve_remote_task, resolve_local_task, resolve_remote_coroutine, resolve. simpl.
  by rewrite E1, E2, E3.
Qed.

(** A turn takes every coroutine whose operation completed to its next one; a
    full turn does so for all. *)
Lemma turn_settled t c ps expected k d n :
  settled c ps expected k d -> length expected < size -> calm t -> length expected + k <= n ->
  exists m c1 c2 ps', run_once t c = Ok (m, c1) /\ nonpoll_submit c1 = Ok c2 /\
    settled c2 ps' expected (S k) (if full n t then pred d else d).
Proof.
  intros [T [r Er] R Q P W] L (B1 & B2 & B3 & B4 & B5 & _) N.
  pose proof (expected_length _ _ _ P) as Lp. unfold run_once. rewrite B1, B2, B3, B4, B5.
  destruct (kernel_spec c ps k r (t_kernel t) T Er R) as (rs & ps1 & Prs & T1 & Ro & Full).
  set (c1 := with_ring (kernel (t_kernel t) (m_ring c)) c) in *.
  assert (Lrs : length rs <= length ps) by (rewrite <- Prs, length_app; lia).
  assert (Wb : within d (rs ++ ps1)) by (unfold within; by rewrite Prs).
  apply Forall_app in Wb as [Wr Wp]. set (d' := if full n t then pred d else d).
  destruct (for_each_spec d' k 1 (cq_ready (m_ring c1)) c1 rs ps1) as (c2 & ps' & -> & T2 & R2 & F2 & D2 & W2 & Q2).
  - by rewrite ready_count.
  - done.
  - unfold c1. simpl. lia.
  - eapply within_mono; [|exact Wr]. unfold d'. destruct (full n t); lia.
  - unfold d', full in *. destruct (n <=? t_kernel t)%nat eqn:E; [|done].
    apply Nat.leb_le in E. rewrite Full by lia. constructor.
  - cbn [mbind outcome_bind calls fold_left]. assert (Q3 : quiet_part c2 = ([], [], [], false)) by (rewrite Q2; exact Q).
    destruct (resolve_idle c2 Q3) as (E1 & E2 & E3'). rewrite E3'. cbn [mbind outcome_bind].
    rewrite E1. cbn [mbind outcome_bind]. rewrite E2. cbn [mbind outcome_bind].
    destruct (submit_settled c2 ps' expected k d') as (c3 & E3 & S3); [done | done | done | done | | done |].
    + rewrite D2, Prs. exact P.
    + by do 4 eexists.
Qed.

(** The number of full turns. *)
Definition full_turns (n : nat) (ts : list turn) : nat := length (filter (fun t => full n t = true) ts).

Lemma turns_settled n ts : forall ec c ps expected k d,
  settled c ps expected k d -> length expected < size -> Forall calm ts -> length expected + k + length ts <= n ->
  exists c' ps', turns run_submit ts ec c = Ok (false, c') /\
    settled c' ps' expected (k + length ts) (d - full_turns n ts).
Proof.
  induction ts as [|t ts IH]; intros ec c ps expected k d S L C N; simpl in N.
  - pose proof S as [T r R Q P W]. injection Q as _ _ _ Q. simpl. rewrite Q. exists c, ps. split; [done|].
    unfold full_turns. simpl. by rewrite Nat.add_0_r, Nat.sub_0_r.
  - apply Forall_cons in C as [Ct C]. pose proof S as [_ _ _ Q _ _]. injection Q as _ _ _ Q.
    cbn [turns]. rewrite Q. destruct (Ct) as (_ & _ & _ & _ & _ & ->).
    destruct (turn_settled t c ps expected k d n S L Ct) as (m & c1 & c2 & ps' & -> & E & S2); [lia|].
    cbn [mbind outcome_bind]. change (run_submit m ec c1) with (c ← nonpoll_submit c1; Ok (ec, c)).
    rewrite E. cbn [mbind outcome_bind].
    destruct (IH ec c2 ps' expected _ _ S2 L C ltac:(lia)) as (c3 & ps3 & -> & S3).
    exists c3, ps3. split; [done|]. replace (k + length (t :: ts)) with (Datatypes.S k + length ts) by (simpl; lia).
    unfold full_turns in *. rewrite filter_cons. destruct (full n t); simpl in *.
    + by replace (d - Datatypes.S (length (filter (fun t => full n t = true) ts)))
        with (pred d - length (filter (fun t => full n t = true) ts)) by lia.
    + done.
Qed.

(** ** The first turn *)

Lemma calls_spawn l (c : io_context (ring := ring)) :
  calls (List.map RSpawn l) c =
  mk_ctx (m_ring c) (m_remote_tasks c) (m_remote_spawn c ++ l) (m_local_tasks c) (m_is_stopped c)
    (awaiters c) (next_id c) (posting c) (trace c ++ List.map (Pushed RemoteSpawn) l).
Proof.
  revert c. induction l as [|p l IH]; intros c; simpl.
  - rewrite !app_nil_r. by destruct c.
  - unfold calls in *. simpl. rewrite IH. simpl. by rewrite <- !app_assoc.
Qed.

Lemma resolve_spawn (c : io_context (ring := ring)) :
  exists n, resolve_remote_coroutine [] c =
    (c' ← run_all RemoteSpawn (m_remote_spawn c) (with_remote_spawn [] c); Ok (n, c')).
Proof.
  unfold resolve_remote_coroutine, resolve. destruct c as [rg rt rs lt st aw nx po tr]. simpl.
  destruct rs as [|p rs]; [by exists 0 | by exists (length (p :: rs))].
Qed.

Lemma dids_pushed l : dids (List.map (Pushed RemoteSpawn) l) = [].
Proof. by induction l. Qed.

(** The coroutines with their numbers. *)
Definition numbered (ms : list (co A)) : list (nat * co A) := imap (fun i m => (i, m)) ms.

(** The results of the coroutines. *)
Definition results (ms : list (co A)) : list nat := imap (fun i m => encode i (evaluate m)) ms.

Lemma numbered_within ms d :
  Forall (fun m => waits m <= d) ms -> Forall (fun '(i, m) => waits m <= d) (numbered ms).
Proof.
  intros W. unfold numbered. apply Forall_lookup. intros i x Hx. rewrite list_lookup_imap in Hx.
  destruct (ms !! i) as [m|] eqn:Em; simplify_eq/=. by apply (Forall_lookup_1 _ _ _ _ W Em).
Qed.

(** Nothing happens in a ring without entries. *)
Lemma kernel_empty n r :
  pending r = [] -> ready r = [] ->
  pending (kernel n r) = [] /\ ready (kernel n r) = [] /\ cq_ready (kernel n r) = 0 /\ cq_pop (kernel n r) = None.
Proof.
  intros Pr Rr. destruct (kernel_split n r) as (l & Pl & Rl).
  rewrite Pr in Pl. apply Permutation_nil in Pl. apply app_eq_nil in Pl as [-> Pk].
  rewrite Rr, app_nil_r in Rl. rewrite ready_count, Rl. split_and!; try done. by apply pop_none.
Qed.

(** A context that was empty and in which the coroutines of [ms] have been
    started. *)
Lemma started_settled (c1 : io_context (ring := ring)) ps ms d :
  tracks c1 [] ps 0 -> ready (m_ring c1) = [] -> 1 <= room (m_ring c1) ->
  dids (trace c1) ++ List.map job_result ps ≡ₚ
    [] ++ [] ++ List.map (fun '(i, m) => encode i (evaluate m)) (numbered ms) ->
  within d ps -> quiet_part c1 = ([], [], [], false) ->
  exists c2, nonpoll_submit c1 = Ok c2 /\ settled c2 ps (results ms) 1 d.
Proof.
  intros T R F D W Q. apply submit_settled; try done. rewrite D. unfold numbered. simpl. by rewrite fmap_imap.
Qed.

Lemma first_turn t ms r d :
  pending r = [] -> ready r = [] -> room r = size -> length ms < size ->
  calm t -> Forall (fun m => waits m <= d) ms ->
  exists n c1 c2 ps,
    run_once t (calls (List.map RSpawn (imap spawned ms)) (ctx_init r)) = Ok (n, c1) /\
    nonpoll_submit c1 = Ok c2 /\ settled c2 ps (results ms) 1 d.
Proof.
  intros Pr Rr Ro L (B1 & B2 & B3 & B4 & B5 & _) W. unfold run_once. rewrite B1, B2, B3, B4, B5.
  rewrite calls_spawn. simpl. destruct (kernel_empty (t_kernel t) r Pr Rr) as (Pk & Rk & -> & Ek). simpl. rewrite Ek.
  cbn [mbind outcome_bind calls fold_left].
  set (c0 := with_ring _ _). destruct (resolve_spawn c0) as [n ->].
  assert (T0 : tracks (with_remote_spawn [] c0) [] [] 0).
  { split; simpl; rewrite ?Pk, ?Rk; try done; constructor. }
  replace (run_all RemoteSpawn (m_remote_spawn c0)) with (run_queue (numbered ms))
    by (unfold c0, run_queue, numbered; simpl; by rewrite fmap_imap).
  destruct (run_queue_spec d 0 1 (numbered ms) _ [] T0) as (c1 & ps & -> & T1 & R1 & F1 & D1 & W1 & Q1).
  { unfold numbered. simpl. rewrite length_imap, kernel_room. lia. }
  { by apply numbered_within. }
  { constructor. }
  cbn [mbind outcome_bind]. assert (Q3 : quiet_part c1 = ([], [], [], false)) by (rewrite Q1; done).
  destruct (resolve_idle c1 Q3) as (E1 & E2 & _). rewrite E1. cbn [mbind outcome_bind].
  rewrite E2. cbn [mbind outcome_bind].
  destruct (started_settled c1 ps ms d) as (c2 & E & S); try done; [by rewrite R1 | | by do 4 eexists].
  rewrite D1. simpl. by rewrite dids_pushed.
Qed.

(** A task posted on the context's own thread, that spawns a coroutine which
    starts those of [ms]. *)
Definition posted (ms : list (co A)) (r : ring) : io_context :=
  post true (CoSpawn (start_each (numbered ms)) Return) (ctx_init r).

Lemma first_turn_posted t ms r d :
  pending r = [] -> ready r = [] -> room r = size -> length ms < size ->
  calm t -> Forall (fun m => waits m <= d) ms ->
  exists n c1 c2 ps,
    run_once t (posted ms r) = Ok (n, c1) /\ nonpoll_submit c1 = Ok c2 /\ settled c2 ps (results ms) 1 d.
Proof.
  intros Pr Rr Ro L (B1 & B2 & B3 & B4 & B5 & _) W. unfold run_once. rewrite B1, B2, B3, B4, B5.
  unfold posted, post. cbn [negb].
  destruct (kernel_empty (t_kernel t) r Pr Rr) as (Pk & Rk & Ck & Ek).
  simpl. rewrite Ck. simpl. rewrite Ek. simpl.
  unfold resolve_local_task, resolve. cbn [queue m_local_tasks with_ring push log with_queue with_local_tasks ctx_init
    app calls fold_left run_all exec].
  match goal with |- context [exec true _ ?c] => set (c0 := c) end. assert (T0 : tracks c0 [] [] 0).
  { split; simpl; rewrite ?Pk, ?Rk; try done; constructor. }
  destruct (start_each_spec d 0 1 (numbered ms) _ [] T0) as (c1 & ps & -> & T1 & R1 & F1 & D1 & W1 & Q1).
  { unfold numbered. simpl. rewrite length_imap, kernel_room. lia. }
  { by apply numbered_within. }
  { constructor. }
  cbn [mbind outcome_bind].
  destruct (started_settled c1 ps ms d) as (c2 & E & S); try done; [by rewrite R1 | by do 4 eexists].
Qed.

(** A run from a context whose first turn starts the coroutines. *)
Lemma run_settled c0 ms t ts ec d :
  with_stopped false c0 = c0 -> length ms < size -> Forall calm (t :: ts) ->
  (exists n c1 c2 ps, run_once t c0 = Ok (n, c1) /\ nonpoll_submit c1 = Ok c2 /\ settled c2 ps (results ms) 1 d) ->
  exists c ps, run None (t :: ts) ec c0 = Ran false c /\
    dids (trace c) ++ List.map job_result ps ≡ₚ results ms /\ (exists k, tracks c [] ps k) /\
    within (d - full_turns (S (length ms + length ts)) ts) ps.
Proof.
  intros E0 L [Ct C]%Forall_cons (n & c1 & c2 & ps & E1 & E2 & S). unfold run, loop. rewrite E0.
  cbn [turns]. replace (m_is_stopped c0) with false by (by rewrite <- E0).
  destruct Ct as (_ & _ & _ & _ & _ & ->). rewrite E1. cbn [mbind outcome_bind].
  change (run_submit n ec c1) with (c ← nonpoll_submit c1; Ok (ec, c)). rewrite E2. cbn [mbind outcome_bind].
  destruct (turns_settled (Datatypes.S (length ms + length ts)) ts ec c2 ps _ 1 d S) as (c' & ps' & -> & [T _ _ _ P W']);
    [unfold results; by rewrite length_imap | done | unfold results; rewrite length_imap; lia |].
  exists c', ps'. split_and!; [done | done | by eexists | done].
Qed.

(** One awaiter per suspended coroutine. *)
Lemma tracks_awaiters c ps k : tracks c [] ps k -> length (map_to_list (awaiters c)) = length ps.
Proof.
  intros [-> N _ _ _ _]. unfold jobs_map. simpl in *. rewrite map_to_list_to_map; [apply length_map|].
  by rewrite <- list_fmap_compose.
Qed.

Lemma within_0 ps : within 0 ps -> ps = [].
Proof. intros W. destruct ps as [|j ps]; [done|]. apply Forall_cons in W as [W _]. unfold job_tree in W. simpl in W. lia. Qed.

(** C7: coroutines spawned on a context run to their results, when they are fewer
    than the entries of the submission queue, which then has room for one entry per
    coroutine and the timer, and other threads leave the context alone during the
    run.  Over a ring that answers the operations, whatever entries the kernel
    completes in each turn and in whatever order, [run()] does not fail; what it has
    observed is always part of the results, each of which is the one that the
    coroutine's own operations' answers lead to and is given at most once; and when
    as many turns as the longest coroutine has operations found the ring fully
    completed, all have given it and no awaiter is left; before that, as many
    awaiters are alive as results are missing. *)
Theorem coroutines_run_to_completion ms r t ts ec d :
  pending r = [] -> ready r = [] -> room r = size -> length ms < size ->
  Forall calm (t :: ts) -> Forall (fun m => waits m <= d) ms ->
  exists c, run None (t :: ts) ec (calls (List.map RSpawn (imap spawned ms)) (ctx_init r)) = Ran false c /\
    (exists later, dids (trace c) ++ later ≡ₚ results ms /\
       length later = length (map_to_list (awaiters c))) /\
    (d <= full_turns (S (length ms + length ts)) ts -> dids (trace c) ≡ₚ results ms /\ awaiters c = ∅).
Proof.
  intros Pr Rr Ro L C W.
  destruct (run_settled (calls (List.map RSpawn (imap spawned ms)) (ctx_init r)) ms t ts ec d)
    as (c & ps & E & P & [k T] & Wp);
    [by rewrite calls_spawn | done | done | apply Forall_cons in C as [Ct _]; by apply first_turn |].
  exists c. split; [done|]. split.
  - exists (List.map job_result ps). split; [done|]. by rewrite (tracks_awaiters _ _ _ T), length_map.
  - intros D. assert (ps = []) as -> by (apply within_0; by replace (d - _) with 0 in Wp by lia).
    simpl in P. rewrite app_nil_r in P. split; [done|]. by destruct T as [-> _ _ _ _ _].
Qed.
End run.

(** ** A ring that answers, and a run *)

(** Entries prepared, in flight and completed; [answer] gives the results. *)
Record answer_ring (answer : nat -> Z) := mk_answer_ring {
  ar_sq : list sqe; ar_flight : list sqe; ar_cq : list sqe
}.
Arguments mk_answer_ring {answer}.
Arguments ar_sq {answer}.
Arguments ar_flight {answer}.
Arguments ar_cq {answer}.

Definition ring_size : nat := 8.

#[export] Instance answer_uring answer : Uring (answer_ring answer) := {
  sq_push e r := if (length (ar_sq r) <? ring_size)%nat
                 then Some (mk_answer_ring (ar_sq r ++ [e]) (ar_flight r) (ar_cq r)) else None;
  uring_submit r := mk_answer_ring [] (ar_flight r ++ ar_sq r) (ar_cq r);
  cq_ready r := length (ar_cq r);
  cq_pop r := match ar_cq r with
              | [] => None
              | e :: l => Some (mk_cqe (answer (sqe_op e)) 0 (sqe_data e),
                                mk_answer_ring (ar_sq r) (ar_flight r) l)
              end;
  kernel n r := mk_answer_ring (ar_sq r) (drop n (ar_flight r)) (ar_cq r ++ take n (ar_flight r));
  owned r := List.map sqe_data (ar_sq r ++ ar_flight r ++ ar_cq r)
}.

#[export] Instance answer_ring_answers answer : AnswerRing answer (answer_ring answer).
Proof.
  refine {| pending r := ar_sq r ++ ar_flight r; ready := ar_cq;
            room r := ring_size - length (ar_sq r); size := ring_size |}; simpl.
  - intros e r n H. rewrite (proj2 (Nat.ltb_lt _ _)) by lia. eexists. split; [done|]. simpl.
    rewrite length_app. split_and!; [simpl; lia | | done].
    rewrite <- app_assoc. symmetry. apply Permutation_middle.
  - done.
  - intros r. apply Permutation_app_comm.
  - done.
  - done.
  - intros n r. exists (take n (ar_flight r)). split; [|done].
    etrans; [apply Permutation_app_comm|]. rewrite <- (take_drop n (ar_flight r)) at 1.
    rewrite <- app_assoc. apply Permutation_app_head, Permutation_app_comm.
  - intros n r. rewrite length_app. intros H. apply drop_ge. rewrite length_app. lia.
  - intros r. by destruct (ar_cq r).
  - intros r c r' H. destruct (ar_cq r) as [|e l]; simplify_eq/=. by exists e.
  - done.
Defined.

(** A coroutine that waits for two operations and adds their results, one that
    throws after its first, and one that is ready. *)
Definition sample_coroutines : list (co Z) :=
  [Wait 5 (fun x => Wait 6 (fun y => Ret (Value (x + y)%Z)));
   Wait 7 (fun _ => Ret (Throw 1)); Ret (Value 3%Z)].

Definition sample_encode (i : nat) (r : Coroutines.outcome Z) : nat :=
  match r with Value z => 100 * i + Z.to_nat z | Throw e => 100 * i + 50 + e end.

(** In the second turn the kernel completes one entry, in the others all. *)
Definition sample_turns : list turn :=
  [sample_turn 0 []; sample_turn 1 []; sample_turn 20 []; sample_turn 20 []].

Lemma coroutines_run_to_completion_witness :
  exists c, run None sample_turns 0
      (calls (List.map RSpawn (imap (spawned sample_encode) sample_coroutines))
         (ctx_init (mk_answer_ring (answer := Z.of_nat) [] [] []))) = Ran false c /\
    dids (trace c) ≡ₚ [11; 151; 203] /\ awaiters c = ∅.
Proof.
  destruct (coroutines_run_to_completion Z.of_nat sample_encode sample_coroutines
    (mk_answer_ring (answer := Z.of_nat) [] [] []) (sample_turn 0 []) (tail sample_turns) 0 2) as (c & E & _ & D);
    [reflexivity | reflexivity | reflexivity | simpl; unfold ring_size; lia | | |].
  - repeat constructor.
  - repeat constructor; simpl; lia.
  - exists c. split; [exact E|]. apply D. apply Nat.leb_le. reflexivity.
Defined.
