(* ===== verification/Generator.v ===== *)
(** * [include/generator.hpp]: lazy sequences

    The body of a generator is the sequence of values it yields and how it
    ends.  A coroutine handle points to the frame: what is left of the body, the
    value last yielded, the stored exception, and whether it is at its final
    suspend point.  [generator] objects share the frame with their iterators, so
    the frame is a state of its own.  [None] results are undefined behaviour:
    resuming a finished coroutine, or [std::terminate]. *)

From S2P Require Import Prelude.

Section generator.
Context {T : Type}.

Inductive body :=
| Yield (v : T) (k : body)
| EndReturn
| EndThrow (e : nat).

(** The coroutine frame with its promise. *)
Record frame := mk_frame {
  rest : body;
  m_value_ptr : option T;
  m_exception : option nat;
  finished : bool
}.

(** A fresh frame: suspended at its start. *)
Definition frame_init (b : body) : frame := mk_frame b None None false.

(** [m_handle.resume()]: to the next [co_yield] or to the end. *)
Definition resume (f : frame) : option frame :=
  if finished f then None
  else Some match rest f with
            | Yield v k => mk_frame k (Some v) (m_exception f) false
            | EndReturn => mk_frame EndReturn (m_value_ptr f) (m_exception f) true
            | EndThrow e => mk_frame (EndThrow e) (m_value_ptr f) (Some e) true
            end.

(** What a call gives: it returns, or rethrows the stored exception. *)
Inductive outcome := Normal | Rethrown (e : nat).

Definition try_rethrow (f : frame) : outcome :=
  match m_exception f with Some e => Rethrown e | None => Normal end.

(** A [generator] object: its handle (present or null) and [m_init_begin]. *)
Record generator := mk_generator { has_handle : bool; m_init_begin : bool }.

Definition generator_init : generator := mk_generator true false.

(** [generator(generator &&other)]: only the handle is taken over. *)
Definition move_ctor (other : generator) : generator * generator :=
  (mk_generator (has_handle other) false, mk_generator false (m_init_begin other)).

(** [begin()] *)
Definition begin (g : generator) (f : frame) : option (outcome * generator * frame) :=
  if negb (has_handle g) then None
  else if negb (m_init_begin g) then
    f ← resume f;
    Some (try_rethrow f, mk_generator (has_handle g) true, f)
  else Some (Normal, g, f).

(** [operator==(sential)], [operator++] and [operator*] of an iterator. *)
Definition at_end (f : frame) : bool := finished f.

Definition increment (f : frame) : option (outcome * frame) :=
  f ← resume f; Some (try_rethrow f, f).

Definition deref (f : frame) : option T := m_value_ptr f.

(** [operator++(int)]: [return ++( *this)], so the copy that is returned refers to
    the same frame, already resumed. *)
Definition post_increment (f : frame) : option (outcome * frame) := increment f.

(** A default-constructed iterator has no handle; [end()] is a tag. *)
Definition iterator_at_end (has_handle : bool) (f : frame) : bool := negb has_handle || finished f.

(** [~generator()] on the frames of a program, of which [None] is destroyed;
    the result is [None] when a frame is destroyed twice. *)
Definition destructor (g : generator) (f : option frame) : option (option frame) :=
  if has_handle g then (_ ← f; Some None) else Some f.

(** [for (auto &v : g) ...]: the values visited and how the loop ended. *)
Fixpoint visit (fuel : nat) (f : frame) : option (list T * outcome) :=
  if at_end f then Some ([], Normal)
  else match fuel with
       | O => None
       | S fuel =>
           v ← deref f;
           '(o, f) ← increment f;
           match o with
           | Rethrown e => Some ([v], Rethrown e)
           | Normal => '(l, o) ← visit fuel f; Some (v :: l, o)
           end
       end.

Definition range_for (fuel : nat) (g : generator) (f : frame) : option (list T * outcome) :=
  '(o, g, f) ← begin g f;
  match o with
  | Rethrown e => Some ([], Rethrown e)
  | Normal => visit fuel f
  end.

(** ** What a body stands for *)

Fixpoint yields (b : body) : list T :=
  match b with Yield v k => v :: yields k | _ => [] end.

Fixpoint ending (b : body) : outcome :=
  match b with Yield _ k => ending k | EndReturn => Normal | EndThrow e => Rethrown e end.

(** The body yields [l] and then ends with [o]. *)
Lemma visit_ok b v fuel :
  length (yields b) < fuel ->
  visit fuel (mk_frame b (Some v) None false) = Some (v :: yields b, ending b).
Proof.
  revert v fuel. induction b as [w b IH | | e]; intros v [|fuel] Hf; simpl in Hf; try lia.
  - cbn [visit at_end finished deref m_value_ptr increment resume rest m_exception]. simpl.
    by rewrite IH by lia.
  - by destruct fuel.
  - by destruct fuel.
Qed.

(** C40: a range-for loop over a generator visits exactly the values its body
    yields, in order and each once, and ends the way the body ends: normally, or
    with the exception the body threw, after the values yielded before it. *)
Theorem range_for_visits_yields b fuel :
  length (yields b) <= fuel ->
  range_for fuel generator_init (frame_init b) = Some (yields b, ending b).
Proof.
  intros Hf. unfold range_for, begin, resume. destruct b as [v b | | e]; simpl in *; [|by destruct fuel|done].
  apply visit_ok. lia.
Qed.

(** [begin()] starts the body once: a second call changes nothing. *)
Lemma begin_again b g f :
  begin generator_init (frame_init b) = Some (Normal, g, f) -> begin g f = Some (Normal, g, f).
Proof. unfold begin, resume. destruct b; simpl; intros; by simplify_eq. Qed.

(** [*it++] gives the value after the one the iterator was at. *)
Lemma post_increment_skips v w b :
  exists f, post_increment (mk_frame (Yield w b) (Some v) None false) = Some (Normal, f) /\ deref f = Some w.
Proof. eexists. by split. Qed.

(** Of a generator and the one it was moved to, exactly one destroys the frame,
    in whichever order they go. *)
Lemma moved_generator_destroyed_once g f :
  has_handle g = true ->
  let '(new, old) := move_ctor g in
  (destructor new (Some f) ≫= destructor old) = Some None /\
  (destructor old (Some f) ≫= destructor new) = Some None.
Proof. intros H. unfold destructor. simpl. by rewrite H. Qed.

(** A generator that is moved after its first [begin()] loses its place: the
    new object's [begin()] resumes the body again, and its loop misses the first
    value. *)
Theorem moved_generator_skips v w b fuel g f :
  length (yields (Yield w b)) <= fuel ->
  begin generator_init (frame_init (Yield v (Yield w b))) = Some (Normal, g, f) ->
  range_for fuel (move_ctor g).1 f = Some (yields (Yield w b), ending b).
Proof.
  intros Hf H. unfold begin, resume in H. simpl in H. simplify_eq/=.
  unfold range_for, begin, resume. simpl. apply visit_ok. simpl in Hf. lia.
Qed.
End generator.

Lemma range_for_visits_yields_witness :
  range_for 5 generator_init (frame_init (Yield 1 (Yield 2 (EndThrow 9)))) = Some ([1; 2], Rethrown 9).
Proof. apply (range_for_visits_yields (Yield 1 (Yield 2 (EndThrow 9)))). simpl. lia. Defined.

Lemma moved_generator_skips_witness :
  exists g f, begin generator_init (frame_init (Yield 1 (Yield 2 EndReturn))) = Some (Normal, g, f) /\
    range_for 5 (move_ctor g).1 f = Some ([2], Normal).
Proof.
  do 2 eexists. split; [reflexivity|].
  apply (moved_generator_skips 1 2 EndReturn 5 (mk_generator true true)); [simpl; lia | reflexivity].
Defined.
