(* ===== verification/TimeDelay.v ===== *)
(** * [include/time_delay.hpp]: durations as kernel time specifications

    A [std::chrono::duration] with period [num/den] seconds is its integral
    count; [floor], [duration_cast] and the mixed arithmetic of the standard
    library are exact on rationals and written with the count scaled by the
    common denominator. *)

From S2P Require Import Prelude.
Local Open Scope Z_scope.

Definition NS : Z := 10 ^ 9.

Section duration.
(** The period of the duration type, in seconds. *)
Variables (num den : Z).

(** [floor<seconds>(d)] *)
Definition get_seconds (c : Z) : Z := c * num / den.

(** [duration_cast<nanoseconds>(d < 1s ? d : d - get_seconds(d))]: the cast
    truncates toward zero. *)
Definition get_nanosecs (c : Z) : Z :=
  if c * num <? den then Z.quot (c * num * NS) den
  else Z.quot ((c * num - get_seconds c * den) * NS) den.

Record kernel_timespec := mk_timespec { tv_sec : Z; tv_nsec : Z }.

Definition to_kernel_timespec (c : Z) : kernel_timespec :=
  mk_timespec (get_seconds c) (get_nanosecs c).

(** The result handler of [time_delay]: [Some] is the error number thrown. *)
Definition ETIME : Z := 62.

Definition delay_result (res : Z) : option Z :=
  if negb (- res =? ETIME) && (res <? 0) then Some (- res) else None.

Hypothesis Hnum : 0 < num.
Hypothesis Hden : 0 < den.

(** A non-negative duration becomes a normalised time specification that
    denotes it: whole seconds, nanoseconds below one second, and together the
    duration rounded down to nanoseconds. *)
Theorem to_kernel_timespec_normal c :
  0 <= c ->
  let ts := to_kernel_timespec c in
  0 <= tv_sec ts /\ 0 <= tv_nsec ts < NS /\ tv_sec ts * NS + tv_nsec ts = c * num * NS / den.
Proof.
  intros Hc. cbn. unfold get_nanosecs, get_seconds.
  assert (Hcn : 0 <= c * num) by lia. generalize dependent (c * num). intros x Hx.
  pose proof (Z.div_mod x den ltac:(lia)) as Hdm. pose proof (Z.mod_pos_bound x den Hden) as Hm.
  assert (Hq : 0 <= x / den) by (apply Z.div_pos; lia).
  assert (HN : 0 < NS) by (unfold NS; lia).
  set (r := x mod den) in *.
  assert (E : x * NS / den = x / den * NS + r * NS / den).
  { replace (x * NS) with (r * NS + (x / den * NS) * den) by lia.
    rewrite Z.div_add by lia. lia. }
  assert (Hr : 0 <= r * NS / den < NS).
  { split; [apply Z.div_pos; lia | apply Z.div_lt_upper_bound; nia]. }
  case_if.
  - assert (Hz : x / den = 0) by (apply Z.div_small; lia).
    assert (Hrx : r = x) by lia. rewrite Hrx in *.
    rewrite Z.quot_div_nonneg by lia. lia.
  - replace (x - x / den * den) with r by lia. rewrite Z.quot_div_nonneg by lia. lia.
Qed.

(** A negative duration of at least one nanosecond in magnitude gives negative
    nanoseconds beside the rounded-down seconds. *)
Lemma negative_duration_not_normal c :
  c < 0 -> den <= - (c * num * NS) -> tv_nsec (to_kernel_timespec c) < 0.
Proof.
  intros Hc Hn. cbn. unfold get_nanosecs. rewrite (proj2 (Z.ltb_lt _ _)) by nia.
  replace (c * num * NS) with (- (- (c * num * NS))) by lia. rewrite Z.quot_opp_l by lia.
  rewrite Z.quot_div_nonneg by lia.
  assert (1 <= - (c * num * NS) / den) by (apply Z.div_le_lower_bound; lia). lia.
Qed.
End duration.

(** 2500 milliseconds. *)
Lemma to_kernel_timespec_normal_witness :
  let ts := to_kernel_timespec 1 1000 2500 in
  0 <= tv_sec ts /\ 0 <= tv_nsec ts < NS /\ tv_sec ts * NS + tv_nsec ts = 2500000000.
Proof. apply (to_kernel_timespec_normal 1 1000); lia. Defined.
