(* ===== verification/Descriptor.v ===== *)
(** * Descriptors and their operations: [ioutils/file_descriptor_base.hpp],
    [socket_base.hpp], [tcp.hpp], [file.hpp], [buffer.hpp]

    One descriptor object over the set of descriptors the kernel has open for
    it.  An asynchronous operation is submitted to the ring ([IoContext]); what
    this file has of it is the handler that turns the completion's [res] into a
    value or an exception ([inl errno], [make_system_error(-res)]).  Moving
    descriptors between objects is in [Handles]. *)

From S2P Require Import Prelude.
From stdpp Require Import gmap.
Local Open Scope Z_scope.

(** [fd] of the object, and the descriptors open on its behalf. *)
Record descriptor := mk_descriptor { fd : Z; open : gset Z }.

Definition descriptor_init : descriptor := mk_descriptor (-1) ∅.

(** [::close(n)]: no effect on a number that is not open. *)
Definition sys_close (n : Z) (d : descriptor) : descriptor :=
  mk_descriptor (fd d) (open d ∖ {[n]}).

(** [~file_descriptor_base()] *)
Definition destructor (d : descriptor) : descriptor :=
  if 0 <=? fd d then sys_close (fd d) d else d.

(** [valid()] *)
Definition valid (d : descriptor) : bool := fd d <? 0.

(** [close()] *)
Definition close (d : descriptor) : descriptor :=
  let d := sys_close (fd d) d in mk_descriptor (-1) (open d).

(** [socket_base::init()]; [r] is what [::socket] returns, [errno] its error. *)
Definition init (r errno : Z) (d : descriptor) : descriptor * option Z :=
  if 0 <? fd d then (d, None)
  else if r <? 0 then (d, Some errno)
  else (mk_descriptor r (open d ∪ {[r]}), None).

(** [setsockopt], [bind] and [listen]: an error number when the call fails. *)
Definition check_call (ret errno : Z) : option Z :=
  if negb (ret =? 0) then Some errno else None.

(** ** Completion handlers *)

(** Operations that give a count: [read], [readv], [write], [writev], [recv],
    [send], [recvmsg], [sendmsg]. *)
Definition size_result (res : Z) : Z + Z := if res <? 0 then inl (- res) else inr res.

(** [connect] and [shutdown] *)
Definition void_result (res : Z) : Z + unit := if res <? 0 then inl (- res) else inr tt.

(** [openat] and [accept]: the object for the new descriptor. *)
Definition open_result (res : Z) : Z + descriptor :=
  if res <? 0 then inl (- res) else inr (mk_descriptor res {[res]}).

(** [async_close]: the kernel has closed the descriptor when [res >= 0]. *)
Definition async_close_result (res : Z) (d : descriptor) : descriptor * option Z :=
  if res <? 0 then (d, Some (- res))
  else let d := sys_close (fd d) d in (mk_descriptor (-1) (open d), None).

(** ** [buffer.hpp]: [make_iovecs] *)

(** A buffer is its address and size. *)
Definition buffer := (Z * Z)%type.
Record iovec := mk_iovec { iov_base : Z; iov_len : Z }.

(** Every overload makes one entry per buffer, in order. *)
Definition make_iovecs (bufs : list buffer) : list iovec :=
  map (fun b => mk_iovec b.1 b.2) bufs.

(** ** Life of a descriptor *)

Inductive op :=
| Init (r errno : Z)
| Close
| AsyncClose (res : Z).

Definition perform (o : op) (d : descriptor) : descriptor :=
  match o with
  | Init r errno => (init r errno d).1
  | Close => close d
  | AsyncClose res => (async_close_result res d).1
  end.

(** The kernel hands out descriptors that are not open; 0 is taken (it is
    standard input unless the program has closed it). *)
Definition allowed (o : op) (d : descriptor) : Prop :=
  match o with Init r _ => r <> 0 /\ (r ∉ open d) | _ => True end.

Inductive runs : descriptor -> list op -> descriptor -> Prop :=
| runs_nil d : runs d [] d
| runs_cons d o os d' : allowed o d -> runs (perform o d) os d' -> runs d (o :: os) d'.

(** The object holds the one descriptor that is open for it, or none is. *)
Definition holds (d : descriptor) : Prop :=
  (0 < fd d /\ open d = {[fd d]}) \/ (fd d = -1 /\ open d = ∅).

Lemma close_holds d : holds d -> holds (close d) /\ open (close d) = ∅.
Proof.
  intros [[H E] | [H E]]; unfold close, sys_close, holds; simpl; rewrite E;
    (split; [right; split; [done|] |]; set_solver).
Qed.

Lemma perform_holds o d : holds d -> allowed o d -> holds (perform o d).
Proof.
  intros H A. destruct o as [r e | | res]; simpl.
  - unfold init. case_if; [done|]. case_if; [done|]. left. simpl in *.
    destruct H as [[H E1] | [H E1]]; [lia|]. destruct A as [A _]. rewrite E1.
    split; [lia | set_solver].
  - by apply close_holds.
  - unfold async_close_result. case_if; [done|]. by apply (close_holds d).
Qed.

Lemma runs_holds d os d' : runs d os d' -> holds d -> holds d'.
Proof. induction 1; [done|]. intros Hd. by apply IHruns, perform_holds. Qed.

(** A descriptor object neither leaks nor closes twice: through any sequence
    of [init], [close] and [async_close], failures included, it holds exactly
    the descriptor that is open for it, and its destructor leaves none open. *)
Theorem descriptor_no_leak os d :
  runs descriptor_init os d -> holds d /\ open (destructor d) = ∅.
Proof.
  intros R. assert (H : holds d) by (eapply runs_holds; [done | by right]).
  split; [done|]. unfold destructor. destruct H as [[H E] | [H E]].
  - rewrite (proj2 (Z.leb_le _ _)) by lia. simpl. rewrite E. set_solver.
  - rewrite H. done.
Qed.

(** [init], a failing [async_close], [close], [init] again. *)
Lemma descriptor_no_leak_witness :
  exists d, runs descriptor_init [Init 5 0; AsyncClose (-9); Close; Init 5 0] d /\
    holds d /\ open (destructor d) = ∅.
Proof.
  assert (R : exists d, runs descriptor_init [Init 5 0; AsyncClose (-9); Close; Init 5 0] d).
  { eexists. eapply runs_cons; [split; [done | set_solver]|]. eapply runs_cons; [done|].
    eapply runs_cons; [done|]. eapply runs_cons; [split; [done | set_solver]|]. apply runs_nil. }
  destruct R as [d R]. exists d. split; [exact R | exact (descriptor_no_leak _ d R)].
Defined.

(** [valid()] answers the opposite question. *)
Lemma valid_inverted d : holds d -> (valid d = true <-> open d = ∅).
Proof.
  unfold valid. intros [[H E] | [H E]]; rewrite E.
  - rewrite (proj2 (Z.ltb_ge _ _)) by lia. split; [done | set_solver].
  - rewrite H. done.
Qed.
