(* ===== verification/Sockets.v ===== *)
(** * Addresses, sockets and the entries they submit: [ioutils/protocol.hpp],
    [socket_base.hpp], [tcp.hpp], [udp.hpp], [file.hpp]

    [IpAddress] is the concept [ip_address]: the memory behind [ptr()] and [len()],
    which is all the kernel gets of an address.  A socket is its descriptor and
    its own address.  An asynchronous operation is the entry that its first
    closure prepares; the closure runs when the operation is awaited and reads
    the descriptor then.  Its second closure is a handler of [Descriptor].
    System calls are given by the value they return and [errno]. *)

From S2P Require Import Prelude Endian Descriptor.
From stdpp Require Import gmap.
Local Open Scope Z_scope.

(** ** Addresses *)

Class IpAddress (A : Type) := {
  ptr : A -> list Z;
  len : A -> Z
}.

(** What a system call with [addr.ptr(), addr.len()] reads. *)
Definition passed {A} {I : IpAddress A} (a : A) : list Z := take (Z.to_nat (len a)) (ptr a).

Section addresses.
Variable big : bool.

(** [sockaddr_in]: family, port, address and eight bytes of zero. *)
Definition sockaddr_in_bytes (a : Ipv4.address) : list Z :=
  mem_bytes big 2 (Ipv4.sin_family a) ++ mem_bytes big 2 (Ipv4.sin_port a) ++
  mem_bytes big 4 (Ipv4.s_addr a) ++ replicate 8 0.

#[export] Instance ipv4_address : IpAddress Ipv4.address :=
  {| ptr := sockaddr_in_bytes; len _ := Ipv4.address_len |}.
End addresses.

Module Ipv6.

Definition AF_INET6 : Z := 10.

(** [sockaddr_in6]: the address is its 16 bytes. *)
Record address := mk_address {
  sin6_family : Z; sin6_port : Z; sin6_flowinfo : Z; sin6_addr : list Z; sin6_scope_id : Z
}.

Section address.
Variable big : bool.
Variable inet_pton : list byte -> option (list Z).

Definition address_default : address := mk_address AF_INET6 0 0 (replicate 16 0) 0.

(** [address(port, ip)]; a text [inet_pton] rejects leaves the field at 0, and so
    does [IN6ADDR_ANY_INIT]. *)
Definition make_address (port : Z) (ip : option (list byte)) : address :=
  mk_address AF_INET6 (host_to_net16 big port) 0
    (match ip with None => replicate 16 0 | Some t => default (replicate 16 0) (inet_pton t) end) 0.

Definition shown_port (a : address) : Z := net_to_host16 big (sin6_port a).

Definition address_len : Z := 28.

Definition sockaddr_in6_bytes (a : address) : list Z :=
  mem_bytes big 2 (sin6_family a) ++ mem_bytes big 2 (sin6_port a) ++
  mem_bytes big 4 (sin6_flowinfo a) ++ sin6_addr a ++ mem_bytes big 4 (sin6_scope_id a).

#[export] Instance ipv6_address : IpAddress address :=
  {| ptr := sockaddr_in6_bytes; len _ := address_len |}.
End address.
End Ipv6.

(** [sockaddr_un]: the family and [sun_path]. *)
Definition AF_LOCAL : Z := 1.
Definition sockaddr_un_bytes (big : bool) (a : IpLocal.address) : list Z :=
  mem_bytes big 2 AF_LOCAL ++ map code (IpLocal.sun_path a).

#[export] Instance sockaddr_un_address (big : bool) : IpAddress IpLocal.address :=
  {| ptr := sockaddr_un_bytes big; len _ := IpLocal.address_len |}.

(** [operator==] of [iplocal::address]: [strcmp] of the two paths, [None] when it
    runs past the end of both fields. *)
Fixpoint strcmp_eqb (a b : list byte) : option bool :=
  match a, b with
  | x :: a, y :: b =>
      if (x =? y)%beq then if (x =? x00)%beq then Some true else strcmp_eqb a b else Some false
  | _, _ => None
  end.

Definition local_eqb (a b : IpLocal.address) : option bool :=
  strcmp_eqb (IpLocal.sun_path a) (IpLocal.sun_path b).

Lemma mem_bytes_inj big n x y :
  0 <= x < 256 ^ Z.of_nat n -> 0 <= y < 256 ^ Z.of_nat n ->
  mem_bytes big n x = mem_bytes big n y -> x = y.
Proof.
  intros Hx Hy E. rewrite <- (of_le_bytes n x), <- (of_le_bytes n y) by done.
  f_equal. unfold mem_bytes in E. destruct big; [|done].
  by rewrite <- (rev_involutive (le_bytes n x)), E, rev_involutive.
Qed.

Lemma length_mem_bytes big n x : length (mem_bytes big n x) = n.
Proof. unfold mem_bytes. destruct big; [rewrite length_rev|]; apply length_le_bytes. Qed.

(** Equal concatenations of fields of the same width have equal fields. *)
Lemma mem_bytes_app_inj big n x y l l' :
  0 <= x < 256 ^ Z.of_nat n -> 0 <= y < 256 ^ Z.of_nat n ->
  mem_bytes big n x ++ l = mem_bytes big n y ++ l' -> x = y /\ l = l'.
Proof.
  intros Hx Hy E. apply app_inj_1 in E as [E1 E2]; [|by rewrite !length_mem_bytes].
  split; [by eapply mem_bytes_inj | done].
Qed.

(** The members have the width of the structure's fields. *)
Definition in_range (a : Ipv4.address) : Prop :=
  0 <= Ipv4.sin_family a < 2 ^ 16 /\ 0 <= Ipv4.sin_port a < 2 ^ 16 /\ 0 <= Ipv4.s_addr a < 2 ^ 32.

Lemma length_sockaddr_in big a : length (sockaddr_in_bytes big a) = 16%nat.
Proof. unfold sockaddr_in_bytes. by rewrite !length_app, !length_mem_bytes, length_replicate. Qed.

Lemma sockaddr_in_inj big a b :
  in_range a -> in_range b -> sockaddr_in_bytes big a = sockaddr_in_bytes big b -> a = b.
Proof.
  destruct a as [f p s], b as [f' p' s']. intros (F & P & S) (F' & P' & S') E.
  unfold sockaddr_in_bytes in E. simpl in *.
  apply mem_bytes_app_inj in E as [-> E]; [|done..].
  apply mem_bytes_app_inj in E as [-> E]; [|done..].
  by apply mem_bytes_app_inj in E as [-> _]; [|done..].
Qed.

Lemma ipv4_eqb_spec a b : Ipv4.address_eqb a b = true <-> a = b.
Proof.
  destruct a, b. unfold Ipv4.address_eqb. simpl.
  rewrite !andb_true_iff, !Z.eqb_eq. naive_solver.
Qed.

Lemma host_to_net16_bytes big x : mem_bytes big 2 (host_to_net16 big x) = rev (le_bytes 2 x).
Proof. unfold host_to_net16, htons, mem_bytes. destruct big; [done | apply le_bytes_bswap]. Qed.

(** An IPv4 address reaches the kernel whole: [ptr()] and [len()] show exactly
    the 16 bytes of a [sockaddr_in], two addresses are [==] exactly when the
    kernel sees the same bytes, and the port given to the constructor is in
    those bytes in network order. *)
Theorem kernel_sees_ipv4 big inet_pton port ip a b :
  in_range a -> in_range b -> 0 <= port < 2 ^ 16 ->
  length (passed (I := ipv4_address big) a) = 16%nat /\
  (Ipv4.address_eqb a b = true <->
     passed (I := ipv4_address big) a = passed (I := ipv4_address big) b) /\
  take 2 (drop 2 (passed (I := ipv4_address big) (Ipv4.make_address big inet_pton port ip)))
  = [port / 256; port mod 256].
Proof.
  intros Ha Hb Hp. assert (P : forall x, passed (I := ipv4_address big) x = sockaddr_in_bytes big x).
  { intros x. unfold passed. cbn. by rewrite take_ge by by rewrite length_sockaddr_in. }
  rewrite !P, length_sockaddr_in, ipv4_eqb_spec. split_and!; [done | |].
  - split; [by intros -> | by apply sockaddr_in_inj].
  - unfold sockaddr_in_bytes. rewrite drop_app_length' by by rewrite length_mem_bytes.
    rewrite take_app_length' by by rewrite length_mem_bytes. cbn [Ipv4.sin_port Ipv4.make_address].
    rewrite host_to_net16_bytes. simpl. rewrite (Z.mod_small (port / 256)); [done|].
    split; [apply Z.div_pos; lia | apply Z.div_lt_upper_bound; lia].
Qed.

Lemma kernel_sees_ipv4_witness :
  let a := Ipv4.make_address false (fun _ => None) 80 None in
  length (passed (I := ipv4_address false) a) = 16%nat /\
  take 2 (drop 2 (passed (I := ipv4_address false) a)) = [0; 80].
Proof.
  destruct (kernel_sees_ipv4 false (fun _ => None) 80 None
    (Ipv4.make_address false (fun _ => None) 80 None) Ipv4.address_default) as (A & _ & B).
  - repeat split; vm_compute; congruence.
  - repeat split; vm_compute; congruence.
  - lia.
  - by split.
Defined.

(** ** Local addresses are cut *)

Lemma strcmp_terminated p q n m :
  x00 ∉ p -> x00 ∉ q ->
  strcmp_eqb (p ++ replicate (S n) x00) (q ++ replicate (S m) x00) = Some (bool_decide (p = q)).
Proof.
  revert q. induction p as [|c p IH]; intros [|d q] Hp Hq; cbn [app replicate strcmp_eqb].
  - done.
  - apply not_elem_of_cons in Hq as [Hd _]. by rewrite (proj2 (byte_eqb_neq x00 d)).
  - apply not_elem_of_cons in Hp as [Hc _].
    rewrite (proj2 (byte_eqb_neq c x00)) by done. done.
  - apply not_elem_of_cons in Hp as [Hc Hp]. apply not_elem_of_cons in Hq as [Hd Hq].
    destruct (c =? d)%beq eqn:E.
    + apply byte_eqb_eq in E as <-. rewrite (proj2 (byte_eqb_neq c x00)) by done.
      rewrite IH by done. f_equal. apply bool_decide_ext. naive_solver.
    + apply byte_eqb_neq in E. rewrite bool_decide_false by congruence. done.
Qed.

(** [iplocal::address::len()] is the size of a [sockaddr_in], so the kernel is
    shown 14 bytes of the path: two paths that first differ after those bytes
    are different addresses for [==] and the same address for the kernel. *)
Theorem local_address_cut big p q :
  x00 ∉ p -> x00 ∉ q -> (length p < 108)%nat -> (length q < 108)%nat ->
  (14 <= length p)%nat -> (14 <= length q)%nat -> take 14 p = take 14 q ->
  local_eqb (IpLocal.make_address p) (IpLocal.make_address q) = Some (bool_decide (p = q)) /\
  passed (I := sockaddr_un_address big) (IpLocal.make_address p)
  = passed (I := sockaddr_un_address big) (IpLocal.make_address q).
Proof.
  intros Hp Hq Lp Lq Gp Gq E. unfold local_eqb, IpLocal.make_address, IpLocal.sun_path_size. cbn [IpLocal.sun_path].
  rewrite !take_ge by lia. split.
  - replace (108 - length p)%nat with (S (107 - length p)) by lia.
    replace (108 - length q)%nat with (S (107 - length q)) by lia. by apply strcmp_terminated.
  - unfold passed. cbn [ptr len sockaddr_un_address]. unfold sockaddr_un_bytes. cbn [IpLocal.sun_path].
    change (Z.to_nat IpLocal.address_len) with (2 + 14)%nat.
    rewrite !take_app_add' by by rewrite length_mem_bytes. f_equal.
    rewrite !firstn_map, !take_app_le by lia. by rewrite E.
Qed.

Lemma local_address_cut_witness :
  local_eqb (IpLocal.make_address (bs "/tmp/service/one.sock"))
            (IpLocal.make_address (bs "/tmp/service/other.sock")) = Some false /\
  passed (I := sockaddr_un_address false) (IpLocal.make_address (bs "/tmp/service/one.sock"))
  = passed (I := sockaddr_un_address false) (IpLocal.make_address (bs "/tmp/service/other.sock")).
Proof.
  apply (local_address_cut false (bs "/tmp/service/one.sock") (bs "/tmp/service/other.sock"));
    first [by apply (bool_decide_eq_true_1 _); vm_compute | reflexivity | apply Nat.leb_le; reflexivity].
Defined.

(** ** Protocols *)

(** [ipv4], [ipv6] and [iplocal] with their [ip_domain], [tcp_type] and
    [udp_type]. *)
Inductive domain_name := ipv4 | ipv6 | iplocal.
Inductive transport := tcp | udp.

Definition SOCK_STREAM : Z := 1.
Definition SOCK_DGRAM : Z := 2.

Definition domain (d : domain_name) : Z :=
  match d with ipv4 => Ipv4.AF_INET | ipv6 => Ipv6.AF_INET6 | iplocal => AF_LOCAL end.
Definition sock_type (t : transport) : Z := match t with tcp => SOCK_STREAM | udp => SOCK_DGRAM end.

(** The arguments of [::socket] in [init()]. *)
Definition socket_args (d : domain_name) (t : transport) : Z * Z * Z := (domain d, sock_type t, 0).

(** The family that the kernel reads in an address. *)
Definition family_seen (l : list Z) : list Z := take 2 l.

Lemma take_mem_bytes big x l : take 2 (mem_bytes big 2 x ++ l) = mem_bytes big 2 x.
Proof. apply take_app_length'. by rewrite length_mem_bytes. Qed.

(** An address that a constructor of the domain made has the family with which
    the domain's sockets are created, and no other domain's. *)
Theorem address_family_matches big pton4 pton6 port ip path t d :
  (family_seen (passed (I := ipv4_address big) (Ipv4.make_address big pton4 port ip))
     = mem_bytes big 2 (domain d) <-> d = ipv4) /\
  (family_seen (passed (I := Ipv6.ipv6_address big) (Ipv6.make_address big pton6 port ip))
     = mem_bytes big 2 (domain d) <-> d = ipv6) /\
  (family_seen (passed (I := sockaddr_un_address big) (IpLocal.make_address path))
     = mem_bytes big 2 (domain d) <-> d = iplocal) /\
  (socket_args d t).1.1 = domain d.
Proof.
  assert (D : forall d d', mem_bytes big 2 (domain d) = mem_bytes big 2 (domain d') <-> d = d').
  { intros d1 d2. split; [|by intros ->]. intros E.
    apply mem_bytes_inj in E; [|by destruct d1|by destruct d2]. by destruct d1, d2. }
  assert (F : forall x l n, (2 <= n)%nat -> family_seen (take n (mem_bytes big 2 x ++ l)) = mem_bytes big 2 x).
  { intros x l n Hn. unfold family_seen. rewrite take_take, Nat.min_l by done. apply take_mem_bytes. }
  unfold passed. cbn [ptr len ipv4_address Ipv6.ipv6_address sockaddr_un_address].
  unfold sockaddr_in_bytes, Ipv6.sockaddr_in6_bytes, sockaddr_un_bytes.
  cbn [Ipv4.sin_family Ipv6.sin6_family Ipv4.make_address Ipv6.make_address].
  rewrite !F by (vm_compute; lia).
  split_and!; [| | | done].
  - rewrite (D ipv4 d). naive_solver.
  - rewrite (D ipv6 d). naive_solver.
  - rewrite (D iplocal d). naive_solver.
Qed.

(** ** Entries of the submission queue *)

(** [msghdr], with the name by its address and length. *)
Record msghdr := mk_msghdr {
  msg_name : Z; msg_namelen : Z; msg_iov : list iovec
}.

(** One constructor per [io_uring_prep_*] the library calls, with the arguments
    as that function takes them. *)
Inductive sqe :=
| PrepRecv (fd buf len flags : Z)
| PrepSend (fd buf len flags : Z)
| PrepRecvmsg (fd : Z) (msg : msghdr) (flags : Z)
| PrepSendmsg (fd : Z) (msg : msghdr) (flags : Z)
| PrepShutdown (fd how : Z)
| PrepAccept (fd : Z)
| PrepConnect (fd : Z) (addr : list Z)
| PrepOpenat (dfd path flags mode : Z)
| PrepRead (fd buf nbytes offset : Z)
| PrepReadv (fd : Z) (iovecs : list iovec) (offset : Z)
| PrepWrite (fd buf nbytes offset : Z)
| PrepWritev (fd : Z) (iovecs : list iovec) (offset : Z)
| PrepClose (fd : Z).

Definition AT_FDCWD : Z := -100.
Definition MSG_NOSIGNAL : Z := 16384.

(** [io_awaiter<F, R>]: what is prepared when the operation is awaited, from the
    object as it is then, and what the completion's [res] is turned into; an
    exception is its error number. *)
Record io_op (R : Type) := mk_io_op {
  io_operation : descriptor -> sqe;
  get_result : Z -> descriptor -> (Z + R) * descriptor
}.
Arguments mk_io_op {R}.
Arguments io_operation {R}.
Arguments get_result {R}.

(** The second closure of an operation that leaves the object as it is. *)
Definition plain_result {R} (f : Z -> Z + R) : Z -> descriptor -> (Z + R) * descriptor :=
  fun res d => (f res, d).

(** *** [tcp_sock] *)

Definition recv (b : buffer) : io_op Z :=
  mk_io_op (fun d => PrepRecv (fd d) b.1 b.2 0) (plain_result size_result).

Definition send (b : buffer) : io_op Z :=
  mk_io_op (fun d => PrepSend (fd d) b.1 b.2 MSG_NOSIGNAL) (plain_result size_result).

(** [recvmsg_impl] and [sendmsg_impl] of [socket_base]; [make_msghdr] runs when
    the operation is made. *)
Definition recvmsg_impl (make_msghdr : msghdr) (bufs : list buffer) : io_op Z :=
  mk_io_op
    (fun d => PrepRecvmsg (fd d)
       (mk_msghdr (msg_name make_msghdr) (msg_namelen make_msghdr) (make_iovecs bufs)) 0)
    (plain_result size_result).

Definition sendmsg_impl (make_msghdr : msghdr) (bufs : list buffer) : io_op Z :=
  mk_io_op
    (fun d => PrepSendmsg (fd d)
       (mk_msghdr (msg_name make_msghdr) (msg_namelen make_msghdr) (make_iovecs bufs)) MSG_NOSIGNAL)
    (plain_result size_result).

Inductive close_how := shutdown_read | shutdown_write | shutdown_all.
Definition how_code (h : close_how) : Z :=
  match h with shutdown_read => 0 | shutdown_write => 1 | shutdown_all => 2 end.

Definition shutdown (how : close_how) : io_op unit :=
  mk_io_op (fun d => PrepShutdown (fd d) (how_code how)) (plain_result void_result).

(** *** [acceptor] and [connector] *)

(** The flags argument is read through a reference to a parameter whose life has
    ended, so the entry has none here. *)
Definition accept : io_op descriptor :=
  mk_io_op (fun d => PrepAccept (fd d)) (plain_result open_result).

Definition connect {A} {I : IpAddress A} (addr : A) : io_op unit :=
  mk_io_op (fun d => PrepConnect (fd d) (passed addr)) (plain_result void_result).

(** *** [udp_sock] *)

(** The name is the caller's object, at address [addr]. *)
Definition udp_msghdr {A} {I : IpAddress A} (addr : Z) (a : A) : msghdr := mk_msghdr addr (len a) [].

Definition recvfrom {A} {I : IpAddress A} (addr : Z) (a : A) (b : buffer) : io_op Z :=
  recvmsg_impl (udp_msghdr addr a) [b].

Definition sendto {A} {I : IpAddress A} (addr : Z) (a : A) (b : buffer) : io_op Z :=
  sendmsg_impl (udp_msghdr addr a) [b].

(** *** [file]

    [io_uring_prep_read] and [io_uring_prep_write] take the length as an
    [unsigned]: the buffer's size is converted. *)

Definition openat (path flag mode : Z) : io_op descriptor :=
  mk_io_op (fun _ => PrepOpenat AT_FDCWD path flag mode) (plain_result open_result).

Definition read (b : buffer) (off : Z) : io_op Z :=
  mk_io_op (fun d => PrepRead (fd d) b.1 (wrapu 32 b.2) off) (plain_result size_result).

Definition readv (off : Z) (bufs : list buffer) : io_op Z :=
  mk_io_op (fun d => PrepReadv (fd d) (make_iovecs bufs) off) (plain_result size_result).

Definition write (b : buffer) (off : Z) : io_op Z :=
  mk_io_op (fun d => PrepWrite (fd d) b.1 (wrapu 32 b.2) off) (plain_result size_result).

Definition writev (off : Z) (bufs : list buffer) : io_op Z :=
  mk_io_op (fun d => PrepWritev (fd d) (make_iovecs bufs) off) (plain_result size_result).

(** *** [file_descriptor_base::async_close] *)

Definition async_close : io_op unit :=
  mk_io_op (fun d => PrepClose (fd d))
    (fun res d => match async_close_result res d with
                  | (d, Some e) => (inl e, d)
                  | (d, None) => (inr tt, d)
                  end).

(** ** What an entry lets the kernel touch *)

(** The memory the kernel reads or writes, as (address, length) pairs. *)
Definition regions (e : sqe) : list buffer :=
  match e with
  | PrepRecv _ p n _ | PrepSend _ p n _ | PrepRead _ p n _ | PrepWrite _ p n _ => [(p, n)]
  | PrepRecvmsg _ m _ | PrepSendmsg _ m _ =>
      List.map (fun v => (iov_base v, iov_len v)) (msg_iov m)
  | PrepReadv _ l _ | PrepWritev _ l _ => List.map (fun v => (iov_base v, iov_len v)) l
  | _ => []
  end.

Definition sqe_fd (e : sqe) : Z :=
  match e with
  | PrepRecv n _ _ _ | PrepSend n _ _ _ | PrepRecvmsg n _ _ | PrepSendmsg n _ _
  | PrepShutdown n _ | PrepAccept n | PrepConnect n _ | PrepOpenat n _ _ _
  | PrepRead n _ _ _ | PrepReadv n _ _ | PrepWrite n _ _ _ | PrepWritev n _ _ | PrepClose n => n
  end.

Definition total_size (l : list buffer) : Z := foldr (fun b n => b.2 + n) 0 l.

(** Data operations with their buffers. *)
Inductive data_op :=
| Recv (b : buffer) | Send (b : buffer)
| RecvFrom (addr : Z) (a : Ipv4.address) (b : buffer) | SendTo (addr : Z) (a : Ipv4.address) (b : buffer)
| Read (b : buffer) (off : Z) | Readv (off : Z) (bufs : list buffer)
| Write (b : buffer) (off : Z) | Writev (off : Z) (bufs : list buffer).

Definition operation (big : bool) (o : data_op) : io_op Z :=
  match o with
  | Recv b => recv b
  | Send b => send b
  | RecvFrom p a b => recvfrom (I := ipv4_address big) p a b
  | SendTo p a b => sendto (I := ipv4_address big) p a b
  | Read b off => read b off
  | Readv off l => readv off l
  | Write b off => write b off
  | Writev off l => writev off l
  end.

Definition buffers (o : data_op) : list buffer :=
  match o with
  | Recv b | Send b | RecvFrom _ _ b | SendTo _ _ b | Read b _ | Write b _ => [b]
  | Readv _ l | Writev _ l => l
  end.

(** [b] is the beginning of [b']. *)
Definition within (b b' : buffer) : Prop := b.1 = b'.1 /\ 0 <= b.2 <= b'.2.

(** A completion the kernel may give: an error, or a count of bytes it moved. *)
Definition completes (e : sqe) (res : Z) : Prop := res <= total_size (regions e).

Definition sized (l : list buffer) : Prop := Forall (fun b : buffer => 0 <= b.2 < 2 ^ 64) l.

Lemma regions_iovecs l :
  List.map (fun v => (iov_base v, iov_len v)) (make_iovecs l) = l.
Proof. unfold make_iovecs. rewrite map_map. induction l as [|[? ?] l IH]; simpl; by f_equal. Qed.

Lemma within_refl b : 0 <= b.2 -> within b b.
Proof. unfold within. lia. Qed.

Lemma within_wrapu p n : 0 <= n -> within (p, wrapu 32 n) (p, n).
Proof.
  intros H. unfold within, wrapu. simpl. split; [done|].
  pose proof (Z.mod_pos_bound n (2 ^ 32)). pose proof (Z.mod_le n (2 ^ 32)). lia.
Qed.

Lemma total_size_within l l' : Forall2 within l l' -> total_size l <= total_size l'.
Proof.
  unfold total_size. induction 1 as [|b b' l l' [_ H] _ IH]; simpl; lia.
Qed.

Lemma operation_regions big o d :
  sized (buffers o) -> Forall2 within (regions (io_operation (operation big o) d)) (buffers o).
Proof.
  unfold sized. intros S. destruct o as [b|b|p a b|p a b|[p n] off|off l|[p n] off|off l];
    cbn [operation io_operation regions buffers recv send recvfrom sendto read write readv writev
         recvmsg_impl sendmsg_impl msg_iov make_iovecs List.map] in *;
    rewrite ?regions_iovecs; try rewrite Forall_singleton in S.
  all: try (constructor; [unfold within; simpl in *; lia | constructor]).
  all: try (constructor; [apply within_wrapu; simpl in *; lia | constructor]).
  all: induction S as [|b l Hb _ IH]; constructor; [apply within_refl; lia | done].
Qed.

(** C29: a data operation stays inside the buffers it was given: every region
    its entry names is the beginning of the corresponding buffer, and the
    count that the awaiting coroutine gets is at most their total size; a
    negative completion is thrown with its error number, and the entry is for
    the descriptor the object has when the operation is awaited. *)
Theorem operation_in_buffers big o d res :
  sized (buffers o) ->
  let e := io_operation (operation big o) d in
  sqe_fd e = fd d /\ Forall2 within (regions e) (buffers o) /\
  (completes e res ->
   get_result (operation big o) res d
   = (if res <? 0 then inl (- res) else inr res, d) /\
   res <= total_size (buffers o)).
Proof.
  intros S e. pose proof (operation_regions big o d S) as W. split_and!.
  - by destruct o.
  - exact W.
  - intros C. split; [by destruct o|].
    pose proof (total_size_within _ _ W). unfold completes in C. fold e in H. lia.
Qed.

Lemma operation_in_buffers_witness :
  let o := Readv 0 [(4096, 100); (8192, 28)] in
  get_result (operation false o) 128 (mk_descriptor 5 {[5]}) = (inr 128, mk_descriptor 5 {[5]}) /\
  128 <= total_size (buffers o).
Proof.
  apply (operation_in_buffers false (Readv 0 [(4096, 100); (8192, 28)]) (mk_descriptor 5 {[5]}) 128).
  - repeat constructor; simpl; lia.
  - vm_compute. discriminate.
Defined.

(** A file buffer whose size is a multiple of 2^32 asks for nothing: what comes
    back is 0, which a caller takes for the end of the file. *)
Lemma read_huge_buffer p k off d res :
  let e := io_operation (read (p, k * 2 ^ 32) off) d in
  regions e = [(p, 0)] /\ (completes e res -> 0 <= res -> get_result (read (p, k * 2 ^ 32) off) res d = (inr 0, d)).
Proof.
  intros e. assert (R : regions e = [(p, 0)]).
  { unfold e, wrapu. cbn [io_operation read regions fst snd]. unfold wrapu. by rewrite Z.mod_mul by lia. }
  split; [done|]. unfold completes. rewrite R. simpl. intros H H0.
  by assert (res = 0) as -> by lia.
Qed.

(** ** The synchronous members of a socket *)

Record socket (A : Type) := mk_socket { s_desc : descriptor; m_addr : A }.
Arguments mk_socket {A}.
Arguments s_desc {A}.
Arguments m_addr {A}.

Section socket.
Context {A : Type} {I : IpAddress A}.
Implicit Type s : socket A.

(** [socket_base()]: the error is thrown by the constructor. *)
Definition socket_default (addr : A) (r errno : Z) : Z + socket A :=
  match init r errno descriptor_init with
  | (d, None) => inr (mk_socket d addr)
  | (_, Some e) => inl e
  end.

(** [tcp_sock(int fd, address_t addr)] *)
Definition socket_of_fd (n : Z) (addr : A) : socket A := mk_socket (mk_descriptor n {[n]}) addr.

(** [bind(addr)]: the call's arguments, and the object after it. *)
Definition bind_args (addr : A) (s : socket A) : Z * list Z := (fd (s_desc s), passed addr).
Definition bind (addr : A) (ret errno : Z) (s : socket A) : option Z * socket A :=
  match check_call ret errno with
  | Some e => (Some e, s)
  | None => (None, mk_socket (s_desc s) addr)
  end.

Definition local_address s : A := m_addr s.

(** [get_peer_address()]; [filled] is what [getpeername] stored. *)
Definition get_peer_address (ret errno : Z) (filled : A) : Z + A :=
  match check_call ret errno with Some e => inl e | None => inr filled end.
End socket.

(** Failures before the object exists leave nothing open, and the address a
    bound socket reports is the last one it was bound to. *)
Lemma socket_bound {A : Type} {I : IpAddress A} (addr0 addr : A) r errno ret errno' :
  match socket_default addr0 r errno with
  | inl e => r < 0 /\ e = errno
  | inr s =>
      0 <= r /\ fd (s_desc s) = r /\
      let '(res, s') := bind addr ret errno' s in
      s_desc s' = s_desc s /\
      local_address s' = (if ret =? 0 then addr else addr0) /\
      res = (if ret =? 0 then None else Some errno')
  end.
Proof.
  unfold socket_default, init, bind, check_call. simpl. destruct (r <? 0) eqn:E.
  - apply Z.ltb_lt in E. done.
  - apply Z.ltb_ge in E. simpl. by destruct (ret =? 0).
Qed.
