(* ===== verification/ClientLife.v ===== *)
(** * The life of an [http_client]: one connection

    [HttpClient] is about any [Socket].  This file gives the one the client has,
    a [connector]: a descriptor that the constructor opens ([Descriptor.init])
    and [close] gives back, over a network that carries the bytes.  An entry for
    a number that is not open completes with [-EBADF], so its handler throws.
    A sequence of requests on one client is a list of calls. *)

From S2P Require Import Prelude ResultType Url StreamBuffer PicoHttp PicoEquiv HttpParser HttpClient Descriptor.
From stdpp Require Import gmap.

Definition EBADF : Z := 9.

(** ** The connector *)

Record connector (N : Type) := mk_connector { c_desc : descriptor; c_net : N }.
Arguments mk_connector {N}.
Arguments c_desc {N}.
Arguments c_net {N}.

(** [connector()]: a socket from the kernel. *)
Definition connector_init {N} (r : Z) (net : N) : connector N :=
  mk_connector (Descriptor.init r 0 descriptor_init).1 net.

(** The kernel knows the descriptor of the object: no negative number is one. *)
Definition known {N} (c : connector N) : bool :=
  (0 <=? fd (c_desc c))%Z && bool_decide (fd (c_desc c) ∈ Descriptor.open (c_desc c)).

Section connector.
Context {N Addr : Type} `{!Socket N Addr}.

#[export] Instance connector_socket : Socket (connector N) Addr := {
  sk_recv n c :=
    if known c then let '(r, k) := sk_recv (Addr := Addr) n (c_net c) in (r, mk_connector (c_desc c) k)
    else (RecvError EBADF, c);
  sk_connect a c :=
    if known c then let '(r, k) := sk_connect a (c_net c) in (r, mk_connector (c_desc c) k)
    else (false, c);
  sk_send m c :=
    if known c then let '(r, k) := sk_send (Addr := Addr) m (c_net c) in (r, mk_connector (c_desc c) k)
    else (None, c);
  sk_close c := mk_connector (Descriptor.close (c_desc c)) (sk_close (Addr := Addr) (c_net c));
  sk_query := sk_query;
  sk_stream c := if known c then sk_stream (Addr := Addr) (c_net c) else []
}.

#[export] Instance connector_laws : SocketLaws N Addr -> SocketLaws (connector N) Addr.
Proof.
  intros L. split. intros n [d k] l [d' k'] Hn. cbn. destruct (known _) eqn:E; [|done].
  destruct (sk_recv n k) as [r k1] eqn:R. intros [= -> <- <-].
  unfold known in *. cbn in *. rewrite E. by apply sk_recv_ok.
Qed.

(** ** Sequences of requests *)

Section client.
Context {B : Type} `{!ReadBuffer B}.
Variable sse4_2 : bool.
Variable cpu : sse_unit.
Variable fuel : nat.
Abbreviation client := (http_client (B := B) (K := connector N)).

Record call := mk_call { c_method : http_method; c_url : list byte; c_body : list byte }.

Definition call_request (r : call) (c : client) :=
  request (Addr := Addr) sse4_2 cpu fuel (c_method r) (c_url r) (c_body r) c.

Fixpoint requests (l : list call) (c : client) : list (list net_event * reply) * client :=
  match l with
  | [] => ([], c)
  | r :: l => let '(t, a, c) := call_request r c in
              let '(out, c) := requests l c in ((t, a) :: out, c)
  end.

(** The answer to a call that never gets a connection. *)
Definition refusal (r : call) : reply :=
  if negb (match c_method r with post => true | _ => false end) &&
     negb (match c_body r with [] => true | _ => false end)
  then failure (bs "method error")
  else match ResultType.value (Url.parse (c_url r)) with
  | None => failure (bs "invalid url")
  | Some u =>
      if negb (bytes_eqb (proto u) (bs "http")) then failure (bs "unsupport protocal")
      else match sk_query (Addr := Addr) (K := N) (host u) with
           | None => failure (bs "invalid host name")
           | Some _ => failure (bs "host connection failed")
           end
  end.

(** A request that got a connection ends by closing it. *)
Definition reached (t : list (net_event (Addr := Addr))) : Prop := Closed ∈ t.

Lemma connect_unknown l (k : connector N) :
  known k = false -> HttpClient.connect (Addr := Addr) l k = (false, k).
Proof. intros H. induction l as [|a l IH]; [done|]. cbn. by rewrite H. Qed.

Lemma not_reached_connects h l : ~ reached (Query h :: List.map Connect l).
Proof.
  unfold reached. rewrite elem_of_cons. intros [[=] | H]. induction l as [|a l IH]; simpl in H.
  - by apply elem_of_nil in H.
  - apply elem_of_cons in H as [[=] | H]. by apply IH.
Qed.

Lemma request_unknown r (c : client) :
  known (m_tcp_client c) = false ->
  let '(t, a, c') := call_request r c in
  a = refusal r /\ ~ reached t /\ m_tcp_client c' = m_tcp_client c.
Proof.
  intros H. assert (Nil : ~ reached []) by apply not_elem_of_nil.
  unfold call_request, request, refusal. case_if; [done|].
  destruct (url_parse_shape (c_url r)) as [[u Eu] | [e Eu]]; rewrite Eu; [|done].
  cbn [is_error ResultType.value m_store m_iserr result_value].
  case_if; [done|]. cbn [sk_query connector_socket].
  destruct (sk_query (host u)) as [l|]; [|by split_and!; [| apply (not_reached_connects (host u) []) |]].
  rewrite (connect_unknown l (m_tcp_client c) H). split_and!; [done | apply not_reached_connects | done].
Qed.

(** A request that reached its connection leaves a descriptor no one knows. *)
Lemma request_spends r (c : client) :
  reached (call_request r c).1.1 -> known (m_tcp_client (call_request r c).2) = false.
Proof.
  assert (Nil : ~ reached []) by apply not_elem_of_nil.
  unfold call_request, request. case_if; [done|].
  destruct (url_parse_shape (c_url r)) as [[u Eu] | [e Eu]]; rewrite Eu; [|done].
  cbn [is_error ResultType.value m_store m_iserr result_value].
  case_if; [done|]. destruct (sk_query (host u)) as [l|].
  2: { intros H. by apply (not_reached_connects (host u) []) in H. }
  destruct (HttpClient.connect l (m_tcp_client c)) as [[] k] eqn:Ec.
  - by destruct (exchange _ _ _ _ _ _) as [[ev a] c'].
  - intros H. by apply not_reached_connects in H.
Qed.

Lemma requests_unknown l (c : client) j r :
  known (m_tcp_client c) = false -> l !! j = Some r ->
  exists t, (requests l c).1 !! j = Some (t, refusal r) /\ ~ reached t.
Proof.
  revert c j. induction l as [|r0 l IH]; intros c j H Hj; [done|]. cbn [requests].
  pose proof (request_unknown r0 c H) as R.
  destruct (call_request r0 c) as [[t a] c'] eqn:E. destruct R as (-> & Ht & Hc).
  destruct (requests l c') as [out c''] eqn:E'. destruct j as [|j].
  - injection Hj as <-. by exists t.
  - destruct (IH c' j) as (t' & Hl & Hr); [by rewrite Hc | done|].
    exists t'. by rewrite E' in Hl.
Qed.

(** C25: an [http_client] serves one connection.  Its socket is made by the
    constructor, and a request that got through to a server closes it: in any
    sequence of calls on one client, every call after the first that reached a
    server is answered with an error, "host connection failed" when the call
    itself is well formed and its host is known, and reaches no server. *)
Theorem client_serves_once l (c : client) i j t a r :
  (requests l c).1 !! i = Some (t, a) -> reached t -> (i < j)%nat -> l !! j = Some r ->
  exists t', (requests l c).1 !! j = Some (t', refusal r) /\ ~ reached t'.
Proof.
  revert c i j. induction l as [|r0 l IH]; intros c i j Hi Ht Hij Hj; [done|].
  cbn [requests] in *. pose proof (request_spends r0 c) as S.
  destruct (call_request r0 c) as [[t0 a0] c'] eqn:E.
  destruct (requests l c') as [out c''] eqn:E'. destruct j as [|j]; [lia|]. destruct i as [|i].
  - injection Hi as -> ->. destruct (requests_unknown l c' j r (S Ht) Hj) as (t' & Hl & Hr).
    exists t'. by rewrite E' in Hl.
  - specialize (IH c' i j). rewrite E' in IH. apply IH; [done | done | lia | done].
Qed.
End client.
End connector.

(** ** Witness: two calls to a host that answers *)

Definition net_client : http_client (B := stream_buffer) (K := connector fake_socket) :=
  mk_client (connector_init 5 answer_socket) sb_init parser_init [].

Definition page : call := mk_call get (bs "http://example.org/a") [].

Lemma client_serves_once_witness :
  exists t', (requests (Addr := nat) false intrinsics 100 [page; page] net_client).1 !! 1
    = Some (t', failure (bs "host connection failed")) /\ ~ reached t'.
Proof.
  assert (E : refusal (N := fake_socket) (Addr := nat) page
              = failure (bs "host connection failed")) by (vm_compute; reflexivity).
  rewrite <- E.
  let o := eval vm_compute in
    ((requests (Addr := nat) false intrinsics 100 [page; page] net_client).1 !! 0) in
  match o with
  | Some (?t, ?a) =>
      apply (client_serves_once false intrinsics 100 [page; page] net_client 0 1 t a page)
  end.
  - vm_compute. reflexivity.
  - unfold reached. repeat first [apply list_elem_of_here | apply list_elem_of_further].
  - lia.
  - reflexivity.
Defined.
