(* ===== verification/Pingpong.v ===== *)
(** * [example/pingpong]: the echo client and the session of the echo server

    The two coroutines [client] (client.cpp) and [start_session] (server.cpp) over
    the two byte streams of one connection.  The network may cut a send or a
    reception anywhere, an awaited reception gives 0 bytes when the stream is
    empty and its other end is closed, and operations of either side may fail
    once the other has closed.  A step is one awaited operation. *)

From S2P Require Import Prelude.
From stdpp Require Import relations.

Definition KB : nat := 1024.

(** ** The client *)

(** Before the test of [while (times--)], at [recv], or after the loop with the
    connection destroyed; [times] as it is at the next test. *)
Inductive client_pc := CTest (times : nat) | CRecv (times : nat) | CDone.

(** ** The session *)

(** At [recv], at [send] of the first [n] bytes of [buff], after the loop;
    [SAborted]: [assert(m == n)] failed, which ends the process. *)
Inductive session_pc := SRecv | SSend (n : nat) | SDone | SAborted.

Record state := mk_state {
  cpc : client_pc; c_buff : list byte; bytes_read : Z;
  spc : session_pc; s_buff : list byte; read_cnt : Z;
  to_server : list byte; to_client : list byte
}.

Definition init (times : nat) : state :=
  mk_state (CTest times) (replicate KB x00) 0 SRecv (replicate KB x00) 0 [] [].

(** [recv(buff)] of [l] overwrites the beginning of the buffer. *)
Definition received (l buff : list byte) : list byte := l ++ drop (length l) buff.

Definition client_gone (s : state) : bool := match cpc s with CDone => true | _ => false end.
Definition session_gone (s : state) : bool :=
  match spc s with SDone | SAborted => true | _ => false end.

Definition client_end (s : state) : state :=
  mk_state CDone (c_buff s) (bytes_read s) (spc s) (s_buff s) (read_cnt s) (to_server s) (to_client s).
Definition session_end (p : session_pc) (s : state) : state :=
  mk_state (cpc s) (c_buff s) (bytes_read s) p (s_buff s) (read_cnt s) (to_server s) (to_client s).

(** [co_await sock.send(buff)], of which the network takes [n] bytes. *)
Definition client_send (times n : nat) (s : state) : state :=
  mk_state (CRecv times) (c_buff s) (bytes_read s) (spc s) (s_buff s) (read_cnt s)
    (to_server s ++ take n (c_buff s)) (to_client s).

(** [m = co_await sock.recv(buff); if (m == 0) break; bytes_read += m;] *)
Definition client_recv (times m : nat) (s : state) : state :=
  mk_state (CTest times) (received (take m (to_client s)) (c_buff s))
    (wrapu 64 (bytes_read s + Z.of_nat m)) (spc s) (s_buff s) (read_cnt s)
    (to_server s) (drop m (to_client s)).

(** [n = co_await sock.recv(buff)] *)
Definition session_recv (n : nat) (s : state) : state :=
  mk_state (cpc s) (c_buff s) (bytes_read s) (SSend n) (received (take n (to_server s)) (s_buff s))
    (read_cnt s) (drop n (to_server s)) (to_client s).

(** [m = co_await sock.send(std::span{buff.begin(), n}); assert(m == n);
    read_cnt += n;] *)
Definition session_send (n m : nat) (s : state) : state :=
  let sent := take m (take n (s_buff s)) in
  if (m =? n)%nat
  then mk_state (cpc s) (c_buff s) (bytes_read s) SRecv (s_buff s)
         (wrapu 32 (read_cnt s + Z.of_nat n)) (to_server s) (to_client s ++ sent)
  else mk_state (cpc s) (c_buff s) (bytes_read s) SAborted (s_buff s)
         (read_cnt s) (to_server s) (to_client s ++ sent).

Inductive step (s : state) : state -> Prop :=
| client_stops : cpc s = CTest 0 -> step s (client_end s)
| client_sends t n : cpc s = CTest (S t) -> 0 < n <= KB -> step s (client_send t n s)
| client_receives t m : cpc s = CRecv t -> 0 < m <= KB -> m <= length (to_client s) ->
    step s (client_recv t m s)
| client_sees_end t : cpc s = CRecv t -> to_client s = [] -> session_gone s = true ->
    step s (client_end s)
| session_receives n : spc s = SRecv -> 0 < n <= KB -> n <= length (to_server s) ->
    step s (session_recv n s)
| session_sees_end : spc s = SRecv -> to_server s = [] -> client_gone s = true ->
    step s (session_end SDone s)
| session_sends n m : spc s = SSend n -> 0 < m <= n -> step s (session_send n m s)
| session_fails : session_gone s = false -> client_gone s = true -> step s (session_end SDone s)
| client_fails : client_gone s = false -> session_gone s = true -> step s (client_end s).

(** ** Histories *)

(** A step with what the client sent and received in it. *)
Definition sent_in (s s' : state) : list byte :=
  match cpc s, cpc s' with
  | CTest _, CRecv _ => drop (length (to_server s)) (to_server s')
  | _, _ => []
  end.
Definition received_in (s s' : state) : list byte :=
  match cpc s, cpc s' with
  | CRecv _, CTest _ => take (length (to_client s) - length (to_client s')) (to_client s)
  | _, _ => []
  end.

(** [n] steps, with the bytes the client sent and received. *)
Inductive runs : nat -> list byte -> list byte -> state -> state -> Prop :=
| runs_nil s : runs 0 [] [] s s
| runs_snoc n out inp s s1 s2 :
    runs n out inp s s1 -> step s1 s2 ->
    runs (S n) (out ++ sent_in s1 s2) (inp ++ received_in s1 s2) s s2.

(** ** Invariant *)

(** What the session holds between its reception and its send. *)
Definition in_hand (s : state) : list byte :=
  match spc s with SSend n => take n (s_buff s) | _ => [] end.

Definition pc_ok (s : state) : Prop :=
  match spc s with SSend n => 0 < n <= KB /\ n <= length (s_buff s) | _ => True end.

(** Rounds that the client has not finished. *)
Definition times_left (s : state) : nat :=
  match cpc s with CTest t => t | CRecv t => S t | CDone => 0 end.

Record inv (times : nat) (out inp : list byte) (s : state) : Prop := {
  inv_buffs : length (c_buff s) = KB /\ length (s_buff s) = KB;
  inv_pc : pc_ok s;
  inv_times : times_left s <= times;
  inv_bytes : bytes_read s = wrapu 64 (Z.of_nat (length inp));
  inv_rounds : length inp <= KB * (times - times_left s);
  inv_echo : exists lost, out = inp ++ to_client s ++ in_hand s ++ lost ++ to_server s /\
    (session_gone s = false -> lost = []);
  inv_owed : match cpc s with CRecv _ => length inp < length out | _ => True end;
  inv_alive : match spc s with SDone => client_gone s = true | _ => True end;
  inv_read : match spc s with
             | SAborted => True
             | _ => read_cnt s = wrapu 32 (Z.of_nat (length inp + length (to_client s)))
             end
}.

Lemma received_length l buff : length l <= length buff -> length (received l buff) = length buff.
Proof. intros H. unfold received. rewrite length_app, length_drop. lia. Qed.

Lemma pingpong_init_inv times : inv times [] [] (init times).
Proof.
  split; cbn [c_buff s_buff bytes_read cpc spc read_cnt to_server to_client init]; try done.
  - apply Nat.le_0_l.
  - by exists [].
Qed.

Ltac unpack I :=
  destruct I as [[Lc Ls] Hpc Ht Hb Hr (lost & He & Hl) Ho Ha Hrd].

Lemma client_send_inv times out inp s t n :
  inv times out inp s -> cpc s = CTest (S t) -> 0 < n <= KB ->
  inv times (out ++ sent_in s (client_send t n s)) (inp ++ received_in s (client_send t n s))
    (client_send t n s).
Proof.
  intros I E Hn. unpack I. unfold sent_in, received_in, times_left, client_gone, client_send in *. rewrite E in *. simpl.
  rewrite drop_app_length, app_nil_r.
  split; simpl; try done.
  - exists lost. split; [|done]. rewrite He. unfold in_hand. simpl. by rewrite !app_assoc.
  - apply (f_equal length) in He. rewrite !length_app in *. rewrite length_take. lia.
Qed.

Lemma client_recv_inv times out inp s t m :
  inv times out inp s -> cpc s = CRecv t -> 0 < m <= KB -> m <= length (to_client s) ->
  inv times (out ++ sent_in s (client_recv t m s)) (inp ++ received_in s (client_recv t m s))
    (client_recv t m s).
Proof.
  intros I E Hm Hle. unpack I. unfold sent_in, received_in, times_left, client_gone, client_recv in *. rewrite E in *. simpl.
  rewrite length_drop, app_nil_r. replace (length (to_client s) - (length (to_client s) - m)) with m by lia.
  assert (Lt : length (take m (to_client s)) = m) by (rewrite length_take; lia).
  split; cbn [c_buff s_buff bytes_read]; try done.
  - split; [rewrite received_length|]; lia.
  - unfold times_left. simpl. lia.
  - rewrite Hb, length_app, Lt, Nat2Z.inj_add. unfold wrapu. by rewrite Zplus_mod_idemp_l.
  - unfold times_left. cbn [cpc]. rewrite length_app, Lt.
    replace (times - t) with (S (times - S t)) by lia. rewrite Nat.mul_succ_r. lia.
  - exists lost. split; [|done]. rewrite He. unfold in_hand. simpl.
    rewrite <- !app_assoc. f_equal. rewrite (app_assoc (take m _)), take_drop. done.
  - cbn [spc read_cnt to_client]. destruct (spc s); try done; rewrite Hrd, length_app, Lt, length_drop; do 2 f_equal; lia.
Qed.

Lemma client_end_inv times out inp s :
  inv times out inp s -> inv times (out ++ sent_in s (client_end s)) (inp ++ received_in s (client_end s)) (client_end s).
Proof.
  intros I. unpack I. assert (E1 : sent_in s (client_end s) = []) by (unfold sent_in; by destruct (cpc s)).
  assert (E2 : received_in s (client_end s) = []) by (unfold received_in; by destruct (cpc s)).
  rewrite E1, E2, !app_nil_r. split; try done.
  - unfold times_left. simpl. lia.
  - unfold times_left at 1. cbn [cpc client_end].
    pose proof (Nat.mul_le_mono_l (times - times_left s) (times - 0) KB). lia.
  - by exists lost.
  - simpl. by destruct (spc s).
Qed.

Lemma session_idle s s' : cpc s' = cpc s -> sent_in s s' = [] /\ received_in s s' = [].
Proof. intros E. unfold sent_in, received_in. rewrite E. by destruct (cpc s). Qed.

Lemma session_recv_inv times out inp s n :
  inv times out inp s -> spc s = SRecv -> 0 < n <= KB -> n <= length (to_server s) ->
  inv times out inp (session_recv n s).
Proof.
  intros I E Hn Hle. unpack I.
  assert (Lt : length (take n (to_server s)) = n) by (rewrite length_take; lia).
  unfold in_hand, session_gone in *. rewrite E in *. rewrite Hl in He by done.
  split; try done; simpl.
  - split; [|rewrite received_length]; lia.
  - unfold pc_ok. simpl. rewrite received_length; lia.
  - exists []. split; [|done]. rewrite He. unfold in_hand. simpl. unfold received.
    rewrite take_app_length' by done. simpl. by rewrite take_drop.
Qed.

Lemma session_send_inv times out inp s n m :
  inv times out inp s -> spc s = SSend n -> 0 < m <= n -> inv times out inp (session_send n m s).
Proof.
  intros I E Hm. unpack I. unfold pc_ok, in_hand, session_gone in *. rewrite E in *.
  rewrite Hl in He by done. unfold session_send. destruct (m =? n)%nat eqn:Em; boolp.
  - subst m. split; try done; simpl.
    + exists []. split; [|done]. rewrite He. unfold in_hand. simpl.
      rewrite take_take, Nat.min_id. by rewrite <- !app_assoc.
    + rewrite Hrd, length_app, take_take, length_take, !Nat2Z.inj_add. unfold wrapu.
    rewrite Zplus_mod_idemp_l. f_equal. lia.
  - split; try done; simpl. exists (drop m (take n (s_buff s))). split; [|done].
    rewrite He. unfold in_hand. simpl. rewrite <- !app_assoc. do 2 f_equal.
    by rewrite app_assoc, take_drop.
Qed.

(** The session ends because the client has. *)
Lemma session_end_inv times out inp s :
  inv times out inp s -> session_gone s = false -> client_gone s = true ->
  inv times out inp (session_end SDone s).
Proof.
  intros I A G. unpack I. split; try done; simpl.
  - exists (in_hand s ++ lost). split; [|done]. rewrite He. unfold in_hand at 2. simpl.
    by rewrite <- !app_assoc.
  - unfold session_gone in A. by destruct (spc s).
Qed.

Lemma pingpong_step_inv times out inp s s' :
  inv times out inp s -> step s s' -> inv times (out ++ sent_in s s') (inp ++ received_in s s') s'.
Proof.
  intros I H. destruct H as [E | t n E Hn | t m E Hm Hle | t E _ _ | n E Hn Hle | E _ G | n m E Hm | A G | _ _].
  1, 4, 9: by apply client_end_inv.
  - by apply client_send_inv.
  - by apply client_recv_inv.
  - destruct (session_idle s (session_recv n s) eq_refl) as [-> ->]. rewrite !app_nil_r.
    by apply session_recv_inv.
  - destruct (session_idle s (session_end SDone s) eq_refl) as [-> ->]. rewrite !app_nil_r.
    apply session_end_inv; [done | unfold session_gone; by rewrite E | done].
  - destruct (session_idle s (session_send n m s)) as [-> ->]; [by unfold session_send; case_match|].
    rewrite !app_nil_r. by apply session_send_inv.
  - destruct (session_idle s (session_end SDone s) eq_refl) as [-> ->]. rewrite !app_nil_r.
    by apply session_end_inv.
Qed.

(** ** Progress and termination *)

Definition client_weight (p : client_pc) : nat :=
  match p with CTest t => (3 * KB + 2) * t + 1 | CRecv t => (3 * KB + 2) * t + 2 | CDone => 0 end.

(** Every byte makes three hops. *)
Definition weight (s : state) : nat :=
  client_weight (cpc s) + 3 * length (to_server s) + 2 * length (in_hand s) + length (to_client s) +
  (if session_gone s then 0 else 1).

Lemma pingpong_step_decreases times out inp s s' : inv times out inp s -> step s s' -> weight s' < weight s.
Proof.
  intros I H. unpack I. unfold weight, in_hand, pc_ok, session_gone in *.
  destruct H as [E | t n E Hn | t m E Hm Hle | t E _ _ | n E Hn Hle | E _ G | n m E Hm | A G | A _];
    try rewrite E in *;
    cbn [cpc spc to_server to_client s_buff client_end client_send client_recv session_recv session_end].
  - unfold client_weight. lia.
  - unfold client_weight. rewrite length_app, length_take, Nat.mul_succ_r.
    generalize ((3 * KB + 2) * t). intros. lia.
  - unfold client_weight. rewrite length_drop. generalize ((3 * KB + 2) * t). intros. lia.
  - unfold client_weight. generalize ((3 * KB + 2) * t). intros. lia.
  - rewrite length_drop, length_take. lia.
  - lia.
  - assert (Lt : length (take n (s_buff s)) = n) by (rewrite length_take; lia).
    assert (Lm : length (take m (take n (s_buff s))) = m) by (rewrite length_take; lia).
    unfold session_send. destruct (m =? n)%nat; cbn [cpc spc to_server to_client s_buff length];
      rewrite length_app, Lm, Lt; clear -Hm; lia.
  - unfold session_gone in A. destruct (spc s); try done; cbn [length]; clear; lia.
  - unfold client_gone in A. unfold client_weight. destruct (cpc s); try done; lia.
Qed.

Lemma pingpong_step_possible times out inp s :
  inv times out inp s -> client_gone s = false \/ session_gone s = false -> exists s', step s s'.
Proof.
  intros I H. unpack I. unfold in_hand, pc_ok, session_gone, client_gone in *.
  destruct (cpc s) as [[|t]|t|] eqn:E.
  - eexists. by apply client_stops.
  - eexists. apply (client_sends _ t 1); [done | unfold KB; lia].
  - destruct (to_client s) as [|c l] eqn:Ec.
    + destruct (spc s) as [|n| |] eqn:Es; [|eexists; by apply (session_sends _ n n); [|lia]|done|].
      * eexists. apply (session_receives _ 1); [done | unfold KB; lia |].
        rewrite Hl in He by done. simpl in He. apply (f_equal length) in He.
        rewrite length_app in He. lia.
      * eexists. eapply client_sees_end; [done | done | unfold session_gone; by rewrite Es].
    + eexists. apply (client_receives _ t 1); [done | unfold KB; lia | rewrite Ec; simpl; lia].
  - eexists. apply session_fails; unfold session_gone, client_gone; rewrite ?E; [|done].
    by destruct H.
Qed.

Lemma pingpong_runs_inv times n out inp s :
  runs n out inp (init times) s -> inv times out inp s /\ n + weight s <= (3 * KB + 2) * times + 2.
Proof.
  intros R. remember (init times) as s0 eqn:E. induction R as [s|n out inp s s1 s2 _ IH H].
  - subst s. split; [apply pingpong_init_inv|]. unfold weight, client_weight.
    cbn [cpc spc to_server to_client in_hand session_gone init length].
    generalize ((3 * KB + 2) * times). intros. lia.
  - destruct (IH E) as [I W]. split; [by apply pingpong_step_inv|].
    pose proof (pingpong_step_decreases _ _ _ _ _ I H). lia.
Qed.

(** C32: one connection of the echo benchmark, however the network cuts the
    bytes: what the client receives is what it sent, in order, without a gap, at
    most 1024 bytes a round, and [bytes_read] counts it; the session's count is
    what it has echoed unless its assertion failed; an execution ends within the
    given number of operations and does not stop before both coroutines have. *)
Theorem pingpong_echoes times n out inp s :
  runs n out inp (init times) s ->
  n <= (3 * KB + 2) * times + 2 /\
  inp `prefix_of` out /\ length inp <= KB * times /\
  bytes_read s = wrapu 64 (Z.of_nat (length inp)) /\
  (spc s <> SAborted -> read_cnt s = wrapu 32 (Z.of_nat (length inp + length (to_client s)))) /\
  (client_gone s = false \/ session_gone s = false -> exists s', step s s').
Proof.
  intros R. destruct (pingpong_runs_inv _ _ _ _ _ R) as [I W]. pose proof (pingpong_step_possible _ _ _ _ I) as P.
  unpack I. split_and!; [lia | rewrite He; by apply prefix_app_r | | done | | done].
  - pose proof (Nat.mul_le_mono_l (times - times_left s) times KB). lia.
  - intros Hs. by destruct (spc s).
Qed.

(** One round in which the network takes two of the bytes. *)
Lemma pingpong_echoes_witness :
  exists s, runs 6 [x00; x00] [x00; x00] (init 1) s /\ bytes_read s = 2%Z /\
    read_cnt s = 2%Z /\ 6 <= (3 * KB + 2) * 1 + 2.
Proof.
  set (s1 := client_send 0 2 (init 1)). set (s2 := session_recv 2 s1).
  set (s3 := session_send 2 2 s2). set (s4 := client_recv 0 2 s3).
  set (s5 := client_end s4). set (s6 := session_end SDone s5).
  assert (R : runs 6 (((((([] ++ sent_in (init 1) s1) ++ sent_in s1 s2) ++ sent_in s2 s3) ++ sent_in s3 s4)
                        ++ sent_in s4 s5) ++ sent_in s5 s6)
                     (((((([] ++ received_in (init 1) s1) ++ received_in s1 s2) ++ received_in s2 s3)
                        ++ received_in s3 s4) ++ received_in s4 s5) ++ received_in s5 s6) (init 1) s6).
  { assert (K : 0 < 2 <= KB) by (unfold KB; lia).
    repeat eapply runs_snoc; [apply runs_nil | | | | | |].
    - by apply client_sends.
    - apply session_receives; [done | done | apply Nat.leb_le; vm_compute; reflexivity].
    - apply session_sends; [done | lia].
    - apply client_receives; [done | done | apply Nat.leb_le; vm_compute; reflexivity].
    - by apply client_stops.
    - apply session_sees_end; vm_compute; reflexivity. }
  exists s6. destruct (pingpong_echoes 1 6 _ _ s6 R) as (B & _ & _ & _ & _ & _).
  split_and!; [| vm_compute; reflexivity | vm_compute; reflexivity | exact B].
  exact R.
Defined.
