(* ===== verification/PingpongRun.v ===== *)
(** * [example/pingpong/client.cpp]: the benchmark around [client]

    [main] reads its arguments and starts threads; every thread runs a context
    of its own with one coroutine [start_all_conn], which makes the connections,
    awaits them with [when_all] ([Coroutines]), adds their sum to the shared
    counter and requests the stop of its context, which lets [ctx.run()] return.
    A connection is pending until it has finished with the result of a run of
    [Pingpong]; whether and when it finishes is up to the server and the network.
    The threads interleave at their operations on the two shared atomics.  The
    throughput is a [double] and only printed; it is left out. *)

From S2P Require Import Prelude HttpParser Coroutines Pingpong.
From stdpp Require Import relations.

(** ** [main]: the arguments *)

(** [std::atoi]: 0 when there is no number, undefined when it does not fit. *)
Definition atoi (l : list byte) : option Z :=
  match stoi l with
  | inr n => Some n
  | inl invalid_argument => Some 0%Z
  | inl out_of_range => None
  end.

Record params := mk_params { thread_cnt : Z; echo_times : Z; connect_ptd : Z; server_port : Z }.

(** [Usage]: the message and [return 1]; [Failed]: an assertion; [Undefined]: a
    number that [atoi] cannot give. *)
Inductive started := Usage | Failed | Undefined | Started (p : params).

(** [argv] with the name of the program; [g_server_port] is an [uint16_t]. *)
Definition main_args (argv : list (list byte)) : started :=
  match argv with
  | [_; a1; a2; a3; a4] =>
      match atoi a1, atoi a2, atoi a3, atoi a4 with
      | Some thread_cnt, Some echo_times, Some connect_ptd, Some port =>
          let port := wrapu 16 port in
          if (0 <? connect_ptd)%Z && (0 <? thread_cnt)%Z && (0 <? echo_times)%Z && (0 <? port)%Z
          then Started (mk_params thread_cnt echo_times connect_ptd port) else Failed
      | _, _, _, _ => Undefined
      end
  | _ => Usage
  end.

(** The parameters [start(uint conns, uint times, ...)] gets: [int] to [uint]. *)
Definition conns (p : params) : nat := Z.to_nat (wrapu 32 (connect_ptd p)).
Definition times (p : params) : nat := Z.to_nat (wrapu 32 (echo_times p)).

(** ** [client]: what its future gives *)

(** [co_return bytes_read;] with the connection refused or closed before the
    loop, or after the loop; exceptions are caught. *)
Inductive client_result (t : nat) : Z -> Prop :=
| not_connected : client_result t 0
| served n out inp s :
    runs n out inp (init t) s -> cpc s = CDone -> client_result t (bytes_read s).

(** ** [start_all_conn] *)

(** [std::accumulate(results.begin(), results.end(), 0ull)] *)
Definition accumulate (l : list Z) : Z := fold_left (fun a r => wrapu 64 (a + r)) l 0%Z.

(** A connection that [start_all_conn] has made: suspended somewhere in [client],
    or its future is ready. *)
Inductive conn := Pending | Finished (r : Z).

(** [start_all_conn]: not entered yet, awaiting [when_all], after
    [bytes += this_bytes], or at its end, after [ctx.request_stop()]. *)
Inductive place :=
| Fresh
| Awaits (tid : Z) (cs : list conn)
| Added (tid : Z) (rs : list Z)
| Ended (tid : Z) (rs : list Z).

(** A thread of [main]: its coroutine, the stop flag of its context, and whether
    [start] has returned from [ctx.run()]. *)
Record thread := mk_thread { co_place : place; stop_requested : bool; returned : bool }.

Record world := mk_world { threads : list thread; thread_id : Z; bytes : Z }.

(** [std::vector<std::thread>] with [thread_cnt] threads. *)
Definition main_start (p : params) : world :=
  mk_world (replicate (Z.to_nat (thread_cnt p)) (mk_thread Fresh false false)) 0 0.

(** The coroutine of thread [t] at another place. *)
Definition move_to (q : place) (t : thread) : thread := mk_thread q (stop_requested t) (returned t).

(** [++thread_id] and the loop that makes the connections. *)
Definition enter (p : params) (i : nat) (w : world) : world :=
  let tid := (thread_id w + 1)%Z in
  mk_world (alter (move_to (Awaits tid (replicate (conns p) Pending))) i (threads w)) tid (bytes w).

(** Connection [j] of thread [i] finishes. *)
Definition connection_ends (i : nat) (tid : Z) (cs : list conn) (j : nat) (r : Z) (w : world) : world :=
  mk_world (alter (move_to (Awaits tid (<[j := Finished r]> cs))) i (threads w)) (thread_id w) (bytes w).

(** [results = co_await when_all(...)] has given [l]. *)
Definition add_bytes (i : nat) (tid : Z) (l : list Z) (w : world) : world :=
  mk_world (alter (move_to (Added tid l)) i (threads w)) (thread_id w) (wrapu 64 (bytes w + accumulate l)).

(** [ctx.request_stop();], the last statement. *)
Definition request_stop (i : nat) (tid : Z) (l : list Z) (w : world) : world :=
  mk_world (alter (fun t => mk_thread (Ended tid l) true (returned t)) i (threads w)) (thread_id w) (bytes w).

(** [ctx.run()] and [start] return. *)
Definition return_ (i : nat) (w : world) : world :=
  mk_world (alter (fun t => mk_thread (co_place t) (stop_requested t) true) i (threads w))
    (thread_id w) (bytes w).

(** [order] is the order in which the connections completed.  The loop of
    [ctx.run()] is left only when the stop was requested. *)
Inductive step (p : params) (w : world) : world -> Prop :=
| enters i t : threads w !! i = Some t -> co_place t = Fresh -> step p w (enter p i w)
| finishes i t tid cs j r :
    threads w !! i = Some t -> co_place t = Awaits tid cs ->
    cs !! j = Some Pending -> client_result (times p) r ->
    step p w (connection_ends i tid cs j r w)
| adds i t tid rs order l :
    threads w !! i = Some t -> co_place t = Awaits tid (List.map Finished rs) ->
    order ≡ₚ seq 0 (length rs) -> when_all (List.map Value rs) order = Some (Value l) ->
    step p w (add_bytes i tid l w)
| stops i t tid l :
    threads w !! i = Some t -> co_place t = Added tid l -> step p w (request_stop i tid l w)
| returns i t :
    threads w !! i = Some t -> stop_requested t = true -> returned t = false ->
    step p w (return_ i w).

Inductive steps (p : params) : nat -> world -> world -> Prop :=
| steps_nil w : steps p 0 w w
| steps_snoc n w w1 w2 : steps p n w w1 -> step p w1 w2 -> steps p (S n) w w2.

(** [for (auto &t : tds) t.join();] goes on when every thread has returned. *)
Definition joined (w : world) : bool := forallb returned (threads w).

(** Connections that have not finished. *)
Definition is_pending (c : conn) : nat := match c with Pending => 1 | Finished _ => 0 end.
Definition outstanding_of (t : thread) : nat :=
  match co_place t with Awaits _ cs => sum_list_with is_pending cs | _ => 0 end.
Definition outstanding (w : world) : nat := sum_list_with outstanding_of (threads w).

(** ** Sums *)

Definition sum (l : list Z) : Z := foldr Z.add 0%Z l.

(** The results a thread has added to [bytes], its id, and its steps so far. *)
Definition conn_results (t : thread) : list Z := match co_place t with Added _ l | Ended _ l => l | _ => [] end.
Definition added (t : thread) : Z := accumulate (conn_results t).
Definition tid_of (t : thread) : option Z :=
  match co_place t with Fresh => None | Awaits i _ | Added i _ | Ended i _ => Some i end.
Definition progress (p : params) (t : thread) : nat :=
  match co_place t with
  | Fresh => 0
  | Awaits _ cs => 1 + (conns p - sum_list_with is_pending cs)
  | Added _ _ => 2 + conns p
  | Ended _ _ => 3 + conns p + Nat.b2n (returned t)
  end.

(** The most bytes that one thread can count. *)
Definition thread_bound (p : params) : Z := Z.of_nat (conns p) * (Z.of_nat KB * Z.of_nat (times p)).

(** A thread's results are those of its connections; its stop is requested exactly
    at the end of its coroutine, and it returns only then. *)
Definition conn_ok (p : params) (c : conn) : Prop :=
  match c with Pending => True | Finished r => client_result (times p) r end.
Definition thread_ok (p : params) (t : thread) : Prop :=
  match co_place t with
  | Fresh => stop_requested t = false /\ returned t = false
  | Awaits _ cs => length cs = conns p /\ Forall (conn_ok p) cs /\
                   stop_requested t = false /\ returned t = false
  | Added _ l => length l = conns p /\ Forall (client_result (times p)) l /\
                 stop_requested t = false /\ returned t = false
  | Ended _ l => length l = conns p /\ Forall (client_result (times p)) l /\ stop_requested t = true
  end.

Record run_inv (p : params) (n : nat) (w : world) : Prop := {
  rinv_count : length (threads w) = Z.to_nat (thread_cnt p);
  rinv_bytes : bytes w = wrapu 64 (sum (List.map added (threads w)));
  rinv_ok : Forall (thread_ok p) (threads w);
  rinv_ids : omap tid_of (threads w) ≡ₚ List.map Z.of_nat (seq 1 (Z.to_nat (thread_id w)));
  rinv_id : (0 <= thread_id w)%Z;
  rinv_steps : n = sum_list_with (progress p) (threads w)
}.

(** ** One connection, one thread *)

Lemma client_result_bound t r : client_result t r -> (0 <= r <= Z.of_nat KB * Z.of_nat t)%Z.
Proof.
  intros [|n out inp s R D]; [lia|]. destruct (pingpong_runs_inv _ _ _ _ _ R) as [I _].
  destruct I as [_ _ _ Hb Hr _ _ _ _]. rewrite Hb. unfold wrapu.
  pose proof (Z.mod_pos_bound (Z.of_nat (length inp)) (2 ^ 64) ltac:(lia)).
  pose proof (Z.mod_le (Z.of_nat (length inp)) (2 ^ 64) ltac:(lia) ltac:(lia)).
  pose proof (Nat.mul_le_mono_l (t - times_left s) t KB). nia.
Qed.

Lemma wrapu_add_l a b : wrapu 64 (wrapu 64 a + b) = wrapu 64 (a + b).
Proof. apply Zplus_mod_idemp_l. Qed.

Lemma wrapu_twice a : wrapu 64 (wrapu 64 a) = wrapu 64 a.
Proof. apply Zmod_mod. Qed.

Lemma accumulate_sum l : accumulate l = wrapu 64 (sum l).
Proof.
  assert (G : forall a, wrapu 64 (fold_left (fun a r => wrapu 64 (a + r)) l a) = wrapu 64 (a + sum l)).
  { induction l as [|x l IH]; intros a; simpl; [by rewrite Z.add_0_r|].
    rewrite IH, wrapu_add_l. f_equal. lia. }
  rewrite <- (Z.add_0_l (sum l)), <- G. unfold accumulate. clear G.
  destruct l as [|x l _] using rev_ind; [done|]. by rewrite fold_left_app; simpl; rewrite wrapu_twice.
Qed.

(** [when_all] gives the results of the connections, in their order. *)
Lemma when_all_results (rs : list Z) order :
  order ≡ₚ seq 0 (length rs) -> when_all (List.map Value rs) order = Some (Value rs).
Proof.
  intros P. rewrite when_all_in_order.
  - f_equal. clear P. induction rs as [|r rs IH]; [done|]. simpl. by rewrite IH.
  - rewrite P. apply NoDup_seq.
  - intros i Hi. rewrite P. apply elem_of_seq. rewrite length_map in Hi. lia.
Qed.

Lemma sum_bound l b : (0 <= b)%Z -> Forall (fun x => 0 <= x <= b)%Z l -> (0 <= sum l <= Z.of_nat (length l) * b)%Z.
Proof. intros Hb H. induction H; simpl; lia. Qed.

Lemma accumulate_bound p rs :
  length rs = conns p -> Forall (client_result (times p)) rs -> (0 <= accumulate rs <= thread_bound p)%Z.
Proof.
  intros L F. rewrite accumulate_sum. unfold thread_bound.
  assert (B : (0 <= sum rs <= Z.of_nat (length rs) * (Z.of_nat KB * Z.of_nat (times p)))%Z).
  { apply sum_bound; [lia|]. eapply Forall_impl; [exact F|]. intros r. apply client_result_bound. }
  rewrite L in B. unfold wrapu. pose proof (Z.mod_pos_bound (sum rs) (2 ^ 64) ltac:(lia)).
  pose proof (Z.mod_le (sum rs) (2 ^ 64) ltac:(lia) ltac:(lia)). lia.
Qed.

(** ** All threads *)

Lemma sum_insert (l : list thread) (i : nat) x y :
  l !! i = Some x ->
  sum (List.map added (<[i := y]> l)) = (sum (List.map added l) - added x + added y)%Z.
Proof.
  revert i. induction l as [|z l IH]; intros [|i] H; try done; simpl in *; [simplify_eq; lia|].
  rewrite (IH i H). lia.
Qed.

Lemma tids_insert (l : list thread) (i : nat) x y :
  l !! i = Some x -> tid_of x = tid_of y -> omap tid_of (<[i := y]> l) = omap tid_of l.
Proof.
  revert i. induction l as [|z l IH]; intros [|i] H E; try done; simpl in *; [simplify_eq; by rewrite E|].
  destruct (tid_of z); [f_equal|]; exact (IH i H E).
Qed.

Lemma tids_enter (l : list thread) (i : nat) x y t :
  l !! i = Some x -> tid_of x = None -> tid_of y = Some t ->
  omap tid_of (<[i := y]> l) ≡ₚ t :: omap tid_of l.
Proof.
  intros H Ex Ey. revert i H. induction l as [|z l IH]; intros [|i] H; try done; simpl in *.
  - simplify_eq. by rewrite Ex, Ey.
  - pose proof (IH i H) as IH'. destruct (tid_of z); [|exact IH'].
    etrans; [apply perm_skip; exact IH' | apply perm_swap].
Qed.

(** The connections that are still pending, before and after one finishes. *)
Lemma pending_le cs : sum_list_with is_pending cs <= length cs.
Proof. induction cs as [|[|r] cs IH]; simpl; lia. Qed.

Lemma pending_all n : sum_list_with is_pending (replicate n Pending) = n.
Proof. induction n; simpl; lia. Qed.

Lemma pending_none rs : sum_list_with is_pending (List.map Finished rs) = 0.
Proof. by induction rs. Qed.

Lemma not_pending cs : sum_list_with is_pending cs = 0 -> exists rs, cs = List.map Finished rs.
Proof.
  induction cs as [|[|r] cs IH]; simpl; [by exists [] | lia|]. intros H.
  destruct (IH H) as [rs ->]. by exists (r :: rs).
Qed.

Lemma finished_ok p rs : Forall (conn_ok p) (List.map Finished rs) -> Forall (client_result (times p)) rs.
Proof. induction rs; simpl; intros H; inversion H; subst; constructor; auto. Qed.

Lemma run_init_inv p : (0 <= thread_cnt p)%Z -> run_inv p 0 (main_start p).
Proof.
  intros H. unfold main_start. split; simpl.
  - apply length_replicate.
  - generalize (Z.to_nat (thread_cnt p)). intros k. replace (sum _) with 0%Z; [done|].
    induction k as [|k IH]; simpl; [done|]. unfold added in *. simpl in *. by rewrite <- IH.
  - by apply Forall_replicate.
  - by induction (Z.to_nat (thread_cnt p)).
  - done.
  - induction (Z.to_nat (thread_cnt p)); simpl; lia.
Qed.

(** A thread that makes one step and keeps its id. *)
Lemma run_insert_inv p n w i x y b :
  run_inv p n w -> threads w !! i = Some x -> thread_ok p y -> tid_of x = tid_of y ->
  progress p y = S (progress p x) -> b = wrapu 64 (bytes w - added x + added y) ->
  run_inv p (S n) (mk_world (<[i := y]> (threads w)) (thread_id w) b).
Proof.
  intros [C B A I T N] H Ho Et Ep ->. split; simpl.
  - by rewrite length_insert.
  - rewrite (sum_insert _ _ _ _ H), B. unfold Z.sub. rewrite <- !Z.add_assoc. apply wrapu_add_l.
  - by apply Forall_insert.
  - by rewrite (tids_insert _ _ _ _ H Et).
  - done.
  - pose proof (sum_list_with_insert (progress p) _ _ _ y H). lia.
Qed.

(** One that adds nothing to [bytes] besides. *)
Lemma run_quiet_inv p n w i x y :
  run_inv p n w -> threads w !! i = Some x -> thread_ok p y -> tid_of x = tid_of y ->
  progress p y = S (progress p x) -> added y = added x ->
  run_inv p (S n) (mk_world (<[i := y]> (threads w)) (thread_id w) (bytes w)).
Proof.
  intros R H Ho Et Ep Ea. eapply run_insert_inv; [done.. |]. rewrite Ea, (rinv_bytes _ _ _ R).
  rewrite Z.sub_add. by rewrite wrapu_twice.
Qed.

Lemma enter_inv p n w i t :
  run_inv p n w -> threads w !! i = Some t -> co_place t = Fresh -> run_inv p (S n) (enter p i w).
Proof.
  intros [C B A I T N] H E. pose proof (Forall_lookup_1 _ _ _ _ A H) as Ok.
  unfold thread_ok in Ok. rewrite E in Ok.
  unfold enter. rewrite (alter_known _ _ _ _ H). set (y := move_to _ t). split; simpl.
  - by rewrite length_insert.
  - rewrite (sum_insert _ _ _ _ H), B. unfold added, conn_results, y, move_to. rewrite E. simpl. f_equal. lia.
  - apply Forall_insert; [done|]. unfold thread_ok, y, move_to. simpl.
    split_and!; [apply length_replicate | by apply Forall_replicate | apply Ok..].
  - rewrite (tids_enter _ _ _ y _ H ltac:(by unfold tid_of; rewrite E) eq_refl), I.
    replace (Z.to_nat (thread_id w + 1)) with (S (Z.to_nat (thread_id w))) by lia.
    rewrite seq_S, map_app. simpl. replace (Z.of_nat (S (Z.to_nat (thread_id w)))) with (thread_id w + 1)%Z by lia.
    apply Permutation_cons_append.
  - lia.
  - assert (Ey : progress p y = 1) by (unfold progress, y, move_to; cbn [co_place]; rewrite pending_all; lia).
    assert (Et : progress p t = 0) by (unfold progress; by rewrite E).
    pose proof (sum_list_with_insert (progress p) _ _ _ y H). lia.
Qed.

Lemma run_step_inv p n w w' : run_inv p n w -> step p w w' -> run_inv p (S n) w'.
Proof.
  intros R H. pose proof (rinv_ok _ _ _ R) as A.
  assert (K : forall i t, threads w !! i = Some t -> thread_ok p t) by (intros i t; apply Forall_lookup_1, A).
  destruct H as [i t H E | i t tid cs j r H E Hj Hr | i t tid rs order l H E P W | i t tid l H E | i t H Hs Hn].
  - by eapply enter_inv.
  - pose proof (K _ _ H) as O. unfold thread_ok in O. rewrite E in O. destruct O as (L & F & Os).
    unfold connection_ends. rewrite (alter_known _ _ _ _ H).
    pose proof (sum_list_with_insert is_pending _ _ _ (Finished r) Hj) as S. simpl in S.
    eapply run_quiet_inv; [done | done | | | |]; unfold thread_ok, tid_of, progress, added, conn_results, move_to;
      cbn [co_place stop_requested returned]; rewrite ?E; try done.
    + split_and!; [by rewrite length_insert | by apply Forall_insert | apply Os..].
    + pose proof (pending_le cs). lia.
  - pose proof (K _ _ H) as O. unfold thread_ok in O. rewrite E in O. destruct O as (L & F & Os).
    rewrite length_map in L. rewrite (when_all_results _ _ P) in W. injection W as <-.
    unfold add_bytes. rewrite (alter_known _ _ _ _ H).
    eapply run_insert_inv; [done | done | | | |]; unfold thread_ok, tid_of, progress, added, conn_results, move_to;
      cbn [co_place stop_requested returned]; rewrite ?E; try done.
    + split_and!; [done | by apply finished_ok | apply Os..].
    + rewrite pending_none. lia.
    + f_equal. unfold accumulate at 2. simpl. lia.
  - pose proof (K _ _ H) as O. unfold thread_ok in O. rewrite E in O. destruct O as (L & F & Os & On).
    unfold request_stop. rewrite (alter_known _ _ _ _ H).
    eapply run_quiet_inv; [done | done | | | |]; unfold thread_ok, tid_of, progress, added, conn_results;
      cbn [co_place stop_requested returned]; rewrite ?E; try done.
    rewrite On. simpl. lia.
  - pose proof (K _ _ H) as O. unfold return_. rewrite (alter_known _ _ _ _ H).
    unfold thread_ok in O. destruct (co_place t) eqn:E; try (destruct_and?; congruence).
    eapply run_quiet_inv; [done | done | | | |]; unfold thread_ok, tid_of, progress, added, conn_results;
      cbn [co_place stop_requested returned]; rewrite ?E; try done.
    rewrite Hn. simpl. lia.
Qed.

Lemma run_steps_inv p n w :
  (0 <= thread_cnt p)%Z -> steps p n (main_start p) w -> run_inv p n w.
Proof.
  intros H R. remember (main_start p) as w0 eqn:E. induction R; subst.
  - by apply run_init_inv.
  - eapply run_step_inv; [by apply IHR | done].
Qed.

Lemma not_joined w : joined w = false -> exists i t, threads w !! i = Some t /\ returned t = false.
Proof.
  unfold joined. induction (threads w) as [|t l IH]; [done|]. simpl. intros [J | J]%andb_false_iff.
  - by exists 0, t.
  - destruct (IH J) as (i & t' & ? & ?). by exists (S i), t'.
Qed.

Lemma pending_thread w i t : outstanding w = 0 -> threads w !! i = Some t -> outstanding_of t = 0.
Proof.
  unfold outstanding. revert i. induction (threads w) as [|x l IH]; intros [|i] H E; simplify_eq/=; [lia|].
  apply (IH i); [lia | done].
Qed.

(** With no connection outstanding, a thread that has not returned can go on. *)
Lemma run_step_possible p n w :
  run_inv p n w -> joined w = false -> outstanding w = 0 -> exists w', step p w w'.
Proof.
  intros R J Hp. destruct (not_joined w J) as (i & t & H & Hr).
  pose proof (Forall_lookup_1 _ _ _ _ (rinv_ok _ _ _ R) H) as O. unfold thread_ok in O.
  pose proof (pending_thread _ _ _ Hp H) as Hpt. unfold outstanding_of in Hpt.
  destruct (co_place t) as [|tid cs|tid l|tid l] eqn:E.
  - eexists. by eapply enters.
  - destruct (not_pending cs Hpt) as [rs ->]. eexists.
    eapply (adds p w i t tid rs (seq 0 (length rs))); [done | done | done |]. by apply when_all_results.
  - eexists. by eapply stops.
  - eexists. eapply returns; [done | apply O | done].
Qed.

Lemma progress_le p t : thread_ok p t -> progress p t <= conns p + 4.
Proof. unfold thread_ok, progress. destruct (co_place t), (returned t); simpl; lia. Qed.

Lemma returned_progress p t :
  thread_ok p t -> returned t = true -> progress p t = conns p + 4 /\ exists i, tid_of t = Some i.
Proof.
  unfold thread_ok, progress, tid_of. intros O H. destruct (co_place t); try (destruct_and?; congruence).
  rewrite H. split; [simpl; lia | eauto].
Qed.

Lemma progress_bound p l :
  Forall (thread_ok p) l -> sum_list_with (progress p) l <= length l * (conns p + 4).
Proof. intros F. induction F as [|t l O _ IH]; simpl; [lia|]. pose proof (progress_le p t O). lia. Qed.

Lemma joined_progress p l :
  Forall (thread_ok p) l -> forallb returned l = true ->
  sum_list_with (progress p) l = length l * (conns p + 4) /\ length (omap tid_of l) = length l.
Proof.
  intros F. induction F as [|t l O _ IH]; [done|]. simpl. intros [Ht Hl]%andb_true_iff.
  destruct (IH Hl) as [-> E]. destruct (returned_progress p t O Ht) as [-> [i ->]].
  split; [lia|]. simpl. f_equal. exact E.
Qed.

Lemma added_bound p t : thread_ok p t -> (0 <= added t <= thread_bound p)%Z.
Proof.
  unfold thread_ok, added, conn_results. intros O. destruct (co_place t); try (destruct O as (L & F & _); by apply accumulate_bound).
  all: change (accumulate []) with 0%Z; unfold thread_bound; lia.
Qed.

(** C17: the benchmark counts right, in every interleaving of its threads and
    connections: an execution has at most [connect_ptd + 4] steps per thread; as
    long as the threads have not all returned it can stop only while a connection
    is unanswered (then [main] waits, there is no timeout); [bytes] is at any time
    the sum of what the threads added, which is at most 1024 bytes per round and
    connection, modulo 2^64; and when [main] has joined the threads, every
    thread has all the results of its connections added, has requested the stop of
    its context, and the thread ids are 1 to [thread_cnt], each once. *)
Theorem benchmark_counts p n w :
  (0 < thread_cnt p)%Z -> steps p n (main_start p) w ->
  let total := sum (List.map added (threads w)) in
  n <= Z.to_nat (thread_cnt p) * (conns p + 4) /\
  (joined w = false -> outstanding w = 0 -> exists w', step p w w') /\
  (0 <= total <= thread_cnt p * thread_bound p)%Z /\
  bytes w = wrapu 64 total /\
  (thread_cnt p * thread_bound p < 2 ^ 64 -> bytes w = total)%Z /\
  (joined w = true ->
   n = Z.to_nat (thread_cnt p) * (conns p + 4) /\
   Forall (fun t => stop_requested t = true /\ length (conn_results t) = conns p /\
                    Forall (client_result (times p)) (conn_results t)) (threads w) /\
   omap tid_of (threads w) ≡ₚ List.map Z.of_nat (seq 1 (Z.to_nat (thread_cnt p)))).
Proof.
  intros H R total. pose proof (run_steps_inv p n w ltac:(lia) R) as V. pose proof V as [C B A I T N].
  assert (Bd : (0 <= total <= thread_cnt p * thread_bound p)%Z).
  { unfold total. rewrite <- (Z2Nat.id (thread_cnt p)) by lia. rewrite <- C, <- (length_map added).
    apply sum_bound; [unfold thread_bound; lia|]. apply Forall_map.
    eapply Forall_impl; [exact A | apply added_bound]. }
  split_and!; [ | by eapply run_step_possible | lia | lia | done | |].
  - rewrite N, <- C. by apply progress_bound.
  - intros Hs. rewrite B. fold total. apply wrapu_small. lia.
  - intros J. destruct (joined_progress p _ A J) as [Ep Et]. split_and!; [by rewrite N, Ep, C | |].
    + unfold joined in J. apply Forall_forall.
      intros t Ht. rewrite Forall_forall in A. specialize (A _ Ht).
      assert (returned t = true) as Hr by (rewrite forallb_forall in J; apply J; by apply list_elem_of_In).
      unfold thread_ok, conn_results in *. destruct (co_place t); destruct_and?; split_and?; congruence || done.
    + rewrite I. apply Permutation_length in I. rewrite Et, C, length_map, length_seq in I. by rewrite I.
Qed.

(** [main] starts the benchmark exactly for four arguments that are numbers
    an [int] holds, the first three positive and the last with a low half that
    is not 0; the numbers then reach [start] unchanged, and the port modulo
    2^16. *)
Theorem main_args_started argv p :
  main_args argv = Started p <->
  exists name a1 a2 a3 a4 n4, argv = [name; a1; a2; a3; a4] /\
    atoi a1 = Some (thread_cnt p) /\ atoi a2 = Some (echo_times p) /\ atoi a3 = Some (connect_ptd p) /\
    atoi a4 = Some n4 /\ server_port p = wrapu 16 n4 /\
    (0 < thread_cnt p /\ 0 < server_port p)%Z /\
    (0 < echo_times p /\ Z.of_nat (times p) = echo_times p)%Z /\
    (0 < connect_ptd p /\ Z.of_nat (conns p) = connect_ptd p)%Z.
Proof.
  assert (AT : forall a n, atoi a = Some n -> (n <= 2 ^ 31 - 1)%Z).
  { intros a n E. unfold atoi in E. destruct (stoi a) as [[]|m] eqn:S; simplify_eq; [lia|].
    unfold stoi in S. repeat (case_match; try done); simplify_eq;
      match goal with H : _ || _ = false |- _ => apply orb_false_iff in H as [_ H]; apply Z.ltb_ge in H end;
      unfold INT_MAX in *; lia. }
  split.
  - unfold main_args. intros H. repeat (case_match; try done). simplify_eq.
    rename select (_ && _ = true) into G. rewrite !andb_true_iff, !Z.ltb_lt in G. simpl.
    unfold times, conns. simpl. do 6 eexists. split; [done|]. split_and!; try done; try lia.
    all: rewrite Z2Nat.id by (apply Z.mod_pos_bound; lia); apply wrapu_small.
    all: match goal with |- (0 <= ?z < _)%Z => match goal with E : atoi _ = Some z |- _ => apply AT in E; lia end end.
  - intros (name & a1 & a2 & a3 & a4 & n4 & -> & E1 & E2 & E3 & E4 & Ep & [H1 H4] & [H2 _] & [H3 _]).
    unfold main_args. rewrite E1, E2, E3, E4, <- Ep.
    rewrite !(proj2 (Z.ltb_lt _ _)) by done. by destruct p.
Qed.

(** One round in which the network takes two bytes. *)
Lemma two_bytes : client_result 1 2.
Proof.
  set (s1 := client_send 0 2 (init 1)). set (s2 := session_recv 2 s1).
  set (s3 := session_send 2 2 s2). set (s4 := client_recv 0 2 s3).
  assert (K : 0 < 2 <= KB) by (unfold KB; lia).
  assert (E : bytes_read (client_end s4) = 2%Z) by (vm_compute; reflexivity).
  rewrite <- E. eapply (served 1 5); [|reflexivity].
  eapply runs_snoc; [|by apply (client_stops s4)].
  eapply runs_snoc; [|by apply (client_receives s3 0 2); [| |apply Nat.leb_le; vm_compute]].
  eapply runs_snoc; [|by apply (session_sends s2 2 2); [|lia]].
  eapply runs_snoc; [|by apply (session_receives s1 2); [| |apply Nat.leb_le; vm_compute]].
  eapply runs_snoc; [|by apply (client_sends (init 1) 0 2)].
  apply runs_nil.
Qed.

(** One thread with two connections, one of them refused. *)
Lemma benchmark_counts_witness :
  exists w, steps (mk_params 1 1 2 8888) 6 (main_start (mk_params 1 1 2 8888)) w /\ joined w = true /\
    bytes w = 2%Z.
Proof.
  set (p := mk_params 1 1 2 8888). set (w1 := enter p 0 (main_start p)).
  set (w2 := connection_ends 0 1 [Pending; Pending] 1 2 w1).
  set (w3 := connection_ends 0 1 [Pending; Finished 2] 0 0 w2).
  set (w4 := add_bytes 0 1 [0; 2]%Z w3). set (w5 := request_stop 0 1 [0; 2]%Z w4). set (w6 := return_ 0 w5).
  assert (R : steps p 6 (main_start p) w6).
  { apply steps_snoc with w5; [apply steps_snoc with w4; [apply steps_snoc with w3; [apply steps_snoc with w2;
      [apply steps_snoc with w1; [apply steps_snoc with (main_start p); [apply steps_nil|]|]|]|]|]|].
    - eapply (enters p (main_start p) 0); reflexivity.
    - eapply (finishes p w1 0); [reflexivity.. | apply two_bytes].
    - eapply (finishes p w2 0); [reflexivity.. | apply not_connected].
    - eapply (adds p w3 0 _ 1 [0; 2]%Z [1; 0]); [reflexivity | reflexivity | apply perm_swap | reflexivity].
    - eapply (stops p w4 0); reflexivity.
    - eapply (returns p w5 0); reflexivity. }
  exists w6. split; [exact R|]. split; [reflexivity|].
  destruct (benchmark_counts p 6 w6 ltac:(done) R) as (_ & _ & _ & B & _). exact B.
Defined.

Lemma main_args_example :
  main_args [bs "client"; bs "4"; bs "100"; bs "25"; bs "8888"] = Started (mk_params 4 100 25 8888) /\
  main_args [bs "client"; bs "4"; bs "100"; bs "25"; bs "65536"] = Failed /\
  main_args [bs "client"; bs "4"; bs "100"] = Usage.
Proof. split_and!; vm_compute; reflexivity. Qed.
