(* ===== verification/EchoServer.v ===== *)
(** * Socket options and the echo server: [socket_base.hpp], [tcp.hpp],
    [file_descriptor_base.hpp], [example/pingpong/server.cpp]

    The members of a socket that are system calls, in an error monad over the
    log of what the process did; the kernel is the parameter [sys], which answers
    a call from the log so far with the value returned and [errno].  On top of
    them the two coroutines of the server: [server] sets its acceptor up and
    spawns one [start_session] per connection, to which the accepted socket is
    moved.  What the bytes of a session are is in [Pingpong]; here it is the life
    of the descriptors and the counters.  [server] is a coroutine with a value
    that has no [co_return]: where an exception takes it to its end the program is
    undefined, and the model stops there ([FlowedOff]). *)

From S2P Require Import Prelude Endian Descriptor Sockets.
From stdpp Require Import gmap.
Local Open Scope Z_scope.

(** ** System calls *)

Inductive call :=
| CallSocket (domain type protocol : Z)
| CallSetsockopt (fd level name value : Z)
| CallBind (fd : Z) (addr : list Z)
| CallListen (fd backlog : Z)
| CallFcntl (fd cmd argument : Z).

(** What is logged: a call with what it returned, a descriptor that a completion
    handed to the process, and [::close]. *)
Inductive event :=
| Called (c : call) (ret : Z)
| Accepted (n : Z)
| Closed (n : Z).

Definition log := list event.



Section kernel.
Variable sys : log -> call -> Z * Z.

(** A result or an error number, and the log after it. *)
Definition M (A : Type) : Type := log -> (Z + A) * log.

#[export] Instance M_ret : MRet M := fun A a l => (inr a, l).
#[export] Instance M_bind : MBind M := fun A B k m l =>
  match m l with (inl e, l) => (inl e, l) | (inr a, l) => k a l end.
Definition throw {A} (e : Z) : M A := fun l => (inl e, l).

Definition invoke (c : call) : M (Z * Z) :=
  fun l => let '(r, e) := sys l c in (inr (r, e), l ++ [Called c r]).

(** [if (call != 0) throw make_system_error(errno);] *)
Definition checked (c : call) : M unit :=
  '(r, errno) ← invoke c; match check_call r errno with Some e => throw e | None => mret tt end.

(** ** Members of a socket *)

Definition SOL_SOCKET : Z := 1.
Definition SO_REUSEADDR : Z := 2.
Definition SO_REUSEPORT : Z := 15.
Definition SO_KEEPALIVE : Z := 9.
Definition F_GETFL : Z := 3.
Definition F_SETFL : Z := 4.
Definition O_NONBLOCK : Z := 2048.


Definition set_reuse_address (n : Z) : M unit := checked (CallSetsockopt n SOL_SOCKET SO_REUSEADDR 1).
Definition set_reuse_port (n : Z) : M unit := checked (CallSetsockopt n SOL_SOCKET SO_REUSEPORT 1).
Definition set_keep_alive (n : Z) : M unit := checked (CallSetsockopt n SOL_SOCKET SO_KEEPALIVE 1).

(** [set_non_block()]: neither result is looked at. *)
Definition set_non_block (n : Z) : M unit :=
  '(flags, _) ← invoke (CallFcntl n F_GETFL 0);
  _ ← invoke (CallFcntl n F_SETFL (Z.lor flags O_NONBLOCK)); mret tt.



(** ** The server *)















(** ** Descriptors *)




















(** ** Counters *)
























(** ** Options *)

(** [set_non_block] asks for the flags and sets them with [O_NONBLOCK] added
    and no other bit changed; when the first call fails, what is set is every
    flag. *)
Theorem set_non_block_flags n l :
  let flags := (sys l (CallFcntl n F_GETFL 0)).1 in
  exists r, (set_non_block n l).2 =
    l ++ [Called (CallFcntl n F_GETFL 0) flags; Called (CallFcntl n F_SETFL (Z.lor flags O_NONBLOCK)) r] /\
    (forall i, 0 <= i -> Z.testbit (Z.lor flags O_NONBLOCK) i = (i =? 11) || Z.testbit flags i) /\
    (flags = -1 -> Z.lor flags O_NONBLOCK = -1).
Proof.
  intros flags. unfold set_non_block, invoke, mbind, M_bind, mret, M_ret. subst flags.
  destruct (sys l _) as [f e]. simpl. destruct (sys _ _) as [r e']. exists r.
  split_and!; [by rewrite <- app_assoc | |].
  - intros i Hi. rewrite Z.lor_spec, orb_comm. f_equal. change O_NONBLOCK with (2 ^ 11).
    rewrite Z.pow2_bits_eqb by lia. apply Z.eqb_sym.
  - intros ->. done.
Qed.
End kernel.


