(* ===== verification/ClientRun.v ===== *)
(** * The connections of the benchmark on the event loop: [example/pingpong/client.cpp]
    over [ioutils/tcp.hpp] and [io_context.hpp]

    The coroutine [client] with the operations of [Sockets]: an awaited operation
    suspends on its entry, and its second closure turns the completion into a
    value or an exception.  [start] posts the task that spawns [start_all_conn] on
    the context of its thread ([posted]); its [when_all] starts the connections
    one after the other, and each runs up to its first suspension as a coroutine
    spawned on its own thread does.  The tasks of [when_all], its counter and what
    follows it are in [WhenAll] and [PingpongRun].  The kernel answers every entry
    with a completion it may have.  Operation [k] of connection [i] is numbered
    [op_id i k]. *)

From S2P Require Import Prelude Endian IoContext Coroutines IoRun Descriptor Sockets Pingpong PingpongRun.
From stdpp Require Import gmap.
Local Open Scope Z_scope.

(** [co_await o] on an object in state [d], in a body that goes on with [k], and
    with [handler] when the operation throws. *)
Definition await_op {R A} (id : nat) (o : io_op R) (d : descriptor) (k : R -> co A)
    (handler : Z -> co A) : co A :=
  Wait id (fun res => match (get_result o res d).1 with inl e => handler e | inr v => k v end).

(** The handler sees the error number of a negative completion. *)
Definition handled {A} (res : Z) (k : Z -> co A) (handler : Z -> co A) : co A :=
  if res <? 0 then handler (- res) else k res.

Lemma evaluate_size {A} answer id (o : io_op Z) d (k handler : Z -> co A) :
  get_result o = plain_result size_result ->
  evaluate answer (await_op id o d k handler) = evaluate answer (handled (answer id) k handler) /\
  waits answer (await_op id o d k handler) = S (waits answer (handled (answer id) k handler)).
Proof.
  intros E. unfold await_op. cbn [evaluate waits]. rewrite E. unfold plain_result, size_result, handled. cbn [fst].
  by destruct (answer id <? 0).
Qed.

Section client.
Variable big : bool.
(** [ipv4::address{g_server_port}], [uint times], and [buff]. *)
Variable addr : Ipv4.address.
Variable times : nat.
Variable buff : Z.

Definition buffer_of : buffer := (buff, Z.of_nat KB).

(** Connect, then a send and a reception for every round. *)
Definition stride : nat := S (2 * times).
Definition op_id (i k : nat) : nat := i * stride + k.

(** [while (times--) {...}], the operations from number [k] on. *)
Fixpoint client_loop (i : nat) (d : descriptor) (times k : nat) (bytes_read : Z) : co Z :=
  match times with
  | O => co_return bytes_read
  | S times =>
      let caught (_ : Z) := co_return bytes_read in
      await_op (op_id i k) (send buffer_of) d
        (fun _ =>
           await_op (op_id i (S k)) (recv buffer_of) d
             (fun m => if m =? 0 then co_return bytes_read
                       else client_loop i d times (S (S k)) (wrapu 64 (bytes_read + m)))
             caught)
        caught
  end.

(** [None]: [connector{}] or [set_no_delay()] threw. *)
Definition client (i : nat) (conn : option descriptor) : co Z :=
  match conn with
  | None => co_return 0
  | Some d =>
      await_op (op_id i 0) (connect (I := ipv4_address big) addr) d
        (fun _ => client_loop i d times 1 0) (fun _ => co_return 0)
  end.

(** The entry of every operation. *)
Definition client_entry (d : descriptor) (k : nat) : Sockets.sqe :=
  match k with
  | O => io_operation (connect (I := ipv4_address big) addr) d
  | S k => if Nat.even k then io_operation (send buffer_of) d else io_operation (recv buffer_of) d
  end.

(** What the kernel may answer to operation [id] of the connections [ds]. *)
Definition may_answer (ds : list (option descriptor)) (answer : nat -> Z) : Prop :=
  forall i d k, ds !! i = Some (Some d) -> (k < stride)%nat -> completes (client_entry d k) (answer (op_id i k)).

(** ** What the connection counts *)

(** The receptions of the rounds in which nothing failed, up to the first that
    gave nothing. *)
Fixpoint rounds (answer : nat -> Z) (times k : nat) : list Z :=
  match times with
  | O => []
  | S times =>
      if answer k <? 0 then []
      else if answer (S k) <=? 0 then []
      else answer (S k) :: rounds answer times (S (S k))
  end.

Definition client_bytes (answer : nat -> Z) (i : nat) (conn : option descriptor) : Z :=
  match conn with
  | None => 0
  | Some _ => if answer (op_id i 0) <? 0 then 0
              else wrapu 64 (sum (rounds (fun k => answer (op_id i k)) times 1))
  end.

Lemma client_loop_evaluates answer i d t k acc :
  acc = wrapu 64 acc ->
  evaluate answer (client_loop i d t k acc)
  = Value (wrapu 64 (acc + sum (rounds (fun k => answer (op_id i k)) t k))).
Proof.
  revert k acc. induction t as [|t IH]; intros k acc Ha; cbn [client_loop rounds].
  - simpl. by rewrite Z.add_0_r, <- Ha.
  - assert (Stop : Value acc = Value (wrapu 64 (acc + sum []))) by (simpl; by rewrite Z.add_0_r, <- Ha).
    rewrite (proj1 (evaluate_size _ _ (send buffer_of) _ _ _ eq_refl)). unfold handled at 1.
    destruct (answer (op_id i k) <? 0); [done|].
    rewrite (proj1 (evaluate_size _ _ (recv buffer_of) _ _ _ eq_refl)). unfold handled at 1.
    destruct (answer (op_id i (S k)) <? 0) eqn:E2; boolp; [by rewrite (proj2 (Z.leb_le _ _)) by lia|].
    destruct (answer (op_id i (S k)) =? 0) eqn:E3; boolp; [by rewrite E3|].
    rewrite (proj2 (Z.leb_gt _ _)) by lia. rewrite IH by by rewrite wrapu_twice.
    rewrite wrapu_add_l. cbn [sum foldr]. do 2 f_equal. unfold sum. simpl. lia.
Qed.

Lemma client_evaluates answer i conn :
  evaluate answer (client i conn) = Value (client_bytes answer i conn).
Proof.
  destruct conn as [d|]; [|done]. unfold client, await_op. cbn [evaluate client_bytes].
  unfold connect, plain_result, void_result. cbn [get_result fst].
  destruct (answer (op_id i 0) <? 0); [done|]. by rewrite client_loop_evaluates.
Qed.

Lemma client_loop_waits answer i d t k acc : (waits answer (client_loop i d t k acc) <= 2 * t)%nat.
Proof.
  revert k acc. induction t as [|t IH]; intros k acc; cbn [client_loop]; [simpl; lia|].
  rewrite (proj2 (evaluate_size _ _ (send buffer_of) _ _ _ eq_refl)). unfold handled at 1.
  destruct (answer (op_id i k) <? 0); [simpl; lia|].
  rewrite (proj2 (evaluate_size _ _ (recv buffer_of) _ _ _ eq_refl)). unfold handled at 1.
  destruct (answer (op_id i (S k)) <? 0); [simpl; lia|].
  destruct (_ =? 0); [simpl; lia|].
  match goal with |- context [waits _ (client_loop _ _ _ ?k ?a)] => specialize (IH k a) end. lia.
Qed.

Lemma client_waits answer i conn : (waits answer (client i conn) <= stride)%nat.
Proof.
  unfold stride. destruct conn as [d|]; [|simpl; lia]. unfold client, await_op. cbn [waits].
  unfold connect, plain_result, void_result. cbn [get_result fst].
  destruct (_ <? 0); [simpl; lia|]. pose proof (client_loop_waits answer i d times 1 0). lia.
Qed.

(** The answer to a reception is at most the size of the buffer. *)
Lemma rounds_bound answer t k :
  (forall j, (j < t)%nat -> answer (S (k + 2 * j)) <= Z.of_nat KB) ->
  Forall (fun x => 0 <= x <= Z.of_nat KB) (rounds answer t k) /\ (length (rounds answer t k) <= t)%nat.
Proof.
  revert k. induction t as [|t IH]; intros k H; simpl; [done|].
  destruct (answer k <? 0); [simpl; split; [done | lia]|].
  destruct (answer (S k) <=? 0) eqn:E; [simpl; split; [done | lia]|]. apply Z.leb_gt in E.
  destruct (IH (S (S k))) as [F L].
  { intros j Hj. replace (S (S (S k) + 2 * j)) with (S (k + 2 * S j)) by lia. apply H. lia. }
  split; [|simpl; lia]. constructor; [|done]. specialize (H 0%nat ltac:(lia)).
  rewrite Nat.mul_0_r, Nat.add_0_r in H. lia.
Qed.

Lemma recv_completes d j res :
  completes (client_entry d (S (1 + 2 * j))) res -> res <= Z.of_nat KB.
Proof.
  unfold client_entry. replace (Nat.even (1 + 2 * j)) with false.
  - unfold completes, total_size, buffer_of. cbn -[KB Z.of_nat]. lia.
  - replace (1 + 2 * j)%nat with (S (2 * j)) by lia. by rewrite Nat.even_succ, Nat.odd_mul.
Qed.

Lemma client_bytes_bound ds answer i conn :
  may_answer ds answer -> ds !! i = Some conn ->
  0 <= client_bytes answer i conn <= Z.of_nat KB * Z.of_nat times.
Proof.
  intros M H. destruct conn as [d|]; simpl; [|lia]. destruct (_ <? 0); [lia|].
  destruct (rounds_bound (fun k => answer (op_id i k)) times 1) as [F L].
  { intros j Hj. apply (recv_completes d j). apply (M i d); [done | unfold stride; lia]. }
  pose proof (sum_bound _ (Z.of_nat KB) ltac:(lia) F) as B.
  set (s := sum _) in *. unfold wrapu. pose proof (Z.mod_pos_bound s (2 ^ 64) ltac:(lia)).
  pose proof (Z.mod_le s (2 ^ 64) ltac:(lia) ltac:(lia)). nia.
Qed.

(** ** All connections of a thread *)

Lemma imap_indexed {A B} (f : nat -> A -> B) (l : list A) (dflt : A) :
  imap f l = List.map (fun i => f i (nth i l dflt)) (seq 0 (length l)).
Proof.
  apply list_eq. intros i. rewrite list_lookup_imap, list_lookup_fmap.
  destruct (l !! i) as [x|] eqn:E; simpl.
  - pose proof (lookup_lt_Some _ _ _ E). rewrite lookup_seq_lt by done. simpl. by rewrite (nth_lookup_Some _ _ _ x E).
  - apply lookup_ge_None in E. by rewrite lookup_seq_ge.
Qed.

Section run.
Variable answer : nat -> Z.
Variable encode : nat -> Coroutines.outcome Z -> nat.
Context {ring : Type} `{!Uring ring} `{!AnswerRing answer ring}.

(** C16: the connections that a thread of the benchmark makes all end.  [start]
    posts a task on its context, which spawns [start_all_conn], which starts every
    [client]; however the kernel cuts and orders its completions, [run()] brings
    all of them to their [co_return] once as many turns found everything completed
    as one connection has operations.  They end in some order, each once, with the
    number of bytes of the receptions before its first failure or end of stream, at
    most 1024 a round; for that order [when_all] gives the counts in the order of
    the connections, and their sum is at most 1024 bytes per round and
    connection. *)
Theorem connections_complete ds (r : ring) t ts ec :
  pending answer r = [] -> ready answer r = [] -> room answer r = IoRun.size answer (ring := ring) ->
  (length ds < IoRun.size answer (ring := ring))%nat ->
  Forall calm (t :: ts) -> (stride <= full_turns (S (length ds + length ts)) ts)%nat ->
  may_answer ds answer ->
  let counts := imap (client_bytes answer) ds in
  exists c order, run None (t :: ts) ec (posted encode (imap client ds) r) = Ran false c /\ awaiters c = ∅ /\
    order ≡ₚ seq 0 (length ds) /\
    dids (trace c) = List.map (fun i => encode i (Value (nth i counts 0))) order /\
    when_all (List.map Value counts) order = Some (Value counts) /\
    Forall (fun n => 0 <= n <= Z.of_nat KB * Z.of_nat times) counts /\
    0 <= accumulate counts <= Z.of_nat (length ds) * (Z.of_nat KB * Z.of_nat times).
Proof.
  intros Pr Rr Ro L C D M counts. assert (Lc : length (imap client ds) = length ds) by apply length_imap.
  destruct (run_settled answer encode (posted encode (imap client ds) r) (imap client ds) t ts ec stride)
    as (c & ps & E & P & [k T] & W); [done | by rewrite Lc | done | |].
  { apply Forall_cons in C as [Ct _]. apply first_turn_posted; try done; [by rewrite Lc|].
    apply Forall_lookup. intros i m Hm. rewrite list_lookup_imap in Hm.
    destruct (ds !! i); simplify_eq/=. apply client_waits. }
  rewrite Lc in W.
  assert (ps = []) as -> by (eapply within_0; by replace (stride - _)%nat with 0%nat in W by lia).
  rewrite app_nil_r in P. unfold results in P.
  assert (R : imap (fun i m => encode i (evaluate answer m)) (imap client ds)
    = imap (fun i n => encode i (Value n)) counts).
  { apply list_eq. intros i. unfold counts. rewrite !list_lookup_imap. destruct (ds !! i); [|done]. simpl.
    by rewrite client_evaluates. }
  rewrite R, (imap_indexed _ _ 0) in P. unfold counts in P at 2. rewrite length_imap in P.
  apply Permutation_map_inv in P as (order & Eo & Po).
  assert (F : Forall (fun n => 0 <= n <= Z.of_nat KB * Z.of_nat times) counts).
  { apply Forall_lookup. intros i n Hn. unfold counts in Hn. rewrite list_lookup_imap in Hn.
    destruct (ds !! i) as [conn|] eqn:Ed; simplify_eq/=. by eapply client_bytes_bound. }
  exists c, order. split_and!; try done.
  - by destruct T as [-> _ _ _ _ _].
  - apply when_all_results. unfold counts. by rewrite length_imap.
  - rewrite accumulate_sum. apply Z.mod_pos_bound. lia.
  - rewrite accumulate_sum. pose proof (sum_bound counts (Z.of_nat KB * Z.of_nat times) ltac:(lia) F) as B.
    unfold counts in B at 3. rewrite length_imap in B.
    pose proof (Z.mod_le (sum counts) (2 ^ 64) ltac:(lia) ltac:(lia)). unfold wrapu. lia.
Qed.
End run.
End client.

(** Two rounds: the first connection gets 24 and 10 bytes, the second is
    refused, and for the third no socket could be made. *)
Definition sample_answer (id : nat) : Z :=
  match id with 2%nat => 24 | 1%nat | 3%nat => 1024 | 4%nat => 10 | 5%nat => -111 | _ => 0 end.

Definition sample_conns : list (option descriptor) :=
  [Some (mk_descriptor 5 {[5]}); Some (mk_descriptor 6 {[6]}); None].

Definition sample_count (i : nat) (r : Coroutines.outcome Z) : nat :=
  match r with Value z => (i + 10 * Z.to_nat z)%nat | Throw _ => 0%nat end.

Lemma connections_complete_witness :
  let addr := Ipv4.make_address false (fun _ => None) 8888 None in
  exists c order, run None (replicate 7 (sample_turn 20 [])) 0
      (posted sample_count (imap (client false addr 2 4096) sample_conns)
         (mk_answer_ring (answer := sample_answer) [] [] [])) = Ran false c /\
    awaiters c = ∅ /\ order ≡ₚ [0; 1; 2]%nat /\
    when_all [Value 34; Value 0; Value 0] order = Some (Value [34; 0; 0]).
Proof.
  intros addr.
  destruct (connections_complete false addr 2 4096 sample_answer sample_count sample_conns
    (mk_answer_ring (answer := sample_answer) [] [] []) (sample_turn 20 []) (replicate 6 (sample_turn 20 [])) 0)
    as (c & order & E & W & O & _ & A & _).
  - reflexivity.
  - reflexivity.
  - reflexivity.
  - apply Nat.ltb_lt. reflexivity.
  - repeat constructor.
  - apply Nat.leb_le. reflexivity.
  - intros i d k Hd Hk. unfold stride in Hk.
    destruct i as [|[|[|i]]]; [injection Hd as <- | injection Hd as <- | discriminate Hd | discriminate Hd];
      (do 5 (destruct k as [|k]; [apply Z.leb_le; vm_compute; reflexivity|])); exfalso; clear -Hk; lia.
  - exists c, order. split; [exact E|]. split; [exact W|]. split; [exact O|]. exact A.
Defined.
